(* ===== verification/_CoqProject ===== *)
-Q . S2P
Prelude.v
OrdMap.v
Bytes.v
Ranges.v
Publication.v
PublicationSteps.v
PublicationProps.v
Wire.v
Inbox.v
InboxFacts.v
InboxProps.v
InboxPage.v
InboxPageProps.v
EntryFetch.v
AckBatch.v
AckBatchProps.v
InboxSystem.v
Replay.v
ReplayProps.v
Wal.v
WalSegment.v
WalFacts.v
WalLog.v
WalWriter.v
WalCrash.v
WalRepair.v
WalRestart.v
WalProps.v
WalRun.v
Rfs1.v
Rfs1Props.v
Text.v
TextProps.v
Tasks.v
TasksProps.v
Crypto.v
Ratchet.v
CryptoProps.v
RatchetProps.v
RatchetRun.v
Net.v
NetProps.v
Turn.v
TurnProps.v
TurnRun.v
Voice.v
VoiceProps.v
VoiceRun.v
GroupSender.v
GroupSenderProps.v
GroupSenderRun.v
X3dh.v
X3dhProps.v
X3dhRun.v
Gf256.v
Recovery.v
RecoveryFacts.v
Gf256Field.v
RecoveryProps.v
