(* ===== verification/Prelude.v ===== *)
(** * Ramflux: a verification library

    Ramflux is a federated messenger. A _router_ keeps one inbox per target
    device and hands its deliveries to gateways, and logs them in a _write-ahead
    log_ before it acknowledges them; a _publication core_ decides
    which sequence numbers a reader may see while writers are still at work; a
    _replay guard_ refuses envelopes and signed requests that were accepted
    before; clients talk end to end through _double-ratchet sessions_; calls go
    through a _media relay_ that sees opaque packets; task events signed by
    people and agents are reduced to a shared task state; binary documents
    travel in the canonical RFS1 format; and an account's recovery secret is
    shared among a quorum. This library models those parts from the Rust sources
    under src/ and proves what they promise.

    ** How the parts fit together

    A delivery is first _reserved_ in the publication core (a descriptor gets
    the next sequence of its inbox), then written, then finished as accepted or
    aborted; only the prefix of finished sequences is published. The inbox
    appends the delivery under that sequence and settles acknowledged ones, but
    never past the publication core's settlement boundary. Acknowledgements may
    come in batches, which work on a copy of one target and are merged back
    under a lease. The inbox sees the core through the class [PublicationApi],
    with its laws in [PublicationLaws]; the inbox theorems are proved against
    the laws, and the core's theorems discharge them.

    The write-ahead log has a writer, which frames submissions and appends them to
    segment files, and an index in memory, which answers retries and feeds the
    inbox. A batch is acknowledged after its segment is synced and its records are
    indexed; a start repairs the header of an empty newest segment and reads the
    segments back into a new index.

    ** Files

    - Prelude.v: Rust results, methods on [&mut self] as a state-and-error
      monad, machine integers with their clamping and checking, the [ramflux]
      hint database, generic lemmas. OrdMap.v: [BTreeMap] and [BTreeSet] with
      their iteration order. Bytes.v: byte strings and big-endian integers.
    - Ranges.v, Publication.v, PublicationSteps.v, PublicationProps.v:
      crates/ramflux-node-core/src/router_store/publication.rs and its
      submodules. Descriptors live in a shared heap, as the [Arc]s of the
      source; the step relation [step] has one action per operation that takes
      the lock or changes an atomic, so its runs are all interleavings.
    - Wire.v, Inbox.v, InboxFacts.v, InboxProps.v: inbox.rs and the wire
      records it stores (crates/ramflux-protocol/src/core_types.rs). The clock
      is an argument.
    - InboxPage.v, InboxPageProps.v: inbox_page.rs, the pages a client resumes
      from. EntryFetch.v: entry_fetch.rs, the query for one delivery.
    - AckBatch.v, AckBatchProps.v: inbox/ack_candidate.rs and
      router/ack_batch.rs. InboxSystem.v: the inbox in its node, where batches run
      beside the traffic and stored state is restored and merged.
    - Replay.v, ReplayProps.v: replay_guard.rs, its legacy reader, and the
      replay check of crates/ramflux-protocol/src/replay.rs.
    - Wal.v, WalSegment.v: crates/ramflux-node-core/src/router_wal.rs and
      router_wal/identity.rs, with the inspection of a directory in
      router_wal/identity/recovery.rs. Wal.v has the records and the index,
      WalSegment.v the bytes of headers and frames, the writer, and recovery. WalFacts.v is
      the invariant of the index, WalLog.v the log as bytes, WalWriter.v the
      invariant of the writer, WalCrash.v what a crash leaves, WalRepair.v the
      start that repairs it, WalRestart.v the log together with its index, WalProps.v the theorems. WalRun.v has CRC-32
      and a codec of the records for runs.
    - Rfs1.v, Rfs1Props.v: crates/ramflux-protocol/src/dm_fs_v3/codec.rs.
    - Text.v, TextProps.v: crates/ramflux-protocol/src/text_safety.rs.
    - Tasks.v, TasksProps.v: crates/ramflux-protocol/src/tasks/.
    - Crypto.v, CryptoProps.v: key derivation and hashes (crates/ramflux-
      crypto/src/kdf.rs), RFH1 headers (crates/ramflux-protocol/src/header.rs)
      and franking commitments (franking.rs). Ratchet.v, RatchetProps.v,
      RatchetRun.v: double_ratchet.rs, its theorems, and runs on a concrete
      instance of the primitives.
    - Net.v, NetProps.v: addresses and the relay's target filter. Turn.v,
      TurnProps.v, TurnRun.v: crates/ramflux-node-core/src/signaling.rs (calls,
      TURN credentials, allocations, flows, media tokens) and the packet handler
      of apps/ramflux-relay/src/media.rs. Voice.v, VoiceProps.v, VoiceRun.v:
      voice.rs with voice_quota.rs and voice_rebinding.rs, and the tags of
      crates/ramflux-crypto/src/voice_rebind.rs.
    - GroupSender.v, GroupSenderProps.v, GroupSenderRun.v: sender keys of groups,
      crates/ramflux-crypto/src/group_sender.rs.
    - X3dh.v, X3dhProps.v, X3dhRun.v: prekey bundles and X3DH (prekey.rs, x3dh.rs)
      and the operations of the client that publish a bundle, check one and make
      the two ends of a session (crates/ramflux-sdk/src/client/dm_session.rs,
      identity.rs, private_prekeys.rs, identity_authority/verify.rs).
    - Gf256.v, Recovery.v, RecoveryFacts.v: crates/ramflux-crypto/src/recovery.rs.
      Gf256Field.v, RecoveryProps.v: the bytes as a MathComp field, polynomials
      over it, and the theorems about recovery.

    ** What the theorems show

    - Publication: everything at or below the published mark is resolved,
      resolutions are final, an uncertain write blocks publication for good,
      capacities hold, batches are reserved completely or not at all, an
      abandoned reservation can always be resolved, and the page view misses
      nothing. The aborted ranges are a set of sequences: [coalesce] is union.
    - Inbox: the settled floor stays below every pending delivery and every
      unresolved assignment, in runs with batches, restores and merges that meet
      the conditions [node_step] states; the effect of ACK, NACK, expiry and pull is stated
      exactly; windows, receipts and dead letters are bounded; making room in
      the window terminates. A batch of acknowledgements keeps the invariant
      and, without concurrent traffic, equals its acknowledgements one by one.
    - Pages: a page lists exactly the live deliveries it covers and reports
      exactly the losses, within its limits on entries, visits and bytes; page
      after page a client collects every live delivery, if each fits a page; the
      query for one delivery agrees with the pages. These theorems join the inbox
      with a reachable publication core and are for mailboxes in which pending, dead
      and aborted sequences are [apart]; [overlap_disagrees] is a reachable state in
      which they are not.
    - Replay guard: an envelope is accepted once unless its key is swept or
      restored with an earlier expiry, a signed request once as long
      as no request with its key carries an earlier expiry, and keys collide
      only for the same source, envelope and target.
    - Write-ahead log: after a crash at any point, with any part of the unsynced
      tail lost and the header of a new segment torn anywhere, the next start
      succeeds and gives a prefix of the records that holds all that were synced; a
      restart keeps every assignment, live record
      and mark; the indexes of the log agree with its records, and so does the queue
      of deadlines where deadlines do not move with the clock; pruning,
      settlement and the head of a mailbox are stated exactly.
    - RFS1: the scanner accepts exactly the documents of a grammar, never nests
      deeper than four, and its field iterator is a round trip.
    - Tasks: the state invariant; who may close an intervention, what a
      decision has seen, that decisions and approvals are used once, that only
      a human requester accepts, that what is finished stays so, and that the
      requester can always cancel. Text: a rendered event cannot be forged.
    - Ratchet: a chain received in any order is a channel that delivers each
      message once; conversations through any number of Diffie-Hellman turns
      decrypt; a session stores at most 1000 skipped keys whatever arrives; a header's canonical bytes determine the header.
    - Group sender keys: up to 2000 messages of a sender decrypt in any order of
      arrival; the membership commitment is a commitment to the members, in any
      order, with the group, its epochs, its policy and the key id, as long as no
      text is longer than 65535 bytes, beyond which it is cut.
    - Prekeys and X3DH: a published bundle is accepted by other clients, and the
      sessions both ends make from it understand each other, which joins key
      agreement, client and double ratchet.
    - Media relay: quotas hold after any operations; a packet is forwarded only
      between the pinned addresses of two live allocations of one call, under a
      valid token, and to no refused target; the target filter is the list of
      address blocks it stands for; usernames and packets are read back.
    - Voice relay: media goes only between the pinned addresses of the two sides
      of a consented lease; a pinned address changes only by answering, with the
      side's key, a challenge sent to the new address, and the client's answer
      succeeds; leases and their per-account counters are bounded and agree.
    - Recovery: any quorum of shares gives back the secret, and fewer shares
      than the threshold are consistent with every secret.

    Eight theorems exhibit behaviour that departs from the intent of the code:
    [room_made_behind_guard], [candidate_settles_concurrent_append],
    [refused_replay_shortens_window], [skipped_order_outgrows_store],
    [credential_replayed_at_deadline], [refused_copy_burns_key],
    [unsigned_prekey_accepted] and [zero_tail_refused].

    ** Parameters

    Code outside src/ is a parameter: the cryptographic primitives ([Primitives]
    with [PrimitiveLaws], instantiated in RatchetRun.v), Ed25519 signatures of
    group messages and bundles, the JSON of bundles, the account store of the
    client, signature verification and canonical JSON of task events
    ([TaskEnv]), JSON values of extensions and
    of media tokens, base64url decoding, random bytes (32 at a time, and for the
    voice relay never the same twice),
    the durable commit and the gate of an acknowledgement batch, and the sizes of
    JSON records and pages ([page_sizes] says that arrays are their elements and
    commas and that the reserved header is wide enough). For the write-ahead log
    they are postcard and the JSON of extensions (what is written is read back),
    CRC-32 (a 32-bit number), the drawing of mailbox ids (they are valid), and
    base64url and the digest of an envelope, SHA-256 over canonical JSON, of which
    nothing is assumed. A crash keeps of each file a prefix no shorter than what
    was synced; files it extends with zeros are excluded. Of a segment being created
    it leaves any prefix of its header or zeros in its place ([crash_image]); the
    theorem about restarts of a running index takes at most 22 bytes ([crashed]).

    ** Bounds and fuel

    Loops that are not structural carry fuel, set to what bounds them in the
    code: the number of ranges for coalescing, the number of pending rows for
    making room, the items left in its three iterators for the walk of a page,
    255 blocks for HKDF (its counter is a byte), the distance to the target
    counter for skipping keys, the size of the store for evicting them, the
    length of the input for UTF-8 and fields, 4 for nested RFS1 documents, and
    the 8 bits of a byte for a product in GF(256). The two loops of pruning have
    the size of their queue, and the loop of recovery the length of the file and
    one, since a frame takes eight bytes or more. Each bound is shown to suffice
    by the theorems about the loop.

    ** Not modelled

    Of the write-ahead log: errors of the file system (they fence the process),
    the thread that pipelines writes with syncs, the unlinking of closed segments,
    the rotation of incarnations that mismatched headers call for, and the offline
    tools over redb.

    Sockets, TLS and QUIC, the redb and SQLite stores, threads and async
    waiters, metrics, configuration, the command line, and the services around
    the parts above: federation, home migration, custody, notification, object
    relay. They are drivers of the modelled code or depend on libraries and the
    operating system; some of their protocol state machines could be added. *)

From stdpp Require Export base tactics option list numbers strings gmap sets sorting.
From Stdlib Require Import Lia.

(** ** Results: Rust's [Result<T, E>] *)

Inductive result (E A : Type) : Type :=
| Ok (a : A)
| Err (e : E).
Arguments Ok {E A} a.
Arguments Err {E A} e.

#[export] Instance result_ret {E} : MRet (result E) := @Ok E.
#[export] Instance result_bind {E} : MBind (result E) := fun A B k r =>
  match r with Ok a => k a | Err e => Err e end.
#[export] Instance result_fmap {E} : FMap (result E) := fun A B f r =>
  match r with Ok a => Ok (f a) | Err e => Err e end.

#[export] Instance result_eq_dec {E A} `{EqDecision E, EqDecision A} : EqDecision (result E A).
Proof. solve_decision. Defined.

(** Rust's [Result::is_ok]. *)
Definition is_ok {E A} (r : result E A) : bool :=
  match r with Ok _ => true | Err _ => false end.

(** Rust's [Result::map_err]. *)
Definition map_err {E F A} (f : E -> F) (r : result E A) : result F A :=
  match r with Ok a => Ok a | Err e => Err (f e) end.

(** Rust's [Option::ok_or]. *)
Definition ok_or {E A} (o : option A) (e : E) : result E A :=
  match o with Some a => Ok a | None => Err e end.

(** A guard clause [if !cond { return Err(e) }]. *)
Definition ensure {E} (cond : bool) (e : E) : result E unit :=
  if cond then Ok tt else Err e.

(** ** Fallible methods on [&mut self]

    The state as it is left behind comes back with an error as well: what was
    assigned before a [?] stays assigned. *)

Definition stres (S E A : Type) : Type := S -> S * result E A.

#[export] Instance stres_ret {S E} : MRet (stres S E) := fun A a s => (s, Ok a).
#[export] Instance stres_bind {S E} : MBind (stres S E) := fun A B k m s =>
  match m s with
  | (s, Ok a) => k a s
  | (s, Err e) => (s, Err e)
  end.

Definition run {S E A} (m : stres S E A) (s : S) : S * result E A := m s.

(** [&self], an assignment, and [?] on a computation without effects. *)
Definition get {S E} : stres S E S := fun s => (s, Ok s).
Definition modify {S E} (f : S -> S) : stres S E unit := fun s => (f s, Ok tt).
Definition lift {S E A} (r : result E A) : stres S E A := fun s => (s, r).

(** ** Machine integers

    [u64] and [u32] values are [N], [i64] values are [Z]; [usize] lengths of
    collections are [nat]. The operations that clamp or refuse are written out;
    [N.sub] already is Rust's [saturating_sub] on unsigned integers. *)

Definition U64_MAX : N := 18446744073709551615.
Definition U32_MAX : N := 4294967295.
Definition I64_MAX : Z := 9223372036854775807.
Definition I64_MIN : Z := -9223372036854775808.

Definition in_i64 (z : Z) : Prop := (I64_MIN <= z <= I64_MAX)%Z.

Definition u64_saturating_add (a b : N) : N := N.min (a + b) U64_MAX.
Definition u32_saturating_add (a b : N) : N := N.min (a + b) U32_MAX.

Definition u64_checked_add (a b : N) : option N :=
  if decide (a + b <= U64_MAX)%N then Some (a + b)%N else None.
Definition u64_checked_sub (a b : N) : option N :=
  if decide (b <= a)%N then Some (a - b)%N else None.

Definition i64_clamp (z : Z) : Z := Z.max I64_MIN (Z.min z I64_MAX).
Definition i64_saturating_add (a b : Z) : Z := i64_clamp (a + b).
Definition i64_saturating_sub (a b : Z) : Z := i64_clamp (a - b).
Definition i64_checked_add (a b : Z) : option Z :=
  if decide (I64_MIN <= a + b <= I64_MAX)%Z then Some (a + b)%Z else None.

(** Two's-complement wrap-around of an unchecked [i64] addition. *)
Definition i64_wrapping_add (a b : Z) : Z :=
  ((a + b - I64_MIN) mod 18446744073709551616 + I64_MIN)%Z.

(** ** Automation *)

Create HintDb ramflux.

Ltac unfold_ints :=
  unfold u64_saturating_add, u32_saturating_add, u64_checked_add, u64_checked_sub,
    i64_saturating_add, i64_saturating_sub, i64_checked_add, i64_clamp, in_i64,
    U64_MAX, U32_MAX, I64_MAX, I64_MIN in *.

Ltac ints := unfold_ints; repeat case_decide; lia.

(** Peel the binds of a [result] computation known to succeed. *)
Ltac inv_ok :=
  repeat match goal with
  | H : Err _ = Ok _ |- _ => discriminate H
  | H : Ok _ = Err _ |- _ => discriminate H
  | H : Ok _ = Ok _ |- _ => injection H as H; try subst
  | H : Err _ = Err _ |- _ => injection H as H; try subst
  end.

Lemma bind_Ok {E A B} (r : result E A) (k : A -> result E B) b :
  (r ≫= k) = Ok b <-> exists a, r = Ok a /\ k a = Ok b.
Proof. destruct r; simpl; naive_solver. Qed.

Lemma Ok_inj {E A} (a b : A) : @Ok E A a = Ok b -> a = b.
Proof. by intros [= ->]. Qed.

Lemma stres_bind_Ok {S E A B} (m : stres S E A) (k : A -> stres S E B) s s1 a :
  m s = (s1, Ok a) -> (m ≫= k) s = k a s1.
Proof. intros Hm. unfold mbind, stres_bind. by rewrite Hm. Qed.

Lemma stres_bind_Err {S E A B} (m : stres S E A) (k : A -> stres S E B) s s1 e :
  m s = (s1, Err e) -> (m ≫= k) s = (s1, Err e).
Proof. intros Hm. unfold mbind, stres_bind. by rewrite Hm. Qed.

Lemma stres_bind_inv {S E A B} (m : stres S E A) (k : A -> stres S E B) s s' b :
  (m ≫= k) s = (s', Ok b) -> exists s1 a, m s = (s1, Ok a) /\ k a s1 = (s', Ok b).
Proof. unfold mbind, stres_bind. destruct (m s) as [s1 [a|]]; naive_solver. Qed.

(** A computation keeps a property of the state whether it succeeds or not. *)
Definition keeps {S E A} (P : S -> Prop) (m : stres S E A) : Prop := forall s, P s -> P (m s).1.

Lemma keeps_bind {S E A B} (P : S -> Prop) (m : stres S E A) (k : A -> stres S E B) :
  keeps P m -> (forall a, keeps P (k a)) -> keeps P (m ≫= k).
Proof.
  intros Hm Hk s Hs. specialize (Hm s Hs). unfold mbind, stres_bind. destruct (m s) as [s1 [a|]]; [|done].
  by apply Hk.
Qed.

Lemma keeps_ret {S E A} (P : S -> Prop) (a : A) : keeps P (mret a : stres S E A).
Proof. by intros s Hs. Qed.

Lemma keeps_get {S E} (P : S -> Prop) : keeps P (get : stres S E S).
Proof. by intros s Hs. Qed.

Lemma keeps_lift {S E A} (P : S -> Prop) (r : result E A) : keeps P (lift r).
Proof. by intros s Hs. Qed.

Lemma keeps_lift_bind {S E A B} (P : S -> Prop) (r : result E A) (k : A -> stres S E B) :
  (forall a, r = Ok a -> keeps P (k a)) -> keeps P (lift r ≫= k).
Proof. intros Hk s Hs. unfold lift, mbind, stres_bind. destruct r; [by apply Hk|done]. Qed.

Lemma keeps_at {S E A B} (P : S -> Prop) (m : stres S E A) (k : A -> stres S E B) s :
  P (m s).1 -> (forall a, keeps P (k a)) -> P ((m ≫= k) s).1.
Proof. intros Hm Hk. unfold mbind, stres_bind. destruct (m s) as [s1 [a|]]; [by apply Hk|done]. Qed.

Lemma keeps_get_bind {S E B} (P : S -> Prop) (k : S -> stres S E B) :
  (forall s, P s -> P (k s s).1) -> keeps P (get ≫= k).
Proof. intros Hk s Hs. by apply Hk. Qed.

Lemma foldl_keeps {A B} (P : A -> Prop) (f : A -> B -> A) :
  (forall a b, P a -> P (f a b)) -> forall l a, P a -> P (foldl f a l).
Proof. intros Hf l. induction l; simpl; auto. Qed.

Lemma ensure_Ok {E} c (e : E) u : ensure c e = Ok u <-> c = true.
Proof. destruct c, u; naive_solver. Qed.

(** ** Generic list lemmas *)

Lemma length_drop_last {A} (l : list A) n : length (drop (length l - n) l) = Nat.min n (length l).
Proof. rewrite length_drop. lia. Qed.

Lemma size_filter_le `{Countable K} {V} (P : K * V -> Prop) `{!forall x, Decision (P x)} (m : gmap K V) :
  size (filter P m) <= size m.
Proof. apply map_subseteq_size, map_filter_subseteq. Qed.

Lemma size_delete_le `{Countable K} {V} (i : K) (m : gmap K V) : size (delete i m) <= size m.
Proof. apply map_subseteq_size, delete_subseteq. Qed.

Lemma size_delete_lt `{Countable K} {V} (i : K) (m : gmap K V) :
  is_Some (m !! i) -> size (delete i m) < size m.
Proof.
  intros [v Hv]. rewrite map_size_delete_Some by by eexists.
  assert (size m <> 0); [|lia]. intros H0%map_size_empty_inv. by rewrite H0 in Hv.
Qed.

Lemma map_Forall_subseteq `{Countable K} {V} (P : K -> V -> Prop) (m m' : gmap K V) :
  m ⊆ m' -> map_Forall P m' -> map_Forall P m.
Proof. intros Hsub HP i v Hi. apply HP. by eapply lookup_weaken. Qed.

(** Rust's [Iterator::take_while]. *)
Fixpoint take_while {A} (f : A -> bool) (l : list A) : list A :=
  match l with
  | [] => []
  | a :: l => if f a then a :: take_while f l else []
  end.

(** What [take_while] leaves. *)
Fixpoint drop_while {A} (f : A -> bool) (l : list A) : list A :=
  match l with
  | [] => []
  | a :: l' => if f a then drop_while f l' else l
  end.

(** Rust's [is_empty] on a map. *)
Definition is_empty_map `{Countable K} {V} (m : gmap K V) : bool := bool_decide (size m = 0).

Lemma is_empty_map_spec `{Countable K} {V} (m : gmap K V) : is_empty_map m = true <-> m = ∅.
Proof. unfold is_empty_map. rewrite bool_decide_eq_true. apply map_size_empty_iff. Qed.
