(* ===== verification/OrdMap.v ===== *)
(** * Ordered maps and sets: Rust's [BTreeMap] and [BTreeSet]

    A [BTreeMap<K, V>] is a [gmap K V] together with the order of its keys.
    [bt_entries] lists the entries in key order (Rust's [iter]), [bt_first] is
    [first_key_value], [bt_pop_first] is [pop_first], [bt_range_gt] and
    [bt_range_le_last] are the two shapes of [range] the code uses. A [BTreeSet]
    is a [gset] with the same operations. The order of a key type is an instance
    of [KeyOrd]; [u64] keys are ordered as numbers, [String] keys byte-wise, and
    tuples lexicographically, as Rust's derived [Ord] does. *)

From S2P Require Import Prelude.

(** ** Key orders *)

Class KeyOrd (K : Type) := key_le : relation K.

Class KeyOrdOk (K : Type) `{KeyOrd K} : Prop := {
  #[global] key_le_preorder :: PreOrder key_le;
  #[global] key_le_antisymm :: AntiSymm eq key_le;
  #[global] key_le_total :: Total key_le;
}.

#[export] Instance N_key : KeyOrd N := N.le.
#[export] Instance N_key_dec : RelDecision (key_le (K:=N)).
Proof. unfold key_le, N_key. apply _. Defined.
#[export] Instance N_key_ok : KeyOrdOk N.
Proof.
  split; unfold key_le, N_key.
  - split; [intros x|intros x y z]; lia.
  - intros x y; lia.
  - intros x y; lia.
Qed.

#[export] Instance Z_key : KeyOrd Z := Z.le.
#[export] Instance Z_key_dec : RelDecision (key_le (K:=Z)).
Proof. unfold key_le, Z_key. apply _. Defined.
#[export] Instance Z_key_ok : KeyOrdOk Z.
Proof.
  split; unfold key_le, Z_key.
  - split; [intros x|intros x y z]; lia.
  - intros x y; lia.
  - intros x y; lia.
Qed.

(** Byte-wise lexicographic order, as for Rust's [String]. *)
#[export] Instance string_key : KeyOrd string := fun s t => String.leb s t = true.
#[export] Instance string_key_dec : RelDecision (key_le (K:=string)).
Proof. intros s t. unfold key_le, string_key. apply _. Defined.

Lemma string_compare_eq s t : String.compare s t = Eq <-> s = t.
Proof.
  split; [apply String.compare_eq_iff|]. intros ->. induction t as [|a t IH]; simpl; [done|].
  unfold Ascii.compare. by rewrite N.compare_refl.
Qed.

Lemma ascii_compare_lt_trans a b c :
  Ascii.compare a b = Lt -> Ascii.compare b c = Lt -> Ascii.compare a c = Lt.
Proof. unfold Ascii.compare. rewrite !N.compare_lt_iff. lia. Qed.

Lemma ascii_compare_eq a b : Ascii.compare a b = Eq <-> a = b.
Proof.
  split; [apply Ascii.compare_eq_iff|]. intros ->. unfold Ascii.compare. apply N.compare_refl.
Qed.

Lemma string_compare_lt_trans s t u :
  String.compare s t = Lt -> String.compare t u = Lt -> String.compare s u = Lt.
Proof.
  revert t u. induction s as [|a s IH]; intros [|b t] [|c u]; simpl; try done.
  destruct (Ascii.compare a b) eqn:Eab; try done;
    destruct (Ascii.compare b c) eqn:Ebc; try done; intros.
  - apply ascii_compare_eq in Eab as ->. rewrite Ebc. eauto.
  - apply ascii_compare_eq in Eab as ->. by rewrite Ebc.
  - apply ascii_compare_eq in Ebc as ->. by rewrite Eab.
  - by rewrite (ascii_compare_lt_trans _ _ _ Eab Ebc).
Qed.

Lemma string_key_le_iff (s t : string) :
  key_le s t <-> s = t \/ String.compare s t = Lt.
Proof.
  unfold key_le, string_key, String.leb.
  destruct (String.compare s t) eqn:E; split; intros; try naive_solver.
  - left. by apply string_compare_eq.
  - destruct H as [->|]; [|done]. assert (String.compare t t = Eq) by by apply string_compare_eq. congruence.
Qed.

#[export] Instance string_key_ok : KeyOrdOk string.
Proof.
  split; [split| |].
  - intros s. rewrite string_key_le_iff. auto.
  - intros s t u. rewrite !string_key_le_iff.
    intros [->|?] [->|?]; eauto using string_compare_lt_trans.
  - intros s t. rewrite !string_key_le_iff. intros [->|H1] [?|H2]; try done.
    pose proof (string_compare_lt_trans _ _ _ H1 H2) as Hc.
    assert (String.compare s s = Eq) by by apply string_compare_eq. congruence.
  - intros s t. rewrite !string_key_le_iff.
    pose proof (String.compare_antisym s t) as Ha.
    destruct (String.compare s t) eqn:E.
    + apply string_compare_eq in E. auto.
    + auto.
    + right. right. destruct (String.compare t s); naive_solver.
Qed.

(** Lexicographic order of a pair of keys, as Rust derives it. *)
#[export] Instance prod_key `{KeyOrd A, KeyOrd B} : KeyOrd (A * B) := fun p q =>
  (key_le p.1 q.1 /\ p.1 <> q.1) \/ (p.1 = q.1 /\ key_le p.2 q.2).
#[export] Instance prod_key_dec `{KeyOrd A, KeyOrd B, EqDecision A,
  !RelDecision (key_le (K:=A)), !RelDecision (key_le (K:=B))} :
  RelDecision (key_le (K:=A*B)).
Proof. intros p q. unfold key_le, prod_key. apply _. Defined.
#[export] Instance prod_key_ok `{KeyOrdOk A, KeyOrdOk B, EqDecision A} : KeyOrdOk (A * B).
Proof.
  split; [split| |].
  - intros [a b]. right. simpl. split; [done|reflexivity].
  - intros [a b] [a' b'] [a'' b'']. unfold key_le, prod_key; simpl.
    intros [[? Hn]|[-> ?]] [[? Hn']|[-> ?]]; auto.
    + left. split; [by etrans|]. intros ->. apply Hn. by apply (anti_symm key_le).
    + right. split; [done|by etrans].
  - intros [a b] [a' b']. unfold key_le, prod_key; simpl.
    intros [[? Hn]|[-> ?]] [[? Hn']|[? ?]]; simplify_eq; try done.
    + exfalso. apply Hn. by apply (anti_symm key_le).
    + f_equal. by apply (anti_symm key_le).
  - intros [a b] [a' b']. unfold key_le, prod_key; simpl.
    destruct (decide (a = a')) as [->|Hne].
    + destruct (total key_le b b'); auto.
    + destruct (total key_le a a'); auto.
Qed.

(** ** Ordered iteration *)

Section ordmap.
Context {K : Type} `{Countable K, KO : KeyOrd K, !RelDecision (key_le (K:=K))}.
Context {V : Type}.
Implicit Types (m : gmap K V) (k : K).

Definition entry_le : relation (K * V) := fun p q => key_le p.1 q.1.

#[global] Instance entry_le_dec : RelDecision entry_le.
Proof. intros p q. unfold entry_le. apply _. Defined.

Definition bt_entries m : list (K * V) := merge_sort entry_le (map_to_list m).
Definition bt_keys m : list K := (bt_entries m).*1.
Definition bt_values m : list V := (bt_entries m).*2.

Definition bt_first m : option (K * V) := head (bt_entries m).

Definition bt_pop_first m : gmap K V :=
  match bt_first m with Some (k, _) => delete k m | None => m end.

(** [range(k..).next()] / [range((Excluded(k), Unbounded))]: entries at or
    after, respectively strictly after, a key. *)
Definition bt_range_ge (k : K) m : list (K * V) :=
  filter (fun p => key_le k p.1) (bt_entries m).
Definition bt_range_gt (k : K) m : list (K * V) :=
  filter (fun p => key_le k p.1 /\ k <> p.1) (bt_entries m).
(** [range(..k)] and [range(..=k)]. *)
Definition bt_range_lt (k : K) m : list (K * V) :=
  filter (fun p => key_le p.1 k /\ p.1 <> k) (bt_entries m).
Definition bt_range_le (k : K) m : list (K * V) :=
  filter (fun p => key_le p.1 k) (bt_entries m).

Context `{!KeyOrdOk K}.

#[global] Instance entry_le_total : Total entry_le.
Proof. intros p q. apply (total (key_le (K:=K)) p.1 q.1). Qed.
#[global] Instance entry_le_trans : Transitive entry_le.
Proof. intros p q r. unfold entry_le. apply transitivity. Qed.

Lemma bt_entries_perm m : bt_entries m ≡ₚ map_to_list m.
Proof. apply merge_sort_Permutation. Qed.

Lemma elem_of_bt_entries m k v : (k, v) ∈ bt_entries m <-> m !! k = Some v.
Proof. rewrite bt_entries_perm. apply elem_of_map_to_list. Qed.

Lemma bt_entries_sorted m : StronglySorted entry_le (bt_entries m).
Proof. apply StronglySorted_merge_sort; apply _. Qed.

Lemma NoDup_bt_keys m : NoDup (bt_keys m).
Proof. unfold bt_keys. rewrite bt_entries_perm. apply NoDup_fst_map_to_list. Qed.

Lemma length_bt_entries m : length (bt_entries m) = size m.
Proof. rewrite bt_entries_perm. apply length_map_to_list. Qed.

Lemma bt_first_Some m k v :
  bt_first m = Some (k, v) <->
  m !! k = Some v /\ forall k' v', m !! k' = Some v' -> key_le k k'.
Proof.
  unfold bt_first. pose proof (bt_entries_sorted m) as Hs.
  destruct (bt_entries m) as [|[k0 v0] l] eqn:E; simpl.
  - split; [done|]. intros [Hk _]. apply elem_of_bt_entries in Hk.
    rewrite E in Hk. by apply not_elem_of_nil in Hk.
  - assert (m !! k0 = Some v0) as Hk0.
    { apply elem_of_bt_entries. rewrite E. left. }
    assert (forall k' v', m !! k' = Some v' -> key_le k0 k') as Hmin.
    { intros k' v' Hk'. apply elem_of_bt_entries in Hk'. rewrite E in Hk'.
      apply elem_of_cons in Hk' as [[= -> ->]|Hin]; [reflexivity|].
      apply StronglySorted_inv in Hs as [_ Hall].
      rewrite Forall_forall in Hall. apply (Hall _ Hin). }
    split.
    + intros [= -> ->]. eauto.
    + intros [Hk Hle]. assert (k = k0) as ->.
      { apply (anti_symm key_le); eauto. }
      by simplify_eq.
Qed.

Lemma bt_first_None m : bt_first m = None <-> m = ∅.
Proof.
  unfold bt_first. destruct (bt_entries m) as [|[k v] l] eqn:E; simpl.
  - split; [|done]. intros _. apply map_to_list_empty_iff, Permutation_nil_r.
    by rewrite <-bt_entries_perm, E.
  - split; [done|]. intros ->. assert ((∅ : gmap K V) !! k = Some v) as Hk.
    { apply elem_of_bt_entries. rewrite E. left. }
    by rewrite lookup_empty in Hk.
Qed.

Lemma bt_first_lookup m k v : bt_first m = Some (k, v) -> m !! k = Some v.
Proof. intros [? _]%bt_first_Some. done. Qed.

Lemma bt_first_min m k v k' v' :
  bt_first m = Some (k, v) -> m !! k' = Some v' -> key_le k k'.
Proof. intros [_ Hm]%bt_first_Some. apply Hm. Qed.

Lemma elem_of_bt_range_gt m k k' v :
  (k', v) ∈ bt_range_gt k m <-> m !! k' = Some v /\ key_le k k' /\ k <> k'.
Proof. unfold bt_range_gt. rewrite list_elem_of_filter, elem_of_bt_entries. naive_solver. Qed.
Lemma elem_of_bt_range_ge m k k' v :
  (k', v) ∈ bt_range_ge k m <-> m !! k' = Some v /\ key_le k k'.
Proof. unfold bt_range_ge. rewrite list_elem_of_filter, elem_of_bt_entries. naive_solver. Qed.
Lemma elem_of_bt_range_lt m k k' v :
  (k', v) ∈ bt_range_lt k m <-> m !! k' = Some v /\ key_le k' k /\ k' <> k.
Proof. unfold bt_range_lt. rewrite list_elem_of_filter, elem_of_bt_entries. naive_solver. Qed.
Lemma elem_of_bt_range_le m k k' v :
  (k', v) ∈ bt_range_le k m <-> m !! k' = Some v /\ key_le k' k.
Proof. unfold bt_range_le. rewrite list_elem_of_filter, elem_of_bt_entries. naive_solver. Qed.

Lemma StronglySorted_filter {A} (R : relation A) (P : A -> Prop) `{!forall x, Decision (P x)} l :
  StronglySorted R l -> StronglySorted R (filter P l).
Proof.
  induction 1 as [|x l Hs IH Hall]; [constructor|].
  rewrite filter_cons. case_decide; [|done]. constructor; [done|].
  rewrite Forall_forall in *. intros y Hy. apply list_elem_of_filter in Hy as [_ Hy]. auto.
Qed.

Lemma bt_range_gt_sorted m k : StronglySorted entry_le (bt_range_gt k m).
Proof. apply StronglySorted_filter, bt_entries_sorted. Qed.
Lemma bt_range_ge_sorted m k : StronglySorted entry_le (bt_range_ge k m).
Proof. apply StronglySorted_filter, bt_entries_sorted. Qed.
Lemma bt_range_le_sorted m k : StronglySorted entry_le (bt_range_le k m).
Proof. apply StronglySorted_filter, bt_entries_sorted. Qed.
Lemma bt_range_lt_sorted m k : StronglySorted entry_le (bt_range_lt k m).
Proof. apply StronglySorted_filter, bt_entries_sorted. Qed.

(** The head of a sorted range is its least entry. *)
Lemma sorted_head_min (l : list (K * V)) p q :
  StronglySorted entry_le l -> head l = Some p -> q ∈ l -> entry_le p q.
Proof.
  destruct l as [|x l]; [done|]. intros [_ Hall]%StronglySorted_inv [= ->].
  intros [->|Hq]%elem_of_cons; [unfold entry_le; reflexivity|].
  rewrite Forall_forall in Hall. auto.
Qed.

(** The last entry of a sorted range is its greatest. *)
Lemma sorted_last_max (l : list (K * V)) p q :
  StronglySorted entry_le l -> last l = Some p -> q ∈ l -> entry_le q p.
Proof.
  induction 1 as [|x l Hs IH Hall]; [done|]. intros Hl Hq.
  apply elem_of_cons in Hq as [->|Hq].
  - destruct l as [|y l]; simpl in *; [simplify_eq; unfold entry_le; reflexivity|].
    rewrite Forall_forall in Hall. apply Hall. by apply last_Some_elem_of.
  - destruct l as [|y l]; [by apply not_elem_of_nil in Hq|]. by apply IH.
Qed.
End ordmap.

(** ** Values of a map as a bag *)

Section values.
Context {K : Type} `{Countable K, KO : KeyOrd K, !RelDecision (key_le (K:=K))} {V : Type}.
Implicit Types m : gmap K V.

Lemma bt_values_perm m : bt_values m ≡ₚ (map_to_list m).*2.
Proof. unfold bt_values. by rewrite bt_entries_perm. Qed.

Lemma bt_values_insert m k v : m !! k = None -> bt_values (<[k := v]> m) ≡ₚ v :: bt_values m.
Proof. intros Hk. rewrite !bt_values_perm, map_to_list_insert by done. done. Qed.

Lemma bt_values_delete m k v : m !! k = Some v -> bt_values m ≡ₚ v :: bt_values (delete k m).
Proof.
  intros Hk. rewrite <- (insert_delete_id m k v Hk) at 1. apply bt_values_insert, lookup_delete_eq.
Qed.

Lemma bt_values_update m k v v' :
  m !! k = Some v -> exists l, bt_values m ≡ₚ v :: l /\ bt_values (<[k := v']> m) ≡ₚ v' :: l.
Proof.
  intros Hk. exists (bt_values (delete k m)). split; [by apply bt_values_delete|].
  rewrite <- insert_delete_eq. apply bt_values_insert, lookup_delete_eq.
Qed.

Lemma bt_values_sub m m' : m' ⊆ m -> exists l, bt_values m ≡ₚ bt_values m' ++ l.
Proof.
  intros Hsub. apply submseteq_Permutation. rewrite !bt_values_perm.
  by apply fmap_submseteq, map_to_list_submseteq.
Qed.

Lemma length_bt_values m : length (bt_values m) = size m.
Proof. by rewrite bt_values_perm, length_fmap, length_map_to_list. Qed.
End values.

(** ** Collecting an iterator: Rust's [collect::<BTreeMap<_, _>>()]

    Entries are inserted in iteration order, so a later entry replaces an
    earlier one with the same key. *)

Definition bt_collect `{Countable K} {V} (l : list (K * V)) : gmap K V :=
  foldl (fun acc p => <[p.1 := p.2]> acc) ∅ l.

Section collect.
Context `{Countable K} {V : Type}.
Implicit Types (l : list (K * V)).

Lemma bt_collect_snoc l p : bt_collect (l ++ [p]) = <[p.1 := p.2]> (bt_collect l).
Proof. unfold bt_collect. by rewrite foldl_app. Qed.

Lemma bt_collect_reverse l : bt_collect l = list_to_map (reverse l).
Proof.
  induction l as [|p l IH] using rev_ind; [done|].
  rewrite bt_collect_snoc, reverse_snoc, IH. by destruct p.
Qed.

Lemma bt_collect_lookup l k v :
  NoDup l.*1 -> bt_collect l !! k = Some v <-> (k, v) ∈ l.
Proof.
  intros Hnd. rewrite bt_collect_reverse, <-elem_of_list_to_map.
  - by rewrite elem_of_reverse.
  - by rewrite fmap_reverse, reverse_Permutation.
Qed.

Lemma bt_collect_elem_of l k v : bt_collect l !! k = Some v -> (k, v) ∈ l.
Proof.
  rewrite bt_collect_reverse. intros Hk%elem_of_list_to_map_2. by apply elem_of_reverse.
Qed.

Lemma bt_collect_is_Some l k : is_Some (bt_collect l !! k) <-> k ∈ l.*1.
Proof.
  rewrite bt_collect_reverse, <-elem_of_dom, dom_list_to_map_L, elem_of_list_to_set.
  by rewrite fmap_reverse, elem_of_reverse.
Qed.

Lemma bt_collect_size l : (size (bt_collect l) <= length l)%nat.
Proof.
  induction l as [|p l IH] using rev_ind; [done|].
  rewrite bt_collect_snoc, length_app. simpl.
  destruct (bt_collect l !! p.1) eqn:E.
  - rewrite map_size_insert_Some by eauto. lia.
  - rewrite map_size_insert_None by done. lia.
Qed.
End collect.

(** ** Ordered sets *)

Section ordset.
Context {K : Type} `{Countable K, KO : KeyOrd K, !RelDecision (key_le (K:=K)), !KeyOrdOk K}.
Implicit Types (s : gset K) (k : K).

Definition bs_elems s : list K := merge_sort key_le (elements s).
Definition bs_first s : option K := head (bs_elems s).

Lemma elem_of_bs_elems s k : k ∈ bs_elems s <-> k ∈ s.
Proof. unfold bs_elems. rewrite merge_sort_Permutation. apply elem_of_elements. Qed.

Lemma NoDup_bs_elems s : NoDup (bs_elems s).
Proof. unfold bs_elems. rewrite merge_sort_Permutation. apply NoDup_elements. Qed.

Lemma bs_elems_sorted s : StronglySorted key_le (bs_elems s).
Proof. apply StronglySorted_merge_sort; apply _. Qed.

Lemma bs_first_Some s k :
  bs_first s = Some k <-> k ∈ s /\ forall k', k' ∈ s -> key_le k k'.
Proof.
  unfold bs_first. pose proof (bs_elems_sorted s) as Hs.
  destruct (bs_elems s) as [|k0 l] eqn:E; simpl.
  - split; [done|]. intros [Hk _]. apply elem_of_bs_elems in Hk. rewrite E in Hk.
    by apply not_elem_of_nil in Hk.
  - assert (k0 ∈ s) by (apply elem_of_bs_elems; rewrite E; left).
    assert (forall k', k' ∈ s -> key_le k0 k') as Hmin.
    { intros k' Hk'. apply elem_of_bs_elems in Hk'. rewrite E in Hk'.
      apply elem_of_cons in Hk' as [->|Hin]; [reflexivity|].
      apply StronglySorted_inv in Hs as [_ Hall]. rewrite Forall_forall in Hall. auto. }
    split; [intros [= ->]; eauto|]. intros [? Hle]. f_equal. apply (anti_symm key_le); eauto.
Qed.

Lemma bs_first_None s : bs_first s = None <-> s = ∅.
Proof.
  unfold bs_first. destruct (bs_elems s) as [|k0 l] eqn:E; simpl.
  - split; [|done]. intros _. apply elem_of_equiv_empty_L. intros x Hx.
    apply elem_of_bs_elems in Hx. rewrite E in Hx. by apply not_elem_of_nil in Hx.
  - split; [done|]. intros ->. assert (k0 ∈ (∅ : gset K)); [|set_solver].
    apply elem_of_bs_elems. rewrite E. left.
Qed.
End ordset.

#[export] Hint Resolve bt_first_lookup bt_entries_sorted NoDup_bt_keys : ramflux.

(** Taking a prefix of a sorted list drops only entries at or after all of it. *)
Lemma sorted_take_drop {A} (R : relation A) (l : list A) n x :
  StronglySorted R l -> x ∈ l ->
  x ∈ take n l \/ length (take n l) = n /\ Forall (fun y => R y x) (take n l).
Proof.
  intros Hs. revert n. induction Hs as [|y l Hs IH Hall]; intros n Hx; [by apply elem_of_nil in Hx|].
  destruct n as [|n]; [by right|]. simpl.
  apply elem_of_cons in Hx as [->|Hx]; [left; by left|].
  destruct (IH n Hx) as [?|[-> ?]]; [left; by right|]. right. split; [done|].
  constructor; [|done]. rewrite Forall_forall in Hall. auto.
Qed.

Lemma elem_of_take_in {A} (l : list A) n x : x ∈ take n l -> x ∈ l.
Proof. intros (i & Hi & _)%elem_of_take. by eapply list_elem_of_lookup_2. Qed.

(** ** Shrinking: [while map.len() > n { map.pop_first(); }] *)

Definition bt_shrink `{Countable K, !KeyOrd K, !RelDecision (key_le (K:=K))} {V} (n : nat) (m : gmap K V) : gmap K V :=
  Nat.iter (size m - n) bt_pop_first m.

Definition bs_pop_first `{Countable K, !KeyOrd K, !RelDecision (key_le (K:=K))} (s : gset K) : gset K :=
  match bs_first s with Some k => s ∖ {[ k ]} | None => s end.

Definition bs_shrink `{Countable K, !KeyOrd K, !RelDecision (key_le (K:=K))} (n : nat) (s : gset K) : gset K :=
  Nat.iter (size s - n) bs_pop_first s.

Section shrink.
Context `{Countable K, !KeyOrd K, !RelDecision (key_le (K:=K)), !KeyOrdOk K}.

Lemma bt_pop_first_size {V} (m : gmap K V) : size (bt_pop_first m) = (size m - 1)%nat.
Proof.
  unfold bt_pop_first. destruct (bt_first m) as [[k v]|] eqn:E.
  - apply bt_first_lookup in E. rewrite map_size_delete, E. lia.
  - apply bt_first_None in E as ->. by rewrite map_size_empty.
Qed.

Lemma bt_pop_first_subseteq {V} (m : gmap K V) : bt_pop_first m ⊆ m.
Proof. unfold bt_pop_first. destruct (bt_first m) as [[k v]|]; [apply delete_subseteq|done]. Qed.

Lemma bt_shrink_size {V} n (m : gmap K V) : size (bt_shrink n m) <= n.
Proof.
  unfold bt_shrink. assert (forall k, size (Nat.iter k bt_pop_first m) = size m - k) as ->; [|lia].
  induction k as [|k IH]; simpl; [lia|]. rewrite bt_pop_first_size, IH. lia.
Qed.

Lemma bt_shrink_subseteq {V} n (m : gmap K V) : bt_shrink n m ⊆ m.
Proof.
  unfold bt_shrink. induction (size m - n) as [|k IH]; simpl; [done|].
  etrans; [apply bt_pop_first_subseteq|done].
Qed.

Lemma bt_shrink_id {V} n (m : gmap K V) : size m <= n -> bt_shrink n m = m.
Proof. intros. unfold bt_shrink. by replace (size m - n) with 0 by lia. Qed.

Lemma bs_pop_first_size (s : gset K) : size (bs_pop_first s) = (size s - 1)%nat.
Proof.
  unfold bs_pop_first. destruct (bs_first s) as [k|] eqn:E.
  - apply bs_first_Some in E as [Hk _]. rewrite size_difference, size_singleton by set_solver. lia.
  - apply bs_first_None in E as ->. by rewrite size_empty.
Qed.

Lemma bs_shrink_size n (s : gset K) : size (bs_shrink n s) <= n.
Proof.
  unfold bs_shrink. assert (forall k, size (Nat.iter k bs_pop_first s) = size s - k) as ->; [|lia].
  induction k as [|k IH]; simpl; [lia|]. rewrite bs_pop_first_size, IH. lia.
Qed.

Lemma bs_shrink_subseteq n (s : gset K) : bs_shrink n s ⊆ s.
Proof.
  unfold bs_shrink. induction (size s - n) as [|k IH]; simpl; [done|].
  etrans; [|exact IH]. unfold bs_pop_first. destruct (bs_first _); set_solver.
Qed.
End shrink.

Lemma elem_of_drop_in {A} (l : list A) n x : x ∈ drop n l -> x ∈ l.
Proof. intros (i & Hi)%list_elem_of_lookup. rewrite lookup_drop in Hi. by eapply list_elem_of_lookup_2. Qed.

Lemma prod_key_le_fst `{KeyOrdOk A, KeyOrd B} (p q : A * B) : key_le p q -> key_le p.1 q.1.
Proof. intros [[? _]|[-> _]]; [done|reflexivity]. Qed.

(** Entries of a map are strictly sorted by key. *)
Lemma sorted_strict `{KeyOrdOk K} {V} (l : list (K * V)) :
  StronglySorted entry_le l -> NoDup l.*1 ->
  StronglySorted (fun p q => key_le p.1 q.1 /\ p.1 <> q.1) l.
Proof.
  induction 1 as [|p l Hs IH Hall]; intros Hnd; [constructor|].
  apply NoDup_cons in Hnd as [Hp Hnd]. constructor; [auto|].
  rewrite Forall_forall in *. intros q Hq. split; [by apply Hall|].
  intros Heq. apply Hp. rewrite Heq. by apply list_elem_of_fmap_2.
Qed.

Lemma NoDup_filter_fst {K V} (Q : K * V -> Prop) `{!forall x, Decision (Q x)} (l : list (K * V)) :
  NoDup l.*1 -> NoDup (filter Q l).*1.
Proof.
  induction l as [|p l IH]; intros Hnd; [constructor|]. apply NoDup_cons in Hnd as [Hp Hnd].
  rewrite filter_cons. case_decide; [|auto]. simpl. constructor; [|auto].
  intros (q & Heq & [_ Hq]%list_elem_of_filter)%list_elem_of_fmap. apply Hp. rewrite Heq.
  by apply list_elem_of_fmap_2.
Qed.

(** On a sorted list a downward-closed [take_while] is a filter. *)
Lemma elem_of_take_while {A} (R : relation A) (f : A -> bool) l a :
  StronglySorted R l -> (forall a b, R a b -> f b = true -> f a = true) ->
  a ∈ take_while f l <-> a ∈ l /\ f a = true.
Proof.
  intros Hs Hf. induction Hs as [|b l Hs IH Hall]; simpl; [set_solver|].
  destruct (f b) eqn:Hb; rewrite ?elem_of_cons, ?IH.
  - naive_solver.
  - split; [intros ?%elem_of_nil; done|]. intros [[->|Ha] Hfa]; [congruence|].
    rewrite Forall_forall in Hall. pose proof (Hf b a (Hall _ Ha) Hfa). congruence.
Qed.

Lemma take_while_sorted {A} (R : relation A) (f : A -> bool) l :
  StronglySorted R l -> StronglySorted R (take_while f l).
Proof.
  induction 1 as [|b l Hs IH Hall]; simpl; [constructor|]. destruct (f b); [|constructor].
  constructor; [done|]. rewrite Forall_forall in *. intros a Ha. apply Hall.
  clear -Ha. induction l as [|c l IH]; simpl in *; [done|].
  destruct (f c); [|by apply elem_of_nil in Ha].
  apply elem_of_cons in Ha as [->|?]; [by left|right; auto].
Qed.

Lemma StronglySorted_take {A} (R : relation A) l n : StronglySorted R l -> StronglySorted R (take n l).
Proof.
  intros Hs. revert n. induction Hs as [|a l Hs IH Hall]; intros [|n]; simpl; try constructor; auto.
  rewrite Forall_forall in *. intros b Hb. apply Hall. by eapply elem_of_take_in.
Qed.
