(* ===== verification/Bytes.v ===== *)
(** * Bytes

    Byte strings and the big-endian integers of [to_be_bytes] and
    [from_be_bytes], shared by the wire formats. *)

From S2P Require Import Prelude.
From Stdlib Require Import Strings.Byte.

Open Scope N_scope.

Notation bytes := (list Byte.byte).

#[export] Instance byte_eq_dec : EqDecision Byte.byte := Byte.byte_eq_dec.

(** [n as u8] for a value in range. *)
Definition byte_of (n : N) : Byte.byte := default Byte.x00 (Byte.of_N n).

(** [as_bytes] *)
Definition str (s : string) : bytes := String.list_byte_of_string s.

(** [to_be_bytes] *)
Fixpoint be_of_N (width : nat) (n : N) : bytes :=
  match width with
  | O => []
  | S width => be_of_N width (n / 256) ++ [byte_of (n mod 256)]
  end.

(** [from_be_bytes] *)
Definition be_to_N (l : bytes) : N := foldl (fun a b => a * 256 + Byte.to_N b) 0 l.

Definition u64_be : N -> bytes := be_of_N 8.
Definition u32_be : N -> bytes := be_of_N 4.
Definition u16_be : N -> bytes := be_of_N 2.

Lemma byte_of_N b : byte_of (Byte.to_N b) = b.
Proof. unfold byte_of. by rewrite Byte.of_to_N. Qed.

Lemma byte_of_to_N n : n < 256 -> Byte.to_N (byte_of n) = n.
Proof.
  intros Hn. unfold byte_of. destruct (Byte.of_N n) as [b|] eqn:E.
  - simpl. by apply Byte.to_of_N.
  - apply Byte.of_N_None_iff in E. lia.
Qed.

Lemma to_N_bounded b : Byte.to_N b < 256.
Proof. pose proof (Byte.to_N_bounded b). lia. Qed.

Lemma be_to_N_snoc l b : be_to_N (l ++ [b]) = be_to_N l * 256 + Byte.to_N b.
Proof. unfold be_to_N. by rewrite foldl_app. Qed.

Lemma length_be_of_N w n : length (be_of_N w n) = w.
Proof. revert n. induction w as [|w IH]; intros n; simpl; [done|]. rewrite length_app, IH. simpl. lia. Qed.

Lemma be_to_of w n : n < 256 ^ N.of_nat w -> be_to_N (be_of_N w n) = n.
Proof.
  revert n. induction w as [|w IH]; intros n Hn; simpl.
  - simpl in Hn. unfold be_to_N. simpl. lia.
  - rewrite be_to_N_snoc, IH, byte_of_to_N.
    + pose proof (N.div_mod' n 256). lia.
    + apply N.mod_lt. lia.
    + rewrite Nat2N.inj_succ, N.pow_succ_r' in Hn. apply N.Div0.div_lt_upper_bound. lia.
Qed.

Lemma be_of_to l : be_of_N (length l) (be_to_N l) = l.
Proof.
  induction l as [|b l IH] using rev_ind; [done|].
  rewrite length_app, Nat.add_comm. simpl. rewrite be_to_N_snoc.
  pose proof (to_N_bounded b). rewrite N.div_add_l, (N.div_small (Byte.to_N b)), N.add_0_r, IH by lia.
  rewrite N.add_comm, N.Div0.mod_add, N.mod_small, byte_of_N by lia. done.
Qed.

Lemma be_to_N_bound l : be_to_N l < 256 ^ N.of_nat (length l).
Proof.
  induction l as [|b l IH] using rev_ind; [done|].
  rewrite be_to_N_snoc, length_app, Nat.add_comm. simpl length.
  rewrite Nat2N.inj_succ, N.pow_succ_r'. pose proof (to_N_bounded b). nia.
Qed.

Lemma be_of_inj w n m : n < 256 ^ N.of_nat w -> m < 256 ^ N.of_nat w -> be_of_N w n = be_of_N w m -> n = m.
Proof. intros Hn Hm Heq%(f_equal be_to_N). by rewrite !be_to_of in Heq. Qed.

Lemma str_inj s s' : str s = str s' -> s = s'.
Proof.
  intros Heq%(f_equal String.string_of_list_byte).
  by rewrite !String.string_of_list_byte_of_string in Heq.
Qed.

Lemma length_str s : length (str s) = String.length s.
Proof. unfold str, String.list_byte_of_string. rewrite length_map. by induction s; cbn; f_equal. Qed.

Lemma string_of_str s : String.string_of_list_byte (str s) = s.
Proof. apply String.string_of_list_byte_of_string. Qed.

(** Equal concatenations with first parts of equal length. *)
Lemma app_inj_length {A} (l1 l2 k1 k2 : list A) :
  length l1 = length k1 -> l1 ++ l2 = k1 ++ k2 -> l1 = k1 /\ l2 = k2.
Proof. intros Hl Heq. by apply app_inj_1. Qed.
