(* ===== verification/Ranges.v ===== *)
(** * Coalesced sequence ranges

    The aborted ranges of an inbox are a [BTreeMap<u64, u64>] from the first to
    the last sequence of each range. [coalesce] (router_store/publication.rs)
    adds one range and merges every range it touches; [prune] is the clipping
    that [commit_settled] and [prune_ranges] perform once a settled floor has
    been committed. The reference semantics of such a map is the set of
    sequences it covers. *)

From S2P Require Import Prelude OrdMap.

Open Scope N_scope.

(** ** Definitions *)

(** The first [if let] of [coalesce]: absorb the range at or before [start]
    when it reaches [start] or its predecessor. *)
Definition coalesce_left (ranges : gmap N N) (start end_ : N) : gmap N N * N * N :=
  match last (bt_range_le start ranges) with
  | Some (left_, right_) =>
      if decide (start <= u64_saturating_add right_ 1)
      then (delete left_ ranges, left_, N.max end_ right_)
      else (ranges, start, end_)
  | None => (ranges, start, end_)
  end.

(** The [while let] of [coalesce]: absorb following ranges while they touch. *)
Fixpoint coalesce_right (fuel : nat) (ranges : gmap N N) (start end_ : N) : gmap N N * N :=
  match fuel with
  | O => (ranges, end_)
  | S fuel =>
      match head (bt_range_ge start ranges) with
      | Some (right_, last_) =>
          if decide (right_ <= u64_saturating_add end_ 1)
          then coalesce_right fuel (delete right_ ranges) start (N.max end_ last_)
          else (ranges, end_)
      | None => (ranges, end_)
      end
  end.

(** Every iteration of the loop removes a range, so the number of ranges
    bounds the iterations. *)
Definition coalesce (ranges : gmap N N) (start end_ : N) : gmap N N :=
  let '(ranges, start, end_) := coalesce_left ranges start end_ in
  let '(ranges, end_) := coalesce_right (size ranges) ranges start end_ in
  <[start := end_]> ranges.

(** [ranges.into_iter().filter_map(|(start, end)| (end > settled).then_some(
    (start.max(settled.saturating_add(1)), end))).collect()]: entries are
    collected in order, so the last one wins on a key collision. *)
Definition prune_range (settled : N) (range : N * N) : option (N * N) :=
  if decide (settled < range.2)
  then Some (N.max range.1 (u64_saturating_add settled 1), range.2) else None.

Definition prune (settled : N) (ranges : gmap N N) : gmap N N :=
  bt_collect (omap (prune_range settled) (bt_entries ranges)).

(** ** Reference semantics *)

Definition covers (ranges : gmap N N) (n : N) : Prop :=
  exists s e, ranges !! s = Some e /\ s <= n <= e.

(** Ranges are non-empty, fit the machine width, and are separated by at least
    one uncovered sequence. *)
Record ranges_wf (ranges : gmap N N) : Prop := {
  rw_range s e : ranges !! s = Some e -> s <= e <= U64_MAX;
  rw_sep s e s' e' : ranges !! s = Some e -> ranges !! s' = Some e' -> s < s' -> e + 1 < s';
}.

(** ** Lemmas *)

Lemma ranges_wf_empty : ranges_wf ∅.
Proof. split; intros *; rewrite lookup_empty; done. Qed.

Lemma ranges_wf_delete ranges k : ranges_wf ranges -> ranges_wf (delete k ranges).
Proof.
  intros [Hr Hs]. split; intros *.
  - intros [_ ?]%lookup_delete_Some. eauto.
  - intros [_ ?]%lookup_delete_Some [_ ?]%lookup_delete_Some. eauto.
Qed.

Lemma covers_empty n : ~ covers ∅ n.
Proof. intros (s & e & H & _). by rewrite lookup_empty in H. Qed.

Lemma covers_insert ranges s e n :
  ranges !! s = None ->
  covers (<[s := e]> ranges) n <-> s <= n <= e \/ covers ranges n.
Proof.
  intros Hs. split.
  - intros (s' & e' & [[-> ->]|[? ?]]%lookup_insert_Some & ?); [auto|].
    right. by exists s', e'.
  - intros [?|(s' & e' & ? & ?)].
    + exists s, e. rewrite lookup_insert_eq. auto.
    + exists s', e'. rewrite lookup_insert_ne by congruence. auto.
Qed.

Lemma covers_delete ranges s e n :
  ranges !! s = Some e ->
  covers ranges n <-> s <= n <= e \/ covers (delete s ranges) n.
Proof.
  intros Hs. rewrite <-covers_insert by apply lookup_delete_eq.
  by rewrite insert_delete_id.
Qed.

(** Every range left of [start] ends before [start - 1]. *)
Definition left_clear (ranges : gmap N N) (start : N) : Prop :=
  forall s e, ranges !! s = Some e -> s < start -> e + 1 < start.

Lemma coalesce_left_spec ranges start end_ :
  ranges_wf ranges -> start <= end_ <= U64_MAX ->
  let '(r, s, e) := coalesce_left ranges start end_ in
  ranges_wf r /\ left_clear r s /\ r !! s = None /\ s <= start /\ s <= e <= U64_MAX /\
  (size r <= size ranges)%nat /\
  forall n, (s <= n <= e \/ covers r n) <-> (start <= n <= end_ \/ covers ranges n).
Proof.
  intros Hwf Hb. unfold coalesce_left.
  destruct (last (bt_range_le start ranges)) as [[l r]|] eqn:Hlast.
  - assert (Hin := last_Some_elem_of _ _ Hlast).
    apply elem_of_bt_range_le in Hin as [Hl Hle]. unfold key_le, N_key in Hle.
    assert (forall s e, ranges !! s = Some e -> s <= start -> s <= l) as Hmax.
    { intros s e Hse Hss. eapply (sorted_last_max _ _ (s, e)) in Hlast; [|apply bt_range_le_sorted|].
      - done.
      - by apply elem_of_bt_range_le. }
    destruct (rw_range _ Hwf _ _ Hl).
    case_decide as Hd.
    + assert (start <= r + 1) by (revert Hd; ints).
      split_and!; try lia.
      * by apply ranges_wf_delete.
      * intros s e [Hne Hse]%lookup_delete_Some Hlt. exact (rw_sep _ Hwf _ _ _ _ Hse Hl Hlt).
      * apply lookup_delete_eq.
      * rewrite map_size_delete_Some by eauto. lia.
      * intros n. rewrite (covers_delete _ _ _ n Hl).
        assert (start <= n <= end_ \/ l <= n <= r <-> l <= n <= N.max end_ r) as <- by lia.
        tauto.
    + assert (r + 1 < start) by (revert Hd; ints).
      split_and!; try done; try lia.
      * intros s e Hse Hlt. assert (s <= l) by (eapply Hmax; [done|lia]).
        destruct (decide (s = l)) as [->|]; [simplify_eq; lia|].
        pose proof (rw_sep _ Hwf _ _ _ _ Hse Hl). lia.
      * destruct (ranges !! start) eqn:Hst; [|done].
        assert (start <= l) by (eapply Hmax; [done|lia]). lia.
  - assert (forall s e, ranges !! s = Some e -> ~ s <= start) as Hno.
    { intros s e Hse Hss. apply last_None in Hlast.
      assert ((s, e) ∈ bt_range_le start ranges) as Hin by by apply elem_of_bt_range_le.
      rewrite Hlast in Hin. by apply not_elem_of_nil in Hin. }
    split_and!; try done; try lia.
    + intros s e Hse Hlt. exfalso. eapply Hno; [done|lia].
    + destruct (ranges !! start) eqn:Hst; [|done]. exfalso. eapply Hno; [done|lia].
Qed.

Lemma coalesce_right_spec fuel ranges start end_ :
  ranges_wf ranges -> left_clear ranges start -> ranges !! start = None ->
  start <= end_ <= U64_MAX -> (size ranges <= fuel)%nat ->
  let '(r, e) := coalesce_right fuel ranges start end_ in
  ranges_wf r /\ left_clear r start /\ r !! start = None /\ start <= e <= U64_MAX /\
  (size r <= size ranges)%nat /\
  (forall s e', r !! s = Some e' -> start < s -> e + 1 < s) /\
  forall n, (start <= n <= e \/ covers r n) <-> (start <= n <= end_ \/ covers ranges n).
Proof.
  revert ranges end_. induction fuel as [|fuel IH]; intros ranges end_ Hwf Hleft Hst Hb Hf; simpl.
  - assert (ranges = ∅) as -> by (apply map_size_empty_inv; lia).
    split_and!; try done; try lia.
  - destruct (head (bt_range_ge start ranges)) as [[s e]|] eqn:Hh.
    + pose proof (head_Some_elem_of _ _ Hh) as Hin.
      apply elem_of_bt_range_ge in Hin as [Hse Hge]. unfold key_le, N_key in Hge.
      assert (start <> s) by congruence.
      destruct (rw_range _ Hwf _ _ Hse).
      case_decide as Hd.
      * assert (s <= end_ + 1) by (revert Hd; ints).
        specialize (IH (delete s ranges) (N.max end_ e)).
        destruct (coalesce_right fuel (delete s ranges) start (N.max end_ e)) as [r' e'].
        destruct IH as (?&?&?&?&?&?&Hcov); try done.
        -- by apply ranges_wf_delete.
        -- intros s' e'' [_ ?]%lookup_delete_Some ?. eauto.
        -- rewrite lookup_delete_ne by done. done.
        -- lia.
        -- rewrite map_size_delete_Some by eauto. lia.
        -- split_and!; try done; try lia.
           { rewrite map_size_delete_Some in * by eauto. lia. }
           intros n. rewrite Hcov, (covers_delete ranges s e n Hse).
           assert (s <= n <= e \/ start <= n <= end_ <-> start <= n <= N.max end_ e) as <- by lia.
           tauto.
      * assert (end_ + 1 < s) by (revert Hd; ints).
        split_and!; try done; try lia.
        intros s' e' Hs' Hlt. eapply (sorted_head_min _ _ (s', e')) in Hh;
          [|apply bt_range_ge_sorted|apply elem_of_bt_range_ge; split; [done|unfold key_le, N_key; lia]].
        unfold entry_le, key_le, N_key in Hh. simpl in Hh. lia.
    + split_and!; try done; try lia.
      intros s e Hse Hlt. exfalso.
      assert ((s, e) ∈ bt_range_ge start ranges) as Hin
        by (apply elem_of_bt_range_ge; split; [done|unfold key_le, N_key; lia]).
      destruct (bt_range_ge start ranges); [by apply not_elem_of_nil in Hin|done].
Qed.

Lemma coalesce_spec ranges start end_ :
  ranges_wf ranges -> start <= end_ <= U64_MAX ->
  ranges_wf (coalesce ranges start end_) /\
  (size (coalesce ranges start end_) <= S (size ranges))%nat /\
  forall n, covers (coalesce ranges start end_) n <-> start <= n <= end_ \/ covers ranges n.
Proof.
  intros Hwf Hb. unfold coalesce.
  pose proof (coalesce_left_spec ranges start end_ Hwf Hb) as Hl.
  destruct (coalesce_left ranges start end_) as [[r1 s1] e1].
  destruct Hl as (Hwf1 & Hleft & Hnone & Hs & Hb1 & Hsz & Hcov).
  pose proof (coalesce_right_spec (size r1) r1 s1 e1 Hwf1 Hleft Hnone Hb1 (le_n _)) as Hr.
  destruct (coalesce_right (size r1) r1 s1 e1) as [r2 e2].
  destruct Hr as (Hwf2 & Hleft2 & Hnone2 & Hb2 & Hsz2 & Hright & Hcov2).
  split_and!.
  - split; intros *.
    + intros [[-> ->]|[? ?]]%lookup_insert_Some; [lia|]. by apply Hwf2.
    + intros [[-> ->]|[? ?]]%lookup_insert_Some [[-> ->]|[? ?]]%lookup_insert_Some ?; eauto; try lia.
      by eapply (rw_sep _ Hwf2).
  - rewrite map_size_insert_None by done. lia.
  - intros n. rewrite covers_insert by done. by rewrite Hcov2, Hcov.
Qed.

Lemma prune_range_Some settled s e k e' :
  e <= U64_MAX ->
  prune_range settled (s, e) = Some (k, e') <->
  settled < e /\ k = N.max s (settled + 1) /\ e' = e.
Proof.
  intros Hb. unfold prune_range; simpl. case_decide; [|split; [done|lia]].
  assert (u64_saturating_add settled 1 = settled + 1) as -> by (unfold u64_saturating_add; lia).
  split; [intros [= <- <-]|intros (_ & -> & ->)]; auto.
Qed.

Lemma elem_of_pruned settled ranges k e :
  (forall s e, ranges !! s = Some e -> e <= U64_MAX) ->
  (k, e) ∈ omap (prune_range settled) (bt_entries ranges) <->
  exists s, ranges !! s = Some e /\ settled < e /\ k = N.max s (settled + 1).
Proof.
  intros Hb. rewrite list_elem_of_omap. split.
  - intros ([s e'] & Hin%elem_of_bt_entries & Hp).
    apply prune_range_Some in Hp as (? & -> & ->); [|eauto]. eauto.
  - intros (s & Hs & Hlt & ->). exists (s, e). split; [by apply elem_of_bt_entries|].
    apply prune_range_Some; eauto.
Qed.

Lemma NoDup_pruned settled ranges :
  ranges_wf ranges -> NoDup (omap (prune_range settled) (bt_entries ranges)).*1.
Proof.
  intros Hwf.
  enough (forall l, NoDup l.*1 -> (forall s e, (s, e) ∈ l -> ranges !! s = Some e) ->
    NoDup (omap (prune_range settled) l).*1) as Hgen.
  { apply Hgen; [apply NoDup_bt_keys|]. intros s e. by rewrite elem_of_bt_entries. }
  induction l as [|[s e] l IH]; intros Hnd Hin; simpl; [constructor|].
  apply NoDup_cons in Hnd as [Hs Hnd].
  assert (NoDup (omap (prune_range settled) l).*1) by (apply IH; [done|]; intros; apply Hin; by right).
  destruct (prune_range settled (s, e)) as [[k e0]|] eqn:Hp; simpl; [|done].
  constructor; [|done]. intros ([k' e'] & Hk & Hel)%list_elem_of_fmap; simpl in Hk; subst k'.
  apply list_elem_of_omap in Hel as ([s' e''] & Hel & Hp').
  assert (s <> s') by (intros ->; apply Hs; apply list_elem_of_fmap; by exists (s', e'')).
  assert (ranges !! s = Some e) as Hse by (apply Hin; left).
  assert (ranges !! s' = Some e'') as Hse' by (apply Hin; by right).
  pose proof (rw_range _ Hwf _ _ Hse). pose proof (rw_range _ Hwf _ _ Hse').
  apply prune_range_Some in Hp as (? & -> & ->); [|lia].
  apply prune_range_Some in Hp' as (? & Hk & _); [|lia].
  destruct (decide (s < s')).
  - pose proof (rw_sep _ Hwf _ _ _ _ Hse Hse'). lia.
  - pose proof (rw_sep _ Hwf _ _ _ _ Hse' Hse). lia.
Qed.

Lemma prune_lookup settled ranges k e :
  ranges_wf ranges ->
  prune settled ranges !! k = Some e <->
  exists s, ranges !! s = Some e /\ settled < e /\ k = N.max s (settled + 1).
Proof.
  intros Hwf. unfold prune. rewrite bt_collect_lookup by by apply NoDup_pruned.
  apply elem_of_pruned. intros s e' Hs. apply (rw_range _ Hwf) in Hs. lia.
Qed.

Lemma length_omap_le {A B} (f : A -> option B) l : (length (omap f l) <= length l)%nat.
Proof. induction l as [|x l IH]; csimpl; [done|]. destruct (f x); csimpl; lia. Qed.

Lemma prune_spec settled ranges :
  ranges_wf ranges ->
  ranges_wf (prune settled ranges) /\
  (size (prune settled ranges) <= size ranges)%nat /\
  forall n, covers (prune settled ranges) n <-> covers ranges n /\ settled < n.
Proof.
  intros Hwf. split_and!.
  - split; intros *; rewrite !prune_lookup by done.
    + intros (s0 & Hs & ? & ->). pose proof (rw_range _ Hwf _ _ Hs). lia.
    + intros (s0 & Hs & ? & ->) (s1 & Hs' & ? & ->) ?.
      pose proof (rw_range _ Hwf _ _ Hs). pose proof (rw_range _ Hwf _ _ Hs').
      assert (s0 < s1) as Hlt by (pose proof (rw_sep _ Hwf _ _ _ _ Hs' Hs); lia).
      pose proof (rw_sep _ Hwf _ _ _ _ Hs Hs' Hlt). lia.
  - unfold prune. etrans; [apply bt_collect_size|]. etrans; [apply length_omap_le|].
    by rewrite length_bt_entries.
  - intros n. split.
    + intros (k & e & (s & Hs & ? & ->)%prune_lookup & ?); [|done].
      split; [exists s, e; split; [done|lia]|lia].
    + intros [(s & e & Hs & ?) ?]. exists (N.max s (settled + 1)), e.
      rewrite prune_lookup by done. split; [exists s; split_and!; [done|lia|done]|lia].
Qed.

#[export] Hint Resolve ranges_wf_empty ranges_wf_delete : ramflux.

(** ** Reading a range map *)

(** The range that may contain [n] is the last one starting at or below it. *)
Lemma covers_last_le ranges n :
  ranges_wf ranges ->
  covers ranges n <-> exists s e, last (bt_range_le n ranges) = Some (s, e) /\ n <= e.
Proof.
  intros Hwf. split.
  - intros (s & e & Hs & Hn).
    assert ((s, e) ∈ bt_range_le n ranges) as Hin.
    { apply elem_of_bt_range_le. split; [done|]. unfold key_le, N_key. lia. }
    destruct (last (bt_range_le n ranges)) as [[s' e']|] eqn:Hl;
      [|apply last_None in Hl; rewrite Hl in Hin; by apply elem_of_nil in Hin].
    exists s', e'. split; [done|].
    pose proof (sorted_last_max _ _ _ (bt_range_le_sorted _ _) Hl Hin) as Hle.
    unfold entry_le, key_le, N_key in Hle. simpl in Hle.
    apply last_Some_elem_of, elem_of_bt_range_le in Hl as [Hs' _].
    destruct (decide (s = s')) as [->|Hne]; [simplify_eq; lia|].
    pose proof (rw_sep _ Hwf _ _ _ _ Hs Hs'). apply elem_of_bt_range_le in Hin as [_ Hin].
    pose proof (rw_range _ Hwf _ _ Hs'). lia.
  - intros (s & e & Hl%last_Some_elem_of & Hn). apply elem_of_bt_range_le in Hl as [Hs Hle].
    exists s, e. unfold key_le, N_key in Hle. auto.
Qed.

(** ** Properties *)

(** Recording an aborted interval adds exactly that interval. The update
    keeps the map well formed (non-empty, separated ranges of 64-bit bounds),
    grows it by at most one entry, and the covered set becomes the union of
    the old set and the interval, whatever ranges it touches or swallows. *)
Theorem coalesce_is_union ranges start end_ :
  ranges_wf ranges -> start <= end_ <= U64_MAX ->
  ranges_wf (coalesce ranges start end_) /\
  (size (coalesce ranges start end_) <= S (size ranges))%nat /\
  forall n, covers (coalesce ranges start end_) n <-> start <= n <= end_ \/ covers ranges n.
Proof. apply coalesce_spec. Qed.

Lemma example_ranges_wf : ranges_wf {[ 3 := 5; 7 := 9; 20 := 30 ]}.
Proof.
  split; intros *; rewrite ?lookup_insert_Some, ?lookup_singleton_Some;
    intros; repeat case_match; unfold U64_MAX; naive_solver lia.
Qed.

Lemma coalesce_is_union_witness :
  (forall n, covers (coalesce {[ 3 := 5; 7 := 9; 20 := 30 ]} 6 12) n <->
     6 <= n <= 12 \/ covers {[ 3 := 5; 7 := 9; 20 := 30 ]} n) /\
  coalesce {[ 3 := 5; 7 := 9; 20 := 30 ]} 6 12 = {[ 3 := 12; 20 := 30 ]}.
Proof.
  split; [|by vm_compute].
  apply (coalesce_is_union {[ 3 := 5; 7 := 9; 20 := 30 ]} 6 12 example_ranges_wf).
  by vm_compute.
Defined.

(** Pruning at a settled floor forgets exactly the aborted sequences at or
    below the floor: the map stays well formed, does not grow, and covers what
    it covered before above the floor. *)
Theorem prune_is_restriction settled ranges :
  ranges_wf ranges ->
  ranges_wf (prune settled ranges) /\
  (size (prune settled ranges) <= size ranges)%nat /\
  forall n, covers (prune settled ranges) n <-> covers ranges n /\ settled < n.
Proof. apply prune_spec. Qed.

Lemma prune_is_restriction_witness :
  (forall n, covers (prune 8 {[ 3 := 5; 7 := 9; 20 := 30 ]}) n <->
     covers {[ 3 := 5; 7 := 9; 20 := 30 ]} n /\ 8 < n) /\
  prune 8 {[ 3 := 5; 7 := 9; 20 := 30 ]} = {[ 9 := 9; 20 := 30 ]}.
Proof.
  split; [|by vm_compute].
  apply (prune_is_restriction 8 {[ 3 := 5; 7 := 9; 20 := 30 ]} example_ranges_wf).
Defined.
