(* ===== verification/Publication.v ===== *)
(** * Durable assignment publication: data and operations

    Models [PublicationCore] of
    src/crates/ramflux-node-core/src/router_store/publication.rs: the registry
    of inboxes with their allocated, in-flight, accepted and aborted sequences,
    the descriptors shared between a request, a writer and the resolver thread,
    and every operation on them. The concurrent behaviour (which thread may run
    which operation when) is the step relation of PublicationSteps.v.

    - An [Arc<Descriptor>] is a location of the descriptor heap, so the request
      handle, the writer handle, the registry and the resolver alias the same
      atomics. Locations are never reused.
    - The process-wide fence of fatal_durability.rs is the flag [fenced].
    - Calls out of the component (the cleanup callbacks, waking waiters, the
      sender-retry owners) are appended to the [effects] trace in call order.
    - The diagnostic fields ([created], [warned], [warnings]) and the metrics
      that read them are left out. *)

From S2P Require Import Prelude OrdMap Ranges.

Open Scope N_scope.

(** ** Data *)

Definition ABORTED_RANGE_CAPACITY : nat := 4096.
Notation ABORT_CLAIM := 128%N (only parsing).

Inductive PersistenceState :=
| ReservedNoWrite
| DefiniteNonWrite
| HandedOff
| AcceptedDurable
| AbortedDurable
| FatalUncertain.

#[export] Instance PersistenceState_eq_dec : EqDecision PersistenceState.
Proof. solve_decision. Defined.

(** The [#[repr(u8)]] discriminant. *)
Definition state_code (s : PersistenceState) : N :=
  match s with
  | ReservedNoWrite => 0
  | DefiniteNonWrite => 1
  | HandedOff => 2
  | AcceptedDurable => 3
  | AbortedDurable => 4
  | FatalUncertain => 5
  end.

Inductive PublicationRefusal :=
| CapacityRetryAfter (retry_after_ms : N)
| IncarnationMismatch
| SequenceExhausted
| StoreClosed
| FatalUncertainRefusal.

#[export] Instance PublicationRefusal_eq_dec : EqDecision PublicationRefusal.
Proof. solve_decision. Defined.

Record Key := mkKey { k_target : string; k_incarnation : string }.

#[export] Instance Key_eq_dec : EqDecision Key.
Proof. solve_decision. Defined.
#[export] Instance Key_countable : Countable Key.
Proof.
  apply (inj_countable' (fun k => (k_target k, k_incarnation k)) (fun p => mkKey p.1 p.2)).
  by intros [].
Defined.
(** The derived order: target first, then incarnation. *)
#[export] Instance Key_ord : KeyOrd Key := fun a b =>
  key_le (k_target a, k_incarnation a) (k_target b, k_incarnation b).
#[export] Instance Key_ord_dec : RelDecision (key_le (K:=Key)).
Proof. intros a b. unfold key_le, Key_ord. apply _. Defined.

(** A location of the descriptor heap. *)
Notation loc := N (only parsing).

(** The handle of a sender-retry owner ([RetryAbort]). *)
Notation RetryOwner := N (only parsing).

Record Descriptor := mkDescriptor {
  d_key : Key;
  d_seq : N;
  d_state : N;
  d_detached : bool;
  d_resources : list string;
  d_retry_abort : option (list RetryOwner);
}.

Record Inbox := mkInbox {
  retired : bool;
  identity_durable : bool;
  allocated : N;
  published : N;
  committed_settled : N;
  in_flight : gmap N loc;
  accepted : gmap N (list string);
  aborted : gmap N N;
  reservations : nat;
}.

Definition inbox_default : Inbox := mkInbox false false 0 0 0 ∅ ∅ ∅ 0.

Record Registry := mkRegistry {
  inboxes : gmap Key Inbox;
  resources : gmap string (gset (Key * N));
  resources_seen : gmap string N;
  resources_published : gset string;
}.

Inductive Effect :=
| EntryCleanup (target : string) (seq : N)
| ReplayCleanup (resource : string)
| NotifyWaiters
| RetryAborted (owner : RetryOwner)
| RetryDurable (owner : RetryOwner).

Record Shared := mkShared {
  registry : Registry;
  stopping : bool;
  entry_cleanup : bool;
  replay_cleanup : bool;
  heap : gmap loc Descriptor;
  next_loc : loc;
  fenced : bool;
  effects : list Effect;
}.

(** Field updates. *)
Definition set_inboxes (r : Registry) (i : gmap Key Inbox) : Registry :=
  mkRegistry i (resources r) (resources_seen r) (resources_published r).
Definition set_registry (sh : Shared) (r : Registry) : Shared :=
  mkShared r (stopping sh) (entry_cleanup sh) (replay_cleanup sh) (heap sh) (next_loc sh) (fenced sh) (effects sh).
Definition set_heap (sh : Shared) (h : gmap loc Descriptor) : Shared :=
  mkShared (registry sh) (stopping sh) (entry_cleanup sh) (replay_cleanup sh) h (next_loc sh) (fenced sh) (effects sh).
Definition set_fenced (sh : Shared) : Shared :=
  mkShared (registry sh) (stopping sh) (entry_cleanup sh) (replay_cleanup sh) (heap sh) (next_loc sh) true (effects sh).
Definition add_effects (sh : Shared) (es : list Effect) : Shared :=
  mkShared (registry sh) (stopping sh) (entry_cleanup sh) (replay_cleanup sh) (heap sh) (next_loc sh) (fenced sh)
    (effects sh ++ es).
Definition set_state (d : Descriptor) (s : N) : Descriptor :=
  mkDescriptor (d_key d) (d_seq d) s (d_detached d) (d_resources d) (d_retry_abort d).
Definition set_detached (d : Descriptor) : Descriptor :=
  mkDescriptor (d_key d) (d_seq d) (d_state d) true (d_resources d) (d_retry_abort d).

(** ** Registration *)

(** [inboxes.range(Key { target, incarnation: "" }..).next()
      .filter(|(key, _)| key.target == target)] *)
Definition first_of_target (inboxes : gmap Key Inbox) (target : string) : option (Key * Inbox) :=
  match head (bt_range_ge (mkKey target "") inboxes) with
  | Some (key, inbox) => if decide (k_target key = target) then Some (key, inbox) else None
  | None => None
  end.

Definition register (sh : Shared) (target incarnation : string) (issued : N)
  : result PublicationRefusal unit * Shared :=
  if stopping sh then (Err StoreClosed, sh) else
  let inboxes := inboxes (registry sh) in
  let mismatch := match first_of_target inboxes target with
    | Some (key, inbox) => retired inbox || negb (bool_decide (k_incarnation key = incarnation))
    | None => false
    end in
  if mismatch then (Err IncarnationMismatch, sh) else
  let key := mkKey target incarnation in
  let inbox := default inbox_default (inboxes !! key) in
  let allocated' := N.max (allocated inbox) issued in
  let published' :=
    if decide (in_flight inbox = ∅) then allocated' else published inbox in
  let inbox' := mkInbox (retired inbox) true allocated' published' (committed_settled inbox)
    (in_flight inbox) (accepted inbox) (aborted inbox) (reservations inbox) in
  (Ok tt, set_registry sh (set_inboxes (registry sh) (<[key := inbox']> inboxes))).

Definition current_incarnation (sh : Shared) (target : string) : option string :=
  (fun p => k_incarnation p.1) <$> first_of_target (inboxes (registry sh)) target.

Definition provisional_incarnation (sh : Shared) (target candidate : string)
  : result PublicationRefusal string * Shared :=
  match first_of_target (inboxes (registry sh)) target with
  | Some (key, inbox) =>
      if retired inbox then (Err IncarnationMismatch, sh) else (Ok (k_incarnation key), sh)
  | None =>
      (Ok candidate,
       set_registry sh (set_inboxes (registry sh)
         (<[mkKey target candidate := inbox_default]> (inboxes (registry sh)))))
  end.

(** ** Reservation *)

Record AssignmentReservation := mkReservation {
  ar_target : string;
  ar_incarnation : string;
  ar_resources : list string;
}.

Definition ar_key (r : AssignmentReservation) : Key := mkKey (ar_target r) (ar_incarnation r).

(** How many sequences each inbox is asked for. *)
Definition needed_counts (requests : list AssignmentReservation) : gmap Key nat :=
  foldl (fun needed r => <[ar_key r := S (default 0%nat (needed !! ar_key r))]> needed) ∅ requests.

Definition admit_count (inboxes : gmap Key Inbox) (key : Key) (count : nat)
  : result PublicationRefusal unit :=
  match inboxes !! key with
  | None => Err IncarnationMismatch
  | Some inbox =>
      if retired inbox then Err IncarnationMismatch else
      if decide (ABORTED_RANGE_CAPACITY - (size (aborted inbox) + reservations inbox) < count)%nat
      then Err (CapacityRetryAfter 1000) else
      match u64_checked_add (allocated inbox) (N.of_nat count) with
      | Some _ => Ok tt
      | None => Err SequenceExhausted
      end
  end.

(** The admission loop visits the inboxes in key order and stops at the first
    refusal. *)
Fixpoint admit_all (inboxes : gmap Key Inbox) (needed : list (Key * nat))
  : result PublicationRefusal unit :=
  match needed with
  | [] => Ok tt
  | (key, count) :: rest =>
      match admit_count inboxes key count with
      | Ok _ => admit_all inboxes rest
      | Err e => Err e
      end
  end.

(** One resource reference of a reserved child. *)
Definition own_resource (key : Key) (seq : N) (r : Registry) (resource : string) : Registry :=
  mkRegistry (inboxes r)
    (<[resource := {[ (key, seq) ]} ∪ default ∅ (resources r !! resource)]> (resources r))
    (<[resource := default 0 (resources_seen r !! resource)]> (resources_seen r))
    (resources_published r).

Definition reserve_one (sh : Shared) (request : AssignmentReservation)
  : result PublicationRefusal loc * Shared :=
  let key := ar_key request in
  match inboxes (registry sh) !! key with
  | None => (Err IncarnationMismatch, sh)
  | Some inbox =>
      let seq := allocated inbox + 1 in
      let l := next_loc sh in
      let descriptor := mkDescriptor key seq (state_code ReservedNoWrite) false
                          (ar_resources request) None in
      let inbox' := mkInbox (retired inbox) (identity_durable inbox) seq (published inbox)
        (committed_settled inbox) (<[seq := l]> (in_flight inbox)) (accepted inbox)
        (aborted inbox) (S (reservations inbox)) in
      let registry' := foldl (own_resource key seq)
        (set_inboxes (registry sh) (<[key := inbox']> (inboxes (registry sh))))
        (ar_resources request) in
      (Ok l, mkShared registry' (stopping sh) (entry_cleanup sh) (replay_cleanup sh)
               (<[l := descriptor]> (heap sh)) (l + 1) (fenced sh) (effects sh))
  end.

Fixpoint reserve_loop (sh : Shared) (requests : list AssignmentReservation)
  : result PublicationRefusal (list loc) * Shared :=
  match requests with
  | [] => (Ok [], sh)
  | request :: rest =>
      match reserve_one sh request with
      | (Ok l, sh) =>
          match reserve_loop sh rest with
          | (Ok ls, sh) => (Ok (l :: ls), sh)
          | (Err e, sh) => (Err e, sh)
          end
      | (Err e, sh) => (Err e, sh)
      end
  end.

Definition reserve_batch (sh : Shared) (requests : list AssignmentReservation)
  : result PublicationRefusal (list loc) * Shared :=
  if stopping sh then (Err StoreClosed, sh) else
  if fenced sh then (Err FatalUncertainRefusal, sh) else
  match admit_all (inboxes (registry sh)) (bt_entries (needed_counts requests)) with
  | Err e => (Err e, sh)
  | Ok _ => reserve_loop sh requests
  end.

Definition reserve (sh : Shared) (target incarnation : string) (res : list string)
  : result PublicationRefusal loc * Shared :=
  match reserve_batch sh [mkReservation target incarnation res] with
  | (Ok ls, sh) => (ok_or (last ls) SequenceExhausted, sh)
  | (Err e, sh) => (Err e, sh)
  end.

(** ** Views *)

Definition clip (limit : N) (range : N * N) : N * N := (range.1, N.min range.2 limit).

Record PublishedInboxView := mkView {
  v_incarnation : option string;
  v_issued : N;
  v_settled : N;
  v_aborted : list (N * N);
}.

Definition inbox_view (key : Key) (inbox : Inbox) : PublishedInboxView :=
  mkView (if identity_durable inbox then Some (k_incarnation key) else None)
    (published inbox)
    (N.min (committed_settled inbox) (published inbox))
    (clip (published inbox) <$>
       filter (fun r => r.1 <= published inbox) (bt_entries (aborted inbox))).

(** [with_views]: the views of the inboxes that are not retired, by target. *)
Definition published_views (r : Registry) : gmap string PublishedInboxView :=
  bt_collect
    ((fun p => (k_target p.1, inbox_view p.1 p.2)) <$>
       filter (fun p => retired p.2 = false) (bt_entries (inboxes r))).

Definition view (r : Registry) (target incarnation : string) : N * list (N * N) :=
  match inboxes r !! mkKey target incarnation with
  | None => (0, [])
  | Some inbox =>
      (published inbox,
       clip (published inbox) <$> bt_range_le (published inbox) (aborted inbox))
  end.

Definition settled_view (r : Registry) (target incarnation : string) : N * N :=
  match inboxes r !! mkKey target incarnation with
  | None => (0, 0)
  | Some inbox => (published inbox, N.min (committed_settled inbox) (published inbox))
  end.

Definition point_view (r : Registry) (target incarnation : string) (seq : N) : N * bool :=
  match inboxes r !! mkKey target incarnation with
  | None => (0, false)
  | Some inbox =>
      (published inbox,
       bool_decide (0 < seq) && bool_decide (seq <= published inbox) &&
       match last (bt_range_le seq (aborted inbox)) with
       | Some (_, hi) => bool_decide (seq <= hi)
       | None => false
       end)
  end.

(** inbox_page.rs: the page walk visits at most this many rows. *)
Definition VISIT_CAP : nat := 512.

Definition page_view (r : Registry) (target incarnation : string) (after : N)
  : N * N * list (N * N) :=
  match inboxes r !! mkKey target incarnation with
  | None => (0, 0, [])
  | Some inbox =>
      let settled := N.min (committed_settled inbox) (published inbox) in
      let start := N.max after settled in
      let ranges :=
        match last (bt_range_le start (aborted inbox)) with
        | Some (lo, end_) =>
            if decide (start < end_) then bt_range_ge lo (aborted inbox)
            else bt_range_gt start (aborted inbox)
        | None => bt_range_gt start (aborted inbox)
        end in
      (published inbox, settled, take VISIT_CAP ranges)
  end.

Definition first_in_flight (r : Registry) (target incarnation : string) : option N :=
  inboxes r !! mkKey target incarnation ≫= fun inbox => fst <$> bt_first (in_flight inbox).

(** ** Settlement of the published prefix *)

Definition commit_settled (sh : Shared) (target incarnation : string) (settled : N) : Shared :=
  let key := mkKey target incarnation in
  match inboxes (registry sh) !! key with
  | None => sh
  | Some inbox =>
      let inbox' := mkInbox (retired inbox) (identity_durable inbox) (allocated inbox)
        (published inbox) (N.max (committed_settled inbox) settled) (in_flight inbox)
        (accepted inbox) (prune settled (aborted inbox)) (reservations inbox) in
      set_registry sh (set_inboxes (registry sh) (<[key := inbox']> (inboxes (registry sh))))
  end.

(** ** Shared resource reservations

    [held] is the caller's observation under the registry lock. *)

Definition set_resources (r : Registry) (owners : gmap string (gset (Key * N)))
    (seen : gmap string N) (pub : gset string) : Registry :=
  mkRegistry (inboxes r) owners seen pub.

Definition bump_seen (r : Registry) (resource : string) : gmap string N :=
  <[resource := default 0 (resources_seen r !! resource) + 1]> (resources_seen r).

Definition reference_resource (sh : Shared) (resource : string) (held : bool) : Shared :=
  let r := registry sh in
  let published := held &&
    (bool_decide (resources_seen r !! resource = None) ||
     bool_decide (resource ∈ resources_published r)) in
  set_registry sh (set_resources r (resources r) (bump_seen r resource)
    (if published then {[ resource ]} ∪ resources_published r else resources_published r)).

Definition mark_resource_if_new (sh : Shared) (resource : string) (held : bool) : bool * Shared :=
  if held then (false, sh)
  else (true, set_registry sh (set_resources (registry sh) (resources (registry sh))
                (bump_seen (registry sh) resource) (resources_published (registry sh)))).

Definition complete_unassigned (sh : Shared) (rs : list string) : Shared :=
  set_registry sh (foldl (fun r resource =>
    if bool_decide (is_Some (resources r !! resource)) ||
       bool_decide (is_Some (resources_seen r !! resource))
    then set_resources r (resources r) (resources_seen r) ({[ resource ]} ∪ resources_published r)
    else r) (registry sh) rs).

Definition release_unallocated_one (sh : Shared) (resource : string) : Shared :=
  let r := registry sh in
  let seen := match resources_seen r !! resource with
    | Some count => <[resource := count - 1]> (resources_seen r)
    | None => resources_seen r
    end in
  if bool_decide (resources r !! resource = None) &&
     match seen !! resource with Some count => bool_decide (count = 0) | None => true end
  then
    let marked := bool_decide (is_Some (seen !! resource)) in
    let published := bool_decide (resource ∈ resources_published r) in
    let sh := set_registry sh (set_resources r (resources r) (delete resource seen)
                (resources_published r ∖ {[ resource ]})) in
    if marked && negb published && replay_cleanup sh
    then add_effects sh [ReplayCleanup resource] else sh
  else set_registry sh (set_resources r (resources r) seen (resources_published r)).

Definition release_unallocated (sh : Shared) (rs : list string) : Shared :=
  foldl release_unallocated_one sh rs.

Definition resource_visible (r : Registry) (resource : string) : bool :=
  bool_decide (resources_seen r !! resource = None) ||
  bool_decide (resource ∈ resources_published r).

(** ** Descriptor states *)

(** [state.load() & !ABORT_CLAIM], decoded. *)
Definition descriptor_state (d : Descriptor) : PersistenceState :=
  let code := N.land (d_state d) 127 in
  if decide (code = 0) then ReservedNoWrite else
  if decide (code = 1) then DefiniteNonWrite else
  if decide (code = 2) then HandedOff else
  if decide (code = 3) then AcceptedDurable else
  if decide (code = 4) then AbortedDurable else FatalUncertain.

(** [AtomicU8::compare_exchange] on the state of the descriptor at [l]. *)
Definition compare_exchange (h : gmap loc Descriptor) (l : loc) (expected new : N)
  : option (gmap loc Descriptor) :=
  match h !! l with
  | Some d => if decide (d_state d = expected) then Some (<[l := set_state d new]> h) else None
  | None => None
  end.

Definition detach (sh : Shared) (l : loc) : Shared :=
  match heap sh !! l with
  | Some d => set_heap sh (<[l := set_detached d]> (heap sh))
  | None => sh
  end.

(** [AssignmentGuard::hand_off]: true when the caller obtained the write. *)
Definition hand_off (sh : Shared) (l : loc) : bool * Shared :=
  if fenced sh then (false, sh) else
  match compare_exchange (heap sh) l (state_code ReservedNoWrite) (state_code HandedOff) with
  | Some h => (true, set_heap sh h)
  | None => (false, sh)
  end.

Definition definite_non_write (sh : Shared) (l : loc) : Shared :=
  match compare_exchange (heap sh) l (state_code ReservedNoWrite) (state_code DefiniteNonWrite) with
  | Some h => detach (set_heap sh h) l
  | None => sh
  end.

(** Dropping a [PublicationWrite] that never completed. *)
Definition drop_write (sh : Shared) (l : loc) : Shared :=
  match compare_exchange (heap sh) l (state_code HandedOff) (state_code FatalUncertain) with
  | Some h => set_fenced (set_heap sh h)
  | None => sh
  end.

(** ** Resolution *)

Definition release_resource (sh : Shared) (resource : string) (key : Key) (seq : N)
    (accepted : bool) : Shared :=
  let r := registry sh in
  match resources r !! resource with
  | None => sh
  | Some owners =>
      let owners := owners ∖ {[ (key, seq) ]} in
      let pub := if accepted then {[ resource ]} ∪ resources_published r
                 else resources_published r in
      if decide (owners = ∅) then
        let published := bool_decide (resource ∈ pub) in
        let unseen := match resources_seen r !! resource with
          | Some count => bool_decide (count = 0) | None => true end in
        let sh := set_registry sh (set_resources r (delete resource (resources r))
          (if unseen then delete resource (resources_seen r) else resources_seen r)
          (if unseen then pub ∖ {[ resource ]} else pub)) in
        if negb accepted && negb published && replay_cleanup sh
        then add_effects sh [ReplayCleanup resource] else sh
      else set_registry sh (set_resources r (<[resource := owners]> (resources r))
             (resources_seen r) pub)
  end.

(** [in_flight.first_key_value().map_or(allocated, |(&seq, _)| seq - 1)] *)
Definition published_prefix (inbox : Inbox) : N :=
  match bt_first (in_flight inbox) with Some (seq, _) => seq - 1 | None => allocated inbox end.

(** The [while] that moves accepted entries at or below the prefix out. *)
Definition drain_accepted (limit : N) (acc : gmap N (list string))
  : gmap N (list string) * list (N * list string) :=
  (filter (fun p => ~ p.1 <= limit) acc, filter (fun p => p.1 <= limit) (bt_entries acc)).

(** The registry update of [finish] for one inbox. *)
Definition finish_inbox (inbox : Inbox) (seq : N) (res : list string) (is_aborted : bool)
  : Inbox * list (N * list string) :=
  let aborted' := if is_aborted then coalesce (aborted inbox) seq seq else aborted inbox in
  let accepted' := if is_aborted then accepted inbox else <[seq := res]> (accepted inbox) in
  let in_flight' := delete seq (in_flight inbox) in
  let inbox' := mkInbox (retired inbox) true (allocated inbox) (published inbox)
    (committed_settled inbox) in_flight' accepted' aborted' (reservations inbox - 1) in
  let published' := published_prefix inbox' in
  let '(rest, drained) := drain_accepted published' accepted' in
  (mkInbox (retired inbox) true (allocated inbox) published' (committed_settled inbox)
     in_flight' rest aborted' (reservations inbox - 1), drained).

Definition finish (sh : Shared) (l : loc) (is_aborted : bool) : Shared :=
  match heap sh !! l with
  | None => sh
  | Some d =>
      let sh := if is_aborted && entry_cleanup sh
        then add_effects sh [EntryCleanup (k_target (d_key d)) (d_seq d)] else sh in
      if fenced sh then sh else
      let sh := if is_aborted
        then foldl (fun sh r => release_resource sh r (d_key d) (d_seq d) false) sh (d_resources d)
        else sh in
      let '(sh, drained) :=
        match inboxes (registry sh) !! d_key d with
        | Some inbox =>
            let '(inbox', drained) := finish_inbox inbox (d_seq d) (d_resources d) is_aborted in
            (set_registry sh (set_inboxes (registry sh)
               (<[d_key d := inbox']> (inboxes (registry sh)))), drained)
        | None => (sh, [])
        end in
      let sh := foldl (fun sh p =>
        foldl (fun sh r => release_resource sh r (d_key d) p.1 true) sh p.2) sh drained in
      add_effects sh (NotifyWaiters ::
        match d_retry_abort d with
        | Some owners => (if is_aborted then RetryAborted else RetryDurable) <$> owners
        | None => []
        end)
  end.

(** [PublicationWrite::accepted_durable] up to its call of [finish]. *)
Definition accept_store (sh : Shared) (l : loc) : option Shared :=
  if fenced sh then None else
  match heap sh !! l with
  | Some d => Some (set_heap sh (<[l := set_state d (state_code AcceptedDurable)]> (heap sh)))
  | None => None
  end.

(** The resolver's claim of one descriptor of its snapshot. *)
Definition resolver_claim (sh : Shared) (is_stopping : bool) (l : loc) : option Shared :=
  match heap sh !! l with
  | None => None
  | Some d =>
      if negb is_stopping && negb (d_detached d) then None else
      let state := d_state d in
      if decide (state = state_code ReservedNoWrite \/ state = state_code DefiniteNonWrite) then
        set_heap sh <$> compare_exchange (heap sh) l state
                          (N.lor (state_code DefiniteNonWrite) ABORT_CLAIM)
      else None
  end.

(** The resolver's store after its aborted checkpoint committed. *)
Definition abort_store (sh : Shared) (l : loc) : Shared :=
  match heap sh !! l with
  | Some d => set_heap sh (<[l := set_state d (state_code AbortedDurable)]> (heap sh))
  | None => sh
  end.

(** ** Retirement of a target *)

Definition retire_target (sh : Shared) (target : string) : result PublicationRefusal unit * Shared :=
  let inboxes := inboxes (registry sh) in
  if bool_decide (Exists (fun p => k_target p.1 = target /\ in_flight p.2 <> ∅)
                    (bt_entries inboxes))
  then (Err (CapacityRetryAfter 1000), sh)
  else
    let retire (key : Key) (inbox : Inbox) :=
      if decide (k_target key = target)
      then mkInbox true (identity_durable inbox) (allocated inbox) (published inbox)
             (committed_settled inbox) (in_flight inbox) (accepted inbox) (aborted inbox)
             (reservations inbox)
      else inbox in
    (Ok tt, set_registry sh (set_inboxes (registry sh) (map_imap (fun k i => Some (retire k i)) inboxes))).

(** [TargetRetirement::commit]. *)
Definition retirement_commit (sh : Shared) (target : string) : Shared :=
  let r := registry sh in
  let clear (key : Key) (inbox : Inbox) :=
    if decide (k_target key = target)
    then mkInbox (retired inbox) (identity_durable inbox) (allocated inbox) (published inbox)
           (committed_settled inbox) (in_flight inbox) (accepted inbox) ∅ (reservations inbox)
    else inbox in
  set_registry sh (mkRegistry
    (map_imap (fun k i => Some (clear k i)) (inboxes r))
    (filter (fun p => p.2 <> ∅)
       ((fun owners => filter (fun o => k_target o.1 <> target) owners) <$> resources r))
    (resources_seen r) (resources_published r)).

(** Dropping a [TargetRetirement] that was not committed. *)
Definition retirement_rollback (sh : Shared) (target : string) : Shared :=
  let restore (key : Key) (inbox : Inbox) :=
    if decide (k_target key = target)
    then mkInbox false (identity_durable inbox) (allocated inbox) (published inbox)
           (committed_settled inbox) (in_flight inbox) (accepted inbox) (aborted inbox)
           (reservations inbox)
    else inbox in
  set_registry sh (set_inboxes (registry sh)
    (map_imap (fun k i => Some (restore k i)) (inboxes (registry sh)))).

(** [shutdown] up to waking the resolver. *)
Definition shutdown (sh : Shared) : Shared :=
  mkShared (registry sh) true (entry_cleanup sh) (replay_cleanup sh) (heap sh) (next_loc sh)
    (fenced sh) (effects sh).

(** [install_cleanup]: both callbacks are [OnceLock]s. *)
Definition install_cleanup (sh : Shared) : Shared :=
  mkShared (registry sh) (stopping sh) true true (heap sh) (next_loc sh)
    (fenced sh) (effects sh).
