(* ===== verification/PublicationSteps.v ===== *)
(** * Durable assignment publication: interleavings and invariants

    The threads that share a [PublicationCore] (requests holding an
    [AssignmentGuard], storage writers holding a [PublicationWrite], the
    resolver thread, and callers of the registry operations) interleave at the
    granularity of one atomic access or one critical section. A [World] is the
    shared state together with the handles each thread still owns; [step] lists
    every action. The invariants are proved for every reachable world. *)

From S2P Require Import Prelude OrdMap Ranges Publication.

Open Scope N_scope.

(** ** Worlds *)

Record World := mkWorld {
  w_sh : Shared;
  (** Live [AssignmentGuard] handles. *)
  guards : gset loc;
  (** Live [PublicationWrite] handles. *)
  writers : gset loc;
  (** Descriptors the resolver has claimed and is checkpointing. *)
  claimed : gset loc;
  (** Calls of [finish] that have stored the final state and not yet entered
      their critical section. *)
  finishing : gset (loc * bool);
}.

Definition with_sh (w : World) (sh : Shared) : World :=
  mkWorld sh (guards w) (writers w) (claimed w) (finishing w).

(** The guards a successful reservation returns. *)
Definition granted (r : result PublicationRefusal (list loc)) : gset loc :=
  match r with Ok ls => list_to_set ls | Err _ => ∅ end.

(** ** Actions *)

Inductive step (w : World) : World -> Prop :=
| step_install_cleanup :
    step w (with_sh w (install_cleanup (w_sh w)))
| step_register target incarnation issued r sh :
    issued <= U64_MAX ->
    register (w_sh w) target incarnation issued = (r, sh) ->
    step w (with_sh w sh)
| step_provisional target candidate r sh :
    provisional_incarnation (w_sh w) target candidate = (r, sh) ->
    step w (with_sh w sh)
| step_reserve_batch requests r sh :
    reserve_batch (w_sh w) requests = (r, sh) ->
    step w (mkWorld sh (granted r ∪ guards w) (writers w) (claimed w) (finishing w))
| step_commit_settled target incarnation settled :
    step w (with_sh w (commit_settled (w_sh w) target incarnation settled))
| step_reference_resource resource held :
    step w (with_sh w (reference_resource (w_sh w) resource held))
| step_mark_resource resource held r sh :
    mark_resource_if_new (w_sh w) resource held = (r, sh) ->
    step w (with_sh w sh)
| step_complete_unassigned rs :
    step w (with_sh w (complete_unassigned (w_sh w) rs))
| step_release_unallocated rs :
    step w (with_sh w (release_unallocated (w_sh w) rs))
| step_retire target r sh :
    retire_target (w_sh w) target = (r, sh) ->
    step w (with_sh w sh)
| step_retirement_commit target :
    step w (with_sh w (retirement_commit (w_sh w) target))
| step_retirement_rollback target :
    step w (with_sh w (retirement_rollback (w_sh w) target))
| step_shutdown :
    step w (with_sh w (shutdown (w_sh w)))
| step_fence :
    step w (with_sh w (set_fenced (w_sh w)))
(** [hand_off] after its fence check: the exchange itself does not look at the
    fence, which may have been raised since. *)
| step_hand_off l h :
    l ∈ guards w ->
    compare_exchange (heap (w_sh w)) l (state_code ReservedNoWrite) (state_code HandedOff) = Some h ->
    step w (mkWorld (set_heap (w_sh w) h) (guards w) ({[ l ]} ∪ writers w) (claimed w) (finishing w))
| step_definite_non_write l :
    l ∈ guards w ->
    step w (with_sh w (definite_non_write (w_sh w) l))
| step_drop_guard l :
    l ∈ guards w ->
    step w (mkWorld (detach (w_sh w) l) (guards w ∖ {[ l ]}) (writers w) (claimed w) (finishing w))
| step_accept l sh :
    l ∈ writers w ->
    accept_store (w_sh w) l = Some sh ->
    step w (mkWorld sh (guards w) (writers w ∖ {[ l ]}) (claimed w)
              ({[ (l, false) ]} ∪ finishing w))
| step_drop_write l :
    l ∈ writers w ->
    step w (mkWorld (drop_write (w_sh w) l) (guards w) (writers w ∖ {[ l ]}) (claimed w) (finishing w))
| step_claim is_stopping l sh :
    resolver_claim (w_sh w) is_stopping l = Some sh ->
    step w (mkWorld sh (guards w) (writers w) ({[ l ]} ∪ claimed w) (finishing w))
| step_abort l :
    l ∈ claimed w ->
    step w (mkWorld (abort_store (w_sh w) l) (guards w) (writers w) (claimed w ∖ {[ l ]})
              ({[ (l, true) ]} ∪ finishing w))
| step_finish l is_aborted :
    (l, is_aborted) ∈ finishing w ->
    step w (mkWorld (finish (w_sh w) l is_aborted) (guards w) (writers w) (claimed w)
              (finishing w ∖ {[ (l, is_aborted) ]})).

(** A freshly opened core: the inboxes recovered from the store, nothing in
    flight ([publication_core] of publication/persistence.rs). *)
Record recovered_inbox (i : Inbox) : Prop := {
  rec_in_flight : in_flight i = ∅;
  rec_accepted : accepted i = ∅;
  rec_reservations : reservations i = 0%nat;
  rec_published : published i = allocated i;
  rec_allocated : allocated i <= U64_MAX;
  rec_aborted : ranges_wf (aborted i);
  rec_covers n : covers (aborted i) n -> 1 <= n <= allocated i;
  rec_capacity : (size (aborted i) <= ABORTED_RANGE_CAPACITY)%nat;
}.

Record initial (w : World) : Prop := {
  init_inboxes key i : inboxes (registry (w_sh w)) !! key = Some i -> recovered_inbox i;
  init_heap : heap (w_sh w) = ∅;
  init_writers : writers w = ∅;
  init_claimed : claimed w = ∅;
  init_finishing : finishing w = ∅;
}.

Inductive reachable : World -> Prop :=
| reachable_init w : initial w -> reachable w
| reachable_step w w' : reachable w -> step w w' -> reachable w'.

(** ** Invariants *)

Record inbox_inv (i : Inbox) : Prop := {
  ii_published : published i = published_prefix i;
  ii_bounds s l : in_flight i !! s = Some l -> 1 <= s <= allocated i;
  ii_reservations : reservations i = size (in_flight i);
  ii_allocated : allocated i <= U64_MAX;
  ii_wf : ranges_wf (aborted i);
  ii_covers n : covers (aborted i) n ->
    1 <= n <= allocated i /\ in_flight i !! n = None /\ accepted i !! n = None;
  ii_accepted n res : accepted i !! n = Some res ->
    published i < n <= allocated i /\ in_flight i !! n = None;
  ii_capacity : (size (aborted i) + reservations i <= ABORTED_RANGE_CAPACITY)%nat;
}.

(** What an inbox says of a descriptor it assigned. *)
Record desc_inv (i : Inbox) (l : loc) (d : Descriptor) : Prop := {
  di_seq : 1 <= d_seq d <= allocated i;
  di_owned : in_flight i !! d_seq d = Some l \/
    in_flight i !! d_seq d = None /\
    (d_state d = state_code AcceptedDurable /\ ~ covers (aborted i) (d_seq d) \/
     d_state d = state_code AbortedDurable /\ accepted i !! d_seq d = None);
}.

Record world_inv (w : World) : Prop := {
  wi_inbox key i : inboxes (registry (w_sh w)) !! key = Some i -> inbox_inv i;
  wi_in_flight key i s l :
    inboxes (registry (w_sh w)) !! key = Some i -> in_flight i !! s = Some l ->
    exists d, heap (w_sh w) !! l = Some d /\ d_key d = key /\ d_seq d = s;
  wi_desc l d : heap (w_sh w) !! l = Some d ->
    l < next_loc (w_sh w) /\
    exists i, inboxes (registry (w_sh w)) !! d_key d = Some i /\ desc_inv i l d;
  wi_unique l1 l2 d1 d2 :
    heap (w_sh w) !! l1 = Some d1 -> heap (w_sh w) !! l2 = Some d2 ->
    d_key d1 = d_key d2 -> d_seq d1 = d_seq d2 -> l1 = l2;
  wi_writers l : l ∈ writers w <->
    exists d, heap (w_sh w) !! l = Some d /\ d_state d = state_code HandedOff;
  wi_claimed l : l ∈ claimed w <->
    exists d, heap (w_sh w) !! l = Some d /\
      d_state d = N.lor (state_code DefiniteNonWrite) ABORT_CLAIM;
  wi_finishing l (b : bool) : (l, b) ∈ finishing w ->
    exists d i, heap (w_sh w) !! l = Some d /\
      d_state d = state_code (if b then AbortedDurable else AcceptedDurable) /\
      inboxes (registry (w_sh w)) !! d_key d = Some i /\ in_flight i !! d_seq d = Some l;
}.

(** ** Lemmas on the operations *)

Definition key_pair (k : Key) : string * string := (k_target k, k_incarnation k).

Lemma key_le_pair (a b : Key) : key_le a b <-> key_le (key_pair a) (key_pair b).
Proof. done. Qed.

#[export] Instance Key_ord_ok : KeyOrdOk Key.
Proof.
  split; [split| |].
  - intros k. rewrite key_le_pair. reflexivity.
  - intros a b c. rewrite !key_le_pair. apply transitivity.
  - intros [a a'] [b b']. rewrite !key_le_pair. intros H1 H2.
    pose proof (anti_symm key_le _ _ H1 H2). by simplify_eq/=.
  - intros a b. rewrite !key_le_pair. apply (total key_le).
Qed.

Lemma published_prefix_lt i s l :
  (forall s l, in_flight i !! s = Some l -> 1 <= s) ->
  in_flight i !! s = Some l -> published_prefix i < s.
Proof.
  intros Hb Hs. unfold published_prefix.
  destruct (bt_first (in_flight i)) as [[s0 l0]|] eqn:E.
  - pose proof (bt_first_min _ _ _ _ _ E Hs) as Hle. unfold key_le, N_key in Hle.
    pose proof (Hb _ _ (bt_first_lookup _ _ _ E)). lia.
  - apply bt_first_None in E. rewrite E in Hs. by rewrite lookup_empty in Hs.
Qed.

Lemma published_prefix_le i :
  (forall s l, in_flight i !! s = Some l -> s <= allocated i) -> published_prefix i <= allocated i.
Proof.
  intros Hb. unfold published_prefix.
  destruct (bt_first (in_flight i)) as [[s0 l0]|] eqn:E; [|lia].
  pose proof (Hb _ _ (bt_first_lookup _ _ _ E)). lia.
Qed.

(** Sequences at or below the prefix are not in flight. *)
Lemma inbox_inv_prefix i s l : inbox_inv i -> in_flight i !! s = Some l -> published i < s.
Proof.
  intros Hi Hs. rewrite (ii_published _ Hi). eapply published_prefix_lt; [|done].
  intros s' l' H'. apply (ii_bounds _ Hi) in H'. lia.
Qed.

Lemma inbox_inv_published_le i : inbox_inv i -> published i <= allocated i.
Proof.
  intros Hi. rewrite (ii_published _ Hi). apply published_prefix_le.
  intros s l H. apply (ii_bounds _ Hi) in H. lia.
Qed.

(** *** Steps that leave descriptors alone *)

Record evolves (i i' : Inbox) : Prop := {
  ev_inv : inbox_inv i -> inbox_inv i';
  ev_in_flight : in_flight i' = in_flight i;
  ev_accepted : accepted i' = accepted i;
  ev_allocated : allocated i <= allocated i';
  ev_covers n : covers (aborted i') n -> covers (aborted i) n;
}.

Lemma evolves_refl i : evolves i i.
Proof. by split. Qed.

Lemma desc_inv_evolves i i' l d : evolves i i' -> desc_inv i l d -> desc_inv i' l d.
Proof.
  intros [_ Hf Ha Hal Hc] [Hs Ho]. split; [lia|]. rewrite Hf, Ha.
  destruct Ho as [?|[? [[? ?]|?]]]; [auto| |auto]. right. split; [done|]. left. eauto.
Qed.

Lemma world_inv_evolve w sh :
  world_inv w ->
  heap sh = heap (w_sh w) -> next_loc sh = next_loc (w_sh w) ->
  (forall key i', inboxes (registry sh) !! key = Some i' ->
     (exists i, inboxes (registry (w_sh w)) !! key = Some i /\ evolves i i') \/
     (inboxes (registry (w_sh w)) !! key = None /\ inbox_inv i' /\ in_flight i' = ∅)) ->
  (forall key i, inboxes (registry (w_sh w)) !! key = Some i ->
     is_Some (inboxes (registry sh) !! key)) ->
  world_inv (with_sh w sh).
Proof.
  intros Hw Hh Hn Hnew Hold.
  assert (forall key i, inboxes (registry (w_sh w)) !! key = Some i ->
    exists i', inboxes (registry sh) !! key = Some i' /\ evolves i i') as Hev.
  { intros key i Hi. destruct (Hold _ _ Hi) as [i' Hi'].
    destruct (Hnew _ _ Hi') as [(i0 & Hi0 & ?)|[? _]]; [|congruence].
    rewrite Hi in Hi0; injection Hi0 as <-. eauto. }
  split; simpl.
  - intros key i' Hi'. destruct (Hnew _ _ Hi') as [(i & Hi & He)|(_ & ? & _)]; [|done].
    by apply (ev_inv _ _ He), (wi_inbox _ Hw key).
  - intros key i' s l Hi' Hs. rewrite Hh.
    destruct (Hnew _ _ Hi') as [(i & Hi & He)|(_ & _ & Hf)].
    + apply (wi_in_flight _ Hw _ _ _ _ Hi). by rewrite <-(ev_in_flight _ _ He).
    + by rewrite Hf, lookup_empty in Hs.
  - intros l d Hl. rewrite Hh in Hl. rewrite Hn.
    destruct (wi_desc _ Hw _ _ Hl) as (? & i & Hi & Hd). split; [done|].
    destruct (Hev _ _ Hi) as (i' & ? & ?). eauto using desc_inv_evolves.
  - intros l1 l2 d1 d2. rewrite Hh. apply (wi_unique _ Hw).
  - intros l. rewrite Hh. apply (wi_writers _ Hw).
  - intros l. rewrite Hh. apply (wi_claimed _ Hw).
  - intros l b Hfin. rewrite Hh. destruct (wi_finishing _ Hw _ _ Hfin) as (d & i & ? & ? & Hi & ?).
    destruct (Hev _ _ Hi) as (i' & ? & He). exists d, i'.
    rewrite (ev_in_flight _ _ He). auto.
Qed.

Lemma world_inv_same w sh :
  world_inv w ->
  heap sh = heap (w_sh w) -> next_loc sh = next_loc (w_sh w) ->
  inboxes (registry sh) = inboxes (registry (w_sh w)) ->
  world_inv (with_sh w sh).
Proof.
  intros Hw Hh Hn Hi. apply world_inv_evolve; try done; rewrite Hi.
  - eauto using evolves_refl.
  - eauto.
Qed.

(** An update of the inboxes of some keys by a function that lets them evolve. *)
Lemma world_inv_imap w (f : Key -> Inbox -> Inbox) sh :
  world_inv w ->
  heap sh = heap (w_sh w) -> next_loc sh = next_loc (w_sh w) ->
  inboxes (registry sh) = map_imap (fun k i => Some (f k i)) (inboxes (registry (w_sh w))) ->
  (forall k i, evolves i (f k i)) ->
  world_inv (with_sh w sh).
Proof.
  intros Hw Hh Hn Hi Hf. apply world_inv_evolve; try done; rewrite Hi.
  - intros key i' Hk. rewrite map_lookup_imap in Hk. left.
    destruct (inboxes (registry (w_sh w)) !! key) as [i|]; simplify_eq/=. eauto.
  - intros key i Hk. rewrite map_lookup_imap, Hk. simpl. eauto.
Qed.

Lemma world_inv_insert w key i' r :
  world_inv w ->
  inboxes r = <[key := i']> (inboxes (registry (w_sh w))) ->
  (match inboxes (registry (w_sh w)) !! key with
   | Some i => evolves i i'
   | None => inbox_inv i' /\ in_flight i' = ∅
   end) ->
  world_inv (with_sh w (set_registry (w_sh w) r)).
Proof.
  intros Hw Hr Hev. apply world_inv_evolve; simpl; try done; rewrite Hr.
  - intros k i [[<- <-]|[? ?]]%lookup_insert_Some.
    + destruct (inboxes (registry (w_sh w)) !! key); eauto.
    + eauto using evolves_refl.
  - intros k i Hk. destruct (decide (k = key)) as [->|]; simplify_map_eq; eauto.
Qed.

(** Bookkeeping flags of an inbox do not matter to its invariant. *)
Lemma inbox_inv_flags i r d c :
  inbox_inv i ->
  inbox_inv (mkInbox r d (allocated i) (published i) c (in_flight i) (accepted i) (aborted i)
               (reservations i)).
Proof. intros []. by split. Qed.

Lemma inbox_inv_aborted i r d c ab :
  inbox_inv i -> ranges_wf ab -> (size ab <= size (aborted i))%nat ->
  (forall n, covers ab n -> covers (aborted i) n) ->
  inbox_inv (mkInbox r d (allocated i) (published i) c (in_flight i) (accepted i) ab (reservations i)).
Proof. intros [] Hwf Hsz Hc. split; simpl; auto. lia. Qed.

Lemma inbox_inv_default : inbox_inv inbox_default.
Proof.
  split; simpl; try done; try (intros *; by rewrite lookup_empty).
  - intros n H. by apply covers_empty in H.
  - unfold ABORTED_RANGE_CAPACITY. rewrite map_size_empty. lia.
Qed.

Lemma register_evolves i n :
  n <= U64_MAX ->
  evolves i (mkInbox (retired i) true (N.max (allocated i) n)
    (if decide (in_flight i = ∅) then N.max (allocated i) n else published i)
    (committed_settled i) (in_flight i) (accepted i) (aborted i) (reservations i)).
Proof.
  intros Hn. split; simpl; try done; [|lia]. intros [Hp Hb Hr Ha Hw Hc Hacc Hcap].
  split; simpl; try done; try lia.
  - unfold published_prefix in *; simpl. case_decide as Hf.
    + rewrite Hf. by rewrite (proj2 (bt_first_None _) eq_refl).
    + destruct (bt_first (in_flight i)) as [[]|] eqn:E; [done|].
      apply bt_first_None in E. done.
  - intros s l Hs. specialize (Hb _ _ Hs). lia.
  - intros k Hk. specialize (Hc _ Hk). split; [lia|]. apply Hc.
  - intros k res Hk. specialize (Hacc _ _ Hk) as [Hlt Hno]. split; [|done]. split; [|lia].
    case_decide as Hf; [|lia].
    rewrite Hp in Hlt. unfold published_prefix in Hlt.
    rewrite Hf, (proj2 (bt_first_None _) eq_refl) in Hlt. lia.
Qed.

Lemma commit_settled_evolves i settled :
  inbox_inv i ->
  evolves i (mkInbox (retired i) (identity_durable i) (allocated i) (published i)
    (N.max (committed_settled i) settled) (in_flight i) (accepted i)
    (prune settled (aborted i)) (reservations i)).
Proof.
  intros Hi. destruct (prune_spec settled _ (ii_wf _ Hi)) as (Hwf & Hsz & Hc).
  split; simpl; try done.
  - intros _. apply inbox_inv_aborted; try done. intros n. rewrite Hc. tauto.
  - intros n. rewrite Hc. tauto.
Qed.

Lemma flags_evolves i r d c :
  evolves i (mkInbox r d (allocated i) (published i) c (in_flight i) (accepted i) (aborted i)
               (reservations i)).
Proof. split; simpl; auto using inbox_inv_flags. Qed.

Lemma clear_evolves i :
  evolves i (mkInbox (retired i) (identity_durable i) (allocated i) (published i)
    (committed_settled i) (in_flight i) (accepted i) ∅ (reservations i)).
Proof.
  split; simpl; try done.
  - intros. apply inbox_inv_aborted; auto with ramflux; [rewrite map_size_empty; lia|].
    intros n Hn. by apply covers_empty in Hn.
  - intros n Hn. by apply covers_empty in Hn.
Qed.

(** *** Steps on one descriptor *)

Definition tokens_ok (h : gmap loc Descriptor) (ws cl : gset loc) : Prop :=
  (forall l, l ∈ ws <-> exists d, h !! l = Some d /\ d_state d = state_code HandedOff) /\
  (forall l, l ∈ cl <-> exists d, h !! l = Some d /\
     d_state d = N.lor (state_code DefiniteNonWrite) ABORT_CLAIM).

Definition finishing_ok (sh : Shared) (fin : gset (loc * bool)) : Prop :=
  forall l (b : bool), (l, b) ∈ fin ->
    exists d i, heap sh !! l = Some d /\
      d_state d = state_code (if b then AbortedDurable else AcceptedDurable) /\
      inboxes (registry sh) !! d_key d = Some i /\ in_flight i !! d_seq d = Some l.

Lemma in_flight_of_state w l d :
  world_inv w -> heap (w_sh w) !! l = Some d ->
  d_state d <> state_code AcceptedDurable -> d_state d <> state_code AbortedDurable ->
  exists i, inboxes (registry (w_sh w)) !! d_key d = Some i /\ in_flight i !! d_seq d = Some l.
Proof.
  intros Hw Hl H3 H4. destruct (wi_desc _ Hw _ _ Hl) as (_ & i & Hi & [_ Ho]).
  exists i. split; [done|]. naive_solver.
Qed.

Lemma world_inv_update w l d d' gs ws cl fin :
  world_inv w -> heap (w_sh w) !! l = Some d ->
  d_key d' = d_key d -> d_seq d' = d_seq d ->
  (d_state d' = d_state d \/
   exists i, inboxes (registry (w_sh w)) !! d_key d = Some i /\ in_flight i !! d_seq d = Some l) ->
  let sh := set_heap (w_sh w) (<[l := d']> (heap (w_sh w))) in
  tokens_ok (heap sh) ws cl -> finishing_ok sh fin ->
  world_inv (mkWorld sh gs ws cl fin).
Proof.
  intros Hw Hl Hk Hs Hst sh [Hws Hcl] Hfin. split; simpl; try done.
  - apply (wi_inbox _ Hw).
  - intros key i s l' Hi Hl'. destruct (wi_in_flight _ Hw _ _ _ _ Hi Hl') as (d0 & Hd0 & <- & <-).
    destruct (decide (l' = l)) as [->|].
    + exists d'. rewrite lookup_insert_eq. simplify_eq. auto.
    + exists d0. rewrite lookup_insert_ne by done. auto.
  - intros l' d0 [[<- <-]|[? Hd0]]%lookup_insert_Some; [|apply (wi_desc _ Hw _ _ Hd0)].
    destruct (wi_desc _ Hw _ _ Hl) as (? & i & Hi & [Hb Ho]). split; [done|].
    rewrite Hk. exists i. split; [done|]. split; rewrite Hs; [done|].
    destruct Hst as [->|(i0 & ? & ?)]; [done|]. left. by simplify_eq.
  - intros l1 l2 d1 d2 [[<- <-]|[? H1]]%lookup_insert_Some [[<- <-]|[? H2]]%lookup_insert_Some ??;
      try done; eapply (wi_unique _ Hw); eauto; congruence.
Qed.

(** Moving the state of one descriptor keeps the tokens of all others. *)
Lemma tokens_ok_other w l d d' ws cl :
  world_inv w -> heap (w_sh w) !! l = Some d ->
  (forall l', l' <> l -> l' ∈ ws <-> l' ∈ writers w) ->
  (forall l', l' <> l -> l' ∈ cl <-> l' ∈ claimed w) ->
  (l ∈ ws <-> d_state d' = state_code HandedOff) ->
  (l ∈ cl <-> d_state d' = N.lor (state_code DefiniteNonWrite) ABORT_CLAIM) ->
  tokens_ok (<[l := d']> (heap (w_sh w))) ws cl.
Proof.
  intros Hw Hl Hws Hcl Hl1 Hl2. split; intros l'; (destruct (decide (l' = l)) as [->|Hne];
    [rewrite lookup_insert_eq; naive_solver|rewrite lookup_insert_ne by done]).
  - rewrite Hws by done. apply (wi_writers _ Hw).
  - rewrite Hcl by done. apply (wi_claimed _ Hw).
Qed.

Lemma finishing_ok_other w l d d' :
  world_inv w -> heap (w_sh w) !! l = Some d ->
  d_state d <> state_code AcceptedDurable -> d_state d <> state_code AbortedDurable ->
  finishing_ok (set_heap (w_sh w) (<[l := d']> (heap (w_sh w)))) (finishing w).
Proof.
  intros Hw Hl H3 H4 l' b Hfin. destruct (wi_finishing _ Hw _ _ Hfin) as (d0 & i & Hd0 & Hs & Hi & Hf).
  exists d0, i. simpl. rewrite lookup_insert_ne; [done|]. intros ->. simplify_eq. by destruct b.
Qed.

Lemma compare_exchange_Some h l a b h' :
  compare_exchange h l a b = Some h' <->
  exists d, h !! l = Some d /\ d_state d = a /\ h' = <[l := set_state d b]> h.
Proof.
  unfold compare_exchange. destruct (h !! l) as [d|]; [|naive_solver].
  case_decide; naive_solver.
Qed.

(** *** Reservation *)

Definition count_for (key : Key) (requests : list AssignmentReservation) : nat :=
  length (filter (fun r => ar_key r = key) requests).

Lemma count_for_cons key r rs :
  count_for key (r :: rs) = ((if decide (ar_key r = key) then 1 else 0) + count_for key rs)%nat.
Proof. unfold count_for. rewrite filter_cons. by case_decide. Qed.

Lemma needed_counts_lookup requests key :
  needed_counts requests !! key =
  match count_for key requests with O => None | n => Some n end.
Proof.
  unfold needed_counts.
  enough (forall (acc : gmap Key nat), (forall k, acc !! k <> Some 0%nat) ->
    foldl (fun needed r => <[ar_key r := S (default 0%nat (needed !! ar_key r))]> needed) acc requests
      !! key =
    match (default 0%nat (acc !! key) + count_for key requests)%nat with O => None | n => Some n end)
    as Hgen.
  { rewrite Hgen; [by rewrite lookup_empty|]. intros k. by rewrite lookup_empty. }
  induction requests as [|r rs IH]; intros acc Hacc; simpl.
  - unfold count_for; simpl. specialize (Hacc key). destruct (acc !! key) as [[|n]|]; simpl; try done.
    by rewrite Nat.add_0_r.
  - rewrite IH.
    + rewrite count_for_cons. case_decide as Hd.
      * subst key. rewrite lookup_insert_eq. simpl. by rewrite Nat.add_succ_r.
      * rewrite lookup_insert_ne by done. done.
    + intros k. destruct (decide (k = ar_key r)) as [->|].
      * by rewrite lookup_insert_eq.
      * by rewrite lookup_insert_ne.
Qed.

(** Every inbox of [requests] can take its share. *)
Definition room (ib : gmap Key Inbox) (requests : list AssignmentReservation) : Prop :=
  forall key, (0 < count_for key requests)%nat ->
    exists i, ib !! key = Some i /\ retired i = false /\
      (size (aborted i) + reservations i + count_for key requests <= ABORTED_RANGE_CAPACITY)%nat /\
      allocated i + N.of_nat (count_for key requests) <= U64_MAX.

Lemma admit_count_Ok ib key count u :
  (0 < count)%nat ->
  admit_count ib key count = Ok u ->
  exists i, ib !! key = Some i /\ retired i = false /\
    (size (aborted i) + reservations i + count <= ABORTED_RANGE_CAPACITY)%nat /\
    allocated i + N.of_nat count <= U64_MAX.
Proof.
  intros Hpos. unfold admit_count. destruct (ib !! key) as [i|]; [|done].
  destruct (retired i) eqn:Hr; [done|]. case_decide; [done|].
  unfold u64_checked_add. case_decide; [|done]. intros _. exists i. split_and!; try done. lia.
Qed.

Lemma admit_all_Ok ib needed u :
  admit_all ib needed = Ok u -> forall key n, (key, n) ∈ needed -> admit_count ib key n = Ok tt.
Proof.
  induction needed as [|[k c] l IH]; simpl; intros Ha key n Hin; [by apply not_elem_of_nil in Hin|].
  destruct (admit_count ib k c) as [[]|] eqn:E; [|done].
  apply elem_of_cons in Hin as [[= -> ->]|Hin]; auto.
Qed.

Lemma admit_all_room ib requests u :
  admit_all ib (bt_entries (needed_counts requests)) = Ok u -> room ib requests.
Proof.
  intros Ha key Hpos. eapply (admit_count_Ok _ _ _ tt); [done|].
  eapply admit_all_Ok; [done|]. apply elem_of_bt_entries. rewrite needed_counts_lookup.
  by destruct (count_for key requests); [lia|].
Qed.

Lemma own_resource_inboxes key seq r rs :
  inboxes (foldl (own_resource key seq) r rs) = inboxes r.
Proof. revert r. induction rs as [|x rs IH]; intros r; simpl; [done|]. by rewrite IH. Qed.

(** The inbox after one more assignment. *)
Definition assign (i : Inbox) (l : loc) : Inbox :=
  mkInbox (retired i) (identity_durable i) (allocated i + 1) (published i)
    (committed_settled i) (<[allocated i + 1 := l]> (in_flight i)) (accepted i)
    (aborted i) (S (reservations i)).

Lemma assign_inv i l :
  inbox_inv i ->
  (size (aborted i) + reservations i + 1 <= ABORTED_RANGE_CAPACITY)%nat ->
  allocated i + 1 <= U64_MAX ->
  inbox_inv (assign i l).
Proof.
  intros Hi Hcap Hal. pose proof (inbox_inv_published_le _ Hi).
  assert (in_flight i !! (allocated i + 1) = None) as Hfresh.
  { destruct (in_flight i !! (allocated i + 1)) eqn:E; [|done].
    apply (ii_bounds _ Hi) in E. lia. }
  destruct Hi as [Hp Hb Hr Ha Hw Hc Hacc Hcap']. split; simpl; try done; try lia.
  - rewrite Hp. unfold published_prefix; simpl.
    destruct (bt_first (in_flight i)) as [[s0 l0]|] eqn:E.
    + assert (bt_first (<[allocated i + 1:=l]> (in_flight i)) = Some (s0, l0)) as ->; [|done].
      pose proof (bt_first_lookup _ _ _ E) as Hs0. pose proof (Hb _ _ Hs0).
      apply bt_first_Some. split.
      * rewrite lookup_insert_ne by lia. done.
      * intros k v [[<- <-]|[? Hk]]%lookup_insert_Some; [unfold key_le, N_key; lia|].
        by eapply bt_first_min.
    + apply bt_first_None in E. rewrite E.
      assert (bt_first (<[allocated i + 1:=l]> (∅ : gmap N N)) = Some (allocated i + 1, l)) as ->; [|lia].
      apply bt_first_Some. rewrite lookup_insert_eq. split; [done|].
      intros k v [[<- <-]|[? Hk]]%lookup_insert_Some; [reflexivity|]. by rewrite lookup_empty in Hk.
  - intros s l' [[<- <-]|[? Hs]]%lookup_insert_Some; [lia|]. specialize (Hb _ _ Hs). lia.
  - rewrite map_size_insert_None by done. lia.
  - intros n Hn. destruct (Hc _ Hn) as (? & ? & ?). rewrite lookup_insert_ne by lia. auto with lia.
  - intros n res Hn. destruct (Hacc _ _ Hn). rewrite lookup_insert_ne by lia. auto with lia.
Qed.

(** The shared state after one more assignment to the inbox of [key]. *)
Record assigned (sh sh' : Shared) (key : Key) (i : Inbox) (d : Descriptor) : Prop := {
  as_lookup : inboxes (registry sh) !! key = Some i;
  as_inboxes : inboxes (registry sh') = <[key := assign i (next_loc sh)]> (inboxes (registry sh));
  as_heap : heap sh' = <[next_loc sh := d]> (heap sh);
  as_next : next_loc sh' = next_loc sh + 1;
  as_key : d_key d = key;
  as_seq : d_seq d = allocated i + 1;
  as_state : d_state d = state_code ReservedNoWrite;
}.

Lemma heap_fresh w : world_inv w -> heap (w_sh w) !! next_loc (w_sh w) = None.
Proof.
  intros Hw. destruct (heap (w_sh w) !! next_loc (w_sh w)) as [d|] eqn:E; [|done].
  destruct (wi_desc _ Hw _ _ E) as [? _]. lia.
Qed.

(** No descriptor holds the sequence that is assigned next. *)
Lemma assigned_unique w sh key i d l0 d0 :
  world_inv w -> assigned (w_sh w) sh key i d ->
  heap (w_sh w) !! l0 = Some d0 -> d_key d0 = key -> d_seq d0 <> d_seq d.
Proof.
  intros Hw [Hi _ _ _ _ Hs _] Hd0 Hk. destruct (wi_desc _ Hw _ _ Hd0) as (_ & i0 & Hi0 & [Hb _]).
  rewrite Hk, Hi in Hi0. injection Hi0 as <-. lia.
Qed.

Lemma assigned_in_flight w sh key i d k i' s l :
  world_inv w -> assigned (w_sh w) sh key i d ->
  inboxes (registry sh) !! k = Some i' -> in_flight i' !! s = Some l ->
  exists d', heap sh !! l = Some d' /\ d_key d' = k /\ d_seq d' = s.
Proof.
  intros Hw Has Hk Hs. pose proof (heap_fresh w Hw) as Hfresh.
  destruct Has as [Hi Hib Hh Hn Hdk Hds Hdst]. rewrite Hib in Hk. rewrite Hh.
  assert (forall l0 d0, heap (w_sh w) !! l0 = Some d0 -> l0 <> next_loc (w_sh w)) as Hne
    by (intros l0 d0 H0 ->; congruence).
  apply lookup_insert_Some in Hk as [[<- <-]|[_ Hk]].
  - simpl in Hs. apply lookup_insert_Some in Hs as [[<- <-]|[_ Hs]].
    + exists d. rewrite lookup_insert_eq. auto.
    + destruct (wi_in_flight _ Hw _ _ _ _ Hi Hs) as (d0 & Hd0 & ?).
      exists d0. rewrite lookup_insert_ne by (symmetry; eauto). auto.
  - destruct (wi_in_flight _ Hw _ _ _ _ Hk Hs) as (d0 & Hd0 & ?).
    exists d0. rewrite lookup_insert_ne by (symmetry; eauto). auto.
Qed.

Lemma assigned_desc w sh key i d l d' :
  world_inv w -> assigned (w_sh w) sh key i d -> heap sh !! l = Some d' ->
  l < next_loc sh /\ exists i', inboxes (registry sh) !! d_key d' = Some i' /\ desc_inv i' l d'.
Proof.
  intros Hw [Hi Hib Hh Hn Hdk Hds Hdst] Hl. rewrite Hh in Hl. rewrite Hn, Hib.
  apply lookup_insert_Some in Hl as [[<- <-]|[_ Hl]].
  - split; [lia|]. exists (assign i (next_loc (w_sh w))). rewrite Hdk, lookup_insert_eq.
    split; [done|]. split; simpl; [lia|]. left. rewrite Hds. apply lookup_insert_eq.
  - destruct (wi_desc _ Hw _ _ Hl) as (? & i0 & Hi0 & Hd). split; [lia|].
    destruct (decide (d_key d' = key)) as [Hk|]; [|rewrite lookup_insert_ne by done; eauto].
    rewrite Hk, lookup_insert_eq. exists (assign i (next_loc (w_sh w))). split; [done|].
    rewrite Hk, Hi in Hi0. injection Hi0 as <-. destruct Hd as [Hb Ho]. split; simpl; [lia|].
    rewrite lookup_insert_ne by lia. done.
Qed.

Lemma assigned_finishing w sh key i d :
  world_inv w -> assigned (w_sh w) sh key i d -> finishing_ok sh (finishing w).
Proof.
  intros Hw Has l b Hfin. pose proof (heap_fresh w Hw) as Hfresh.
  destruct Has as [Hi Hib Hh Hn Hdk Hds Hdst].
  destruct (wi_finishing _ Hw _ _ Hfin) as (d0 & i0 & Hd0 & Hs0 & Hi0 & Hf0).
  rewrite Hh, Hib. exists d0. rewrite lookup_insert_ne by (intros <-; congruence).
  destruct (decide (d_key d0 = key)) as [Hk|]; [|exists i0; rewrite lookup_insert_ne by done; auto].
  exists (assign i (next_loc (w_sh w))). rewrite Hk, lookup_insert_eq.
  rewrite Hk, Hi in Hi0. injection Hi0 as <-. split_and!; try done.
  simpl. rewrite lookup_insert_ne; [done|].
  apply (ii_bounds _ (wi_inbox _ Hw _ _ Hi)) in Hf0. lia.
Qed.

Lemma world_inv_assigned w sh key i d gs :
  world_inv w -> assigned (w_sh w) sh key i d ->
  (size (aborted i) + reservations i + 1 <= ABORTED_RANGE_CAPACITY)%nat ->
  allocated i + 1 <= U64_MAX ->
  world_inv (mkWorld sh gs (writers w) (claimed w) (finishing w)).
Proof.
  intros Hw Has Hcap Hal. pose proof (heap_fresh w Hw) as Hfresh.
  split; simpl; eauto using assigned_in_flight, assigned_desc, assigned_finishing.
  - intros k i'. rewrite (as_inboxes _ _ _ _ _ Has).
    intros [[<- <-]|[? Hk]]%lookup_insert_Some; [|by apply (wi_inbox _ Hw k)].
    apply assign_inv; try done. apply (wi_inbox _ Hw key). apply Has.
  - intros l1 l2 d1 d2. rewrite (as_heap _ _ _ _ _ Has). pose proof (as_key _ _ _ _ _ Has) as Hk.
    intros [[<- <-]|[? H1]]%lookup_insert_Some [[<- <-]|[? H2]]%lookup_insert_Some ??; try done.
    + by destruct (assigned_unique _ _ _ _ _ _ _ Hw Has H2); [congruence|].
    + by destruct (assigned_unique _ _ _ _ _ _ _ Hw Has H1); [congruence|].
    + by eapply (wi_unique _ Hw).
  - intros l. rewrite (wi_writers _ Hw), (as_heap _ _ _ _ _ Has), lookup_insert.
    pose proof (as_state _ _ _ _ _ Has) as Hst. case_decide as Hd; [|done]. rewrite <-Hd, Hfresh.
    split; [intros (d' & ? & ?); done|]. intros (d' & [= <-] & Hst'). by rewrite Hst in Hst'.
  - intros l. rewrite (wi_claimed _ Hw), (as_heap _ _ _ _ _ Has), lookup_insert.
    pose proof (as_state _ _ _ _ _ Has) as Hst. case_decide as Hd; [|done]. rewrite <-Hd, Hfresh.
    split; [intros (d' & ? & ?); done|]. intros (d' & [= <-] & Hst'). by rewrite Hst in Hst'.
  - exact (assigned_finishing _ _ _ _ _ Hw Has).
Qed.

Lemma reserve_one_spec w request rest gs :
  world_inv w -> room (inboxes (registry (w_sh w))) (request :: rest) ->
  exists i d sh, reserve_one (w_sh w) request = (Ok (next_loc (w_sh w)), sh) /\
    assigned (w_sh w) sh (ar_key request) i d /\
    d_resources d = ar_resources request /\
    stopping sh = stopping (w_sh w) /\ fenced sh = fenced (w_sh w) /\
    world_inv (mkWorld sh gs (writers w) (claimed w) (finishing w)) /\
    room (inboxes (registry sh)) rest.
Proof.
  intros Hw Hroom. set (key := ar_key request).
  destruct (Hroom key) as (i & Hi & Hret & Hcap & Hal).
  { rewrite count_for_cons. rewrite decide_True by done. lia. }
  assert (count_for key (request :: rest) = S (count_for key rest)) as Hcount.
  { rewrite count_for_cons. by rewrite decide_True. }
  exists i. eexists. unfold reserve_one. fold key. rewrite Hi. eexists. split; [done|].
  match goal with |- assigned _ ?sh _ _ _ /\ _ => assert (assigned (w_sh w) sh key i
    (mkDescriptor key (allocated i + 1) (state_code ReservedNoWrite) false (ar_resources request) None))
    as Has by (split; simpl; rewrite ?own_resource_inboxes; done) end.
  split; [done|]. split_and!; try done.
  - eapply world_inv_assigned; try done; lia.
  - intros k Hpos. rewrite (as_inboxes _ _ _ _ _ Has).
    destruct (decide (k = key)) as [->|Hne].
    + exists (assign i (next_loc (w_sh w))). rewrite lookup_insert_eq. simpl. split_and!; try done; lia.
    + rewrite lookup_insert_ne by done.
      destruct (Hroom k) as (i0 & ? & ? & Hc & ?); rewrite count_for_cons in *;
        rewrite decide_False in * by done; [lia|]. exists i0. auto.
Qed.

(** A granted guard points at a fresh descriptor for its request. *)
Definition grants (sh : Shared) (request : AssignmentReservation) (l : loc) : Prop :=
  exists d, heap sh !! l = Some d /\ d_key d = ar_key request /\
    d_resources d = ar_resources request /\ d_state d = state_code ReservedNoWrite.

Lemma reserve_loop_spec requests w gs :
  world_inv w -> room (inboxes (registry (w_sh w))) requests ->
  exists ls sh, reserve_loop (w_sh w) requests = (Ok ls, sh) /\
    Forall2 (grants sh) requests ls /\ NoDup ls /\
    Forall (fun l => next_loc (w_sh w) <= l) ls /\
    (forall l d, l < next_loc (w_sh w) -> heap (w_sh w) !! l = Some d -> heap sh !! l = Some d) /\
    world_inv (mkWorld sh gs (writers w) (claimed w) (finishing w)).
Proof.
  revert w. induction requests as [|r rs IH]; intros w Hw Hroom; simpl.
  { exists [], (w_sh w). split_and!; try done; [constructor..|]. by destruct w, Hw. }
  destruct (reserve_one_spec w r rs gs Hw Hroom)
    as (i & d & sh1 & -> & Has & Hres & Hst & Hfn & Hw1 & Hroom1).
  destruct (IH (mkWorld sh1 gs (writers w) (claimed w) (finishing w)) Hw1 Hroom1)
    as (ls & sh & Hls & Hgr & Hnd & Hge & Hkeep & Hw2). simpl in *. rewrite Hls.
  rewrite (as_next _ _ _ _ _ Has) in *. rewrite Forall_forall in Hge.
  exists (next_loc (w_sh w) :: ls), sh. split_and!; try done.
  - constructor; [|done]. exists d. rewrite Hkeep with (d := d); try lia.
    + destruct Has; auto.
    + rewrite (as_heap _ _ _ _ _ Has). apply lookup_insert_eq.
  - constructor; [|done]. intros Hin. specialize (Hge _ Hin). lia.
  - constructor; [lia|]. apply Forall_forall. intros l Hl. specialize (Hge _ Hl). lia.
  - intros l d0 Hlt Hl. apply Hkeep; [lia|]. rewrite (as_heap _ _ _ _ _ Has).
    rewrite lookup_insert_ne by lia. done.
Qed.

(** *** Resolution *)

Record same_core (sh sh' : Shared) : Prop := {
  sc_inboxes : inboxes (registry sh') = inboxes (registry sh);
  sc_heap : heap sh' = heap sh;
  sc_next : next_loc sh' = next_loc sh;
  sc_fenced : fenced sh' = fenced sh;
}.

Lemma same_core_refl sh : same_core sh sh.
Proof. done. Qed.

Lemma same_core_trans a b c : same_core a b -> same_core b c -> same_core a c.
Proof. intros [] []. split; congruence. Qed.

Lemma same_core_foldl {A} (f : Shared -> A -> Shared) l sh :
  (forall sh x, same_core sh (f sh x)) -> same_core sh (foldl f sh l).
Proof.
  intros Hf. revert sh. induction l as [|x l IH]; intros sh; simpl; [done|].
  eapply same_core_trans; eauto.
Qed.

Lemma release_resource_core sh r key seq b : same_core sh (release_resource sh r key seq b).
Proof. unfold release_resource. repeat (case_match || done). Qed.

Lemma release_unallocated_core sh rs : same_core sh (release_unallocated sh rs).
Proof.
  apply same_core_foldl. intros. unfold release_unallocated_one. repeat (case_match || done).
Qed.

Lemma complete_unassigned_core sh rs : same_core sh (complete_unassigned sh rs).
Proof.
  unfold complete_unassigned. split; try done. simpl.
  generalize (registry sh). induction rs as [|x rs IH]; intros r; simpl; [done|].
  rewrite IH. by case_match.
Qed.

Lemma add_effects_core sh es : same_core sh (add_effects sh es).
Proof. done. Qed.

Lemma finish_spec sh l d b :
  heap sh !! l = Some d -> fenced sh = false ->
  heap (finish sh l b) = heap sh /\ next_loc (finish sh l b) = next_loc sh /\
  inboxes (registry (finish sh l b)) =
    match inboxes (registry sh) !! d_key d with
    | Some i => <[d_key d := (finish_inbox i (d_seq d) (d_resources d) b).1]> (inboxes (registry sh))
    | None => inboxes (registry sh)
    end.
Proof.
  intros Hl Hf. unfold finish. rewrite Hl.
  set (sh1 := if b && entry_cleanup sh then _ else _).
  assert (same_core sh sh1) as H1 by (unfold sh1; by case_match).
  rewrite (sc_fenced _ _ H1), Hf.
  set (sh2 := if b then _ else sh1).
  assert (same_core sh sh2) as H2.
  { eapply same_core_trans; [done|]. unfold sh2. destruct b; [|done].
    apply same_core_foldl. intros. apply release_resource_core. }
  rewrite (sc_inboxes _ _ H2).
  match goal with |- context [match ?x with _ => _ end] =>
    destruct (inboxes (registry sh) !! d_key d) as [i|] eqn:Hi end.
  - destruct (finish_inbox i (d_seq d) (d_resources d) b) as [i' drained].
    simpl. set (sh3 := set_registry sh2 _).
    match goal with |- context [foldl ?f sh3 drained] =>
      assert (same_core sh3 (foldl f sh3 drained)) as H3 end.
    { apply same_core_foldl. intros sh' p. apply same_core_foldl. intros. apply release_resource_core. }
    rewrite (sc_heap _ _ H3), (sc_next _ _ H3), (sc_inboxes _ _ H3).
    unfold sh3; simpl. by rewrite (sc_heap _ _ H2), (sc_next _ _ H2), ?(sc_inboxes _ _ H2).
  - simpl. by rewrite (sc_heap _ _ H2), (sc_next _ _ H2), ?(sc_inboxes _ _ H2).
Qed.

Lemma finish_fenced sh l b : fenced sh = true -> same_core sh (finish sh l b).
Proof.
  intros Hf. unfold finish. case_match; [|done]. by destruct (b && entry_cleanup sh); simpl; rewrite Hf.
Qed.

Lemma finish_missing sh l b : heap sh !! l = None -> finish sh l b = sh.
Proof. intros Hl. unfold finish. by rewrite Hl. Qed.

Lemma finish_inbox_in_flight i seq res b :
  in_flight (finish_inbox i seq res b).1 = delete seq (in_flight i).
Proof. done. Qed.

Lemma finish_inbox_published i seq res b :
  published (finish_inbox i seq res b).1 = published_prefix (finish_inbox i seq res b).1.
Proof. done. Qed.

Lemma finish_inbox_accepted i seq res b n r :
  accepted (finish_inbox i seq res b).1 !! n = Some r <->
  published (finish_inbox i seq res b).1 < n /\
  (if b then accepted i !! n else <[seq := res]> (accepted i) !! n) = Some r.
Proof. simpl. rewrite map_lookup_filter_Some. simpl. destruct b; rewrite N.nle_gt; tauto. Qed.

Lemma finish_inbox_covers i seq res b n :
  inbox_inv i -> 1 <= seq <= allocated i ->
  covers (aborted (finish_inbox i seq res b).1) n <->
  (b = true /\ n = seq) \/ covers (aborted i) n.
Proof.
  intros Hi Hs. pose proof (ii_allocated _ Hi). destruct b; simpl; [|naive_solver].
  destruct (coalesce_spec (aborted i) seq seq) as (_ & _ & ->); [apply Hi|lia|].
  assert (seq <= n <= seq <-> n = seq) as -> by lia. naive_solver.
Qed.

Lemma finish_inbox_inv i seq l res b :
  inbox_inv i -> in_flight i !! seq = Some l -> inbox_inv (finish_inbox i seq res b).1.
Proof.
  intros Hi Hf. pose proof (ii_bounds _ Hi _ _ Hf) as Hb. pose proof (ii_allocated _ Hi).
  assert (size (delete seq (in_flight i)) = reservations i - 1)%nat as Hsz.
  { rewrite map_size_delete_Some by eauto. rewrite (ii_reservations _ Hi). lia. }
  assert (0 < reservations i)%nat as Hpos.
  { rewrite (ii_reservations _ Hi). apply Nat.neq_0_lt_0. intros H0.
    apply map_size_empty_inv in H0. rewrite H0 in Hf. by rewrite lookup_empty in Hf. }
  split.
  - apply finish_inbox_published.
  - intros s l'. rewrite finish_inbox_in_flight. intros [_ Hs]%lookup_delete_Some.
    by apply (ii_bounds _ Hi) in Hs.
  - rewrite finish_inbox_in_flight. by rewrite Hsz.
  - done.
  - simpl. destruct b; [|apply Hi]. by apply coalesce_spec; [apply Hi|lia].
  - intros n Hn. apply (finish_inbox_covers _ _ res b _ Hi Hb) in Hn.
    rewrite finish_inbox_in_flight. destruct Hn as [[-> ->]|Hn].
    + split; [done|]. split; [apply lookup_delete_eq|].
      apply eq_None_not_Some. intros [r [_ Hr]%finish_inbox_accepted].
      apply (ii_accepted _ Hi) in Hr as [_ ?]. congruence.
    + destruct (ii_covers _ Hi _ Hn) as (? & Hno & Hacc). split; [done|].
      assert (n <> seq) by congruence. rewrite lookup_delete_ne by done. split; [done|].
      apply eq_None_not_Some. intros [r [_ Hr]%finish_inbox_accepted].
      destruct b; [|rewrite lookup_insert_ne in Hr by done]; congruence.
  - intros n r [Hlt Hr]%finish_inbox_accepted. rewrite finish_inbox_in_flight. split; [split; [done|]|].
    + destruct b; [apply (ii_accepted _ Hi) in Hr; simpl; lia|].
      apply lookup_insert_Some in Hr as [[<- _]|[_ Hr]]; [simpl; lia|].
      apply (ii_accepted _ Hi) in Hr. simpl. lia.
    + apply lookup_delete_None. destruct (decide (seq = n)) as [|Hne]; [by left|right].
      destruct b; [|rewrite lookup_insert_ne in Hr by done]; by apply (ii_accepted _ Hi) in Hr as [_ ?].
  - simpl. pose proof (ii_capacity _ Hi). destruct b; [|lia].
    destruct (coalesce_spec (aborted i) seq seq) as (_ & Hsz' & _); [apply Hi|lia|]. lia.
Qed.

(** A descriptor of the inbox that is not the one resolved keeps its relation. *)
Lemma desc_inv_finish_other i seq l res b l0 d0 :
  inbox_inv i -> in_flight i !! seq = Some l -> d_seq d0 <> seq ->
  desc_inv i l0 d0 -> desc_inv (finish_inbox i seq res b).1 l0 d0.
Proof.
  intros Hi Hf Hne [Hs Ho]. pose proof (ii_bounds _ Hi _ _ Hf) as Hb. split; [done|].
  rewrite finish_inbox_in_flight, lookup_delete_ne by done.
  destruct Ho as [?|[? [[? Hc]|[? Ha]]]]; [by left|right; split; [done|]..].
  - left. split; [done|]. rewrite (finish_inbox_covers _ _ _ _ _ Hi Hb). naive_solver.
  - right. split; [done|]. apply eq_None_not_Some. intros [r [_ Hr]%finish_inbox_accepted].
    destruct b; [|rewrite lookup_insert_ne in Hr by done]; congruence.
Qed.

Lemma desc_inv_finish_self i l d (b : bool) :
  inbox_inv i -> in_flight i !! d_seq d = Some l ->
  d_state d = state_code (if b then AbortedDurable else AcceptedDurable) ->
  desc_inv (finish_inbox i (d_seq d) (d_resources d) b).1 l d.
Proof.
  intros Hi Hf Hst. pose proof (ii_bounds _ Hi _ _ Hf) as Hb. split; [done|].
  right. rewrite finish_inbox_in_flight. split; [apply lookup_delete_eq|].
  destruct b; [right|left]; (split; [done|]).
  - apply eq_None_not_Some. intros [r [_ Hr]%finish_inbox_accepted].
    apply (ii_accepted _ Hi) in Hr as [_ ?]. congruence.
  - rewrite (finish_inbox_covers _ _ _ _ _ Hi Hb). intros [[? _]|Hc]; [done|].
    destruct (ii_covers _ Hi _ Hc) as (_ & ? & _). congruence.
Qed.

Lemma world_inv_finish w l b :
  world_inv w -> (l, b) ∈ finishing w ->
  world_inv (mkWorld (finish (w_sh w) l b) (guards w) (writers w) (claimed w)
               (finishing w ∖ {[ (l, b) ]})).
Proof.
  intros Hw Hfin. destruct (wi_finishing _ Hw _ _ Hfin) as (d & i & Hl & Hst & Hi & Hf).
  pose proof (wi_inbox _ Hw _ _ Hi) as Hinv.
  assert (forall sh, same_core (w_sh w) sh ->
    world_inv (mkWorld sh (guards w) (writers w) (claimed w) (finishing w ∖ {[ (l, b) ]}))) as Hsame.
  { intros sh [Hib Hh Hn _]. pose proof (world_inv_same w sh Hw Hh Hn Hib) as [].
    split; try done. intros l' b' Hin. apply wi_finishing0. set_solver. }
  destruct (fenced (w_sh w)) eqn:Hfn; [by apply Hsame, finish_fenced|].
  destruct (finish_spec (w_sh w) l d b Hl Hfn) as (Hh & Hn & Hib). rewrite Hi in Hib.
  set (i' := (finish_inbox i (d_seq d) (d_resources d) b).1) in *.
  split; simpl; rewrite ?Hh, ?Hn, ?Hib.
  - intros k i0 [[<- <-]|[? Hk]]%lookup_insert_Some; [by eapply finish_inbox_inv|].
    by apply (wi_inbox _ Hw k).
  - intros k i0 s l0 [[<- <-]|[? Hk]]%lookup_insert_Some Hs; [|by apply (wi_in_flight _ Hw k i0)].
    unfold i' in Hs. rewrite finish_inbox_in_flight in Hs.
    apply lookup_delete_Some in Hs as [_ Hs]. by apply (wi_in_flight _ Hw _ i).
  - intros l0 d0 Hd0. destruct (wi_desc _ Hw _ _ Hd0) as (? & i0 & Hi0 & Hdi). split; [done|].
    destruct (decide (d_key d0 = d_key d)) as [Hk|Hk]; [|rewrite lookup_insert_ne by done; eauto].
    rewrite Hk, lookup_insert_eq. exists i'. split; [done|]. rewrite Hk, Hi in Hi0. injection Hi0 as <-.
    destruct (decide (d_seq d0 = d_seq d)) as [Hs|Hs]; [|by eapply desc_inv_finish_other].
    assert (l0 = l) as -> by by eapply (wi_unique _ Hw). simplify_eq. by apply desc_inv_finish_self.
  - apply (wi_unique _ Hw).
  - apply (wi_writers _ Hw).
  - apply (wi_claimed _ Hw).
  - intros l0 b0 [Hin Hne]%elem_of_difference.
    destruct (wi_finishing _ Hw _ _ Hin) as (d0 & i0 & Hd0 & Hst0 & Hi0 & Hf0).
    exists d0. assert (l0 <> l) as Hll.
    { intros ->. simplify_eq. rewrite Hst in Hst0. apply Hne. apply elem_of_singleton.
      f_equal. by destruct b, b0. }
    destruct (decide (d_key d0 = d_key d)) as [Hk|Hk]; [|exists i0; rewrite lookup_insert_ne by done; auto].
    exists i'. rewrite Hk, lookup_insert_eq. rewrite Hk, Hi in Hi0. injection Hi0 as <-.
    split_and!; try done. unfold i'. rewrite finish_inbox_in_flight.
    rewrite lookup_delete_ne; [done|]. intros Heq. rewrite <-Heq in Hf0. congruence.
Qed.

(** *** Every action preserves the invariant *)

Lemma reserve_batch_cases w requests gs :
  world_inv w ->
  (exists e, reserve_batch (w_sh w) requests = (Err e, w_sh w)) \/
  (exists ls sh, reserve_batch (w_sh w) requests = (Ok ls, sh) /\
     Forall2 (grants sh) requests ls /\ NoDup ls /\
     Forall (fun l => heap (w_sh w) !! l = None) ls /\
     (forall l d, heap (w_sh w) !! l = Some d -> heap sh !! l = Some d) /\
     world_inv (mkWorld sh gs (writers w) (claimed w) (finishing w))).
Proof.
  intros Hw. unfold reserve_batch.
  destruct (stopping (w_sh w)); [eauto|]. destruct (fenced (w_sh w)); [eauto|].
  destruct (admit_all _ _) as [u|e] eqn:Ha; [|eauto]. right.
  destruct (reserve_loop_spec requests w gs Hw (admit_all_room _ _ _ Ha))
    as (ls & sh & Hls & Hg & Hnd & Hge & Hkeep & Hw').
  exists ls, sh. split_and!; try done.
  - eapply Forall_impl; [exact Hge|]. intros l Hl. destruct (heap (w_sh w) !! l) eqn:E; [|done].
    destruct (wi_desc _ Hw _ _ E) as [? _]. simpl in Hl. lia.
  - intros l d Hl. apply Hkeep; [|done]. by destruct (wi_desc _ Hw _ _ Hl).
Qed.

Lemma world_inv_register w target incarnation issued r sh :
  world_inv w -> issued <= U64_MAX ->
  register (w_sh w) target incarnation issued = (r, sh) -> world_inv (with_sh w sh).
Proof.
  intros Hw Hb. unfold register. destruct (stopping (w_sh w)).
  { intros [= <- <-]. by apply world_inv_same. }
  case_match; intros [= <- <-]; [by apply world_inv_same|].
  eapply world_inv_insert; [done|done|].
  destruct (inboxes (registry (w_sh w)) !! mkKey target incarnation) as [i|] eqn:E; simpl.
  - by apply register_evolves.
  - split; [|done]. apply (ev_inv _ _ (register_evolves inbox_default issued Hb)), inbox_inv_default.
Qed.

Lemma first_of_target_None ib target candidate :
  first_of_target ib target = None -> ib !! mkKey target candidate = None.
Proof.
  intros E. destruct (ib !! mkKey target candidate) as [i|] eqn:E'; [|done].
  exfalso. unfold first_of_target in E.
  assert ((mkKey target candidate, i) ∈ bt_range_ge (mkKey target "") ib) as Hin.
  { apply elem_of_bt_range_ge. split; [done|]. right. split; [done|]. apply string_key_le_iff.
    simpl. by destruct candidate; [left|right]. }
  destruct (head _) as [[k i0]|] eqn:Hh.
  - case_decide as Hk; [done|]. pose proof (head_Some_elem_of _ _ Hh) as Hin0.
    apply elem_of_bt_range_ge in Hin0 as [_ Hle].
    pose proof (sorted_head_min _ _ _ (bt_range_ge_sorted _ _) Hh Hin) as Hle'.
    unfold entry_le in Hle'; simpl in Hle'. apply Hk.
    destruct Hle as [[Hle Hne]|[? _]]; [|done]. destruct Hle' as [[Hle' _]|[? _]]; [|done].
    simpl in *. by apply (anti_symm key_le).
  - destruct (bt_range_ge _ _); [by apply not_elem_of_nil in Hin|done].
Qed.

Lemma world_inv_provisional w target candidate r sh :
  world_inv w ->
  provisional_incarnation (w_sh w) target candidate = (r, sh) -> world_inv (with_sh w sh).
Proof.
  intros Hw. unfold provisional_incarnation.
  destruct (first_of_target _ _) as [[key i]|] eqn:E.
  { destruct (retired i); intros [= <- <-]; by apply world_inv_same. }
  intros [= <- <-]. eapply world_inv_insert; [done|done|].
  rewrite (first_of_target_None _ _ candidate E). split; [apply inbox_inv_default|done].
Qed.

Lemma world_inv_hand_off w l h gs :
  world_inv w ->
  compare_exchange (heap (w_sh w)) l (state_code ReservedNoWrite) (state_code HandedOff) = Some h ->
  world_inv (mkWorld (set_heap (w_sh w) h) gs ({[ l ]} ∪ writers w) (claimed w) (finishing w)).
Proof.
  intros Hw (d & Hl & Hst & ->)%compare_exchange_Some.
  eapply world_inv_update; try done.
  - right. by eapply in_flight_of_state; eauto; rewrite Hst.
  - apply tokens_ok_other with d; try done; try set_solver.
    rewrite (wi_claimed _ Hw). split; [|done]. intros (d' & ? & Hst'). simplify_eq. by rewrite Hst in Hst'.
  - eapply finishing_ok_other; eauto; by rewrite Hst.
Qed.

Lemma world_inv_detach w l gs :
  world_inv w -> world_inv (mkWorld (detach (w_sh w) l) gs (writers w) (claimed w) (finishing w)).
Proof.
  intros Hw. unfold detach. destruct (heap (w_sh w) !! l) as [d|] eqn:Hl; [|by destruct Hw].
  eapply world_inv_update; try done; [by left|..].
  - apply tokens_ok_other with d; try done; simpl.
    + rewrite (wi_writers _ Hw). naive_solver.
    + rewrite (wi_claimed _ Hw). naive_solver.
  - intros l' b Hfin. destruct (wi_finishing _ Hw _ _ Hfin) as (d0 & i & Hd0 & ?).
    destruct (decide (l' = l)) as [->|].
    + exists (set_detached d), i. simplify_eq. simpl. by rewrite lookup_insert_eq.
    + exists d0, i. simpl. by rewrite lookup_insert_ne.
Qed.

Lemma world_inv_definite_non_write w l :
  world_inv w -> world_inv (with_sh w (definite_non_write (w_sh w) l)).
Proof.
  intros Hw. unfold definite_non_write.
  destruct (compare_exchange _ _ _ _) as [h|] eqn:E; [|by apply world_inv_same].
  apply compare_exchange_Some in E as (d & Hl & Hst & ->).
  apply (world_inv_detach (with_sh w _)). eapply world_inv_update; try done.
  - right. by eapply in_flight_of_state; eauto; rewrite Hst.
  - apply tokens_ok_other with d; try done; simpl.
    + rewrite (wi_writers _ Hw). split; [|done]. intros (d' & ? & Hst'). simplify_eq. by rewrite Hst in Hst'.
    + rewrite (wi_claimed _ Hw). split; [|done]. intros (d' & ? & Hst'). simplify_eq. by rewrite Hst in Hst'.
  - eapply finishing_ok_other; eauto; by rewrite Hst.
Qed.

Lemma world_inv_accept w l sh :
  world_inv w -> l ∈ writers w -> accept_store (w_sh w) l = Some sh ->
  world_inv (mkWorld sh (guards w) (writers w ∖ {[ l ]}) (claimed w) ({[ (l, false) ]} ∪ finishing w)).
Proof.
  intros Hw Hl. unfold accept_store. destruct (fenced (w_sh w)); [done|].
  apply (wi_writers _ Hw) in Hl as (d & Hl & Hst). rewrite Hl. intros [= <-].
  destruct (in_flight_of_state _ _ _ Hw Hl) as (i & Hi & Hf); [by rewrite Hst..|].
  eapply world_inv_update; try done; [by eauto|..].
  - apply tokens_ok_other with d; try done; try set_solver.
    rewrite (wi_claimed _ Hw). split; [|done]. intros (d' & ? & Hst'). simplify_eq. by rewrite Hst in Hst'.
  - intros l' b [[= -> ->]%elem_of_singleton|Hfin]%elem_of_union.
    + exists (set_state d (state_code AcceptedDurable)), i. simpl. by rewrite lookup_insert_eq.
    + eapply finishing_ok_other; eauto; by rewrite Hst.
Qed.

Lemma world_inv_drop_write w l :
  world_inv w -> l ∈ writers w ->
  world_inv (mkWorld (drop_write (w_sh w) l) (guards w) (writers w ∖ {[ l ]}) (claimed w) (finishing w)).
Proof.
  intros Hw Hl. apply (wi_writers _ Hw) in Hl as (d & Hl & Hst).
  unfold drop_write, compare_exchange. rewrite Hl, decide_True by done.
  set (d' := set_state d (state_code FatalUncertain)).
  assert (world_inv (mkWorld (set_heap (w_sh w) (<[l := d']> (heap (w_sh w)))) (guards w)
            (writers w ∖ {[ l ]}) (claimed w) (finishing w))) as Hw'.
  { eapply world_inv_update; try done.
    - right. by eapply in_flight_of_state; eauto; rewrite Hst.
    - apply tokens_ok_other with d; try done; try set_solver.
      rewrite (wi_claimed _ Hw). split; [|done]. intros (d0 & ? & Hst'). simplify_eq. by rewrite Hst in Hst'.
    - eapply finishing_ok_other; eauto; by rewrite Hst. }
  by apply (world_inv_same _ (set_fenced (set_heap (w_sh w) (<[l := d']> (heap (w_sh w)))))) in Hw'.
Qed.

Lemma world_inv_claim w is_stopping l sh :
  world_inv w -> resolver_claim (w_sh w) is_stopping l = Some sh ->
  world_inv (mkWorld sh (guards w) (writers w) ({[ l ]} ∪ claimed w) (finishing w)).
Proof.
  intros Hw. unfold resolver_claim. destruct (heap (w_sh w) !! l) as [d|] eqn:Hl; [|done].
  case_match; [done|]. case_decide as Hst; [|done]. unfold compare_exchange.
  rewrite Hl, decide_True by done. simpl. intros [= <-].
  eapply world_inv_update; try done.
  - right. by eapply in_flight_of_state; eauto; destruct Hst as [->| ->].
  - apply tokens_ok_other with d; try done; try set_solver.
    rewrite (wi_writers _ Hw). split; [|done]. intros (d' & ? & Hst'). simplify_eq.
    by rewrite Hst' in Hst; destruct Hst.
  - eapply finishing_ok_other; eauto; by destruct Hst as [->| ->].
Qed.

Lemma world_inv_abort w l :
  world_inv w -> l ∈ claimed w ->
  world_inv (mkWorld (abort_store (w_sh w) l) (guards w) (writers w) (claimed w ∖ {[ l ]})
               ({[ (l, true) ]} ∪ finishing w)).
Proof.
  intros Hw Hl. apply (wi_claimed _ Hw) in Hl as (d & Hl & Hst). unfold abort_store. rewrite Hl.
  destruct (in_flight_of_state _ _ _ Hw Hl) as (i & Hi & Hf); [by rewrite Hst..|].
  eapply world_inv_update; try done; [by eauto|..].
  - apply tokens_ok_other with d; try done; try set_solver.
    rewrite (wi_writers _ Hw). split; [|done]. intros (d' & ? & Hst'). simplify_eq. by rewrite Hst in Hst'.
  - intros l' b [[= -> ->]%elem_of_singleton|Hfin]%elem_of_union.
    + exists (set_state d (state_code AbortedDurable)), i. simpl. by rewrite lookup_insert_eq.
    + eapply finishing_ok_other; eauto; by rewrite Hst.
Qed.

Lemma step_inv w w' : world_inv w -> step w w' -> world_inv w'.
Proof.
  intros Hw Hs. destruct Hs; try (by apply world_inv_same);
    eauto using world_inv_register, world_inv_provisional, world_inv_hand_off,
      world_inv_definite_non_write, world_inv_detach, world_inv_accept, world_inv_drop_write,
      world_inv_claim, world_inv_abort, world_inv_finish.
  - destruct (reserve_batch_cases w requests (granted r ∪ guards w) Hw) as [[e He]|(ls & sh' & He & _ & _ & _ & _ & Hw')];
      rewrite He in H; injection H as <- <-; [|done].
    simpl. rewrite union_empty_l_L. by destruct w.
  - unfold commit_settled. destruct (inboxes (registry (w_sh w)) !! mkKey target incarnation) as [i|] eqn:E;
      [|by apply world_inv_same].
    eapply world_inv_insert; [done|done|]. rewrite E.
    by apply commit_settled_evolves, (wi_inbox _ Hw (mkKey target incarnation)).
  - unfold mark_resource_if_new in H. destruct held; injection H as <- <-; by apply world_inv_same.
  - destruct (complete_unassigned_core (w_sh w) rs). by apply world_inv_same.
  - destruct (release_unallocated_core (w_sh w) rs). by apply world_inv_same.
  - unfold retire_target in H. destruct (bool_decide _); injection H as <- <-; [by apply world_inv_same|].
    eapply world_inv_imap; try done. intros k i; simpl. case_decide; auto using flags_evolves, evolves_refl.
  - eapply world_inv_imap; try done. intros k i; simpl. case_decide; auto using clear_evolves, evolves_refl.
  - eapply world_inv_imap; try done. intros k i; simpl. case_decide; auto using flags_evolves, evolves_refl.
Qed.

Lemma initial_inv w : initial w -> world_inv w.
Proof.
  intros [Hib Hh Hws Hcl Hfin]. split; rewrite ?Hh, ?Hws, ?Hcl, ?Hfin; try set_solver.
  - intros key i Hi. destruct (Hib _ _ Hi) as [Hf Ha Hr Hp Hal Hwf Hc Hcap].
    split; rewrite ?Hf, ?Ha, ?Hr; try done; try lia.
    + unfold published_prefix. by rewrite Hf, (proj2 (bt_first_None _) eq_refl).
    + intros n Hn. split; [by apply Hc|done].
  - intros key i s l Hi Hs. destruct (Hib _ _ Hi) as [Hf _ _ _ _ _ _ _].
    by rewrite Hf, lookup_empty in Hs.
Qed.

Lemma reachable_inv w : reachable w -> world_inv w.
Proof. induction 1; eauto using initial_inv, step_inv. Qed.
