(* ===== verification/PublicationProps.v ===== *)
(** * Durable assignment publication: properties

    The guarantees the publication core gives its clients, for every
    interleaving of PublicationSteps.v: the published prefix contains only
    resolved assignments, it never shrinks, a descriptor moves along a fixed
    lifecycle, capacity is respected, a refused reservation changes nothing,
    and the read views agree with the set of aborted sequences. *)

From S2P Require Import Prelude OrdMap Ranges Publication PublicationSteps.

Open Scope N_scope.

(** ** Definitions used by the statements *)

(** The lifecycle of a descriptor's state byte. *)
Inductive state_step : N -> N -> Prop :=
| ss_hand_off : state_step (state_code ReservedNoWrite) (state_code HandedOff)
| ss_non_write : state_step (state_code ReservedNoWrite) (state_code DefiniteNonWrite)
| ss_claim_reserved :
    state_step (state_code ReservedNoWrite) (N.lor (state_code DefiniteNonWrite) ABORT_CLAIM)
| ss_claim_non_write :
    state_step (state_code DefiniteNonWrite) (N.lor (state_code DefiniteNonWrite) ABORT_CLAIM)
| ss_accept : state_step (state_code HandedOff) (state_code AcceptedDurable)
| ss_uncertain : state_step (state_code HandedOff) (state_code FatalUncertain)
| ss_abort : state_step (N.lor (state_code DefiniteNonWrite) ABORT_CLAIM) (state_code AbortedDurable).

Record inbox_le (i i' : Inbox) : Prop := {
  il_published : published i <= published i';
  il_allocated : allocated i <= allocated i';
  il_settled : committed_settled i <= committed_settled i';
}.

(** Identity and resources of a descriptor are immutable. *)
Record same_assignment (d d' : Descriptor) : Prop := {
  sa_key : d_key d' = d_key d;
  sa_seq : d_seq d' = d_seq d;
  sa_resources : d_resources d' = d_resources d;
}.

(** ** Lemmas *)

#[export] Instance inbox_le_preorder : PreOrder inbox_le.
Proof. split; [by split|]. intros a b c [] []. split; lia. Qed.

#[export] Instance same_assignment_preorder : PreOrder same_assignment.
Proof. split; [by split|]. intros a b c [] []. split; congruence. Qed.

Definition inboxes_mono (sh sh' : Shared) : Prop :=
  forall key i, inboxes (registry sh) !! key = Some i ->
    exists i', inboxes (registry sh') !! key = Some i' /\ inbox_le i i'.

Lemma inboxes_mono_same sh sh' :
  inboxes (registry sh') = inboxes (registry sh) -> inboxes_mono sh sh'.
Proof. intros Heq key i Hi. rewrite Heq. exists i. split; [done|]. reflexivity. Qed.

Lemma inboxes_mono_insert sh sh' key i' :
  inboxes (registry sh') = <[key := i']> (inboxes (registry sh)) ->
  (forall i, inboxes (registry sh) !! key = Some i -> inbox_le i i') ->
  inboxes_mono sh sh'.
Proof.
  intros Heq Hle k i Hi. rewrite Heq. destruct (decide (k = key)) as [->|].
  - exists i'. rewrite lookup_insert_eq. auto.
  - exists i. rewrite lookup_insert_ne by done. split; [done|]. reflexivity.
Qed.

Lemma inboxes_mono_imap sh sh' f :
  inboxes (registry sh') = map_imap (fun k i => Some (f k i)) (inboxes (registry sh)) ->
  (forall k i, inbox_le i (f k i)) -> inboxes_mono sh sh'.
Proof.
  intros Heq Hle k i Hi. rewrite Heq, map_lookup_imap, Hi. simpl. eauto.
Qed.

Lemma inboxes_mono_trans a b c : inboxes_mono a b -> inboxes_mono b c -> inboxes_mono a c.
Proof.
  intros Hab Hbc key i Hi. destruct (Hab _ _ Hi) as (i1 & H1 & ?).
  destruct (Hbc _ _ H1) as (i2 & ? & ?). exists i2. split; [done|]. by etrans.
Qed.

Lemma reserve_loop_mono requests sh r sh' :
  reserve_loop sh requests = (r, sh') -> inboxes_mono sh sh'.
Proof.
  revert sh r sh'. induction requests as [|q rs IH]; intros sh r sh'; simpl.
  { intros [= <- <-]. by apply inboxes_mono_same. }
  destruct (reserve_one sh q) as [r1 sh1] eqn:E1.
  assert (inboxes_mono sh sh1) as Hm1.
  { unfold reserve_one in E1. destruct (inboxes (registry sh) !! ar_key q) as [i|] eqn:Hi;
      injection E1 as <- <-; [|by apply inboxes_mono_same].
    eapply inboxes_mono_insert; [simpl; by rewrite own_resource_inboxes|].
    intros i0 Hi0. simplify_eq. split; simpl; lia. }
  destruct r1 as [l|e]; [|by intros [= <- <-]].
  destruct (reserve_loop sh1 rs) as [r2 sh2] eqn:E2. intros Heq.
  assert (sh' = sh2) as -> by (destruct r2; by injection Heq).
  eapply inboxes_mono_trans; eauto.
Qed.

Lemma finish_inbox_le i seq l res b :
  inbox_inv i -> in_flight i !! seq = Some l -> inbox_le i (finish_inbox i seq res b).1.
Proof.
  intros Hi Hf. split; [|done|done]. rewrite finish_inbox_published.
  pose proof (inbox_inv_published_le _ Hi). unfold published_prefix.
  rewrite finish_inbox_in_flight.
  destruct (bt_first (delete seq (in_flight i))) as [[s l']|] eqn:E; [|done].
  apply bt_first_lookup, lookup_delete_Some in E as [_ E].
  pose proof (inbox_inv_prefix _ _ _ Hi E). lia.
Qed.

Lemma step_mono w w' : world_inv w -> step w w' -> inboxes_mono (w_sh w) (w_sh w').
Proof.
  intros Hw Hs. destruct Hs; simpl; try (by apply inboxes_mono_same).
  - unfold register in *. destruct (stopping (w_sh w)); simplify_eq; [by apply inboxes_mono_same|].
    case_match; simplify_eq; [by apply inboxes_mono_same|].
    eapply inboxes_mono_insert; [done|]. intros i Hi. rewrite Hi. simpl.
    pose proof (inbox_inv_published_le _ (wi_inbox _ Hw _ _ Hi)).
    split; simpl; try lia. case_decide; lia.
  - unfold provisional_incarnation in *. destruct (first_of_target _ _) as [[k i]|] eqn:E.
    { destruct (retired i); simplify_eq; by apply inboxes_mono_same. }
    simplify_eq. eapply inboxes_mono_insert; [done|]. intros i.
    by rewrite (first_of_target_None _ _ _ E).
  - unfold reserve_batch in *. destruct (stopping (w_sh w)); simplify_eq; [by apply inboxes_mono_same|].
    destruct (fenced (w_sh w)); simplify_eq; [by apply inboxes_mono_same|].
    destruct (admit_all _ _); simplify_eq; [by eapply reserve_loop_mono|by apply inboxes_mono_same].
  - unfold commit_settled. case_match; [|by apply inboxes_mono_same].
    eapply inboxes_mono_insert; [done|]. intros i' Hi'. simplify_eq. split; simpl; lia.
  - unfold mark_resource_if_new in *. destruct held; simplify_eq; by apply inboxes_mono_same.
  - apply inboxes_mono_same, complete_unassigned_core.
  - apply inboxes_mono_same, release_unallocated_core.
  - unfold retire_target in *. case_match; simplify_eq; [by apply inboxes_mono_same|].
    eapply inboxes_mono_imap; [done|]. intros k i; simpl. case_decide; reflexivity || by split.
  - eapply inboxes_mono_imap; [done|]. intros k i; simpl. case_decide; reflexivity || by split.
  - eapply inboxes_mono_imap; [done|]. intros k i; simpl. case_decide; reflexivity || by split.
  - apply inboxes_mono_same. unfold definite_non_write, detach. repeat (case_match || done).
  - apply inboxes_mono_same. unfold detach. by case_match.
  - apply inboxes_mono_same. unfold accept_store in *. by repeat case_match; simplify_eq.
  - apply inboxes_mono_same. unfold drop_write. by case_match.
  - apply inboxes_mono_same. unfold resolver_claim in *. repeat case_match; simplify_eq; try done.
    destruct (compare_exchange _ _ _ _); by simplify_eq/=.
  - apply inboxes_mono_same. unfold abort_store. by case_match.
  - destruct (wi_finishing _ Hw _ _ H) as (d & i & Hl & _ & Hi & Hf).
    destruct (fenced (w_sh w)) eqn:Hfn; [by apply inboxes_mono_same, finish_fenced|].
    destruct (finish_spec (w_sh w) l d is_aborted Hl Hfn) as (_ & _ & Hib). rewrite Hi in Hib.
    eapply inboxes_mono_insert; [done|]. intros i0 Hi0. simplify_eq.
    eapply finish_inbox_le; [|done]. by apply (wi_inbox _ Hw (d_key d)).
Qed.

(** How one action changes a descriptor. *)
Definition heap_evolves (h h' : gmap loc Descriptor) : Prop :=
  forall l d, h !! l = Some d -> exists d', h' !! l = Some d' /\ same_assignment d d' /\
    (d_state d' = d_state d \/ state_step (d_state d) (d_state d')).

Lemma heap_evolves_same h h' : h' = h -> heap_evolves h h'.
Proof. intros -> l d Hl. exists d. split; [done|]. split; [reflexivity|by left]. Qed.

Lemma heap_evolves_insert h l d d' :
  h !! l = Some d -> same_assignment d d' ->
  d_state d' = d_state d \/ state_step (d_state d) (d_state d') ->
  heap_evolves h (<[l := d']> h).
Proof.
  intros Hl Hs Hst l0 d0 Hl0. destruct (decide (l0 = l)) as [->|].
  - exists d'. rewrite lookup_insert_eq. by simplify_eq.
  - exists d0. rewrite lookup_insert_ne by done. split; [done|]. split; [reflexivity|by left].
Qed.

Lemma detach_evolves sh l : heap_evolves (heap sh) (heap (detach sh l)).
Proof.
  unfold detach. destruct (heap sh !! l) eqn:E; [|by apply heap_evolves_same].
  by eapply heap_evolves_insert; [|split|left].
Qed.

Lemma definite_non_write_evolves sh l : heap_evolves (heap sh) (heap (definite_non_write sh l)).
Proof.
  unfold definite_non_write. destruct (compare_exchange _ _ _ _) as [h|] eqn:E; [|by apply heap_evolves_same].
  apply compare_exchange_Some in E as (d & Hl & Hst & ->).
  unfold detach; simpl. rewrite lookup_insert_eq, insert_insert_eq.
  eapply heap_evolves_insert; [done|by split|]. right. simpl. rewrite Hst. constructor.
Qed.

Lemma step_heap w w' : world_inv w -> step w w' -> heap_evolves (heap (w_sh w)) (heap (w_sh w')).
Proof.
  intros Hw Hs. destruct Hs; simpl; try (by apply heap_evolves_same);
    try apply detach_evolves; try apply definite_non_write_evolves.
  - apply heap_evolves_same. unfold register in *. by repeat case_match; simplify_eq.
  - apply heap_evolves_same. unfold provisional_incarnation in *. by repeat case_match; simplify_eq.
  - destruct (reserve_batch_cases w requests ∅ Hw) as [[e He]|(ls & sh' & He & _ & _ & _ & Hk & _)];
      rewrite He in H; simplify_eq; [by apply heap_evolves_same|].
    intros l d Hl. exists d. split; [by apply Hk|]. split; [reflexivity|by left].
  - apply heap_evolves_same. unfold commit_settled. by case_match.
  - apply heap_evolves_same. unfold mark_resource_if_new in *. by destruct held; simplify_eq.
  - apply heap_evolves_same, release_unallocated_core.
  - apply heap_evolves_same. unfold retire_target in *. by case_match; simplify_eq.
  - apply compare_exchange_Some in H0 as (d & Hl & Hst & ->).
    eapply heap_evolves_insert; [done|by split|]. right. simpl. rewrite Hst. constructor.
  - apply (wi_writers _ Hw) in H as (d & Hl & Hst). unfold accept_store in *. rewrite Hl in H0.
    destruct (fenced _); simplify_eq. simpl.
    eapply heap_evolves_insert; [done|by split|]. right. simpl. rewrite Hst. constructor.
  - apply (wi_writers _ Hw) in H as (d & Hl & Hst). unfold drop_write, compare_exchange.
    rewrite Hl, decide_True by done. simpl.
    eapply heap_evolves_insert; [done|by split|]. right. simpl. rewrite Hst. constructor.
  - unfold resolver_claim in H. destruct (heap (w_sh w) !! l) as [d|] eqn:Hl; [|done].
    case_match; [done|]. case_decide as Hst; [|done]. unfold compare_exchange in H.
    rewrite Hl, decide_True in H by done. simplify_eq/=.
    eapply heap_evolves_insert; [done|by split|]. right. simpl.
    destruct Hst as [->| ->]; constructor.
  - apply (wi_claimed _ Hw) in H as (d & Hl & Hst). unfold abort_store. rewrite Hl.
    eapply heap_evolves_insert; [done|by split|]. right. simpl. rewrite Hst. constructor.
  - destruct (wi_finishing _ Hw _ _ H) as (d & i & Hl & _).
    destruct (fenced (w_sh w)) eqn:Hfn.
    + apply heap_evolves_same, finish_fenced. done.
    + apply heap_evolves_same. by destruct (finish_spec (w_sh w) l d is_aborted Hl Hfn).
Qed.

(** ** Properties *)

(** C1: The published prefix is durable. In every reachable interleaving, an
    assignment whose sequence is at or below the published high-water mark of
    its inbox has been resolved: its writer completed durably and its sequence
    is not reported aborted, or its abort was checkpointed. No reserved,
    handed-off or uncertain assignment is ever inside the prefix. *)
Theorem published_prefix_resolved w l d i :
  reachable w ->
  heap (w_sh w) !! l = Some d ->
  inboxes (registry (w_sh w)) !! d_key d = Some i ->
  d_seq d <= published i ->
  (descriptor_state d = AcceptedDurable /\ ~ covers (aborted i) (d_seq d)) \/
  descriptor_state d = AbortedDurable.
Proof.
  intros Hr%reachable_inv Hl Hi Hle.
  destruct (wi_desc _ Hr _ _ Hl) as (_ & i0 & Hi0 & [_ Ho]). simplify_eq.
  destruct Ho as [Hf|[_ [[Hst Hc]|[Hst _]]]].
  - pose proof (inbox_inv_prefix _ _ _ (wi_inbox _ Hr _ _ Hi) Hf). lia.
  - left. split; [|done]. unfold descriptor_state. by rewrite Hst.
  - right. unfold descriptor_state. by rewrite Hst.
Qed.

(** Publication never recedes. Whatever action runs next, every inbox keeps
    existing and its published mark, allocation counter and settled floor do
    not decrease. *)
Theorem published_monotone w w' key i :
  reachable w -> step w w' ->
  inboxes (registry (w_sh w)) !! key = Some i ->
  exists i', inboxes (registry (w_sh w')) !! key = Some i' /\ inbox_le i i'.
Proof. intros Hr%reachable_inv Hs. apply (step_mono _ _ Hr Hs). Qed.

Lemma rtc_step_reachable w w' : reachable w -> rtc step w w' -> reachable w'.
Proof. intros Hr Hs. induction Hs; eauto using reachable_step. Qed.

Lemma terminal_stays w w' l d :
  reachable w -> rtc step w w' -> heap (w_sh w) !! l = Some d ->
  (forall c, ~ state_step (d_state d) c) ->
  exists d', heap (w_sh w') !! l = Some d' /\ same_assignment d d' /\ d_state d' = d_state d.
Proof.
  intros Hr Hs. revert d. induction Hs as [w|w1 w2 w3 Hs _ IH]; intros d Hl Hst.
  { exists d. split; [done|]. split; [reflexivity|done]. }
  destruct (step_heap _ _ (reachable_inv _ Hr) Hs _ _ Hl) as (d' & Hl' & Hsa & [Heq|Hstep]);
    [|by destruct (Hst _ Hstep)].
  destruct (IH (reachable_step _ _ Hr Hs) d' Hl') as (d'' & ? & ? & ?); [by rewrite Heq|].
  exists d''. split; [done|]. split; [by etrans|congruence].
Qed.

(** C18: A resolved descriptor is final. Once an assignment is accepted,
    aborted or uncertain, no later interleaving changes its state, so the
    resolver can never abort what a writer completed, nor a writer complete
    what the resolver aborted. *)
Theorem resolution_final w w' l d :
  reachable w -> rtc step w w' ->
  heap (w_sh w) !! l = Some d ->
  d_state d ∈ [state_code AcceptedDurable; state_code AbortedDurable; state_code FatalUncertain] ->
  exists d', heap (w_sh w') !! l = Some d' /\ same_assignment d d' /\ d_state d' = d_state d.
Proof.
  intros Hr Hs Hl Hst. apply (terminal_stays w); try done. intros c Hc.
  rewrite !elem_of_cons, elem_of_nil in Hst.
  destruct Hst as [Hst|[Hst|[Hst|[]]]]; rewrite Hst in Hc; inversion Hc.
Qed.

(** An uncertain write is never published over. Once a writer dropped its
    handle without completing, the published mark of that inbox stays below
    the assignment's sequence forever. *)
Theorem uncertain_blocks_publication w w' l d :
  reachable w -> rtc step w w' ->
  heap (w_sh w) !! l = Some d -> d_state d = state_code FatalUncertain ->
  exists i', inboxes (registry (w_sh w')) !! d_key d = Some i' /\
    in_flight i' !! d_seq d = Some l /\ published i' < d_seq d.
Proof.
  intros Hr Hs Hl Hst.
  destruct (terminal_stays w w' l d) as (d' & Hl' & [Hk Hq _] & Hst'); try done.
  { intros c Hc. rewrite Hst in Hc. inversion Hc. }
  pose proof (reachable_inv _ (rtc_step_reachable _ _ Hr Hs)) as Hw.
  destruct (in_flight_of_state _ _ _ Hw Hl') as (i & Hi & Hf); [by rewrite Hst', Hst..|].
  rewrite Hk in Hi. rewrite Hq in Hf. exists i. split_and!; try done.
  eapply inbox_inv_prefix; [|done]. by apply (wi_inbox _ Hw (d_key d)).
Qed.

(** C27: Capacity and width are respected. In every reachable world the aborted
    ranges and the outstanding reservations of an inbox fit the fixed capacity
    together, the reservation counter is exactly the number of in-flight
    assignments (so decrementing it never underflows), and the allocation
    counter stays a 64-bit value. *)
Theorem capacity_respected w key i :
  reachable w -> inboxes (registry (w_sh w)) !! key = Some i ->
  (size (aborted i) + size (in_flight i) <= ABORTED_RANGE_CAPACITY)%nat /\
  reservations i = size (in_flight i) /\
  published i <= allocated i <= U64_MAX.
Proof.
  intros Hr%reachable_inv Hi. pose proof (wi_inbox _ Hr _ _ Hi) as Hinv.
  pose proof (inbox_inv_published_le _ Hinv). destruct Hinv. split_and!; try done; lia.
Qed.

(** A batch reservation is all or nothing. Either it is refused and the
    shared state is unchanged, or it grants one new descriptor per request, in
    order, none of which existed before, leaves every earlier descriptor
    untouched, and never assigns a sequence of an inbox twice. *)
Theorem reserve_batch_all_or_nothing w requests r sh :
  reachable w -> reserve_batch (w_sh w) requests = (r, sh) ->
  match r with
  | Err _ => sh = w_sh w
  | Ok ls =>
      Forall2 (grants sh) requests ls /\ NoDup ls /\
      Forall (fun l => heap (w_sh w) !! l = None) ls /\
      (forall l d, heap (w_sh w) !! l = Some d -> heap sh !! l = Some d) /\
      (forall l1 l2 d1 d2, heap sh !! l1 = Some d1 -> heap sh !! l2 = Some d2 ->
         d_key d1 = d_key d2 -> d_seq d1 = d_seq d2 -> l1 = l2)
  end.
Proof.
  intros Hr%reachable_inv Heq.
  destruct (reserve_batch_cases w requests ∅ Hr)
    as [[e He]|(ls & sh' & Hok & ? & ? & ? & ? & Hw)]; rewrite Heq in *; simplify_eq; [done|].
  split_and!; try done. apply (wi_unique _ Hw).
Qed.

(** A detached reservation can always be resolved. In a reachable world
    that is not fenced, an assignment its request abandoned before any write
    can be claimed, aborted and finished by the resolver, after which it is no
    longer in flight and its sequence is reported aborted. *)
Theorem detached_resolvable w l d :
  reachable w -> fenced (w_sh w) = false ->
  heap (w_sh w) !! l = Some d -> d_detached d = true ->
  d_state d = state_code ReservedNoWrite \/ d_state d = state_code DefiniteNonWrite ->
  exists w' i', rtc step w w' /\
    inboxes (registry (w_sh w')) !! d_key d = Some i' /\
    in_flight i' !! d_seq d = None /\ covers (aborted i') (d_seq d).
Proof.
  intros Hr Hfn Hl Hdet Hst. pose proof (reachable_inv _ Hr) as Hw.
  destruct (in_flight_of_state _ _ _ Hw Hl) as (i & Hi & Hf); [by destruct Hst as [-> | ->]..|].
  set (c := N.lor (state_code DefiniteNonWrite) ABORT_CLAIM).
  set (sh1 := set_heap (w_sh w) (<[l := set_state d c]> (heap (w_sh w)))).
  assert (resolver_claim (w_sh w) false l = Some sh1) as Hclaim.
  { unfold resolver_claim, compare_exchange. rewrite Hl, Hdet. simpl.
    rewrite decide_True by done. by rewrite decide_True. }
  pose proof (step_claim w false l sh1 Hclaim) as S1.
  set (w1 := mkWorld _ _ _ _ _) in S1.
  assert (step w1 _) as S2 by (apply (step_abort w1 l); simpl; set_solver).
  set (w2 := mkWorld _ _ _ _ _) in S2.
  assert (step w2 _) as S3 by (apply (step_finish w2 l true); simpl; set_solver).
  set (w3 := mkWorld _ _ _ _ _) in S3.
  set (d2 := set_state (set_state d c) (state_code AbortedDurable)).
  assert (w_sh w2 = set_heap sh1 (<[l := d2]> (heap sh1))) as Hsh2.
  { unfold w2, w1, abort_store; simpl. by rewrite lookup_insert_eq. }
  assert (heap (w_sh w2) !! l = Some d2) as Hl2 by (rewrite Hsh2; apply lookup_insert_eq).
  assert (fenced (w_sh w2) = false) as Hf2 by by rewrite Hsh2.
  destruct (finish_spec _ _ _ true Hl2 Hf2) as (_ & _ & Hib).
  assert (inboxes (registry (w_sh w2)) !! d_key d2 = Some i) as Hi2 by by rewrite Hsh2.
  rewrite Hi2 in Hib.
  exists w3, (finish_inbox i (d_seq d2) (d_resources d2) true).1. split_and!.
  - eapply rtc_l; [exact S1|]. eapply rtc_l; [exact S2|]. by apply rtc_once.
  - change (w_sh w3) with (finish (w_sh w2) l true). rewrite Hib. apply lookup_insert_eq.
  - rewrite finish_inbox_in_flight. apply lookup_delete_eq.
  - pose proof (wi_inbox _ Hw _ _ Hi) as Hinv. pose proof (ii_bounds _ Hinv _ _ Hf).
    apply finish_inbox_covers; [done|done|]. auto.
Qed.

(** The point query is exact. For a registered inbox it answers the
    published mark, and reports a sequence aborted exactly when the sequence is
    positive, published, and a member of the aborted set. *)
Theorem point_view_exact w target incarnation seq i :
  reachable w ->
  inboxes (registry (w_sh w)) !! mkKey target incarnation = Some i ->
  (point_view (registry (w_sh w)) target incarnation seq).1 = published i /\
  ((point_view (registry (w_sh w)) target incarnation seq).2 = true <->
   0 < seq <= published i /\ covers (aborted i) seq).
Proof.
  intros Hr%reachable_inv Hi. pose proof (ii_wf _ (wi_inbox _ Hr _ _ Hi)) as Hwf.
  unfold point_view. rewrite Hi. simpl. split; [done|].
  rewrite covers_last_le, !andb_true_iff, !bool_decide_eq_true by done.
  destruct (last _) as [[s e]|]; rewrite ?bool_decide_eq_true; naive_solver.
Qed.

(** The aborted ranges a page walks, before the cap. *)
Lemma page_ranges_spec ranges start s e :
  ranges_wf ranges ->
  (s, e) ∈ match last (bt_range_le start ranges) with
           | Some (lo, end_) =>
               if decide (start < end_) then bt_range_ge lo ranges else bt_range_gt start ranges
           | None => bt_range_gt start ranges
           end <-> ranges !! s = Some e /\ start < e.
Proof.
  intros Hwf.
  assert ((s, e) ∈ bt_range_gt start ranges <-> ranges !! s = Some e /\ start < s) as Hgt.
  { rewrite elem_of_bt_range_gt. unfold key_le, N_key.
    split; intros [? ?]; (split; [done|lia]). }
  destruct (last (bt_range_le start ranges)) as [[lo end_]|] eqn:Hl.
  - assert (Hlo := Hl). apply last_Some_elem_of, elem_of_bt_range_le in Hlo as [Hlo Hlole].
    unfold key_le, N_key in Hlole.
    assert (forall s e, ranges !! s = Some e -> s <= start -> s <= lo) as Hmax.
    { intros s' e' Hs' Hle. eapply (sorted_last_max _ _ (s', e')) in Hl;
        [exact Hl|apply bt_range_le_sorted|]. by apply elem_of_bt_range_le. }
    case_decide as Hend; [rewrite elem_of_bt_range_ge; unfold key_le, N_key|rewrite Hgt];
      (split; intros [Hs Hlt]; (split; [done|])); pose proof (rw_range _ Hwf _ _ Hs);
      destruct (decide (s = lo)) as [->|Hne]; simplify_eq; try lia;
      pose proof (rw_sep _ Hwf _ _ _ _ Hlo Hs); pose proof (rw_sep _ Hwf _ _ _ _ Hs Hlo);
      pose proof (Hmax _ _ Hs); lia.
  - rewrite Hgt. split; intros [Hs Hlt]; (split; [done|]); pose proof (rw_range _ Hwf _ _ Hs); [lia|].
    destruct (decide (start < s)); [done|]. apply last_None in Hl.
    assert ((s, e) ∈ bt_range_le start ranges) as Hin.
    { apply elem_of_bt_range_le. split; [done|]. unfold key_le, N_key. lia. }
    rewrite Hl in Hin. by apply elem_of_nil in Hin.
Qed.

(** The page view misses no gap. The ranges it returns are aborted ranges
    that reach past the page's start, and an aborted sequence after the start
    is in one of them unless the page is full and the sequence lies after every
    returned range. *)
Theorem page_view_complete w target incarnation after i p settled ranges :
  reachable w ->
  inboxes (registry (w_sh w)) !! mkKey target incarnation = Some i ->
  page_view (registry (w_sh w)) target incarnation after = (p, settled, ranges) ->
  p = published i /\ settled <= p /\
  (forall s e, (s, e) ∈ ranges -> aborted i !! s = Some e /\ N.max after settled < e) /\
  (forall n, N.max after settled < n -> covers (aborted i) n ->
     (exists s e, (s, e) ∈ ranges /\ s <= n <= e) \/
     length ranges = VISIT_CAP /\ Forall (fun r => r.2 < n) ranges).
Proof.
  intros Hr%reachable_inv Hi. pose proof (ii_wf _ (wi_inbox _ Hr _ _ Hi)) as Hwf.
  unfold page_view. rewrite Hi. intros [= <- Hset Hrng]. rewrite Hset in Hrng.
  pose proof (fun s e => page_ranges_spec _ (N.max after settled) s e Hwf) as Hspec.
  set (all := match last _ with Some _ => _ | None => _ end) in Hrng, Hspec.
  assert (StronglySorted entry_le all) as Hsort.
  { unfold all. repeat (case_match || case_decide);
      apply bt_range_gt_sorted || apply bt_range_ge_sorted. }
  split_and!; [done|lia|..].
  - intros s e Hin. subst ranges. apply Hspec. by eapply elem_of_take_in.
  - intros n Hn (s & e & Hs & Hse). subst ranges.
    assert ((s, e) ∈ all) as Hin by (apply Hspec; split; [done|lia]).
    destruct (decide ((s, e) ∈ take VISIT_CAP all)) as [Ht|Hnt]; [left; eauto|].
    destruct (sorted_take_drop _ _ VISIT_CAP _ Hsort Hin) as [?|[? Hall]]; [done|].
    right. split; [done|]. rewrite Forall_forall in *. intros [s' e'] Hin'.
    specialize (Hall _ Hin'). unfold entry_le, key_le, N_key in Hall. simpl in *.
    assert (aborted i !! s' = Some e') as Hs' by (eapply Hspec, elem_of_take_in, Hin').
    destruct (decide (s' = s)) as [->|]; [by simplify_eq|].
    pose proof (rw_sep _ Hwf _ _ _ _ Hs' Hs). lia.
Qed.

(** ** A concrete run

    Three assignments of one inbox: the first is written and accepted; the
    second is either abandoned and aborted, or written and left uncertain; the
    third stays in flight. *)

Module Run.

Definition key : Key := mkKey "bob" "inc".
Definition requests : list AssignmentReservation :=
  [mkReservation "bob" "inc" ["r"]; mkReservation "bob" "inc" []; mkReservation "bob" "inc" []].

Definition w0 : World :=
  mkWorld (mkShared (mkRegistry ∅ ∅ ∅ ∅) false false false ∅ 0 false []) ∅ ∅ ∅ ∅.
Definition w1 : World := with_sh w0 (provisional_incarnation (w_sh w0) "bob" "inc").2.
Definition w2 : World :=
  let p := reserve_batch (w_sh w1) requests in
  mkWorld p.2 (granted p.1 ∪ guards w1) (writers w1) (claimed w1) (finishing w1).
Definition handed_off (w : World) (l : loc) : World :=
  mkWorld (hand_off (w_sh w) l).2 (guards w) ({[ l ]} ∪ writers w) (claimed w) (finishing w).
Definition accepted_by (w : World) (l : loc) : World :=
  mkWorld (default (w_sh w) (accept_store (w_sh w) l)) (guards w) (writers w ∖ {[ l ]}) (claimed w)
    ({[ (l, false) ]} ∪ finishing w).
Definition finished (w : World) (l : loc) (b : bool) : World :=
  mkWorld (finish (w_sh w) l b) (guards w) (writers w) (claimed w) (finishing w ∖ {[ (l, b) ]}).
Definition w3 : World := finished (accepted_by (handed_off w2 0) 0) 0 false.
Definition w4 : World :=
  mkWorld (detach (w_sh w3) 1) (guards w3 ∖ {[ 1 ]}) (writers w3) (claimed w3) (finishing w3).
Definition w5 : World :=
  mkWorld (default (w_sh w4) (resolver_claim (w_sh w4) false 1)) (guards w4) (writers w4)
    ({[ 1 ]} ∪ claimed w4) (finishing w4).
Definition w6 : World :=
  finished (mkWorld (abort_store (w_sh w5) 1) (guards w5) (writers w5) (claimed w5 ∖ {[ 1 ]})
    ({[ (1, true) ]} ∪ finishing w5)) 1 true.
Definition u4 : World := handed_off w3 1.
Definition u5 : World :=
  mkWorld (drop_write (w_sh u4) 1) (guards u4) (writers u4 ∖ {[ 1 ]}) (claimed u4) (finishing u4).

Definition desc_of (w : World) (l : loc) : Descriptor :=
  default (mkDescriptor key 0 0 false [] None) (heap (w_sh w) !! l).
Definition inbox_of (w : World) : Inbox :=
  default inbox_default (inboxes (registry (w_sh w)) !! key).

Lemma w0_initial : initial w0.
Proof. by split. Qed.

Lemma handed_off_step w l :
  l ∈ guards w -> (hand_off (w_sh w) l).1 = true -> step w (handed_off w l).
Proof.
  intros Hl. unfold handed_off, hand_off. destruct (fenced _); [done|].
  destruct (compare_exchange _ _ _ _) eqn:E; [|done]. intros _. by apply step_hand_off.
Qed.

Lemma w2_reachable : reachable w2.
Proof.
  eapply reachable_step; [eapply reachable_step; [apply reachable_init, w0_initial|]|].
  - eapply (step_provisional _ "bob" "inc"), surjective_pairing.
  - eapply (step_reserve_batch _ requests), surjective_pairing.
Qed.

Lemma w3_reachable : reachable w3.
Proof.
  apply (reachable_step (accepted_by (handed_off w2 0) 0)).
  - apply (reachable_step (handed_off w2 0)).
    + apply (reachable_step _ _ w2_reachable), handed_off_step; by vm_compute.
    + apply step_accept; by vm_compute.
  - apply step_finish. by vm_compute.
Qed.

Lemma w4_reachable : reachable w4.
Proof. apply (reachable_step _ _ w3_reachable), step_drop_guard. by vm_compute. Qed.

Lemma w4_steps : rtc step w4 w6.
Proof.
  eapply rtc_l; [apply (step_claim w4 false 1); by vm_compute|].
  eapply rtc_l; [apply (step_abort _ 1); by vm_compute|].
  apply rtc_once, step_finish. by vm_compute.
Qed.

Lemma w6_reachable : reachable w6.
Proof. apply (rtc_step_reachable w4 w6 w4_reachable w4_steps). Qed.

Lemma u4_step : step w3 u4.
Proof. apply handed_off_step; by vm_compute. Qed.

Lemma u5_reachable : reachable u5.
Proof.
  apply (reachable_step u4); [apply (reachable_step _ _ w3_reachable), u4_step|].
  apply step_drop_write. by vm_compute.
Qed.

End Run.

Import Run.

Lemma published_prefix_resolved_witness :
  d_seq (desc_of w6 1) = 2 /\ published (inbox_of w6) = 2 /\
  ((descriptor_state (desc_of w6 1) = AcceptedDurable /\ ~ covers (aborted (inbox_of w6)) 2) \/
   descriptor_state (desc_of w6 1) = AbortedDurable).
Proof.
  split_and!; [by vm_compute..|].
  apply (published_prefix_resolved w6 1 (desc_of w6 1) (inbox_of w6) w6_reachable);
    by vm_compute.
Defined.

Lemma published_monotone_witness :
  exists i', inboxes (registry (w_sh u4)) !! key = Some i' /\ inbox_le (inbox_of w3) i'.
Proof.
  apply (published_monotone w3 u4 key (inbox_of w3) w3_reachable u4_step). by vm_compute.
Defined.

Lemma resolution_final_witness :
  exists d', heap (w_sh w6) !! 0 = Some d' /\ same_assignment (desc_of w4 0) d' /\
    d_state d' = d_state (desc_of w4 0).
Proof.
  apply (resolution_final w4 w6 0 (desc_of w4 0) w4_reachable w4_steps); [by vm_compute|].
  apply list_elem_of_here.
Defined.

Lemma uncertain_blocks_publication_witness :
  exists i', inboxes (registry (w_sh u5)) !! key = Some i' /\
    in_flight i' !! 2 = Some 1 /\ published i' < 2.
Proof.
  apply (uncertain_blocks_publication u5 u5 1 (desc_of u5 1) u5_reachable (rtc_refl _ _));
    by vm_compute.
Defined.

Lemma capacity_respected_witness :
  (size (aborted (inbox_of w6)) + size (in_flight (inbox_of w6)) <= ABORTED_RANGE_CAPACITY)%nat /\
  reservations (inbox_of w6) = size (in_flight (inbox_of w6)) /\
  published (inbox_of w6) <= allocated (inbox_of w6) <= U64_MAX.
Proof. apply (capacity_respected w6 key (inbox_of w6) w6_reachable). by vm_compute. Defined.

Lemma reserve_batch_all_or_nothing_witness :
  let p := reserve_batch (w_sh w6) requests in
  is_ok p.1 = true /\
  match p.1 with
  | Err _ => p.2 = w_sh w6
  | Ok ls =>
      Forall2 (grants p.2) requests ls /\ NoDup ls /\
      Forall (fun l => heap (w_sh w6) !! l = None) ls /\
      (forall l d, heap (w_sh w6) !! l = Some d -> heap p.2 !! l = Some d) /\
      (forall l1 l2 d1 d2, heap p.2 !! l1 = Some d1 -> heap p.2 !! l2 = Some d2 ->
         d_key d1 = d_key d2 -> d_seq d1 = d_seq d2 -> l1 = l2)
  end.
Proof.
  split; [by vm_compute|].
  apply (reserve_batch_all_or_nothing w6 requests _ _ w6_reachable), surjective_pairing.
Defined.

Lemma detached_resolvable_witness :
  exists w' i', rtc step w4 w' /\
    inboxes (registry (w_sh w')) !! key = Some i' /\
    in_flight i' !! 2 = None /\ covers (aborted i') 2.
Proof.
  apply (detached_resolvable w4 1 (desc_of w4 1) w4_reachable); [by vm_compute..|].
  left. by vm_compute.
Defined.

Lemma point_view_exact_witness :
  (point_view (registry (w_sh w6)) "bob" "inc" 2).2 = true /\
  ((point_view (registry (w_sh w6)) "bob" "inc" 2).2 = true <->
   0 < 2 <= published (inbox_of w6) /\ covers (aborted (inbox_of w6)) 2).
Proof.
  split; [by vm_compute|].
  apply (point_view_exact w6 "bob" "inc" 2 (inbox_of w6) w6_reachable). by vm_compute.
Defined.

Lemma page_view_complete_witness :
  2 = published (inbox_of w6) /\ 0 <= 2 /\
  (forall s e, (s, e) ∈ [(2, 2)] -> aborted (inbox_of w6) !! s = Some e /\ N.max 1 0 < e) /\
  (forall n, N.max 1 0 < n -> covers (aborted (inbox_of w6)) n ->
     (exists s e, (s, e) ∈ [(2, 2)] /\ s <= n <= e) \/
     length [(2, 2)] = VISIT_CAP /\ Forall (fun r => r.2 < n) [(2, 2)]).
Proof.
  apply (page_view_complete w6 "bob" "inc" 1 (inbox_of w6) 2 0 [(2, 2)] w6_reachable);
    by vm_compute.
Defined.
