(* ===== verification/Wire.v ===== *)
(** * Protocol types

    The wire records of ramflux-protocol (core_types.rs) the node components
    read, and the errors of ramflux-node-core they return. JSON values keep
    serde_json's number variants, since [as_u64] depends on them. *)

From S2P Require Import Prelude OrdMap Publication.

(** ** JSON values *)

Inductive Value :=
| VNull
| VBool (b : bool)
| VPosInt (n : N)
| VNegInt (z : Z)
| VFloat (text : string)
| VString (s : string)
| VArray (items : list Value)
| VObject (fields : list (string * Value)).

(** [Value::as_u64] and [Value::as_str]. *)
Definition as_u64 (v : Value) : option N := match v with VPosInt n => Some n | _ => None end.
Definition as_str (v : Value) : option string := match v with VString s => Some s | _ => None end.

Inductive SignatureAlg := Ed25519.

Record SignedFields := mkSigned {
  signing_key_id : string;
  signature_alg : SignatureAlg;
  signature : string;
}.

Inductive DeliveryClass :=
| OpaqueEvent | SelfDeviceControl | NotificationWake | ObjectManifest | ObjectChunk
| FederationControl.

Inductive Priority := Low | Normal | High | Urgent.

Record Envelope := mkEnvelope {
  env_schema : string;
  env_version : N;
  env_domain : string;
  env_ext : gmap string Value;
  env_signed : SignedFields;
  envelope_id : string;
  source_principal_id : string;
  source_device_id : string;
  target_delivery_id : string;
  routing_set_id : option string;
  delivery_class : DeliveryClass;
  priority : Priority;
  ttl : N;
  created_at : Z;
  encrypted_payload : string;
  payload_hash : string;
}.

Record Ack := mkAck {
  ack_schema : string;
  ack_version : N;
  ack_domain : string;
  ack_ext : gmap string Value;
  ack_signed : SignedFields;
  ack_id : string;
  ack_envelope_id : string;
  ack_receiver_device_id : string;
  ack_received_at : Z;
  ack_cursor_after : option string;
}.

Inductive NackReason :=
| InvalidSignature | Expired | UnknownDevice | RevokedCapability | MissingDependency
| UnknownGroupEpoch | EpochRollback | PayloadTooLarge | RateLimited | UnsupportedSchema
| HomeNodeMigrated.

#[export] Instance NackReason_eq_dec : EqDecision NackReason.
Proof. solve_decision. Defined.

Record Nack := mkNack {
  nack_schema : string;
  nack_version : N;
  nack_domain : string;
  nack_ext : gmap string Value;
  nack_signed : SignedFields;
  nack_id : string;
  nack_envelope_id : string;
  nack_receiver_device_id : string;
  nack_reason : NackReason;
  nack_received_at : Z;
  nack_retry_after : option N;
  nack_proof_hash : option string;
  nack_new_home_node_hint : option string;
}.

(** The node errors the modelled operations return. *)
Inductive NodeCoreError :=
| InvalidAckBatch (what : string)
| AckBackpressureRetry
| PublicationError (e : PublicationRefusal)
| Redb (what : string)
| ItestHttp (what : string)
| EnvelopeNotFound (id : string)
| AmbiguousEnvelopeId (id : string)
| EnvelopeTargetMismatch (id expected actual : string)
| TtlExpired (id : string)
| ReplayGuardError (what : string)
| SessionNotFound (id : string)
| ItestJson (what : string)
| Unauthorized (what : string)
| SnapshotSerialization
| WalSegmentRequiresQuarantine (segment_id : N).

#[export] Instance NodeCoreError_eq_dec : EqDecision NodeCoreError.
Proof. solve_decision. Defined.

(** replay.rs *)
Notation MAX_ENVELOPE_TTL_SECONDS := 604800%Z (only parsing).
Notation MAX_CLOCK_SKEW_SECONDS := 120%Z (only parsing).
