(* ===== verification/Inbox.v ===== *)
(** * The opaque device inbox

    ramflux-node-core/src/inbox.rs: per-target pending deliveries, the
    receiver's cursor, out-of-order acknowledgement window, dead letters and
    the expiry index. [BTreeMap]s are [gmap]s read in key order through
    OrdMap.v, a [VecDeque] is a list with its front first.

    The publication core is read through the interface [PublicationApi]; an
    operation observes one state of it. [server_now] is an argument where the
    code reads the clock. *)

From S2P Require Import Prelude OrdMap Ranges Publication Wire.

Open Scope N_scope.

Definition ROUTER_ACK_WINDOW : nat := 1024.
Notation ROUTER_NACK_RETRY_LIMIT := 3%N (only parsing).
Notation ROUTER_DEAD_LETTER_LIMIT := 128%nat (only parsing).

(** What the inbox reads from the publication core. *)
Class PublicationApi (P : Type) := {
  pub_view : P -> string -> string -> N * list (N * N);
  pub_settled_view : P -> string -> string -> N * N;
  pub_first_in_flight : P -> string -> string -> option N;
}.

(** What the publication core promises of its states satisfying [ok]: the two
    views agree on the published mark, the settled floor is inside the prefix,
    and an in-flight assignment is outside of it. *)
Class PublicationLaws (P : Type) `{!PublicationApi P} (ok : P -> Prop) := {
  pub_view_settled p t i : ok p -> (pub_view p t i).1 = (pub_settled_view p t i).1;
  pub_settled_le p t i : ok p -> (pub_settled_view p t i).2 <= (pub_settled_view p t i).1;
  pub_in_flight_above p t i g : ok p ->
    pub_first_in_flight p t i = Some g -> (pub_settled_view p t i).1 < g;
}.

#[export] Instance Registry_api : PublicationApi Registry := {
  pub_view := view;
  pub_settled_view := settled_view;
  pub_first_in_flight := first_in_flight;
}.

(** ** Data *)

Record InboxEntry := mkEntry {
  inbox_seq : N;
  en_target : string;
  en_envelope : Envelope;
}.

Inductive DeadLetterReason :=
| Nacked (reason : NackReason)
| AckWindowOverflow.

Record DeadLetterRecord := mkDeadLetter {
  dl_inbox_seq : N;
  dl_envelope_id : string;
  dl_reason : DeadLetterReason;
  dl_retain_until : Z;
}.

Record CursorAckState := mkCursor {
  cur_target : string;
  cur_inbox_seq : N;
  last_envelope_id : option string;
  settled_inbox_seq : N;
  issued_inbox_seq : N;
  recent_ack_ids : list string;
  acked_envelope_ids : gset string;
  acked_inbox_seqs : gset N;
  last_acknowledged_inbox_seq : option N;
  nacked_envelope_ids : gmap string NackReason;
  nack_attempts : gmap N N;
  dead_letters : list DeadLetterRecord;
  retired_inbox_seqs : list N;
}.

(** [CursorAckState { target_delivery_id, ..CursorAckState::default() }] *)
Definition cursor_new (target : string) : CursorAckState :=
  mkCursor target 0 None 0 0 [] ∅ ∅ None ∅ ∅ [] [].

Record OpaqueDeviceInbox := mkInboxState {
  next_seq : gmap string N;
  aborted_ranges : gmap string (list (N * N));
  incarnations : gmap string string;
  pending : gmap string (gmap N InboxEntry);
  cursors : gmap string CursorAckState;
  dead_letter_index : gmap string (gmap N DeadLetterRecord);
  retain_until_map : gmap string (gmap N Z);
  expiry_ready : bool;
  expiry_due : gset (Z * string * N);
  checkpoint_due : gset string;
}.

Definition inbox_new : OpaqueDeviceInbox := mkInboxState ∅ ∅ ∅ ∅ ∅ ∅ ∅ false ∅ ∅.

(** Field updates. *)
Definition set_next_seq (x : OpaqueDeviceInbox) (v : gmap string N) : OpaqueDeviceInbox :=
    mkInboxState v (aborted_ranges x) (incarnations x) (pending x) (cursors x)
    (dead_letter_index x) (retain_until_map x) (expiry_ready x) (expiry_due x) (checkpoint_due
    x).
Definition set_aborted_ranges (x : OpaqueDeviceInbox) (v : gmap string (list (N * N))) : OpaqueDeviceInbox :=
    mkInboxState (next_seq x) v (incarnations x) (pending x) (cursors x) (dead_letter_index x)
    (retain_until_map x) (expiry_ready x) (expiry_due x) (checkpoint_due x).
Definition set_incarnations (x : OpaqueDeviceInbox) (v : gmap string string) : OpaqueDeviceInbox :=
    mkInboxState (next_seq x) (aborted_ranges x) v (pending x) (cursors x) (dead_letter_index x)
    (retain_until_map x) (expiry_ready x) (expiry_due x) (checkpoint_due x).
Definition set_pending (x : OpaqueDeviceInbox) (v : gmap string (gmap N InboxEntry)) : OpaqueDeviceInbox :=
    mkInboxState (next_seq x) (aborted_ranges x) (incarnations x) v (cursors x)
    (dead_letter_index x) (retain_until_map x) (expiry_ready x) (expiry_due x) (checkpoint_due
    x).
Definition set_cursors (x : OpaqueDeviceInbox) (v : gmap string CursorAckState) : OpaqueDeviceInbox :=
    mkInboxState (next_seq x) (aborted_ranges x) (incarnations x) (pending x) v
    (dead_letter_index x) (retain_until_map x) (expiry_ready x) (expiry_due x) (checkpoint_due
    x).
Definition set_dead_letter_index (x : OpaqueDeviceInbox) (v : gmap string (gmap N DeadLetterRecord)) : OpaqueDeviceInbox :=
    mkInboxState (next_seq x) (aborted_ranges x) (incarnations x) (pending x) (cursors x) v
    (retain_until_map x) (expiry_ready x) (expiry_due x) (checkpoint_due x).
Definition set_retain_until_map (x : OpaqueDeviceInbox) (v : gmap string (gmap N Z)) : OpaqueDeviceInbox :=
    mkInboxState (next_seq x) (aborted_ranges x) (incarnations x) (pending x) (cursors x)
    (dead_letter_index x) v (expiry_ready x) (expiry_due x) (checkpoint_due x).
Definition set_expiry_ready (x : OpaqueDeviceInbox) (v : bool) : OpaqueDeviceInbox :=
    mkInboxState (next_seq x) (aborted_ranges x) (incarnations x) (pending x) (cursors x)
    (dead_letter_index x) (retain_until_map x) v (expiry_due x) (checkpoint_due x).
Definition set_expiry_due (x : OpaqueDeviceInbox) (v : gset (Z * string * N)) : OpaqueDeviceInbox :=
    mkInboxState (next_seq x) (aborted_ranges x) (incarnations x) (pending x) (cursors x)
    (dead_letter_index x) (retain_until_map x) (expiry_ready x) v (checkpoint_due x).
Definition set_checkpoint_due (x : OpaqueDeviceInbox) (v : gset string) : OpaqueDeviceInbox :=
    mkInboxState (next_seq x) (aborted_ranges x) (incarnations x) (pending x) (cursors x)
    (dead_letter_index x) (retain_until_map x) (expiry_ready x) (expiry_due x) v.
Definition set_expiry (x : OpaqueDeviceInbox) (ready : bool) (due : gset (Z * string * N)) : OpaqueDeviceInbox :=
  set_expiry_due (set_expiry_ready x ready) due.

Definition set_cur_inbox_seq (c : CursorAckState) (v : N) : CursorAckState :=
    mkCursor (cur_target c) v (last_envelope_id c) (settled_inbox_seq c) (issued_inbox_seq c)
    (recent_ack_ids c) (acked_envelope_ids c) (acked_inbox_seqs c) (last_acknowledged_inbox_seq
    c) (nacked_envelope_ids c) (nack_attempts c) (dead_letters c) (retired_inbox_seqs c).
Definition set_last_envelope_id (c : CursorAckState) (v : option string) : CursorAckState :=
    mkCursor (cur_target c) (cur_inbox_seq c) v (settled_inbox_seq c) (issued_inbox_seq c)
    (recent_ack_ids c) (acked_envelope_ids c) (acked_inbox_seqs c) (last_acknowledged_inbox_seq
    c) (nacked_envelope_ids c) (nack_attempts c) (dead_letters c) (retired_inbox_seqs c).
Definition set_settled_inbox_seq (c : CursorAckState) (v : N) : CursorAckState :=
    mkCursor (cur_target c) (cur_inbox_seq c) (last_envelope_id c) v (issued_inbox_seq c)
    (recent_ack_ids c) (acked_envelope_ids c) (acked_inbox_seqs c) (last_acknowledged_inbox_seq
    c) (nacked_envelope_ids c) (nack_attempts c) (dead_letters c) (retired_inbox_seqs c).
Definition set_issued_inbox_seq (c : CursorAckState) (v : N) : CursorAckState :=
    mkCursor (cur_target c) (cur_inbox_seq c) (last_envelope_id c) (settled_inbox_seq c) v
    (recent_ack_ids c) (acked_envelope_ids c) (acked_inbox_seqs c) (last_acknowledged_inbox_seq
    c) (nacked_envelope_ids c) (nack_attempts c) (dead_letters c) (retired_inbox_seqs c).
Definition set_recent_ack_ids (c : CursorAckState) (v : list string) : CursorAckState :=
    mkCursor (cur_target c) (cur_inbox_seq c) (last_envelope_id c) (settled_inbox_seq c)
    (issued_inbox_seq c) v (acked_envelope_ids c) (acked_inbox_seqs c)
    (last_acknowledged_inbox_seq c) (nacked_envelope_ids c) (nack_attempts c) (dead_letters c)
    (retired_inbox_seqs c).
Definition set_acked_envelope_ids (c : CursorAckState) (v : gset string) : CursorAckState :=
    mkCursor (cur_target c) (cur_inbox_seq c) (last_envelope_id c) (settled_inbox_seq c)
    (issued_inbox_seq c) (recent_ack_ids c) v (acked_inbox_seqs c) (last_acknowledged_inbox_seq
    c) (nacked_envelope_ids c) (nack_attempts c) (dead_letters c) (retired_inbox_seqs c).
Definition set_acked_inbox_seqs (c : CursorAckState) (v : gset N) : CursorAckState :=
    mkCursor (cur_target c) (cur_inbox_seq c) (last_envelope_id c) (settled_inbox_seq c)
    (issued_inbox_seq c) (recent_ack_ids c) (acked_envelope_ids c) v
    (last_acknowledged_inbox_seq c) (nacked_envelope_ids c) (nack_attempts c) (dead_letters c)
    (retired_inbox_seqs c).
Definition set_last_acknowledged_inbox_seq (c : CursorAckState) (v : option N) : CursorAckState :=
    mkCursor (cur_target c) (cur_inbox_seq c) (last_envelope_id c) (settled_inbox_seq c)
    (issued_inbox_seq c) (recent_ack_ids c) (acked_envelope_ids c) (acked_inbox_seqs c) v
    (nacked_envelope_ids c) (nack_attempts c) (dead_letters c) (retired_inbox_seqs c).
Definition set_nacked_envelope_ids (c : CursorAckState) (v : gmap string NackReason) : CursorAckState :=
    mkCursor (cur_target c) (cur_inbox_seq c) (last_envelope_id c) (settled_inbox_seq c)
    (issued_inbox_seq c) (recent_ack_ids c) (acked_envelope_ids c) (acked_inbox_seqs c)
    (last_acknowledged_inbox_seq c) v (nack_attempts c) (dead_letters c) (retired_inbox_seqs c).
Definition set_nack_attempts (c : CursorAckState) (v : gmap N N) : CursorAckState :=
    mkCursor (cur_target c) (cur_inbox_seq c) (last_envelope_id c) (settled_inbox_seq c)
    (issued_inbox_seq c) (recent_ack_ids c) (acked_envelope_ids c) (acked_inbox_seqs c)
    (last_acknowledged_inbox_seq c) (nacked_envelope_ids c) v (dead_letters c)
    (retired_inbox_seqs c).
Definition set_dead_letters (c : CursorAckState) (v : list DeadLetterRecord) : CursorAckState :=
    mkCursor (cur_target c) (cur_inbox_seq c) (last_envelope_id c) (settled_inbox_seq c)
    (issued_inbox_seq c) (recent_ack_ids c) (acked_envelope_ids c) (acked_inbox_seqs c)
    (last_acknowledged_inbox_seq c) (nacked_envelope_ids c) (nack_attempts c) v
    (retired_inbox_seqs c).
Definition set_retired_inbox_seqs (c : CursorAckState) (v : list N) : CursorAckState :=
    mkCursor (cur_target c) (cur_inbox_seq c) (last_envelope_id c) (settled_inbox_seq c)
    (issued_inbox_seq c) (recent_ack_ids c) (acked_envelope_ids c) (acked_inbox_seqs c)
    (last_acknowledged_inbox_seq c) (nacked_envelope_ids c) (nack_attempts c) (dead_letters c)
    v.

(** ** Retention *)

Definition inbox_retain_until (envelope : Envelope) (accepted_at : Z) : Z :=
  let cap := MAX_ENVELOPE_TTL_SECONDS in
  Z.min (i64_saturating_add (created_at envelope) (Z.min (Z.of_N (ttl envelope)) cap))
        (i64_saturating_add accepted_at cap).

Definition inbox_legacy_retain_until (envelope : Envelope) (migrated_at : Z) : Z :=
  inbox_retain_until envelope (Z.min (created_at envelope) migrated_at).

(** [while deque.len() > n { deque.pop_front(); }] *)
Definition keep_last {A} (n : nat) (l : list A) : list A := drop (length l - n) l.

Definition bound_receipts (c : CursorAckState) : CursorAckState :=
  let c := set_dead_letters c (keep_last ROUTER_DEAD_LETTER_LIMIT (dead_letters c)) in
  let recent :=
    match recent_ack_ids c with
    | [] => take ROUTER_ACK_WINDOW (reverse (bs_elems (acked_envelope_ids c)))
    | ids => ids
    end in
  let recent := keep_last ROUTER_ACK_WINDOW recent in
  let c := set_recent_ack_ids c recent in
  let c := set_acked_envelope_ids c (list_to_set recent) in
  set_nacked_envelope_ids c (bt_shrink ROUTER_ACK_WINDOW (nacked_envelope_ids c)).

(** ** Lookups *)

(** The pending rows of a target; an absent target has none. *)
Definition rows (x : OpaqueDeviceInbox) (target : string) : gmap N InboxEntry :=
  default ∅ (pending x !! target).

Notation cursor_state x target := (cursors x !! target) (only parsing).

Notation incarnation_id x target := (incarnations x !! target) (only parsing).

Definition restore_incarnation (x : OpaqueDeviceInbox) (target id : string) : OpaqueDeviceInbox :=
  set_incarnations x (<[target := id]> (incarnations x)).

(** [cursors.entry(target).or_insert(CursorAckState { .. })] *)
Definition cursor_entry (x : OpaqueDeviceInbox) (target : string) : CursorAckState :=
  default (cursor_new target) (cursors x !! target).

Definition put_cursor (x : OpaqueDeviceInbox) (target : string) (c : CursorAckState)
  : OpaqueDeviceInbox := set_cursors x (<[target := c]> (cursors x)).

Definition issued_sequence (x : OpaqueDeviceInbox) (target : string) : N :=
  N.max (default 1 (next_seq x !! target) - 1)
    match cursors x !! target with
    | Some c => N.max (N.max (issued_inbox_seq c) (cur_inbox_seq c)) (settled_inbox_seq c)
    | None => 0
    end.

Definition pending_entries (x : OpaqueDeviceInbox) : list InboxEntry :=
  mjoin (bt_values <$> bt_values (pending x)).

Definition target_for_envelope (x : OpaqueDeviceInbox) (id : string) : option string :=
  (fun p => p.2.1) <$> list_find (fun p : string * gmap N InboxEntry =>
    Exists (fun e => envelope_id (en_envelope e) = id) (bt_values p.2)) (bt_entries (pending x)).

(** A legacy selector names a delivery by envelope id; it must be unique. *)
Definition legacy_seq_for_envelope (x : OpaqueDeviceInbox) (target id : string)
  : result NodeCoreError (option N) :=
  match pending x !! target with
  | None => Ok None
  | Some entries =>
      match filter (fun e => envelope_id (en_envelope e) = id) (bt_values entries) with
      | [] => Ok None
      | [e] => Ok (Some (inbox_seq e))
      | _ => Err (AmbiguousEnvelopeId id)
      end
  end.

(** [rebuild_dead_letter_index]: later records win on a repeated sequence. *)
Definition rebuild_dead_letter_index (x : OpaqueDeviceInbox) (target : string)
  : OpaqueDeviceInbox :=
  let records := match cursors x !! target with Some c => dead_letters c | None => [] end in
  let index := bt_collect ((fun r => (dl_inbox_seq r, r)) <$> records) in
  set_dead_letter_index x
    (if is_empty_map index then delete target (dead_letter_index x)
     else <[target := index]> (dead_letter_index x)).

Definition mark_checkpoint (x : OpaqueDeviceInbox) (target : string) : OpaqueDeviceInbox :=
  set_checkpoint_due x ({[ target ]} ∪ checkpoint_due x).

Section operations.
Context {P : Type} `{!PublicationApi P}.
Variable core : option P.
Variable server_now : Z.

(** ** Deadlines *)

Definition retain_until (x : OpaqueDeviceInbox) (entry : InboxEntry) : Z :=
  match retain_until_map x !! en_target entry ≫= (.!! inbox_seq entry) with
  | Some deadline => deadline
  | None => inbox_legacy_retain_until (en_envelope entry) server_now
  end.

Definition set_deadline (x : OpaqueDeviceInbox) (target : string) (seq : N) (deadline : Z)
  : OpaqueDeviceInbox :=
  let deadlines := default ∅ (retain_until_map x !! target) in
  let previous := deadlines !! seq in
  let x := set_retain_until_map x (<[target := <[seq := deadline]> deadlines]> (retain_until_map x)) in
  if expiry_ready x then
    let due := match previous with
      | Some previous => expiry_due x ∖ {[ (previous, target, seq) ]}
      | None => expiry_due x
      end in
    set_expiry_due x ({[ (deadline, target, seq) ]} ∪ due)
  else x.

Definition ensure_expiry_index (x : OpaqueDeviceInbox) : OpaqueDeviceInbox :=
  if expiry_ready x then x else
  let missing := filter (fun entry =>
    retain_until_map x !! en_target entry ≫= (.!! inbox_seq entry) = None) (pending_entries x) in
  let x := set_retain_until_map x (foldl (fun m entry =>
    <[en_target entry :=
        <[inbox_seq entry := inbox_legacy_retain_until (en_envelope entry) server_now]>
          (default ∅ (m !! en_target entry))]> m) (retain_until_map x) missing) in
  let due := list_to_set
    ((fun entry => (retain_until x entry, en_target entry, inbox_seq entry)) <$> pending_entries x) in
  set_expiry x true due.

(** [retire_pending]: remove one delivery and its deadline bookkeeping. *)
Definition retire_pending (x : OpaqueDeviceInbox) (target : string) (seq : N)
  : option InboxEntry * OpaqueDeviceInbox :=
  match pending x !! target with
  | None => (None, x)
  | Some entries =>
      match entries !! seq with
      | None => (None, x)
      | Some entry =>
          let entries := delete seq entries in
          let x := set_pending x (if is_empty_map entries then delete target (pending x)
                                  else <[target := entries]> (pending x)) in
          let deadline := retain_until x entry in
          let x := match retain_until_map x !! target with
            | Some deadlines =>
                let deadlines := delete seq deadlines in
                set_retain_until_map x
                  (if is_empty_map deadlines then delete target (retain_until_map x)
                   else <[target := deadlines]> (retain_until_map x))
            | None => x
            end in
          (Some entry,
           if expiry_ready x then set_expiry_due x (expiry_due x ∖ {[ (deadline, target, seq) ]})
           else x)
      end
  end.

(** ** Appending *)

Definition append_at (x : OpaqueDeviceInbox) (envelope : Envelope) (now : Z)
  : InboxEntry * OpaqueDeviceInbox :=
  let target := target_delivery_id envelope in
  let deadline := inbox_retain_until envelope now in
  let seq := default 1 (next_seq x !! target) in
  let entry := mkEntry seq target envelope in
  let x := set_next_seq x (<[target := u64_saturating_add seq 1]> (next_seq x)) in
  let x := set_pending x (<[target := <[seq := entry]> (rows x target)]> (pending x)) in
  let x := put_cursor x target (set_issued_inbox_seq (cursor_entry x target) seq) in
  (entry, set_deadline x target seq deadline).

(** [append_published]; [allocate] is the reservation the request's scope hands
    out ([operation_allocate]). *)
Definition append_published (allocate : string -> string -> result NodeCoreError N)
    (x : OpaqueDeviceInbox) (envelope : Envelope) (now : Z)
  : result NodeCoreError InboxEntry * OpaqueDeviceInbox :=
  let target := target_delivery_id envelope in
  match core with
  | None => let '(entry, x) := append_at x envelope now in (Ok entry, x)
  | Some _ =>
      match incarnation_id x target with
      | None => (Err (Redb "uninitialized publication target"), x)
      | Some id =>
          match allocate target id with
          | Err e => (Err e, x)
          | Ok sequence =>
              let x := set_next_seq x (<[target := sequence]> (next_seq x)) in
              let '(entry, x) := append_at x envelope now in (Ok entry, x)
          end
      end
  end.

(** ** Reading *)

Definition published_limit (x : OpaqueDeviceInbox) (target : string) : N :=
  match core with
  | None => U64_MAX
  | Some p =>
      match incarnation_id x target with Some id => (pub_view p target id).1 | None => 0 end
  end.

Definition pull_after (x : OpaqueDeviceInbox) (target : string) (after : N) (limit : nat)
  : list InboxEntry :=
  match pending x !! target with
  | None => []
  | Some entries =>
      take limit (take_while (fun e => bool_decide (inbox_seq e <= published_limit x target))
                    (bt_range_gt after entries).*2)
  end.

Definition pull_live_after (x : OpaqueDeviceInbox) (target : string) (after : N) (limit : nat)
    (now : Z) : list InboxEntry :=
  match pending x !! target with
  | None => []
  | Some entries =>
      take limit (filter (fun e => now < retain_until x e)%Z
        (take_while (fun e => bool_decide (inbox_seq e <= published_limit x target))
           (bt_range_gt after entries).*2))
  end.

(** ** Settlement *)

Definition settlement_boundary (x : OpaqueDeviceInbox) (target : string) : N :=
  match core with
  | None => default 1 (next_seq x !! target) - 1
  | Some p =>
      match incarnation_id x target with
      | Some id => (pub_settled_view p target id).1
      | None => 0
      end
  end.

Definition advance_settled_through (x : OpaqueDeviceInbox) (target : string) (boundary : N)
  : OpaqueDeviceInbox :=
  let issued := issued_sequence x target in
  let settled := match bt_first (rows x target) with
    | Some (first, _) => N.min boundary (first - 1)
    | None => boundary
    end in
  match cursors x !! target with
  | None => x
  | Some c =>
      let c := set_issued_inbox_seq c (N.max (issued_inbox_seq c) issued) in
      let c := set_settled_inbox_seq c (N.max (settled_inbox_seq c) settled) in
      let c := set_acked_inbox_seqs c
        (filter (fun seq => settled_inbox_seq c < seq) (acked_inbox_seqs c)) in
      let c := set_nack_attempts c
        (filter (fun p => is_Some (rows x target !! p.1)) (nack_attempts c)) in
      let c := set_acked_envelope_ids c (bs_shrink ROUTER_ACK_WINDOW (acked_envelope_ids c)) in
      let c := set_nacked_envelope_ids c (bt_shrink ROUTER_ACK_WINDOW (nacked_envelope_ids c)) in
      put_cursor x target c
  end.

Definition advance_settled (x : OpaqueDeviceInbox) (target : string) : OpaqueDeviceInbox :=
  advance_settled_through x target (settlement_boundary x target).

(** ** Dead letters and the acknowledgement window *)

Definition dead_letter (x : OpaqueDeviceInbox) (target : string) (seq : N)
    (reason : DeadLetterReason) : OpaqueDeviceInbox :=
  match rows x target !! seq with
  | None => x
  | Some row =>
      let deadline := retain_until x row in
      match retire_pending x target seq with
      | (None, _) => x
      | (Some entry, x) =>
          let c := cursor_entry x target in
          let c := set_nack_attempts c (delete seq (nack_attempts c)) in
          let c := if bool_decide (settled_inbox_seq c < seq)
            then set_acked_inbox_seqs c ({[ seq ]} ∪ acked_inbox_seqs c) else c in
          let c := set_retired_inbox_seqs c (retired_inbox_seqs c ++ [seq]) in
          let c := set_dead_letters c (keep_last ROUTER_DEAD_LETTER_LIMIT
            (dead_letters c ++ [mkDeadLetter seq (envelope_id (en_envelope entry)) reason deadline])) in
          mark_checkpoint (rebuild_dead_letter_index (put_cursor x target c) target) target
      end
  end.

(** The window is full for [seq]: it neither settles next nor is recorded. *)
Definition window_full (c : CursorAckState) (seq : N) : bool :=
  bool_decide (ROUTER_ACK_WINDOW <= size (acked_inbox_seqs c))%nat &&
  bool_decide (u64_saturating_add (settled_inbox_seq c) 1 < seq) &&
  bool_decide (seq ∉ acked_inbox_seqs c).

Definition check_ack_window_room (x : OpaqueDeviceInbox) (target : string) (seq : N)
  : result NodeCoreError unit :=
  match cursors x !! target with
  | Some c =>
      if window_full c seq then
        match core, incarnation_id x target with
        | Some p, Some id =>
            match pub_first_in_flight p target id with
            | Some guard =>
                if bool_decide (guard < seq) &&
                   match bs_first (acked_inbox_seqs c) with
                   | Some first => bool_decide (guard <= first)
                   | None => true
                   end
                then Err AckBackpressureRetry else Ok tt
            | None => Ok tt
            end
        | _, _ => Ok tt
        end
      else Ok tt
  | None => Ok tt
  end.

(** The loop of [make_ack_window_room]. Every iteration retires one pending
    row, so as many iterations as there are rows are enough. *)
Fixpoint make_ack_window_room_loop (fuel : nat) (x : OpaqueDeviceInbox) (target : string)
    (seq : N) : OpaqueDeviceInbox :=
  match fuel with
  | O => x
  | S fuel =>
      match cursors x !! target with
      | None => x
      | Some c =>
          if window_full c seq then
            match head (bt_range_lt seq (rows x target)) with
            | None => x
            | Some (first, _) =>
                let x := dead_letter x target first AckWindowOverflow in
                make_ack_window_room_loop fuel (advance_settled x target) target seq
            end
          else x
      end
  end.

Definition make_ack_window_room (x : OpaqueDeviceInbox) (target : string) (seq : N)
  : OpaqueDeviceInbox :=
  make_ack_window_room_loop (S (size (rows x target))) x target seq.

(** ** Acknowledgements *)

(** A server-assigned sequence in the extension map: [as_u64] and positive. *)
Definition selected_seq (v : Value) : option N :=
  match as_u64 v with
  | Some seq => if decide (0 < seq) then Some seq else None
  | None => None
  end.

Definition ack_selector (x : OpaqueDeviceInbox) (target : string) (ack : Ack)
  : result NodeCoreError N :=
  match ack_ext ack !! "inbox_seq" with
  | Some value => ok_or (selected_seq value) (ItestHttp "invalid ACK inbox sequence")
  | None =>
      match legacy_seq_for_envelope x target (ack_envelope_id ack) with
      | Err e => Err e
      | Ok seq => ok_or seq (EnvelopeNotFound (ack_envelope_id ack))
      end
  end.

(** The checks that precede any change. *)
Definition ack_checks (x : OpaqueDeviceInbox) (target : string) (ack : Ack) (seq : N)
  : result NodeCoreError unit :=
  let id := ack_envelope_id ack in
  let ambiguous := bool_decide (ack_ext ack !! "inbox_seq" = None) &&
    match cursors x !! target with
    | Some c => bool_decide (id ∈ acked_envelope_ids c) && bool_decide (seq ∉ acked_inbox_seqs c)
    | None => false
    end in
  if ambiguous then Err (AmbiguousEnvelopeId id) else
  match rows x target !! seq with
  | Some entry =>
      if decide (envelope_id (en_envelope entry) = id) then check_ack_window_room x target seq
      else Err (EnvelopeNotFound id)
  | None =>
      if match cursors x !! target with
         | Some c => bool_decide (seq ∈ acked_inbox_seqs c) || bool_decide (seq <= settled_inbox_seq c)
         | None => false
         end
      then check_ack_window_room x target seq
      else Err (EnvelopeNotFound id)
  end.

(** The cursor update of an accepted acknowledgement. *)
Definition record_ack (c : CursorAckState) (id : string) (seq : N) : CursorAckState :=
  let c := set_cur_inbox_seq c (N.max (cur_inbox_seq c) seq) in
  let c := set_last_envelope_id c (Some id) in
  let c := set_last_acknowledged_inbox_seq c (Some seq) in
  let c := if decide (id ∈ acked_envelope_ids c) then c
    else set_recent_ack_ids (set_acked_envelope_ids c ({[ id ]} ∪ acked_envelope_ids c))
           (recent_ack_ids c ++ [id]) in
  let evicted := take (length (recent_ack_ids c) - ROUTER_ACK_WINDOW) (recent_ack_ids c) in
  let c := set_acked_envelope_ids c (acked_envelope_ids c ∖ list_to_set evicted) in
  let c := set_recent_ack_ids c (keep_last ROUTER_ACK_WINDOW (recent_ack_ids c)) in
  let c := set_acked_inbox_seqs c ({[ seq ]} ∪ acked_inbox_seqs c) in
  set_nack_attempts c (delete seq (nack_attempts c)).

(** The state an acknowledgement produces once the checks passed. *)
Definition acked_state (x : OpaqueDeviceInbox) (target : string) (id : string) (seq : N)
  : OpaqueDeviceInbox :=
  let x := put_cursor x target (set_retired_inbox_seqs (cursor_entry x target) []) in
  let x := make_ack_window_room x target seq in
  let x := put_cursor x target (record_ack (cursor_entry x target) id seq) in
  advance_settled (retire_pending x target seq).2 target.

(** The cursor returned is the one just stored; [cursor_entry] stands for the
    [get(..).cloned().unwrap_or(result)], whose default is never used since the
    cursor was inserted (see [acked_state_effect]). *)
Definition apply_ack_for_target (x : OpaqueDeviceInbox) (target : string) (ack : Ack)
  : result NodeCoreError CursorAckState * OpaqueDeviceInbox :=
  match ack_selector x target ack with
  | Err e => (Err e, x)
  | Ok seq =>
      match ack_checks x target ack seq with
      | Err e => (Err e, x)
      | Ok _ =>
          let x := acked_state x target (ack_envelope_id ack) seq in
          (Ok (cursor_entry x target), x)
      end
  end.

Definition apply_ack (x : OpaqueDeviceInbox) (ack : Ack)
  : result NodeCoreError CursorAckState * OpaqueDeviceInbox :=
  match target_for_envelope x (ack_envelope_id ack) with
  | Some target => apply_ack_for_target x target ack
  | None =>
      match list_find (fun c => ack_envelope_id ack ∈ acked_envelope_ids c) (bt_values (cursors x)) with
      | Some (_, c) => (Ok c, x)
      | None => (Err (EnvelopeNotFound (ack_envelope_id ack)), x)
      end
  end.

(** ** Negative acknowledgements *)

(** The pending sequence a NACK names, if it names one. *)
Definition nack_selector (x : OpaqueDeviceInbox) (target : string) (nack : Nack)
  : result NodeCoreError (option N) :=
  let id := nack_envelope_id nack in
  let selected :=
    match nack_ext nack !! "inbox_seq" with
    | Some value =>
        match selected_seq value with
        | Some seq => Ok (Some seq)
        | None => Err (ItestHttp "invalid NACK inbox sequence")
        end
    | None => legacy_seq_for_envelope x target id
    end in
  match selected with
  | Err e => Err e
  | Ok None => Ok None
  | Ok (Some seq) =>
      match rows x target !! seq with
      | Some entry =>
          if decide (envelope_id (en_envelope entry) = id) then Ok (Some seq) else Ok None
      | None => Ok None
      end
  end.

(** The receipt a NACK leaves in the cursor. *)
Definition record_nack (c : CursorAckState) (nack : Nack) : CursorAckState :=
  let c := set_retired_inbox_seqs c [] in
  set_nacked_envelope_ids c (bt_shrink ROUTER_ACK_WINDOW
    (<[nack_envelope_id nack := nack_reason nack]> (nacked_envelope_ids c))).

Definition nacked_state (x : OpaqueDeviceInbox) (target : string) (c : CursorAckState) (seq : N)
    (reason : NackReason) : OpaqueDeviceInbox :=
  let attempts := u32_saturating_add (default 0 (nack_attempts c !! seq)) 1 in
  let x := put_cursor x target (set_nack_attempts c (<[seq := attempts]> (nack_attempts c))) in
  if bool_decide (ROUTER_NACK_RETRY_LIMIT <= attempts)
  then advance_settled (dead_letter x target seq (Nacked reason)) target
  else x.

Definition apply_nack_for_target (x : OpaqueDeviceInbox) (target : string) (nack : Nack)
  : result NodeCoreError CursorAckState * OpaqueDeviceInbox :=
  match nack_selector x target nack with
  | Err e => (Err e, x)
  | Ok selected =>
      let c := record_nack (cursor_entry x target) nack in
      let x := match selected with
        | Some seq => nacked_state x target c seq (nack_reason nack)
        | None => put_cursor x target c
        end in
      (ok_or (cursors x !! target) (EnvelopeNotFound (nack_envelope_id nack)), x)
  end.

Definition apply_nack (x : OpaqueDeviceInbox) (nack : Nack)
  : result NodeCoreError CursorAckState * OpaqueDeviceInbox :=
  let id := nack_envelope_id nack in
  match target_for_envelope x id with
  | Some target => apply_nack_for_target x target nack
  | None =>
      match list_find (fun c => is_Some (nacked_envelope_ids c !! id)) (bt_values (cursors x)) with
      | Some (_, c) => (Ok c, x)
      | None =>
          match list_find (fun c => id ∈ acked_envelope_ids c) (bt_values (cursors x)) with
          | Some (_, c) => (Ok c, x)
          | None => (Err (EnvelopeNotFound id), x)
          end
      end
  end.

(** ** Expiry *)

(** The [while let] of [expire_entries]: every iteration pops the earliest due
    entry. *)
Fixpoint expire_loop (fuel : nat) (x : OpaqueDeviceInbox) (now : Z)
    (removed : list InboxEntry) (touched : gset string)
  : OpaqueDeviceInbox * list InboxEntry * gset string :=
  match fuel with
  | O => (x, removed, touched)
  | S fuel =>
      match bs_first (expiry_due x) with
      | None => (x, removed, touched)
      | Some (deadline, target, seq) =>
          if decide (now < deadline)%Z then (x, removed, touched) else
          let x := set_expiry_due x (bs_pop_first (expiry_due x)) in
          let '(entry, x) := retire_pending x target seq in
          expire_loop fuel x now
            match entry with Some entry => removed ++ [entry] | None => removed end
            ({[ target ]} ∪ touched)
      end
  end.

Definition expire_touched (now : Z) (x : OpaqueDeviceInbox) (target : string)
  : OpaqueDeviceInbox :=
  let x := advance_settled x target in
  let x := match cursors x !! target with
    | Some c => put_cursor x target
        (set_dead_letters c (filter (fun r => now < dl_retain_until r)%Z (dead_letters c)))
    | None => x
    end in
  mark_checkpoint (rebuild_dead_letter_index x target) target.

Definition expire_entries (x : OpaqueDeviceInbox) (now : Z)
  : list InboxEntry * OpaqueDeviceInbox :=
  let x := ensure_expiry_index x in
  let '(x, removed, touched) := expire_loop (size (expiry_due x)) x now [] ∅ in
  (removed, foldl (expire_touched now) x (bs_elems touched)).

Definition expire (x : OpaqueDeviceInbox) (now : Z) : nat * OpaqueDeviceInbox :=
  let '(removed, x) := expire_entries x now in (length removed, x).

(** ** Recovery and checkpoints *)

Definition finalize_recovered_settlement (x : OpaqueDeviceInbox) : OpaqueDeviceInbox :=
  foldl (fun x target =>
    let previous := settled_inbox_seq <$> (cursors x !! target) in
    let x := advance_settled x target in
    if decide (settled_inbox_seq <$> (cursors x !! target) = previous) then x
    else mark_checkpoint x target) x (bt_keys (cursors x)).

Definition take_checkpoint_due (x : OpaqueDeviceInbox) : list CursorAckState * OpaqueDeviceInbox :=
  foldl (fun acc target =>
    let x := advance_settled acc.2 target in
    (acc.1 ++ option_list (cursors x !! target), x))
    ([], set_checkpoint_due x ∅) (bs_elems (checkpoint_due x)).

Definition requeue_checkpoints (x : OpaqueDeviceInbox) (targets : list string) : OpaqueDeviceInbox :=
  foldl (fun x target =>
    if decide (is_Some (cursors x !! target))
    then mark_checkpoint (rebuild_dead_letter_index x target) target else x) x targets.

Definition observe_issued_seq (x : OpaqueDeviceInbox) (target : string) (seq : N)
  : OpaqueDeviceInbox :=
  let next := default 1 (next_seq x !! target) in
  if decide (seq < next) then set_next_seq x (<[target := next]> (next_seq x)) else
  let x := set_next_seq x (<[target := u64_saturating_add seq 1]> (next_seq x)) in
  let c := cursor_entry x target in
  let x := put_cursor x target (set_issued_inbox_seq c (N.max (issued_inbox_seq c) seq)) in
  mark_checkpoint (advance_settled x target) target.

Definition restore_pending_entry_until (x : OpaqueDeviceInbox) (entry : InboxEntry)
    (deadline : option Z) : OpaqueDeviceInbox :=
  let target := en_target entry in
  let seq := inbox_seq entry in
  let c := cursor_entry x target in
  let x := put_cursor x target (set_issued_inbox_seq c (N.max (issued_inbox_seq c) seq)) in
  let x := set_next_seq x
    (<[target := N.max (default 1 (next_seq x !! target)) (u64_saturating_add seq 1)]> (next_seq x)) in
  let deadline := match deadline with
    | Some deadline => deadline
    | None => inbox_legacy_retain_until (en_envelope entry) server_now
    end in
  match rows x target !! seq with
  | Some _ => set_pending x (<[target := rows x target]> (pending x))
  | None => set_deadline (set_pending x (<[target := <[seq := entry]> (rows x target)]> (pending x)))
              target seq deadline
  end.

Definition settle_pending (x : OpaqueDeviceInbox) (target : string) (seq : N) : OpaqueDeviceInbox :=
  let x := (retire_pending x target seq).2 in
  let c := cursor_entry x target in
  put_cursor x target
    (if bool_decide (settled_inbox_seq c < seq)
     then set_acked_inbox_seqs c ({[ seq ]} ∪ acked_inbox_seqs c) else c).

Definition restore_cursor_state (x : OpaqueDeviceInbox) (c : CursorAckState) : OpaqueDeviceInbox :=
  let c := set_retired_inbox_seqs (bound_receipts c) [] in
  let target := cur_target c in
  let next := N.max (default 1 (next_seq x !! target))
    (u64_saturating_add (N.max (cur_inbox_seq c) (issued_inbox_seq c)) 1) in
  let x := set_next_seq x (<[target := next]> (next_seq x)) in
  rebuild_dead_letter_index (put_cursor x target c) target.

Definition bound_retained_receipts (x : OpaqueDeviceInbox) : OpaqueDeviceInbox :=
  let x := set_cursors x (bound_receipts <$> cursors x) in
  foldl rebuild_dead_letter_index x (bt_keys (cursors x)).

Definition merge_from (x other : OpaqueDeviceInbox) : OpaqueDeviceInbox :=
  let x := set_incarnations x (incarnations other ∪ incarnations x) in
  let x := set_aborted_ranges x (aborted_ranges other ∪ aborted_ranges x) in
  let x := foldl (fun x entry => restore_pending_entry_until x entry (Some (retain_until other entry)))
    x (pending_entries other) in
  foldl restore_cursor_state x (bt_values (cursors other)).

End operations.

(** ** Removal and published snapshots *)

Definition remove_target (x : OpaqueDeviceInbox) (target : string) : nat * OpaqueDeviceInbox :=
  let pending_count := size (rows x target) in
  let cursor_count := if decide (is_Some (cursors x !! target)) then 1%nat else 0%nat in
  let seq_count := if decide (is_Some (next_seq x !! target)) then 1%nat else 0%nat in
  let indexed := bool_decide (is_Some (retain_until_map x !! target)) in
  (pending_count + cursor_count + seq_count,
   mkInboxState (delete target (next_seq x)) (delete target (aborted_ranges x))
     (delete target (incarnations x)) (delete target (pending x)) (delete target (cursors x))
     (delete target (dead_letter_index x)) (delete target (retain_until_map x))
     (if indexed then false else expiry_ready x) (if indexed then ∅ else expiry_due x)
     (checkpoint_due x ∖ {[ target ]}))%nat.

Definition in_ranges (ranges : list (N * N)) (seq : N) : Prop :=
  Exists (fun r => r.1 <= seq <= r.2) ranges.

#[export] Instance in_ranges_dec ranges seq : Decision (in_ranges ranges seq).
Proof. unfold in_ranges. apply _. Defined.

Definition filter_cursor (limit settled : N) (c : CursorAckState) : CursorAckState :=
  let c := set_issued_inbox_seq c (N.min (issued_inbox_seq c) limit) in
  let c := set_settled_inbox_seq c settled in
  let c := set_cur_inbox_seq c (N.min (cur_inbox_seq c) limit) in
  let c := set_acked_inbox_seqs c (filter (fun seq => seq <= limit) (acked_inbox_seqs c)) in
  let c := set_nack_attempts c (filter (fun p => p.1 <= limit) (nack_attempts c)) in
  set_dead_letters c (filter (fun r => dl_inbox_seq r <= limit) (dead_letters c)).

Definition filter_published_one (x : OpaqueDeviceInbox) (target : string) (v : PublishedInboxView)
  : OpaqueDeviceInbox :=
  match v_incarnation v with
  | None => (remove_target x target).2
  | Some id =>
      let limit := v_issued v in
      let x := set_incarnations x (<[target := id]> (incarnations x)) in
      let x := set_aborted_ranges x (<[target := v_aborted v]> (aborted_ranges x)) in
      let x := set_pending x (alter (filter (fun p : N * InboxEntry =>
        inbox_seq p.2 <= limit /\ ~ in_ranges (v_aborted v) (inbox_seq p.2))) target (pending x)) in
      let x := set_retain_until_map x
        (alter (filter (fun p : N * Z => p.1 <= limit)) target (retain_until_map x)) in
      let x := set_next_seq x (<[target := u64_saturating_add limit 1]> (next_seq x)) in
      set_cursors x (alter (filter_cursor limit (v_settled v)) target (cursors x))
  end.

(** [filter_published]; the snapshot also drops its handle on the core. *)
Definition filter_published (x : OpaqueDeviceInbox) (views : gmap string PublishedInboxView)
  : OpaqueDeviceInbox :=
  let x := foldl (fun x p => filter_published_one x p.1 p.2) x (bt_entries views) in
  let x := foldl rebuild_dead_letter_index x (bt_keys views) in
  set_expiry x false ∅.
