(* ===== verification/InboxFacts.v ===== *)
(** * The opaque device inbox: lemmas

    The effect of each operation of Inbox.v on the observable parts of the
    state: the pending rows, the deadline of a row, the cursor, the sequence
    counter and the expiry index. *)

From S2P Require Import Prelude OrdMap Ranges Publication Wire Inbox.

Open Scope N_scope.

(** The recorded deadline of a sequence. *)
Definition deadline_of (x : OpaqueDeviceInbox) (target : string) (seq : N) : option Z :=
  retain_until_map x !! target ≫= (.!! seq).

(** Everything but cursors, dead-letter index and checkpoint marks agrees. *)
Record same_rows (x y : OpaqueDeviceInbox) : Prop := {
  sr_next : next_seq y = next_seq x;
  sr_incarnations : incarnations y = incarnations x;
  sr_pending : pending y = pending x;
  sr_retain : retain_until_map y = retain_until_map x;
  sr_ready : expiry_ready y = expiry_ready x;
  sr_due : expiry_due y = expiry_due x;
}.

#[export] Instance same_rows_preorder : PreOrder same_rows.
Proof. split; [by split|]. intros a b c [] []. split; congruence. Qed.

Lemma same_rows_rows x y : same_rows x y -> forall t, rows y t = rows x t.
Proof. intros [] t. unfold rows. congruence. Qed.

Lemma same_rows_foldl {A} (f : OpaqueDeviceInbox -> A -> OpaqueDeviceInbox) l x :
  (forall x a, same_rows x (f x a)) -> same_rows x (foldl f x l).
Proof. intros Hf. revert x. induction l as [|a l IH]; intros x; simpl; [done|]. etrans; eauto. Qed.

Lemma rebuild_same_rows x t : same_rows x (rebuild_dead_letter_index x t).
Proof. by split. Qed.
Lemma rebuild_cursors x t : cursors (rebuild_dead_letter_index x t) = cursors x.
Proof. done. Qed.
Lemma mark_same_rows x t : same_rows x (mark_checkpoint x t).
Proof. by split. Qed.
Lemma put_cursor_same_rows x t c : same_rows x (put_cursor x t c).
Proof. by split. Qed.

#[export] Hint Resolve rebuild_same_rows mark_same_rows put_cursor_same_rows : ramflux.

Lemma keep_last_length {A} n (l : list A) : (length (keep_last n l) <= n)%nat.
Proof. unfold keep_last. rewrite length_drop. lia. Qed.

Lemma elem_of_keep_last {A} n (l : list A) a : a ∈ keep_last n l -> a ∈ l.
Proof. apply elem_of_drop_in. Qed.

Lemma last_keep_last {A} n (l : list A) a : (0 < n)%nat -> last (keep_last n (l ++ [a])) = Some a.
Proof.
  intros Hn. unfold keep_last. rewrite length_app. simpl.
  rewrite drop_app_le by lia. apply last_snoc.
Qed.

Section facts.
Context {P : Type} `{!PublicationApi P}.
Implicit Types (core : option P) (now : Z) (x y : OpaqueDeviceInbox).

(** ** Rows and deadlines *)

Record retired now x (t : string) (s : N) y : Prop := {
  rt_rows t' : rows y t' = if decide (t' = t) then delete s (rows x t) else rows x t';
  rt_deadline t' s' : deadline_of y t' s' =
    if decide (t' = t /\ s' = s) then None else deadline_of x t' s';
  rt_cursors : cursors y = cursors x;
  rt_next : next_seq y = next_seq x;
  rt_incarnations : incarnations y = incarnations x;
  rt_ready : expiry_ready y = expiry_ready x;
  rt_due e : rows x t !! s = Some e -> expiry_ready x = true ->
    expiry_due y = expiry_due x ∖ {[ (retain_until now x e, t, s) ]};
}.

Lemma rows_set_if_empty x t (m : gmap N InboxEntry) t' :
  rows (set_pending x (if is_empty_map m then delete t (pending x) else <[t := m]> (pending x))) t' =
  if decide (t' = t) then m else rows x t'.
Proof.
  unfold rows; simpl. destruct (is_empty_map m) eqn:E.
  - apply is_empty_map_spec in E as ->. case_decide; subst; [by rewrite lookup_delete_eq|].
    by rewrite lookup_delete_ne.
  - case_decide; subst; [by rewrite lookup_insert_eq|]. by rewrite lookup_insert_ne.
Qed.

Lemma lookup_if_empty (rm : gmap string (gmap N Z)) t m t' s' :
  (if is_empty_map m then delete t rm else <[t := m]> rm) !! t' ≫= (.!! s') =
  if decide (t' = t) then m !! s' else rm !! t' ≫= (.!! s').
Proof.
  destruct (is_empty_map m) eqn:E.
  - apply is_empty_map_spec in E as ->. case_decide; subst.
    + by rewrite lookup_delete_eq, lookup_empty.
    + by rewrite lookup_delete_ne.
  - case_decide; subst; [by rewrite lookup_insert_eq|]. by rewrite lookup_insert_ne.
Qed.

Lemma retire_pending_None now x t s :
  rows x t !! s = None -> retire_pending now x t s = (None, x).
Proof.
  unfold rows, retire_pending. destruct (pending x !! t) as [m|]; simpl; [|done]. by intros ->.
Qed.

Lemma retire_pending_Some now x t s e :
  rows x t !! s = Some e ->
  exists y, retire_pending now x t s = (Some e, y) /\ retired now x t s y.
Proof.
  intros He. unfold retire_pending.
  assert (pending x !! t = Some (rows x t)) as Hp.
  { unfold rows in *. destruct (pending x !! t); [done|]. simpl in He. by rewrite lookup_empty in He. }
  rewrite Hp, He. eexists. split; [done|].
  set (x1 := set_pending _ _).
  assert (forall t', rows x1 t' = if decide (t' = t) then delete s (rows x t) else rows x t') as Hr
    by (intros; apply rows_set_if_empty).
  assert (retain_until_map x1 = retain_until_map x /\ expiry_ready x1 = expiry_ready x /\
    expiry_due x1 = expiry_due x) as (Hrm & Her & Hdu) by done.
  rewrite Hrm. split; simpl.
  - intros t'. rewrite <-Hr. by repeat case_match.
  - intros t' s'. unfold deadline_of.
    assert (forall z : OpaqueDeviceInbox, retain_until_map (if expiry_ready z
      then set_expiry_due z (expiry_due z ∖ {[ (retain_until now x1 e, t, s) ]}) else z)
      = retain_until_map z) as -> by (intros; by case_match).
    destruct (retain_until_map x !! t) as [dl|] eqn:Hd; simpl; rewrite ?lookup_if_empty, ?Hrm;
      repeat case_decide; destruct_and?; subst; rewrite ?Hd; simpl;
      rewrite ?lookup_delete_eq, ?lookup_delete_ne by naive_solver; naive_solver.
  - by repeat case_match.
  - by repeat case_match.
  - by repeat case_match.
  - by repeat case_match.
  - intros e' He' Hready. rewrite He in He'. injection He' as <-. destruct (retain_until_map x !! t); simpl; by rewrite ?Her, Hready.
Qed.

(** The parts of the state retiring leaves alone, whether or not the row exists. *)
Lemma retire_pending_rows now x t s t' :
  rows (retire_pending now x t s).2 t' = if decide (t' = t) then delete s (rows x t) else rows x t'.
Proof.
  destruct (rows x t !! s) as [e|] eqn:E.
  - destruct (retire_pending_Some now x t s e E) as (y & -> & Hy). apply Hy.
  - rewrite retire_pending_None by done. simpl. case_decide; subst; [|done].
    by rewrite delete_id.
Qed.

Lemma retire_pending_frame now x t s :
  let y := (retire_pending now x t s).2 in
  cursors y = cursors x /\ next_seq y = next_seq x /\ incarnations y = incarnations x /\
  expiry_ready y = expiry_ready x.
Proof.
  destruct (rows x t !! s) as [e|] eqn:E.
  - destruct (retire_pending_Some now x t s e E) as (y & -> & []). by split_and!.
  - by rewrite retire_pending_None.
Qed.

Lemma retire_pending_fst now x t s : (retire_pending now x t s).1 = rows x t !! s.
Proof.
  destruct (rows x t !! s) as [e|] eqn:E.
  - by destruct (retire_pending_Some now x t s e E) as (y & -> & _).
  - by rewrite retire_pending_None.
Qed.

(** ** Settlement *)

(** The floor [advance_settled_through] computes. *)
Definition settle_floor x (t : string) (boundary : N) : N :=
  match bt_first (rows x t) with
  | Some (first, _) => N.min boundary (first - 1)
  | None => boundary
  end.

Definition advance_cursor x (t : string) (boundary : N) (c : CursorAckState) : CursorAckState :=
  let settled := N.max (settled_inbox_seq c) (settle_floor x t boundary) in
  mkCursor (cur_target c) (cur_inbox_seq c) (last_envelope_id c) settled
    (N.max (issued_inbox_seq c) (issued_sequence x t)) (recent_ack_ids c)
    (bs_shrink ROUTER_ACK_WINDOW (acked_envelope_ids c))
    (filter (fun seq => settled < seq) (acked_inbox_seqs c)) (last_acknowledged_inbox_seq c)
    (bt_shrink ROUTER_ACK_WINDOW (nacked_envelope_ids c))
    (filter (fun p => is_Some (rows x t !! p.1)) (nack_attempts c)) (dead_letters c)
    (retired_inbox_seqs c).

Lemma advance_settled_through_eq x t boundary :
  advance_settled_through x t boundary =
  match cursors x !! t with
  | Some c => put_cursor x t (advance_cursor x t boundary c)
  | None => x
  end.
Proof. done. Qed.

Lemma advance_settled_through_same_rows x t b : same_rows x (advance_settled_through x t b).
Proof. rewrite advance_settled_through_eq. case_match; auto with ramflux. reflexivity. Qed.

Lemma advance_settled_same_rows core x t : same_rows x (advance_settled core x t).
Proof. apply advance_settled_through_same_rows. Qed.

Lemma settle_floor_lt x t b s e :
  (forall s e, rows x t !! s = Some e -> 1 <= s) ->
  rows x t !! s = Some e -> settle_floor x t b < s.
Proof.
  intros Hpos Hs. unfold settle_floor. destruct (bt_first (rows x t)) as [[f e']|] eqn:E.
  - pose proof (bt_first_min _ _ _ _ _ E Hs) as Hle. unfold key_le, N_key in Hle.
    pose proof (Hpos _ _ (bt_first_lookup _ _ _ E)). lia.
  - apply bt_first_None in E. rewrite E in Hs. by rewrite lookup_empty in Hs.
Qed.

Lemma settle_floor_le x t b : settle_floor x t b <= b.
Proof. unfold settle_floor. repeat case_match; lia. Qed.

(** Rows below [n] are gone, so the floor reaches [n - 1] if the boundary does. *)
Lemma settle_floor_ge x t b n :
  (forall s e, rows x t !! s = Some e -> n < s) -> n <= b -> n <= settle_floor x t b.
Proof.
  intros Hr Hb. unfold settle_floor. destruct (bt_first (rows x t)) as [[f e]|] eqn:E; [|done].
  pose proof (Hr _ _ (bt_first_lookup _ _ _ E)). lia.
Qed.

(** ** Well-formedness *)

Record inbox_wf x : Prop := {
  wf_row t s e : rows x t !! s = Some e -> inbox_seq e = s /\ en_target e = t /\ 1 <= s;
  wf_settled t c s e :
    cursors x !! t = Some c -> rows x t !! s = Some e -> settled_inbox_seq c < s;
  wf_due : expiry_ready x = true -> forall d t s,
    (d, t, s) ∈ expiry_due x <-> is_Some (rows x t !! s) /\ deadline_of x t s = Some d;
  wf_deadline : expiry_ready x = true -> forall t s e,
    rows x t !! s = Some e -> is_Some (deadline_of x t s);
}.

Lemma inbox_wf_same_rows x y :
  inbox_wf x -> same_rows x y ->
  (forall t c s e, cursors y !! t = Some c -> rows x t !! s = Some e -> settled_inbox_seq c < s) ->
  inbox_wf y.
Proof.
  intros [Hr _ Hd Hl] Hs Hc. pose proof (same_rows_rows _ _ Hs) as Hrows.
  destruct Hs as [_ _ _ Hret Hrd Hdu].
  assert (forall t s, deadline_of y t s = deadline_of x t s) as Hdl
    by (intros; unfold deadline_of; by rewrite Hret).
  split.
  - intros t s e. rewrite Hrows. apply Hr.
  - intros t c s e. rewrite Hrows. apply Hc.
  - rewrite Hrd, Hdu. intros Hready d t s. rewrite Hrows, Hdl. by apply Hd.
  - rewrite Hrd. intros Hready t s e. rewrite Hrows, Hdl. by apply Hl.
Qed.

Lemma inbox_wf_put_cursor x t c :
  inbox_wf x -> (forall s e, rows x t !! s = Some e -> settled_inbox_seq c < s) ->
  inbox_wf (put_cursor x t c).
Proof.
  intros Hx Hc. eapply inbox_wf_same_rows; eauto with ramflux. intros t' c' s e. simpl.
  intros [[<- <-]|[_ ?]]%lookup_insert_Some; [apply Hc|by apply Hx].
Qed.

Lemma inbox_wf_cursor_entry x t s e :
  inbox_wf x -> rows x t !! s = Some e -> settled_inbox_seq (cursor_entry x t) < s.
Proof.
  intros Hx He. unfold cursor_entry. destruct (cursors x !! t) as [c|] eqn:E; simpl.
  - by eapply wf_settled.
  - apply (wf_row _ Hx) in He as (_ & _ & ?). lia.
Qed.

Lemma inbox_wf_advance_through x t b : inbox_wf x -> inbox_wf (advance_settled_through x t b).
Proof.
  intros Hx. rewrite advance_settled_through_eq. destruct (cursors x !! t) as [c|] eqn:E; [|done].
  apply inbox_wf_put_cursor; [done|]. intros s e He. simpl.
  pose proof (wf_settled _ Hx _ _ _ _ E He).
  pose proof (settle_floor_lt x t b s e (fun s e H => proj2 (proj2 (wf_row _ Hx t s e H))) He). lia.
Qed.

Lemma inbox_wf_advance core x t : inbox_wf x -> inbox_wf (advance_settled core x t).
Proof. apply inbox_wf_advance_through. Qed.

Lemma inbox_wf_retired now x t s y :
  inbox_wf x -> is_Some (rows x t !! s) -> retired now x t s y -> inbox_wf y.
Proof.
  intros Hx [e He] Hy. destruct Hx as [Hr Hs Hd Hl], Hy as [Hr' Hd' Hc' _ _ Hrd' Hdu'].
  split.
  - intros t' s' e'. rewrite Hr'. case_decide; subst; [|apply Hr].
    intros [_ ?]%lookup_delete_Some. by apply Hr.
  - intros t' c s' e'. rewrite Hc', Hr'. case_decide; subst; [|apply Hs].
    intros Hc [_ ?]%lookup_delete_Some. eauto.
  - intros Hready d t' s'. rewrite Hrd' in Hready. rewrite (Hdu' _ He Hready), Hd', Hr'.
    destruct (Hr _ _ _ He) as (Hse & Hte & _).
    assert (deadline_of x t s = Some (retain_until now x e)) as Hde.
    { destruct (Hl Hready _ _ _ He) as [d0 Hd0]. unfold retain_until. unfold deadline_of in *.
      rewrite Hse, Hte, Hd0. done. }
    rewrite elem_of_difference, elem_of_singleton, (Hd Hready).
    destruct (decide (t' = t)) as [->|]; [destruct (decide (s' = s)) as [->|]|].
    + rewrite lookup_delete_eq, decide_True by done. rewrite Hde. split; [|by intros [[? ?] ?]].
      intros [[_ ?] Hne]. simplify_eq.
    + rewrite lookup_delete_ne, decide_False by naive_solver. naive_solver.
    + rewrite decide_False by naive_solver. naive_solver.
  - intros Hready t' s' e'. rewrite Hrd' in Hready. rewrite Hd', Hr'.
    case_decide; subst.
    + intros [? ?]%lookup_delete_Some. rewrite decide_False by naive_solver. eauto.
    + rewrite decide_False by naive_solver. eauto.
Qed.

Lemma inbox_wf_retire now x t s : inbox_wf x -> inbox_wf (retire_pending now x t s).2.
Proof.
  intros Hx. destruct (rows x t !! s) as [e|] eqn:E.
  - destruct (retire_pending_Some now x t s e E) as (y & -> & Hy).
    by eapply inbox_wf_retired.
  - by rewrite retire_pending_None.
Qed.

(** ** Progress of one target

    What dead-lettering, settling and acknowledging do to a target: rows [ds]
    leave, each of them accounted for by the cursor, and nothing the cursor
    accounted for is forgotten. *)

Definition disposed (c : CursorAckState) (s : N) : Prop :=
  s <= settled_inbox_seq c \/ s ∈ acked_inbox_seqs c.

Record progress x y (t : string) (ds : list N) : Prop := {
  pg_rows : rows y t = filter (fun p => p.1 ∉ ds) (rows x t);
  pg_other t' : t' <> t -> rows y t' = rows x t' /\ cursors y !! t' = cursors x !! t';
  pg_retired : retired_inbox_seqs (cursor_entry y t) = retired_inbox_seqs (cursor_entry x t) ++ ds;
  pg_pending s : s ∈ ds -> is_Some (rows x t !! s);
  pg_disposed s : s ∈ ds \/ disposed (cursor_entry x t) s -> disposed (cursor_entry y t) s;
  pg_settled : settled_inbox_seq (cursor_entry x t) <= settled_inbox_seq (cursor_entry y t);
  pg_next : next_seq y = next_seq x;
  pg_incarnations : incarnations y = incarnations x;
  pg_cursor : is_Some (cursors x !! t) -> is_Some (cursors y !! t);
}.

Lemma progress_refl x t : progress x x t [].
Proof.
  split; try done.
  - symmetry. apply map_filter_id. intros s e _. apply not_elem_of_nil.
  - by rewrite app_nil_r.
  - intros s ?%elem_of_nil. done.
  - intros s [?%elem_of_nil|?]; done.
Qed.

Lemma progress_trans x y z t ds ds' :
  progress x y t ds -> progress y z t ds' -> progress x z t (ds ++ ds').
Proof.
  intros [Hr Ho Hrt Hp Hd Hs Hn Hi Hc] [Hr' Ho' Hrt' Hp' Hd' Hs' Hn' Hi' Hc'].
  split; try congruence; try lia; eauto.
  - rewrite Hr', Hr, map_filter_filter. apply map_filter_ext. intros s e _. simpl. set_solver.
  - intros t' Ht. destruct (Ho t' Ht), (Ho' t' Ht). split; congruence.
  - rewrite Hrt', Hrt. by rewrite app_assoc.
  - intros s [?|Hs2]%elem_of_app; [auto|]. destruct (Hp' _ Hs2) as [e He].
    rewrite Hr in He. apply map_lookup_filter_Some in He as [? _]. eauto.
  - intros s [[?|?]%elem_of_app|?]; auto.
Qed.

Lemma cursor_entry_Some x t c : cursors x !! t = Some c -> cursor_entry x t = c.
Proof. unfold cursor_entry. by intros ->. Qed.

Lemma cursor_entry_put x t c : cursor_entry (put_cursor x t c) t = c.
Proof. unfold cursor_entry. simpl. by rewrite lookup_insert_eq. Qed.

Lemma cursor_entry_cursors x y t : cursors y !! t = cursors x !! t -> cursor_entry y t = cursor_entry x t.
Proof. unfold cursor_entry. by intros ->. Qed.

Lemma disposed_advance x t b c s : disposed c s -> disposed (advance_cursor x t b c) s.
Proof.
  unfold disposed. intros Hd. simpl.
  destruct (decide (s <= N.max (settled_inbox_seq c) (settle_floor x t b))); [by left|].
  right. apply elem_of_filter. destruct Hd; [lia|]. split; [lia|done].
Qed.

Lemma progress_advance core x t :
  is_Some (cursors x !! t) -> progress x (advance_settled core x t) t [].
Proof.
  intros [c Hc]. pose proof (advance_settled_same_rows core x t) as Hs.
  unfold advance_settled in *. rewrite advance_settled_through_eq in *. rewrite Hc in *.
  pose proof (same_rows_rows _ _ Hs) as Hr. destruct Hs as [Hn Hi _ _ _ _].
  assert (cursor_entry x t = c) as Hce by (unfold cursor_entry; by rewrite Hc).
  split; rewrite ?cursor_entry_put, ?Hce; try done.
  - rewrite Hr. symmetry. apply map_filter_id. intros s e _. apply not_elem_of_nil.
  - intros t' Ht. split; [by rewrite Hr|]. simpl. by rewrite lookup_insert_ne.
  - simpl. by rewrite app_nil_r.
  - intros s ?%elem_of_nil. done.
  - intros s [?%elem_of_nil|?]; [done|]. by apply disposed_advance.
  - simpl. lia.
  - intros _. simpl. rewrite lookup_insert_eq. eauto.
Qed.

(** What [dead_letter] leaves in the cursor. *)
Definition dead_cursor now x (t : string) (s : N) (reason : DeadLetterReason) (e : InboxEntry)
  : CursorAckState :=
  let c := cursor_entry x t in
  mkCursor (cur_target c) (cur_inbox_seq c) (last_envelope_id c) (settled_inbox_seq c)
    (issued_inbox_seq c) (recent_ack_ids c) (acked_envelope_ids c)
    (if bool_decide (settled_inbox_seq c < s) then {[ s ]} ∪ acked_inbox_seqs c
     else acked_inbox_seqs c) (last_acknowledged_inbox_seq c) (nacked_envelope_ids c)
    (delete s (nack_attempts c))
    (keep_last ROUTER_DEAD_LETTER_LIMIT
       (dead_letters c ++ [mkDeadLetter s (envelope_id (en_envelope e)) reason (retain_until now x e)]))
    (retired_inbox_seqs c ++ [s]).

Lemma dead_letter_None now x t s reason :
  rows x t !! s = None -> dead_letter now x t s reason = x.
Proof. unfold dead_letter. by intros ->. Qed.

Lemma dead_letter_Some now x t s reason e :
  rows x t !! s = Some e ->
  exists y, retire_pending now x t s = (Some e, y) /\ retired now x t s y /\
    dead_letter now x t s reason =
      mark_checkpoint (rebuild_dead_letter_index (put_cursor y t (dead_cursor now x t s reason e)) t) t.
Proof.
  intros He. destruct (retire_pending_Some now x t s e He) as (y & Hy & Hyr).
  exists y. split_and!; [done|done|]. unfold dead_letter. rewrite He, Hy.
  assert (cursor_entry y t = cursor_entry x t) as ->
    by (apply cursor_entry_cursors; by rewrite (rt_cursors _ _ _ _ _ Hyr)).
  unfold dead_cursor. simpl. by destruct (bool_decide (settled_inbox_seq (cursor_entry x t) < s)).
Qed.

Lemma progress_dead_letter now x t s reason :
  is_Some (rows x t !! s) -> progress x (dead_letter now x t s reason) t [s].
Proof.
  intros [e He]. destruct (dead_letter_Some now x t s reason e He) as (y & _ & Hy & ->).
  set (c := dead_cursor now x t s reason e).
  set (z := mark_checkpoint _ _).
  assert (forall t', rows z t' = rows y t') as Hr by done.
  assert (cursor_entry z t = c) as Hc by apply (cursor_entry_put y t).
  destruct Hy as [Hyr _ Hyc Hyn Hyi _ _].
  split; rewrite ?Hc; try done.
  - rewrite Hr, Hyr, decide_True by done. apply map_eq. intros s'.
    rewrite map_lookup_filter. destruct (decide (s' = s)) as [->|Hne].
    + rewrite lookup_delete_eq, He. simpl. rewrite option_guard_False; [done|]. set_solver.
    + rewrite lookup_delete_ne by done. destruct (rows x t !! s') as [e'|]; [|done]. simpl.
      rewrite option_guard_True; [done|]. set_solver.
  - intros t' Ht. rewrite Hr, Hyr, decide_False by done. split; [done|].
    simpl. by rewrite lookup_insert_ne, Hyc.
  - intros s' ->%list_elem_of_singleton. eauto.
  - unfold disposed, c; simpl. intros s' [->%list_elem_of_singleton|Hs'].
    + case_bool_decide; [right; set_solver|left; lia].
    + case_bool_decide; [|done]. destruct Hs'; [by left|right; set_solver].
  - intros _. simpl. rewrite lookup_insert_eq. eauto.
Qed.

Lemma inbox_wf_dead_letter now x t s reason :
  inbox_wf x -> inbox_wf (dead_letter now x t s reason).
Proof.
  intros Hx. destruct (rows x t !! s) as [e|] eqn:He; [|by rewrite dead_letter_None].
  destruct (dead_letter_Some now x t s reason e He) as (y & _ & Hy & ->).
  assert (inbox_wf (put_cursor y t (dead_cursor now x t s reason e))) as Hz.
  { apply inbox_wf_put_cursor; [by eapply inbox_wf_retired|]. intros s' e' He'. simpl.
    rewrite (rt_rows _ _ _ _ _ Hy), decide_True in He' by done.
    apply lookup_delete_Some in He' as [_ He']. by eapply inbox_wf_cursor_entry. }
  eapply inbox_wf_same_rows; [exact Hz|by split|]. intros t' c s' e'. simpl. apply Hz.
Qed.

(** ** Making room in the window *)

(** The loop's exit condition. *)
Definition has_room x (t : string) (seq : N) : Prop :=
  match cursors x !! t with
  | None => True
  | Some c => window_full c seq = false \/ forall s, s < seq -> rows x t !! s = None
  end.

Lemma head_range_lt x t seq s e :
  head (bt_range_lt seq (rows x t)) = Some (s, e) -> rows x t !! s = Some e /\ s < seq.
Proof.
  intros H%head_Some_elem_of. apply elem_of_bt_range_lt in H as (? & Hle & ?).
  unfold key_le, N_key in Hle. split; [done|lia].
Qed.

Lemma head_range_lt_None x t seq :
  head (bt_range_lt seq (rows x t)) = None -> forall s, s < seq -> rows x t !! s = None.
Proof.
  intros H s Hs. destruct (rows x t !! s) as [e|] eqn:He; [|done].
  apply head_None in H. assert ((s, e) ∈ bt_range_lt seq (rows x t)) as Hin.
  { apply elem_of_bt_range_lt. unfold key_le, N_key. split_and!; [done|lia|lia]. }
  rewrite H in Hin. by apply elem_of_nil in Hin.
Qed.

Lemma filter_not_in_size (m : gmap N InboxEntry) s :
  is_Some (m !! s) -> (size (filter (fun p => p.1 ∉ [s]) m) < size m)%nat.
Proof.
  intros [e He]. apply map_subset_size. split; [apply map_filter_subseteq|].
  intros Hsub. assert (filter (fun p => p.1 ∉ [s]) m !! s = Some e) as Hf
    by (by eapply lookup_weaken).
  apply map_lookup_filter_Some in Hf as [_ Hn]. apply Hn. simpl. by left.
Qed.

Lemma make_room_step core now x t s reason :
  is_Some (rows x t !! s) ->
  progress x (advance_settled core (dead_letter now x t s reason) t) t [s].
Proof.
  intros Hs. pose proof (progress_dead_letter now x t s reason Hs) as Hd.
  rewrite <-(app_nil_r [s]). eapply progress_trans; [exact Hd|]. apply progress_advance.
  destruct Hs as [e He]. destruct (dead_letter_Some now x t s reason e He) as (y & _ & _ & ->).
  simpl. rewrite lookup_insert_eq. eauto.
Qed.

Lemma make_room_loop_spec core now fuel x t seq :
  (size (rows x t) < fuel)%nat ->
  exists ds, progress x (make_ack_window_room_loop core now fuel x t seq) t ds /\
    Forall (fun s => s < seq) ds /\
    has_room (make_ack_window_room_loop core now fuel x t seq) t seq.
Proof.
  revert x. induction fuel as [|fuel IH]; intros x Hf; [lia|]. simpl.
  destruct (cursors x !! t) as [c|] eqn:Hc.
  2: { exists []. split_and!; [apply progress_refl|constructor|]. unfold has_room. by rewrite Hc. }
  destruct (window_full c seq) eqn:Hw.
  2: { exists []. split_and!; [apply progress_refl|constructor|]. unfold has_room. rewrite Hc. by left. }
  destruct (head (bt_range_lt seq (rows x t))) as [[s e]|] eqn:Hh.
  2: { exists []. split_and!; [apply progress_refl|constructor|]. unfold has_room. rewrite Hc.
       right. by apply head_range_lt_None. }
  apply head_range_lt in Hh as [He Hs].
  pose proof (make_room_step core now x t s AckWindowOverflow (mk_is_Some _ _ He)) as Hp.
  destruct (IH (advance_settled core (dead_letter now x t s AckWindowOverflow) t)) as (ds & Hds & Hlt & Hr).
  { rewrite (pg_rows _ _ _ _ Hp). pose proof (filter_not_in_size (rows x t) s (mk_is_Some _ _ He)). lia. }
  exists (s :: ds). split_and!; [|by constructor|done]. by apply (progress_trans _ _ _ _ [s] ds Hp).
Qed.

Lemma make_room_spec core now x t seq :
  exists ds, progress x (make_ack_window_room core now x t seq) t ds /\
    Forall (fun s => s < seq) ds /\ has_room (make_ack_window_room core now x t seq) t seq.
Proof. apply make_room_loop_spec. lia. Qed.

Lemma inbox_wf_make_room_loop core now fuel x t seq :
  inbox_wf x -> inbox_wf (make_ack_window_room_loop core now fuel x t seq).
Proof.
  revert x. induction fuel as [|fuel IH]; intros x Hx; simpl; [done|].
  repeat case_match; try done. by apply IH, inbox_wf_advance, inbox_wf_dead_letter.
Qed.

(** ** Acknowledging *)

Lemma record_ack_fields c id seq :
  settled_inbox_seq (record_ack c id seq) = settled_inbox_seq c /\
  acked_inbox_seqs (record_ack c id seq) = {[ seq ]} ∪ acked_inbox_seqs c /\
  retired_inbox_seqs (record_ack c id seq) = retired_inbox_seqs c /\
  last_acknowledged_inbox_seq (record_ack c id seq) = Some seq /\
  dead_letters (record_ack c id seq) = dead_letters c /\
  nacked_envelope_ids (record_ack c id seq) = nacked_envelope_ids c /\
  cur_target (record_ack c id seq) = cur_target c.
Proof. unfold record_ack. by case_decide. Qed.

Lemma progress_put_cursor x t c :
  retired_inbox_seqs c = retired_inbox_seqs (cursor_entry x t) ->
  settled_inbox_seq (cursor_entry x t) <= settled_inbox_seq c ->
  (forall s, disposed (cursor_entry x t) s -> disposed c s) ->
  progress x (put_cursor x t c) t [].
Proof.
  intros Hrt Hs Hd. split; rewrite ?cursor_entry_put, ?app_nil_r; try done.
  - symmetry. apply map_filter_id. intros s e _. apply not_elem_of_nil.
  - intros t' Ht. split; [done|]. simpl. by rewrite lookup_insert_ne.
  - intros s ?%elem_of_nil. done.
  - intros s [?%elem_of_nil|?]; [done|auto].
  - intros _. simpl. rewrite lookup_insert_eq. eauto.
Qed.

Record acked_effect x y (t : string) (seq : N) : Prop := {
  ae_rows : rows y t =
    filter (fun p => p.1 ∉ retired_inbox_seqs (cursor_entry y t)) (delete seq (rows x t));
  ae_other t' : t' <> t -> rows y t' = rows x t' /\ cursors y !! t' = cursors x !! t';
  ae_below s : s ∈ retired_inbox_seqs (cursor_entry y t) -> is_Some (rows x t !! s) /\ s < seq;
  ae_cursor : is_Some (cursors y !! t);
  ae_disposed s :
    s = seq \/ s ∈ retired_inbox_seqs (cursor_entry y t) \/ disposed (cursor_entry x t) s ->
    disposed (cursor_entry y t) s;
  ae_settled : settled_inbox_seq (cursor_entry x t) <= settled_inbox_seq (cursor_entry y t);
  ae_last : last_acknowledged_inbox_seq (cursor_entry y t) = Some seq;
  ae_next : next_seq y = next_seq x;
  ae_incarnations : incarnations y = incarnations x;
}.

(** The pieces of an accepted acknowledgement, composed. *)
Lemma acked_effect_compose core x x1 x2 x4 t ds c seq :
  (forall t', rows x1 t' = rows x t') ->
  (forall t', t' <> t -> cursors x1 !! t' = cursors x !! t') ->
  next_seq x1 = next_seq x -> incarnations x1 = incarnations x ->
  cursor_entry x1 t = set_retired_inbox_seqs (cursor_entry x t) [] ->
  progress x1 x2 t ds -> Forall (fun s => s < seq) ds ->
  settled_inbox_seq c = settled_inbox_seq (cursor_entry x2 t) ->
  acked_inbox_seqs c = {[ seq ]} ∪ acked_inbox_seqs (cursor_entry x2 t) ->
  retired_inbox_seqs c = retired_inbox_seqs (cursor_entry x2 t) ->
  last_acknowledged_inbox_seq c = Some seq ->
  (forall t', rows x4 t' = if decide (t' = t) then delete seq (rows x2 t) else rows x2 t') ->
  cursors x4 = <[t := c]> (cursors x2) ->
  next_seq x4 = next_seq x2 -> incarnations x4 = incarnations x2 ->
  acked_effect x (advance_settled core x4 t) t seq.
Proof.
  intros Hr1 Hc1 Hn1 Hi1 He1 [Hpr Hpo Hprt Hpp Hpd Hps Hpn Hpi _] Hlt Hcs Hca Hcr Hcl Hr4 Hc4 Hn4 Hi4.
  assert (cursors x4 !! t = Some c) as Hx4 by (rewrite Hc4; apply lookup_insert_eq).
  assert (cursor_entry x4 t = c) as Hce4 by (unfold cursor_entry; by rewrite Hx4).
  assert (last_acknowledged_inbox_seq (cursor_entry (advance_settled core x4 t) t) = Some seq) as Hlast.
  { unfold advance_settled. rewrite advance_settled_through_eq, Hx4, cursor_entry_put. done. }
  destruct (progress_advance core x4 t (mk_is_Some _ _ Hx4)) as [Har Hao Hart _ Had Has Han Hai Hac].
  rewrite Hce4 in *. rewrite He1 in *.
  assert (retired_inbox_seqs (cursor_entry (advance_settled core x4 t) t) = ds) as Hret
    by (rewrite Hart, Hcr, Hprt, app_nil_r; done).
  split; rewrite ?Hret.
  - rewrite Har, map_filter_id by (intros; apply not_elem_of_nil).
    by rewrite Hr4, decide_True, Hpr, Hr1, map_filter_delete by done.
  - intros t' Ht. destruct (Hao t' Ht) as [-> ->]. destruct (Hpo t' Ht) as [Hor Hoc].
    rewrite Hr4, decide_False, Hor, Hr1 by done. split; [done|].
    rewrite Hc4, lookup_insert_ne, Hoc by done. auto.
  - rewrite Forall_forall in Hlt. intros s Hs. rewrite <-Hr1. auto.
  - eauto.
  - intros s Hs. apply Had. right. unfold disposed. rewrite Hcs, Hca.
    destruct Hs as [->|Hs]; [right; by apply elem_of_union_l, elem_of_singleton|].
    destruct (Hpd s Hs) as [?|?]; [by left|right; by apply elem_of_union_r].
  - rewrite Hcs in Has. simpl in Hps. lia.
  - done.
  - congruence.
  - congruence.
Qed.

Lemma acked_state_effect core now x t id seq :
  acked_effect x (acked_state core now x t id seq) t seq.
Proof.
  unfold acked_state. cbv zeta.
  generalize (put_cursor_same_rows x t (set_retired_inbox_seqs (cursor_entry x t) [])).
  generalize (cursor_entry_put x t (set_retired_inbox_seqs (cursor_entry x t) [])).
  assert (forall t', t' <> t -> cursors (put_cursor x t (set_retired_inbox_seqs (cursor_entry x t) []))
    !! t' = cursors x !! t') as Hc1 by (intros; simpl; by rewrite lookup_insert_ne).
  revert Hc1. generalize (put_cursor x t (set_retired_inbox_seqs (cursor_entry x t) [])) as x1.
  intros x1 Hc1 He1 Hs1. destruct (make_room_spec core now x1 t seq) as (ds & Hp & Hlt & _).
  revert Hp. generalize (make_ack_window_room core now x1 t seq) as x2. intros x2 Hp.
  destruct (record_ack_fields (cursor_entry x2 t) id seq) as (Hcs & Hca & Hcr & Hcl & _).
  revert Hcs Hca Hcr Hcl. generalize (record_ack (cursor_entry x2 t) id seq) as c. intros.
  destruct (retire_pending_frame now (put_cursor x2 t c) t seq) as (Hc4 & Hn4 & Hi4 & _).
  apply (acked_effect_compose core x x1 x2 _ t ds c seq); try done.
  - by apply same_rows_rows.
  - apply Hs1.
  - apply Hs1.
  - intros t'. rewrite retire_pending_rows. done.
Qed.

Lemma inbox_wf_record x t id seq :
  inbox_wf x -> inbox_wf (put_cursor x t (record_ack (cursor_entry x t) id seq)).
Proof.
  intros Hx. apply inbox_wf_put_cursor; [done|]. intros s e He.
  destruct (record_ack_fields (cursor_entry x t) id seq) as [-> _].
  by eapply inbox_wf_cursor_entry.
Qed.

Lemma inbox_wf_acked_state core now x t id seq :
  inbox_wf x -> inbox_wf (acked_state core now x t id seq).
Proof.
  intros Hx. apply inbox_wf_advance, inbox_wf_retire, inbox_wf_record, inbox_wf_make_room_loop.
  apply inbox_wf_put_cursor; [done|]. intros s e. simpl. by apply inbox_wf_cursor_entry.
Qed.

Lemma apply_ack_for_target_cases core now x t ack :
  (exists e, apply_ack_for_target core now x t ack = (Err e, x)) \/
  exists seq c, ack_selector x t ack = Ok seq /\ ack_checks core x t ack seq = Ok tt /\
    let y := acked_state core now x t (ack_envelope_id ack) seq in
    apply_ack_for_target core now x t ack = (Ok c, y) /\ cursors y !! t = Some c.
Proof.
  unfold apply_ack_for_target. destruct (ack_selector x t ack) as [seq|e]; [|eauto].
  destruct (ack_checks core x t ack seq) as [[]|e] eqn:Hchk; [|eauto]. right.
  destruct (acked_state_effect core now x t (ack_envelope_id ack) seq) as [_ _ _ [c Hc] _ _ _ _ _].
  exists seq, c. split_and!; [done..|by rewrite (cursor_entry_Some _ _ _ Hc)|done].
Qed.

(** ** Expiry *)

Lemma elem_of_bt_values `{Countable K, KO : KeyOrd K, !RelDecision (key_le (K:=K)), !KeyOrdOk K}
    {V} (m : gmap K V) v : v ∈ bt_values m <-> exists k, m !! k = Some v.
Proof.
  unfold bt_values. rewrite list_elem_of_fmap. split.
  - intros ([k v'] & -> & Hin%elem_of_bt_entries). eauto.
  - intros [k Hk]. exists (k, v). split; [done|]. by apply elem_of_bt_entries.
Qed.

Lemma elem_of_pending_entries x e :
  e ∈ pending_entries x <-> exists t s, rows x t !! s = Some e.
Proof.
  unfold pending_entries. rewrite list_elem_of_join. split.
  - intros (l & Hl & (m & -> & Hm)%list_elem_of_fmap). apply elem_of_bt_values in Hl as [s Hs].
    apply elem_of_bt_values in Hm as [t Ht]. exists t, s. unfold rows. by rewrite Ht.
  - intros (t & s & Hs). unfold rows in Hs. destruct (pending x !! t) as [m|] eqn:Ht;
      simpl in Hs; [|by rewrite lookup_empty in Hs].
    exists (bt_values m). split; [by apply elem_of_bt_values; eauto|].
    apply list_elem_of_fmap. exists m. split; [done|]. apply elem_of_bt_values. eauto.
Qed.

(** Filling the deadlines of a list of entries. *)
Definition fill_deadlines now (m : gmap string (gmap N Z)) (l : list InboxEntry) :=
  foldl (fun m entry =>
    <[en_target entry :=
        <[inbox_seq entry := inbox_legacy_retain_until (en_envelope entry) now]>
          (default ∅ (m !! en_target entry))]> m) m l.

Lemma fill_deadlines_lookup now m l t s :
  (exists e, e ∈ l /\ en_target e = t /\ inbox_seq e = s /\
     fill_deadlines now m l !! t ≫= (.!! s) = Some (inbox_legacy_retain_until (en_envelope e) now)) \/
  (forall e, e ∈ l -> ~ (en_target e = t /\ inbox_seq e = s)) /\
  fill_deadlines now m l !! t ≫= (.!! s) = m !! t ≫= (.!! s).
Proof.
  induction l as [|e l IH] using rev_ind.
  { right. split; [|done]. intros e ?%elem_of_nil. done. }
  unfold fill_deadlines in *. rewrite foldl_app. simpl.
  set (m1 := foldl _ m l) in *.
  destruct (decide (en_target e = t)) as [<-|Ht].
  - rewrite lookup_insert_eq. simpl. destruct (decide (inbox_seq e = s)) as [<-|Hs].
    + left. exists e. rewrite lookup_insert_eq. split_and!; try done.
      apply elem_of_app. right. by apply list_elem_of_singleton.
    + rewrite lookup_insert_ne by done.
      assert (default ∅ (m1 !! en_target e) !! s = m1 !! en_target e ≫= (.!! s)) as ->
        by (destruct (m1 !! en_target e); simpl; [done|apply lookup_empty]).
      destruct IH as [(e' & ? & ? & ? & ?)|[Hno ?]].
      * left. exists e'. split_and!; try done. apply elem_of_app. by left.
      * right. split; [|done]. intros e' [?| ->%list_elem_of_singleton]%elem_of_app; [auto|naive_solver].
  - rewrite lookup_insert_ne by done. destruct IH as [(e' & ? & ? & ? & ?)|[Hno ?]].
    + left. exists e'. split_and!; try done. apply elem_of_app. by left.
    + right. split; [|done]. intros e' [?| ->%list_elem_of_singleton]%elem_of_app; [auto|naive_solver].
Qed.

Lemma retain_until_row now x t s e :
  inbox_wf x -> rows x t !! s = Some e ->
  retain_until now x e =
  match deadline_of x t s with
  | Some d => d
  | None => inbox_legacy_retain_until (en_envelope e) now
  end.
Proof.
  intros Hx He. destruct (wf_row _ Hx _ _ _ He) as (<- & <- & _). done.
Qed.

Record indexed now x y : Prop := {
  ix_ready : expiry_ready y = true;
  ix_pending : pending y = pending x;
  ix_cursors : cursors y = cursors x;
  ix_next : next_seq y = next_seq x;
  ix_incarnations : incarnations y = incarnations x;
  ix_retain t s e : rows x t !! s = Some e -> retain_until now y e = retain_until now x e;
}.

Lemma ensure_expiry_index_spec now x :
  inbox_wf x -> inbox_wf (ensure_expiry_index now x) /\ indexed now x (ensure_expiry_index now x).
Proof.
  intros Hx. unfold ensure_expiry_index. destruct (expiry_ready x) eqn:Hready; [by split|].
  set (missing := filter _ (pending_entries x)).
  change (foldl _ (retain_until_map x) missing) with (fill_deadlines now (retain_until_map x) missing).
  set (x1 := set_retain_until_map x _).
  assert (forall t, rows x1 t = rows x t) as Hrows by done.
  assert (pending_entries x1 = pending_entries x) as Hpe by done.
  assert (forall t s e, rows x t !! s = Some e ->
    deadline_of x1 t s = Some (retain_until now x e)) as Hdl.
  { intros t s e He. rewrite (retain_until_row now x t s e Hx He). unfold deadline_of. simpl.
    destruct (fill_deadlines_lookup now (retain_until_map x) missing t s)
      as [(e' & Hin & Ht & Hs & ->)|[Hno ->]].
    - apply list_elem_of_filter in Hin as [Hnone Hin]. rewrite Ht, Hs in Hnone. rewrite Hnone.
      apply elem_of_pending_entries in Hin as (t' & s' & He').
      destruct (wf_row _ Hx _ _ _ He') as (? & ? & _). by simplify_eq.
    - destruct (retain_until_map x !! t ≫= (.!! s)) as [d|] eqn:Hd; [done|].
      destruct (wf_row _ Hx _ _ _ He) as (Hse & Hte & _). exfalso. apply (Hno e); [|done].
      apply list_elem_of_filter. rewrite Hse, Hte. split; [done|].
      apply elem_of_pending_entries. eauto. }
  assert (forall t s e, rows x t !! s = Some e -> retain_until now x1 e = retain_until now x e) as Hru.
  { intros t s e He. pose proof (Hdl _ _ _ He) as Hd. destruct (wf_row _ Hx _ _ _ He) as (<- & <- & _).
    unfold retain_until at 1. unfold deadline_of in Hd. by rewrite Hd. }
  set (y := set_expiry _ _ _).
  assert (forall t, rows y t = rows x t) as Hrowsy by done.
  assert (forall t s, deadline_of y t s = deadline_of x1 t s) as Hdly by done.
  split; [split|split; try done].
  - intros t s e. rewrite Hrowsy. apply Hx.
  - intros t c s e. rewrite Hrowsy. apply Hx.
  - intros _ d t s. rewrite Hrowsy, Hdly. simpl. rewrite elem_of_list_to_set, list_elem_of_fmap, Hpe.
    split.
    + intros (e & Heq & (t' & s' & He)%elem_of_pending_entries).
      destruct (wf_row _ Hx _ _ _ He) as (? & ? & _). simplify_eq. rewrite He, (Hru _ _ _ He). eauto.
    + intros [[e He] Hd]. exists e. split; [|by apply elem_of_pending_entries; eauto].
      rewrite (Hdl _ _ _ He) in Hd. injection Hd as <-. rewrite (Hru _ _ _ He).
      by destruct (wf_row _ Hx _ _ _ He) as (-> & -> & _).
  - intros _ t s e He. rewrite Hrowsy in He. rewrite Hdly, (Hdl _ _ _ He). eauto.
Qed.

(** Popping the index entry before retiring its row changes nothing: retiring
    removes it anyway. *)
Lemma retire_after_pop now x t s d e :
  inbox_wf x -> expiry_ready x = true -> rows x t !! s = Some e -> deadline_of x t s = Some d ->
  retire_pending now (set_expiry_due x (expiry_due x ∖ {[ (d, t, s) ]})) t s =
  retire_pending now x t s.
Proof.
  intros Hx Hready He Hd. pose proof (retain_until_row now x t s e Hx He) as Hru. rewrite Hd in Hru.
  assert (pending x !! t = Some (rows x t)) as Hp.
  { unfold rows in *. destruct (pending x !! t); [done|]. simpl in He. by rewrite lookup_empty in He. }
  unfold retire_pending. simpl. rewrite Hp, He. f_equal.
  change (retain_until now (set_pending _ _) e) with (retain_until now x e).
  change (retain_until now (set_pending _ _) e) with (retain_until now x e).
  rewrite Hru. destruct (retain_until_map x !! t); simpl; rewrite Hready; unfold set_expiry_due; simpl;
    f_equal; set_solver.
Qed.

Lemma expiry_first x d t s :
  inbox_wf x -> expiry_ready x = true -> bs_first (expiry_due x) = Some (d, t, s) ->
  (exists e, rows x t !! s = Some e) /\ deadline_of x t s = Some d /\
  bs_pop_first (expiry_due x) = expiry_due x ∖ {[ (d, t, s) ]} /\
  forall d' t' s', deadline_of x t' s' = Some d' -> is_Some (rows x t' !! s') -> (d <= d')%Z.
Proof.
  intros Hx Hready Hf. assert (Hf' := Hf). apply bs_first_Some in Hf as [Hin Hmin].
  apply (wf_due _ Hx Hready) in Hin as [[e He] Hd]. split_and!; eauto.
  - unfold bs_pop_first. by rewrite Hf'.
  - intros d' t' s' Hd' Hr'. assert ((d', t', s') ∈ expiry_due x) as Hin' by by apply (wf_due _ Hx Hready).
    specialize (Hmin _ Hin'). by apply prod_key_le_fst, prod_key_le_fst in Hmin.
Qed.

(** Rows whose deadline has passed leave, the others stay with their deadline. *)
Record expired now (cut : Z) x y (removed : list InboxEntry) : Prop := {
  ex_rows t s e : rows y t !! s = Some e <->
    rows x t !! s = Some e /\ (cut < retain_until now x e)%Z;
  ex_removed e : e ∈ removed <->
    exists t s, rows x t !! s = Some e /\ (retain_until now x e <= cut)%Z;
  ex_cursors : cursors y = cursors x;
  ex_next : next_seq y = next_seq x;
  ex_incarnations : incarnations y = incarnations x;
}.

Lemma expired_refl now cut x :
  inbox_wf x -> (forall t s e, rows x t !! s = Some e -> (cut < retain_until now x e)%Z) ->
  expired now cut x x [].
Proof.
  intros Hx Hr. split; try done.
  - intros t s e. split; [|tauto]. intros He. split; [done|]. eauto.
  - intros e. split; [intros ?%elem_of_nil; done|].
    intros (t & s & He & Hle). pose proof (Hr _ _ _ He). lia.
Qed.

Lemma expired_retire now cut x y z t s e removed :
  inbox_wf x -> inbox_wf y -> rows x t !! s = Some e -> (retain_until now x e <= cut)%Z ->
  retired now x t s y -> expired now cut y z removed ->
  expired now cut x z (e :: removed).
Proof.
  intros Hx Hy He Hle [Hr Hd Hc Hn Hi _ _] [Her Hem Hec Hen Hei].
  assert (forall t' s' e', rows x t' !! s' = Some e' -> (t', s') <> (t, s) ->
    rows y t' !! s' = Some e' /\ retain_until now y e' = retain_until now x e') as Hkeep.
  { intros t' s' e' He' Hne.
    assert (rows y t' !! s' = Some e') as Hy'.
    { rewrite Hr. case_decide; subst; [|done]. rewrite lookup_delete_ne by naive_solver. done. }
    split; [done|]. rewrite (retain_until_row now y _ _ _ Hy Hy'), (retain_until_row now x _ _ _ Hx He').
    rewrite Hd, decide_False by naive_solver. done. }
  assert (forall t' s' e', rows y t' !! s' = Some e' -> rows x t' !! s' = Some e' /\ (t', s') <> (t, s)) as Hback.
  { intros t' s' e'. rewrite Hr. case_decide; subst; [|naive_solver].
    intros [? ?]%lookup_delete_Some. split; [done|naive_solver]. }
  split; try congruence.
  - intros t' s' e'. rewrite Her. split.
    + intros [He' Hlt]. destruct (Hback _ _ _ He') as [Hx' Hne].
      destruct (Hkeep _ _ _ Hx' Hne) as [_ Heq]. split; [done|lia].
    + intros [He' Hlt]. destruct (decide ((t', s') = (t, s))) as [Heq|Hne].
      { simplify_eq. lia. }
      destruct (Hkeep _ _ _ He' Hne) as [? ->]. done.
  - intros e'. rewrite elem_of_cons, Hem. split.
    + intros [->|(t' & s' & He' & Hlt)]; [eauto|]. destruct (Hback _ _ _ He') as [Hx' Hne].
      destruct (Hkeep _ _ _ Hx' Hne) as [_ Heq]. exists t', s'. split; [done|lia].
    + intros (t' & s' & He' & Hlt). destruct (decide ((t', s') = (t, s))) as [Heq|Hne].
      { simplify_eq. by left. }
      destruct (Hkeep _ _ _ He' Hne) as [? Heq]. right. exists t', s'. split; [done|lia].
Qed.

Lemma expire_loop_spec now cut fuel x removed touched :
  inbox_wf x -> expiry_ready x = true -> (size (expiry_due x) <= fuel)%nat ->
  exists y new touched', expire_loop now fuel x cut removed touched = (y, removed ++ new, touched') /\
    inbox_wf y /\ expired now cut x y new.
Proof.
  revert x removed touched. induction fuel as [|fuel IH]; intros x removed touched Hx Hready Hf; simpl.
  - exists x, [], touched. rewrite app_nil_r. split_and!; [done|done|].
    apply expired_refl; [done|]. intros t s e He. exfalso.
    destruct (wf_deadline _ Hx Hready _ _ _ He) as [d Hd].
    assert ((d, t, s) ∈ expiry_due x) as Hin by (apply (wf_due _ Hx Hready); eauto).
    assert (expiry_due x = ∅) as Hem by (apply leibniz_equiv, size_empty_iff; lia). set_solver.
  - destruct (bs_first (expiry_due x)) as [[[d t] s]|] eqn:Hfirst.
    2: { exists x, [], touched. rewrite app_nil_r. split_and!; [done|done|].
         apply expired_refl; [done|]. intros t s e He. exfalso.
         destruct (wf_deadline _ Hx Hready _ _ _ He) as [d Hd].
         assert ((d, t, s) ∈ expiry_due x) as Hin by (apply (wf_due _ Hx Hready); eauto).
         apply bs_first_None in Hfirst. set_solver. }
    destruct (expiry_first x d t s Hx Hready Hfirst) as ([e He] & Hd & Hpop & Hmin).
    case_decide as Hlt.
    { exists x, [], touched. rewrite app_nil_r. split_and!; [done|done|].
      apply expired_refl; [done|]. intros t' s' e' He'.
      destruct (wf_deadline _ Hx Hready _ _ _ He') as [d' Hd'].
      rewrite (retain_until_row now x _ _ _ Hx He'), Hd'.
      specialize (Hmin _ _ _ Hd' (mk_is_Some _ _ He')). lia. }
    rewrite Hpop, (retire_after_pop now x t s d e Hx Hready He Hd).
    destruct (retire_pending_Some now x t s e He) as (y & -> & Hy).
    assert (inbox_wf y) as Hwy by (eapply inbox_wf_retired; eauto).
    assert (retain_until now x e = d) as Hru by by rewrite (retain_until_row now x _ _ _ Hx He), Hd.
    destruct (IH y (removed ++ [e]) ({[ t ]} ∪ touched)) as (z & new & touched' & Heq & Hwz & Hez); [done|..].
    { by rewrite (rt_ready _ _ _ _ _ Hy). }
    { rewrite (rt_due _ _ _ _ _ Hy e He Hready), Hru.
      assert ((d, t, s) ∈ expiry_due x) as Hin by (apply (wf_due _ Hx Hready); eauto).
      rewrite size_difference, size_singleton by set_solver. lia. }
    exists z, (e :: new), touched'. rewrite Heq, <-app_assoc. split_and!; [done|done|].
    apply (expired_retire now cut x y z t s e new); try done. lia.
Qed.

(** ** Operations that do not allocate

    They keep the sequence counters and incarnations, and move a cursor's
    settled floor up only, at most to the boundary. *)

Record grows core x y : Prop := {
  gr_wf : inbox_wf x -> inbox_wf y;
  gr_lower t : settled_inbox_seq (cursor_entry x t) <= settled_inbox_seq (cursor_entry y t);
  gr_upper t : settled_inbox_seq (cursor_entry y t) <=
    N.max (settled_inbox_seq (cursor_entry x t)) (settlement_boundary core x t);
  gr_next : next_seq y = next_seq x;
  gr_incarnations : incarnations y = incarnations x;
  gr_named t : cur_target (cursor_entry y t) = cur_target (cursor_entry x t);
}.

Lemma settlement_boundary_eq core x y t :
  next_seq y = next_seq x -> incarnations y = incarnations x ->
  settlement_boundary core y t = settlement_boundary core x t.
Proof. unfold settlement_boundary. by intros -> ->. Qed.

#[global] Instance grows_preorder core : PreOrder (grows core).
Proof.
  split.
  - intros x. split; try done; intros; lia.
  - intros x y z [? Hl Hu Hn Hi Hc] [? Hl' Hu' Hn' Hi' Hc']. split; try congruence; try tauto; intros t.
    + specialize (Hl t). specialize (Hl' t). lia.
    + specialize (Hu t). specialize (Hu' t).
      rewrite (settlement_boundary_eq core x y t Hn Hi) in Hu'. lia.
Qed.

Lemma grows_foldl {A} core (f : OpaqueDeviceInbox -> A -> OpaqueDeviceInbox) l x :
  (forall x a, grows core x (f x a)) -> grows core x (foldl f x l).
Proof. intros Hf. revert x. induction l as [|a l IH]; intros x; simpl; [done|]. etrans; eauto. Qed.

Lemma grows_same_cursors core x y :
  (inbox_wf x -> inbox_wf y) -> cursors y = cursors x -> next_seq y = next_seq x ->
  incarnations y = incarnations x -> grows core x y.
Proof.
  intros Hwf Hc Hn Hi.
  assert (forall t, cursor_entry y t = cursor_entry x t) as He
    by (intros; apply cursor_entry_cursors; by rewrite Hc).
  split; try done; intros t; rewrite He; done || lia.
Qed.

Lemma grows_same_rows_cursors core x y : same_rows x y -> cursors y = cursors x -> grows core x y.
Proof.
  intros Hs Hc. apply grows_same_cursors; try done; [|apply Hs..].
  intros Hx. eapply inbox_wf_same_rows; eauto. rewrite Hc. apply Hx.
Qed.

Lemma grows_mark core x t : grows core x (mark_checkpoint x t).
Proof. by apply grows_same_rows_cursors. Qed.
Lemma grows_rebuild core x t : grows core x (rebuild_dead_letter_index x t).
Proof. by apply grows_same_rows_cursors. Qed.

Lemma grows_retire core now x t s : grows core x (retire_pending now x t s).2.
Proof.
  destruct (retire_pending_frame now x t s) as (? & ? & ? & _).
  apply grows_same_cursors; try done. apply inbox_wf_retire.
Qed.

Lemma grows_put_cursor core x t c :
  settled_inbox_seq c = settled_inbox_seq (cursor_entry x t) -> cur_target c = cur_target (cursor_entry x t) ->
  grows core x (put_cursor x t c).
Proof.
  intros Hc Hn.
  assert (forall t', settled_inbox_seq (cursor_entry (put_cursor x t c) t') =
    settled_inbox_seq (cursor_entry x t')) as He.
  { intros t'. destruct (decide (t' = t)) as [->|]; [by rewrite cursor_entry_put|].
    f_equal. apply cursor_entry_cursors. simpl. by rewrite lookup_insert_ne. }
  split; try done; [|intros t'; rewrite He; lia..|].
  - intros Hx. apply inbox_wf_put_cursor; [done|]. intros s e ?. rewrite Hc.
    by eapply inbox_wf_cursor_entry.
  - intros t'. destruct (decide (t' = t)) as [->|]; [by rewrite cursor_entry_put|].
    f_equal. apply cursor_entry_cursors. simpl. by rewrite lookup_insert_ne.
Qed.

Lemma advance_settled_cursor core x t t' :
  settled_inbox_seq (cursor_entry (advance_settled core x t) t') =
  settled_inbox_seq (cursor_entry x t') \/
  t' = t /\ settled_inbox_seq (cursor_entry (advance_settled core x t) t') =
    N.max (settled_inbox_seq (cursor_entry x t)) (settle_floor x t (settlement_boundary core x t)).
Proof.
  unfold advance_settled. rewrite advance_settled_through_eq.
  destruct (cursors x !! t) as [c|] eqn:Hc; [|by left].
  destruct (decide (t' = t)) as [->|Hne].
  - right. by rewrite cursor_entry_put, (cursor_entry_Some _ _ _ Hc).
  - left. f_equal. apply cursor_entry_cursors. simpl. by rewrite lookup_insert_ne.
Qed.

Lemma grows_advance core x t : grows core x (advance_settled core x t).
Proof.
  pose proof (settle_floor_le x t (settlement_boundary core x t)).
  split; [apply inbox_wf_advance| | |apply advance_settled_same_rows..|];
    [intros t'; destruct (advance_settled_cursor core x t t') as [->|[-> ->]]; lia..|]. intros t'.
  unfold advance_settled. rewrite advance_settled_through_eq. destruct (cursors x !! t) as [c|] eqn:E; [|done].
  destruct (decide (t' = t)) as [->|]; [by rewrite cursor_entry_put, (cursor_entry_Some _ _ _ E)|].
  f_equal. apply cursor_entry_cursors. simpl. by rewrite lookup_insert_ne.
Qed.

Lemma grows_dead_letter core now x t s reason : grows core x (dead_letter now x t s reason).
Proof.
  destruct (rows x t !! s) as [e|] eqn:He; [|by rewrite dead_letter_None].
  pose proof (progress_dead_letter now x t s reason (mk_is_Some _ _ He)) as Hp.
  destruct (dead_letter_Some now x t s reason e He) as (y & _ & Hy & Heq).
  assert (forall t', settled_inbox_seq (cursor_entry (dead_letter now x t s reason) t') =
    settled_inbox_seq (cursor_entry x t') /\
    cur_target (cursor_entry (dead_letter now x t s reason) t') = cur_target (cursor_entry x t')) as Hs.
  { intros t'. destruct (decide (t' = t)) as [->|].
    - rewrite Heq, (cursor_entry_cursors (put_cursor y t (dead_cursor now x t s reason e))) by done.
      by rewrite cursor_entry_put.
    - rewrite (cursor_entry_cursors x (dead_letter now x t s reason) t'); [done|]. by apply (pg_other _ _ _ _ Hp). }
  split; [apply inbox_wf_dead_letter|intros t'; rewrite (proj1 (Hs t')); lia..|apply Hp|apply Hp|intros t'; apply Hs].
Qed.

Lemma grows_make_room core now fuel x t seq :
  grows core x (make_ack_window_room_loop core now fuel x t seq).
Proof.
  revert x. induction fuel as [|fuel IH]; intros x; simpl; [done|].
  repeat case_match; try done. etrans; [|apply IH].
  etrans; [apply grows_dead_letter|apply grows_advance].
Qed.

Lemma grows_acked_state core now x t id seq : grows core x (acked_state core now x t id seq).
Proof.
  unfold acked_state. cbv zeta. etrans; [|apply grows_advance]. etrans; [|apply grows_retire].
  etrans; [|apply grows_put_cursor; apply record_ack_fields]. etrans; [|apply grows_make_room].
  by apply grows_put_cursor.
Qed.

Lemma grows_apply_ack_for_target core now x t ack :
  grows core x (apply_ack_for_target core now x t ack).2.
Proof.
  destruct (apply_ack_for_target_cases core now x t ack) as [[e ->]|(seq & c & _ & _ & Heq & _)];
    [done|]. rewrite Heq. apply grows_acked_state.
Qed.

Lemma grows_apply_ack core now x ack : grows core x (apply_ack core now x ack).2.
Proof.
  unfold apply_ack. destruct (target_for_envelope x _); [apply grows_apply_ack_for_target|].
  by destruct (list_find _ _) as [[]|].
Qed.

Lemma grows_apply_nack_for_target core now x t nack :
  grows core x (apply_nack_for_target core now x t nack).2.
Proof.
  unfold apply_nack_for_target. destruct (nack_selector x t nack) as [[seq|]|e]; [| |done]; simpl.
  - unfold nacked_state. cbv zeta. case_bool_decide.
    + etrans; [|apply grows_advance]. etrans; [|apply grows_dead_letter]. by apply grows_put_cursor.
    + by apply grows_put_cursor.
  - by apply grows_put_cursor.
Qed.

Lemma grows_apply_nack core now x nack : grows core x (apply_nack core now x nack).2.
Proof.
  unfold apply_nack. destruct (target_for_envelope x _); [apply grows_apply_nack_for_target|].
  destruct (list_find _ _) as [[]|]; [done|]. by destruct (list_find _ _) as [[]|].
Qed.

Lemma expire_touched_same_rows core cut x t : same_rows x (expire_touched core cut x t).
Proof.
  unfold expire_touched. etrans; [|apply mark_same_rows]. etrans; [|apply rebuild_same_rows].
  etrans; [apply (advance_settled_same_rows core x t)|]. case_match; auto with ramflux. reflexivity.
Qed.

Lemma grows_expire_touched core cut x t : grows core x (expire_touched core cut x t).
Proof.
  unfold expire_touched. etrans; [apply (grows_advance core x t)|].
  etrans; [|apply grows_mark]. etrans; [|apply grows_rebuild].
  destruct (cursors (advance_settled core x t) !! t) as [c|] eqn:E; [|done].
  apply grows_put_cursor; by rewrite (cursor_entry_Some _ _ _ E).
Qed.

Lemma expire_entries_spec core now cut x removed y :
  inbox_wf x -> expire_entries core now x cut = (removed, y) ->
  grows core x y /\
  (forall t s e, rows y t !! s = Some e <->
     rows x t !! s = Some e /\ (cut < retain_until now x e)%Z) /\
  (forall e, e ∈ removed <-> exists t s, rows x t !! s = Some e /\ (retain_until now x e <= cut)%Z).
Proof.
  intros Hx. unfold expire_entries.
  destruct (ensure_expiry_index_spec now x Hx) as [Hwi [Hready Hp Hc Hn Hi Hru]].
  revert Hwi Hready Hp Hc Hn Hi Hru. generalize (ensure_expiry_index now x) as x1. intros x1 **.
  destruct (expire_loop_spec now cut (size (expiry_due x1)) x1 [] ∅) as (x2 & new & touched & Heq & Hw2 & He);
    [done|done|lia|].
  rewrite Heq in *. simpl in *. simplify_eq.
  assert (forall t, rows x1 t = rows x t) as Hr1 by (intros; unfold rows; by rewrite Hp).
  assert (grows core x2 (foldl (expire_touched core cut) x2 (bs_elems touched))) as Hg
    by (apply grows_foldl; intros; apply grows_expire_touched).
  pose proof (same_rows_foldl (expire_touched core cut) (bs_elems touched) x2
    (expire_touched_same_rows core cut)) as Hsr.
  destruct He as [Her Hem Hec Hen Hei].
  assert (grows core x x2) as Hg1 by (apply grows_same_cursors; congruence || done).
  split_and!; [by etrans|..].
  - intros t s e. rewrite (same_rows_rows _ _ Hsr), Her, Hr1. split; intros [Ht ?];
      (split; [done|]); specialize (Hru _ _ _ Ht); lia.
  - intros e. rewrite Hem. split; intros (t & s & Ht & ?); exists t, s; rewrite Hr1 in *;
      (split; [done|]); specialize (Hru _ _ _ Ht); lia.
Qed.

Lemma grows_finalize core x : grows core x (finalize_recovered_settlement core x).
Proof.
  apply grows_foldl. intros y t. simpl. case_decide; [apply grows_advance|].
  etrans; [apply grows_advance|apply grows_mark].
Qed.

Lemma grows_take_checkpoint core x : grows core x (take_checkpoint_due core x).2.
Proof.
  unfold take_checkpoint_due.
  assert (grows core x (set_checkpoint_due x ∅)) as Hg by by apply grows_same_rows_cursors.
  revert Hg. generalize (set_checkpoint_due x ∅) as y. generalize (@nil CursorAckState) as acc.
  induction (bs_elems (checkpoint_due x)) as [|t l IH]; intros acc y Hg; simpl; [done|].
  apply IH. etrans; [exact Hg|apply grows_advance].
Qed.

Lemma grows_requeue core x ts : grows core x (requeue_checkpoints x ts).
Proof.
  apply grows_foldl. intros y t. case_decide; [|done]. etrans; [apply grows_rebuild|apply grows_mark].
Qed.

Lemma grows_settle_pending core now x t s : grows core x (settle_pending now x t s).
Proof.
  unfold settle_pending. etrans; [apply grows_retire|]. apply grows_put_cursor; by case_bool_decide.
Qed.

Lemma grows_bound_retained core x : grows core x (bound_retained_receipts x).
Proof.
  unfold bound_retained_receipts. etrans; [|apply grows_foldl; intros; apply grows_rebuild].
  assert (forall t, settled_inbox_seq (cursor_entry (set_cursors x (bound_receipts <$> cursors x)) t) =
    settled_inbox_seq (cursor_entry x t) /\
    cur_target (cursor_entry (set_cursors x (bound_receipts <$> cursors x)) t) = cur_target (cursor_entry x t)) as He.
  { intros t. unfold cursor_entry. simpl. rewrite lookup_fmap. by destruct (cursors x !! t). }
  split; try done; [|intros t; rewrite (proj1 (He t)); lia..|intros t; apply He].
  intros Hx. eapply inbox_wf_same_rows; [exact Hx|by split|]. intros t c s e. simpl.
  rewrite lookup_fmap, fmap_Some. intros (c0 & Hc0 & ->). by apply (wf_settled _ Hx t c0).
Qed.

(** ** Operations that add rows *)

Lemma set_deadline_frame x t s d :
  let y := set_deadline x t s d in
  pending y = pending x /\ cursors y = cursors x /\ next_seq y = next_seq x /\
  incarnations y = incarnations x /\ expiry_ready y = expiry_ready x.
Proof. unfold set_deadline. simpl. destruct (expiry_ready x) eqn:E; split_and!; done. Qed.

Lemma set_deadline_lookup x t s d t' s' :
  deadline_of (set_deadline x t s d) t' s' =
  if decide (t' = t /\ s' = s) then Some d else deadline_of x t' s'.
Proof.
  assert (deadline_of (set_deadline x t s d) t' s' =
    <[t := <[s := d]> (default ∅ (retain_until_map x !! t))]> (retain_until_map x) !! t' ≫= (.!! s')) as ->
    by (unfold deadline_of, set_deadline; simpl; by destruct (expiry_ready x)).
  unfold deadline_of. destruct (decide (t' = t)) as [->|]; [|by rewrite lookup_insert_ne, decide_False by naive_solver].
  rewrite lookup_insert_eq. simpl. destruct (decide (s' = s)) as [->|].
  - by rewrite lookup_insert_eq, decide_True.
  - rewrite lookup_insert_ne, decide_False by naive_solver.
    destruct (retain_until_map x !! t); simpl; [done|apply lookup_empty].
Qed.

Lemma set_deadline_due x t s d :
  expiry_ready x = true ->
  expiry_due (set_deadline x t s d) =
  {[ (d, t, s) ]} ∪ match deadline_of x t s with
                    | Some p => expiry_due x ∖ {[ (p, t, s) ]}
                    | None => expiry_due x
                    end.
Proof.
  intros Hr. unfold set_deadline, deadline_of. simpl. rewrite Hr. simpl.
  destruct (retain_until_map x !! t); simpl; [done|]. by rewrite lookup_empty.
Qed.

(** Inserting a row with its deadline keeps the inbox well formed. *)
Lemma inbox_wf_insert x e d :
  inbox_wf x -> 1 <= inbox_seq e ->
  settled_inbox_seq (cursor_entry x (en_target e)) < inbox_seq e ->
  inbox_wf (set_deadline
    (set_pending x (<[en_target e := <[inbox_seq e := e]> (rows x (en_target e))]> (pending x)))
    (en_target e) (inbox_seq e) d).
Proof.
  intros Hx Hpos Hset. set (t := en_target e) in *. set (s := inbox_seq e) in *.
  set (x1 := set_pending x _).
  assert (forall t', rows x1 t' = if decide (t' = t) then <[s := e]> (rows x t) else rows x t') as Hr1.
  { intros t'. unfold rows, x1. simpl. case_decide; subst; [by rewrite lookup_insert_eq|].
    by rewrite lookup_insert_ne. }
  destruct (set_deadline_frame x1 t s d) as (Hp & Hc & _ & _ & Hrd).
  pose proof (fun t' s' => set_deadline_lookup x1 t s d t' s') as Hdl.
  pose proof (set_deadline_due x1 t s d) as Hdu.
  assert (forall t' s', deadline_of x1 t' s' = deadline_of x t' s') as Hd1 by done.
  assert (expiry_due x1 = expiry_due x) as Hdu1 by done.
  assert (expiry_ready x1 = expiry_ready x) as Hrd1 by done.
  assert (cursors x1 = cursors x) as Hc1 by done.
  revert Hp Hc Hrd Hdl Hdu. generalize (set_deadline x1 t s d) as y. intros y Hp Hc Hrd Hdl Hdu.
  assert (forall t', rows y t' = rows x1 t') as Hry by (intros; unfold rows; by rewrite Hp).
  assert (forall t' s' e', rows y t' !! s' = Some e' <->
    (t' = t /\ s' = s /\ e' = e) \/ (~ (t' = t /\ s' = s) /\ rows x t' !! s' = Some e')) as Hrow.
  { intros t' s' e'. rewrite Hry, Hr1. case_decide; subst; [|naive_solver].
    rewrite lookup_insert_Some. naive_solver. }
  split.
  - intros t' s' e' [(-> & -> & ->)|[_ He']]%Hrow; [done|by apply Hx].
  - intros t' c s' e' Hcc. rewrite Hc, Hc1 in Hcc. intros [(-> & -> & ->)|[_ He']]%Hrow; [|by eapply wf_settled].
    by rewrite (cursor_entry_Some _ _ _ Hcc) in Hset.
  - intros Hready d' t' s'. rewrite Hrd, Hrd1 in Hready. rewrite Hdu, Hdl, Hd1, Hdu1 by done.
    assert (is_Some (rows y t' !! s') <-> (t' = t /\ s' = s) \/ is_Some (rows x t' !! s')) as ->.
    { unfold is_Some. setoid_rewrite Hrow. destruct (decide (t' = t /\ s' = s)); naive_solver. }
    rewrite elem_of_union, elem_of_singleton. pose proof (wf_due _ Hx Hready) as Hd.
    rewrite Hd1. destruct (deadline_of x t s) as [p|] eqn:Hp0; rewrite ?elem_of_difference, ?elem_of_singleton, Hd;
      destruct (decide (t' = t /\ s' = s)) as [[-> ->]|Hne]; rewrite ?Hp0; naive_solver.
  - intros Hready t' s' e'. rewrite Hrd, Hrd1 in Hready. rewrite Hdl, Hd1.
    intros [(-> & -> & ->)|[Hne He']]%Hrow; [rewrite decide_True by done; eauto|].
    rewrite decide_False by done. by eapply wf_deadline.
Qed.

(** ** The size of the acknowledgement window *)

Definition window_size x (t : string) : nat := size (acked_inbox_seqs (cursor_entry x t)).

Lemma advance_acked core x t c :
  cursors x !! t = Some c ->
  acked_inbox_seqs (cursor_entry (advance_settled core x t) t) =
  filter (fun s => N.max (settled_inbox_seq c) (settle_floor x t (settlement_boundary core x t)) < s)
    (acked_inbox_seqs c).
Proof.
  intros Hc. unfold advance_settled. by rewrite advance_settled_through_eq, Hc, cursor_entry_put.
Qed.

(** Recording [s] and settling past it does not grow the window. *)
Lemma window_absorbs core x t c s (A : gset N) :
  cursors x !! t = Some c -> acked_inbox_seqs c ⊆ {[ s ]} ∪ A ->
  s <= settlement_boundary core x t ->
  (forall s' e, rows x t !! s' = Some e -> s < s') ->
  (window_size (advance_settled core x t) t <= size A)%nat.
Proof.
  intros Hc HA Hb Hr. unfold window_size. rewrite (advance_acked core x t c Hc).
  pose proof (settle_floor_ge x t _ s Hr Hb). apply subseteq_size.
  intros s' [Hs' Hin]%elem_of_filter. apply HA, elem_of_union in Hin as [->%elem_of_singleton|?]; [lia|done].
Qed.

Lemma window_room_step core now x t seq h e :
  head (bt_range_lt seq (rows x t)) = Some (h, e) -> h <= settlement_boundary core x t ->
  (window_size (advance_settled core (dead_letter now x t h AckWindowOverflow) t) t <= window_size x t)%nat.
Proof.
  intros Hh Hb. destruct (head_range_lt _ _ _ _ _ Hh) as [He Hlt].
  destruct (dead_letter_Some now x t h AckWindowOverflow e He) as (y & _ & Hy & Heq).
  pose proof (progress_dead_letter now x t h AckWindowOverflow (mk_is_Some _ _ He)) as Hp.
  set (z := dead_letter now x t h AckWindowOverflow) in *.
  assert (cursors z !! t = Some (dead_cursor now x t h AckWindowOverflow e)) as Hz
    by (rewrite Heq; simpl; apply lookup_insert_eq).
  apply (window_absorbs core z t _ h _ Hz).
  - simpl. case_bool_decide; set_solver.
  - rewrite (settlement_boundary_eq core x z t); [done|apply Hp..].
  - intros s' e'. rewrite (pg_rows _ _ _ _ Hp). intros [Hs' Hne]%map_lookup_filter_Some.
    destruct (decide (s' < seq)) as [Hs|]; [|lia].
    assert ((s', e') ∈ bt_range_lt seq (rows x t)) as Hin.
    { apply elem_of_bt_range_lt. unfold key_le, N_key. split_and!; [done|lia|lia]. }
    pose proof (sorted_head_min _ _ _ (bt_range_lt_sorted _ _) Hh Hin) as Hle.
    unfold entry_le, key_le, N_key in Hle. simpl in *.
    assert (s' <> h) by (intros ->; apply Hne; by left). lia.
Qed.

Lemma window_room_loop core now fuel x t seq :
  seq <= settlement_boundary core x t ->
  (window_size (make_ack_window_room_loop core now fuel x t seq) t <= window_size x t)%nat.
Proof.
  revert x. induction fuel as [|fuel IH]; intros x Hb; simpl; [done|].
  destruct (cursors x !! t) as [c|]; [|done]. destruct (window_full c seq); [|done].
  destruct (head (bt_range_lt seq (rows x t))) as [[h e]|] eqn:Hh; [|done].
  destruct (head_range_lt _ _ _ _ _ Hh) as [He Hlt].
  pose proof (make_room_step core now x t h AckWindowOverflow (mk_is_Some _ _ He)) as Hp.
  etrans; [apply IH|eapply window_room_step; [exact Hh|lia]].
  rewrite (settlement_boundary_eq core x); [done|apply Hp..].
Qed.

Lemma window_full_false c seq :
  window_full c seq = false ->
  (size (acked_inbox_seqs c) < ROUTER_ACK_WINDOW)%nat \/
  seq <= settled_inbox_seq c + 1 \/ seq ∈ acked_inbox_seqs c.
Proof.
  unfold window_full. rewrite !andb_false_iff, !bool_decide_eq_false.
  intros [[?|?]|?]; [left; lia|right; left; unfold u64_saturating_add in *; lia|].
  right; right. by apply dec_stable.
Qed.

(** Recording [seq] after room was made keeps the window within its bound. *)
Lemma window_record core now x t id seq :
  inbox_wf x -> is_Some (cursors x !! t) -> has_room x t seq ->
  seq <= settlement_boundary core x t -> (window_size x t <= ROUTER_ACK_WINDOW)%nat ->
  (window_size (advance_settled core
     (retire_pending now (put_cursor x t (record_ack (cursor_entry x t) id seq)) t seq).2 t) t
   <= ROUTER_ACK_WINDOW)%nat.
Proof.
  intros Hx [c Hc] Hroom Hb Hsz. unfold has_room in Hroom. rewrite Hc in Hroom.
  assert (cursor_entry x t = c) as Hce by by apply cursor_entry_Some.
  unfold window_size in Hsz. rewrite Hce in *.
  destruct (record_ack_fields c id seq) as (_ & Hra & _).
  revert Hra. generalize (record_ack c id seq) as c'. intros c' Hra.
  destruct (retire_pending_frame now (put_cursor x t c') t seq) as (Hc4 & Hn4 & Hi4 & _).
  pose proof (retire_pending_rows now (put_cursor x t c') t seq t) as Hr4.
  rewrite decide_True in Hr4 by done.
  revert Hc4 Hn4 Hi4 Hr4. generalize (retire_pending now (put_cursor x t c') t seq).2 as z.
  intros z Hc4 Hn4 Hi4 Hr4. change (rows (put_cursor x t c') t) with (rows x t) in Hr4.
  assert (cursors z !! t = Some c') as Hz by (rewrite Hc4; apply lookup_insert_eq).
  assert (seq <= settlement_boundary core z t) as Hbz
    by (rewrite (settlement_boundary_eq core x z t); done).
  assert ((forall s' e, rows x t !! s' = Some e -> seq <= s') ->
    (window_size (advance_settled core z t) t <= ROUTER_ACK_WINDOW)%nat) as Habs.
  { intros Hge. etrans; [|exact Hsz]. apply (window_absorbs core z t c' seq _ Hz); [by rewrite Hra|done|].
    intros s' e'. rewrite Hr4. intros [Hne He']%lookup_delete_Some. pose proof (Hge _ _ He'). lia. }
  assert (forall A : gset N, acked_inbox_seqs c' ⊆ A -> (size A <= ROUTER_ACK_WINDOW)%nat ->
    (window_size (advance_settled core z t) t <= ROUTER_ACK_WINDOW)%nat) as Hsub.
  { intros A HA HsA. unfold window_size. rewrite (advance_acked core z t c' Hz).
    etrans; [|exact HsA]. apply subseteq_size. intros s' [_ ?]%elem_of_filter. auto. }
  destruct Hroom as [[Hlt|[Hle|Hin]]%window_full_false|Hnone].
  - apply (Hsub ({[ seq ]} ∪ acked_inbox_seqs c)); [by rewrite Hra|].
    rewrite size_union_alt, size_singleton.
    assert (acked_inbox_seqs c ∖ {[ seq ]} ⊆ acked_inbox_seqs c) as Hd%subseteq_size by set_solver. lia.
  - apply Habs. intros s' e' He'. pose proof (wf_settled _ Hx _ _ _ _ Hc He'). lia.
  - apply (Hsub (acked_inbox_seqs c)); [rewrite Hra; set_solver|done].
  - apply Habs. intros s' e' He'. destruct (decide (s' < seq)) as [Hs|]; [|lia].
    rewrite (Hnone _ Hs) in He'. done.
Qed.

Lemma acked_state_window core now x t id seq :
  inbox_wf x -> seq <= settlement_boundary core x t ->
  (window_size x t <= ROUTER_ACK_WINDOW)%nat ->
  (window_size (acked_state core now x t id seq) t <= ROUTER_ACK_WINDOW)%nat.
Proof.
  intros Hx Hb Hsz. unfold acked_state. cbv zeta.
  set (c0 := set_retired_inbox_seqs (cursor_entry x t) []).
  assert (inbox_wf (put_cursor x t c0)) as Hw1
    by (apply (gr_wf core x); [by apply grows_put_cursor|done]).
  assert (window_size (put_cursor x t c0) t = window_size x t) as Hsz1
    by (unfold window_size; by rewrite cursor_entry_put).
  assert (is_Some (cursors (put_cursor x t c0) !! t)) as Hsome by (simpl; rewrite lookup_insert_eq; eauto).
  assert (seq <= settlement_boundary core (put_cursor x t c0) t) as Hb1 by done.
  revert Hw1 Hsz1 Hsome Hb1. generalize (put_cursor x t c0) as x1. intros x1 **.
  destruct (make_room_spec core now x1 t seq) as (ds & Hp & _ & Hroom).
  apply window_record; try done.
  - by apply (grows_make_room core now).
  - by apply Hp.
  - rewrite (settlement_boundary_eq core x1); [done|apply Hp..].
  - etrans; [by apply window_room_loop|lia].
Qed.

End facts.

(** Appending above the settled floor. *)
Lemma append_at_spec x envelope accepted_at :
  let t := target_delivery_id envelope in
  let y := (append_at x envelope accepted_at).2 in
  (forall t', settled_inbox_seq (cursor_entry y t') = settled_inbox_seq (cursor_entry x t') /\
     cur_target (cursor_entry y t') = cur_target (cursor_entry x t')) /\
  incarnations y = incarnations x /\
  (inbox_wf x -> settled_inbox_seq (cursor_entry x t) < default 1 (next_seq x !! t) -> inbox_wf y).
Proof.
  cbv zeta. unfold append_at. cbv zeta. cbn [snd]. set (t := target_delivery_id envelope).
  set (s := default 1 (next_seq x !! t)).
  set (x1 := put_cursor (set_next_seq x (<[t := u64_saturating_add s 1]> (next_seq x))) t
    (set_issued_inbox_seq (cursor_entry x t) s)).
  change (put_cursor _ _ _) with
    (set_pending x1 (<[t := <[s := mkEntry s t envelope]> (rows x1 t)]> (pending x1))).
  set (d := inbox_retain_until envelope accepted_at).
  assert (forall t', settled_inbox_seq (cursor_entry x1 t') = settled_inbox_seq (cursor_entry x t') /\
     cur_target (cursor_entry x1 t') = cur_target (cursor_entry x t')) as Hc1.
  { intros t'. unfold cursor_entry, x1. simpl. destruct (decide (t' = t)) as [->|].
    - by rewrite lookup_insert_eq.
    - by rewrite lookup_insert_ne. }
  assert (inbox_wf x -> inbox_wf x1) as Hw1.
  { intros Hw. apply inbox_wf_put_cursor; [by destruct Hw; split|]. intros s' e'.
    apply (inbox_wf_cursor_entry x t s' e' Hw). }
  destruct (set_deadline_frame (set_pending x1 (<[t := <[s := mkEntry s t envelope]> (rows x1 t)]>
    (pending x1))) t s d) as (_ & Hc & _ & Hi & _).
  split_and!.
  - intros t'. rewrite (cursor_entry_cursors x1); [done|]. by rewrite Hc.
  - by rewrite Hi.
  - intros Hw Hlt. apply (inbox_wf_insert x1 (mkEntry s t envelope) d (Hw1 Hw)); simpl; [lia|].
    by rewrite (proj1 (Hc1 t)).
Qed.

