(* ===== verification/InboxProps.v ===== *)
(** * The opaque device inbox: properties

    The inbox beside a running publication core: every operation of inbox.rs
    interleaves with every publication action, and the receiver's settled floor
    stays below pending deliveries and below unresolved assignments. Then the
    exact effect of acknowledgements, negative acknowledgements, expiry and
    reads, and the bounds on what a cursor retains. *)

From S2P Require Import Prelude OrdMap Ranges Publication PublicationSteps PublicationProps.
From S2P Require Import Wire Inbox InboxFacts.

Open Scope N_scope.

(** ** Definitions used by the statements *)

(** The operations that do not allocate a sequence, on a live inbox. *)
Inductive inbox_op {P} `{!PublicationApi P} (core : option P) (x : OpaqueDeviceInbox)
  : OpaqueDeviceInbox -> Prop :=
| op_ack now ack : inbox_op core x (apply_ack core now x ack).2
| op_ack_target now t ack : inbox_op core x (apply_ack_for_target core now x t ack).2
| op_nack now nack : inbox_op core x (apply_nack core now x nack).2
| op_nack_target now t nack : inbox_op core x (apply_nack_for_target core now x t nack).2
| op_expire now cut : inbox_op core x (expire_entries core now x cut).2
| op_retire now t s : inbox_op core x (retire_pending now x t s).2
| op_settle_pending now t s : inbox_op core x (settle_pending now x t s)
| op_finalize : inbox_op core x (finalize_recovered_settlement core x)
| op_take_checkpoint : inbox_op core x (take_checkpoint_due core x).2
| op_requeue ts : inbox_op core x (requeue_checkpoints x ts)
| op_bound : inbox_op core x (bound_retained_receipts x).

(** A publication core and the inbox of its shard. *)
Inductive sys_step : World * OpaqueDeviceInbox -> World * OpaqueDeviceInbox -> Prop :=
| sys_publication w w' x : step w w' -> sys_step (w, x) (w', x)
| sys_inbox w x x' :
    inbox_op (Some (registry (w_sh w))) x x' -> sys_step (w, x) (w, x')
(** An append whose sequence is a reservation that is still in flight. *)
| sys_append w x allocate envelope accepted_at r x' :
    (forall t id s, allocate t id = Ok s -> exists i l,
       inboxes (registry (w_sh w)) !! mkKey t id = Some i /\ in_flight i !! s = Some l) ->
    append_published (Some (registry (w_sh w))) allocate x envelope accepted_at = (r, x') ->
    sys_step (w, x) (w, x')
| sys_restore_incarnation w x t id :
    incarnations x !! t = None -> sys_step (w, x) (w, restore_incarnation x t id)
| sys_remove w x t : sys_step (w, x) (w, (remove_target x t).2).

(** Start: a publication core as opened, an empty inbox. *)
Inductive sys_reachable : World * OpaqueDeviceInbox -> Prop :=
| sys_init w : initial w -> sys_reachable (w, inbox_new)
| sys_next a b : sys_reachable a -> sys_step a b -> sys_reachable b.

(** The registry invariant the publication core maintains. *)
Definition registry_ok (r : Registry) : Prop :=
  forall key i, inboxes r !! key = Some i -> inbox_inv i.

(** ** The publication core keeps its promises *)

#[export] Instance Registry_laws : PublicationLaws Registry registry_ok.
Proof.
  split; intros r t i; simpl.
  - unfold view, settled_view. by destruct (inboxes r !! mkKey t i).
  - unfold settled_view. destruct (inboxes r !! mkKey t i); simpl; lia.
  - intros g Hr. unfold first_in_flight, settled_view.
    destruct (inboxes r !! mkKey t i) as [ib|] eqn:Hi; [|done]. simpl.
    destruct (bt_first (in_flight ib)) as [[s l]|] eqn:Hf; [|done]. intros [= <-].
    eapply inbox_inv_prefix; [by eapply Hr|]. by eapply bt_first_lookup.
Qed.

Lemma reachable_registry_ok w : reachable w -> registry_ok (registry (w_sh w)).
Proof. intros Hr%reachable_inv key i. apply (wi_inbox _ Hr). Qed.

(** ** The invariant of an inbox beside a core *)

Section node.
Context {P : Type} `{!PublicationApi P} {ok : P -> Prop} `{!PublicationLaws P ok}.
Implicit Types (p : P) (x : OpaqueDeviceInbox).

Record node_inv p x : Prop := {
  ni_wf : inbox_wf x;
  ni_settled t : settled_inbox_seq (cursor_entry x t) <= settlement_boundary (Some p) x t;
}.

Lemma inbox_op_grows core x x' : inbox_wf x -> inbox_op core x x' -> grows core x x'.
Proof.
  intros Hx Ho. destruct Ho; eauto using grows_apply_ack, grows_apply_ack_for_target, grows_apply_nack,
    grows_apply_nack_for_target, grows_retire, grows_settle_pending, grows_finalize,
    grows_take_checkpoint, grows_requeue, grows_bound_retained.
  destruct (expire_entries core now x cut) as [removed y] eqn:E.
  by apply (expire_entries_spec core now cut x removed y Hx) in E as [? _].
Qed.

Lemma node_inv_op p x x' : node_inv p x -> inbox_op (Some p) x x' -> node_inv p x'.
Proof.
  intros [Hw Hs] Ho. apply inbox_op_grows in Ho as [Hg _ Hu Hn Hi _]; [|done].
  split; [auto|]. intros t. specialize (Hu t). specialize (Hs t).
  rewrite (settlement_boundary_eq _ x x' t Hn Hi). lia.
Qed.

Lemma node_inv_core p p' x :
  (forall t id, (pub_settled_view p t id).1 <= (pub_settled_view p' t id).1) ->
  node_inv p x -> node_inv p' x.
Proof.
  intros Hle [Hw Hs]. split; [done|]. intros t. specialize (Hs t).
  unfold settlement_boundary in *. destruct (incarnation_id x t) as [id|]; [|done].
  specialize (Hle t id). lia.
Qed.

(** The floor is below every in-flight assignment. *)
Lemma node_inv_in_flight p x t id g :
  ok p -> node_inv p x -> incarnations x !! t = Some id ->
  pub_first_in_flight p t id = Some g -> settled_inbox_seq (cursor_entry x t) < g.
Proof.
  intros Hok [_ Hs] Hid Hg. specialize (Hs t). unfold settlement_boundary in Hs.
  rewrite Hid in Hs. apply pub_in_flight_above in Hg; [lia|done].
Qed.

Lemma node_inv_append p x allocate envelope accepted_at r x' :
  ok p -> node_inv p x ->
  (forall t id s, allocate t id = Ok s ->
     exists g, pub_first_in_flight p t id = Some g /\ g <= s) ->
  append_published (Some p) allocate x envelope accepted_at = (r, x') -> node_inv p x'.
Proof.
  intros Hok Hn Hal. unfold append_published. set (t := target_delivery_id envelope).
  destruct (incarnation_id x t) as [id|] eqn:Hid; [|by intros [= <- <-]].
  destruct (allocate t id) as [s|e] eqn:Ha; [|by intros [= <- <-]].
  destruct (Hal _ _ _ Ha) as (g & Hg & Hgs).
  pose proof (node_inv_in_flight p x t id g Hok Hn Hid Hg) as Hlt.
  destruct Hn as [Hw Hs].
  destruct (append_at_spec (set_next_seq x (<[t := s]> (next_seq x))) envelope accepted_at)
    as (Hc & Hi & Hwf). fold t in Hwf.
  destruct (append_at (set_next_seq x (<[t := s]> (next_seq x))) envelope accepted_at) as [e y].
  cbn [snd] in *. intros [= <- <-]. split.
  - apply Hwf; [by destruct Hw; split|]. simpl. rewrite lookup_insert_eq. simpl.
    change (cursor_entry (set_next_seq _ _) t) with (cursor_entry x t). lia.
  - intros t'. specialize (Hs t'). rewrite (proj1 (Hc t')).
    change (cursor_entry (set_next_seq _ _) t') with (cursor_entry x t').
    unfold settlement_boundary in *. rewrite Hi. exact Hs.
Qed.
End node.

(** ** The composed system *)

Lemma settled_view_mono w w' t id :
  world_inv w -> step w w' ->
  (settled_view (registry (w_sh w)) t id).1 <= (settled_view (registry (w_sh w')) t id).1.
Proof.
  intros Hw Hs. unfold settled_view.
  destruct (inboxes (registry (w_sh w)) !! mkKey t id) as [i|] eqn:Hi; simpl; [|lia].
  destruct (step_mono w w' Hw Hs _ _ Hi) as (i' & -> & []). done.
Qed.

Lemma in_flight_first r t id i s l :
  inboxes r !! mkKey t id = Some i -> in_flight i !! s = Some l ->
  exists g, first_in_flight r t id = Some g /\ g <= s.
Proof.
  intros Hi Hs. unfold first_in_flight. rewrite Hi. simpl.
  destruct (bt_first (in_flight i)) as [[g l']|] eqn:E.
  - exists g. split; [done|]. by apply (bt_first_min _ _ _ _ _ E Hs).
  - apply bt_first_None in E. rewrite E in Hs. by rewrite lookup_empty in Hs.
Qed.

Lemma inbox_wf_new : inbox_wf inbox_new.
Proof.
  assert (forall t, rows inbox_new t = ∅) as Hr by (intros; unfold rows; simpl; by rewrite lookup_empty).
  split; intros; try done; rewrite Hr, lookup_empty in *; done.
Qed.

Lemma remove_target_rows x t t' :
  rows (remove_target x t).2 t' = if decide (t' = t) then ∅ else rows x t'.
Proof.
  unfold rows. simpl. case_decide; subst; [by rewrite lookup_delete_eq|].
  by rewrite lookup_delete_ne.
Qed.

Lemma inbox_wf_remove x t : inbox_wf x -> inbox_wf (remove_target x t).2.
Proof.
  intros Hx.
  assert (forall t' s, deadline_of (remove_target x t).2 t' s =
    if decide (t' = t) then None else deadline_of x t' s) as Hd.
  { intros t' s. unfold deadline_of. simpl. case_decide; subst;
      by rewrite ?lookup_delete_eq, ?lookup_delete_ne. }
  assert (expiry_ready (remove_target x t).2 = true ->
    expiry_ready x = true /\ retain_until_map x !! t = None /\
    expiry_due (remove_target x t).2 = expiry_due x) as Hr.
  { simpl. case_bool_decide as Hb; [done|]. intros ?. by rewrite <-eq_None_not_Some in Hb. }
  split.
  - intros t' s e. rewrite remove_target_rows. case_decide; [by rewrite lookup_empty|apply Hx].
  - intros t' c s e Hc. rewrite remove_target_rows. case_decide; [by rewrite lookup_empty|].
    simpl in Hc. rewrite lookup_delete_ne in Hc by done. by apply Hx.
  - intros (Hready & Hnone & ->)%Hr d t' s. rewrite Hd, remove_target_rows, (wf_due _ Hx Hready).
    destruct (decide (t' = t)) as [->|Hne]; [|done].
    unfold deadline_of. rewrite Hnone. simpl. naive_solver.
  - intros (Hready & _ & _)%Hr t' s e. rewrite Hd, remove_target_rows.
    case_decide; [by rewrite lookup_empty|]. by apply (wf_deadline _ Hx Hready).
Qed.

Lemma node_inv_remove (r : Registry) x t : node_inv r x -> node_inv r (remove_target x t).2.
Proof.
  intros [Hw Hs]. split; [by apply inbox_wf_remove|]. intros t'. specialize (Hs t').
  unfold settlement_boundary, cursor_entry in *. simpl in *.
  destruct (decide (t' = t)) as [->|]; [rewrite !lookup_delete_eq; simpl; lia|].
  by rewrite !lookup_delete_ne.
Qed.

Lemma node_inv_restore (r : Registry) x t id :
  incarnations x !! t = None -> node_inv r x -> node_inv r (restore_incarnation x t id).
Proof.
  intros Hnone [Hw Hs]. split; [by destruct Hw; split|]. intros t'. specialize (Hs t').
  unfold settlement_boundary, cursor_entry in *. simpl in *.
  destruct (decide (t' = t)) as [->|]; [|by rewrite lookup_insert_ne].
  rewrite Hnone in Hs. lia.
Qed.

Lemma sys_step_inv a b :
  reachable a.1 -> node_inv (registry (w_sh a.1)) a.2 -> sys_step a b ->
  reachable b.1 /\ node_inv (registry (w_sh b.1)) b.2 /\
  forall t id, (settled_view (registry (w_sh a.1)) t id).1 <= (settled_view (registry (w_sh b.1)) t id).1.
Proof.
  intros Hr Hn Hs.
  destruct Hs as [w w' x Hs|w x x' Ho|w x allocate envelope at_ r x' Hal Ha|w x t id Hid|w x t]; simpl in *.
  - assert (forall t id, (settled_view (registry (w_sh w)) t id).1 <= (settled_view (registry (w_sh w')) t id).1) as Hm
      by (intros t id; apply settled_view_mono; [by apply reachable_inv|done]).
    split; [by eapply reachable_step|]. split; [|done]. by eapply node_inv_core.
  - split; [done|]. split; [|done]. by eapply node_inv_op.
  - split; [done|]. split; [|done]. eapply node_inv_append; [by apply reachable_registry_ok|exact Hn| |exact Ha].
    intros t id s (i & l & Hi & Hl)%Hal. by eapply in_flight_first.
  - split; [done|]. split; [|done]. by apply node_inv_restore.
  - split; [done|]. split; [|done]. by apply node_inv_remove.
Qed.

Lemma node_inv_new (r : Registry) : node_inv r inbox_new.
Proof. split; [apply inbox_wf_new|]. intros t. unfold cursor_entry. simpl. rewrite lookup_empty. simpl. lia. Qed.

Lemma sys_reachable_inv a :
  sys_reachable a -> reachable a.1 /\ node_inv (registry (w_sh a.1)) a.2.
Proof.
  induction 1 as [w Hi|a b _ [Hr Hn] Hs]; [split; [by apply reachable_init|apply node_inv_new]|].
  by destruct (sys_step_inv a b Hr Hn Hs) as (? & ? & _).
Qed.

(** The floor is below the pending deliveries and the undecided assignments. *)
Lemma node_inv_floor w x t c :
  reachable w -> node_inv (registry (w_sh w)) x -> cursors x !! t = Some c ->
  (forall s e, rows x t !! s = Some e -> settled_inbox_seq c < s) /\
  (forall l d, heap (w_sh w) !! l = Some d -> k_target (d_key d) = t ->
     incarnations x !! t = Some (k_incarnation (d_key d)) ->
     d_state d <> state_code AcceptedDurable -> d_state d <> state_code AbortedDurable ->
     settled_inbox_seq c < d_seq d).
Proof.
  intros Hr Hn Hc. split.
  { intros s e. by apply (wf_settled _ (ni_wf _ _ Hn)). }
  intros l d Hl Ht Hid H3 H4.
  destruct (in_flight_of_state _ _ _ (reachable_inv _ Hr) Hl H3 H4) as (i & Hi & Hf).
  destruct (d_key d) as [t0 id] eqn:Hk; simpl in *; subst t0.
  destruct (in_flight_first _ _ _ _ _ _ Hi Hf) as (g & Hg & Hle).
  pose proof (node_inv_in_flight _ _ t id g (reachable_registry_ok _ Hr) Hn Hid Hg) as Hlt.
  rewrite (cursor_entry_Some _ _ _ Hc) in Hlt. lia.
Qed.

(** ** Properties *)

(** C19: An acknowledgement removes exactly what it accounts for. A refused one
    changes nothing. An accepted one removes the acknowledged row, whose
    envelope id must match, and the older rows it reports as retired, touches
    no other target, and its cursor accounts for the acknowledged sequence, the
    retired ones and everything accounted for before, so nothing is lost
    silently or offered twice. *)
Theorem apply_ack_exact {P} `{!PublicationApi P} (core : option P) now x t ack :
  let '(r, y) := apply_ack_for_target core now x t ack in
  match r with
  | Err _ => y = x
  | Ok c =>
      exists seq, ack_selector x t ack = Ok seq /\ cursors y !! t = Some c /\
      (forall e, rows x t !! seq = Some e -> envelope_id (en_envelope e) = ack_envelope_id ack) /\
      rows y t = filter (fun p => p.1 ∉ retired_inbox_seqs c) (delete seq (rows x t)) /\
      (forall s, s ∈ retired_inbox_seqs c -> is_Some (rows x t !! s) /\ s < seq) /\
      (forall s, s = seq \/ s ∈ retired_inbox_seqs c \/ disposed (cursor_entry x t) s -> disposed c s) /\
      forall t', t' <> t -> rows y t' = rows x t' /\ cursors y !! t' = cursors x !! t'
  end.
Proof.
  destruct (apply_ack_for_target_cases core now x t ack)
    as [[e ->]|(seq & c & Hsel & Hchk & Heq & Hc)]; [done|]. rewrite Heq.
  destruct (acked_state_effect core now x t (ack_envelope_id ack) seq) as [Hr Ho Hb _ Hd _ _ _ _].
  rewrite (cursor_entry_Some _ _ _ Hc) in *.
  exists seq. split_and!; try done. intros e He. unfold ack_checks in Hchk. rewrite He in Hchk.
  repeat case_match; try done.
Qed.

(** C28: room-making stops. The loop that dead-letters old deliveries for a
    full window always ends by its own exit condition: the window has room for
    the sequence, or no older delivery is pending. It retires only pending
    deliveries older than the sequence. *)
Theorem make_room_terminates {P} `{!PublicationApi P} (core : option P) now x t seq :
  let y := make_ack_window_room core now x t seq in
  has_room y t seq /\
  exists ds, Forall (fun s => s < seq) ds /\ progress x y t ds.
Proof. destruct (make_room_spec core now x t seq) as (ds & ? & ? & ?). eauto. Qed.

(** The out-of-order window is bounded. If the acknowledged sequence is
    within the settlement boundary, a window of at most 1024 entries stays so. *)
Theorem ack_window_bounded {P} `{!PublicationApi P} (core : option P) now x t ack seq c y :
  inbox_wf x -> ack_selector x t ack = Ok seq -> seq <= settlement_boundary core x t ->
  (size (acked_inbox_seqs (cursor_entry x t)) <= ROUTER_ACK_WINDOW)%nat ->
  apply_ack_for_target core now x t ack = (Ok c, y) ->
  (size (acked_inbox_seqs c) <= ROUTER_ACK_WINDOW)%nat.
Proof.
  intros Hx Hsel Hb Hsz Happ.
  destruct (apply_ack_for_target_cases core now x t ack)
    as [[e He]|(seq' & c' & Hsel' & _ & Heq & Hc)]; [congruence|].
  rewrite Hsel in Hsel'. injection Hsel' as <-.
  pose proof (acked_state_window core now x t (ack_envelope_id ack) seq Hx Hb Hsz) as Hw.
  revert Heq Hc Hw. cbv zeta. generalize (acked_state core now x t (ack_envelope_id ack) seq) as z.
  intros z Heq Hc Hw. rewrite Heq in Happ. injection Happ as <- <-.
  unfold window_size in Hw. by rewrite (cursor_entry_Some _ _ _ Hc) in Hw.
Qed.

Lemma nack_selector_Some x t nack seq :
  nack_selector x t nack = Ok (Some seq) ->
  exists e, rows x t !! seq = Some e /\ envelope_id (en_envelope e) = nack_envelope_id nack.
Proof.
  unfold nack_selector. cbv zeta.
  match goal with |- match ?m with _ => _ end = _ -> _ => generalize m as sel end.
  intros [[s|]|e]; [|done|done]. destruct (rows x t !! s) as [entry|] eqn:He; [|done].
  case_decide; [|done]. intros [= <-]. eauto.
Qed.

Lemma filter_one (m : gmap N InboxEntry) s : filter (fun p => p.1 ∉ [s]) m = delete s m.
Proof.
  apply map_eq. intros s'. rewrite map_lookup_filter. destruct (decide (s' = s)) as [->|Hne].
  - rewrite lookup_delete_eq. destruct (m !! s); [|done]. simpl.
    rewrite option_guard_False; [done|]. set_solver.
  - rewrite lookup_delete_ne by done. destruct (m !! s'); [|done]. simpl.
    rewrite option_guard_True; [done|]. set_solver.
Qed.

Lemma nacked_state_below {P} `{!PublicationApi P} (core : option P) now x t c seq reason :
  let attempts := default 0 (nack_attempts c !! seq) + 1 in
  attempts < ROUTER_NACK_RETRY_LIMIT ->
  let y := nacked_state core now x t c seq reason in
  (forall t', rows y t' = rows x t') /\ nack_attempts (cursor_entry y t) !! seq = Some attempts.
Proof.
  cbv zeta. unfold nacked_state. cbv zeta. generalize (default 0 (nack_attempts c !! seq)) as prev.
  intros prev Hlt.
  assert (u32_saturating_add prev 1 = prev + 1) as -> by (unfold u32_saturating_add, U32_MAX; lia).
  rewrite bool_decide_eq_false_2 by lia. split; [done|].
  rewrite cursor_entry_put. apply lookup_insert_eq.
Qed.

Lemma nacked_state_limit {P} `{!PublicationApi P} (core : option P) now x t c seq reason e :
  rows x t !! seq = Some e ->
  ROUTER_NACK_RETRY_LIMIT <= default 0 (nack_attempts c !! seq) + 1 ->
  let y := nacked_state core now x t c seq reason in
  rows y t = delete seq (rows x t) /\ disposed (cursor_entry y t) seq /\
  exists d, last (dead_letters (cursor_entry y t)) = Some d /\ dl_inbox_seq d = seq /\
    dl_envelope_id d = envelope_id (en_envelope e) /\ dl_reason d = Nacked reason.
Proof.
  intros He. cbv zeta. unfold nacked_state. cbv zeta.
  generalize (default 0 (nack_attempts c !! seq)) as prev. intros prev Hge.
  rewrite bool_decide_eq_true_2
    by (unfold u32_saturating_add, U32_MAX in *; lia).
  generalize (set_nack_attempts c (<[seq := u32_saturating_add prev 1]> (nack_attempts c))) as c2.
  intros c2. change (rows x t) with (rows (put_cursor x t c2) t) in *.
  revert He. generalize (put_cursor x t c2) as x2. intros x2 He.
  pose proof (make_room_step core now x2 t seq (Nacked reason) (mk_is_Some _ _ He)) as Hp.
  destruct (dead_letter_Some now x2 t seq (Nacked reason) e He) as (z & _ & _ & Hz).
  split_and!; [by rewrite (pg_rows _ _ _ _ Hp), filter_one|
    apply (pg_disposed _ _ _ _ Hp); left; by apply list_elem_of_singleton|].
  exists (mkDeadLetter seq (envelope_id (en_envelope e)) (Nacked reason) (retain_until now x2 e)).
  split; [|done]. clear Hp. rewrite Hz. unfold advance_settled.
  rewrite advance_settled_through_eq. simpl. rewrite lookup_insert_eq, cursor_entry_put.
  apply last_keep_last. lia.
Qed.

(** A delivery survives two negative acknowledgements, not three. Below
    the limit a NACK keeps every pending row and counts the attempt; the one
    that reaches the limit removes exactly that row, the cursor accounts for
    it, and its dead letter, with the reason, is the newest record. *)
Theorem nack_retry_limit {P} `{!PublicationApi P} (core : option P) now x t nack seq :
  nack_selector x t nack = Ok (Some seq) ->
  let attempts := default 0 (nack_attempts (cursor_entry x t) !! seq) + 1 in
  let y := (apply_nack_for_target core now x t nack).2 in
  (attempts < ROUTER_NACK_RETRY_LIMIT ->
     (forall t', rows y t' = rows x t') /\
     nack_attempts (cursor_entry y t) !! seq = Some attempts) /\
  (ROUTER_NACK_RETRY_LIMIT <= attempts ->
     rows y t = delete seq (rows x t) /\ disposed (cursor_entry y t) seq /\
     exists d, last (dead_letters (cursor_entry y t)) = Some d /\ dl_inbox_seq d = seq /\
       dl_envelope_id d = nack_envelope_id nack /\ dl_reason d = Nacked (nack_reason nack)).
Proof.
  intros Hsel. destruct (nack_selector_Some x t nack seq Hsel) as (e & He & <-).
  cbv zeta. unfold apply_nack_for_target. rewrite Hsel. cbv zeta. cbn [snd].
  assert (nack_attempts (cursor_entry x t) = nack_attempts (record_nack (cursor_entry x t) nack)) as -> by done.
  split; intros Ha; [by apply nacked_state_below|by apply nacked_state_limit].
Qed.

(** Expiry is exact. A sweep at a given time removes the deliveries whose
    retention deadline has passed and no others, whether or not the deadline
    index had been built, and returns exactly the removed ones. *)
Theorem expire_exact {P} `{!PublicationApi P} (core : option P) now cut x :
  inbox_wf x ->
  let '(removed, y) := expire_entries core now x cut in
  inbox_wf y /\
  (forall t s e, rows y t !! s = Some e <->
     rows x t !! s = Some e /\ (cut < retain_until now x e)%Z) /\
  (forall e, e ∈ removed <->
     exists t s, rows x t !! s = Some e /\ (retain_until now x e <= cut)%Z).
Proof.
  intros Hx. destruct (expire_entries core now x cut) as [removed y] eqn:E.
  destruct (expire_entries_spec core now cut x removed y Hx E) as (Hg & Hr & Hm).
  split_and!; [by apply Hg|done|done].
Qed.

Lemma row_range_sorted x t after :
  inbox_wf x ->
  StronglySorted (fun a b => inbox_seq a < inbox_seq b) (bt_range_gt after (rows x t)).*2.
Proof.
  intros Hx.
  assert (forall s e, (s, e) ∈ bt_range_gt after (rows x t) -> inbox_seq e = s) as Hseq.
  { intros s e (He & _)%elem_of_bt_range_gt. by apply (wf_row _ Hx t). }
  pose proof (sorted_strict _ (bt_range_gt_sorted (rows x t) after)
    (NoDup_filter_fst _ _ (NoDup_bt_keys (rows x t)))) as Hs.
  revert Hseq Hs. generalize (bt_range_gt after (rows x t)) as l.
  induction l as [|[s e] l IH]; intros Hseq Hs; simpl; [constructor|].
  apply StronglySorted_inv in Hs as [Hs Hall].
  constructor; [apply IH; [intros; apply Hseq; by right|done]|].
  rewrite Forall_forall in Hall. apply Forall_forall. intros e' ([s' e''] & -> & Hin)%list_elem_of_fmap. simpl.
  destruct (Hall _ Hin) as [Hle Hne]. unfold key_le, N_key in Hle. simpl in *.
  rewrite (Hseq s e) by (by left). rewrite (Hseq s' e'') by (by right). lia.
Qed.

(** A read returns the published pending deliveries. In ascending order
    and at most [limit] of them, every returned entry is pending, after the
    given position and inside the published prefix, and none is skipped: one
    that is missing comes after all returned ones and the limit was reached. *)
Theorem pull_after_exact {P} `{!PublicationApi P} (core : option P) x t after limit :
  inbox_wf x ->
  let l := pull_after core x t after limit in
  StronglySorted (fun a b => inbox_seq a < inbox_seq b) l /\ (length l <= limit)%nat /\
  (forall e, e ∈ l -> rows x t !! inbox_seq e = Some e /\
     after < inbox_seq e <= published_limit core x t) /\
  (forall s e, rows x t !! s = Some e -> after < s <= published_limit core x t ->
     e ∈ l \/ length l = limit /\ Forall (fun e' => inbox_seq e' < s) l).
Proof.
  intros Hx. cbv zeta.
  set (f := fun e => bool_decide (inbox_seq e <= published_limit core x t)).
  assert (pull_after core x t after limit =
    take limit (take_while f (bt_range_gt after (rows x t)).*2)) as ->.
  { unfold pull_after, rows. destruct (pending x !! t); [done|]. simpl.
    by destruct limit. }
  pose proof (row_range_sorted x t after Hx) as Hs.
  assert (forall a b, inbox_seq a < inbox_seq b -> f b = true -> f a = true) as Hmono.
  { unfold f. intros a b ? ?%bool_decide_eq_true. apply bool_decide_eq_true. lia. }
  assert (forall e, e ∈ take_while f (bt_range_gt after (rows x t)).*2 <->
    rows x t !! inbox_seq e = Some e /\ after < inbox_seq e <= published_limit core x t) as Hin.
  { intros e. rewrite (elem_of_take_while _ f _ e Hs Hmono), list_elem_of_fmap. unfold f.
    rewrite bool_decide_eq_true. split.
    - intros [([s e'] & -> & (He & Hle & Hne)%elem_of_bt_range_gt) ?]. simpl.
      destruct (wf_row _ Hx _ _ _ He) as (Hse & _ & _). unfold key_le, N_key in Hle. simpl in *.
      rewrite Hse in *. split; [done|lia].
    - intros [He ?]. split; [|lia]. exists (inbox_seq e, e). split; [done|].
      apply elem_of_bt_range_gt. unfold key_le, N_key. split; [done|lia]. }
  pose proof (take_while_sorted _ f _ Hs) as Hs'.
  split_and!; [by apply StronglySorted_take|rewrite length_take; lia| |].
  - intros e ?%elem_of_take_in. by apply Hin.
  - intros s e He Hb. destruct (wf_row _ Hx _ _ _ He) as (Hse & _ & _). subst s.
    apply (sorted_take_drop _ _ limit e Hs'). by apply Hin.
Qed.

(** Storage is bounded in time. A delivery accepted at server time [now]
    is pending under a fresh row whose deadline is at most seven days later,
    however far in the future the sender dated it. *)
Theorem append_retention x envelope now :
  in_i64 now ->
  let '(entry, y) := append_at x envelope now in
  rows y (target_delivery_id envelope) !! inbox_seq entry = Some entry /\
  exists d, deadline_of y (target_delivery_id envelope) (inbox_seq entry) = Some d /\
    (d <= now + MAX_ENVELOPE_TTL_SECONDS)%Z.
Proof.
  intros Hnow. unfold append_at. cbv zeta. set (t := target_delivery_id envelope). simpl inbox_seq.
  set (s := default 1 (next_seq x !! t)).
  match goal with |- context [set_deadline ?z t s ?d] => generalize (set_deadline_frame z t s d);
    rewrite (set_deadline_lookup z t s d t s); generalize (set_deadline z t s d) as y end.
  cbv zeta. intros y (Hp & _). rewrite decide_True by done. split.
  - unfold rows. rewrite Hp. simpl. rewrite lookup_insert_eq. simpl. by rewrite lookup_insert_eq.
  - eexists. split; [done|]. unfold inbox_retain_until, i64_saturating_add, i64_clamp, in_i64,
      I64_MIN, I64_MAX in *. lia.
Qed.

(** ** What a cursor retains *)

Record receipts_ok (c : CursorAckState) : Prop := {
  ro_recent : (length (recent_ack_ids c) <= ROUTER_ACK_WINDOW)%nat;
  ro_acked : acked_envelope_ids c ⊆ list_to_set (recent_ack_ids c);
  ro_nacked : (size (nacked_envelope_ids c) <= ROUTER_ACK_WINDOW)%nat;
  ro_dead : (length (dead_letters c) <= ROUTER_DEAD_LETTER_LIMIT)%nat;
}.

Definition all_receipts (x : OpaqueDeviceInbox) : Prop :=
  forall t c, cursors x !! t = Some c -> receipts_ok c.

Lemma receipts_new t : receipts_ok (cursor_new t).
Proof. split; simpl; rewrite ?map_size_empty; try apply Nat.le_0_l. set_solver. Qed.

Lemma receipts_entry x t : all_receipts x -> receipts_ok (cursor_entry x t).
Proof.
  intros Hx. unfold cursor_entry. destruct (cursors x !! t) eqn:E; [by eapply Hx|apply receipts_new].
Qed.

Lemma receipts_put x t c : all_receipts x -> receipts_ok c -> all_receipts (put_cursor x t c).
Proof.
  intros Hx Hc t' c'. simpl. intros [[_ <-]|[_ ?]]%lookup_insert_Some; [done|by eapply Hx].
Qed.

Lemma receipts_cursors x y : cursors y = cursors x -> all_receipts x -> all_receipts y.
Proof. intros Heq Hx t c. rewrite Heq. apply Hx. Qed.

Lemma receipts_foldl {A} (f : OpaqueDeviceInbox -> A -> OpaqueDeviceInbox) l x :
  (forall x a, all_receipts x -> all_receipts (f x a)) -> all_receipts x -> all_receipts (foldl f x l).
Proof. intros Hf. revert x. induction l as [|a l IH]; intros x; simpl; auto. Qed.

Lemma receipts_bound c : receipts_ok (bound_receipts c).
Proof. split; simpl; [apply keep_last_length|done|apply bt_shrink_size|apply keep_last_length]. Qed.

Lemma receipts_record_nack c nack : receipts_ok c -> receipts_ok (record_nack c nack).
Proof. intros []. split; simpl; [done|done|apply bt_shrink_size|done]. Qed.

Lemma receipts_record_ack c id seq : receipts_ok c -> receipts_ok (record_ack c id seq).
Proof.
  intros [_ Ha Hn Hd]. unfold record_ack. cbv zeta.
  assert (forall (A : gset string) (l : list string), A ⊆ list_to_set l ->
    A ∖ list_to_set (take (length l - ROUTER_ACK_WINDOW) l) ⊆ list_to_set (keep_last ROUTER_ACK_WINDOW l)) as Hev.
  { intros A l HA. unfold keep_last. generalize (length l - ROUTER_ACK_WINDOW)%nat as n. intros n.
    rewrite <-(take_drop n l), list_to_set_app_L in HA at 1. set_solver. }
  case_decide; split; simpl; try done; try apply keep_last_length.
  - by apply Hev.
  - apply Hev. rewrite list_to_set_app_L. set_solver.
Qed.

Section receipts.
Context {P : Type} `{!PublicationApi P}.
Implicit Types (core : option P) (x : OpaqueDeviceInbox).

Lemma receipts_retire now x t s : all_receipts x -> all_receipts (retire_pending now x t s).2.
Proof. apply receipts_cursors, retire_pending_frame. Qed.

Lemma receipts_advance core x t : all_receipts x -> all_receipts (advance_settled core x t).
Proof.
  intros Hx. unfold advance_settled. rewrite advance_settled_through_eq.
  destruct (cursors x !! t) as [c|] eqn:E; [|done]. apply receipts_put; [done|].
  destruct (Hx _ _ E). split; simpl; [done| |apply bt_shrink_size|done].
  etrans; [apply bs_shrink_subseteq|done].
Qed.

Lemma receipts_dead_letter now x t s reason :
  all_receipts x -> all_receipts (dead_letter now x t s reason).
Proof.
  intros Hx. destruct (rows x t !! s) as [e|] eqn:He; [|by rewrite dead_letter_None].
  destruct (dead_letter_Some now x t s reason e He) as (y & _ & Hy & ->).
  eapply receipts_cursors; [done|]. apply receipts_put.
  - eapply receipts_cursors; [apply Hy|done].
  - destruct (receipts_entry x t Hx). split; simpl; try done. apply keep_last_length.
Qed.

Lemma receipts_make_room core now fuel x t seq :
  all_receipts x -> all_receipts (make_ack_window_room_loop core now fuel x t seq).
Proof.
  revert x. induction fuel as [|fuel IH]; intros x Hx; simpl; [done|].
  repeat case_match; try done. by apply IH, receipts_advance, receipts_dead_letter.
Qed.

Lemma receipts_ack_target core now x t ack :
  all_receipts x -> all_receipts (apply_ack_for_target core now x t ack).2.
Proof.
  intros Hx. unfold apply_ack_for_target. repeat case_match; try done. cbn [snd]. unfold acked_state. cbv zeta.
  apply receipts_advance, receipts_retire.
  match goal with |- context [make_ack_window_room core now ?z t ?s] =>
    assert (all_receipts (make_ack_window_room core now z t s)) as Hz end.
  { apply receipts_make_room, receipts_put; [done|]. by destruct (receipts_entry x t Hx). }
  apply receipts_put; [done|]. by apply receipts_record_ack, receipts_entry.
Qed.

Lemma receipts_nack_target core now x t nack :
  all_receipts x -> all_receipts (apply_nack_for_target core now x t nack).2.
Proof.
  intros Hx. unfold apply_nack_for_target.
  destruct (nack_selector x t nack) as [[seq|]|e]; [| |done]; cbn [snd]; cbv zeta.
  - unfold nacked_state. cbv zeta.
    match goal with |- context [put_cursor x t ?c] =>
      assert (all_receipts (put_cursor x t c)) as Hz end.
    { apply receipts_put; [done|].
      by destruct (receipts_record_nack _ nack (receipts_entry x t Hx)). }
    case_bool_decide; [|done]. by apply receipts_advance, receipts_dead_letter.
  - apply receipts_put; [done|]. by apply receipts_record_nack, receipts_entry.
Qed.

Lemma receipts_expire_loop now cut fuel x removed touched :
  all_receipts x -> all_receipts (expire_loop now fuel x cut removed touched).1.1.
Proof.
  revert x removed touched. induction fuel as [|fuel IH]; intros x removed touched Hx; simpl; [done|].
  destruct (bs_first (expiry_due x)) as [[[d t] s]|]; [|done]. case_decide; [done|].
  destruct (retire_pending now _ t s) as [o y] eqn:E. apply IH.
  pose proof (receipts_retire now (set_expiry_due x (bs_pop_first (expiry_due x))) t s) as Hr.
  rewrite E in Hr. by apply Hr.
Qed.

Lemma receipts_expire core now cut x : all_receipts x -> all_receipts (expire_entries core now x cut).2.
Proof.
  intros Hx. unfold expire_entries.
  assert (all_receipts (ensure_expiry_index now x)) as Hi
    by (unfold ensure_expiry_index; by destruct (expiry_ready x)).
  revert Hi. generalize (ensure_expiry_index now x) as x1. intros x1 Hi.
  pose proof (receipts_expire_loop now cut (size (expiry_due x1)) x1 [] ∅ Hi) as Hl.
  destruct (expire_loop _ _ _ _ _ _) as [[x2 removed] touched]. simpl in *.
  apply receipts_foldl; [|done]. intros y t Hy. unfold expire_touched.
  apply (receipts_advance core y t) in Hy. revert Hy. generalize (advance_settled core y t) as z.
  intros z Hz. destruct (cursors z !! t) as [c|] eqn:E; [|done].
  apply (receipts_put z t); [done|]. destruct (Hz _ _ E). split; simpl; try done.
  etrans; [apply length_filter|done].
Qed.
End receipts.

Lemma receipts_op {P} `{!PublicationApi P} (core : option P) x x' :
  inbox_op core x x' -> all_receipts x -> all_receipts x'.
Proof.
  intros Ho Hx. destruct Ho; eauto using receipts_ack_target, receipts_nack_target,
    receipts_expire, receipts_retire.
  - unfold apply_ack. destruct (target_for_envelope x _); [by apply receipts_ack_target|].
    by destruct (list_find _ _) as [[]|].
  - unfold apply_nack. destruct (target_for_envelope x _); [by apply receipts_nack_target|].
    destruct (list_find _ _) as [[]|]; [done|]. by destruct (list_find _ _) as [[]|].
  - unfold settle_pending. apply receipts_put; [by apply receipts_retire|].
    pose proof (receipts_entry _ t (receipts_retire now x t s Hx)) as []. case_bool_decide; by split.
  - apply receipts_foldl; [|done]. intros y t Hy. cbv beta zeta. case_decide;
      by apply (receipts_advance core y t).
  - unfold take_checkpoint_due. assert (all_receipts (set_checkpoint_due x ∅)) as Hy by done.
    revert Hy. generalize (set_checkpoint_due x ∅) as y. generalize (@nil CursorAckState) as acc.
    induction (bs_elems (checkpoint_due x)) as [|t l IH]; intros acc y Hy; simpl; [done|].
    by apply IH, receipts_advance.
  - apply receipts_foldl; [|done]. intros y t Hy. cbv beta. by case_decide.
  - unfold bound_retained_receipts. apply receipts_foldl; [by intros ??; apply receipts_cursors|].
    intros t c. simpl. rewrite lookup_fmap, fmap_Some. intros (c0 & _ & ->). apply receipts_bound.
Qed.

(** A cursor's memory is bounded. In every reachable state of the composed
    system each cursor holds at most 1024 recent acknowledgement ids, no
    acknowledged id outside of those, at most 1024 NACK receipts and at most
    128 dead letters. *)
Theorem cursor_memory_bounded w x t c :
  sys_reachable (w, x) -> cursors x !! t = Some c -> receipts_ok c.
Proof.
  intros Hr. assert (all_receipts (w, x).2) as Hx; [|by apply Hx].
  induction Hr as [w0 _|a b _ IH Hs]; [intros t' c'; simpl; by rewrite lookup_empty|].
  destruct Hs as [w1 w2 y Hs|w1 y y' Ho|w1 y allocate envelope at_ r y' Hal Ha|w1 y t' id Hid|w1 y t'];
    simpl in *; try done.
  - by eapply receipts_op.
  - unfold append_published in Ha. destruct (incarnation_id y _); [|by injection Ha as _ <-].
    destruct (allocate _ _); [|by injection Ha as _ <-]. injection Ha as _ <-.
    match goal with |- all_receipts (set_deadline ?z ?t ?s ?d) =>
      apply (receipts_cursors z); [apply set_deadline_frame|] end.
    apply receipts_put; [done|].
    match goal with |- receipts_ok (set_issued_inbox_seq (cursor_entry ?z ?t) _) =>
      destruct (receipts_entry z t IH); by split end.
  - intros t0 c0. simpl. intros [_ Hc]%lookup_delete_Some. by eapply IH.
Qed.

(** ** Concrete states *)

Module InboxRun.
Import Run.

Definition signed : SignedFields := mkSigned "k" Ed25519 "s".
Definition envelope_at (id : string) (created : Z) : Envelope :=
  mkEnvelope "v" 1 "d" ∅ signed id "p" "dev" "bob" None OpaqueEvent Normal 60 created "c" "h".
Definition envelope (id : string) : Envelope := envelope_at id 100.
Definition ack (id : string) (seq : N) : Ack :=
  mkAck "v" 1 "d" {[ "inbox_seq" := VPosInt seq ]} signed "a" id "dev" 0 None.
Definition nack (id : string) (seq : N) : Nack :=
  mkNack "v" 1 "d" {[ "inbox_seq" := VPosInt seq ]} signed "n" id "dev" RateLimited 0 None None None.

(** An offline inbox with three deliveries. *)
Definition x3 : OpaqueDeviceInbox :=
  let x := (append_at inbox_new (envelope "m1") 100).2 in
  let x := (append_at x (envelope "m2") 110).2 in
  (append_at x (envelope_at "m3" 150) 150).2.

(** The composed system: the third assignment of [Run.w6] is appended. *)
Definition allocate (t id : string) : result NodeCoreError N :=
  if decide (t = "bob" /\ id = "inc") then Ok 3 else Err (Redb "no reservation").
Definition y1 : OpaqueDeviceInbox := restore_incarnation inbox_new "bob" "inc".
Definition y2 : OpaqueDeviceInbox :=
  (append_published (Some (registry (w_sh w6))) allocate y1 (envelope "m3") 100).2.

Lemma y2_reachable : sys_reachable (w6, y2).
Proof.
  assert (forall a, reachable a -> sys_reachable (a, inbox_new)) as Hrea.
  { induction 1; [by apply sys_init|]. eapply sys_next; [done|]. by apply sys_publication. }
  eapply (sys_next (w6, y1)).
  - eapply sys_next; [apply Hrea, w6_reachable|]. by apply sys_restore_incarnation.
  - apply (sys_append w6 y1 allocate (envelope "m3") 100 (Ok (mkEntry 3 "bob" (envelope "m3")))).
    + unfold allocate. intros t id s. case_decide as Hk; [|done]. destruct Hk as [-> ->]. intros [= <-].
      exists (inbox_of w6), 2. by vm_compute.
    + by vm_compute.
Qed.

End InboxRun.

Import Run InboxRun.

Lemma inbox_wf_x3 : inbox_wf x3.
Proof.
  unfold x3. repeat (apply append_at_spec; [|by vm_compute]). apply inbox_wf_new.
Qed.

Lemma ack_window_bounded_witness :
  let p := apply_ack_for_target (P:=Registry) None 0 x3 "bob" (ack "m2" 2) in
  is_ok p.1 = true /\
  (size (acked_inbox_seqs (cursor_entry p.2 "bob")) <= ROUTER_ACK_WINDOW)%nat.
Proof.
  split; [by vm_compute|].
  apply (ack_window_bounded (P:=Registry) None 0 x3 "bob" (ack "m2" 2) 2 _
    (apply_ack_for_target (P:=Registry) None 0 x3 "bob" (ack "m2" 2)).2 inbox_wf_x3);
    [by vm_compute..|vm_compute; lia|by vm_compute].
Defined.

Lemma nack_retry_limit_witness :
  let y := (apply_nack_for_target (P:=Registry) None 0 x3 "bob" (nack "m2" 2)).2 in
  (forall t', rows y t' = rows x3 t') /\ nack_attempts (cursor_entry y "bob") !! 2 = Some 1.
Proof.
  apply (nack_retry_limit (P:=Registry) None 0 x3 "bob" (nack "m2" 2) 2); by vm_compute.
Defined.

Lemma expire_exact_witness :
  let '(removed, y) := expire_entries (P:=Registry) None 0 x3 165 in
  inbox_seq <$> removed = [1; 2] /\ inbox_wf y /\
  (forall t s e, rows y t !! s = Some e <->
     rows x3 t !! s = Some e /\ (165 < retain_until 0 x3 e)%Z).
Proof.
  pose proof (expire_exact (P:=Registry) None 0 165 x3 inbox_wf_x3) as H.
  destruct (expire_entries (P:=Registry) None 0 x3 165) as [removed y] eqn:E.
  destruct H as (Hw & Hr & _). split; [|split; assumption].
  change removed with (removed, y).1. rewrite <-E. by vm_compute.
Defined.

Lemma pull_after_exact_witness :
  inbox_seq <$> pull_after (P:=Registry) None x3 "bob" 1 10 = [2; 3] /\
  (forall e, e ∈ pull_after (P:=Registry) None x3 "bob" 1 10 ->
     rows x3 "bob" !! inbox_seq e = Some e /\ 1 < inbox_seq e <= U64_MAX).
Proof.
  split; [by vm_compute|].
  apply (pull_after_exact (P:=Registry) None x3 "bob" 1 10 inbox_wf_x3).
Defined.

Lemma append_retention_witness :
  rows (append_at x3 (envelope "m4") 200).2 "bob" !! 4 = Some (mkEntry 4 "bob" (envelope "m4")) /\
  exists d, deadline_of (append_at x3 (envelope "m4") 200).2 "bob" 4 = Some d /\
    (d <= 200 + MAX_ENVELOPE_TTL_SECONDS)%Z.
Proof. apply (append_retention x3 (envelope "m4") 200). by vm_compute. Defined.

Lemma cursor_memory_bounded_witness : receipts_ok (cursor_entry y2 "bob").
Proof.
  apply (cursor_memory_bounded w6 y2 "bob" (cursor_entry y2 "bob") y2_reachable). by vm_compute.
Defined.

(** ** A full window behind an unresolved assignment *)

Module Stuck.

(** Assignment 10 of the inbox is unresolved; everything below is published. *)
Definition registry : Registry :=
  mkRegistry {[ mkKey "bob" "inc" := mkInbox false true 2000 9 0 {[ 10 := 0 ]} ∅ ∅ 1 ]} ∅ ∅ ∅.

(** The window holds 1024 sequences. One of them, 5, was acknowledged before
    the assignments under it were resolved and no settlement ran since. *)
Definition window : gset N := {[ 5 ]} ∪ list_to_set (N.of_nat <$> seq 11 1023).

Definition row (s : N) : InboxEntry := mkEntry s "bob" (InboxRun.envelope "m").

Definition inbox : OpaqueDeviceInbox :=
  mkInboxState {[ "bob" := 1043 ]} ∅ {[ "bob" := "inc" ]}
    {[ "bob" := {[ 1040 := row 1040; 1041 := row 1041; 1042 := row 1042 ]} ]}
    {[ "bob" := mkCursor "bob" 1033 None 4 1042 [] ∅ window None ∅ ∅ [] [] ]}
    ∅ ∅ false ∅ ∅.

Lemma registry_is_ok : registry_ok registry.
Proof.
  intros key i. simpl. rewrite lookup_singleton_Some. intros [_ <-].
  split; simpl.
  - by vm_compute.
  - intros s l. rewrite lookup_singleton_Some. intros [<- _]. lia.
  - by vm_compute.
  - by vm_compute.
  - apply ranges_wf_empty.
  - intros n Hn. by apply covers_empty in Hn.
  - intros n res. by rewrite lookup_empty.
  - rewrite map_size_empty. unfold ABORTED_RANGE_CAPACITY. lia.
Qed.

Lemma inbox_is_ok : node_inv registry inbox.
Proof.
  assert (forall t s e, rows inbox t !! s = Some e -> t = "bob" /\ 1040 <= s /\ e = row s) as Hrow.
  { intros t s e. unfold rows, inbox. simpl. destruct (decide (t = "bob")) as [->|].
    - rewrite lookup_singleton_eq. simpl. rewrite !lookup_insert_Some, lookup_singleton_Some.
      intros [[<- <-]|[_ [[<- <-]|[_ [<- <-]]]]]; split_and!; try done; lia.
    - rewrite lookup_singleton_ne by done. simpl. by rewrite lookup_empty. }
  split; [split; try done|].
  - intros t s e (-> & ? & ->)%Hrow. split_and!; try done; lia.
  - intros t c s e. simpl. rewrite lookup_singleton_Some. intros [_ <-] (_ & ? & _)%Hrow. simpl. lia.
  - intros t. unfold cursor_entry, settlement_boundary. simpl.
    destruct (decide (t = "bob")) as [->|].
    + by vm_compute.
    + rewrite !lookup_singleton_ne by done. simpl. lia.
Qed.

End Stuck.

(** C29: Room-making can drop deliveries behind an unresolved assignment. From
    a state satisfying every invariant, with a full window of which settlement
    alone would free an entry, one acknowledgement passes the backpressure
    check, dead-letters two live deliveries that lie behind the unresolved
    assignment, and leaves the window above its bound. *)
Theorem room_made_behind_guard :
  registry_ok Stuck.registry /\ node_inv Stuck.registry Stuck.inbox /\
  first_in_flight Stuck.registry "bob" "inc" = Some 10 /\
  window_size Stuck.inbox "bob" = ROUTER_ACK_WINDOW /\
  (window_size (advance_settled (Some Stuck.registry) Stuck.inbox "bob") "bob" < ROUTER_ACK_WINDOW)%nat /\
  let p := apply_ack_for_target (Some Stuck.registry) 0 Stuck.inbox "bob" (InboxRun.ack "m" 1042) in
  is_ok p.1 = true /\ retired_inbox_seqs (cursor_entry p.2 "bob") = [1040; 1041] /\
  window_size p.2 "bob" = S (S ROUTER_ACK_WINDOW).
Proof.
  split; [apply Stuck.registry_is_ok|]. split; [apply Stuck.inbox_is_ok|].
  split; [by vm_compute|]. split; [by vm_compute|]. split; [vm_compute; lia|].
  cbv zeta. split_and!; by vm_compute.
Qed.
