(* ===== verification/InboxPage.v ===== *)
(** * Resume pages of an inbox

    ramflux-node-core/src/inbox_page.rs: a bounded walk over the published
    mailbox of a target. It merges three ordered streams, the pending rows, the
    dead letters and the aborted ranges, into a page of live entries and known
    losses, within a budget of rows visited and of bytes.

    The three iterators are the lists of their items. The size of a serialised
    record, loss or page is a parameter of the section; [None] is a failed
    serialisation. *)

From S2P Require Import Prelude OrdMap Ranges Publication Wire Inbox.

Open Scope N_scope.

Definition PAGE_BYTE_CAP : N := 1048576 - 65536.

(** What a page reads from the publication core. *)
Class PageApi (P : Type) := pub_page_view : P -> string -> string -> N -> N * N * list (N * N).

#[export] Instance Registry_page_api : PageApi Registry := page_view.

(** ** Data *)

Record PageEntryRecord := mkPageEntry { pe_entry : InboxEntry; pe_retain_until : Z }.

Inductive PageReason := PExpired | PAckWindowOverflow | PNacked | PAborted.

#[export] Instance PageReason_eq_dec : EqDecision PageReason.
Proof. solve_decision. Defined.

Record KnownLoss := mkLoss { from_seq : N; to_seq : N; kl_reason : PageReason }.

Record ResumePage := mkPage {
  frame_type : string;
  pg_target : string;
  pg_incarnation : option string;
  after_inbox_seq : N;
  covered_through_seq : N;
  pg_issued : N;
  settled_through_seq : N;
  entries : list PageEntryRecord;
  known_losses : list KnownLoss;
  oversize_next : option N;
  more : bool;
}.

Inductive PageError := InvalidLimit | CursorAhead | HeaderTooLarge | Serialization.

Record PageRequest := mkPageRequest { pr_target : string; pr_after : N; pr_limit : nat; pr_now : Z }.

(** [ResumePage::empty] *)
Definition page_empty (request : PageRequest) (id : option string) (issued settled : N) : ResumePage :=
  mkPage "resume_page" (pr_target request) id (pr_after request) (N.max (pr_after request) settled)
    issued settled [] [] None false.

Definition set_covered (page : ResumePage) (covered : N) : ResumePage :=
  mkPage (frame_type page) (pg_target page) (pg_incarnation page) (after_inbox_seq page) covered
    (pg_issued page) (settled_through_seq page) (entries page) (known_losses page)
    (oversize_next page) (more page).

Definition set_entries (page : ResumePage) (l : list PageEntryRecord) : ResumePage :=
  mkPage (frame_type page) (pg_target page) (pg_incarnation page) (after_inbox_seq page)
    (covered_through_seq page) (pg_issued page) (settled_through_seq page) l (known_losses page)
    (oversize_next page) (more page).

Definition set_losses (page : ResumePage) (l : list KnownLoss) : ResumePage :=
  mkPage (frame_type page) (pg_target page) (pg_incarnation page) (after_inbox_seq page)
    (covered_through_seq page) (pg_issued page) (settled_through_seq page) (entries page) l
    (oversize_next page) (more page).

Definition set_oversize (page : ResumePage) (seq : N) : ResumePage :=
  mkPage (frame_type page) (pg_target page) (pg_incarnation page) (after_inbox_seq page)
    (covered_through_seq page) (pg_issued page) (settled_through_seq page) (entries page)
    (known_losses page) (Some seq) (more page).

Definition set_more (page : ResumePage) (b : bool) : ResumePage :=
  mkPage (frame_type page) (pg_target page) (pg_incarnation page) (after_inbox_seq page)
    (covered_through_seq page) (pg_issued page) (settled_through_seq page) (entries page)
    (known_losses page) (oversize_next page) b.

(** ** Losses *)

(** The last loss ends right before [from] and has the same reason. *)
Definition merges (page : ResumePage) (from : N) (reason : PageReason) : bool :=
  match last (known_losses page) with
  | Some l => bool_decide (u64_checked_add (to_seq l) 1 = Some from) && bool_decide (kl_reason l = reason)
  | None => false
  end.

Definition add_loss (page : ResumePage) (from to : N) (reason : PageReason) : ResumePage :=
  if merges page from reason then
    match last (known_losses page) with
    | Some l => set_losses page (removelast (known_losses page) ++ [mkLoss (from_seq l) to (kl_reason l)])
    | None => page
    end
  else set_losses page (known_losses page ++ [mkLoss from to reason]).

(** ** Budgeted iterators *)

Inductive Counted (A : Type) := Item (a : A) | Exhausted | BudgetSpent.
Arguments Item {A} a.
Arguments Exhausted {A}.
Arguments BudgetSpent {A}.

Definition item {A} (c : Counted A) : option A := match c with Item a => Some a | _ => None end.
Definition budget_spent {A} (c : Counted A) : bool := match c with BudgetSpent => true | _ => false end.

(** [next_counted]: the item, the iterator after it and the rows visited. *)
Definition next_counted {A} (iter : list A) (visits : nat) : Counted A * list A * nat :=
  if decide (VISIT_CAP <= visits)%nat then (BudgetSpent, iter, visits) else
  match iter with
  | a :: iter => (Item a, iter, S visits)
  | [] => (Exhausted, [], visits)
  end.

(** [seek_rows] *)
Definition seek_rows {V} (rows : option (gmap N V)) (start : N) : list (N * V) :=
  match rows with Some rows => bt_range_gt start rows | None => [] end.

(** The locals of the walk. *)
Record Walk := mkWalk {
  wk_page : ResumePage;
  wk_size : N;
  wk_p : Counted (N * InboxEntry);
  wk_d : Counted (N * DeadLetterRecord);
  wk_a : Counted (N * N);
  wk_pending : list (N * InboxEntry);
  wk_dead : list (N * DeadLetterRecord);
  wk_aborted : list (N * N);
  wk_visits : nat;
}.

(** [[..].into_iter().flatten().min()] *)
Definition min_seq (candidates : list (option N)) : option N :=
  foldr (fun o acc => match o, acc with
    | Some a, Some b => Some (N.min a b)
    | Some a, None => Some a
    | None, acc => acc
    end) None candidates.

Definition next_seq_of (w : Walk) (start : N) : option N :=
  min_seq [fst <$> item (wk_p w); fst <$> item (wk_d w);
           (fun r => N.max r.1 (u64_saturating_add start 1)) <$> item (wk_a w)].

(** The item of a row iterator, if it is at [seq]. *)
Definition at_seq {V} (c : Counted (N * V)) (seq : N) : option V :=
  match c with Item (k, v) => if decide (k = seq) then Some v else None | _ => None end.

Definition page_reason (r : DeadLetterReason) : PageReason :=
  match r with AckWindowOverflow => PAckWindowOverflow | Nacked _ => PNacked end.

(** Move an iterator on when its item is used up. *)
Definition advance_if {A} (used : A -> bool) (c : Counted A) (iter : list A) (visits : nat)
  : Counted A * list A * nat :=
  match c with
  | Item a => if used a then next_counted iter visits else (c, iter, visits)
  | _ => (c, iter, visits)
  end.

Section page.
Context {P : Type} `{!PublicationApi P, !PageApi P}.
Variable core : option P.
Variable server_now : Z.
Variable measure_record : InboxEntry -> Z -> option N.
Variable measure_loss : KnownLoss -> option N.
Variable measure_page : ResumePage -> option N.

Definition measured (size : option N) : result PageError N := ok_or size Serialization.

(** [push_loss]: [None] when the page has no room for the loss. *)
Definition push_loss (page : ResumePage) (from to : N) (reason : PageReason) (size : N)
  : result PageError (option (ResumePage * N)) :=
  if merges page from reason then Ok (Some (add_loss page from to reason, size)) else
  if decide (length (known_losses page) = 64%nat) then Ok None else
  measured (measure_loss (mkLoss U64_MAX U64_MAX reason)) ≫= fun loss_size =>
  let added := loss_size + (if decide (known_losses page = []) then 0 else 1) in
  if decide (PAGE_BYTE_CAP < size + added) then Ok None else
  Ok (Some (add_loss page from to reason, size + added)).

(** [push_entry]: the page, and the new size unless there is no room. *)
Definition push_entry (page : ResumePage) (entry : InboxEntry) (deadline : Z) (header size : N)
  : result PageError (ResumePage * option N) :=
  measured (measure_record entry deadline) ≫= fun record_size =>
  if decide (PAGE_BYTE_CAP < header + record_size)
  then Ok (set_oversize page (inbox_seq entry), None) else
  let added := record_size + (if decide (entries page = []) then 0 else 1) in
  if decide (PAGE_BYTE_CAP < size + added) then Ok (page, None) else
  Ok (set_entries page (entries page ++ [mkPageEntry entry deadline]), Some (size + added)).

Definition worst_header_size (page : ResumePage) : result PageError N :=
  measured (measure_page (mkPage (frame_type page) (pg_target page) (pg_incarnation page) U64_MAX
    U64_MAX U64_MAX U64_MAX (entries page) (known_losses page) (Some U64_MAX) false)).

(** What the page does with sequence [seq] before it moves on: [inl] leaves the
    loop with the page; [inr] goes on, with the last sequence dealt with. *)
Definition visit_seq (x : OpaqueDeviceInbox) (limit : nat) (now : Z) (issued header : N)
    (w : Walk) (page : ResumePage) (seq : N)
  : result PageError (ResumePage + ResumePage * N * N) :=
  let lose (end_ : N) (reason : PageReason) :=
    push_loss page seq end_ reason (wk_size w) ≫= fun pushed =>
    match pushed with
    | None => Ok (inl page)
    | Some (page, size) => Ok (inr (page, size, end_))
    end in
  match at_seq (wk_p w) seq with
  | Some entry =>
      let deadline := retain_until server_now x entry in
      if decide (now < deadline)%Z then
        if decide (length (entries page) = Nat.min limit 256) then Ok (inl page) else
        push_entry page entry deadline header (wk_size w) ≫= fun '(page, room) =>
        match room with
        | None => Ok (inl page)
        | Some size => Ok (inr (page, size, seq))
        end
      else lose seq PExpired
  | None =>
      match at_seq (wk_d w) seq with
      | Some row =>
          if decide (now < dl_retain_until row)%Z then lose seq (page_reason (dl_reason row))
          else Ok (inr (page, wk_size w, seq))
      | None =>
          match item (wk_a w) with
          | Some (_, hi) => lose (N.min hi issued) PAborted
          | None => Ok (inr (page, wk_size w, seq))
          end
      end
  end.

(** One round of the [loop]: [inl] is a [break]. *)
Definition walk_step (x : OpaqueDeviceInbox) (limit : nat) (now : Z) (issued start header : N) (w : Walk)
  : result PageError (ResumePage + Walk) :=
  if budget_spent (wk_p w) || budget_spent (wk_d w) || budget_spent (wk_a w)
  then Ok (inl (wk_page w)) else
  match next_seq_of w start with
  | None => Ok (inl (set_covered (wk_page w) issued))
  | Some seq =>
      if decide (issued < seq) then Ok (inl (set_covered (wk_page w) issued)) else
      let page := set_covered (wk_page w) (N.max (covered_through_seq (wk_page w)) (seq - 1)) in
      visit_seq x limit now issued header w page seq ≫= fun visited =>
      match visited with
      | inl page => Ok (inl page)
      | inr (page, size, end_) =>
          let page := set_covered page end_ in
          let '(p, pending, visits) :=
            advance_if (fun r => bool_decide (r.1 <= end_)) (wk_p w) (wk_pending w) (wk_visits w) in
          let '(d, dead, visits) :=
            advance_if (fun r => bool_decide (r.1 <= end_)) (wk_d w) (wk_dead w) visits in
          let '(a, aborted, visits) :=
            advance_if (fun r => bool_decide (r.2 <= end_)) (wk_a w) (wk_aborted w) visits in
          Ok (inr (mkWalk page size p d a pending dead aborted visits))
      end
  end.

Fixpoint walk (fuel : nat) (x : OpaqueDeviceInbox) (limit : nat) (now : Z) (issued start header : N)
    (w : Walk) : option (result PageError ResumePage) :=
  match fuel with
  | O => None
  | S fuel =>
      match walk_step x limit now issued start header w with
      | Err e => Some (Err e)
      | Ok (inl page) => Some (Ok page)
      | Ok (inr w) => walk fuel x limit now issued start header w
      end
  end.

(** Every round uses up an item or, when the aborted range at hand reaches past
    [issued], adds a loss of which there are at most 64. *)
Definition walk_fuel (w : Walk) : nat :=
  3 + length (wk_pending w) + length (wk_dead w) + length (wk_aborted w) + 65.

Definition build_page (x : OpaqueDeviceInbox) (request : PageRequest) (issued settled : N)
    (aborted : list (N * N)) : option (result PageError ResumePage) :=
  let target := pr_target request in
  if decide (issued < pr_after request) then Some (Err CursorAhead) else
  let page := page_empty request (incarnation_id x target) issued settled in
  match worst_header_size page with
  | Err e => Some (Err e)
  | Ok header =>
      if decide (16 * 1024 < header) then Some (Err HeaderTooLarge) else
      let start := covered_through_seq page in
      let '(p, pending, visits) := next_counted (seek_rows (pending x !! target) start) 0 in
      let '(d, dead, visits) := next_counted (seek_rows (dead_letter_index x !! target) start) visits in
      let '(a, aborted, visits) := next_counted aborted visits in
      let w := mkWalk page header p d a pending dead aborted visits in
      match walk (walk_fuel w) x (pr_limit request) (pr_now request) issued start header w with
      | Some (Ok page) =>
          let page := set_more page (bool_decide (covered_through_seq page < issued)) in
          Some (measured (measure_page page) ≫= fun size =>
                if decide (PAGE_BYTE_CAP < size) then Err Serialization else Ok page)
      | other => other
      end
  end.

(** The published mark, the settled floor and the aborted ranges past the
    start. The stored ranges are sorted, so [partition_point] cuts off the
    leading ranges that end at or before the start. *)
Definition page_source (x : OpaqueDeviceInbox) (target : string) (after : N) : N * N * list (N * N) :=
  match core, incarnation_id x target with
  | Some p, Some id => pub_page_view p target id after
  | _, _ =>
      let issued := issued_sequence x target in
      let settled := match cursor_state x target with
        | Some c => N.min (settled_inbox_seq c) issued
        | None => 0
        end in
      let ranges := default [] (aborted_ranges x !! target) in
      let start := N.max after settled in
      (issued, settled, drop_while (fun r => bool_decide (r.2 <= start)) ranges)
  end.

(** [resume_page]; [None] would be a walk that does not end, which InboxPageProps.v
    excludes. *)
Definition resume_page (x : OpaqueDeviceInbox) (target : string) (after : N) (limit : nat) (now : Z)
  : option (result PageError ResumePage) :=
  if decide (limit = 0%nat) then Some (Err InvalidLimit) else
  let '(issued, settled, ranges) := page_source x target after in
  build_page x (mkPageRequest target after limit now) issued settled ranges.
End page.
