(* ===== verification/InboxPageProps.v ===== *)
(** * Resume pages: theorems

    A page reports exactly what the mailbox holds between its start and the
    sequence it covers: the live deliveries in order, and every loss with its
    reason. The walk ends, the byte accounting is sound, every page moves on
    unless it names the delivery that is too large, and a client that asks for
    page after page collects all live deliveries. *)

From S2P Require Import Prelude OrdMap Ranges Publication PublicationSteps PublicationProps Wire Inbox InboxProps InboxPage.

Open Scope N_scope.

(** ** Ordered streams

    Rows and ranges are lists ordered by their last sequence [hi]. *)

Section streams.
Context {A : Type} (hi : A -> N).

Definition ordered (l : list A) : Prop := StronglySorted (fun a b => hi a < hi b) l.

(** What lies after, and what lies at or before, sequence [c]. *)
Definition later (c : N) (l : list A) : list A := filter (fun a => c < hi a) l.
Definition sofar (c : N) (l : list A) : list A := filter (fun a => hi a <= c) l.

Lemma elem_of_later c l a : a ∈ later c l <-> c < hi a /\ a ∈ l.
Proof. unfold later. by rewrite list_elem_of_filter. Qed.

Lemma later_nil c l a : later c l = [] -> a ∈ l -> hi a <= c.
Proof.
  intros Hl Ha. destruct (decide (c < hi a)) as [Hc|]; [|lia].
  assert (a ∈ later c l) as Hin by by apply elem_of_later. rewrite Hl in Hin. by apply elem_of_nil in Hin.
Qed.

Lemma filter_none (Q : A -> Prop) `{!forall a, Decision (Q a)} (l : list A) :
  (forall a, a ∈ l -> ~ Q a) -> filter Q l = [].
Proof.
  intros HQ. destruct (filter Q l) as [|a k] eqn:E; [done|].
  assert (a ∈ filter Q l) as [Ha Hin]%list_elem_of_filter by (rewrite E; left). by apply HQ in Hin.
Qed.

Lemma filter_all (Q : A -> Prop) `{!forall a, Decision (Q a)} (l : list A) :
  (forall a, a ∈ l -> Q a) -> filter Q l = l.
Proof.
  induction l as [|a l IH]; intros HQ; [done|]. rewrite filter_cons_True by (apply HQ; left).
  f_equal. apply IH. intros b Hb. apply HQ. by right.
Qed.

Lemma ordered_split c l : ordered l -> l = sofar c l ++ later c l.
Proof.
  induction 1 as [|a l Hs IH Hall]; [done|]. unfold sofar, later in *.
  destruct (decide (hi a <= c)) as [Hc|Hc].
  - rewrite filter_cons_True, filter_cons_False by lia. simpl. by f_equal.
  - assert (forall b, b ∈ l -> hi a < hi b) as Hb by by apply Forall_forall.
    rewrite (filter_none (fun b => hi b <= c)), filter_all; [done|..];
      intros b [->|Hin]%elem_of_cons; try (specialize (Hb b Hin)); lia.
Qed.

(** The first item after [c] and the rest. *)
Lemma later_cons c l a tl :
  ordered l -> later c l = a :: tl ->
  (c < hi a /\ a ∈ l) /\ (forall b, b ∈ l -> c < hi b -> b = a \/ b ∈ tl) /\
  (forall b, b ∈ tl -> hi a < hi b /\ b ∈ l).
Proof.
  intros Ho Hl.
  assert (forall b, b ∈ later c l <-> b = a \/ b ∈ tl) as Hin by (intros b; rewrite Hl; apply elem_of_cons).
  assert (ordered (a :: tl)) as [_ Hall]%StronglySorted_inv by (rewrite <- Hl; by apply StronglySorted_filter).
  rewrite Forall_forall in Hall. split_and!.
  - apply (elem_of_later c l a), Hin. by left.
  - apply (elem_of_later c l a), Hin. by left.
  - intros b Hb Hc. apply Hin. by apply elem_of_later.
  - intros b Hb. split; [by apply Hall|]. apply (elem_of_later c l b), Hin. by right.
Qed.

Lemma later_later c e l : c <= e -> later e (later c l) = later e l.
Proof.
  intros Hce. induction l as [|a l IH]; [done|]. unfold later in *.
  destruct (decide (c < hi a)); [rewrite (filter_cons_True _ a l) by done|rewrite (filter_cons_False _ a l) by done].
  - rewrite !filter_cons. by rewrite IH.
  - rewrite IH, filter_cons_False by lia. done.
Qed.

Lemma sofar_later c e l : ordered l -> c <= e -> sofar e l = sofar c l ++ sofar e (later c l).
Proof.
  intros Ho Hce. rewrite (ordered_split c l Ho) at 1. unfold sofar at 1. rewrite filter_app. f_equal.
  apply filter_all. intros a [Ha _]%list_elem_of_filter. lia.
Qed.

(** Going on to [e]: the first item lies after [e], or it is the only one up
    to [e], or there is none. *)
Lemma pass_before c e l a tl :
  ordered l -> later c l = a :: tl -> c <= e -> e < hi a ->
  later e l = a :: tl /\ sofar e l = sofar c l.
Proof.
  intros Ho Hl Hce He. destruct (later_cons c l a tl Ho Hl) as (_ & _ & Htl).
  assert (forall b, b ∈ a :: tl -> e < hi b) as Hall.
  { intros b [->|Hb]%elem_of_cons; [done|]. apply Htl in Hb as [? _]. lia. }
  rewrite <- (later_later c e l Hce), (sofar_later c e l Ho Hce), Hl. split.
  - by apply filter_all.
  - unfold sofar at 2. rewrite filter_none, app_nil_r; [done|]. intros b Hb%Hall. lia.
Qed.

Lemma pass_one c e l a tl :
  ordered l -> later c l = a :: tl -> c <= e -> hi a <= e -> (forall b, b ∈ tl -> e < hi b) ->
  later e l = tl /\ sofar e l = sofar c l ++ [a].
Proof.
  intros Ho Hl Hce He Htl. rewrite <- (later_later c e l Hce), (sofar_later c e l Ho Hce), Hl.
  unfold later, sofar. split.
  - rewrite filter_cons_False by lia. by apply filter_all.
  - f_equal. rewrite filter_cons_True by done. f_equal. apply filter_none. intros b Hb%Htl. lia.
Qed.

Lemma pass_none c e l : c <= e -> later c l = [] -> later e l = [] /\ sofar e l = sofar c l.
Proof.
  intros Hce Hl. split; [by rewrite <- (later_later c e l Hce), Hl|].
  unfold sofar. induction l as [|a l IH]; [done|].
  pose proof (later_nil c (a :: l) a Hl ltac:(left)) as Ha.
  unfold later in Hl. rewrite filter_cons_False in Hl by lia.
  rewrite !filter_cons_True by lia. f_equal. by apply IH.
Qed.

(** *** Budgeted iterators over a stream *)

(** The iterator stands at the first item of [l] after [c]. [cut] are items
    that were never handed to it; there are none unless the budget of visits
    ends before they would be reached. *)
Definition stream (l : list A) (c : N) (cur : Counted A) (iter : list A) (visits : nat) : Prop :=
  exists cut, (cut = [] \/ VISIT_CAP <= visits + length iter)%nat /\
    match cur with
    | Item a => later c l = a :: iter ++ cut
    | Exhausted => later c l = []
    | BudgetSpent => True
    end.

Lemma stream_next l c iter cut visits :
  (cut = [] \/ VISIT_CAP <= visits + length iter)%nat -> later c l = iter ++ cut ->
  let '(cur, iter', visits') := next_counted iter visits in
  stream l c cur iter' visits' /\ (visits <= visits')%nat /\
  (visits' + length iter' = visits + length iter)%nat.
Proof.
  intros Hcut Hl. unfold next_counted. case_decide.
  - split; [|lia]. by exists cut.
  - destruct iter as [|a iter].
    + split; [|done]. destruct Hcut as [->|]; [|simpl in *; lia]. exists []. by split; [left|].
    + split; [|simpl; lia]. exists cut. split; [|done]. simpl in Hcut. destruct Hcut; [by left|right; lia].
Qed.

Lemma stream_visits l c cur iter visits visits' :
  (visits <= visits')%nat -> stream l c cur iter visits -> stream l c cur iter visits'.
Proof. intros Hv (cut & Hcut & H). exists cut. split; [|done]. destruct Hcut; [by left|right; lia]. Qed.

(** Moving on to [e] when at most one item ends between. *)
Lemma stream_advance l c e cur iter visits :
  ordered l -> stream l c cur iter visits -> c <= e ->
  (forall a b, a ∈ l -> b ∈ l -> c < hi a <= e -> c < hi b <= e -> hi a = hi b) ->
  let '(cur', iter', visits') := advance_if (fun a => bool_decide (hi a <= e)) cur iter visits in
  stream l e cur' iter' visits' /\ (visits <= visits')%nat.
Proof.
  intros Ho (cut & Hcut & Hcur) Hce Hone. unfold advance_if. destruct cur as [a| |].
  - destruct (later_cons c l a _ Ho Hcur) as ([Hca Hal] & _ & Htl).
    case_bool_decide as He.
    + destruct (pass_one c e l a _ Ho Hcur Hce He) as [Hl _].
      { intros b Hb. destruct (decide (e < hi b)); [done|]. destruct (Htl b Hb) as [Hab Hbl].
        specialize (Hone a b Hal Hbl). lia. }
      pose proof (stream_next l e iter cut visits Hcut Hl) as Hn.
      destruct (next_counted iter visits) as [[cur' iter'] visits']. naive_solver.
    + split; [|done]. exists cut. split; [done|].
      by destruct (pass_before c e l a _ Ho Hcur Hce) as [? _]; [lia|].
  - split; [|done]. exists cut. split; [done|]. by apply (pass_none c e l).
  - split; [|done]. by exists cut.
Qed.
End streams.

Lemma stream_item {A} (hi : A -> N) l c a iter visits :
  ordered hi l -> stream hi l c (Item a) iter visits ->
  c < hi a /\ a ∈ l /\ forall b, b ∈ l -> c < hi b -> b = a \/ hi a < hi b.
Proof.
  intros Ho (cut & _ & Hl). destruct (later_cons hi c l a _ Ho Hl) as ([Hc Ha] & Hcov & Htl).
  split_and!; [done|done|]. intros b Hb Hcb. destruct (Hcov b Hb Hcb) as [->|Hin]; [by left|].
  right. by apply Htl.
Qed.

Lemma stream_exhausted {A} (hi : A -> N) l c iter visits b :
  stream hi l c Exhausted iter visits -> b ∈ l -> hi b <= c.
Proof. intros (cut & _ & Hl) Hb. by eapply later_nil. Qed.

Lemma min_seq_None l : min_seq l = None -> forall n, Some n ∉ l.
Proof.
  induction l as [|[a|] l IH]; simpl.
  - intros _ n. apply not_elem_of_nil.
  - fold (min_seq l). destruct (min_seq l); discriminate.
  - intros H n [?|?]%elem_of_cons; [done|]. by eapply IH.
Qed.

Lemma min_seq_Some l m :
  min_seq l = Some m <-> Some m ∈ l /\ forall n, Some n ∈ l -> m <= n.
Proof.
  revert m. induction l as [|o l IH]; intros m; simpl.
  - split; [done|]. by intros [?%elem_of_nil _].
  - pose proof (min_seq_None l) as Hnone.
    fold (min_seq l). destruct o as [a|]; [destruct (min_seq l) as [b|] eqn:E|].
    + destruct (proj1 (IH b) eq_refl) as [Hb Hmin]. split.
      * intros [= <-]. split.
        -- destruct (N.min_spec a b) as [[_ ->]|[_ ->]]; [by left|by right].
        -- intros n [[= ->]|Hn]%elem_of_cons; [lia|]. specialize (Hmin n Hn). lia.
      * intros [[[= ->]|Hm]%elem_of_cons Hle]; f_equal.
        -- specialize (Hle b ltac:(by right)). lia.
        -- pose proof (Hle a ltac:(left)). pose proof (Hle b ltac:(by right)). specialize (Hmin m Hm). lia.
    + split.
      * intros [= <-]. split; [left|]. intros n [[= ->]|Hn]%elem_of_cons; [done|]. by eapply Hnone in Hn.
      * intros [[[= ->]|Hm]%elem_of_cons _]; [done|]. by eapply Hnone in Hm.
    + rewrite IH. split; intros [Hm Hle]; (split; [|intros n Hn; apply Hle]).
      * by right.
      * by apply elem_of_cons in Hn as [?|?].
      * by apply elem_of_cons in Hm as [?|?].
      * by right.
Qed.

Lemma key_inj {V} (l : list (N * V)) k v v' :
  ordered fst l -> (k, v) ∈ l -> (k, v') ∈ l -> v = v'.
Proof.
  intros Ho. induction Ho as [|p l Hs IH Hall]; [by intros ?%elem_of_nil|].
  rewrite Forall_forall in Hall. rewrite !elem_of_cons. intros [<-|H1] [Heq|H2].
  - by injection Heq.
  - specialize (Hall _ H2). simpl in Hall. lia.
  - subst p. specialize (Hall _ H1). simpl in Hall. lia.
  - by apply IH.
Qed.

(** ** What a page should say *)

(** The three streams of a walk: ordered, past the start, and disjoint. A range
    of aborted sequences that begins within the published prefix ends there. *)
Record sources (issued start : N) (rows : list (N * InboxEntry)) (dead : list (N * DeadLetterRecord))
    (aborted : list (N * N)) : Prop := {
  so_rows : ordered fst rows;
  so_dead : ordered fst dead;
  so_aborted : ordered snd aborted;
  so_rows_start p : p ∈ rows -> start < p.1;
  so_dead_start p : p ∈ dead -> start < p.1;
  so_range r : r ∈ aborted -> r.1 <= r.2 /\ start < r.2 /\ r.2 <= U64_MAX;
  so_prefix r : r ∈ aborted -> r.1 <= issued -> r.2 <= issued;
  so_apart r r' : r ∈ aborted -> r' ∈ aborted -> r.2 < r'.2 -> r.2 < r'.1;
  so_rows_dead p q : p ∈ rows -> q ∈ dead -> p.1 <> q.1;
  so_rows_aborted p r : p ∈ rows -> r ∈ aborted -> ~ r.1 <= p.1 <= r.2;
  so_dead_aborted p r : p ∈ dead -> r ∈ aborted -> ~ r.1 <= p.1 <= r.2;
}.

(** A loss of the page covers [s]. *)
Definition reports (page : ResumePage) (s : N) (reason : PageReason) : Prop :=
  exists l, l ∈ known_losses page /\ from_seq l <= s <= to_seq l /\ kl_reason l = reason.

Section content.
Variable server_now : Z.
Variable x : OpaqueDeviceInbox.
Variable now : Z.
Variables (issued start : N) (rows : list (N * InboxEntry)) (dead : list (N * DeadLetterRecord))
  (aborted : list (N * N)).
Hypothesis src : sources issued start rows dead aborted.

Definition alive (e : InboxEntry) : Prop := (now < retain_until server_now x e)%Z.

#[global] Instance alive_dec e : Decision (alive e).
Proof. unfold alive. apply _. Defined.

Definition record_of (e : InboxEntry) : PageEntryRecord := mkPageEntry e (retain_until server_now x e).

(** The live deliveries up to [c], in order. *)
Definition live_up_to (c : N) : list PageEntryRecord :=
  record_of <$> filter alive (sofar fst c rows).*2.

(** Sequence [s] is lost for [reason]. *)
Definition lost_at (s : N) (reason : PageReason) : Prop :=
  (exists e, (s, e) ∈ rows /\ ~ alive e /\ reason = PExpired) \/
  (exists row, (s, row) ∈ dead /\ (now < dl_retain_until row)%Z /\ reason = page_reason (dl_reason row)) \/
  (exists r, r ∈ aborted /\ r.1 <= s <= r.2 /\ reason = PAborted).

Record page_exact (page : ResumePage) : Prop := {
  px_start : start <= covered_through_seq page;
  px_issued : covered_through_seq page <= issued;
  px_entries : entries page = live_up_to (covered_through_seq page);
  px_losses s reason : reports page s reason <->
    start < s <= covered_through_seq page /\ lost_at s reason;
  px_nonempty l : l ∈ known_losses page -> from_seq l <= to_seq l /\ to_seq l <= U64_MAX;
}.

(** Nothing happens strictly between [c] and [s]. *)
Definition quiet (c s : N) : Prop :=
  forall n, c < n < s ->
    (forall e, (n, e) ∉ rows) /\ (forall row, (n, row) ∉ dead) /\ forall r, r ∈ aborted -> ~ r.1 <= n <= r.2.

Lemma quiet_lost c s n reason : quiet c s -> c < n < s -> ~ lost_at n reason.
Proof.
  intros Hq Hn. destruct (Hq n Hn) as (Hr & Hd & Ha).
  intros [(e & He & _)|[(row & Hrow & _)|(r & Hin & Hr' & _)]]; [by eapply Hr|by eapply Hd|by eapply Ha].
Qed.

Lemma sofar_quiet {V} (l : list (N * V)) c e :
  ordered fst l -> c <= e -> (forall p, p ∈ l -> ~ c < p.1 <= e) -> sofar fst e l = sofar fst c l.
Proof.
  intros Ho Hce Hq. rewrite (sofar_later fst c e l Ho Hce). unfold sofar at 2.
  rewrite filter_none, app_nil_r; [done|]. intros p [Hc Hp]%elem_of_later He. apply (Hq p Hp). lia.
Qed.

Lemma page_exact_same page page' :
  page_exact page -> covered_through_seq page' = covered_through_seq page -> entries page' = entries page ->
  known_losses page' = known_losses page -> page_exact page'.
Proof.
  intros [Hst His Hen Hlo Hne] Hc He Hl. split; unfold reports in *; rewrite ?Hc, ?He, ?Hl; try done.
Qed.

(** The page may claim to cover more when nothing happens in between. *)
Lemma page_exact_cover page e :
  page_exact page -> covered_through_seq page <= e -> e <= issued -> quiet (covered_through_seq page) (e + 1) ->
  page_exact (set_covered page e).
Proof.
  intros [Hst His Hen Hlo Hne] Hce He Hq. split; cbn; try done; try lia.
  - rewrite Hen. unfold live_up_to.
    rewrite (sofar_quiet rows (covered_through_seq page) e); [done|apply src|done|].
    intros [k v] Hp Hk. destruct (Hq k) as [Hr _]; [cbn in Hk; lia|]. by eapply Hr.
  - intros s reason. unfold reports in *. cbn. rewrite Hlo. split; intros [Hs Hl]; (split; [|done]); [lia|].
    destruct (decide (s <= covered_through_seq page)); [lia|]. exfalso.
    eapply (quiet_lost _ (e + 1) s); [done|lia|done].
Qed.

Lemma merges_last page from reason :
  merges page from reason = true ->
  exists ls l, known_losses page = ls ++ [l] /\ to_seq l + 1 = from /\ kl_reason l = reason.
Proof.
  unfold merges. destruct (last (known_losses page)) as [l|] eqn:Hl; [|done].
  intros [Hadd%bool_decide_eq_true Hr%bool_decide_eq_true]%andb_true_iff.
  apply last_Some in Hl as [ls Hls]. exists ls, l. split_and!; [done| |done].
  revert Hadd. unfold u64_checked_add. case_decide; [by intros [= ->]|done].
Qed.

Definition losses_ok (page : ResumePage) : Prop :=
  forall l, l ∈ known_losses page -> from_seq l <= to_seq l /\ to_seq l <= U64_MAX.

Lemma add_loss_spec page from to reason :
  losses_ok page -> from <= to -> to <= U64_MAX ->
  losses_ok (add_loss page from to reason) /\
  forall s r, reports (add_loss page from to reason) s r <-> reports page s r \/ (from <= s <= to /\ r = reason).
Proof.
  intros Hok Hft Hto. unfold add_loss. destruct (merges page from reason) eqn:Hm.
  - apply merges_last in Hm as (ls & l & Hls & Hfrom & Hreason). unfold losses_ok, reports in *.
    rewrite Hls, last_snoc. cbn. rewrite removelast_last. rewrite Hls in Hok.
    destruct (Hok l) as [Hl _]; [apply elem_of_app; right; by left|]. split.
    + intros k [Hk| ->%list_elem_of_singleton]%elem_of_app; [apply Hok, elem_of_app; by left|]. cbn. lia.
    + intros s r. setoid_rewrite elem_of_app. setoid_rewrite list_elem_of_singleton. split.
      * intros (k & [Hk| ->] & Hs & Hr); [left; exists k; auto|]. cbn in Hs, Hr.
        destruct (decide (s <= to_seq l)); [left; exists l; split_and!; [by right|lia|lia|done]|].
        right. split; [lia|congruence].
      * intros [(k & [Hk| ->] & Hs & Hr)|[Hs ->]].
        -- exists k. auto.
        -- exists (mkLoss (from_seq l) to (kl_reason l)). cbn. split_and!; [by right|lia|lia|done].
        -- exists (mkLoss (from_seq l) to (kl_reason l)). cbn. split_and!; [by right|lia|lia|done].
  - unfold losses_ok, reports in *. cbn. split.
    + intros k [Hk| ->%list_elem_of_singleton]%elem_of_app; [by apply Hok|]. cbn. lia.
    + intros s r. setoid_rewrite elem_of_app. setoid_rewrite list_elem_of_singleton. split.
      * intros (k & [Hk| ->] & Hs & Hr); [left; exists k; auto|]. right. cbn in *. by split.
      * intros [(k & Hk & Hs & Hr)|[Hs ->]]; [exists k; auto|]. exists (mkLoss from to reason). cbn. auto.
Qed.

(** Extending a page over [seq .. e], where all that happens is at [seq] or in
    the range that starts there. *)
Lemma page_exact_extend page page' e :
  page_exact page -> covered_through_seq page <= e -> e <= issued ->
  covered_through_seq page' = e -> entries page' = live_up_to e -> losses_ok page' ->
  (forall s r, reports page' s r <-> reports page s r \/ (covered_through_seq page < s <= e /\ lost_at s r)) ->
  page_exact page'.
Proof.
  intros [Hst His Hen Hlo Hne] Hce He Hc Hen' Hok Hrep. split; rewrite ?Hc; [lia|done|done| |done].
  intros s r. rewrite Hrep, Hlo. split.
  - intros [[Hs Hl]|[Hs Hl]]; (split; [lia|done]).
  - intros [Hs Hl]. destruct (decide (s <= covered_through_seq page)); [left|right]; (split; [lia|done]).
Qed.

Lemma sofar_one {V} (l : list (N * V)) c seq v :
  ordered fst l -> c < seq -> (seq, v) ∈ l -> (forall p, p ∈ l -> c < p.1 <= seq -> p = (seq, v)) ->
  sofar fst seq l = sofar fst c l ++ [(seq, v)].
Proof.
  intros Ho Hc Hin Hone. destruct (later fst c l) as [|p tl] eqn:Hl.
  - pose proof (later_nil fst c l (seq, v) Hl Hin). simpl in *. lia.
  - destruct (later_cons fst c l p tl Ho Hl) as ([Hcp Hpl] & Hcov & Htl).
    destruct (Hcov (seq, v) Hin Hc) as [<-|Htl'].
    + apply (pass_one fst c seq l (seq, v) tl); [done|done|lia|done|].
      intros b Hb. by apply Htl in Hb as [? _].
    + apply Htl in Htl' as [Hlt _]. simpl in Hlt.
      assert (p = (seq, v)) as -> by (apply Hone; [done|lia]). simpl in Hlt. lia.
Qed.
(** *** What happens at a sequence *)

Lemma lost_row seq e reason :
  (seq, e) ∈ rows -> lost_at seq reason <-> ~ alive e /\ reason = PExpired.
Proof.
  intros He. split; [|intros [? ->]; left; by exists e].
  intros [(e' & He' & Hd & Hr)|[(row & Hrow & _)|(r & Hr & Hs & _)]].
  - by rewrite (key_inj rows seq e e' (so_rows _ _ _ _ _ src) He He').
  - by destruct (so_rows_dead _ _ _ _ _ src _ _ He Hrow).
  - by destruct (so_rows_aborted _ _ _ _ _ src _ _ He Hr).
Qed.

Lemma lost_dead seq row reason :
  (seq, row) ∈ dead ->
  lost_at seq reason <-> (now < dl_retain_until row)%Z /\ reason = page_reason (dl_reason row).
Proof.
  intros Hd. split; [|intros [? ->]; right; left; by exists row].
  intros [(e & He & _)|[(row' & Hrow & Hl & Hr)|(r & Hr & Hs & _)]].
  - by destruct (so_rows_dead _ _ _ _ _ src _ _ He Hd).
  - by rewrite (key_inj dead seq row row' (so_dead _ _ _ _ _ src) Hd Hrow).
  - by destruct (so_dead_aborted _ _ _ _ _ src _ _ Hd Hr).
Qed.

Lemma lost_range s r reason : r ∈ aborted -> r.1 <= s <= r.2 -> lost_at s reason <-> reason = PAborted.
Proof.
  intros Hr Hs. split; [|intros ->; right; right; by exists r].
  intros [(e & He & _)|[(row & Hrow & _)|(r' & _ & _ & H)]]; [..|done].
  - by destruct (so_rows_aborted _ _ _ _ _ src _ _ He Hr).
  - by destruct (so_dead_aborted _ _ _ _ _ src _ _ Hrow Hr).
Qed.
End content.

(** ** Sizes

    serde_json writes the elements of an array one after the other, separated
    by commas, and a [u64] with at most as many digits as [u64::MAX]. *)

Definition joined (sizes : list N) : N := foldr N.add 0 sizes + (N.of_nat (length sizes) - 1).

Lemma joined_snoc l n : joined (l ++ [n]) = joined l + n + (if decide (l = []) then 0 else 1).
Proof.
  unfold joined. assert (foldr N.add 0 (l ++ [n]) = foldr N.add 0 l + n) as ->.
  { induction l as [|a l IH]; simpl; [lia|]. rewrite IH. lia. }
  rewrite length_app. simpl. case_decide as Hl; [subst; simpl; lia|].
  destruct l as [|a l]; [done|]. simpl. lia.
Qed.

Lemma fmap_nil_iff {A B} (f : A -> B) l : f <$> l = [] <-> l = [].
Proof. split; [apply fmap_nil_inv|by intros ->]. Qed.

Definition worst_page (page : ResumePage) : ResumePage :=
  mkPage (frame_type page) (pg_target page) (pg_incarnation page) U64_MAX U64_MAX U64_MAX U64_MAX
    [] [] (Some U64_MAX) false.

(** The request and the marks the page repeats. *)
Definition echo (page : ResumePage) : N * N * N :=
  (after_inbox_seq page, pg_issued page, settled_through_seq page).

Lemma add_loss_frame page from to reason :
  worst_page (add_loss page from to reason) = worst_page page /\
  echo (add_loss page from to reason) = echo page /\
  entries (add_loss page from to reason) = entries page /\
  oversize_next (add_loss page from to reason) = oversize_next page.
Proof. unfold add_loss. destruct (merges _ _ _); [|done]. by destruct (last _). Qed.

Section sizes.
Variable measure_record : InboxEntry -> Z -> option N.
Variable measure_loss : KnownLoss -> option N.
Variable measure_page : ResumePage -> option N.

Definition record_size (r : PageEntryRecord) : N := default 0 (measure_record (pe_entry r) (pe_retain_until r)).
Definition loss_size (l : KnownLoss) : N := default 0 (measure_loss (mkLoss U64_MAX U64_MAX (kl_reason l))).

(** The bytes of the two arrays of a page. *)
Definition page_bytes (page : ResumePage) : N :=
  joined (record_size <$> entries page) + joined (loss_size <$> known_losses page).

Record page_sizes : Prop := {
  ps_record e d : is_Some (measure_record e d);
  ps_loss l : exists n, measure_loss l = Some n /\ n <= 128;
  ps_page page : exists n h, measure_page page = Some n /\ measure_page (worst_page page) = Some h /\
    n <= h + page_bytes page;
}.

Lemma page_bytes_entry page r :
  page_bytes (set_entries page (entries page ++ [r])) =
  page_bytes page + (record_size r + (if decide (entries page = []) then 0 else 1)).
Proof.
  unfold page_bytes. cbn [entries set_entries known_losses]. rewrite fmap_app.
  change (record_size <$> [r]) with [record_size r]. rewrite joined_snoc.
  rewrite (decide_ext (record_size <$> entries page = []) (entries page = [])) by apply fmap_nil_iff. lia.
Qed.

Lemma page_bytes_loss page from to reason :
  page_bytes (add_loss page from to reason) =
  page_bytes page + (if merges page from reason then 0
    else default 0 (measure_loss (mkLoss U64_MAX U64_MAX reason)) +
         (if decide (known_losses page = []) then 0 else 1)).
Proof.
  unfold add_loss. destruct (merges page from reason) eqn:Hm.
  - apply merges_last in Hm as (ls & l & Hls & _ & _). rewrite Hls, last_snoc.
    unfold page_bytes. cbn [entries set_losses known_losses].
    by rewrite Hls, removelast_last, !fmap_app, N.add_0_r.
  - unfold page_bytes. cbn [entries set_losses known_losses]. rewrite fmap_app.
    change (loss_size <$> [mkLoss from to reason]) with [loss_size (mkLoss from to reason)].
    rewrite joined_snoc, (decide_ext (loss_size <$> known_losses page = []) (known_losses page = []))
      by apply fmap_nil_iff. unfold loss_size at 2. cbn [kl_reason]. lia.
Qed.
End sizes.

(** ** The walk *)

Section walk.
Variable server_now : Z.
Variable measure_record : InboxEntry -> Z -> option N.
Variable measure_loss : KnownLoss -> option N.
Variable measure_page : ResumePage -> option N.
Hypothesis sizes : page_sizes measure_record measure_loss measure_page.
Variable x : OpaqueDeviceInbox.
Variables (limit : nat) (now : Z) (issued start header : N).
Variables (rows : list (N * InboxEntry)) (dead : list (N * DeadLetterRecord)) (aborted : list (N * N)).
Hypothesis src : sources issued start rows dead aborted.
Hypothesis issued_u64 : issued <= U64_MAX.
Hypothesis limit_pos : (0 < limit)%nat.
Hypothesis header_fits : header <= 16 * 1024.

Notation exact := (page_exact server_now x now issued start rows dead aborted).
Notation bytes := (page_bytes measure_record measure_loss).
Notation lost := (lost_at server_now x now rows dead aborted).

(** What every page on the way satisfies, besides being exact. *)
Record within (empty page : ResumePage) (size : N) : Prop := {
  wt_header : worst_page page = worst_page empty;
  wt_echo : echo page = echo empty;
  wt_size : size = header + bytes page;
  wt_cap : size <= PAGE_BYTE_CAP;
  wt_count : (length (entries page) <= Nat.min limit 256)%nat;
}.

Record walk_inv (empty : ResumePage) (w : Walk) : Prop := {
  wv_exact : exact (wk_page w);
  wv_p : stream fst rows (covered_through_seq (wk_page w)) (wk_p w) (wk_pending w) (wk_visits w);
  wv_d : stream fst dead (covered_through_seq (wk_page w)) (wk_d w) (wk_dead w) (wk_visits w);
  wv_a : stream snd aborted (covered_through_seq (wk_page w)) (wk_a w) (wk_aborted w) (wk_visits w);
  wv_pos : covered_through_seq (wk_page w) = start \/
    forall r, r ∈ aborted -> ~ (r.1 <= covered_through_seq (wk_page w) < r.2);
  wv_within : within empty (wk_page w) (wk_size w);
  wv_oversize : oversize_next (wk_page w) = None;
  wv_first : covered_through_seq (wk_page w) = start ->
    entries (wk_page w) = [] /\ known_losses (wk_page w) = [] /\
    budget_spent (wk_p w) || budget_spent (wk_d w) || budget_spent (wk_a w) = false;
}.

(** A delivery that fits no page. *)
Definition too_large (e : InboxEntry) : Prop :=
  PAGE_BYTE_CAP < header + record_size measure_record (record_of server_now x e).

(** A page the walk ends with. *)
Record finished (empty page : ResumePage) : Prop := {
  fi_exact : exact page;
  fi_within : exists size, within empty page size;
  fi_oversize : oversize_next page = None \/
    exists e, oversize_next page = Some (inbox_seq e) /\ (covered_through_seq page + 1, e) ∈ rows /\
      alive server_now x now e /\ too_large e;
  fi_progress : start < covered_through_seq page \/ covered_through_seq page = issued \/
    oversize_next page <> None;
}.

Lemma next_seq_quiet empty w :
  walk_inv empty w ->
  budget_spent (wk_p w) || budget_spent (wk_d w) || budget_spent (wk_a w) = false ->
  match next_seq_of w start with
  | None => forall s, quiet rows dead aborted (covered_through_seq (wk_page w)) s
  | Some seq => covered_through_seq (wk_page w) < seq /\
      quiet rows dead aborted (covered_through_seq (wk_page w)) seq
  end.
Proof.
  intros [Hex Hp Hd Ha Hpos _ _ _] [[Hsp Hsd]%orb_false_iff Hsa]%orb_false_iff.
  pose proof (px_start _ _ _ _ _ _ _ _ _ Hex) as Hstart.
  set (c := covered_through_seq (wk_page w)) in *. unfold next_seq_of.
  assert (forall n e, (n, e) ∈ rows -> c < n -> exists k, fst <$> item (wk_p w) = Some k /\ k <= n) as HP.
  { intros n e Hin Hn. destruct (wk_p w) as [a| |]; [|pose proof (stream_exhausted _ _ _ _ _ _ Hp Hin); simpl in *; lia|done].
    destruct (stream_item _ _ _ _ _ _ (so_rows _ _ _ _ _ src) Hp) as (_ & _ & Hmin).
    exists a.1. split; [done|]. destruct (Hmin _ Hin Hn) as [<-|]; simpl in *; lia. }
  assert (forall n e, (n, e) ∈ dead -> c < n -> exists k, fst <$> item (wk_d w) = Some k /\ k <= n) as HD.
  { intros n e Hin Hn. destruct (wk_d w) as [a| |]; [|pose proof (stream_exhausted _ _ _ _ _ _ Hd Hin); simpl in *; lia|done].
    destruct (stream_item _ _ _ _ _ _ (so_dead _ _ _ _ _ src) Hd) as (_ & _ & Hmin).
    exists a.1. split; [done|]. destruct (Hmin _ Hin Hn) as [<-|]; simpl in *; lia. }
  assert (forall n r, r ∈ aborted -> r.1 <= n <= r.2 -> c < n ->
    exists k, (fun r => N.max r.1 (u64_saturating_add start 1)) <$> item (wk_a w) = Some k /\ k <= n) as HA.
  { intros n r Hin Hrn Hn. destruct (wk_a w) as [a| |]; [|pose proof (stream_exhausted _ _ _ _ _ _ Ha Hin); simpl in *; lia|done].
    destruct (stream_item _ _ _ _ _ _ (so_aborted _ _ _ _ _ src) Ha) as (_ & Hal & Hmin).
    eexists. split; [reflexivity|]. destruct (so_range _ _ _ _ _ src a Hal) as (Hle & _ & _).
    assert (a.1 <= n); [|unfold u64_saturating_add; lia].
    destruct (Hmin _ Hin) as [<-|Hlt]; [lia|lia|].
    pose proof (so_apart _ _ _ _ _ src a r Hal Hin Hlt). lia. }
  destruct (min_seq _) as [seq|] eqn:Hseq.
  - apply min_seq_Some in Hseq as [Hin Hmin]. split.
    + rewrite !elem_of_cons, elem_of_nil in Hin. destruct Hin as [Hin|[Hin|[Hin|[]]]].
      * destruct (wk_p w) as [a| |]; [|done..]. injection Hin as ->.
        by destruct (stream_item _ _ _ _ _ _ (so_rows _ _ _ _ _ src) Hp).
      * destruct (wk_d w) as [a| |]; [|done..]. injection Hin as ->.
        by destruct (stream_item _ _ _ _ _ _ (so_dead _ _ _ _ _ src) Hd).
      * destruct (wk_a w) as [a| |]; [|done..]. injection Hin as ->.
        destruct (stream_item _ _ _ _ _ _ (so_aborted _ _ _ _ _ src) Ha) as (Hca & Hal & _).
        destruct (so_range _ _ _ _ _ src a Hal) as (_ & Hsa2 & Hu).
        destruct Hpos as [Hpos|Hpos]; [unfold u64_saturating_add; lia|]. specialize (Hpos a Hal). lia.
    + intros n Hn. split_and!.
      * intros e He. destruct (HP n e He) as (k & Hk & Hle); [lia|].
        specialize (Hmin k). rewrite Hk in Hmin. specialize (Hmin ltac:(left)). lia.
      * intros e He. destruct (HD n e He) as (k & Hk & Hle); [lia|].
        specialize (Hmin k). rewrite Hk in Hmin. specialize (Hmin ltac:(right; left)). lia.
      * intros r Hr Hrn. destruct (HA n r Hr Hrn) as (k & Hk & Hle); [lia|].
        specialize (Hmin k). rewrite Hk in Hmin. specialize (Hmin ltac:(right; right; left)). lia.
  - pose proof (min_seq_None _ Hseq) as Hnone. intros s n Hn. split_and!.
    + intros e He. destruct (HP n e He) as (k & Hk & _); [lia|]. apply (Hnone k). rewrite Hk. left.
    + intros e He. destruct (HD n e He) as (k & Hk & _); [lia|]. apply (Hnone k). rewrite Hk. right. left.
    + intros r Hr Hrn. destruct (HA n r Hr Hrn) as (k & Hk & _); [lia|]. apply (Hnone k). rewrite Hk. right. right. left.
Qed.

(** *** Where a round gets to *)

(** The walk may go on from [c] to [e]: it stops inside no aborted range, and
    at most one item of each stream ends in between. *)
Record reached (c e : N) : Prop := {
  re_lt : c < e;
  re_issued : e <= issued;
  re_pos r : r ∈ aborted -> ~ (r.1 <= e < r.2);
  re_rows p q : p ∈ rows -> q ∈ rows -> c < p.1 <= e -> c < q.1 <= e -> p.1 = q.1;
  re_dead p q : p ∈ dead -> q ∈ dead -> c < p.1 <= e -> c < q.1 <= e -> p.1 = q.1;
  re_aborted p q : p ∈ aborted -> q ∈ aborted -> c < p.2 <= e -> c < q.2 <= e -> p.2 = q.2;
}.

Lemma quiet_row c seq p : quiet rows dead aborted c seq -> p ∈ rows -> c < p.1 -> seq <= p.1.
Proof.
  intros Hq Hp Hc. destruct (decide (seq <= p.1)); [done|]. destruct (Hq p.1) as (Hr & _); [lia|].
  destruct p. by destruct (Hr _ Hp).
Qed.

Lemma quiet_dead c seq p : quiet rows dead aborted c seq -> p ∈ dead -> c < p.1 -> seq <= p.1.
Proof.
  intros Hq Hp Hc. destruct (decide (seq <= p.1)); [done|]. destruct (Hq p.1) as (_ & Hd & _); [lia|].
  destruct p. by destruct (Hd _ Hp).
Qed.

Lemma quiet_aborted c seq r : quiet rows dead aborted c seq -> r ∈ aborted -> c < r.2 -> seq <= r.2.
Proof.
  intros Hq Hr Hc. destruct (decide (seq <= r.2)); [done|]. destruct (Hq r.2) as (_ & _ & Ha); [lia|].
  pose proof (so_range _ _ _ _ _ src r Hr). destruct (Ha r Hr). lia.
Qed.

(** A sequence outside every aborted range. *)
Lemma reached_outside c seq :
  c < seq -> seq <= issued -> quiet rows dead aborted c seq ->
  (forall r, r ∈ aborted -> ~ r.1 <= seq <= r.2) -> reached c seq.
Proof.
  intros Hc Hs Hq Hout. split; try done.
  - intros r Hr Hrs. apply (Hout r Hr). lia.
  - intros p q Hp Hq' Hpc Hqc. pose proof (quiet_row c seq p Hq Hp). pose proof (quiet_row c seq q Hq Hq'). lia.
  - intros p q Hp Hq' Hpc Hqc. pose proof (quiet_dead c seq p Hq Hp). pose proof (quiet_dead c seq q Hq Hq'). lia.
  - intros p q Hp _ Hpc _. pose proof (quiet_aborted c seq p Hq Hp). pose proof (so_range _ _ _ _ _ src p Hp).
    destruct (Hout p Hp). lia.
Qed.

(** The end of an aborted range. *)
Lemma reached_range c seq r :
  c < seq -> quiet rows dead aborted c seq -> r ∈ aborted -> r.1 <= seq <= r.2 -> r.2 <= issued ->
  reached c r.2.
Proof.
  intros Hc Hq Hr Hrs Hi.
  assert (forall p, p ∈ rows -> ~ c < p.1 <= r.2) as Hrows.
  { intros p Hp Hpc. pose proof (quiet_row c seq p Hq Hp).
    apply (so_rows_aborted _ _ _ _ _ src p r Hp Hr). lia. }
  assert (forall p, p ∈ dead -> ~ c < p.1 <= r.2) as Hdead.
  { intros p Hp Hpc. pose proof (quiet_dead c seq p Hq Hp).
    apply (so_dead_aborted _ _ _ _ _ src p r Hp Hr). lia. }
  assert (forall p, p ∈ aborted -> c < p.2 <= r.2 -> p.2 = r.2) as Habo.
  { intros p Hp Hpc. pose proof (quiet_aborted c seq p Hq Hp).
    destruct (decide (p.2 = r.2)); [done|]. pose proof (so_apart _ _ _ _ _ src p r Hp Hr). lia. }
  split; [lia|done|..].
  - intros p Hp Hpr. pose proof (so_apart _ _ _ _ _ src r p Hr Hp). lia.
  - intros p q Hp _ Hpc _. by destruct (Hrows p Hp).
  - intros p q Hp _ Hpc _. by destruct (Hdead p Hp).
  - intros p q Hp Hq' Hpc Hqc. rewrite (Habo p), (Habo q); done.
Qed.

(** *** Exactness of the page after a round *)

Notation live := (live_up_to server_now x now rows).

Lemma live_none c e : c <= e -> (forall p, p ∈ rows -> ~ c < p.1 <= e) -> live e = live c.
Proof. intros Hce Hq. unfold live_up_to. by rewrite (sofar_quiet rows c e (so_rows _ _ _ _ _ src) Hce Hq). Qed.

Lemma live_row c e :
  (c + 1, e) ∈ rows ->
  live (c + 1) = live c ++ (if decide (alive server_now x now e) then [record_of server_now x e] else []).
Proof.
  intros He. unfold live_up_to. rewrite (sofar_one rows c (c + 1) e); [|apply src|lia|done|].
  - rewrite fmap_app. cbn [fmap list_fmap snd]. rewrite filter_app, fmap_app.
    unfold filter at 2. simpl. by case_decide.
  - intros [k v] Hp Hk. simpl in Hk. assert (k = c + 1) as -> by lia.
    by rewrite (key_inj rows (c + 1) v e (so_rows _ _ _ _ _ src) Hp He).
Qed.

Lemma exact_live page e :
  exact page -> (covered_through_seq page + 1, e) ∈ rows -> covered_through_seq page + 1 <= issued ->
  alive server_now x now e ->
  exact (set_covered (set_entries page (entries page ++ [record_of server_now x e]))
           (covered_through_seq page + 1)).
Proof.
  intros Hex He Hi Ha.
  apply (page_exact_extend server_now x now issued start rows dead aborted page _ (covered_through_seq page + 1) Hex).
  - lia.
  - done.
  - done.
  - cbn [entries set_covered set_entries].
    by rewrite (live_row _ e He), decide_True, (px_entries _ _ _ _ _ _ _ _ _ Hex).
  - exact (px_nonempty _ _ _ _ _ _ _ _ _ Hex).
  - intros s r. split; [by left|]. intros [H|[Hs Hl]]; [done|].
    assert (s = covered_through_seq page + 1) as -> by lia. by apply (lost_row server_now x now issued start rows dead aborted src _ e r He) in Hl as [? _].
Qed.

Lemma exact_skip page e :
  exact page -> covered_through_seq page <= e -> e <= issued ->
  (forall p, p ∈ rows -> ~ covered_through_seq page < p.1 <= e) ->
  (forall s r, covered_through_seq page < s <= e -> ~ lost s r) ->
  exact (set_covered page e).
Proof.
  intros Hex He Hi Hrows Hlost.
  apply (page_exact_extend server_now x now issued start rows dead aborted page _ e Hex); try done.
  - cbn [entries set_covered]. by rewrite (live_none _ e He Hrows), (px_entries _ _ _ _ _ _ _ _ _ Hex).
  - exact (px_nonempty _ _ _ _ _ _ _ _ _ Hex).
  - intros s r. split; [by left|]. intros [H|[Hs Hl]]; [done|]. by destruct (Hlost s r Hs).
Qed.

Lemma exact_lost page e reason :
  exact page -> covered_through_seq page < e -> e <= issued ->
  live e = live (covered_through_seq page) ->
  (forall s r, covered_through_seq page < s <= e -> lost s r <-> r = reason) ->
  exact (set_covered (add_loss page (covered_through_seq page + 1) e reason) e).
Proof.
  intros Hex He Hi Hlive Hlost.
  destruct (add_loss_spec page (covered_through_seq page + 1) e reason) as [Hok Hrep];
    [exact (px_nonempty _ _ _ _ _ _ _ _ _ Hex)|lia|lia|].
  apply (page_exact_extend server_now x now issued start rows dead aborted page _ e Hex); try done; try lia.
  - cbn [entries set_covered]. rewrite Hlive, <- (px_entries _ _ _ _ _ _ _ _ _ Hex).
    apply add_loss_frame.
  - intros s r. change (reports (set_covered ?p _) s r) with (reports p s r). rewrite Hrep. split.
    + intros [H|[Hs ->]]; [by left|right]. split; [lia|]. apply Hlost; [lia|done].
    + intros [H|[Hs Hl]]; [by left|right]. split; [lia|]. by apply (Hlost s r Hs).
Qed.

(** *** The two pushes *)

Lemma within_empty empty page size :
  within empty page size -> entries page = [] -> known_losses page = [] -> size = header.
Proof. intros [_ _ -> _ _] He Hl. unfold page_bytes. rewrite He, Hl. exact (N.add_0_r header). Qed.

Lemma push_loss_spec empty page from to reason size :
  within empty page size ->
  match push_loss measure_loss page from to reason size with
  | Ok (Some (page', size')) => page' = add_loss page from to reason /\ within empty page' size'
  | Ok None => entries page <> [] \/ known_losses page <> []
  | Err _ => False
  end.
Proof.
  intros Hw. pose proof Hw as [Hh Hec Hsize Hcap Hcount]. unfold push_loss.
  pose proof (page_bytes_loss measure_record measure_loss page from to reason) as Hb.
  destruct (add_loss_frame page from to reason) as (Hw' & Hec' & He' & _).
  destruct (merges page from reason).
  { split; [done|]. split; [by rewrite Hw'|by rewrite Hec'|lia|done|by rewrite He']. }
  destruct (ps_loss _ _ _ sizes (mkLoss U64_MAX U64_MAX reason)) as (n & Hn & Hle).
  rewrite Hn in *. cbn [measured ok_or mbind result_bind default] in *.
  destruct (decide (length _ = 64%nat)) as [H64|_]; [right; intros Hl; by rewrite Hl in H64|].
  destruct (decide (PAGE_BYTE_CAP < _)) as [Hfit|Hfit].
  - destruct (decide (entries page = [])) as [He|]; [|by left]. right. intros Hl.
    rewrite (within_empty _ _ _ Hw He Hl) in Hfit. rewrite decide_True in Hfit by done.
    unfold PAGE_BYTE_CAP in Hfit. lia.
  - split; [done|]. split; [by rewrite Hw'|by rewrite Hec'|simpl in Hb; lia|lia|by rewrite He'].
Qed.

Lemma push_entry_spec empty page e size :
  within empty page size -> (length (entries page) < Nat.min limit 256)%nat ->
  match push_entry measure_record page e (retain_until server_now x e) header size with
  | Ok (page', Some size') =>
      page' = set_entries page (entries page ++ [record_of server_now x e]) /\ within empty page' size'
  | Ok (page', None) =>
      page' = set_oversize page (inbox_seq e) /\ too_large e \/
      page' = page /\ (entries page <> [] \/ known_losses page <> [])
  | Err _ => False
  end.
Proof.
  intros Hw Hlim. pose proof Hw as [Hh Hec Hsize Hcap Hcount]. unfold push_entry.
  pose proof (page_bytes_entry measure_record measure_loss page (record_of server_now x e)) as Hb.
  unfold record_size in Hb. cbn [record_of pe_entry pe_retain_until] in Hb.
  destruct (ps_record _ _ _ sizes e (retain_until server_now x e)) as [n Hn].
  rewrite Hn in *. cbn [measured ok_or mbind result_bind default] in *.
  destruct (decide (PAGE_BYTE_CAP < header + n)).
  { left. split; [done|]. unfold too_large, record_size. cbn [record_of pe_entry pe_retain_until]. by rewrite Hn. }
  destruct (decide (PAGE_BYTE_CAP < _)) as [Hfit|Hfit].
  - right. split; [done|]. destruct (decide (entries page = [])) as [He|]; [|by left]. right. intros Hl.
    by rewrite (within_empty _ _ _ Hw He Hl), N.add_0_r in Hfit.
  - fold (record_of server_now x e). split; [done|]. split; [done|done|rewrite Hb, Hsize; unfold id; lia|lia|].
    cbn [entries set_entries]. rewrite length_app. simpl. lia.
Qed.

(** *** One round *)

Lemma at_seq_in {V} (l : list (N * V)) c cur iter visits seq v :
  ordered fst l -> stream fst l c cur iter visits -> at_seq cur seq = Some v -> (seq, v) ∈ l.
Proof.
  intros Ho Hs. unfold at_seq. destruct cur as [[k v']| |]; [|done..].
  case_decide; [|done]. intros [= ->]. subst k. by destruct (stream_item _ _ _ _ _ _ Ho Hs) as (_ & ? & _).
Qed.

Lemma at_seq_None {V} (cur : Counted (N * V)) seq : at_seq cur seq = None -> Some seq <> fst <$> item cur.
Proof. unfold at_seq. destruct cur as [[k v']| |]; [|done..]. simpl. case_decide; [done|]. congruence. Qed.

Lemma range_at w seq :
  stream snd aborted (covered_through_seq (wk_page w)) (wk_a w) (wk_aborted w) (wk_visits w) ->
  start <= covered_through_seq (wk_page w) ->
  next_seq_of w start = Some seq -> at_seq (wk_p w) seq = None -> at_seq (wk_d w) seq = None ->
  exists r, item (wk_a w) = Some r /\ r ∈ aborted /\ r.1 <= seq <= r.2.
Proof.
  intros Hs Hst [Hin _]%min_seq_Some Hp%at_seq_None Hd%at_seq_None.
  rewrite !elem_of_cons, elem_of_nil in Hin. destruct Hin as [?|[?|[Hin|[]]]]; [done..|].
  destruct (wk_a w) as [r| |]; [|done..]. injection Hin as ->. exists r.
  destruct (stream_item _ _ _ _ _ _ (so_aborted _ _ _ _ _ src) Hs) as (Hc & Hr & _).
  destruct (so_range _ _ _ _ _ src r Hr) as (Hle & Hsr & Hu).
  split_and!; [done|done|lia|]. unfold u64_saturating_add. lia.
Qed.

(** What a round leaves behind: a page to stop with, or the page after it has
    dealt with everything up to [e]. *)
Definition visited (empty : ResumePage) (c seq : N) (v : result PageError (ResumePage + ResumePage * N * N)) : Prop :=
  match v with
  | Ok (inl page) => finished empty page
  | Ok (inr (page, size, e)) =>
      seq <= e /\ reached c e /\ exact (set_covered page e) /\ within empty page size /\ oversize_next page = None
  | Err _ => False
  end.

(** The page stands right before [seq]. *)
Record before (empty : ResumePage) (w : Walk) (page : ResumePage) (seq : N) : Prop := {
  bf_exact : exact page;
  bf_seq : seq = covered_through_seq page + 1;
  bf_within : within empty page (wk_size w);
  bf_oversize : oversize_next page = None;
  bf_first : entries page <> [] \/ known_losses page <> [] -> start < covered_through_seq page;
}.

Lemma stop_before empty w page seq :
  before empty w page seq -> entries page <> [] \/ known_losses page <> [] -> finished empty page.
Proof.
  intros [Hex _ Hw Ho Hf] Hne. split; [done|by exists (wk_size w)|by left|]. left. by apply Hf.
Qed.

Lemma visit_loss empty w page seq c e reason :
  before empty w page seq -> reached c e -> seq <= e -> live e = live (covered_through_seq page) ->
  (forall s r, covered_through_seq page < s <= e -> lost s r <-> r = reason) ->
  visited empty c seq (push_loss measure_loss page seq e reason (wk_size w) ≫= fun pushed =>
    match pushed with
    | None => Ok (inl page)
    | Some (page, size) => Ok (inr (page, size, e))
    end).
Proof.
  intros Hb Hre Hse Hlive Hlost. pose proof (bf_seq _ _ _ _ Hb) as Hseq.
  pose proof (push_loss_spec empty page seq e reason (wk_size w) (bf_within _ _ _ _ Hb)) as Hpush.
  destruct (push_loss _ _ _ _ _ _) as [[[page' size']|]|]; [|by apply (stop_before empty w page seq)|done].
  destruct Hpush as [-> Hw]. cbn [mbind result_bind visited]. split_and!; [done|done| |done|].
  - subst seq. apply (exact_lost page e reason); [apply Hb|lia|apply Hre|done|done].
  - destruct (add_loss_frame page seq e reason) as (_ & _ & _ & ->). apply Hb.
Qed.

Lemma visit_row empty w page seq e c :
  before empty w page seq -> reached c seq -> (seq, e) ∈ rows -> alive server_now x now e ->
  length (entries page) <> Nat.min limit 256 ->
  visited empty c seq
    (push_entry measure_record page e (retain_until server_now x e) header (wk_size w) ≫= fun '(page, room) =>
     match room with
     | None => Ok (inl page)
     | Some size => Ok (inr (page, size, seq))
     end).
Proof.
  intros Hb Hre He Ha Hn. pose proof Hb as [Hex Hseq Hw Ho _].
  pose proof (push_entry_spec empty page e (wk_size w) Hw) as Hpush.
  pose proof (wt_count _ _ _ Hw) as Hcount. specialize (Hpush ltac:(lia)).
  pose proof (re_issued _ _ Hre) as Hi. subst seq.
  destruct (push_entry _ _ _ _ _ _) as [[page' [size'|]]|]; [..|done]; cbn [mbind result_bind visited].
  - destruct Hpush as [-> Hw']. split_and!; [done|done|by apply exact_live|done|done].
  - destruct Hpush as [[-> Hbig]|[-> Hne]].
    + split; [by apply (page_exact_same _ _ _ _ _ _ _ _ page)|exists (wk_size w); by destruct Hw| |by right; right].
      right. exists e. by split_and!.
    + by apply (stop_before empty w page (covered_through_seq page + 1)).
Qed.

Lemma visit_seq_spec empty w page seq c :
  before empty w page seq -> c < seq -> seq <= issued -> quiet rows dead aborted c seq ->
  (forall e, at_seq (wk_p w) seq = Some e -> (seq, e) ∈ rows) ->
  (forall row, at_seq (wk_d w) seq = Some row -> (seq, row) ∈ dead) ->
  (at_seq (wk_p w) seq = None -> at_seq (wk_d w) seq = None ->
   exists r, item (wk_a w) = Some r /\ r ∈ aborted /\ r.1 <= seq <= r.2) ->
  visited empty c seq (visit_seq server_now measure_record measure_loss x limit now issued header w page seq).
Proof.
  intros Hb Hc Hi Hq Hrow Hdead Hrange. pose proof Hb as [Hex Hseq Hw Ho _]. unfold visit_seq.
  destruct (at_seq (wk_p w) seq) as [e|].
  { specialize (Hrow e eq_refl).
    assert (reached c seq) as Hre.
    { apply reached_outside; [done..|]. intros r Hr. exact (so_rows_aborted _ _ _ _ _ src _ r Hrow Hr). }
    case_decide as Halive.
    - case_decide as Hfull; [|by apply visit_row].
      apply (stop_before empty w page seq Hb). left. intros He. rewrite He in Hfull. simpl in Hfull. lia.
    - apply visit_loss; [done|done|lia|..].
      + subst seq. by rewrite (live_row _ e Hrow), decide_False, app_nil_r.
      + intros s r Hs. assert (s = seq) as -> by lia. rewrite (lost_row server_now x now issued start rows dead aborted src seq e r Hrow). naive_solver. }
  destruct (at_seq (wk_d w) seq) as [row|].
  { specialize (Hdead row eq_refl).
    assert (reached c seq) as Hre.
    { apply reached_outside; [done..|]. intros r Hr. exact (so_dead_aborted _ _ _ _ _ src _ r Hdead Hr). }
    assert (forall p, p ∈ rows -> ~ covered_through_seq page < p.1 <= seq) as Hnone.
    { intros p Hp Hps. apply (so_rows_dead _ _ _ _ _ src p _ Hp Hdead). simpl. lia. }
    case_decide as Hkept.
    - apply visit_loss; [done|done|lia|apply live_none; [lia|done]|].
      intros s r Hs. assert (s = seq) as -> by lia. rewrite (lost_dead server_now x now issued start rows dead aborted src seq row r Hdead). naive_solver.
    - split_and!; [done|done| |done|done]. apply exact_skip; [done|lia|done|done|].
      intros s r Hs. assert (s = seq) as -> by lia. rewrite (lost_dead server_now x now issued start rows dead aborted src seq row r Hdead). naive_solver. }
  destruct (Hrange eq_refl eq_refl) as ([lo hi] & -> & Hr & Hrs). cbn [fst snd] in Hrs.
  pose proof (so_prefix _ _ _ _ _ src _ Hr ltac:(simpl; lia)) as Hhi. simpl in Hhi. rewrite N.min_l by done.
  apply visit_loss; [done|exact (reached_range c seq (lo, hi) Hc Hq Hr Hrs Hhi)|lia|apply live_none; [lia|]|].
  - intros p Hp Hps. apply (so_rows_aborted _ _ _ _ _ src p _ Hp Hr). simpl. lia.
  - intros s r Hs. apply (lost_range server_now x now issued start rows dead aborted src s (lo, hi) r Hr). simpl. lia.
Qed.

(** *** The loop *)

Definition weight {A} (cur : Counted A) (iter : list A) : nat :=
  match cur with Item _ => S (length iter) | _ => length iter end.

Definition remaining (w : Walk) : nat :=
  (weight (wk_p w) (wk_pending w) + weight (wk_d w) (wk_dead w) + weight (wk_a w) (wk_aborted w))%nat.

Lemma next_weight {A} (iter : list A) visits :
  let '(cur, iter', _) := next_counted iter visits in weight cur iter' = length iter.
Proof. unfold next_counted. case_decide; [done|]. by destruct iter. Qed.

Lemma advance_weight {A} (used : A -> bool) cur iter visits :
  let '(cur', iter', _) := advance_if used cur iter visits in
  (weight cur' iter' + (if default false (used <$> item cur) then 1 else 0) = weight cur iter)%nat.
Proof.
  unfold advance_if. destruct cur as [a| |]; simpl; [|lia..]. destruct (used a); simpl; [|lia].
  pose proof (next_weight iter visits) as Hn. destruct (next_counted iter visits) as [[??]?]. lia.
Qed.

Lemma before_next empty w seq :
  walk_inv empty w ->
  budget_spent (wk_p w) || budget_spent (wk_d w) || budget_spent (wk_a w) = false ->
  next_seq_of w start = Some seq -> seq <= issued ->
  before empty w (set_covered (wk_page w) (N.max (covered_through_seq (wk_page w)) (seq - 1))) seq /\
  covered_through_seq (wk_page w) < seq /\ quiet rows dead aborted (covered_through_seq (wk_page w)) seq.
Proof.
  intros Hinv Hsp Hnext Hi. pose proof (next_seq_quiet empty w Hinv Hsp) as Hq. rewrite Hnext in Hq.
  destruct Hq as [Hc Hq]. destruct Hinv as [Hex _ _ _ _ Hw Ho Hf]. rewrite N.max_r by lia.
  split_and!; [|done|done]. split.
  - apply page_exact_cover; [done|done|lia|lia|]. by replace (seq - 1 + 1) with seq by lia.
  - cbn [covered_through_seq set_covered]. lia.
  - by destruct Hw.
  - done.
  - intros Hne. cbn in Hne |- *. pose proof (px_start _ _ _ _ _ _ _ _ _ Hex).
    destruct (decide (covered_through_seq (wk_page w) = start)) as [Heq|]; [|lia].
    destruct (Hf Heq) as (He & Hl & _). rewrite He, Hl in Hne. naive_solver.
Qed.

(** A round that goes on uses up an item. *)
Lemma round_uses w c seq e :
  next_seq_of w start = Some seq -> seq <= e -> reached c e ->
  (forall r, item (wk_a w) = Some r -> r ∈ aborted) ->
  default false ((fun r => bool_decide (r.1 <= e)) <$> item (wk_p w)) = true \/
  default false ((fun r => bool_decide (r.1 <= e)) <$> item (wk_d w)) = true \/
  default false ((fun r => bool_decide (r.2 <= e)) <$> item (wk_a w)) = true.
Proof.
  intros [Hin _]%min_seq_Some Hse Hre Ha. rewrite !elem_of_cons, elem_of_nil in Hin.
  destruct Hin as [Hin|[Hin|[Hin|[]]]].
  - left. destruct (item (wk_p w)) as [r|]; [|done]. injection Hin as ->. by apply bool_decide_eq_true.
  - right. left. destruct (item (wk_d w)) as [r|]; [|done]. injection Hin as ->. by apply bool_decide_eq_true.
  - right. right. destruct (item (wk_a w)) as [r|]; [|done]. injection Hin as ->. apply bool_decide_eq_true.
    pose proof (re_pos _ _ Hre r (Ha r eq_refl)). lia.
Qed.

(** The three iterators after a round that got to [e]. *)
Lemma round_inv empty w page size e :
  walk_inv empty w -> reached (covered_through_seq (wk_page w)) e ->
  exact (set_covered page e) -> within empty page size -> oversize_next page = None ->
  let '(p, pending, visits) :=
    advance_if (fun r => bool_decide (r.1 <= e)) (wk_p w) (wk_pending w) (wk_visits w) in
  let '(d, dead, visits) := advance_if (fun r => bool_decide (r.1 <= e)) (wk_d w) (wk_dead w) visits in
  let '(a, aborted, visits) := advance_if (fun r => bool_decide (r.2 <= e)) (wk_a w) (wk_aborted w) visits in
  walk_inv empty (mkWalk (set_covered page e) size p d a pending dead aborted visits).
Proof.
  intros [Hex Hp Hd Ha _ _ _ _] Hre Hex' Hw Ho.
  pose proof (re_lt _ _ Hre) as Hlt. assert (covered_through_seq (wk_page w) <= e) as Hle by lia.
  pose proof (stream_advance fst rows _ e _ _ _ (so_rows _ _ _ _ _ src) Hp Hle (re_rows _ _ Hre)) as Hp'.
  destruct (advance_if _ (wk_p w) _ _) as [[p pending] v1]. destruct Hp' as [Hp' Hv1].
  pose proof (stream_advance fst dead _ e _ _ _ (so_dead _ _ _ _ _ src)
    (stream_visits _ _ _ _ _ _ _ Hv1 Hd) Hle (re_dead _ _ Hre)) as Hd'.
  destruct (advance_if _ (wk_d w) _ _) as [[d dl] v2]. destruct Hd' as [Hd' Hv2].
  pose proof (stream_advance snd aborted _ e _ _ _ (so_aborted _ _ _ _ _ src)
    (stream_visits _ _ _ _ _ _ _ Hv2 (stream_visits _ _ _ _ _ _ _ Hv1 Ha)) Hle (re_aborted _ _ Hre)) as Ha'.
  destruct (advance_if _ (wk_a w) _ _) as [[a ab] v3]. destruct Ha' as [Ha' Hv3].
  pose proof (px_start _ _ _ _ _ _ _ _ _ Hex) as Hst. split; cbn [wk_page wk_p wk_d wk_a wk_pending wk_dead wk_aborted wk_visits
    wk_size covered_through_seq set_covered].
  - done.
  - eapply stream_visits; [|exact Hp']. lia.
  - eapply stream_visits; [|exact Hd']. lia.
  - done.
  - right. apply Hre.
  - by destruct Hw.
  - done.
  - lia.
Qed.

Lemma walk_step_spec empty w :
  walk_inv empty w ->
  match walk_step server_now measure_record measure_loss x limit now issued start header w with
  | Ok (inl page) => finished empty page
  | Ok (inr w') => walk_inv empty w' /\ (remaining w' < remaining w)%nat
  | Err _ => False
  end.
Proof.
  intros Hinv. pose proof Hinv as [Hex Hp Hd Ha Hpos Hw Ho Hf]. unfold walk_step.
  pose proof (px_start _ _ _ _ _ _ _ _ _ Hex) as Hst. pose proof (px_issued _ _ _ _ _ _ _ _ _ Hex) as Hci.
  destruct (_ || _) eqn:Hsp.
  { split; [done|by exists (wk_size w)|by left|]. left.
    destruct (decide (covered_through_seq (wk_page w) = start)) as [Heq|]; [|lia].
    by destruct (Hf Heq) as (_ & _ & Hno). }
  pose proof (next_seq_quiet empty w Hinv Hsp) as Hq.
  assert (quiet rows dead aborted (covered_through_seq (wk_page w)) (issued + 1) ->
    finished empty (set_covered (wk_page w) issued)) as Hdone.
  { intros Hq'. split; [by apply page_exact_cover|by destruct Hw; exists (wk_size w)|by left|by right; left]. }
  destruct (next_seq_of w start) as [seq|] eqn:Hnext; [|by apply Hdone].
  case_decide as Hseq.
  { apply Hdone. intros n Hn. apply (proj2 Hq). lia. }
  destruct (before_next empty w seq Hinv Hsp Hnext) as (Hb & Hc & Hquiet); [lia|].
  pose proof (visit_seq_spec empty w _ seq _ Hb Hc ltac:(lia) Hquiet
    (fun e => at_seq_in rows _ _ _ _ seq e (so_rows _ _ _ _ _ src) Hp)) as Hv.
  specialize (Hv (fun row => at_seq_in dead _ _ _ _ seq row (so_dead _ _ _ _ _ src) Hd)
    (range_at w seq Ha Hst Hnext)).
  destruct (visit_seq _ _ _ _ _ _ _ _ _ _ _) as [[page|[[page size] e]]|]; [done| |done].
  destruct Hv as (Hse & Hre & Hex' & Hw' & Ho').
  pose proof (round_inv empty w page size e Hinv Hre Hex' Hw' Ho') as Hround.
  assert (forall r, item (wk_a w) = Some r -> r ∈ aborted) as Hitem.
  { intros r. destruct (wk_a w) as [r'| |]; [|done..]. intros [= ->].
    by destruct (stream_item _ _ _ _ _ _ (so_aborted _ _ _ _ _ src) Ha) as (_ & ? & _). }
  pose proof (round_uses w _ seq e Hnext Hse Hre Hitem) as Huse.
  pose proof (fun v => advance_weight (fun r => bool_decide (r.1 <= e)) (wk_p w) (wk_pending w) v) as Wp.
  pose proof (fun v => advance_weight (fun r => bool_decide (r.1 <= e)) (wk_d w) (wk_dead w) v) as Wd.
  pose proof (fun v => advance_weight (fun r => bool_decide (r.2 <= e)) (wk_a w) (wk_aborted w) v) as Wa.
  cbn [mbind result_bind]. specialize (Wp (wk_visits w)).
  destruct (advance_if _ (wk_p w) _ _) as [[p pending] v1]. specialize (Wd v1).
  destruct (advance_if _ (wk_d w) _ _) as [[d dl] v2]. specialize (Wa v2).
  destruct (advance_if _ (wk_a w) _ _) as [[a ab] v3]. split; [done|]. unfold remaining.
  cbn [wk_p wk_d wk_a wk_pending wk_dead wk_aborted].
  destruct Huse as [Hu|[Hu|Hu]]; rewrite Hu in *; lia.
Qed.

Lemma walk_spec empty fuel w :
  walk_inv empty w -> (remaining w < fuel)%nat ->
  exists page, walk server_now measure_record measure_loss fuel x limit now issued start header w =
    Some (Ok page) /\ finished empty page.
Proof.
  revert w. induction fuel as [|fuel IH]; intros w Hinv Hfuel; [lia|]. simpl.
  pose proof (walk_step_spec empty w Hinv) as Hs.
  destruct (walk_step _ _ _ _ _ _ _ _ _ _) as [[page|w']|]; [by exists page| |done].
  destruct Hs as [Hinv' Hlt]. apply IH; [done|lia].
Qed.
End walk.

(** ** A whole page *)

(** What a client may rely on. [header] is the space set aside for everything
    but the two arrays. *)
Record page_good (server_now : Z) (measure_record : InboxEntry -> Z -> option N)
    (measure_page : ResumePage -> option N) (x : OpaqueDeviceInbox) (request : PageRequest)
    (issued settled header : N) (aborted : list (N * N)) (page : ResumePage) : Prop := {
  pg_exact : let start := N.max (pr_after request) settled in
    page_exact server_now x (pr_now request) issued start
      (seek_rows (pending x !! pr_target request) start)
      (seek_rows (dead_letter_index x !! pr_target request) start) aborted page;
  pg_frame : frame_type page = "resume_page" /\ pg_target page = pr_target request /\
    pg_incarnation page = incarnation_id x (pr_target request) /\
    after_inbox_seq page = pr_after request /\ pg_issued page = issued /\ settled_through_seq page = settled;
  pg_count : (length (entries page) <= Nat.min (pr_limit request) 256)%nat;
  pg_bytes : exists n, measure_page page = Some n /\ n <= PAGE_BYTE_CAP;
  pg_more : more page = bool_decide (covered_through_seq page < issued);
  pg_oversize : oversize_next page = None \/
    exists e, oversize_next page = Some (inbox_seq e) /\
      rows x (pr_target request) !! (covered_through_seq page + 1) = Some e /\
      alive server_now x (pr_now request) e /\ too_large server_now measure_record x header e;
  pg_progress : N.max (pr_after request) settled < covered_through_seq page \/
    covered_through_seq page = issued \/ oversize_next page <> None;
}.

Lemma elem_of_seek_rows {V} (m : option (gmap N V)) c k v :
  (k, v) ∈ seek_rows m c <-> default ∅ m !! k = Some v /\ c < k.
Proof.
  destruct m as [m|]; cbn [seek_rows default].
  - rewrite elem_of_bt_range_gt. unfold key_le, N_key, id. split; intros [? ?]; (split; [done|lia]).
  - rewrite elem_of_nil. split; [done|]. intros [H _]. by rewrite lookup_empty in H.
Qed.

Lemma ordered_later {A} (hi : A -> N) c l : (forall a, a ∈ l -> c < hi a) -> later hi c l = l.
Proof. intros H. by apply filter_all. Qed.

Lemma start_stream {A} (hi : A -> N) l c iter cut visits :
  iter ++ cut = l -> (cut = [] \/ VISIT_CAP <= length iter)%nat -> (forall a, a ∈ l -> c < hi a) ->
  let '(cur, iter', visits') := next_counted iter visits in
  stream hi l c cur iter' visits' /\ (visits <= visits' <= S visits)%nat /\
  ((visits < VISIT_CAP)%nat -> budget_spent cur = false).
Proof.
  intros Hl Hcut Hc.
  pose proof (stream_next hi l c iter cut visits) as Hs. unfold next_counted in *.
  assert (later hi c l = iter ++ cut) as Hlat by (rewrite Hl; by apply ordered_later).
  specialize (Hs ltac:(destruct Hcut; [by left|right; lia]) Hlat).
  case_decide; [|destruct iter]; (split; [apply Hs|split; [lia|done || (intros; lia)]]).
Qed.

Section build.
Variable server_now : Z.
Variable measure_record : InboxEntry -> Z -> option N.
Variable measure_loss : KnownLoss -> option N.
Variable measure_page : ResumePage -> option N.
Hypothesis sizes : page_sizes measure_record measure_loss measure_page.
Variable x : OpaqueDeviceInbox.

Section request.
Variables (request : PageRequest) (issued settled header : N) (ranges cut : list (N * N)).
Notation start := (N.max (pr_after request) settled).
Notation prows := (seek_rows (pending x !! pr_target request) start).
Notation drows := (seek_rows (dead_letter_index x !! pr_target request) start).
Notation empty := (page_empty request (incarnation_id x (pr_target request)) issued settled).
Hypothesis src : sources issued start prows drows (ranges ++ cut).
Hypothesis cut_late : (cut = [] \/ VISIT_CAP <= length ranges)%nat.
Hypothesis limit_pos : (0 < pr_limit request)%nat.
Hypothesis after_issued : pr_after request <= issued.
Hypothesis settled_issued : settled <= issued.
Hypothesis issued_u64 : issued <= U64_MAX.
Hypothesis header_size : measure_page (worst_page empty) = Some header.
Hypothesis header_fits : header <= 16 * 1024.

Lemma walk_starts :
  let '(p, pending, v1) := next_counted prows 0 in
  let '(d, dead, v2) := next_counted drows v1 in
  let '(a, aborted, v3) := next_counted ranges v2 in
  walk_inv server_now measure_record measure_loss x (pr_limit request) (pr_now request) issued start header
    prows drows (ranges ++ cut) empty (mkWalk empty header p d a pending dead aborted v3).
Proof.
  pose proof (start_stream fst prows start prows [] 0 (app_nil_r _) (or_introl eq_refl) (so_rows_start _ _ _ _ _ src)) as Hp.
  destruct (next_counted prows 0) as [[p pending] v1]. destruct Hp as (Hp & Hv1 & Hsp).
  pose proof (start_stream fst drows start drows [] v1 (app_nil_r _) (or_introl eq_refl) (so_dead_start _ _ _ _ _ src)) as Hd.
  destruct (next_counted drows v1) as [[d dead] v2]. destruct Hd as (Hd & Hv2 & Hsd).
  pose proof (start_stream snd (ranges ++ cut) start ranges cut v2 eq_refl cut_late
    (fun r Hr => proj1 (proj2 (so_range _ _ _ _ _ src r Hr)))) as Ha.
  destruct (next_counted ranges v2) as [[a aborted] v3]. destruct Ha as (Ha & Hv3 & Hsa).
  assert (2 < VISIT_CAP)%nat as Hcap by (unfold VISIT_CAP; lia).
  split; cbn [wk_page wk_p wk_d wk_a wk_pending wk_dead wk_aborted wk_visits wk_size].
  - split; cbn.
    + lia.
    + lia.
    + unfold live_up_to, sofar. rewrite (filter_none (fun a : N * InboxEntry => a.1 <= start)); [done|]. intros q Hq%(so_rows_start _ _ _ _ _ src). lia.
    + intros s r. unfold reports. cbn. setoid_rewrite elem_of_nil. split; [naive_solver|lia].
    + by intros l ?%elem_of_nil.
  - eapply stream_visits; [|exact Hp]. lia.
  - eapply stream_visits; [|exact Hd]. lia.
  - done.
  - by left.
  - split; cbn.
    + done.
    + done.
    + symmetry. exact (N.add_0_r header).
    + unfold PAGE_BYTE_CAP. lia.
    + lia.
  - done.
  - intros _. split_and!; [done|done|]. rewrite Hsp, Hsd, Hsa by lia. done.
Qed.

Lemma finished_good page :
  finished server_now measure_record measure_loss x (pr_limit request) (pr_now request) issued start header
    prows drows (ranges ++ cut) empty page ->
  page_good server_now measure_record measure_page x request issued settled header (ranges ++ cut)
    (set_more page (bool_decide (covered_through_seq page < issued))).
Proof.
  intros [Hex [size [Hh Hec Hsize Hcap Hcount]] Ho Hpr].
  unfold worst_page, page_empty in Hh. cbn in Hh. injection Hh as Hft Htg Hid.
  unfold echo, page_empty in Hec. cbn in Hec. injection Hec as Haf His Hse.
  split; try done.
  - by apply (page_exact_same _ _ _ _ _ _ _ _ page).
  - destruct (ps_page _ _ _ sizes (set_more page (bool_decide (covered_through_seq page < issued))))
      as (n & h & Hn & Hw & Hle). exists n. split; [done|].
    assert (worst_page (set_more page (bool_decide (covered_through_seq page < issued))) = worst_page empty) as Heq.
    { unfold worst_page, page_empty. cbn. congruence. }
    rewrite Heq, header_size in Hw. injection Hw as <-.
    change (page_bytes _ _ (set_more page _)) with (page_bytes measure_record measure_loss page) in Hle. lia.
  - destruct Ho as [Ho|(e & Ho & Hin & Hrest)]; [by left|right]. exists e. split; [done|]. split; [|done].
    apply elem_of_seek_rows in Hin. by destruct Hin.
Qed.

Lemma build_page_spec :
  exists page, build_page server_now measure_record measure_loss measure_page x request issued settled ranges =
    Some (Ok page) /\
    page_good server_now measure_record measure_page x request issued settled header (ranges ++ cut) page.
Proof.
  unfold build_page. rewrite decide_False by lia. unfold worst_header_size.
  change (mkPage _ _ _ U64_MAX _ _ _ _ _ _ _) with (worst_page empty). rewrite header_size. cbn [measured ok_or].
  rewrite decide_False by lia. change (covered_through_seq empty) with start.
  pose proof walk_starts as Hinv.
  pose proof (next_weight prows 0) as Wp. destruct (next_counted prows 0) as [[p pending] v1].
  pose proof (next_weight drows v1) as Wd. destruct (next_counted drows v1) as [[d dead] v2].
  pose proof (next_weight ranges v2) as Wa. destruct (next_counted ranges v2) as [[a aborted] v3].
  match goal with |- context [walk _ _ _ ?fuel] => destruct (walk_spec server_now measure_record measure_loss measure_page sizes x
    (pr_limit request) (pr_now request) issued start header prows drows (ranges ++ cut) src issued_u64 limit_pos
    header_fits empty fuel _ Hinv) as (page & -> & Hfin) end.
  { unfold remaining, walk_fuel. cbn [wk_p wk_d wk_a wk_pending wk_dead wk_aborted].
    destruct p, d, a; cbn [weight]; lia. }
  pose proof (finished_good page Hfin) as Hgood. exists (set_more page (bool_decide (covered_through_seq page < issued))).
  split; [|done]. destruct (pg_bytes _ _ _ _ _ _ _ _ _ _ Hgood) as (n & Hn & Hle).
  cbv zeta. rewrite Hn. cbn [measured ok_or mbind result_bind]. by rewrite decide_False by lia.
Qed.
End request.
End build.

(** ** Pages over the publication core *)

(** Ordered maps over sequences list their keys strictly. *)
Lemma bt_entries_strict {V} (m : gmap N V) : StronglySorted (fun a b => a.1 < b.1) (bt_entries m).
Proof.
  pose proof (bt_entries_sorted m) as Hs. pose proof (NoDup_bt_keys m) as Hn. unfold bt_keys in Hn.
  induction Hs as [|a l Hs IH Hall]; [constructor|]. cbn in Hn. apply NoDup_cons in Hn as [Ha Hn].
  constructor; [auto|]. rewrite Forall_forall in *. intros b Hb. specialize (Hall b Hb).
  unfold entry_le, key_le, N_key in Hall. assert (a.1 <> b.1); [|lia].
  intros Heq. apply Ha. rewrite Heq. by apply list_elem_of_fmap_2.
Qed.

Lemma sorted_impl {A} (R R' : relation A) l :
  StronglySorted R l -> (forall a b, a ∈ l -> b ∈ l -> R a b -> R' a b) -> StronglySorted R' l.
Proof.
  induction 1 as [|a l Hs IH Hall]; intros HR; [constructor|]. constructor.
  - apply IH. intros b c Hb Hc. apply HR; by right.
  - rewrite Forall_forall in *. intros b Hb. apply HR; [by left|by right|by apply Hall].
Qed.

Lemma seek_rows_ordered {V} (m : option (gmap N V)) c : ordered fst (seek_rows m c).
Proof. destruct m; [|constructor]. apply StronglySorted_filter, bt_entries_strict. Qed.

(** The aborted ranges past [start], before [page_view] cuts the list. *)
Definition past_ranges (ranges : gmap N N) (start : N) : list (N * N) :=
  match last (bt_range_le start ranges) with
  | Some (lo, end_) => if decide (start < end_) then bt_range_ge lo ranges else bt_range_gt start ranges
  | None => bt_range_gt start ranges
  end.

Lemma past_ranges_ordered ranges start : ranges_wf ranges -> ordered snd (past_ranges ranges start).
Proof.
  intros Hwf. apply (sorted_impl (fun a b => a.1 < b.1)).
  - unfold past_ranges. repeat (case_match || case_decide); apply StronglySorted_filter, bt_entries_strict.
  - intros [s e] [s' e'] Ha Hb Hlt. apply page_ranges_spec in Ha as [Ha _]; [|done].
    apply page_ranges_spec in Hb as [Hb _]; [|done]. cbn in *.
    pose proof (rw_sep _ Hwf _ _ _ _ Ha Hb Hlt). pose proof (rw_range _ Hwf _ _ Hb). lia.
Qed.

(** An aborted range does not straddle the published mark. *)
Lemma range_published i s e :
  inbox_inv i -> aborted i !! s = Some e -> s <= published i -> e <= published i.
Proof.
  intros Hi Hs Hle. pose proof (rw_range _ (ii_wf _ Hi) _ _ Hs) as Hr.
  assert (forall n, s <= n <= e -> n <= allocated i /\ in_flight i !! n = None) as Hc.
  { intros n Hn. destruct (ii_covers _ Hi n) as ([_ ?] & ? & _); [by exists s, e|done]. }
  rewrite (ii_published _ Hi) in *. unfold published_prefix in *.
  destruct (bt_first (in_flight i)) as [[q l]|] eqn:Hf.
  - apply bt_first_Some in Hf as [Hq _]. destruct (decide (e <= q - 1)); [done|].
    destruct (ii_bounds _ Hi _ _ Hq). destruct (Hc q) as [_ Hno]; [lia|]. congruence.
  - apply Hc. lia.
Qed.

(** An inbox and the publication record of one of its targets: no sequence is both
    pending and dead-lettered, and none that is pending or dead-lettered is aborted.
    The walk takes the three streams for disjoint; [overlap_disagrees] (EntryFetch)
    shows what it reports otherwise. *)
Record apart (x : OpaqueDeviceInbox) (target : string) (i : Publication.Inbox) : Prop := {
  ap_dead s e : rows x target !! s = Some e -> default ∅ (dead_letter_index x !! target) !! s = None;
  ap_rows s e : rows x target !! s = Some e -> ~ covers (aborted i) s;
  ap_letters s row : default ∅ (dead_letter_index x !! target) !! s = Some row -> ~ covers (aborted i) s;
}.

Lemma published_sources x target i start :
  inbox_inv i -> apart x target i ->
  sources (published i) start (seek_rows (pending x !! target) start)
    (seek_rows (dead_letter_index x !! target) start) (past_ranges (aborted i) start).
Proof.
  intros Hi Hx. pose proof (ii_wf _ Hi) as Hwf.
  assert (forall r, r ∈ past_ranges (aborted i) start -> aborted i !! r.1 = Some r.2 /\ start < r.2) as Hin.
  { intros [s e] Hr. by apply page_ranges_spec in Hr. }
  split.
  - apply seek_rows_ordered.
  - apply seek_rows_ordered.
  - by apply past_ranges_ordered.
  - intros [k v] Hp. by apply elem_of_seek_rows in Hp as [_ ?].
  - intros [k v] Hp. by apply elem_of_seek_rows in Hp as [_ ?].
  - intros r [Hr Hs]%Hin. pose proof (rw_range _ Hwf _ _ Hr). lia.
  - intros r [Hr _]%Hin. by apply range_published.
  - intros r r' [Hr _]%Hin [Hr' _]%Hin Hlt. destruct (decide (r.1 < r'.1)) as [Hs|Hs].
    + pose proof (rw_sep _ Hwf _ _ _ _ Hr Hr' Hs). lia.
    + destruct (decide (r.1 = r'.1)) as [Heq|]; [rewrite Heq in Hr; congruence || (simplify_eq; lia)|].
      pose proof (rw_sep _ Hwf _ _ _ _ Hr' Hr ltac:(lia)). pose proof (rw_range _ Hwf _ _ Hr). lia.
  - intros [k v] [k' v'] [Hp _]%elem_of_seek_rows [Hq _]%elem_of_seek_rows. cbn. intros <-.
    pose proof (ap_dead _ _ _ Hx _ _ Hp). congruence.
  - intros [k v] r [Hp _]%elem_of_seek_rows [Hr _]%Hin Hk. apply (ap_rows _ _ _ Hx _ _ Hp). by exists r.1, r.2.
  - intros [k v] r [Hp _]%elem_of_seek_rows [Hr _]%Hin Hk. apply (ap_letters _ _ _ Hx _ _ Hp). by exists r.1, r.2.
Qed.

Lemma filter_filter_weaken {A} (Q R : A -> Prop) `{!forall a, Decision (Q a), !forall a, Decision (R a)} (l : list A) :
  (forall a, R a -> Q a) -> filter R (filter Q l) = filter R l.
Proof.
  intros HRQ. rewrite list_filter_filter. apply list_filter_iff. naive_solver.
Qed.

Lemma seek_rows_later {V} (m : option (gmap N V)) c e :
  c <= e -> later fst e (seek_rows m c) = seek_rows m e.
Proof.
  intros Hce. destruct m as [m|]; [|done]. unfold later, seek_rows, bt_range_gt.
  rewrite (filter_filter_weaken _ (fun a : N * V => e < a.1)).
  - apply list_filter_iff. unfold key_le, N_key. intros p. lia.
  - unfold key_le, N_key. intros p Hp. lia.
Qed.

Section published.
Context (server_now : Z) (measure_record : InboxEntry -> Z -> option N) (measure_loss : KnownLoss -> option N)
  (measure_page : ResumePage -> option N).
Context (w : World) (x : OpaqueDeviceInbox) (target id : string) (i : Publication.Inbox).

Notation core := (Some (registry (w_sh w))).
Notation settled := (N.min (committed_settled i) (published i)).

(** The space the rest of a page of this target may take. *)
Definition header_bytes : option N :=
  measure_page (worst_page (mkPage "resume_page" target (Some id) 0 0 0 0 [] [] None false)).

Lemma resume_page_good after limit now header :
  page_sizes measure_record measure_loss measure_page ->
  reachable w -> inboxes (registry (w_sh w)) !! mkKey target id = Some i -> incarnation_id x target = Some id ->
  apart x target i -> (0 < limit)%nat -> after <= published i ->
  header_bytes = Some header -> header <= 16 * 1024 ->
  exists page,
    resume_page core server_now measure_record measure_loss measure_page x target after limit now = Some (Ok page) /\
    page_good server_now measure_record measure_page x (mkPageRequest target after limit now)
      (published i) settled header (past_ranges (aborted i) (N.max after settled)) page.
Proof.
  intros Hsz Hr%reachable_inv Hi Hid Hap Hlim Hafter Hh Hfit. pose proof (wi_inbox _ Hr _ _ Hi) as Hinv.
  unfold resume_page, page_source. rewrite decide_False, Hid by lia.
  unfold pub_page_view, Registry_page_api, page_view. rewrite Hi. cbv zeta.
  fold (past_ranges (aborted i) (N.max after settled)). set (all := past_ranges _ _).
  pose proof (build_page_spec server_now measure_record measure_loss measure_page Hsz x
    (mkPageRequest target after limit now) (published i) settled header (take VISIT_CAP all) (drop VISIT_CAP all)) as Hb.
  rewrite take_drop in Hb. apply Hb; cbn [pr_target pr_after pr_limit].
  - by apply published_sources.
  - rewrite length_take. destruct (decide (VISIT_CAP <= length all)%nat); [right; lia|left; apply drop_ge; lia].
  - done.
  - done.
  - lia.
  - pose proof (inbox_inv_published_le i Hinv). pose proof (ii_allocated _ Hinv). lia.
  - by rewrite Hid.
  - done.
Qed.

(** A client that asks for page after page, until there is no more. *)
Inductive drained (limit : nat) (now : Z) : N -> list PageEntryRecord -> Prop :=
| drained_last after page :
    resume_page core server_now measure_record measure_loss measure_page x target after limit now = Some (Ok page) ->
    more page = false -> drained limit now after (entries page)
| drained_more after page rest :
    resume_page core server_now measure_record measure_loss measure_page x target after limit now = Some (Ok page) ->
    more page = true -> drained limit now (covered_through_seq page) rest ->
    drained limit now after (entries page ++ rest).

(** The live deliveries after [start], up to the published mark. *)
Definition live_after (now : Z) (start : N) : list PageEntryRecord :=
  live_up_to server_now x now (seek_rows (pending x !! target) start) (published i).

Lemma live_after_app now start c :
  start <= c -> c <= published i ->
  live_after now start = live_up_to server_now x now (seek_rows (pending x !! target) start) c ++ live_after now c.
Proof.
  intros Hs Hc. unfold live_after, live_up_to.
  rewrite (sofar_later fst c (published i) _ (seek_rows_ordered _ _) Hc), (seek_rows_later _ _ _ Hs).
  by rewrite !fmap_app, filter_app, fmap_app.
Qed.

Lemma pages_drain after limit now header :
  page_sizes measure_record measure_loss measure_page ->
  reachable w -> inboxes (registry (w_sh w)) !! mkKey target id = Some i -> incarnation_id x target = Some id ->
  apart x target i -> (0 < limit)%nat -> after <= published i ->
  header_bytes = Some header -> header <= 16 * 1024 ->
  (forall s e, rows x target !! s = Some e -> alive server_now x now e ->
     ~ too_large server_now measure_record x header e) ->
  drained limit now after (live_after now (N.max after settled)).
Proof.
  intros Hsz Hr Hi Hid Hap Hlim Hafter Hh Hfit Hsmall. remember (published i - after) as k eqn:Hk.
  revert after Hafter Hk. induction k as [k IH] using (well_founded_induction N.lt_wf_0). intros after Hafter ->.
  destruct (resume_page_good after limit now header) as (page & Hpage & Hgood); [done..|].
  destruct Hgood as [Hex _ _ _ Hmore Hover Hprog]. cbn [pr_target pr_after pr_limit pr_now] in *.
  pose proof (px_start _ _ _ _ _ _ _ _ _ Hex) as Hst. pose proof (px_issued _ _ _ _ _ _ _ _ _ Hex) as His.
  rewrite (live_after_app now _ (covered_through_seq page) Hst His), <- (px_entries _ _ _ _ _ _ _ _ _ Hex).
  destruct (decide (covered_through_seq page < published i)) as [Hlt|Hge].
  - apply drained_more; [done|by rewrite Hmore, bool_decide_eq_true|].
    destruct Hprog as [Hp|[Hp|Hp]]; [|lia|].
    + rewrite <- (N.max_l (covered_through_seq page) settled) at 2 by lia.
      apply (IH (published i - covered_through_seq page)); [lia|lia|done].
    + destruct Hover as [Ho|(e & _ & Hrow & Ha & Hl)]; [done|]. by destruct (Hsmall _ _ Hrow Ha).
  - assert (live_after now (covered_through_seq page) = []) as ->.
    { unfold live_after, live_up_to, sofar. rewrite (filter_none (fun a : N * InboxEntry => a.1 <= published i)); [done|].
      intros [s e] [_ Hs]%elem_of_seek_rows. cbn. lia. }
    rewrite app_nil_r. apply drained_last; [done|]. by rewrite Hmore, bool_decide_eq_false.
Qed.
End published.

Lemma drained_det server_now mr ml mp w x target limit now after l l' :
  drained server_now mr ml mp w x target limit now after l ->
  drained server_now mr ml mp w x target limit now after l' -> l = l'.
Proof.
  intros H. revert l'. induction H as [after page Hp Hm|after page rest Hp Hm _ IH]; intros l' H';
    inversion H' as [? page' Hp' Hm'|? page' rest' Hp' Hm' Hrest]; subst;
    rewrite Hp in Hp'; injection Hp' as <-; try congruence.
  f_equal. by apply IH.
Qed.

(** C25: A resume page is exact, bounded and makes progress. Beside a publication
    core in a reachable state, and for a mailbox in which the pending deliveries, the
    dead letters and the aborted sequences are apart, a request below the published
    mark with a header that fits its 16 KiB is answered,
    by a walk that ends, with a page that holds exactly the live deliveries
    between its start and the sequence it covers, in order, and reports a
    sequence in between as lost exactly when it expired, was dead-lettered or
    was aborted, with that reason. The page stays within the limits on entries
    and bytes, says whether there is more, and covers something new unless
    everything is covered or the very next delivery is live and too large for any
    page, which it then names. *)
Theorem resume_page_exact server_now measure_record measure_loss measure_page w x target id i after limit now header :
  page_sizes measure_record measure_loss measure_page ->
  reachable w -> inboxes (registry (w_sh w)) !! mkKey target id = Some i -> incarnation_id x target = Some id ->
  apart x target i -> (0 < limit)%nat -> after <= published i ->
  header_bytes measure_page target id = Some header -> header <= 16 * 1024 ->
  exists page,
    resume_page (Some (registry (w_sh w))) server_now measure_record measure_loss measure_page x target after limit now =
      Some (Ok page) /\
    page_good server_now measure_record measure_page x (mkPageRequest target after limit now)
      (published i) (N.min (committed_settled i) (published i)) header
      (past_ranges (aborted i) (N.max after (N.min (committed_settled i) (published i)))) page.
Proof. intros. by apply (resume_page_good _ _ measure_loss _ _ _ _ id). Qed.

(** C26: A client that asks for page after page, each time from the sequence the
    last page covered, comes to a page without more, and has then received
    exactly the live deliveries between its cursor and the published mark, each
    once and in order. This is for a mailbox in which the pending deliveries, the
    dead letters and the aborted sequences are apart, and in which each live delivery
    fits a page: a page holds 1 MiB less 64 KiB, so an accepted delivery may be too
    large for it and then stops the walk. *)
Theorem pages_deliver_all server_now measure_record measure_loss measure_page w x target id i after limit now header l :
  page_sizes measure_record measure_loss measure_page ->
  reachable w -> inboxes (registry (w_sh w)) !! mkKey target id = Some i -> incarnation_id x target = Some id ->
  apart x target i -> (0 < limit)%nat -> after <= published i ->
  header_bytes measure_page target id = Some header -> header <= 16 * 1024 ->
  (forall s e, rows x target !! s = Some e -> alive server_now x now e ->
     ~ too_large server_now measure_record x header e) ->
  drained server_now measure_record measure_loss measure_page w x target limit now after l <->
  l = live_after server_now x target i now (N.max after (N.min (committed_settled i) (published i))).
Proof.
  intros Hsz Hr Hi Hid Hap Hlim Hafter Hh Hfit Hsmall.
  pose proof (pages_drain server_now measure_record measure_loss measure_page w x target id i after limit now header
    Hsz Hr Hi Hid Hap Hlim Hafter Hh Hfit Hsmall) as Hd.
  split; [|by intros ->]. intros Hl. by eapply drained_det.
Qed.

(** ** A concrete mailbox *)

Module PageRun.
Import Run InboxRun.

(** Delivery 1 of [Run.w6] is pending; sequence 2 was aborted. *)
Definition allocate1 (t id : string) : result NodeCoreError N := Ok 1.
Definition mailbox : OpaqueDeviceInbox :=
  (append_published (Some (registry (w_sh w6))) allocate1 y1 (envelope "m1") 100).2.

Definition bytes_of_record (e : InboxEntry) (deadline : Z) : option N := Some 1000.
Definition bytes_of_loss (l : KnownLoss) : option N := Some 100.
Definition bytes_of_page (page : ResumePage) : option N :=
  Some (300 + page_bytes bytes_of_record bytes_of_loss page).

Lemma sizes_ok : page_sizes bytes_of_record bytes_of_loss bytes_of_page.
Proof.
  split.
  - by eexists.
  - intros l. exists 100. by split; [|lia].
  - intros page. do 2 eexists. split_and!; [done|done|].
    change (page_bytes _ _ (worst_page page)) with 0. lia.
Qed.

Lemma mailbox_apart : apart mailbox "bob" (inbox_of w6).
Proof.
  assert (rows mailbox "bob" = {[ 1 := mkEntry 1 "bob" (envelope "m1") ]}) as Hrows by by vm_compute.
  assert (aborted (inbox_of w6) = {[ 2 := 2 ]}) as Hab by by vm_compute.
  split.
  - intros s e _. by vm_compute.
  - intros s e. rewrite Hrows, lookup_singleton_Some. intros [<- _] (lo & hi & Hr & Hs). rewrite Hab in Hr.
    apply lookup_singleton_Some in Hr as [<- <-]. lia.
  - intros s row. by vm_compute.
Qed.
End PageRun.

Import Run InboxRun PageRun.

Lemma resume_page_exact_witness :
  exists page,
    resume_page (Some (registry (w_sh w6))) 0 bytes_of_record bytes_of_loss bytes_of_page mailbox "bob" 0 10 120 =
      Some (Ok page) /\
    covered_through_seq page = 2 /\ inbox_seq <$> (pe_entry <$> entries page) = [1] /\
    page_good 0 bytes_of_record bytes_of_page mailbox (mkPageRequest "bob" 0 10 120)
      (published (inbox_of w6)) 0 300 (past_ranges (aborted (inbox_of w6)) 0) page.
Proof.
  destruct (resume_page_exact 0 bytes_of_record bytes_of_loss bytes_of_page w6 mailbox "bob" "inc" (inbox_of w6) 0 10 120 300
    sizes_ok w6_reachable eq_refl eq_refl mailbox_apart) as (page & Hp & Hg); [lia|by vm_compute|by vm_compute|lia|].
  exists page. split; [exact Hp|]. split; [|split; [|exact Hg]]; vm_compute in Hp; injection Hp as <-; by vm_compute.
Defined.

Lemma pages_deliver_all_witness :
  drained 0 bytes_of_record bytes_of_loss bytes_of_page w6 mailbox "bob" 10 120 0
    [mkPageEntry (mkEntry 1 "bob" (envelope "m1")) 160].
Proof.
  apply (pages_deliver_all 0 bytes_of_record bytes_of_loss bytes_of_page w6 mailbox "bob" "inc" (inbox_of w6) 0 10 120 300 _
    sizes_ok w6_reachable eq_refl eq_refl mailbox_apart); [lia|by vm_compute|by vm_compute|lia| |by vm_compute].
  intros s e _ _. unfold too_large, record_size, record_of, bytes_of_record, PAGE_BYTE_CAP. cbn. lia.
Defined.
