(* ===== verification/EntryFetch.v ===== *)
(** * Fetching one delivery

    ramflux-node-core/src/entry_fetch.rs: the point query for one sequence of a
    mailbox. It answers with the delivery, with its deadline when the delivery
    is too large for a frame, or with the reason it is gone. The theorem says
    that the point query and the pages of InboxPage.v agree where no sequence is in
    two of the mailbox's streams. *)

From S2P Require Import Prelude OrdMap Ranges Publication PublicationSteps PublicationProps Wire Inbox InboxProps InboxPage InboxPageProps.

Open Scope N_scope.

(** The point query of the publication core. *)
Class PointApi (P : Type) := pub_point_view : P -> string -> string -> N -> N * bool.

#[export] Instance Registry_point_api : PointApi Registry := Publication.point_view.

Notation ENTRY_FRAME_BYTE_CAP := 1048576%N (only parsing).

Inductive EntryGoneReason := GExpired | GAckWindowOverflow | GNacked | GAborted | GUnknown.

#[export] Instance EntryGoneReason_eq_dec : EqDecision EntryGoneReason.
Proof. solve_decision. Defined.

Inductive InboxEntryResponse :=
| Entry (incarnation_id : option string) (record : PageEntryRecord)
| EntryTooLarge (incarnation_id : option string) (inbox_seq : N) (retain_until : Z)
| EntryGone (incarnation_id : option string) (inbox_seq observed_issued_inbox_seq : N)
    (reason : EntryGoneReason).

Inductive EntryFetchError := InvalidSeq | EntrySerialization.

Section fetch.
Context {P : Type} `{!PublicationApi P, !PointApi P}.
Variable core : option P.
Variable server_now : Z.
(** The size of the serialised reply. *)
Variable serialized_size : option string -> InboxEntry -> Z -> option N.

Definition gone_reason (r : DeadLetterReason) : EntryGoneReason :=
  match r with Nacked _ => GNacked | AckWindowOverflow => GAckWindowOverflow end.

(** [OpaqueDeviceInbox::point_view] *)
Definition inbox_point_view (x : OpaqueDeviceInbox) (target : string) (seq : N) (now : Z) (issued : N)
    (is_aborted : bool) : result EntryFetchError InboxEntryResponse :=
  if decide (seq = 0 \/ issued < seq) then Err InvalidSeq else
  let id := incarnation_id x target in
  let gone reason := Ok (EntryGone id seq issued reason) in
  match pending x !! target ≫= (.!! seq) with
  | Some entry =>
      let deadline := retain_until server_now x entry in
      if decide (now < deadline)%Z then
        ok_or (serialized_size id entry deadline) EntrySerialization ≫= fun size =>
        if decide (ENTRY_FRAME_BYTE_CAP < size) then Ok (EntryTooLarge id seq deadline)
        else Ok (Entry id (mkPageEntry entry deadline))
      else gone GExpired
  | None =>
      let kept row := if decide (now < dl_retain_until row)%Z then Some row else None in
      match (dead_letter_index x !! target ≫= (.!! seq)) ≫= kept with
      | Some row => gone (gone_reason (dl_reason row))
      | None => gone (if is_aborted then GAborted else GUnknown)
      end
  end.

(** [fetch_entry]; the stored ranges are sorted, so [partition_point] counts the
    leading ranges that start at or before the sequence. *)
Definition fetch_entry (x : OpaqueDeviceInbox) (target : string) (seq : N) (now : Z)
  : result EntryFetchError InboxEntryResponse :=
  match core, incarnation_id x target with
  | Some p, Some id =>
      let '(issued, is_aborted) := pub_point_view p target id seq in
      inbox_point_view x target seq now issued is_aborted
  | _, _ =>
      let ranges := default [] (aborted_ranges x !! target) in
      let is_aborted := match last (take_while (fun r => bool_decide (r.1 <= seq)) ranges) with
        | Some r => bool_decide (seq <= r.2)
        | None => false
        end in
      inbox_point_view x target seq now (issued_sequence x target) is_aborted
  end.
End fetch.

(** ** The point query and the pages agree *)

(** The loss a page reports for a reason; none when nothing is known. *)
Definition reported_as (reason : EntryGoneReason) : option PageReason :=
  match reason with
  | GExpired => Some PExpired
  | GAckWindowOverflow => Some PAckWindowOverflow
  | GNacked => Some PNacked
  | GAborted => Some PAborted
  | GUnknown => None
  end.

(** What an answer means for a page that covers the sequence. *)
Definition consistent (x : OpaqueDeviceInbox) (target : string) (page : ResumePage) (seq : N)
    (answer : InboxEntryResponse) : Prop :=
  match answer with
  | Entry _ record => record ∈ entries page /\ rows x target !! seq = Some (pe_entry record)
  | EntryTooLarge _ _ deadline =>
      exists e, mkPageEntry e deadline ∈ entries page /\ rows x target !! seq = Some e
  | EntryGone _ _ _ reason =>
      (forall r, reports page seq r <-> reported_as reason = Some r) /\
      forall e, rows x target !! seq = Some e -> reason = GExpired
  end.

Lemma bind_lookup {V} (m : option (gmap N V)) seq : m ≫= (.!! seq) = default ∅ m !! seq.
Proof. destruct m; [done|]. symmetry. apply lookup_empty. Qed.

Lemma live_in server_now x now c m start k e :
  (k <= c) -> (k, e) ∈ seek_rows m start -> alive server_now x now e ->
  record_of server_now x e ∈ live_up_to server_now x now (seek_rows m start) c.
Proof.
  intros Hk Hin Ha. apply list_elem_of_fmap_2, list_elem_of_filter. split; [done|].
  apply (list_elem_of_fmap_2 snd _ (k, e)). by apply list_elem_of_filter.
Qed.

Section agree.
Context (server_now : Z) (measure_record : InboxEntry -> Z -> option N) (measure_page : ResumePage -> option N)
  (serialized_size : option string -> InboxEntry -> Z -> option N).
Hypothesis serializes : forall id e d, is_Some (serialized_size id e d).
Context (x : OpaqueDeviceInbox) (target : string) (after : N) (limit : nat) (now : Z)
  (issued settled header : N) (ranges : list (N * N)) (page : ResumePage) (seq : N) (is_aborted : bool).
Notation start := (N.max after settled).
Notation prows := (seek_rows (pending x !! target) start).
Notation drows := (seek_rows (dead_letter_index x !! target) start).
Hypothesis src : sources issued start prows drows ranges.
Hypothesis good : page_good server_now measure_record measure_page x (mkPageRequest target after limit now)
  issued settled header ranges page.
Hypothesis covered : start < seq <= covered_through_seq page.
Hypothesis aborted_exact : is_aborted = true <-> exists r, r ∈ ranges /\ r.1 <= seq <= r.2.

Lemma reports_lost r : reports page seq r <-> lost_at server_now x now prows drows ranges seq r.
Proof. rewrite (px_losses _ _ _ _ _ _ _ _ _ (pg_exact _ _ _ _ _ _ _ _ _ _ good) seq r). cbn. tauto. Qed.

Lemma row_in e : rows x target !! seq = Some e <-> (seq, e) ∈ prows.
Proof. rewrite elem_of_seek_rows. unfold rows. split; [|by intros [? _]]. by split; [|lia]. Qed.

Lemma letter_in row : default ∅ (dead_letter_index x !! target) !! seq = Some row <-> (seq, row) ∈ drows.
Proof. rewrite elem_of_seek_rows. split; [|by intros [? _]]. by split; [|lia]. Qed.

(** A sequence that is neither pending nor a kept dead letter. *)
Lemma gone_unless_kept :
  (forall e, (seq, e) ∉ prows) -> (forall row, (seq, row) ∈ drows -> ~ (now < dl_retain_until row)%Z) ->
  forall r, reports page seq r <-> reported_as (if is_aborted then GAborted else GUnknown) = Some r.
Proof.
  intros Hrow Hdead r. rewrite reports_lost. destruct is_aborted; cbn [reported_as].
  - destruct (proj1 aborted_exact eq_refl) as (q & Hq & Hs).
    rewrite (lost_range server_now x now issued start prows drows ranges src seq q r Hq Hs).
    split; [by intros ->|by intros [= <-]].
  - split; [|done]. intros [(e & He & _)|[(row & Hd & Hk & _)|(q & Hq & Hs & _)]].
    + by destruct (Hrow e).
    + by destruct (Hdead row Hd).
    + discriminate (proj2 aborted_exact). by exists q.
Qed.

Lemma point_consistent :
  exists answer, inbox_point_view server_now serialized_size x target seq now issued is_aborted = Ok answer /\
    consistent x target page seq answer.
Proof.
  destruct (pg_exact _ _ _ _ _ _ _ _ _ _ good) as [_ Hissued Hentries _ _]. cbn in Hissued, Hentries.
  unfold inbox_point_view. rewrite decide_False by lia. rewrite !bind_lookup. fold (rows x target).
  destruct (rows x target !! seq) as [e|] eqn:He.
  - assert (He' := He). apply row_in in He'. case_decide as Hlive.
    + assert (mkPageEntry e (retain_until server_now x e) ∈ entries page) as Hin.
      { rewrite Hentries. apply (live_in _ _ _ _ _ _ seq); [lia|done|done]. }
      destruct (serializes (incarnation_id x target) e (retain_until server_now x e)) as [n ->].
      cbn [ok_or mbind result_bind]. case_decide; (eexists; split; [done|]); [by exists e|by split].
    + eexists. split; [done|]. split; [|done]. intros r.
      rewrite reports_lost, (lost_row server_now x now issued start prows drows ranges src seq e r He').
      cbn [reported_as]. split; [by intros [_ ->]|by intros [= <-]].
  - assert (forall e, (seq, e) ∉ prows) as Hnone by (intros e ?%row_in; congruence).
    assert (forall reason, (forall r, reports page seq r <-> reported_as reason = Some r) ->
      consistent x target page seq (EntryGone (incarnation_id x target) seq issued reason)) as Hgone.
    { intros reason Hr. split; [done|]. intros e. by rewrite He. }
    destruct (default ∅ (dead_letter_index x !! target) !! seq) as [row|] eqn:Hrow; cbn [mbind option_bind].
    + assert (Hd := Hrow). apply letter_in in Hd. case_decide as Hkept; eexists; (split; [done|]); apply Hgone.
      * intros r. rewrite reports_lost, (lost_dead server_now x now issued start prows drows ranges src seq row r Hd).
        assert (reported_as (gone_reason (dl_reason row)) = Some (page_reason (dl_reason row))) as -> by by destruct (dl_reason row).
        split; [by intros [_ ->]|by intros [= <-]].
      * apply gone_unless_kept; [done|]. intros row' Hd'%letter_in. congruence.
    + eexists. split; [done|]. apply Hgone, gone_unless_kept; [done|]. intros row' Hd'%letter_in. congruence.
Qed.
End agree.

Lemma past_ranges_covers i start seq :
  ranges_wf (aborted i) -> start < seq ->
  covers (aborted i) seq <-> exists r, r ∈ past_ranges (aborted i) start /\ r.1 <= seq <= r.2.
Proof.
  intros Hwf Hs. split.
  - intros (lo & hi & Hl & Hseq). exists (lo, hi). split; [|done]. apply page_ranges_spec; [done|]. split; [done|lia].
  - intros ([lo hi] & Hin & Hseq). apply page_ranges_spec in Hin as [Hl _]; [|done]. by exists lo, hi.
Qed.

(** C31: The point query and the pages agree. For every sequence a page covers, the
    point query answers; it answers with a delivery, or with the deadline of one
    too large for a frame, exactly as the page lists it, and with a reason it is
    gone exactly when the page reports it lost for that reason; for a sequence
    of which the page says nothing the reason is that nothing is known. This is for
    a mailbox in which the pending deliveries, the dead letters and the aborted
    sequences are apart: where a sequence is both dead-lettered and aborted the two
    may give different reasons. *)
Theorem fetch_agrees_with_page server_now measure_record measure_loss measure_page serialized_size
    w x target id i after limit now header page seq :
  page_sizes measure_record measure_loss measure_page ->
  (forall id e d, is_Some (serialized_size id e d)) ->
  reachable w -> inboxes (registry (w_sh w)) !! mkKey target id = Some i -> incarnation_id x target = Some id ->
  apart x target i -> (0 < limit)%nat -> after <= published i ->
  header_bytes measure_page target id = Some header -> header <= 16 * 1024 ->
  resume_page (Some (registry (w_sh w))) server_now measure_record measure_loss measure_page x target after limit now =
    Some (Ok page) ->
  N.max after (settled_through_seq page) < seq <= covered_through_seq page ->
  exists answer,
    fetch_entry (Some (registry (w_sh w))) server_now serialized_size x target seq now = Ok answer /\
    consistent x target page seq answer.
Proof.
  intros Hsz Hser Hr Hi Hid Hap Hlim Hafter Hh Hfit Hpage Hseq.
  destruct (resume_page_good server_now measure_record measure_loss measure_page w x target id i after limit now header)
    as (page' & Hpage' & Hgood); [done..|].
  rewrite Hpage in Hpage'. injection Hpage' as <-.
  destruct (pg_frame _ _ _ _ _ _ _ _ _ _ Hgood) as (_ & _ & _ & _ & _ & Hset). rewrite Hset in Hseq.
  pose proof (px_issued _ _ _ _ _ _ _ _ _ (pg_exact _ _ _ _ _ _ _ _ _ _ Hgood)) as Hci.
  destruct (point_view_exact w target id seq i Hr Hi) as [Hp Ha].
  unfold fetch_entry. rewrite Hid. unfold pub_point_view, Registry_point_api.
  destruct (point_view (registry (w_sh w)) target id seq) as [issued is_aborted]. cbn in Hp, Ha. subst issued.
  apply reachable_inv in Hr. pose proof (wi_inbox _ Hr _ _ Hi) as Hinv.
  eapply (point_consistent server_now measure_record measure_page serialized_size Hser x target after limit now
    (published i) (N.min (committed_settled i) (published i)) header); [by apply published_sources|done|done|].
  rewrite Ha, <- past_ranges_covers by (apply Hinv || lia). cbn in Hci. split; [by intros [_ ?]|]. by split; [lia|].
Qed.

Import Run InboxRun PageRun.

Lemma fetch_agrees_with_page_witness :
  exists page, resume_page (Some (registry (w_sh w6))) 0 bytes_of_record bytes_of_loss bytes_of_page mailbox "bob" 0 10 120 =
      Some (Ok page) /\
    exists answer, fetch_entry (Some (registry (w_sh w6))) 0 (fun _ _ _ => Some 1000) mailbox "bob" 2 120 = Ok answer /\
      consistent mailbox "bob" page 2 answer.
Proof.
  eexists. split; [by vm_compute|].
  apply (fetch_agrees_with_page 0 bytes_of_record bytes_of_loss bytes_of_page (fun _ _ _ => Some 1000) w6 mailbox "bob" "inc"
    (inbox_of w6) 0 10 120 300 _ 2 sizes_ok (fun _ _ _ => ltac:(by eexists)) w6_reachable eq_refl eq_refl mailbox_apart);
    [lia|by vm_compute|by vm_compute|lia|by vm_compute|by vm_compute].
Defined.

(** ** Why the three streams are apart *)

Module OverlapRun.

(** The third assignment of [Run.w6] is appended and refused by the receiver until
    it is a dead letter; then it is aborted, next to the second one. *)
Definition refused (x : OpaqueDeviceInbox) : OpaqueDeviceInbox :=
  (apply_nack_for_target (Some (registry (w_sh w6))) 100 x "bob" (nack "m3" 3)).2.
Definition x_refused : OpaqueDeviceInbox := refused (refused (refused y2)).
Definition w6d : World :=
  mkWorld (detach (w_sh w6) 2) (guards w6 ∖ {[ 2 ]}) (writers w6) (claimed w6) (finishing w6).
Definition w6c : World :=
  mkWorld (default (w_sh w6d) (resolver_claim (w_sh w6d) false 2)) (guards w6d) (writers w6d)
    ({[ 2 ]} ∪ claimed w6d) (finishing w6d).
Definition w8 : World :=
  finished (mkWorld (abort_store (w_sh w6c) 2) (guards w6c) (writers w6c) (claimed w6c ∖ {[ 2 ]})
    ({[ (2, true) ]} ∪ finishing w6c)) 2 true.

Lemma w6_w8 : rtc step w6 w8.
Proof.
  eapply rtc_l; [apply (step_drop_guard w6 2); by vm_compute|].
  eapply rtc_l; [apply (step_claim w6d false 2); by vm_compute|].
  eapply rtc_l; [apply (step_abort w6c 2); by vm_compute|].
  apply rtc_once, step_finish. by vm_compute.
Qed.

Lemma refused_reachable : sys_reachable (w8, x_refused).
Proof.
  assert (sys_reachable (w6, x_refused)) as H.
  { do 3 (eapply sys_next; [|apply sys_inbox, op_nack_target]). apply y2_reachable. }
  revert H. generalize x_refused as x. intros x H. induction w6_w8 as [w|w w' w'' Hs _ IH]; [done|].
  apply IH. eapply sys_next; [exact H|]. by apply sys_publication.
Qed.

(** The page reports 2 to 3 as aborted, the point query answers that 3 was refused. *)
Example overlap_disagrees :
  sys_reachable (w8, x_refused) /\
  (exists page, resume_page (Some (registry (w_sh w8))) 0 bytes_of_record bytes_of_loss bytes_of_page x_refused "bob" 0 10 120 =
      Some (Ok page) /\ known_losses page = [mkLoss 2 3 PAborted]) /\
  fetch_entry (Some (registry (w_sh w8))) 0 (fun _ _ _ => Some 1000) x_refused "bob" 3 120 =
    Ok (EntryGone (Some "inc") 3 3 GNacked).
Proof. split; [apply refused_reachable|]. split; [eexists; split; by vm_compute|by vm_compute]. Qed.
End OverlapRun.
