(* ===== verification/AckBatch.v ===== *)
(** * Batched acknowledgements

    inbox/ack_candidate.rs and router/ack_batch.rs of ramflux-node-core: a batch
    is applied to a copy of the target's state, committed, and then published
    into the live inbox. Nothing is locked between the copy and the
    publication: every acknowledgement of the batch observes its own state of
    the publication core, of the envelope index and of the clock, and the live
    inbox the batch is published into may have moved on. *)

From S2P Require Import Prelude OrdMap Ranges Publication Wire Inbox.

Open Scope N_scope.

Definition target_map {V} (m : gmap string V) (target : string) : gmap string V :=
  match m !! target with Some v => {[ target := v ]} | None => ∅ end.

Definition clone_ack_target (x : OpaqueDeviceInbox) (target : string) : OpaqueDeviceInbox :=
  mkInboxState (target_map (next_seq x) target) (target_map (aborted_ranges x) target)
    (target_map (incarnations x) target) (target_map (pending x) target)
    (target_map (cursors x) target) (target_map (dead_letter_index x) target)
    (target_map (retain_until_map x) target) false ∅ ∅.

(** The candidate's new dead letters whose delivery is still live. *)
Definition added_dead_letters (now : Z) (x : OpaqueDeviceInbox) (target : string)
    (previous : gset N) (records : list DeadLetterRecord) : list DeadLetterRecord :=
  omap (fun r =>
    if decide (dl_inbox_seq r ∈ previous) then None else
    match rows x target !! dl_inbox_seq r with
    | Some entry => Some (mkDeadLetter (dl_inbox_seq r) (dl_envelope_id r) (dl_reason r)
        (Z.min (dl_retain_until r) (retain_until now x entry)))
    | None => None
    end) records.

(** Records whose sequence is not yet retained, each sequence once. *)
Fixpoint extend_dead_letters (retained : gset N) (added : list DeadLetterRecord)
  : list DeadLetterRecord :=
  match added with
  | [] => []
  | r :: added =>
      if decide (dl_inbox_seq r ∈ retained) then extend_dead_letters retained added
      else r :: extend_dead_letters ({[ dl_inbox_seq r ]} ∪ retained) added
  end.

(** The live receipts first, then the candidate's that are not among them. *)
Fixpoint extend_recent (seen : gset string) (recent ids : list string) : list string :=
  match ids with
  | [] => recent
  | id :: ids =>
      if decide (id ∈ seen) then extend_recent seen recent ids
      else extend_recent ({[ id ]} ∪ seen) (recent ++ [id]) ids
  end.

(** The candidate's cursor merged with the live one. *)
Definition merge_live (c live : CursorAckState) : CursorAckState :=
  mkCursor (cur_target c) (N.max (cur_inbox_seq c) (cur_inbox_seq live)) (last_envelope_id c)
    (N.max (settled_inbox_seq c) (settled_inbox_seq live))
    (N.max (issued_inbox_seq c) (issued_inbox_seq live))
    (extend_recent (list_to_set (recent_ack_ids live)) (recent_ack_ids live) (recent_ack_ids c))
    (acked_envelope_ids c ∪ acked_envelope_ids live) (acked_inbox_seqs c ∪ acked_inbox_seqs live)
    (last_acknowledged_inbox_seq c) (nacked_envelope_ids live ∪ nacked_envelope_ids c)
    (nack_attempts c) (dead_letters live) (retired_inbox_seqs c).

Definition merged_cursor (now : Z) (x : OpaqueDeviceInbox) (c : CursorAckState) (previous : gset N)
  : CursorAckState :=
  let target := cur_target c in
  let c := set_issued_inbox_seq c (N.max (issued_inbox_seq c) (issued_sequence x target)) in
  let added := added_dead_letters now x target previous (dead_letters c) in
  let c := match cursors x !! target with
    | Some live => merge_live c live
    | None => set_dead_letters c []
    end in
  set_dead_letters c (keep_last ROUTER_DEAD_LETTER_LIMIT
    (dead_letters c ++
      extend_dead_letters (list_to_set (dl_inbox_seq <$> dead_letters c)) added)).

Definition publish_ack_cursor (now : Z) (x : OpaqueDeviceInbox) (c : CursorAckState)
    (acknowledged : list N) (previous : gset N) (boundary : N) : OpaqueDeviceInbox :=
  let target := cur_target c in
  let persisted_settled := settled_inbox_seq c in
  let c := merged_cursor now x c previous in
  let x := foldl (fun x seq => (retire_pending now x target seq).2) x
    (acknowledged ++ retired_inbox_seqs c) in
  let x := advance_settled_through (restore_cursor_state x c) target boundary in
  match cursor_state x target with
  | Some c => if decide (persisted_settled < settled_inbox_seq c) then mark_checkpoint x target else x
  | None => x
  end.

(** ** The batch *)

Section batch.
Context {P : Type} `{!PublicationApi P}.

(** An acknowledgement with what it observes when it is applied. *)
Record Observed := mkObserved {
  ob_core : option P;
  ob_now : Z;
  ob_index : gmap string string;
  ob_ack : Ack;
}.

Record Batch := mkBatch {
  candidate : OpaqueDeviceInbox;
  results : list (result NodeCoreError CursorAckState);
  batch_retired : gset N;
  acknowledged : list N;
}.

(** The envelope index decides for acknowledgements without a sequence. *)
Definition index_check (index : gmap string string) (target : string) (ack : Ack)
  : result NodeCoreError unit :=
  match ack_ext ack !! "inbox_seq" with
  | Some _ => Ok tt
  | None =>
      match index !! ack_envelope_id ack with
      | None => Err (EnvelopeNotFound (ack_envelope_id ack))
      | Some actual =>
          if decide (actual = target) then Ok tt
          else Err (EnvelopeTargetMismatch (ack_envelope_id ack) target actual)
      end
  end.

Definition batch_step (target : string) (b : Batch) (o : Observed) : Batch :=
  match index_check (ob_index o) target (ob_ack o) with
  | Err e => mkBatch (candidate b) (results b ++ [Err e]) (batch_retired b) (acknowledged b)
  | Ok _ =>
      let '(r, y) := apply_ack_for_target (ob_core o) (ob_now o) (candidate b) target (ob_ack o) in
      match r with
      | Ok c => mkBatch y (results b ++ [Ok c]) (list_to_set (retired_inbox_seqs c) ∪ batch_retired b)
          (acknowledged b ++ option_list (last_acknowledged_inbox_seq c))
      | Err e => mkBatch y (results b ++ [Err e]) (batch_retired b) (acknowledged b)
      end
  end.

Definition batch_run (x : OpaqueDeviceInbox) (target : string) (acks : list Observed) : Batch :=
  foldl (batch_step target) (mkBatch (clone_ack_target x target) [] ∅ []) acks.

(** The sequences of the candidate's dead letters before the batch. *)
Definition previous_dead_letters (x : OpaqueDeviceInbox) (target : string) : gset N :=
  match cursor_state (clone_ack_target x target) target with
  | Some c => list_to_set (dl_inbox_seq <$> dead_letters c)
  | None => ∅
  end.

(** [apply_ack_batch_leased]. [x] is the inbox the candidate is copied from;
    [commit] is the store's answer to the cursor and the sequences, [gate] the
    answer of the fatal-durability gate after it; [live], [core] and [now] are
    the inbox, the publication core and the clock when the batch is published.
    The inbox after the call is returned. *)
Definition apply_ack_batch_leased (x : OpaqueDeviceInbox) (target : string) (acks : list Observed)
    (commit : CursorAckState -> list N -> result NodeCoreError unit)
    (gate : result NodeCoreError unit) (live : OpaqueDeviceInbox) (core : option P) (now : Z)
  : result NodeCoreError (list (result NodeCoreError CursorAckState)) * OpaqueDeviceInbox :=
  let b := batch_run x target acks in
  match acknowledged b with
  | [] => (Ok (results b), live)
  | _ =>
      match cursor_state (candidate b) target with
      | None => (Err (InvalidAckBatch "candidate lacks cursor"), live)
      | Some c =>
          let c := set_retired_inbox_seqs c (bs_elems (batch_retired b)) in
          match commit c (acknowledged b) ≫= fun _ => gate with
          | Err e => (Err e, live)
          | Ok _ =>
              (Ok (results b),
               publish_ack_cursor now live c (acknowledged b) (previous_dead_letters x target)
                 (settlement_boundary core live target))
          end
      end
  end.

(** [apply_ack_batch]: the size check; binding the store and taking the lease
    are the caller's [admission]. *)
Definition apply_ack_batch (admission : result NodeCoreError unit) (x : OpaqueDeviceInbox)
    (target : string) (acks : list Observed)
    (commit : CursorAckState -> list N -> result NodeCoreError unit)
    (gate : result NodeCoreError unit) (live : OpaqueDeviceInbox) (core : option P) (now : Z)
  : result NodeCoreError (list (result NodeCoreError CursorAckState)) * OpaqueDeviceInbox :=
  if bool_decide (acks = [] \/ 64 < length acks)%nat
  then (Err (InvalidAckBatch "requires 1..64 members"), live)
  else match admission with
       | Err e => (Err e, live)
       | Ok _ => apply_ack_batch_leased x target acks commit gate live core now
       end.
End batch.
Arguments Observed P : clear implicits.
