(* ===== verification/AckBatchProps.v ===== *)
(** * Batched acknowledgements: properties

    The copy of a target's state answers acknowledgements as the live inbox
    does; publishing a batch keeps the invariant of the inbox when the rows that
    arrived meanwhile are above the candidate's floor, and a run where they are
    not. *)

From S2P Require Import Prelude OrdMap Ranges Publication PublicationSteps PublicationProps Wire.
From S2P Require Import Inbox InboxFacts InboxProps AckBatch.

Open Scope N_scope.

(** ** The copy simulates the live inbox *)

(** Two inboxes agree on a target. *)
Record agrees (t : string) (x y : OpaqueDeviceInbox) : Prop := {
  ag_next : next_seq y !! t = next_seq x !! t;
  ag_incarnation : incarnations y !! t = incarnations x !! t;
  ag_pending : pending y !! t = pending x !! t;
  ag_cursor : cursors y !! t = cursors x !! t;
  ag_retain : retain_until_map y !! t = retain_until_map x !! t;
}.

Lemma target_map_lookup {V} (m : gmap string V) t : target_map m t !! t = m !! t.
Proof. unfold target_map. destruct (m !! t); [apply lookup_singleton_eq|apply lookup_empty]. Qed.

Lemma clone_agrees x t : agrees t x (clone_ack_target x t).
Proof. split; apply target_map_lookup. Qed.

Section simulation.
Context {P : Type} `{!PublicationApi P}.
Implicit Types (core : option P) (now : Z) (x y : OpaqueDeviceInbox) (t : string).

Lemma agrees_rows t x y : agrees t x y -> rows y t = rows x t.
Proof. intros H. unfold rows. by rewrite (ag_pending _ _ _ H). Qed.

Lemma agrees_entry t x y : agrees t x y -> cursor_entry y t = cursor_entry x t.
Proof. intros H. unfold cursor_entry. by rewrite (ag_cursor _ _ _ H). Qed.

Lemma agrees_issued t x y : agrees t x y -> issued_sequence y t = issued_sequence x t.
Proof. intros H. unfold issued_sequence. by rewrite (ag_next _ _ _ H), (ag_cursor _ _ _ H). Qed.

Lemma agrees_boundary core t x y :
  agrees t x y -> settlement_boundary core y t = settlement_boundary core x t.
Proof.
  intros H. unfold settlement_boundary. by rewrite (ag_next _ _ _ H), (ag_incarnation _ _ _ H).
Qed.

Lemma agrees_put t x y c : agrees t x y -> agrees t (put_cursor x t c) (put_cursor y t c).
Proof. intros []. split; simpl; try done. by rewrite !lookup_insert_eq. Qed.

Lemma agrees_same_cursors t x y x' y' :
  agrees t x y -> same_rows x x' -> same_rows y y' -> cursors x' !! t = cursors y' !! t -> agrees t x' y'.
Proof. intros [] [] [] Hc. split; congruence. Qed.

Lemma agrees_advance_through t x y b :
  agrees t x y -> agrees t (advance_settled_through x t b) (advance_settled_through y t b).
Proof.
  intros H. eapply agrees_same_cursors; [exact H|apply advance_settled_through_same_rows..|].
  rewrite !advance_settled_through_eq, (ag_cursor _ _ _ H).
  destruct (cursors x !! t) as [c|] eqn:E; [|by rewrite (ag_cursor _ _ _ H)]. simpl. rewrite !lookup_insert_eq.
  unfold advance_cursor, settle_floor. by rewrite (agrees_rows _ _ _ H), (agrees_issued _ _ _ H).
Qed.

Lemma agrees_advance core t x y :
  agrees t x y -> agrees t (advance_settled core x t) (advance_settled core y t).
Proof.
  intros H. unfold advance_settled. rewrite (agrees_boundary core t x y H). by apply agrees_advance_through.
Qed.

Lemma agrees_retain_until now t x y e :
  agrees t x y -> en_target e = t -> retain_until now y e = retain_until now x e.
Proof. intros H He. unfold retain_until. by rewrite He, (ag_retain _ _ _ H). Qed.

(** What retirement leaves of a target's rows and deadlines. *)
Lemma retire_pending_maps now x t s e m :
  pending x !! t = Some m -> m !! s = Some e ->
  pending (retire_pending now x t s).2 !! t =
    (if is_empty_map (delete s m) then None else Some (delete s m)) /\
  retain_until_map (retire_pending now x t s).2 !! t =
    match retain_until_map x !! t with
    | Some d => if is_empty_map (delete s d) then None else Some (delete s d)
    | None => None
    end.
Proof.
  intros Hm He. unfold retire_pending. rewrite Hm, He. cbv zeta. cbn [snd].
  assert (forall (V : Type) (mp : gmap string V) (b : bool) (v : V),
    (if b then delete t mp else <[t := v]> mp) !! t = if b then None else Some v) as Hif.
  { intros V mp [] v; [apply lookup_delete_eq|apply lookup_insert_eq]. }
  match goal with |- context [if expiry_ready ?z then _ else _] => destruct (expiry_ready z) end;
    simpl; (destruct (retain_until_map x !! t) as [d|] eqn:Ed; simpl; rewrite ?Hif, ?Ed; done).
Qed.

Lemma agrees_retire now t x y s :
  agrees t x y -> agrees t (retire_pending now x t s).2 (retire_pending now y t s).2.
Proof.
  intros H. destruct (pending x !! t) as [m|] eqn:Em.
  - destruct (m !! s) as [e|] eqn:Ee.
    + destruct (retire_pending_frame now x t s) as (Hc & Hn & Hi & _).
      destruct (retire_pending_frame now y t s) as (Hc' & Hn' & Hi' & _).
      assert (pending y !! t = Some m) as Em' by by rewrite (ag_pending _ _ _ H).
      destruct (retire_pending_maps now x t s e m Em Ee) as [Hp Hr].
      destruct (retire_pending_maps now y t s e m Em' Ee) as [Hp' Hr'].
      destruct H as [An Ai Ap Ac Ar]. split; rewrite ?Hn, ?Hn', ?Hi, ?Hi', ?Hc, ?Hc', ?Hp, ?Hp', ?Hr, ?Hr', ?Ar; done.
    + unfold retire_pending. by rewrite (ag_pending _ _ _ H), Em, Ee.
  - unfold retire_pending. by rewrite (ag_pending _ _ _ H), Em.
Qed.

Lemma agrees_marked t x y :
  agrees t x y ->
  agrees t (mark_checkpoint (rebuild_dead_letter_index x t) t) (mark_checkpoint (rebuild_dead_letter_index y t) t).
Proof. intros []. by split. Qed.

Lemma agrees_dead_letter now t x y s reason :
  inbox_wf x -> agrees t x y ->
  agrees t (dead_letter now x t s reason) (dead_letter now y t s reason).
Proof.
  intros Hx H. unfold dead_letter. rewrite (agrees_rows _ _ _ H).
  destruct (rows x t !! s) as [row|] eqn:E; [|done].
  pose proof (agrees_retire now t x y s H) as Hr.
  pose proof (retire_pending_fst now x t s) as Hf. pose proof (retire_pending_fst now y t s) as Hf'.
  rewrite (agrees_rows _ _ _ H), E in Hf'. rewrite E in Hf.
  rewrite (agrees_retain_until now t x y row H) by by apply (wf_row _ Hx) in E as (_ & ? & _).
  destruct (retire_pending now x t s) as [o x1], (retire_pending now y t s) as [o' y1].
  simpl in Hf, Hf', Hr. subst o o'. cbv zeta. rewrite (agrees_entry _ _ _ Hr).
  apply agrees_marked, agrees_put, Hr.
Qed.
Lemma agrees_make_room_loop core now t fuel x y seq :
  inbox_wf x -> agrees t x y ->
  agrees t (make_ack_window_room_loop core now fuel x t seq) (make_ack_window_room_loop core now fuel y t seq).
Proof.
  revert x y. induction fuel as [|fuel IH]; intros x y Hx H; cbn [make_ack_window_room_loop]; [done|].
  rewrite (ag_cursor _ _ _ H), (agrees_rows _ _ _ H). destruct (cursors x !! t) as [c|]; [|done].
  destruct (window_full c seq); [|done]. destruct (head _) as [[first e]|]; [|done]. cbv zeta.
  apply IH; [by apply inbox_wf_advance, inbox_wf_dead_letter|]. by apply agrees_advance, agrees_dead_letter.
Qed.

Lemma inbox_wf_reset x t :
  inbox_wf x -> inbox_wf (put_cursor x t (set_retired_inbox_seqs (cursor_entry x t) [])).
Proof. intros Hx. apply inbox_wf_put_cursor; [done|]. intros s e. simpl. by apply inbox_wf_cursor_entry. Qed.

Lemma agrees_acked_state core now t x y id seq :
  inbox_wf x -> agrees t x y ->
  agrees t (acked_state core now x t id seq) (acked_state core now y t id seq).
Proof.
  intros Hx H. unfold acked_state. cbv zeta.
  pose proof (agrees_put t x y (set_retired_inbox_seqs (cursor_entry x t) []) H) as H1.
  pose proof (inbox_wf_reset x t Hx) as Hx1. rewrite (agrees_entry _ _ _ H).
  revert H1 Hx1. generalize (put_cursor x t (set_retired_inbox_seqs (cursor_entry x t) [])) as x1.
  generalize (put_cursor y t (set_retired_inbox_seqs (cursor_entry x t) [])) as y1. intros y1 x1 H1 Hx1.
  assert (agrees t (make_ack_window_room core now x1 t seq) (make_ack_window_room core now y1 t seq)) as H2.
  { unfold make_ack_window_room. rewrite (agrees_rows _ _ _ H1). by apply agrees_make_room_loop. }
  revert H2. generalize (make_ack_window_room core now x1 t seq) as x2.
  generalize (make_ack_window_room core now y1 t seq) as y2. intros y2 x2 H2.
  rewrite (agrees_entry _ _ _ H2). by apply agrees_advance, agrees_retire, agrees_put.
Qed.

Lemma agrees_selector t x y ack : agrees t x y -> ack_selector y t ack = ack_selector x t ack.
Proof. intros H. unfold ack_selector, legacy_seq_for_envelope. by rewrite (ag_pending _ _ _ H). Qed.

Lemma agrees_checks core t x y ack seq :
  agrees t x y -> ack_checks core y t ack seq = ack_checks core x t ack seq.
Proof.
  intros H. unfold ack_checks, check_ack_window_room.
  by rewrite (ag_cursor _ _ _ H), (agrees_rows _ _ _ H), (ag_incarnation _ _ _ H).
Qed.

(** An acknowledgement has the same answer and the same effect on the target. *)
Lemma agrees_apply_ack core now t x y ack :
  inbox_wf x -> agrees t x y ->
  (apply_ack_for_target core now y t ack).1 = (apply_ack_for_target core now x t ack).1 /\
  agrees t (apply_ack_for_target core now x t ack).2 (apply_ack_for_target core now y t ack).2.
Proof.
  intros Hx H. unfold apply_ack_for_target. rewrite (agrees_selector _ _ _ _ H).
  destruct (ack_selector x t ack) as [seq|e]; [|done]. rewrite (agrees_checks _ _ _ _ _ _ H).
  destruct (ack_checks core x t ack seq) as [[]|e]; [|done]. cbv zeta.
  pose proof (agrees_acked_state core now t x y (ack_envelope_id ack) seq Hx H) as H'.
  revert H'. generalize (acked_state core now x t (ack_envelope_id ack) seq) as x'.
  generalize (acked_state core now y t (ack_envelope_id ack) seq) as y'. intros y' x' H'.
  cbn [fst snd]. by rewrite (agrees_entry _ _ _ H').
Qed.

Lemma inbox_wf_apply_ack core now x t ack :
  inbox_wf x -> inbox_wf (apply_ack_for_target core now x t ack).2.
Proof. intros Hx. by apply (grows_apply_ack_for_target core now x t ack). Qed.

(** A well-formed inbox has a well-formed copy. *)
Lemma clone_wf x t : inbox_wf x -> inbox_wf (clone_ack_target x t).
Proof.
  intros Hx. assert (forall t', rows (clone_ack_target x t) t' = if decide (t' = t) then rows x t else ∅) as Hr.
  { intros t'. unfold rows. simpl. unfold target_map. case_decide; subst.
    - destruct (pending x !! t); [by rewrite lookup_singleton_eq|by rewrite lookup_empty].
    - destruct (pending x !! t); [by rewrite lookup_singleton_ne|by rewrite lookup_empty]. }
  split; try done.
  - intros t' s e. rewrite Hr. case_decide; subst; [apply Hx|by rewrite lookup_empty].
  - intros t' c s e. rewrite Hr. case_decide; subst; [|by rewrite lookup_empty].
    cbn [cursors clone_ack_target]. rewrite target_map_lookup. apply Hx.
Qed.
End simulation.

(** ** Publishing a cursor *)

Section publish.
Context {P : Type} `{!PublicationApi P}.
Implicit Types (core : option P) (now : Z) (x y : OpaqueDeviceInbox) (t : string).

Definition retire_all now x t (l : list N) : OpaqueDeviceInbox :=
  foldl (fun x seq => (retire_pending now x t seq).2) x l.

Record retired_all x y t (l : list N) : Prop := {
  ra_rows t' : rows y t' = if decide (t' = t) then filter (fun p => p.1 ∉ l) (rows x t) else rows x t';
  ra_cursors : cursors y = cursors x;
  ra_next : next_seq y = next_seq x;
  ra_incarnations : incarnations y = incarnations x;
  ra_wf : inbox_wf x -> inbox_wf y;
}.

Lemma retire_all_spec now x t l : retired_all x (retire_all now x t l) t l.
Proof.
  revert x. induction l as [|s l IH]; intros x; simpl.
  { split; try done. intros t'. case_decide; subst; [|done].
    symmetry. apply map_filter_id. intros i e _. apply not_elem_of_nil. }
  destruct (IH (retire_pending now x t s).2) as [Hr Hc Hn Hi Hw].
  destruct (retire_pending_frame now x t s) as (Hc' & Hn' & Hi' & _).
  split; [|congruence..|intros; by apply Hw, inbox_wf_retire].
  intros t'. fold (retire_all now (retire_pending now x t s).2 t l). rewrite Hr, !retire_pending_rows.
  destruct (decide (t' = t)) as [->|]; [|done]. rewrite decide_True by done.
  apply map_eq. intros i. apply option_eq. intros e.
  rewrite !map_lookup_filter_Some, lookup_delete_Some, not_elem_of_cons. simpl. naive_solver.
Qed.

Lemma merged_cursor_fields now x c previous :
  let c' := merged_cursor now x c previous in
  cur_target c' = cur_target c /\
  settled_inbox_seq c' = N.max (settled_inbox_seq c) (settled_inbox_seq (cursor_entry x (cur_target c))) /\
  acked_inbox_seqs c' = acked_inbox_seqs c ∪ acked_inbox_seqs (cursor_entry x (cur_target c)) /\
  retired_inbox_seqs c' = retired_inbox_seqs c.
Proof.
  unfold merged_cursor, cursor_entry. cbv zeta. destruct (cursors x !! cur_target c) as [live|]; simpl.
  - done.
  - split_and!; [done|lia|by rewrite union_empty_r_L|done].
Qed.

(** The cursor a publication stores, before settlement advances. *)
Definition restored now x c previous : CursorAckState :=
  set_retired_inbox_seqs (bound_receipts (merged_cursor now x c previous)) [].

Lemma restored_fields now x c previous :
  cur_target (restored now x c previous) = cur_target c /\
  settled_inbox_seq (restored now x c previous) =
    N.max (settled_inbox_seq c) (settled_inbox_seq (cursor_entry x (cur_target c))) /\
  acked_inbox_seqs (restored now x c previous) =
    acked_inbox_seqs c ∪ acked_inbox_seqs (cursor_entry x (cur_target c)).
Proof.
  destruct (merged_cursor_fields now x c previous) as (H1 & H2 & H3 & _).
  unfold restored. revert H1 H2 H3. generalize (merged_cursor now x c previous) as m.
  intros m H1 H2 H3. split_and!; [exact H1|exact H2|exact H3].
Qed.

Record published_effect x y c t (gone : list N) (boundary : N) : Prop := {
  pe_rows : rows y t = filter (fun p => p.1 ∉ gone) (rows x t);
  pe_other t' : t' <> t -> rows y t' = rows x t' /\ cursors y !! t' = cursors x !! t';
  pe_settled : settled_inbox_seq (cursor_entry y t) =
    N.max (N.max (settled_inbox_seq c) (settled_inbox_seq (cursor_entry x t)))
      (settle_floor y t boundary);
  pe_acked : acked_inbox_seqs (cursor_entry y t) =
    filter (fun s => settled_inbox_seq (cursor_entry y t) < s)
      (acked_inbox_seqs c ∪ acked_inbox_seqs (cursor_entry x t));
  pe_cursor : exists c', cursors y !! t = Some c' /\ cur_target c' = t;
  pe_incarnations : incarnations y = incarnations x;
  pe_wf : inbox_wf x ->
    (forall s e, rows x t !! s = Some e -> s ∉ gone -> settled_inbox_seq c < s) -> inbox_wf y;
}.

Lemma mark_if_effect x z c t gone boundary (b : bool) :
  published_effect x z c t gone boundary ->
  published_effect x (if b then mark_checkpoint z t else z) c t gone boundary.
Proof.
  intros H. destruct b; [|done]. destruct H as [H1 H2 H3 H4 H5 H6 Hw]. split; try done.
  intros Hx Ha. by destruct (Hw Hx Ha); split.
Qed.

Lemma inbox_wf_put_advance x t c boundary :
  cursors x !! t = Some c -> inbox_wf x -> inbox_wf (put_cursor x t (advance_cursor x t boundary c)).
Proof.
  intros Hc Hx. pose proof (inbox_wf_advance_through x t boundary Hx) as H.
  by rewrite advance_settled_through_eq, Hc in H.
Qed.

Lemma inbox_wf_store x t m nx di :
  inbox_wf x -> (forall s e, rows x t !! s = Some e -> settled_inbox_seq m < s) ->
  inbox_wf (set_dead_letter_index (put_cursor (set_next_seq x nx) t m) di).
Proof.
  intros Hx Hm. assert (inbox_wf (set_next_seq x nx)) as Hx' by (by destruct Hx; split).
  pose proof (inbox_wf_put_cursor _ t m Hx' Hm) as H. by destruct H; split.
Qed.

(** Storing a cursor over retired rows and advancing settlement. *)
Lemma restore_advance_effect x x1 t gone c m boundary :
  retired_all x x1 t gone -> cur_target m = t ->
  settled_inbox_seq m = N.max (settled_inbox_seq c) (settled_inbox_seq (cursor_entry x t)) ->
  acked_inbox_seqs m = acked_inbox_seqs c ∪ acked_inbox_seqs (cursor_entry x t) ->
  forall nx di, published_effect x
    (advance_settled_through (set_dead_letter_index (put_cursor (set_next_seq x1 nx) t m) di) t boundary)
    c t gone boundary.
Proof.
  intros Hra Ht Hs Ha nx di. rewrite advance_settled_through_eq.
  set (z := set_dead_letter_index (put_cursor (set_next_seq x1 nx) t m) di).
  assert (cursors z !! t = Some m) as Hz by apply lookup_insert_eq.
  assert (forall t', rows z t' = rows x1 t') as Hzr by done. rewrite Hz.
  assert (forall t' b, settle_floor (put_cursor z t (advance_cursor z t boundary m)) t' b = settle_floor z t' b)
    as Hfl by done.
  split; rewrite ?cursor_entry_put, ?Hfl.
  - change (rows z t = filter (fun p => p.1 ∉ gone) (rows x t)).
    rewrite Hzr, (ra_rows _ _ _ _ Hra), decide_True by done. done.
  - intros t' Hne. split.
    + change (rows z t' = rows x t'). by rewrite Hzr, (ra_rows _ _ _ _ Hra), decide_False.
    + cbn [cursors put_cursor set_cursors set_dead_letter_index set_next_seq z].
      rewrite !lookup_insert_ne by done. by rewrite (ra_cursors _ _ _ _ Hra).
  - cbn [settled_inbox_seq advance_cursor]. by rewrite Hs.
  - cbn [settled_inbox_seq acked_inbox_seqs advance_cursor]. by rewrite Ha.
  - cbn [cursors put_cursor set_cursors]. rewrite lookup_insert_eq. by eauto.
  - apply (ra_incarnations _ _ _ _ Hra).
  - intros Hx Habove. apply inbox_wf_put_advance; [exact Hz|].
    apply inbox_wf_store; [by apply (ra_wf _ _ _ _ Hra)|]. intros s e.
    rewrite (ra_rows _ _ _ _ Hra), decide_True by done. intros [He Hg]%map_lookup_filter_Some.
    rewrite Hs. apply N.max_lub_lt; [by eapply Habove|by eapply inbox_wf_cursor_entry].
Qed.

Lemma publish_effect now x c acked previous boundary :
  published_effect x (publish_ack_cursor now x c acked previous boundary) c (cur_target c)
    (acked ++ retired_inbox_seqs c) boundary.
Proof.
  unfold publish_ack_cursor. cbv zeta.
  destruct (merged_cursor_fields now x c previous) as (_ & _ & _ & ->).
  destruct (restored_fields now x c previous) as (Ht & Hs & Ha).
  fold (retire_all now x (cur_target c) (acked ++ retired_inbox_seqs c)).
  pose proof (retire_all_spec now x (cur_target c) (acked ++ retired_inbox_seqs c)) as Hra.
  unfold restore_cursor_state. fold (restored now x c previous). cbv zeta. unfold rebuild_dead_letter_index.
  rewrite Ht. revert Ht Hs Ha. generalize (restored now x c previous) as m. intros m Ht Hs Ha.
  revert Hra. generalize (retire_all now x (cur_target c) (acked ++ retired_inbox_seqs c)) as x1. intros x1 Hra.
  match goal with |- context [advance_settled_through (set_dead_letter_index (put_cursor (set_next_seq x1 ?nx) _ m) ?di)] =>
    pose proof (restore_advance_effect x x1 (cur_target c) _ c m boundary Hra Ht Hs Ha nx di) as He end.
  revert He. match goal with |- published_effect _ ?z _ _ _ _ -> _ => generalize z end.
  intros z He. destruct (cursor_state z (cur_target c)) as [c'|]; [|done].
  case_decide; [|done]. by apply (mark_if_effect x z c _ _ _ true).
Qed.
End publish.

(** ** Running a batch *)

Section run.
Context {P : Type} `{!PublicationApi P}.
Implicit Types (core : option P) (now : Z) (x y : OpaqueDeviceInbox) (t : string).

(** Settlement has been advanced as far as the core allows. *)
Record advanced core x t : Prop := {
  ad_floor : settle_floor x t (settlement_boundary core x t) <= settled_inbox_seq (cursor_entry x t);
  ad_acked s : s ∈ acked_inbox_seqs (cursor_entry x t) -> settled_inbox_seq (cursor_entry x t) < s;
}.

Lemma advanced_advance core x t : is_Some (cursors x !! t) -> advanced core (advance_settled core x t) t.
Proof.
  intros [c Hc]. unfold advance_settled. rewrite advance_settled_through_eq, Hc.
  set (b := settlement_boundary core x t). split; rewrite cursor_entry_put; cbn [settled_inbox_seq acked_inbox_seqs advance_cursor].
  - change (settle_floor (put_cursor x t (advance_cursor x t b c)) t
      (settlement_boundary core (put_cursor x t (advance_cursor x t b c)) t)) with (settle_floor x t b). lia.
  - intros s [? _]%elem_of_filter. done.
Qed.

Lemma advanced_acked_state core now x t id seq : advanced core (acked_state core now x t id seq) t.
Proof.
  unfold acked_state. cbv zeta. apply advanced_advance.
  match goal with |- context [retire_pending now ?z t seq] => destruct (retire_pending_frame now z t seq) as (-> & _) end.
  cbn [cursors put_cursor set_cursors]. rewrite lookup_insert_eq. eauto.
Qed.

(** What a batch did to its candidate, which started as [y]. *)
Record batch_effect y t (b : Batch) : Prop := {
  be_rows : rows (candidate b) t =
    filter (fun p => p.1 ∉ acknowledged b /\ p.1 ∉ batch_retired b) (rows y t);
  be_wf : inbox_wf (candidate b);
  be_disposed s : s ∈ acknowledged b \/ s ∈ batch_retired b \/ disposed (cursor_entry y t) s ->
    disposed (cursor_entry (candidate b) t) s;
  be_settled : settled_inbox_seq (cursor_entry y t) <= settled_inbox_seq (cursor_entry (candidate b) t);
  be_next : next_seq (candidate b) = next_seq y;
  be_incarnations : incarnations (candidate b) = incarnations y;
  be_target : cur_target (cursor_entry (candidate b) t) = cur_target (cursor_entry y t);
  be_cursor : acknowledged b <> [] -> is_Some (cursors (candidate b) !! t);
  be_none : acknowledged b = [] -> batch_retired b = ∅;
}.

Lemma batch_effect_start y t : inbox_wf y -> batch_effect y t (mkBatch y [] ∅ []).
Proof.
  intros Hy. split; simpl; try done.
  - symmetry. apply map_filter_id. intros i e _. split; [apply not_elem_of_nil|apply not_elem_of_empty].
  - intros s [?%not_elem_of_nil|[?%not_elem_of_empty|?]]; done.
Qed.

(** The states a step of the batch can lead to. *)
Lemma batch_step_cases t (b : Batch) (o : Observed P) :
  (exists e, batch_step t b o = mkBatch (candidate b) (results b ++ [Err e]) (batch_retired b) (acknowledged b)) \/
  exists seq c, let y := acked_state (ob_core o) (ob_now o) (candidate b) t (ack_envelope_id (ob_ack o)) seq in
    cursors y !! t = Some c /\
    batch_step t b o = mkBatch y (results b ++ [Ok c])
      (list_to_set (retired_inbox_seqs c) ∪ batch_retired b) (acknowledged b ++ [seq]).
Proof.
  unfold batch_step. destruct (index_check _ _ _) as [[]|e]; [|eauto].
  destruct (apply_ack_for_target_cases (ob_core o) (ob_now o) (candidate b) t (ob_ack o))
    as [[e ->]|(seq & c & _ & _ & Heq & Hc)]; [eauto|]. right. exists seq, c. split; [exact Hc|].
  rewrite Heq. cbv zeta. do 2 f_equal. rewrite <-(cursor_entry_Some _ _ _ Hc).
  rewrite (ae_last _ _ _ _ (acked_state_effect _ _ _ _ _ _)). done.
Qed.

Lemma batch_effect_step y t b (o : Observed P) : batch_effect y t b -> batch_effect y t (batch_step t b o).
Proof.
  intros Hb. destruct (batch_step_cases t b o) as [[e ->]|(seq & c & Hc & ->)].
  { by destruct Hb; split. }
  pose proof (acked_state_effect (ob_core o) (ob_now o) (candidate b) t (ack_envelope_id (ob_ack o)) seq) as He.
  pose proof (inbox_wf_acked_state (ob_core o) (ob_now o) (candidate b) t (ack_envelope_id (ob_ack o)) seq (be_wf _ _ _ Hb)) as Hw.
  pose proof (gr_named _ _ _ (grows_acked_state (ob_core o) (ob_now o) (candidate b) t (ack_envelope_id (ob_ack o)) seq) t) as Ht.
  revert Hc He Hw Ht. cbv zeta.
  generalize (acked_state (ob_core o) (ob_now o) (candidate b) t (ack_envelope_id (ob_ack o)) seq) as z.
  intros z Hc He Hw Ht. pose proof (cursor_entry_Some _ _ _ Hc) as Hce. rewrite Hce in *.
  destruct He as [Hr _ _ _ Hd Hs _ Hn Hi]. rewrite Hce in *. destruct Hb as [Br Bw Bd Bs Bn Bi Bt Bc Bo].
  split; simpl; rewrite ?Hce; try done; try congruence; try lia.
  - rewrite Hr, Br. apply map_eq. intros i. apply option_eq. intros e.
    rewrite !map_lookup_filter_Some, lookup_delete_Some, map_lookup_filter_Some. simpl.
    rewrite elem_of_app, list_elem_of_singleton, elem_of_union, elem_of_list_to_set. naive_solver.
  - intros s. rewrite elem_of_app, list_elem_of_singleton, elem_of_union, elem_of_list_to_set.
    intros Hs'. apply Hd. destruct Hs' as [[?| ->]|[[?|?]|?]]; [|by left|by right; left| |];
      right; right; apply Bd; auto.
  - by intros [_ ?]%app_eq_nil.
Qed.

Lemma batch_run_effect x t (acks : list (Observed P)) :
  inbox_wf x -> batch_effect (clone_ack_target x t) t (batch_run x t acks).
Proof.
  intros Hx. unfold batch_run.
  pose proof (batch_effect_start (clone_ack_target x t) t (clone_wf x t Hx)) as Hb.
  revert Hb. generalize (mkBatch (clone_ack_target x t) [] ∅ []) as b.
  induction acks as [|o acks IH]; intros b Hb; simpl; [done|]. by apply IH, batch_effect_step.
Qed.

(** The floor stays below what the batch observed. *)
Lemma batch_upper x t (acks : list (Observed P)) (bound : N) :
  settled_inbox_seq (cursor_entry x t) <= bound ->
  Forall (fun o => settlement_boundary (ob_core o) x t <= bound) acks ->
  settled_inbox_seq (cursor_entry (candidate (batch_run x t acks)) t) <= bound.
Proof.
  intros Hx Ha. unfold batch_run.
  assert (settled_inbox_seq (cursor_entry (clone_ack_target x t) t) <= bound /\
    forall core, settlement_boundary core (clone_ack_target x t) t = settlement_boundary core x t) as [H1 H2].
  { split; [by rewrite (agrees_entry _ _ _ (clone_agrees x t))|].
    intros core. apply agrees_boundary, clone_agrees. }
  change (clone_ack_target x t) with (candidate (mkBatch (clone_ack_target x t) [] ∅ [])) in H1, H2.
  revert H1 H2. generalize (mkBatch (clone_ack_target x t) [] ∅ []) as b.
  induction Ha as [|o acks Ho _ IH]; intros b H1 H2; simpl; [done|]. apply IH.
  - destruct (batch_step_cases t b o) as [[e ->]|(seq & c & _ & ->)]; [done|]. simpl.
    pose proof (gr_upper _ _ _ (grows_acked_state (ob_core o) (ob_now o) (candidate b) t
      (ack_envelope_id (ob_ack o)) seq) t) as Hu. rewrite H2 in Hu. lia.
  - intros core. rewrite <-H2.
    destruct (batch_step_cases t b o) as [[e ->]|(seq & c & _ & ->)]; [done|]. simpl.
    pose proof (acked_state_effect (ob_core o) (ob_now o) (candidate b) t
      (ack_envelope_id (ob_ack o)) seq) as [_ _ _ _ _ _ _ Hn Hi]. by apply settlement_boundary_eq.
Qed.

(** The batch run directly on an inbox. *)
Definition sequential_step t (acc : OpaqueDeviceInbox * list (result NodeCoreError CursorAckState))
    (o : Observed P) : OpaqueDeviceInbox * list (result NodeCoreError CursorAckState) :=
  match index_check (ob_index o) t (ob_ack o) with
  | Err e => (acc.1, acc.2 ++ [Err e])
  | Ok _ =>
      let '(r, y) := apply_ack_for_target (ob_core o) (ob_now o) acc.1 t (ob_ack o) in (y, acc.2 ++ [r])
  end.

Definition sequential x t (acks : list (Observed P)) := foldl (sequential_step t) (x, []) acks.

Record simulates core t (acc : OpaqueDeviceInbox * list (result NodeCoreError CursorAckState)) x (b : Batch) : Prop := {
  sim_agrees : agrees t acc.1 (candidate b);
  sim_wf : inbox_wf acc.1;
  sim_results : results b = acc.2;
  sim_advanced : acknowledged b <> [] -> advanced core (candidate b) t;
  sim_none : acknowledged b = [] -> cursors acc.1 !! t = cursors x !! t /\ rows acc.1 t = rows x t;
}.

Lemma simulates_step core t acc x b (o : Observed P) :
  ob_core o = core -> simulates core t acc x b -> simulates core t (sequential_step t acc o) x (batch_step t b o).
Proof.
  intros Ho [Hag Hw Hres Had Hno]. unfold sequential_step, batch_step.
  destruct (index_check _ _ _) as [[]|e]; [|split; simpl; try done; by rewrite Hres].
  destruct (agrees_apply_ack (ob_core o) (ob_now o) t acc.1 (candidate b) (ob_ack o) Hw Hag) as [Hfst Hag'].
  pose proof (inbox_wf_apply_ack (ob_core o) (ob_now o) acc.1 t (ob_ack o) Hw) as Hw'.
  destruct (apply_ack_for_target_cases (ob_core o) (ob_now o) (candidate b) t (ob_ack o))
    as [[e Heq]|(seq & c & _ & _ & Heq & Hc)].
  - destruct (apply_ack_for_target_cases (ob_core o) (ob_now o) acc.1 t (ob_ack o))
      as [[e' Heq']|(? & c' & _ & _ & Heq' & _)]; rewrite Heq, Heq' in *; simpl in Hfst; [|done].
    injection Hfst as ->. split; simpl; try done. by rewrite Hres.
  - pose proof (advanced_acked_state (ob_core o) (ob_now o) (candidate b) t (ack_envelope_id (ob_ack o)) seq) as Hadv.
    pose proof (ae_last _ _ _ _ (acked_state_effect (ob_core o) (ob_now o) (candidate b) t (ack_envelope_id (ob_ack o)) seq)) as Hl.
    rewrite (cursor_entry_Some _ _ _ Hc) in Hl. revert Heq Hc Hadv Hl. cbv zeta.
    generalize (acked_state (ob_core o) (ob_now o) (candidate b) t (ack_envelope_id (ob_ack o)) seq) as z.
    intros z Heq Hc Hadv Hl. rewrite Heq in *. simpl in Hfst, Hag'.
    destruct (apply_ack_for_target (ob_core o) (ob_now o) acc.1 t (ob_ack o)) as [r y] eqn:E. simpl in *. subst r.
    split; simpl; try done; [by rewrite Hres|by rewrite <-Ho|].
    rewrite Hl. simpl. by intros [_ ?]%app_eq_nil.
Qed.

Lemma simulates_run core x t (acks : list (Observed P)) :
  inbox_wf x -> Forall (fun o => ob_core o = core) acks ->
  simulates core t (sequential x t acks) x (batch_run x t acks).
Proof.
  intros Hx Ha. unfold sequential, batch_run.
  assert (simulates core t (x, []) x (mkBatch (clone_ack_target x t) [] ∅ [])) as H
    by (split; simpl; try done; apply clone_agrees).
  revert H. generalize (x, @nil (result NodeCoreError CursorAckState)) as acc.
  generalize (mkBatch (clone_ack_target x t) [] ∅ []) as b.
  induction Ha as [|o acks Ho _ IH]; intros b acc H; simpl; [done|]. by apply IH, simulates_step.
Qed.
End run.

(** ** Properties *)

Section properties.
Context {P : Type} `{!PublicationApi P}.

(** The cursor a batch hands to the store and publishes. *)
Lemma leased_published (x : OpaqueDeviceInbox) t (acks : list (Observed P)) commit gate live core now rs live' :
  inbox_wf x -> (forall c, cursors x !! t = Some c -> cur_target c = t) ->
  apply_ack_batch_leased x t acks commit gate live core now = (Ok rs, live') ->
  let b := batch_run x t acks in
  rs = results b /\
  ((acknowledged b = [] /\ live' = live) \/
   (acknowledged b <> [] /\ exists c, cursors (candidate b) !! t = Some c /\
    published_effect live live' c t (acknowledged b ++ bs_elems (batch_retired b))
      (settlement_boundary core live t))).
Proof.
  intros Hx Hn. unfold apply_ack_batch_leased. cbv zeta.
  pose proof (batch_run_effect x t acks Hx) as Hb. revert Hb.
  generalize (batch_run x t acks) as b. intros b Hb. pose proof (be_target _ _ _ Hb) as Ht.
  rewrite (agrees_entry _ _ _ (clone_agrees x t)) in Ht.
  assert (cur_target (cursor_entry (candidate b) t) = t) as Hname.
  { rewrite Ht. unfold cursor_entry. destruct (cursors x !! t) as [c|] eqn:E; [by apply Hn|done]. }
  destruct (acknowledged b) as [|a l] eqn:Ea; [intros [= <- <-]; auto|].
  destruct (cursors (candidate b) !! t) as [c|] eqn:Ec; [|done].
  rewrite (cursor_entry_Some _ _ _ Ec) in Hname.
  destruct (commit _ _ ≫= _) as [u|e]; [|done]. intros [= <- <-]. split; [done|]. right. split; [done|].
  exists c. split; [done|]. rewrite <-Hname at 3 4.
  set (c' := set_retired_inbox_seqs c (bs_elems (batch_retired b))).
  pose proof (publish_effect now live c' (a :: l) (previous_dead_letters x t)
    (settlement_boundary core live t)) as [H1 H2 H3 H4 H5 H6 H7].
  change (cur_target c') with (cur_target c) in *. rewrite Hname in *. by split.
Qed.

Lemma published_node_inv p x y c t :
  node_inv p x -> inbox_wf y -> incarnations y = incarnations x ->
  (forall t', t' <> t -> rows y t' = rows x t' /\ cursors y !! t' = cursors x !! t') ->
  settled_inbox_seq c <= settlement_boundary (Some p) x t ->
  settled_inbox_seq (cursor_entry y t) = N.max (N.max (settled_inbox_seq c) (settled_inbox_seq (cursor_entry x t)))
    (settle_floor y t (settlement_boundary (Some p) x t)) ->
  node_inv p y.
Proof.
  intros [_ Hs] Hw Hi Ho Hc Hset. split; [done|]. intros t'.
  assert (settlement_boundary (Some p) y t' = settlement_boundary (Some p) x t') as ->.
  { unfold settlement_boundary. by rewrite Hi. }
  destruct (decide (t' = t)) as [->|Hne].
  - rewrite Hset. pose proof (settle_floor_le y t (settlement_boundary (Some p) x t)). specialize (Hs t). lia.
  - destruct (Ho t' Hne) as [_ Hcu]. by rewrite (cursor_entry_cursors _ _ _ Hcu).
Qed.

(** The inbox invariant after a batch is published, and the cursors. *)
Lemma leased_node_inv (x : OpaqueDeviceInbox) t (acks : list (Observed P)) commit gate live p now rs live' :
  inbox_wf x -> (forall c, cursors x !! t = Some c -> cur_target c = t) -> node_inv p live ->
  settled_inbox_seq (cursor_entry x t) <= settlement_boundary (Some p) live t ->
  Forall (fun o => settlement_boundary (ob_core o) x t <= settlement_boundary (Some p) live t) acks ->
  (forall s e, rows live t !! s = Some e -> rows x t !! s = None ->
     settled_inbox_seq (cursor_entry (candidate (batch_run x t acks)) t) < s) ->
  apply_ack_batch_leased x t acks commit gate live (Some p) now = (Ok rs, live') ->
  node_inv p live' /\
  (live' = live \/ incarnations live' = incarnations live /\ (exists c, cursors live' !! t = Some c /\ cur_target c = t) /\
     forall t', t' <> t -> cursors live' !! t' = cursors live !! t').
Proof.
  intros Hx Hname Hlive Hset Hobs Hnew Happ.
  destruct (leased_published _ _ _ _ _ _ _ _ _ _ Hx Hname Happ) as [_ [[Hnone ->]|(Hsome & c & Hc & He)]]; [auto|].
  pose proof (batch_run_effect x t acks Hx) as Hb. pose proof (batch_upper x t acks _ Hset Hobs) as Hup.
  rewrite (cursor_entry_Some _ _ _ Hc) in *. destruct He as [Hr Ho Hs Ha Hcur Hi Hw]. split.
  - apply (published_node_inv p live live' c t); [done| |done..]. apply Hw; [apply Hlive|].
    intros s e He Hg. destruct (rows x t !! s) as [e'|] eqn:Ex; [|by eapply Hnew].
    apply (wf_settled _ (be_wf _ _ _ Hb) t c s e'); [done|].
    rewrite (be_rows _ _ _ Hb), (agrees_rows _ _ _ (clone_agrees x t)). apply map_lookup_filter_Some.
    split; [done|]. rewrite elem_of_app, elem_of_bs_elems in Hg. naive_solver.
  - right. split; [done|]. split; [done|]. intros t' Hne. by apply Ho.
Qed.

(** C24: A batch of acknowledgements is published safely around concurrent
    traffic. The candidate is a copy taken earlier; meanwhile deliveries may
    have been appended, expired or settled. If the deliveries appended since
    the copy are above the candidate's floor, and the boundaries the batch
    observed are no further than the current one, then publishing keeps the
    inbox invariant, removes exactly the acknowledged and retired deliveries of
    this target, touches no other target, and loses no disposition that either
    the batch or the live inbox had recorded. *)
Theorem ack_batch_keeps_invariant (x : OpaqueDeviceInbox) t (acks : list (Observed P)) commit gate
    live p now rs live' :
  inbox_wf x -> (forall c, cursors x !! t = Some c -> cur_target c = t) -> node_inv p live ->
  settled_inbox_seq (cursor_entry x t) <= settlement_boundary (Some p) live t ->
  Forall (fun o => settlement_boundary (ob_core o) x t <= settlement_boundary (Some p) live t) acks ->
  (forall s e, rows live t !! s = Some e -> rows x t !! s = None ->
     settled_inbox_seq (cursor_entry (candidate (batch_run x t acks)) t) < s) ->
  apply_ack_batch_leased x t acks commit gate live (Some p) now = (Ok rs, live') ->
  let b := batch_run x t acks in
  node_inv p live' /\
  rows live' t = filter (fun q => q.1 ∉ acknowledged b /\ q.1 ∉ batch_retired b) (rows live t) /\
  (forall t', t' <> t -> rows live' t' = rows live t' /\ cursors live' !! t' = cursors live !! t') /\
  (forall s, s ∈ acknowledged b \/ s ∈ batch_retired b \/ disposed (cursor_entry live t) s ->
     disposed (cursor_entry live' t) s).
Proof.
  intros Hx Hname Hlive Hset Hobs Hnew Happ. cbv zeta.
  pose proof (leased_node_inv _ _ _ _ _ _ _ _ _ _ Hx Hname Hlive Hset Hobs Hnew Happ) as [Hinv _].
  destruct (leased_published _ _ _ _ _ _ _ _ _ _ Hx Hname Happ) as [_ [[Hnone ->]|(Hsome & c & Hc & He)]].
  - pose proof (be_none _ _ _ (batch_run_effect x t acks Hx) Hnone) as Hret.
    split; [done|]. rewrite Hnone, Hret. split_and!; [|done|].
    + symmetry. apply map_filter_id. intros i e _. split; [apply not_elem_of_nil|apply not_elem_of_empty].
    + intros s [?%not_elem_of_nil|[?%not_elem_of_empty|?]]; done.
  - pose proof (batch_run_effect x t acks Hx) as Hb. pose proof (cursor_entry_Some _ _ _ Hc) as Hce.
    destruct He as [Hr Ho Hs Ha _ _ _]. split; [done|]. split; [|split; [done|]].
    + rewrite Hr. apply map_filter_ext. intros s e _. simpl. rewrite elem_of_app, elem_of_bs_elems. naive_solver.
    + intros s Hs'. unfold disposed. rewrite Ha.
      destruct (decide (s <= settled_inbox_seq (cursor_entry live' t))); [by left|right].
      apply elem_of_filter. split; [lia|]. apply elem_of_union.
      assert (disposed c s \/ disposed (cursor_entry live t) s) as Hd.
      { destruct Hs' as [?|[?|?]]; [left..|by right]; rewrite <-Hce; apply (be_disposed _ _ _ Hb); auto. }
      rewrite Hs in *. destruct Hd as [[?|?]|[?|?]]; [lia|by left|lia|by right].
Qed.

(** A batch is its acknowledgements one after another. Published without
    concurrent traffic, it answers every member as if it had been applied
    directly to the live inbox, and leaves the target with the same deliveries,
    the same settled floor and the same out-of-order acknowledgements. *)
Theorem ack_batch_is_sequential core (x : OpaqueDeviceInbox) t (acks : list (Observed P)) commit gate now rs x' :
  inbox_wf x -> (forall c, cursors x !! t = Some c -> cur_target c = t) ->
  Forall (fun o => ob_core o = core) acks ->
  apply_ack_batch_leased x t acks commit gate x core now = (Ok rs, x') ->
  let '(y, answers) := sequential x t acks in
  rs = answers /\ rows x' t = rows y t /\
  settled_inbox_seq (cursor_entry x' t) = settled_inbox_seq (cursor_entry y t) /\
  acked_inbox_seqs (cursor_entry x' t) = acked_inbox_seqs (cursor_entry y t).
Proof.
  intros Hx Hname Hcore Happ. pose proof (simulates_run core x t acks Hx Hcore) as [Hag Hw Hres Hadv Hno].
  pose proof (batch_run_effect x t acks Hx) as Hb.
  destruct (leased_published _ _ _ _ _ _ _ _ _ _ Hx Hname Happ) as [-> [[Hnone ->]|(Hsome & c & Hc & He)]].
  - destruct (sequential x t acks) as [y answers]. simpl in *. destruct (Hno Hnone) as [Hcu ->].
    by rewrite (cursor_entry_cursors _ _ _ Hcu).
  - specialize (Hadv Hsome). revert Hag Hres Hadv Hb Hc He. generalize (batch_run x t acks) as b.
    destruct (sequential x t acks) as [y answers]. simpl in *. clear.
    intros b Hag Hres [Hfloor Hacked] Hb Hc [Hr _ Hs Ha _ _ _].
    pose proof (cursor_entry_Some _ _ _ Hc) as Hce. rewrite <-(agrees_entry _ _ _ Hag), <-(agrees_rows _ _ _ Hag).
    rewrite Hce in *. destruct Hb as [Br _ Bd Bs Bn Bi _ _ _]. rewrite Hce in *.
    rewrite (agrees_entry _ _ _ (clone_agrees x t)) in *. rewrite (agrees_rows _ _ _ (clone_agrees x t)) in Br.
    assert (rows x' t = rows (candidate b) t) as Hrows.
    { rewrite Hr, Br. apply map_filter_ext. intros s e _. simpl. rewrite elem_of_app, elem_of_bs_elems. naive_solver. }
    assert (settlement_boundary core (candidate b) t = settlement_boundary core x t) as Hbd.
    { rewrite (settlement_boundary_eq core (clone_ack_target x t) (candidate b) t Bn Bi).
      apply agrees_boundary, clone_agrees. }
    assert (settled_inbox_seq (cursor_entry x' t) = settled_inbox_seq c) as Hset.
    { rewrite Hs. unfold settle_floor in *. rewrite Hrows. rewrite Hbd in Hfloor. lia. }
    split_and!; [done|done|done|]. rewrite Ha, Hset. apply set_eq. intros s.
    rewrite elem_of_filter, elem_of_union. split.
    + intros [Hlt [?|Hin]]; [done|]. destruct (Bd s) as [?|?]; [by right; right; right|lia|done].
    + intros Hin. split; [by apply Hacked|by left].
Qed.
End properties.

(** ** Runs *)

Module AckBatchRun.
Import Run InboxRun.

Definition allocate_seq (n : N) (t id : string) : result NodeCoreError N :=
  if decide (t = "bob" /\ id = "inc") then Ok n else Err (Redb "no reservation").

(** The first delivery is appended and published. *)
Definition z1 : OpaqueDeviceInbox := restore_incarnation inbox_new "bob" "inc".
Definition z2 : OpaqueDeviceInbox :=
  (append_published (Some (registry (w_sh w2))) (allocate_seq 1) z1 (envelope "m1") 100).2.
(** The second one follows: appended, stored, published. *)
Definition z3 : OpaqueDeviceInbox :=
  (append_published (Some (registry (w_sh w3))) (allocate_seq 2) z2 (envelope "m2") 100).2.
Definition w7 : World := finished (accepted_by (handed_off w3 1) 1) 1 false.

Definition observed (w : World) : Observed Registry :=
  mkObserved (Some (registry (w_sh w))) 100 ∅ (ack "m1" 1).
Definition committed (c : CursorAckState) (l : list N) : result NodeCoreError unit := Ok tt.

Lemma w2_w3 : rtc step w2 w3.
Proof.
  eapply rtc_l; [apply (handed_off_step w2 0); by vm_compute|].
  eapply rtc_l; [apply (step_accept _ 0); by vm_compute|].
  apply rtc_once, step_finish. by vm_compute.
Qed.

Lemma w3_w7 : rtc step w3 w7.
Proof.
  eapply rtc_l; [apply (handed_off_step w3 1); by vm_compute|].
  eapply rtc_l; [apply (step_accept _ 1); by vm_compute|].
  apply rtc_once, step_finish. by vm_compute.
Qed.

Lemma publication_steps w w' x : rtc step w w' -> rtc sys_step (w, x) (w', x).
Proof. induction 1; [done|]. eapply rtc_l; [by apply sys_publication|done]. Qed.

Lemma sys_steps a b : sys_reachable a -> rtc sys_step a b -> sys_reachable b.
Proof. intros Ha Hs. induction Hs; [done|]. by apply IHHs, (sys_next x). Qed.

Lemma append_step w x n envelope_ l r y :
  (exists i, inboxes (registry (w_sh w)) !! mkKey "bob" "inc" = Some i /\ in_flight i !! n = Some l) ->
  append_published (Some (registry (w_sh w))) (allocate_seq n) x envelope_ 100 = (r, y) ->
  sys_step (w, x) (w, y).
Proof.
  intros (i & Hi & Hl) Ha. eapply sys_append; [|exact Ha]. unfold allocate_seq. intros t id s.
  case_decide as Hk; [|done]. destruct Hk as [-> ->]. intros [= <-]. eauto.
Qed.

Lemma z2_reachable : sys_reachable (w3, z2).
Proof.
  assert (forall a, reachable a -> sys_reachable (a, inbox_new)) as Hrea.
  { induction 1; [by apply sys_init|]. eapply sys_next; [done|]. by apply sys_publication. }
  eapply (sys_steps (w2, z2)); [|apply publication_steps, w2_w3].
  eapply (sys_next (w2, z1)).
  - eapply sys_next; [apply Hrea, w2_reachable|]. by apply sys_restore_incarnation.
  - eapply (append_step w2 z1 1 (envelope "m1") 0); [exists (inbox_of w2); by vm_compute|].
    apply surjective_pairing.
Qed.

Lemma z2_steps : rtc sys_step (w3, z2) (w7, z3).
Proof.
  eapply rtc_l; [|apply publication_steps, w3_w7].
  eapply (append_step w3 z2 2 (envelope "m2") 1); [exists (inbox_of w3); by vm_compute|].
  apply surjective_pairing.
Qed.

Lemma z3_inv : node_inv (registry (w_sh w7)) z3.
Proof. apply (sys_reachable_inv (w7, z3)), (sys_steps _ _ z2_reachable z2_steps). Qed.

Lemma z2_wf : inbox_wf z2.
Proof. apply (sys_reachable_inv (w3, z2) z2_reachable). Qed.

Definition published : result NodeCoreError (list (result NodeCoreError CursorAckState)) * OpaqueDeviceInbox :=
  apply_ack_batch_leased z2 "bob" [observed w3] committed (Ok tt) z3 (Some (registry (w_sh w7))) 100.

(** The acknowledgement observes the core before the second delivery is
    published: everything is kept. *)
Lemma ack_batch_keeps_invariant_witness :
  is_ok published.1 = true /\ node_inv (registry (w_sh w7)) published.2.
Proof.
  split; [by vm_compute|].
  apply (ack_batch_keeps_invariant z2 "bob" [observed w3] committed (Ok tt) z3 (registry (w_sh w7)) 100
    (results (batch_run z2 "bob" [observed w3])) published.2).
  - apply z2_wf.
  - intros c Hc. assert (cursors z2 !! "bob" = Some (cursor_entry z2 "bob")) as Hz by by vm_compute.
    rewrite Hz in Hc. injection Hc as <-. by vm_compute.
  - apply z3_inv.
  - by vm_compute.
  - constructor; [by vm_compute|constructor].
  - assert (rows z3 "bob" = {[ 1 := mkEntry 1 "bob" (envelope "m1"); 2 := mkEntry 2 "bob" (envelope "m2") ]}) as ->
      by by vm_compute.
    intros s e [[<- _]|[_ [<- _]%lookup_singleton_Some]]%lookup_insert_Some; by vm_compute.
  - by vm_compute.
Defined.

Lemma ack_batch_is_sequential_witness :
  rows (apply_ack_batch_leased z2 "bob" [observed w3] committed (Ok tt) z2 (Some (registry (w_sh w3))) 100).2 "bob"
  = rows (sequential z2 "bob" [observed w3]).1 "bob".
Proof.
  pose proof (ack_batch_is_sequential (Some (registry (w_sh w3))) z2 "bob" [observed w3] committed (Ok tt) 100
    (results (batch_run z2 "bob" [observed w3]))
    (apply_ack_batch_leased z2 "bob" [observed w3] committed (Ok tt) z2 (Some (registry (w_sh w3))) 100).2) as H.
  destruct (sequential z2 "bob" [observed w3]) as [y answers] eqn:E. apply H.
  - apply z2_wf.
  - intros c Hc. assert (cursors z2 !! "bob" = Some (cursor_entry z2 "bob")) as Hz by by vm_compute.
    rewrite Hz in Hc. injection Hc as <-. by vm_compute.
  - by repeat constructor.
  - by vm_compute.
Defined.
End AckBatchRun.

(** C30: The condition on concurrent deliveries is needed. Between the copy and
    the acknowledgement, which hold no lock together, a delivery can be
    appended and published; the candidate then settles up to the new boundary
    although its copy lacks the delivery, and the published cursor's floor
    passes a delivery that is still pending. Every step is one the system can
    take. *)
Theorem candidate_settles_concurrent_append :
  sys_reachable (Run.w3, AckBatchRun.z2) /\
  rtc sys_step (Run.w3, AckBatchRun.z2) (AckBatchRun.w7, AckBatchRun.z3) /\
  let p := apply_ack_batch_leased AckBatchRun.z2 "bob" [AckBatchRun.observed AckBatchRun.w7]
    AckBatchRun.committed (Ok tt) AckBatchRun.z3 (Some (registry (w_sh AckBatchRun.w7))) 100 in
  is_ok p.1 = true /\ settled_inbox_seq (cursor_entry p.2 "bob") = 2 /\ is_Some (rows p.2 "bob" !! 2).
Proof.
  split; [apply AckBatchRun.z2_reachable|]. split; [apply AckBatchRun.z2_steps|].
  cbv zeta. split_and!; [by vm_compute|by vm_compute|vm_compute; eauto].
Qed.
