(* ===== verification/InboxSystem.v ===== *)
(** * The inbox in its node

    The whole traffic of a shard's inbox: the publication core, the operations of
    inbox.rs, batches of acknowledgements that copy the inbox, run on the copy while
    the traffic goes on and publish their cursor later, and the operations that
    restore stored entries and cursors and merge inboxes. *)

From S2P Require Import Prelude OrdMap Ranges Publication PublicationSteps PublicationProps.
From S2P Require Import Wire Inbox InboxFacts InboxProps AckBatch AckBatchProps.

Open Scope N_scope.

(** ** Definitions used by the statements *)

(** A batch that is running: its target, the inbox it was copied from, and the
    acknowledgements applied to the copy so far, each with what it observed. *)
Record Running := mkRunning {
  rb_target : string;
  rb_copy : OpaqueDeviceInbox;
  rb_acks : list (Observed Registry);
}.

Record Node := mkNode {
  nd_world : World;
  nd_inbox : OpaqueDeviceInbox;
  nd_batches : gmap nat Running;
}.

Definition core_of (w : World) : option Registry := Some (registry (w_sh w)).

(** The deliveries that are pending now and were not in the copy are above the
    floor of the candidate, and the inbox has not been removed or replaced. *)
Definition publishable (x : OpaqueDeviceInbox) (b : Running) : Prop :=
  incarnations x !! rb_target b = incarnations (rb_copy b) !! rb_target b /\
  forall s e, rows x (rb_target b) !! s = Some e -> rows (rb_copy b) (rb_target b) !! s = None ->
    settled_inbox_seq (cursor_entry (candidate (batch_run (rb_copy b) (rb_target b) (rb_acks b))) (rb_target b)) < s.

(** Nothing is stored for the targets that [other] has something for. *)
Definition disjoint_targets (x other : OpaqueDeviceInbox) : Prop :=
  forall t, is_Some (incarnations other !! t) \/ is_Some (cursors other !! t) \/ rows other t <> ∅ ->
    incarnations x !! t = None /\ cursors x !! t = None /\ rows x t = ∅.

(** Each cursor is stored under its own target. *)
Definition named (x : OpaqueDeviceInbox) : Prop := forall t, cur_target (cursor_entry x t) = t.

Inductive node_step : Node -> Node -> Prop :=
| node_sys w x w' x' bs : sys_step (w, x) (w', x') -> node_step (mkNode w x bs) (mkNode w' x' bs)
(** [apply_ack_batch_leased]: the copy, one acknowledgement, the publication. *)
| node_copy w x bs i t : bs !! i = None -> node_step (mkNode w x bs) (mkNode w x (<[i := mkRunning t x []]> bs))
| node_acknowledge w x bs i b now index ack :
    bs !! i = Some b ->
    node_step (mkNode w x bs)
      (mkNode w x (<[i := mkRunning (rb_target b) (rb_copy b) (rb_acks b ++ [mkObserved (core_of w) now index ack])]> bs))
| node_publish w x bs i b commit gate now r x' :
    bs !! i = Some b -> publishable x b ->
    apply_ack_batch_leased (rb_copy b) (rb_target b) (rb_acks b) commit gate x (core_of w) now = (r, x') ->
    node_step (mkNode w x bs) (mkNode w x' (delete i bs))
(** Restoring what is stored: an entry above the floor, a cursor whose floor is
    below the pending deliveries and within the settlement boundary. *)
| node_restore_entry w x bs now e deadline :
    settled_inbox_seq (cursor_entry x (en_target e)) < inbox_seq e ->
    node_step (mkNode w x bs) (mkNode w (restore_pending_entry_until now x e deadline) bs)
| node_restore_cursor w x bs c :
    (forall s e, rows x (cur_target c) !! s = Some e -> settled_inbox_seq c < s) ->
    settled_inbox_seq c <= settlement_boundary (core_of w) x (cur_target c) ->
    node_step (mkNode w x bs) (mkNode w (restore_cursor_state x c) bs)
| node_observe_issued w x bs t s :
    node_step (mkNode w x bs) (mkNode w (observe_issued_seq (core_of w) x t s) bs)
(** Merging the inbox of another shard of the node, which has other targets. *)
| node_merge w x bs now other :
    disjoint_targets x other -> named other -> node_inv (registry (w_sh w)) other ->
    node_step (mkNode w x bs) (mkNode w (merge_from now x other) bs).

Inductive node_reachable : Node -> Prop :=
| node_init w : initial w -> node_reachable (mkNode w inbox_new ∅)
| node_next a b : node_reachable a -> node_step a b -> node_reachable b.

(** ** Restoring *)

Section restore.
Context {P : Type} `{!PublicationApi P} {ok : P -> Prop} `{!PublicationLaws P ok}.
Implicit Types (p : P) (x : OpaqueDeviceInbox).

Lemma inbox_wf_same x y :
  (forall t, rows y t = rows x t) -> cursors y = cursors x -> (forall t s, deadline_of y t s = deadline_of x t s) ->
  expiry_ready y = expiry_ready x -> expiry_due y = expiry_due x -> inbox_wf x -> inbox_wf y.
Proof.
  intros Hr Hc Hd He Hdu [H1 H2 H3 H4]. split.
  - intros t s e. rewrite Hr. apply H1.
  - intros t c s e. rewrite Hc, Hr. apply H2.
  - intros Hready d t s. rewrite Hdu, Hr, Hd. apply H3. by rewrite <- He.
  - intros Hready t s e. rewrite Hr, Hd. apply H4. by rewrite <- He.
Qed.

Lemma restore_entry_spec now x e d :
  let y := restore_pending_entry_until now x e d in
  incarnations y = incarnations x /\
  (forall t, settled_inbox_seq (cursor_entry y t) = settled_inbox_seq (cursor_entry x t) /\
     cur_target (cursor_entry y t) = cur_target (cursor_entry x t)) /\
  (forall t s e', rows y t !! s = Some e' -> rows x t !! s = Some e' \/ t = en_target e /\ s = inbox_seq e /\ e' = e) /\
  (inbox_wf x -> settled_inbox_seq (cursor_entry x (en_target e)) < inbox_seq e -> inbox_wf y).
Proof.
  cbv zeta. unfold restore_pending_entry_until. set (t := en_target e). set (s := inbox_seq e).
  set (x1 := set_next_seq (put_cursor x t (set_issued_inbox_seq (cursor_entry x t) (N.max (issued_inbox_seq (cursor_entry x t)) s))) _).
  assert (forall t', settled_inbox_seq (cursor_entry x1 t') = settled_inbox_seq (cursor_entry x t') /\
     cur_target (cursor_entry x1 t') = cur_target (cursor_entry x t')) as Hc1.
  { intros t'. unfold cursor_entry, x1. simpl. destruct (decide (t' = t)) as [->|]; [by rewrite lookup_insert_eq|by rewrite lookup_insert_ne]. }
  assert (inbox_wf x -> inbox_wf x1) as Hw1.
  { intros Hw. eapply (inbox_wf_same (put_cursor x t _)); [done..|]. apply inbox_wf_put_cursor; [done|]. intros s' e'.
    apply (inbox_wf_cursor_entry x t s' e' Hw). }
  change (rows (put_cursor _ _ _)) with (rows x). assert (forall t', rows x1 t' = rows x t') as Hr1 by done.
  cbv zeta. rewrite Hr1. generalize (match d with Some d => d | None => inbox_legacy_retain_until (en_envelope e) now end) as dl. intros dl.
  assert (incarnations x1 = incarnations x) as Hi1 by done. clearbody x1. destruct (rows x t !! s) as [e0|] eqn:E.
  - set (y := set_pending x1 _). assert (forall t', rows y t' = rows x1 t') as Hry.
    { intros t'. unfold rows at 1, y. simpl. destruct (decide (t' = t)) as [->|]; [by rewrite lookup_insert_eq, Hr1|].
      by rewrite lookup_insert_ne. }
    split_and!; [done|done|intros t' s' e'; rewrite Hry, Hr1; by left|].
    intros Hw _. by apply (inbox_wf_same x1); [..|apply Hw1].
  - rewrite <- Hr1. set (x2 := set_pending x1 _). destruct (set_deadline_frame x2 t s dl) as (Hp & Hc & _ & Hi & _). split_and!.
    + by rewrite Hi.
    + intros t'. rewrite (cursor_entry_cursors x1); [done|]. by rewrite Hc.
    + intros t' s' e'. unfold rows at 1. rewrite Hp. unfold x2. simpl. destruct (decide (t' = t)) as [->|].
      * rewrite lookup_insert_eq. cbn [default from_option id]. intros [[<- <-]|[_ H]]%lookup_insert_Some; [by right|left; by rewrite <- Hr1].
      * rewrite lookup_insert_ne by done. intros H. left. rewrite <- Hr1. exact H.
    + intros Hw Hlt. apply (inbox_wf_insert x1 e dl (Hw1 Hw)); [fold s; lia|]. by rewrite (proj1 (Hc1 _)).
Qed.

Lemma restore_cursor_spec x c :
  let y := restore_cursor_state x c in
  incarnations y = incarnations x /\ (forall t, rows y t = rows x t) /\
  (forall t, t <> cur_target c -> cursor_entry y t = cursor_entry x t) /\
  settled_inbox_seq (cursor_entry y (cur_target c)) = settled_inbox_seq c /\
  cur_target (cursor_entry y (cur_target c)) = cur_target c /\
  (inbox_wf x -> (forall s e, rows x (cur_target c) !! s = Some e -> settled_inbox_seq c < s) -> inbox_wf y).
Proof.
  cbv zeta. unfold restore_cursor_state. set (c' := set_retired_inbox_seqs (bound_receipts c) []).
  change (cur_target c') with (cur_target c). set (t := cur_target c). cbv zeta.
  match goal with |- context [put_cursor (set_next_seq x ?n) t c'] => set (x1 := set_next_seq x n) end.
  assert (cursor_entry (rebuild_dead_letter_index (put_cursor x1 t c') t) t = c') as He by (apply cursor_entry_put).
  split_and!; [done|done| |by rewrite He|by rewrite He|].
  - intros t' Hne. apply cursor_entry_cursors. simpl. by rewrite lookup_insert_ne.
  - intros Hw Hc. apply (inbox_wf_same (put_cursor x1 t c')); [done..|]. apply inbox_wf_put_cursor; [|done].
    by apply (inbox_wf_same x).
Qed.

Lemma observe_issued_spec (core : option P) x t s :
  let y := observe_issued_seq core x t s in
  incarnations y = incarnations x /\
  (inbox_wf x -> inbox_wf y) /\
  (forall t', cur_target (cursor_entry y t') = cur_target (cursor_entry x t')) /\
  (forall p, core = Some p -> forall t', settled_inbox_seq (cursor_entry y t') <=
     N.max (settled_inbox_seq (cursor_entry x t')) (settlement_boundary core x t')).
Proof.
  cbv zeta. unfold observe_issued_seq. case_decide.
  { split_and!; [done|by apply inbox_wf_same|done|]. intros p _ t'.
    change (settled_inbox_seq (cursor_entry x t') <= N.max (settled_inbox_seq (cursor_entry x t')) (settlement_boundary core x t')). lia. }
  set (x1 := set_next_seq x _).
  assert (grows core x1 (mark_checkpoint (advance_settled core (put_cursor x1 t (set_issued_inbox_seq (cursor_entry x1 t)
    (N.max (issued_inbox_seq (cursor_entry x1 t)) s))) t) t)) as [Hw _ Hu _ Hi Hn].
  { etrans; [|apply grows_mark]. etrans; [|apply grows_advance]. by apply grows_put_cursor. }
  split_and!; [by rewrite Hi|intros Hx; by apply Hw, (inbox_wf_same x)|done|].
  intros p -> t'. specialize (Hu t'). exact Hu.
Qed.

(** The two invariants of an inbox beside its core. *)
Definition sound p x : Prop := node_inv p x /\ named x.

Lemma boundary_incarnations p x y t :
  incarnations y !! t = incarnations x !! t -> settlement_boundary (Some p) y t = settlement_boundary (Some p) x t.
Proof. unfold settlement_boundary. by intros ->. Qed.

Lemma sound_restore_entry p now x e d :
  settled_inbox_seq (cursor_entry x (en_target e)) < inbox_seq e -> sound p x -> sound p (restore_pending_entry_until now x e d).
Proof.
  intros Hlt [[Hw Hs] Hn]. destruct (restore_entry_spec now x e d) as (Hi & Hc & _ & Hwf). split; [split; [by apply Hwf|]|].
  - intros t. rewrite (proj1 (Hc t)), (boundary_incarnations p x) by (by rewrite Hi). apply Hs.
  - intros t. rewrite (proj2 (Hc t)). apply Hn.
Qed.

Lemma sound_restore_cursor p x c :
  (forall s e, rows x (cur_target c) !! s = Some e -> settled_inbox_seq c < s) ->
  settled_inbox_seq c <= settlement_boundary (Some p) x (cur_target c) ->
  sound p x -> sound p (restore_cursor_state x c).
Proof.
  intros Hr Hb [[Hw Hs] Hn]. destruct (restore_cursor_spec x c) as (Hi & _ & Hother & Hset & Hname & Hwf).
  split; [split; [by apply Hwf|]|].
  - intros t. rewrite (boundary_incarnations p x) by (by rewrite Hi).
    destruct (decide (t = cur_target c)) as [->|Hne]; [by rewrite Hset|]. by rewrite Hother.
  - intros t. destruct (decide (t = cur_target c)) as [->|Hne]; [done|]. by rewrite Hother.
Qed.

Lemma sound_observe_issued p x t s : sound p x -> sound p (observe_issued_seq (Some p) x t s).
Proof.
  intros [[Hw Hs] Hn]. destruct (observe_issued_spec (Some p) x t s) as (Hi & Hwf & Hc & Hu). split; [split; [by apply Hwf|]|].
  - intros t'. rewrite (boundary_incarnations p x) by (by rewrite Hi). specialize (Hs t'). specialize (Hu p eq_refl t'). lia.
  - intros t'. rewrite Hc. apply Hn.
Qed.

(** ** Merging *)

(** While the entries of [other] are restored, its targets have only entries of
    [other] and no floor. *)
Record merging p other x : Prop := {
  mg_sound : sound p x;
  mg_incarnations t : is_Some (cursors other !! t) \/ rows other t <> ∅ -> incarnations x !! t = incarnations other !! t;
  mg_rows t s e : is_Some (cursors other !! t) \/ rows other t <> ∅ -> rows x t !! s = Some e -> rows other t !! s = Some e;
}.

Lemma merging_entries p now other x l :
  inbox_wf other -> Forall (fun e => rows other (en_target e) !! inbox_seq e = Some e) l ->
  merging p other x -> (forall t, rows other t <> ∅ -> settled_inbox_seq (cursor_entry x t) = 0) ->
  merging p other (foldl (fun x e => restore_pending_entry_until now x e (Some (retain_until now other e))) x l).
Proof.
  intros Ho Hl. revert x. induction Hl as [|e l He _ IH]; intros x Hm Hz; [done|]. cbn [foldl].
  assert (rows other (en_target e) <> ∅) as Hne by (intros H; by rewrite H, lookup_empty in He).
  destruct (restore_entry_spec now x e (Some (retain_until now other e))) as (Hi & Hc & Hr & _). destruct Hm as [Hs Hmi Hmr].
  apply IH; [split|].
  - apply sound_restore_entry; [|done]. rewrite Hz by done. apply (wf_row _ Ho) in He. lia.
  - intros t Ht. rewrite Hi. by apply Hmi.
  - intros t s e' Ht [H|(-> & -> & ->)]%Hr; [by eapply Hmr|done].
  - intros t Ht. rewrite (proj1 (Hc t)). by apply Hz.
Qed.

Lemma merging_cursors p other x l :
  node_inv p other -> Forall (fun c => cursors other !! cur_target c = Some c) l ->
  merging p other x -> merging p other (foldl restore_cursor_state x l).
Proof.
  intros [Ho Hb] Hl. revert x. induction Hl as [|c l Hc _ IH]; intros x Hm; [done|]. cbn [foldl]. apply IH.
  destruct (restore_cursor_spec x c) as (Hi & Hr & _). destruct Hm as [Hs Hmi Hmr].
  assert (is_Some (cursors other !! cur_target c)) as Hsome by eauto. split.
  - apply sound_restore_cursor; [| |done].
    + intros s e He. apply (wf_settled _ Ho (cur_target c) c s e Hc). by apply Hmr; [left|].
    + rewrite (boundary_incarnations p other) by (by apply Hmi; left). specialize (Hb (cur_target c)).
      by rewrite (cursor_entry_Some _ _ _ Hc) in Hb.
  - intros t Ht. rewrite Hi. by apply Hmi.
  - intros t s e Ht. rewrite Hr. by apply Hmr.
Qed.

Lemma sound_merge p now x other :
  disjoint_targets x other -> named other -> node_inv p other -> sound p x -> sound p (merge_from now x other).
Proof.
  intros Hd Hn Ho [[Hw Hs] Hx]. unfold merge_from. cbv zeta.
  set (x1 := set_aborted_ranges _ _). assert (forall t, incarnations x1 !! t = incarnations other !! t ∪ incarnations x !! t) as Hi1.
  { intros t. apply (lookup_union (incarnations other) (incarnations x) t). }
  assert (merging p other x1) as Hm.
  { split.
    - split; [split; [by apply (inbox_wf_same x)|]|done]. intros t. specialize (Hs t).
      change (cursor_entry x1 t) with (cursor_entry x t). unfold settlement_boundary in *. rewrite Hi1.
      destruct (incarnations other !! t) as [id|] eqn:E; [|by destruct (incarnations x !! t)].
      destruct (Hd t) as (Hi & Hc & _); [left; eauto|]. unfold cursor_entry. rewrite Hc. cbn. lia.
    - intros t Ht. rewrite Hi1. destruct (Hd t) as (-> & _); [by right|]. by destruct (incarnations other !! t).
    - intros t s e Ht. change (rows x1 t) with (rows x t). destruct (Hd t) as (_ & _ & ->); [by right|]. by rewrite lookup_empty. }
  apply (mg_sound p other), merging_cursors; [done| |apply merging_entries; [apply Ho| |done|]].
  - apply Forall_forall. intros c ([t c'] & -> & Ht%elem_of_bt_entries)%list_elem_of_fmap. cbn [snd]. specialize (Hn t).
    rewrite (cursor_entry_Some _ _ _ Ht) in Hn. by rewrite Hn.
  - apply Forall_forall. intros e (t & s & He)%elem_of_pending_entries. destruct (wf_row _ (ni_wf _ _ Ho) _ _ _ He) as (-> & -> & _). done.
  - intros t Ht. change (cursor_entry x1 t) with (cursor_entry x t). destruct (Hd t) as (_ & Hc & _); [by right; right|].
    unfold cursor_entry. by rewrite Hc.
Qed.
End restore.

(** ** The invariant of the node *)

Lemma named_inbox x : named x <-> forall t c, cursors x !! t = Some c -> cur_target c = t.
Proof.
  unfold named, cursor_entry. split.
  - intros Hn t c Hc. specialize (Hn t). by rewrite Hc in Hn.
  - intros Hn t. destruct (cursors x !! t) as [c|] eqn:E; [by apply Hn|done].
Qed.

Lemma sys_step_named a b : inbox_wf a.2 -> named a.2 -> sys_step a b -> named b.2.
Proof.
  intros Hw Hn Hs. destruct Hs as [w w' x Hs|w x x' Ho|w x allocate envelope at_ r x' Hal Ha|w x t id Hid|w x t]; cbn [fst snd] in *; try done.
  - intros t. rewrite (gr_named _ _ _ (inbox_op_grows _ _ _ Hw Ho)). apply Hn.
  - unfold append_published in Ha. destruct (incarnations x !! target_delivery_id envelope) as [id|]; [|by injection Ha as _ <-].
    destruct (allocate _ id) as [s|e]; [|by injection Ha as _ <-].
    destruct (append_at_spec (set_next_seq x (<[target_delivery_id envelope := s]> (next_seq x))) envelope at_) as (Hc & _).
    destruct (append_at _ _ _) as [e y]. injection Ha as _ <-. cbn [snd] in Hc. intros t. rewrite (proj2 (Hc t)). apply Hn.
  - rewrite named_inbox in *. intros t' c. simpl. intros [_ Hc]%lookup_delete_Some. by apply Hn.
Qed.

(** What a running batch may rely on. *)
Record running_ok (w : World) (b : Running) : Prop := {
  ro_wf : inbox_wf (rb_copy b);
  ro_named : named (rb_copy b);
  ro_settled : settled_inbox_seq (cursor_entry (rb_copy b) (rb_target b)) <=
    settlement_boundary (core_of w) (rb_copy b) (rb_target b);
  ro_observed : Forall (fun o => settlement_boundary (ob_core o) (rb_copy b) (rb_target b) <=
    settlement_boundary (core_of w) (rb_copy b) (rb_target b)) (rb_acks b);
}.

Record node_ok (n : Node) : Prop := {
  no_world : reachable (nd_world n);
  no_sound : sound (registry (w_sh (nd_world n))) (nd_inbox n);
  no_running : map_Forall (fun _ => running_ok (nd_world n)) (nd_batches n);
}.

Lemma running_ok_mono w w' b :
  (forall t id, (settled_view (registry (w_sh w)) t id).1 <= (settled_view (registry (w_sh w')) t id).1) ->
  running_ok w b -> running_ok w' b.
Proof.
  intros Hle [Hw Hn Hs Ho].
  assert (settlement_boundary (core_of w) (rb_copy b) (rb_target b) <= settlement_boundary (core_of w') (rb_copy b) (rb_target b)) as Hb.
  { unfold settlement_boundary, core_of. destruct (incarnations _ !! _) as [id|]; [apply Hle|lia]. }
  split; [done|done|lia|]. eapply Forall_impl; [exact Ho|]. intros o Hob. exact (N.le_trans _ _ _ Hob Hb).
Qed.

Lemma running_ok_acknowledge w b now index ack :
  running_ok w b -> running_ok w (mkRunning (rb_target b) (rb_copy b) (rb_acks b ++ [mkObserved (core_of w) now index ack])).
Proof. intros [Hw Hn Hs Ho]. split; [done..|]. cbn. apply Forall_app. split; [done|]. apply Forall_singleton. done. Qed.

(** Publishing a batch. *)
Lemma sound_publish w x b commit gate now r x' :
  sound (registry (w_sh w)) x -> running_ok w b -> publishable x b ->
  apply_ack_batch_leased (rb_copy b) (rb_target b) (rb_acks b) commit gate x (core_of w) now = (r, x') ->
  sound (registry (w_sh w)) x'.
Proof.
  intros [Hx Hn] [Hw Hnc Hs Ho] [Hinc Hlate] Happ. set (t := rb_target b) in *.
  assert (x' = x \/ exists rs, r = Ok rs) as [->|[rs ->]]; [|done|].
  { unfold apply_ack_batch_leased in Happ. cbv zeta in Happ. repeat case_match; simplify_eq; eauto. }
  assert (settlement_boundary (core_of w) x t = settlement_boundary (core_of w) (rb_copy b) t) as Hbt by by apply boundary_incarnations.
  rewrite <- Hbt in Hs, Ho. rewrite named_inbox in Hnc.
  destruct (leased_node_inv _ _ _ _ _ _ _ _ _ _ Hw (Hnc t) Hx Hs Ho Hlate Happ) as [Hinv [->|(_ & (c & Hc & Hct) & Hother)]]; [done|].
  split; [done|]. rewrite named_inbox in *. intros t' c' Hc'. destruct (decide (t' = t)) as [->|Hne]; [congruence|].
  apply Hn. by rewrite <- Hother.
Qed.

Lemma node_step_ok a b : node_ok a -> node_step a b -> node_ok b.
Proof.
  intros [Hw Hs Hb] Hstep.
  destruct Hstep as [w x w' x' bs Hsys|w x bs i t Hi|w x bs i b now index ack Hi|w x bs i b commit gate now r x' Hi Hp Happ
    |w x bs now e deadline Hlt|w x bs c Hr Hle|w x bs t s|w x bs now other Hd Hn Ho];
    cbn [nd_world nd_inbox nd_batches] in *; split; cbn [nd_world nd_inbox nd_batches]; try done.
  - by destruct (sys_step_inv (w, x) (w', x') Hw (proj1 Hs) Hsys).
  - destruct (sys_step_inv (w, x) (w', x') Hw (proj1 Hs) Hsys) as (_ & Hn & _). split; [done|].
    apply (sys_step_named (w, x) (w', x') (ni_wf _ _ (proj1 Hs)) (proj2 Hs) Hsys).
  - destruct (sys_step_inv (w, x) (w', x') Hw (proj1 Hs) Hsys) as (_ & _ & Hm). intros i b Hi. eapply running_ok_mono; [exact Hm|]. by apply (Hb i).
  - apply map_Forall_insert_2; [|done]. split; cbn; [apply Hs|apply Hs|apply Hs|constructor].
  - apply map_Forall_insert_2; [|done]. apply running_ok_acknowledge. by apply (Hb i).
  - eapply sound_publish; [done|by apply (Hb i)|done|done].
  - by apply map_Forall_delete.
  - by apply sound_restore_entry.
  - by apply sound_restore_cursor.
  - by apply sound_observe_issued.
  - by apply sound_merge.
Qed.

Lemma node_reachable_ok n : node_reachable n -> node_ok n.
Proof.
  induction 1 as [w Hi|a b _ IH Hs]; [|by eapply node_step_ok]. split; cbn; [by apply reachable_init| |apply map_Forall_empty].
  split; [apply node_inv_new|]. intros t. unfold cursor_entry. simpl. by rewrite lookup_empty.
Qed.

(** ** Properties *)

(** C2: The settled floor is safe. Publication actions, appends, acknowledgements,
    negative acknowledgements, expiry, recovery and removal interleave in any order,
    and so do batches of acknowledgements, which run on a copy of the inbox and
    publish their cursor later, stored entries and cursors that are restored, and
    merges of the inbox of another shard. What is required of them is this. A batch
    is published only where the deliveries that came after its copy are above the
    candidate's floor and the inbox is still the one it copied; an incarnation is
    restored where none is known. An entry is restored
    above the floor, and a cursor with a floor below the pending deliveries and
    within the boundary. Merged inboxes satisfy the invariant and have other targets.
    Then a receiver's settled floor stays strictly below every delivery still pending
    for it and strictly below every assignment of its inbox that is not durably
    resolved, so settlement never skips an undelivered or undecided message. *)
Theorem settled_floor_safe w x bs t c :
  node_reachable (mkNode w x bs) -> cursors x !! t = Some c ->
  (forall s e, rows x t !! s = Some e -> settled_inbox_seq c < s) /\
  (forall l d, heap (w_sh w) !! l = Some d -> k_target (d_key d) = t ->
     incarnations x !! t = Some (k_incarnation (d_key d)) ->
     d_state d <> state_code AcceptedDurable -> d_state d <> state_code AbortedDurable ->
     settled_inbox_seq c < d_seq d).
Proof. intros [Hr [Hn _] _]%node_reachable_ok. by apply node_inv_floor. Qed.

(** ** A run with a batch *)

Module InboxSystemRun.
Import Run InboxRun AckBatchRun.

Definition copied : Running := mkRunning "bob" z2 [].
Definition acknowledging : Running := mkRunning "bob" z2 [observed w3].

Lemma sys_node a b bs : rtc sys_step a b -> node_reachable (mkNode a.1 a.2 bs) -> node_reachable (mkNode b.1 b.2 bs).
Proof.
  intros Hs Ha. induction Hs as [|[w x] [w' x'] c Hab _ IH]; [done|]. apply IH. eapply node_next; [exact Ha|]. by apply node_sys.
Qed.

Lemma sys_node_reachable a : sys_reachable a -> node_reachable (mkNode a.1 a.2 ∅).
Proof.
  induction 1 as [w Hi|[w x] [w' x'] _ IH Hs]; [by apply node_init|]. eapply node_next; [exact IH|]. by apply node_sys.
Qed.

(** A batch copies the inbox and acknowledges the first delivery; the second one is
    appended and published; then the batch publishes its cursor. *)
Lemma batch_reachable : node_reachable (mkNode w7 published.2 ∅).
Proof.
  assert (node_reachable (mkNode w3 z2 {[ 0%nat := acknowledging ]})) as H.
  { eapply node_next; [eapply node_next; [exact (sys_node_reachable _ z2_reachable)|]|].
    - by apply (node_copy w3 z2 ∅ 0 "bob").
    - pose proof (node_acknowledge w3 z2 (<[0%nat := copied]> ∅) 0 copied 100 ∅ (ack "m1" 1) (lookup_insert_eq _ _ _)) as Hs.
      rewrite insert_insert_eq in Hs. exact Hs. }
  apply (sys_node _ _ _ z2_steps) in H. eapply node_next; [exact H|]. cbn [fst snd].
  replace ∅ with (delete 0%nat ({[ 0%nat := acknowledging ]} : gmap nat Running)) by (apply delete_singleton_eq).
  eapply (node_publish w7 z3 _ 0 acknowledging committed (Ok tt) 100 published.1); [apply lookup_singleton_eq| |apply surjective_pairing].
  split; [by vm_compute|].
  assert (rows z3 "bob" = {[ 1 := mkEntry 1 "bob" (envelope "m1"); 2 := mkEntry 2 "bob" (envelope "m2") ]}) as Hrows by by vm_compute.
  cbn [rb_target rb_copy rb_acks acknowledging]. rewrite Hrows.
  intros s e [[<- _]|[_ [<- _]%lookup_singleton_Some]]%lookup_insert_Some; by vm_compute.
Qed.
End InboxSystemRun.

Import Run InboxRun AckBatchRun InboxSystemRun.

Lemma settled_floor_safe_witness :
  settled_inbox_seq (cursor_entry published.2 "bob") = 1 /\ settled_inbox_seq (cursor_entry published.2 "bob") < 2.
Proof.
  destruct (settled_floor_safe w7 published.2 ∅ "bob" (cursor_entry published.2 "bob") batch_reachable) as [Hrow _]; [by vm_compute|].
  split; [by vm_compute|]. apply (Hrow 2 (mkEntry 2 "bob" (envelope "m2"))). by vm_compute.
Defined.
