(* ===== verification/Replay.v ===== *)
(** * Replay protection

    ramflux-protocol/src/replay.rs and device_address.rs, and
    ramflux-node-core/src/replay_guard.rs with its legacy-row isolation. The
    base64 and JSON libraries and the hash of a request tuple are parameters;
    each theorem names what it relies on of them. Clocks are [i64] seconds; the
    unchecked addition of the clock skew wraps, as in a release build. *)

From S2P Require Import Prelude OrdMap Publication Wire.

Open Scope Z_scope.

(** ** Strings *)

(** [str::strip_prefix]. *)
Fixpoint strip_prefix (p s : string) : option string :=
  match p, s with
  | EmptyString, _ => Some s
  | String a p, String b s => if decide (a = b) then strip_prefix p s else None
  | String _ _, EmptyString => None
  end.

Definition starts_with (p s : string) : bool := bool_decide (is_Some (strip_prefix p s)).

(** [str::split_once] on a character. *)
Fixpoint split_once (c : Ascii.ascii) (s : string) : option (string * string) :=
  match s with
  | EmptyString => None
  | String a s => if decide (a = c) then Some ("", s)
                  else (fun p => (String a p.1, p.2)) <$> split_once c s
  end.

Fixpoint has_char (c : Ascii.ascii) (s : string) : Prop :=
  match s with EmptyString => False | String a s => a = c \/ has_char c s end.

Definition slash : Ascii.ascii := Ascii.ascii_of_nat 47.

(** ** Data *)

Record RootQualifiedDeviceRef := mkDeviceRef {
  root_commitment : string;
  device_id : string;
  storage_key : string;
}.

Inductive HttpMethod := GET | POST | PUT | DELETE.

Record SignedRequest := mkRequest {
  rq_schema : string;
  rq_version : N;
  rq_domain : string;
  rq_ext : gmap string Value;
  rq_signed : SignedFields;
  rq_source_device_id : string;
  rq_request_id : string;
  rq_method : HttpMethod;
  rq_path : string;
  rq_device_proof_hash : string;
  rq_body_hash : string;
  rq_nonce : string;
  rq_created_at : Z;
  rq_expires_at : Z;
}.

Inductive ProtocolError :=
| InvalidIdentityRecord (what : string)
| Canonical (what : string)
| IJson (what : string)
| InvalidBase64Url (field source : string)
| SignedRequestExpired
| SignedRequestFromFuture
| SignedRequestExpiryTooLong
| ReplayError (key : string).

#[export] Instance ProtocolError_eq_dec : EqDecision ProtocolError.
Proof. solve_decision. Defined.

(** The messages of the protocol errors. *)
Definition protocol_error_text (e : ProtocolError) : string :=
  match e with
  | InvalidIdentityRecord what => "invalid identity record: " +:+ what
  | Canonical what => "canonical serialization failed: " +:+ what
  | IJson what => "I-JSON ingress rejected: " +:+ what
  | InvalidBase64Url field source => "invalid base64url field " +:+ field +:+ ": " +:+ source
  | SignedRequestExpired => "signed request expired"
  | SignedRequestFromFuture => "signed request created too far in the future"
  | SignedRequestExpiryTooLong => "signed request expiry exceeds maximum accepted validity"
  | ReplayError key => "nonce replay detected for " +:+ key
  end.

(** [ReplayGuard] and [NodeReplayGuardState] both are a map of accepted keys to
    their expiry. *)
Record NodeReplayGuardState := mkGuard { accepted_by_key : gmap string Z }.

Definition guard_new : NodeReplayGuardState := mkGuard ∅.

Definition prune_guard (g : NodeReplayGuardState) (now : Z) : NodeReplayGuardState :=
  mkGuard (filter (fun p => now <= p.2) (accepted_by_key g)).

Definition retain_keys (g : NodeReplayGuardState) (keep : string -> bool) : NodeReplayGuardState :=
  mkGuard (filter (fun p => keep p.1 = true) (accepted_by_key g)).

Section guard.
Variable encode_base64url : string -> string.
Variable decode_base64url : string -> result string string.
(** serde_json's text of a pair of strings, and the strict JSON reader. *)
Variable json_pair : string -> string -> string.
Variable parse_pair : string -> result string (string * string).
(** base64url of the hash of the canonical JSON of a request tuple. *)
Variable tuple_hash : string -> string -> string -> string -> result string string.

(** ** Device addresses *)

Definition qualified_device_id (root device : string) : result ProtocolError string :=
  if bool_decide (root = "") || bool_decide (256 < String.length root)%nat ||
     bool_decide (device = "") || bool_decide (1024 < String.length device)%nat
  then Err (InvalidIdentityRecord "invalid qualified device address")
  else Ok ("root~" +:+ encode_base64url (json_pair root device)).

Definition parse_qualified_device_id (value : string)
  : result ProtocolError (option (string * string)) :=
  match strip_prefix "root~" value with
  | None => Ok None
  | Some encoded =>
      if bool_decide (2048 < String.length value)%nat
      then Err (InvalidIdentityRecord "qualified address too large") else
      match decode_base64url encoded with
      | Err source => Err (InvalidBase64Url "device address" source)
      | Ok bytes =>
          match parse_pair bytes with
          | Err what => Err (IJson what)
          | Ok (root, device) =>
              match qualified_device_id root device with
              | Err e => Err e
              | Ok encoded =>
                  if decide (encoded = value) then Ok (Some (root, device))
                  else Err (InvalidIdentityRecord "noncanonical device address")
              end
          end
      end
  end.

(** ** Keys *)

Definition replay_tuple_key (source : RootQualifiedDeviceRef) (request : SignedRequest)
  : result ProtocolError string :=
  let key :=
    match tuple_hash (root_commitment source) (device_id source) (rq_nonce request)
            (rq_request_id request) with
    | Ok hash => Ok ("request/v2/" +:+ hash)
    | Err what => Err (Canonical what)
    end in
  if decide (rq_source_device_id request = device_id source) then key else
  match qualified_device_id (root_commitment source) (device_id source) with
  | Err e => Err e
  | Ok qualified =>
      if decide (rq_source_device_id request = qualified) then key
      else Err (InvalidIdentityRecord "signed request source identity mismatch")
  end.

Definition envelope_replay_tuple_key (source : RootQualifiedDeviceRef) (envelope : Envelope) : string :=
  "envelope/v3/" +:+ storage_key source +:+ "/" +:+ encode_base64url (envelope_id envelope) +:+ "/" +:+
    encode_base64url (target_delivery_id envelope).

Definition legacy_key (source : RootQualifiedDeviceRef) (envelope : Envelope) : string :=
  "envelope/v2/" +:+ storage_key source +:+ "/" +:+ encode_base64url (envelope_id envelope).

Definition isolated_key (source : RootQualifiedDeviceRef) (envelope : Envelope) : string :=
  "legacy/replay/" +:+ encode_base64url (legacy_key source envelope).

Definition isolate_unknown_key (key : string) : string :=
  let current :=
    match strip_prefix "request/v2/" key with
    | Some hash =>
        match decode_base64url hash with
        | Ok bytes => bool_decide (String.length bytes = 32%nat)
        | Err _ => false
        end
    | None => false
    end ||
    match strip_prefix "envelope/v3/" key with
    | Some suffix =>
        match split_once slash suffix with
        | Some (source, tail) =>
            match split_once slash tail with
            | Some (envelope, target) =>
                match parse_qualified_device_id source with
                | Ok (Some _) => true
                | _ => false
                end && is_ok (decode_base64url envelope) && is_ok (decode_base64url target)
            | None => false
            end
        | None => false
        end
    | None => false
    end in
  if current || starts_with "legacy/replay/" key then key
  else "legacy/replay/" +:+ encode_base64url key.

Definition restore_accepted (g : NodeReplayGuardState) (key : string) (expires_at : Z)
  : NodeReplayGuardState :=
  mkGuard (<[isolate_unknown_key key := expires_at]> (accepted_by_key g)).

(** ** Signed requests *)

(** The checks and the recording of [ReplayGuard::check_signed_request]. *)
Definition protocol_check_signed_request (g : NodeReplayGuardState)
    (source : RootQualifiedDeviceRef) (request : SignedRequest) (now : Z)
  : result ProtocolError unit * NodeReplayGuardState :=
  if bool_decide (rq_expires_at request < now) then (Err SignedRequestExpired, g) else
  if bool_decide (i64_wrapping_add now MAX_CLOCK_SKEW_SECONDS < rq_created_at request)
  then (Err SignedRequestFromFuture, g) else
  if bool_decide (MAX_ENVELOPE_TTL_SECONDS <
                  i64_saturating_sub (rq_expires_at request) (rq_created_at request))
  then (Err SignedRequestExpiryTooLong, g) else
  let g := prune_guard g now in
  match replay_tuple_key source request with
  | Err e => (Err e, g)
  | Ok key =>
      let g' := mkGuard (<[key := rq_expires_at request]> (accepted_by_key g)) in
      match accepted_by_key g !! key with
      | Some _ => (Err (ReplayError key), g')
      | None => (Ok tt, g')
      end
  end.

(** [NodeReplayGuardState::check_signed_request]: validate with a fresh
    protocol guard, then record in the node's map. *)
Definition check_signed_request (g : NodeReplayGuardState)
    (source : RootQualifiedDeviceRef) (request : SignedRequest) (now : Z)
  : result NodeCoreError unit * NodeReplayGuardState :=
  match (protocol_check_signed_request guard_new source request now).1 with
  | Err e => (Err (ReplayGuardError (protocol_error_text e)), g)
  | Ok _ =>
      let g := prune_guard g now in
      match replay_tuple_key source request with
      | Err e => (Err (ReplayGuardError (protocol_error_text e)), g)
      | Ok key =>
          let g' := mkGuard (<[key := rq_expires_at request]> (accepted_by_key g)) in
          match accepted_by_key g !! key with
          | Some _ => (Err (ReplayGuardError ("replay: " +:+ key)), g')
          | None => (Ok tt, g')
          end
      end
  end.

(** ** Envelopes *)

Definition accept_envelope_once (g : NodeReplayGuardState)
    (source : RootQualifiedDeviceRef) (envelope : Envelope) (now : Z)
  : result NodeCoreError bool * NodeReplayGuardState :=
  if bool_decide (source_device_id envelope <> device_id source) &&
     bool_decide (source_device_id envelope <> storage_key source)
  then (Err (ReplayGuardError "envelope source identity mismatch"), g) else
  if match env_ext envelope !! "source_root_commitment" ≫= as_str with
     | Some root => bool_decide (root <> root_commitment source)
     | None => false
     end
  then (Err (ReplayGuardError "envelope source root mismatch"), g) else
  let ttl := Z.of_N (ttl envelope) in
  if bool_decide (MAX_ENVELOPE_TTL_SECONDS < ttl)
  then (Err (ReplayGuardError ("envelope ttl exceeds maximum accepted ttl: " +:+ envelope_id envelope)), g)
  else
  match i64_checked_add (created_at envelope) ttl with
  | None => (Err (TtlExpired (envelope_id envelope)), g)
  | Some expires_at =>
      if bool_decide (expires_at < now) then (Err (TtlExpired (envelope_id envelope)), g) else
      if bool_decide (i64_wrapping_add now MAX_CLOCK_SKEW_SECONDS < created_at envelope)
      then (Err (ReplayGuardError ("envelope created in future: " +:+ envelope_id envelope)), g) else
      let g := prune_guard g now in
      let key := envelope_replay_tuple_key source envelope in
      if bool_decide (is_Some (accepted_by_key g !! key)) ||
         bool_decide (is_Some (accepted_by_key g !! legacy_key source envelope)) ||
         bool_decide (is_Some (accepted_by_key g !! isolated_key source envelope))
      then (Ok false, g)
      else (Ok true, mkGuard (<[key := expires_at]> (accepted_by_key g)))
  end.

Definition check_envelope (g : NodeReplayGuardState)
    (source : RootQualifiedDeviceRef) (envelope : Envelope) (now : Z)
  : result NodeCoreError unit * NodeReplayGuardState :=
  match accept_envelope_once g source envelope now with
  | (Err e, g) => (Err e, g)
  | (Ok true, g) => (Ok tt, g)
  | (Ok false, g) =>
      (Err (ReplayGuardError ("replay: " +:+ envelope_replay_tuple_key source envelope)), g)
  end.

Definition holds_envelope (g : NodeReplayGuardState)
    (source : RootQualifiedDeviceRef) (envelope : Envelope) (now : Z) : bool :=
  existsb (fun key =>
    match accepted_by_key g !! key with Some expiry => bool_decide (now <= expiry) | None => false end)
    [envelope_replay_tuple_key source envelope; legacy_key source envelope;
     isolated_key source envelope].
End guard.
