(* ===== verification/ReplayProps.v ===== *)
(** * Replay protection: properties

    An accepted envelope or request is never accepted again while the clock
    moves forward, the keys of distinct deliveries differ, and keys written to
    disk are recognised when they are read back. *)

From S2P Require Import Prelude OrdMap Publication Wire Replay.

Open Scope Z_scope.

(** ** Strings *)

Lemma strip_prefix_app p s : strip_prefix p (p +:+ s) = Some s.
Proof. induction p as [|a p IH]; simpl; [done|]. by rewrite decide_True. Qed.

Lemma split_once_app c a b :
  ~ has_char c a -> split_once c (a +:+ String c b) = Some (a, b).
Proof.
  induction a as [|x a IH]; simpl; intros Ha; [by rewrite decide_True|].
  rewrite decide_False by tauto. rewrite IH by tauto. done.
Qed.

Lemma split_once_inj c a b a' b' :
  ~ has_char c a -> ~ has_char c a' -> a +:+ String c b = a' +:+ String c b' -> a = a' /\ b = b'.
Proof.
  intros Ha Ha' Heq. pose proof (split_once_app c a b Ha) as H1.
  rewrite Heq, (split_once_app c a' b' Ha') in H1. by simplify_eq.
Qed.

Lemma has_char_app c a b : has_char c (a +:+ b) <-> has_char c a \/ has_char c b.
Proof. induction a as [|x a IH]; simpl; [tauto|]. rewrite IH. tauto. Qed.

Section props.
Variable encode_base64url : string -> string.
Variable decode_base64url : string -> result string string.
Variable json_pair : string -> string -> string.
Variable parse_pair : string -> result string (string * string).
Variable tuple_hash : string -> string -> string -> string -> result string string.

Notation accept := (accept_envelope_once encode_base64url).
Notation check_request := (check_signed_request encode_base64url json_pair tuple_hash).
Notation request_key := (replay_tuple_key encode_base64url json_pair tuple_hash).
Notation envelope_key := (envelope_replay_tuple_key encode_base64url).
Notation isolate := (isolate_unknown_key encode_base64url decode_base64url json_pair parse_pair).
Notation restore := (restore_accepted encode_base64url decode_base64url json_pair parse_pair).

(** Every operation on a guard in use, and the clock. *)
Inductive GuardOp :=
| GTick (now : Z)
| GAccept (source : RootQualifiedDeviceRef) (envelope : Envelope)
| GCheckEnvelope (source : RootQualifiedDeviceRef) (envelope : Envelope)
| GCheckRequest (source : RootQualifiedDeviceRef) (request : SignedRequest)
| GPrune
| GRetain (keep : string -> bool)
| GRestore (key : string) (expires_at : Z).

(** The clock does not run backwards. *)
Inductive guard_step : GuardOp -> NodeReplayGuardState * Z -> NodeReplayGuardState * Z -> Prop :=
| gs_tick g now now' : now <= now' -> guard_step (GTick now') (g, now) (g, now')
| gs_accept g now source envelope :
    guard_step (GAccept source envelope) (g, now) ((accept g source envelope now).2, now)
| gs_check_envelope g now source envelope :
    guard_step (GCheckEnvelope source envelope) (g, now) ((check_envelope encode_base64url g source envelope now).2, now)
| gs_request g now source request :
    guard_step (GCheckRequest source request) (g, now) ((check_request g source request now).2, now)
| gs_prune g now : guard_step GPrune (g, now) (prune_guard g now, now)
| gs_retain g now keep : guard_step (GRetain keep) (g, now) (retain_keys g keep, now)
| gs_restore g now key expires_at : guard_step (GRestore key expires_at) (g, now) (restore g key expires_at, now).

Inductive guard_run : list GuardOp -> NodeReplayGuardState * Z -> NodeReplayGuardState * Z -> Prop :=
| gr_done st : guard_run [] st st
| gr_next op ops a b c : guard_step op a b -> guard_run ops b c -> guard_run (op :: ops) a c.

(** The operations that may end the window of a key recorded until [e]: a sweep
    that does not keep it, a row restored under it with an earlier expiry, and a
    signed request with this key that expires earlier. *)
Definition forgets (k : string) (e : Z) (op : GuardOp) : Prop :=
  match op with
  | GRetain keep => keep k = false
  | GRestore key expires_at => isolate key = k /\ expires_at < e
  | GCheckRequest source request => request_key source request = Ok k /\ rq_expires_at request < e
  | _ => False
  end.

#[local] Instance forgets_dec k e op : Decision (forgets k e op).
Proof. destruct op; simpl; apply _. Defined.

(** Until [e] the key is recorded, with an expiry no earlier than [e]. *)
Definition held (k : string) (e : Z) (st : NodeReplayGuardState * Z) : Prop :=
  st.2 <= e -> exists e', accepted_by_key st.1 !! k = Some e' /\ e <= e'.

Lemma prune_keeps g now k e :
  accepted_by_key g !! k = Some e -> now <= e -> accepted_by_key (prune_guard g now) !! k = Some e.
Proof using. intros He Hle. by apply map_lookup_filter_Some. Qed.

Lemma prune_drops g now k e :
  accepted_by_key g !! k = Some e -> e < now -> accepted_by_key (prune_guard g now) !! k = None.
Proof using. intros He Hlt. apply map_lookup_filter_None. right. intros x Hx. simplify_eq. simpl. lia. Qed.

Lemma held_prune k e g now : held k e (g, now) -> held k e (prune_guard g now, now).
Proof.
  intros Hh Hle. destruct (Hh Hle) as (e' & He' & ?). exists e'. split; [|done]. simpl in *.
  apply map_lookup_filter_Some. simpl. split; [done|lia].
Qed.

Lemma held_insert k e g now k' e0 :
  held k e (g, now) -> (k' = k -> e <= e0) ->
  held k e (mkGuard (<[k' := e0]> (accepted_by_key g)), now).
Proof.
  intros Hh Hk Hle. simpl. destruct (decide (k' = k)) as [->|Hne].
  - rewrite lookup_insert_eq. eauto.
  - rewrite lookup_insert_ne by done. by apply Hh.
Qed.

Lemma accept_cases g source envelope now :
  (exists e, accept g source envelope now = (Err e, g)) \/
  exists e, i64_checked_add (created_at envelope) (Z.of_N (ttl envelope)) = Some e /\ now <= e /\
    (accept g source envelope now = (Ok false, prune_guard g now) \/
     accept g source envelope now =
       (Ok true, mkGuard (<[envelope_key source envelope := e]> (accepted_by_key (prune_guard g now)))) /\
     accepted_by_key (prune_guard g now) !! envelope_key source envelope = None).
Proof.
  unfold accept_envelope_once.
  destruct (bool_decide _ && bool_decide _); [eauto|].
  match goal with |- context [if ?b then _ else _] => destruct b; [eauto|] end.
  destruct (bool_decide (MAX_ENVELOPE_TTL_SECONDS < _)); [eauto|].
  destruct (i64_checked_add _ _) as [e|]; [|eauto].
  case_bool_decide as Hlt; [eauto|]. destruct (bool_decide (_ < created_at envelope)); [eauto|].
  right. exists e. split; [done|]. split; [lia|].
  destruct (_ || _ || _) eqn:E; [by left|right]. split; [done|].
  apply orb_false_iff in E as [[E _]%orb_false_iff _]. apply bool_decide_eq_false in E.
  by apply eq_None_not_Some.
Qed.

Lemma accept_held k e g source envelope now :
  held k e (g, now) -> held k e ((accept g source envelope now).2, now).
Proof.
  intros Hh. destruct (accept_cases g source envelope now) as [[? ->]|(e0 & _ & Hle & [-> |[-> Hnone]])];
    [done|by apply held_prune|].
  apply held_prune in Hh. apply held_insert; [done|]. intros <-.
  destruct (decide (now <= e)) as [Hn|]; [|lia].
  destruct (Hh Hn) as (e' & He' & _). simpl fst in He'. congruence.
Qed.

Lemma check_request_held k e g source request now :
  held k e (g, now) -> (request_key source request = Ok k -> e <= rq_expires_at request) ->
  held k e ((check_request g source request now).2, now).
Proof.
  intros Hh Hk. unfold check_signed_request. destruct (protocol_check_signed_request _ _ _ _ _ _ _).1; [|done].
  apply held_prune in Hh. destruct (request_key source request) as [k'|e'] eqn:E; [|done].
  assert (held k e (mkGuard (<[k' := rq_expires_at request]> (accepted_by_key (prune_guard g now))), now)).
  { apply held_insert; [done|]. intros ->. auto. }
  by case_match.
Qed.

Lemma guard_step_held k e op a b :
  guard_step op a b -> ~ forgets k e op -> held k e a -> held k e b.
Proof using.
  intros [g now now' ?|g now source envelope|g now source envelope|g now source request|g now|g now keep|g now key x] Hop Ha.
  - intros ?. apply Ha. simpl in *. lia.
  - by apply accept_held.
  - unfold check_envelope. pose proof (accept_held k e g source envelope now Ha) as H.
    destruct (accept g source envelope now) as [[[]|] g']; done.
  - apply check_request_held; [done|]. intros Hk. apply Z.nlt_ge. intros ?. by apply Hop.
  - by apply held_prune.
  - intros Hle. destruct (Ha Hle) as (e' & He' & ?). exists e'. split; [|done]. simpl in *.
    apply map_lookup_filter_Some. split; [done|]. simpl. by destruct (keep k) eqn:E; [|destruct Hop].
  - apply held_insert; [done|]. intros Hk. apply Z.nlt_ge. intros ?. by apply Hop.
Qed.

(** A key that is held stays so, unless an operation of the run forgets it. *)
Lemma guard_run_held k e ops a b :
  guard_run ops a b -> held k e a -> held k e b \/ Exists (forgets k e) ops.
Proof using.
  intros Hrun Ha. destruct (decide (Exists (forgets k e) ops)) as [Hx|Hx]; [by right|left].
  induction Hrun as [|op ops a b c Hab _ IH]; [done|]. rewrite Exists_cons in Hx.
  apply IH; [|tauto]. eapply guard_step_held; [done|tauto|done].
Qed.

Lemma request_key_prefix source request k :
  request_key source request = Ok k -> exists h, k = "request/v2/" +:+ h.
Proof.
  unfold replay_tuple_key. destruct (tuple_hash _ _ _ _); repeat case_match; intros; simplify_eq; eauto.
Qed.

Lemma accept_Ok_true g source envelope now g' :
  accept g source envelope now = (Ok true, g') ->
  exists e, i64_checked_add (created_at envelope) (Z.of_N (ttl envelope)) = Some e /\ now <= e /\
    held (envelope_key source envelope) e (g', now).
Proof.
  destruct (accept_cases g source envelope now) as [[? ->]|(e & He & Hle & [-> |[-> _]])]; try done.
  intros [= <-]. exists e. split_and!; try done. intros _. simpl. rewrite lookup_insert_eq. eauto with lia.
Qed.

Lemma accept_after_held g source envelope now e :
  i64_checked_add (created_at envelope) (Z.of_N (ttl envelope)) = Some e ->
  held (envelope_key source envelope) e (g, now) ->
  (accept g source envelope now).1 <> Ok true.
Proof.
  intros He Hh.
  destruct (accept_cases g source envelope now) as [[? ->]|(e0 & He0 & Hle & [-> |[-> Hnone]])]; try done.
  intros _. simplify_eq. apply held_prune in Hh. destruct (Hh Hle) as (e' & He' & _).
  simpl fst in He'. congruence.
Qed.

(** A guard with no more rows accepts what the other one does. *)
Lemma accept_fewer g g' source envelope now :
  (forall k, accepted_by_key (prune_guard g now) !! k = None -> accepted_by_key (prune_guard g' now) !! k = None) ->
  (accept g source envelope now).1 = Ok true -> (accept g' source envelope now).1 = Ok true.
Proof using.
  intros Hsub. unfold accept_envelope_once. destruct (bool_decide _ && bool_decide _); [done|].
  match goal with |- context [if ?b then _ else _] => destruct b; [done|] end.
  destruct (bool_decide (MAX_ENVELOPE_TTL_SECONDS < _)); [done|].
  destruct (i64_checked_add _ _) as [e|]; [|done]. destruct (bool_decide (e < now)); [done|].
  destruct (bool_decide (_ < created_at envelope)); [done|].
  destruct (_ || _ || _) eqn:E; [done|]. intros _.
  apply orb_false_iff in E as [[E1 E2]%orb_false_iff E3].
  rewrite bool_decide_eq_false, <- eq_None_not_Some in E1, E2, E3.
  by rewrite (Hsub _ E1), (Hsub _ E2), (Hsub _ E3).
Qed.

(** Sweeping the key of an accepted envelope undoes the acceptance. *)
Lemma accept_after_sweep g source envelope now g1 :
  accept g source envelope now = (Ok true, g1) ->
  (accept (retain_keys g1 (fun k => negb (bool_decide (k = envelope_key source envelope)))) source envelope now).1 = Ok true.
Proof using.
  intros Hacc. apply (accept_fewer g); [|by rewrite Hacc]. intros k Hk. apply map_lookup_filter_None. left.
  destruct (accept_cases g source envelope now) as [[? Hc]|(e & _ & _ & [Hc|[Hc _]])]; rewrite Hacc in Hc; try done.
  injection Hc as ->. apply map_lookup_filter_None. cbn [accepted_by_key].
  destruct (decide (k = envelope_key source envelope)) as [->|Hne].
  - right. intros x _. simpl. by rewrite bool_decide_eq_true_2.
  - left. by rewrite lookup_insert_ne.
Qed.

(** C16: An envelope is accepted at most once, until its key is given up. After it
    was accepted, a run of any operations of the guard, under a clock that does not
    run backwards, after which the same envelope from the same source is accepted
    again contains a sweep by [retain_keys] that drops its key, as the cleanup of an
    aborted reservation does, or a row restored under its key with an earlier
    expiry; checking envelopes and requests and pruning never do. Conversely, right
    after a sweep of its key the envelope is accepted again, so an aborted
    submission can be repeated. *)
Theorem envelope_accepted_once g source envelope now g1 :
  accept g source envelope now = (Ok true, g1) ->
  let key := envelope_key source envelope in
  let expiry := created_at envelope + Z.of_N (ttl envelope) in
  (forall ops g2 now2, guard_run ops (g1, now) (g2, now2) -> (accept g2 source envelope now2).1 = Ok true ->
     Exists (fun op => match op with
                       | GRetain keep => keep key = false
                       | GRestore row expires_at => isolate row = key /\ expires_at < expiry
                       | _ => False
                       end) ops) /\
  (accept (retain_keys g1 (fun k => negb (bool_decide (k = key)))) source envelope now).1 = Ok true.
Proof using.
  intros Hacc key expiry. split.
  - intros ops g2 now2 Hrun Hagain. destruct (accept_Ok_true _ _ _ _ _ Hacc) as (e & He & _ & Hh).
    assert (expiry = e) as Hexp by (unfold i64_checked_add in He; case_decide; [by injection He|done]).
    destruct (guard_run_held _ _ _ _ _ Hrun Hh) as [Hh2|Hx].
    + by destruct (accept_after_held g2 source envelope now2 e He Hh2).
    + eapply Exists_impl; [exact Hx|]. intros [] Hf; try done; simpl in Hf.
      * destruct Hf as [(h & Hk)%request_key_prefix _]. done.
      * by rewrite Hexp.
  - by apply accept_after_sweep with g.
Qed.

(** A signed request is accepted at most once, unless its key is swept or restored
    with an earlier expiry, or a request with its key carries an earlier expiry. *)
Theorem request_accepted_once g source request now g1 ops g2 now2 k :
  check_request g source request now = (Ok tt, g1) -> request_key source request = Ok k ->
  guard_run ops (g1, now) (g2, now2) -> (check_request g2 source request now2).1 = Ok tt ->
  Exists (forgets k (rq_expires_at request)) ops.
Proof using.
  intros Hc Hk Hs. unfold check_signed_request in Hc.
  destruct (protocol_check_signed_request _ _ _ _ source request now).1; [|done]. rewrite Hk in Hc.
  case_match; [done|]. injection Hc as <-.
  assert (held k (rq_expires_at request) (mkGuard (<[k := rq_expires_at request]> (accepted_by_key (prune_guard g now))), now))
    as Hh0 by (intros _; simpl; rewrite lookup_insert_eq; eauto with lia).
  intros Hagain. destruct (guard_run_held _ _ _ _ _ Hs Hh0) as [Hh|Hx]; [exfalso|done].
  unfold check_signed_request in Hagain. rewrite Hk in Hagain.
  destruct (protocol_check_signed_request _ _ _ _ source request now2).1 eqn:Hp; [|done].
  apply held_prune in Hh. destruct Hh as (e' & He' & _); [|simpl fst in He'; by rewrite He' in Hagain].
  simpl. unfold protocol_check_signed_request in Hp. case_bool_decide; [done|]. lia.
Qed.

(** C32: A refused replay shortens the window of the request it replays. Let a
    request be accepted, and let a second request with the same replay key, valid
    on its own, expire earlier. The second is refused as a replay, yet its expiry
    replaces the recorded one: at any time after it at which the first request is
    still valid, the first request is accepted a second time. *)
Theorem refused_replay_shortens_window g source first second t1 t2 t3 g1 k :
  let valid request t := (protocol_check_signed_request encode_base64url json_pair tuple_hash
    guard_new source request t).1 = Ok tt in
  check_request g source first t1 = (Ok tt, g1) ->
  request_key source first = Ok k -> request_key source second = Ok k ->
  valid second t2 -> rq_expires_at second < t3 -> valid first t3 ->
  let '(refused, g2) := check_request g1 source second t2 in
  refused = Err (ReplayGuardError ("replay: " +:+ k)) /\ (check_request g2 source first t3).1 = Ok tt.
Proof using.
  intros valid Hc Hk1 Hk2 Hv2 Hlt Hv1.
  assert (t2 <= rq_expires_at second /\ t3 <= rq_expires_at first) as [He2 He1].
  { assert (forall rq t, valid rq t -> t <= rq_expires_at rq) as Hexp; [|split; by apply Hexp].
    intros rq t. unfold valid, protocol_check_signed_request. case_bool_decide; [done|]. intros _. lia. }
  unfold check_signed_request in Hc. destruct (protocol_check_signed_request _ _ _ _ source first t1).1; [|done].
  rewrite Hk1 in Hc. case_match; [done|]. injection Hc as <-.
  unfold valid in Hv1, Hv2. unfold check_signed_request. rewrite Hv2, Hk2.
  rewrite (prune_keeps _ _ k (rq_expires_at first)) by (apply lookup_insert_eq || lia).
  split; [done|]. rewrite Hv1, Hk1, (prune_drops _ _ k (rq_expires_at second)) by (apply lookup_insert_eq || lia). done.
Qed.

(** What base64url without padding promises. *)
Definition base64url_ok : Prop :=
  (forall s, decode_base64url (encode_base64url s) = Ok s) /\
  (forall s, ~ has_char slash (encode_base64url s)).

Lemma encode_inj s s' : base64url_ok -> encode_base64url s = encode_base64url s' -> s = s'.
Proof. intros [Hr _] Heq. pose proof (Hr s) as H. rewrite Heq, Hr in H. by injection H. Qed.

Lemma storage_key_no_slash root device key :
  base64url_ok -> qualified_device_id encode_base64url json_pair root device = Ok key ->
  ~ has_char slash key.
Proof.
  intros [_ Hn]. unfold qualified_device_id. case_match; [done|]. intros [= <-].
  rewrite has_char_app. intros [Hs|Hs]; [|by eapply Hn]. simpl in Hs.
  repeat destruct Hs as [Hs|Hs]; done.
Qed.

Lemma envelope_key_eq source envelope :
  envelope_key source envelope =
  "envelope/v3/" +:+ (storage_key source +:+ String slash (encode_base64url (envelope_id envelope) +:+
    String slash (encode_base64url (target_delivery_id envelope)))).
Proof. done. Qed.

(** A device reference the crypto crate can construct. *)
Definition authentic (source : RootQualifiedDeviceRef) : Prop :=
  qualified_device_id encode_base64url json_pair (root_commitment source) (device_id source) =
  Ok (storage_key source).

(** Distinct deliveries have distinct replay keys. Two envelopes get the
    same key only when source storage key, envelope id and target all agree, so
    a fresh delivery is never refused because of another one. *)
Theorem envelope_key_injective source source' envelope envelope' :
  base64url_ok -> authentic source -> authentic source' ->
  envelope_key source envelope = envelope_key source' envelope' ->
  storage_key source = storage_key source' /\ envelope_id envelope = envelope_id envelope' /\
  target_delivery_id envelope = target_delivery_id envelope'.
Proof.
  intros Hb Hs Hs' Heq. unfold envelope_replay_tuple_key in Heq.
  apply (f_equal (strip_prefix "envelope/v3/")) in Heq. rewrite !strip_prefix_app in Heq.
  injection Heq as Heq. apply (split_once_inj slash) in Heq as [Hk Heq];
    [|by eapply storage_key_no_slash..].
  apply (split_once_inj slash) in Heq as [Hi Ht]; [|apply Hb..].
  split_and!; [done|by apply encode_inj|by apply encode_inj].
Qed.

(** Replay identities survive a restart. The key of an envelope from an
    authentic source, written out and read back, is the same key, so what was
    accepted before a restart is still refused after it; a row of unknown
    format is set aside under a name that reading it again leaves alone. *)
Theorem restored_key_recognised source envelope key :
  base64url_ok -> authentic source ->
  parse_pair (json_pair (root_commitment source) (device_id source)) =
    Ok (root_commitment source, device_id source) ->
  (String.length (storage_key source) <= 2048)%nat ->
  let isolate := isolate_unknown_key encode_base64url decode_base64url json_pair parse_pair in
  isolate (envelope_key source envelope) = envelope_key source envelope /\
  isolate (isolate key) = isolate key.
Proof.
  intros [Hr Hn] Hs Hp Hl. cbv zeta. split.
  - assert (parse_qualified_device_id encode_base64url decode_base64url json_pair parse_pair (storage_key source)
      = Ok (Some (root_commitment source, device_id source))) as Hq.
    { unfold parse_qualified_device_id. unfold authentic in Hs. assert (Hs' := Hs).
      unfold qualified_device_id in Hs'. case_match; [done|]. injection Hs' as Hk. rewrite <-Hk.
      rewrite strip_prefix_app, Hk, bool_decide_eq_false_2 by lia.
      rewrite Hr, Hp, Hs, decide_True by done. done. }
    unfold isolate_unknown_key. rewrite (envelope_key_eq source envelope).
    rewrite (strip_prefix_app "envelope/v3/"), (split_once_app slash (storage_key source))
      by (by eapply storage_key_no_slash).
    rewrite split_once_app by apply Hn. rewrite Hq, !Hr. done.
  - assert (forall k, starts_with "legacy/replay/" k = true ->
      isolate_unknown_key encode_base64url decode_base64url json_pair parse_pair k = k) as Hleg.
    { intros k Hk. unfold isolate_unknown_key. by rewrite Hk, orb_true_r. }
    assert (isolate_unknown_key encode_base64url decode_base64url json_pair parse_pair key = key \/
      isolate_unknown_key encode_base64url decode_base64url json_pair parse_pair key =
        "legacy/replay/" +:+ encode_base64url key) as [H|H]
      by (unfold isolate_unknown_key; case_match; auto).
    + by rewrite !H.
    + rewrite H. apply Hleg. unfold starts_with. rewrite strip_prefix_app.
      apply bool_decide_eq_true. eauto.
Qed.
End props.

(** ** A concrete codec *)

Module ReplayRun.

(** Hexadecimal digits stand in for base64url. *)
Definition digit (n : nat) : Ascii.ascii := Ascii.ascii_of_nat (65 + n).
Definition undigit (c : Ascii.ascii) : nat := Ascii.nat_of_ascii c - 65.

Fixpoint encode (s : string) : string :=
  match s with
  | EmptyString => ""
  | String c s =>
      let n := Ascii.nat_of_ascii c in
      String (digit (n / 16)) (String (digit (n mod 16)) (encode s))
  end.

Fixpoint decode (s : string) : result string string :=
  match s with
  | EmptyString => Ok ""
  | String a (String b s) =>
      match decode s with
      | Ok t => Ok (String (Ascii.ascii_of_nat (undigit a * 16 + undigit b)) t)
      | Err e => Err e
      end
  | String _ EmptyString => Err "odd length"
  end.

(** A pair is the length-prefixed first component followed by the second. *)
Definition pair_text (a b : string) : string := encode a +:+ String slash (encode b).
Definition pair_parse (s : string) : result string (string * string) :=
  match split_once slash s with
  | Some (a, b) =>
      match decode a, decode b with Ok a, Ok b => Ok (a, b) | _, _ => Err "bad pair" end
  | None => Err "bad pair"
  end.

Definition tuple_text (root device nonce id : string) : result string string :=
  Ok (encode root +:+ encode device +:+ encode nonce +:+ encode id).

Lemma codec_ok : base64url_ok encode decode.
Proof.
  assert (forall n, (n < 16)%nat -> Ascii.nat_of_ascii (digit n) = (65 + n)%nat) as Hd.
  { intros n Hn. unfold digit. rewrite Ascii.nat_ascii_embedding by lia. done. }
  assert (forall c, Ascii.nat_of_ascii c / 16 < 16 /\ Ascii.nat_of_ascii c mod 16 < 16)%nat as Hb.
  { intros c. pose proof (Ascii.nat_ascii_bounded c). split; [|apply Nat.mod_upper_bound; lia].
    apply Nat.Div0.div_lt_upper_bound. lia. }
  assert (Ascii.nat_of_ascii slash = 47%nat) as Hsl by done.
  split; intros s; induction s as [|c s IH]; cbn [encode decode has_char]; try done; try tauto.
  - rewrite IH. destruct (Hb c). unfold undigit. rewrite !Hd by lia. do 2 f_equal.
    replace ((65 + Ascii.nat_of_ascii c / 16 - 65) * 16 + (65 + Ascii.nat_of_ascii c mod 16 - 65))%nat
      with (Ascii.nat_of_ascii c); [apply Ascii.ascii_nat_embedding|].
    pose proof (Nat.div_mod_eq (Ascii.nat_of_ascii c) 16). lia.
  - destruct (Hb c). intros [Hc|[Hc|Hc]]; [| |done];
      apply (f_equal Ascii.nat_of_ascii) in Hc; rewrite Hd, Hsl in Hc by lia; lia.
Qed.

Definition device : RootQualifiedDeviceRef :=
  mkDeviceRef "root" "phone" ("root~" +:+ encode (pair_text "root" "phone")).
Definition signed : SignedFields := mkSigned "k" Ed25519 "s".
Definition envelope (id : string) : Envelope :=
  mkEnvelope "v" 1 "d" ∅ signed id "p" "phone" "bob" None OpaqueEvent Normal 60 100 "c" "h".
Definition request (expires : Z) : SignedRequest :=
  mkRequest "v" 1 "d" ∅ signed "phone" "req" GET "/" "dp" "bh" "nonce" 90 expires.

End ReplayRun.

Import ReplayRun.

Definition envelope_guard : NodeReplayGuardState :=
  (accept_envelope_once encode guard_new device (envelope "m") 120).2.

Lemma envelope_accepted_once_witness :
  (accept_envelope_once encode guard_new device (envelope "m") 120).1 = Ok true /\
  (accept_envelope_once encode envelope_guard device (envelope "m") 150).1 <> Ok true /\
  (accept_envelope_once encode (retain_keys envelope_guard
    (fun k => negb (bool_decide (k = envelope_replay_tuple_key encode device (envelope "m")))))
    device (envelope "m") 120).1 = Ok true.
Proof.
  destruct (envelope_accepted_once encode decode pair_text pair_parse tuple_text guard_new device (envelope "m") 120
    envelope_guard) as [Honce Hsweep]; [by vm_compute|].
  split; [by vm_compute|]. split; [|exact Hsweep]. intros Hagain.
  apply (Honce [GTick 150] envelope_guard 150) in Hagain.
  - by apply Exists_cons in Hagain as [[]|[]%Exists_nil].
  - eapply gr_next; [by apply gs_tick|apply gr_done].
Defined.

Definition request_guard : NodeReplayGuardState :=
  (check_signed_request encode pair_text tuple_text guard_new device (request 1000) 100).2.

Lemma request_accepted_once_witness :
  (check_signed_request encode pair_text tuple_text guard_new device (request 1000) 100).1 = Ok tt /\
  (check_signed_request encode pair_text tuple_text request_guard device (request 1000) 300).1 <> Ok tt.
Proof.
  split; [by vm_compute|]. intros Hagain.
  eapply (request_accepted_once encode decode pair_text pair_parse tuple_text guard_new device (request 1000) 100
    request_guard [GTick 300] request_guard 300) in Hagain; [|by vm_compute..|].
  - by apply Exists_cons in Hagain as [[]|[]%Exists_nil].
  - eapply gr_next; [by apply gs_tick|apply gr_done].
Defined.

Lemma envelope_key_injective_witness :
  envelope_replay_tuple_key encode device (envelope "m1") <>
  envelope_replay_tuple_key encode device (envelope "m2").
Proof.
  intros Heq. destruct (envelope_key_injective encode decode pair_text device device
    (envelope "m1") (envelope "m2") codec_ok) as (_ & Hid & _); [by vm_compute..|exact Heq|].
  vm_compute in Hid. discriminate Hid.
Defined.

Lemma restored_key_recognised_witness :
  let isolate := isolate_unknown_key encode decode pair_text pair_parse in
  isolate (envelope_replay_tuple_key encode device (envelope "m")) =
    envelope_replay_tuple_key encode device (envelope "m") /\
  isolate (isolate "junk") = isolate "junk".
Proof.
  apply (restored_key_recognised encode decode pair_text pair_parse device (envelope "m") "junk" codec_ok);
    [by vm_compute|by vm_compute|vm_compute; lia].
Defined.

(** A request valid until 1000 is accepted at 100; a second one with its nonce and
    id and expiry 200 is refused at 150; at 300 the first is accepted again. *)
Lemma refused_replay_shortens_window_witness :
  let check := check_signed_request encode pair_text tuple_text in
  let g2 := (check request_guard device (request 200) 150).2 in
  (check guard_new device (request 1000) 100).1 = Ok tt /\
  is_ok (check request_guard device (request 200) 150).1 = false /\
  (check g2 device (request 1000) 300).1 = Ok tt.
Proof.
  cbv zeta. split; [by vm_compute|].
  pose proof (refused_replay_shortens_window encode pair_text tuple_text guard_new device (request 1000) (request 200)
    100 150 300 request_guard (match replay_tuple_key encode pair_text tuple_text device (request 1000) with Ok k => k | Err _ => "" end)) as H.
  destruct (check_signed_request encode pair_text tuple_text request_guard device (request 200) 150) as [r g2].
  destruct H as [-> H]; [by vm_compute..|]. by split.
Defined.
