(* ===== verification/Wal.v ===== *)
(** * The router's write-ahead log: records and their indexes

    crates/ramflux-node-core/src/router_wal.rs and router_wal/identity.rs: what
    is logged of a submission, and the state that is kept in memory of the log:
    the records by replay key, the indexes by mailbox and by sender, the two
    queues of deadlines, and the highest sequence ever logged.

    [router_wal_now] is the argument [clock]; an operation reads it once. JSON of
    extensions, base64url and the digest of an envelope are parameters. Files and
    recovery are in WalSegment.v. *)

From S2P Require Import Prelude OrdMap Bytes Wire Inbox Replay.
From Stdlib Require Import Strings.Byte.

Open Scope N_scope.

(** ** Records *)

Record RouterWalRecordLocation := mkLocation {
  loc_segment_id : N;
  loc_offset : N;
  loc_len : N;
}.

Record RouterWalLocalDelivery := mkLocalDelivery {
  ld_sender_root_commitment : string;
  ld_envelope_id : string;
  ld_target_delivery_id : string;
}.

(** The variant [Submission], the only one. *)
Record RouterWalPayload := mkSubmission {
  wp_replay_key : string;
  wp_replay_expires_at : Z;
  wp_entry : option InboxEntry;
  wp_accepted_at : option Z;
  wp_local_delivery : option RouterWalLocalDelivery;
}.

Record StoredRouterWalEnvelope := mkStoredEnvelope {
  se_schema : string;
  se_version : N;
  se_domain : string;
  se_ext_json : option bytes;
  se_signed : SignedFields;
  se_envelope_id : string;
  se_source_principal_id : string;
  se_source_device_id : string;
  se_target_delivery_id : string;
  se_routing_set_id : option string;
  se_delivery_class : DeliveryClass;
  se_priority : Priority;
  se_ttl : N;
  se_created_at : Z;
  se_encrypted_payload : string;
  se_payload_hash : string;
}.

Record StoredRouterWalInboxEntry := mkStoredEntry {
  st_inbox_seq : N;
  st_target_delivery_id : string;
  st_envelope : StoredRouterWalEnvelope;
}.

Inductive StoredRouterWalPayload :=
| StoredSubmission (replay_key : string) (replay_expires_at : Z) (entry : option StoredRouterWalInboxEntry)
| SubmissionAccepted (replay_key : string) (replay_expires_at accepted_at : Z)
    (entry : option StoredRouterWalInboxEntry)
| SubmissionClassified (replay_key : string) (replay_expires_at accepted_at : Z)
    (entry : option StoredRouterWalInboxEntry) (local_delivery : RouterWalLocalDelivery)
| Incarnated (incarnation_id : string) (payload : StoredRouterWalPayload)
| SenderAssigned (payload : StoredRouterWalPayload).

Fixpoint sender_assigned (p : StoredRouterWalPayload) : bool :=
  match p with
  | SenderAssigned _ => true
  | Incarnated _ payload => sender_assigned payload
  | _ => false
  end.

Record RouterWalSubmissionRecord := mkRecord {
  wr_replay_key : string;
  wr_replay_expires_at : Z;
  wr_entry : option InboxEntry;
  wr_accepted_at : option Z;
  wr_local_delivery : option RouterWalLocalDelivery;
  wr_location : RouterWalRecordLocation;
  wr_sender_assigned : bool;
}.

Record SenderAssignment := mkAssignment {
  as_target_delivery_id : string;
  as_inbox_incarnation_id : string;
  as_inbox_seq : N;
  as_retain_until : Z;
  as_digest : string;
}.

Record RouterWalLocalDeliveryIndex := mkDeliveryIndex {
  di_replay_key : string;
  di_target_delivery_id : string;
  di_replay_expires_at : Z;
  di_assignment : option SenderAssignment;
}.

Record RouterWalState := mkWalState {
  submissions_by_replay_key : gmap string RouterWalSubmissionRecord;
  submissions_by_target : gmap string (gmap N (gset string));
  local_delivery_by_sender_envelope : gmap string (gmap (string * string) RouterWalLocalDeliveryIndex);
  issued_by_target : gmap string N;
  wal_incarnations : gmap string string;
  incarnation_conflict : bool;
  replay_due : gset (Z * string);
  entry_due : gset (Z * string);
}.

(** [RouterWalState::default()] *)
Definition wal_empty : RouterWalState := mkWalState ∅ ∅ ∅ ∅ ∅ false ∅ ∅.

(** Field updates. *)
Definition set_submissions (s : RouterWalState) (v : gmap string RouterWalSubmissionRecord) : RouterWalState :=
  mkWalState v (submissions_by_target s) (local_delivery_by_sender_envelope s) (issued_by_target s)
    (wal_incarnations s) (incarnation_conflict s) (replay_due s) (entry_due s).
Definition set_by_target (s : RouterWalState) (v : gmap string (gmap N (gset string))) : RouterWalState :=
  mkWalState (submissions_by_replay_key s) v (local_delivery_by_sender_envelope s) (issued_by_target s)
    (wal_incarnations s) (incarnation_conflict s) (replay_due s) (entry_due s).
Definition set_by_sender (s : RouterWalState) (v : gmap string (gmap (string * string) RouterWalLocalDeliveryIndex))
  : RouterWalState :=
  mkWalState (submissions_by_replay_key s) (submissions_by_target s) v (issued_by_target s)
    (wal_incarnations s) (incarnation_conflict s) (replay_due s) (entry_due s).
Definition set_issued (s : RouterWalState) (v : gmap string N) : RouterWalState :=
  mkWalState (submissions_by_replay_key s) (submissions_by_target s) (local_delivery_by_sender_envelope s) v
    (wal_incarnations s) (incarnation_conflict s) (replay_due s) (entry_due s).
Definition set_wal_incarnations (s : RouterWalState) (v : gmap string string) (conflict : bool) : RouterWalState :=
  mkWalState (submissions_by_replay_key s) (submissions_by_target s) (local_delivery_by_sender_envelope s)
    (issued_by_target s) v conflict (replay_due s) (entry_due s).
Definition set_replay_due (s : RouterWalState) (v : gset (Z * string)) : RouterWalState :=
  mkWalState (submissions_by_replay_key s) (submissions_by_target s) (local_delivery_by_sender_envelope s)
    (issued_by_target s) (wal_incarnations s) (incarnation_conflict s) v (entry_due s).
Definition set_entry_due (s : RouterWalState) (v : gset (Z * string)) : RouterWalState :=
  mkWalState (submissions_by_replay_key s) (submissions_by_target s) (local_delivery_by_sender_envelope s)
    (issued_by_target s) (wal_incarnations s) (incarnation_conflict s) (replay_due s) v.

(** [record.entry.take()] *)
Definition take_entry (r : RouterWalSubmissionRecord) : RouterWalSubmissionRecord :=
  mkRecord (wr_replay_key r) (wr_replay_expires_at r) None (wr_accepted_at r) (wr_local_delivery r) (wr_location r)
    (wr_sender_assigned r).

(** ** Deadlines *)

Definition wal_retain_until (clock : Z) (r : RouterWalSubmissionRecord) : Z :=
  match wr_entry r with
  | None => wr_replay_expires_at r
  | Some entry =>
      match wr_accepted_at r with
      | None => inbox_legacy_retain_until (en_envelope entry) clock
      | Some accepted_at => inbox_retain_until (en_envelope entry) accepted_at
      end
  end.

(** [incarnation::validate] *)
Definition valid_incarnation (id : string) : bool :=
  bool_decide (String.length id = 32%nat) &&
  forallb (fun b => let n := Byte.to_N b in bool_decide (48 <= n <= 57 \/ 97 <= n <= 102)) (str id).

Section wal.
Variable ext_to_vec : gmap string Value -> option bytes.
Variable ext_from_slice : bytes -> option (gmap string Value).
Variable encode_base64url : string -> string.
Variable content_digest : Envelope -> option string.

(** ** The stored form *)

Definition stored_envelope (e : Envelope) : result NodeCoreError StoredRouterWalEnvelope :=
  (if is_empty_map (env_ext e) then Ok None
   else ok_or (ext_to_vec (env_ext e)) SnapshotSerialization ≫= fun json => Ok (Some json)) ≫= fun ext_json =>
  Ok (mkStoredEnvelope (env_schema e) (env_version e) (env_domain e) ext_json (env_signed e) (envelope_id e)
    (source_principal_id e) (source_device_id e) (target_delivery_id e) (routing_set_id e) (delivery_class e)
    (priority e) (ttl e) (created_at e) (encrypted_payload e) (payload_hash e)).

Definition envelope_of_stored (e : StoredRouterWalEnvelope) : result NodeCoreError Envelope :=
  match se_ext_json e with
  | Some json => ok_or (ext_from_slice json) SnapshotSerialization
  | None => Ok ∅
  end ≫= fun ext =>
  Ok (mkEnvelope (se_schema e) (se_version e) (se_domain e) ext (se_signed e) (se_envelope_id e)
    (se_source_principal_id e) (se_source_device_id e) (se_target_delivery_id e) (se_routing_set_id e)
    (se_delivery_class e) (se_priority e) (se_ttl e) (se_created_at e) (se_encrypted_payload e) (se_payload_hash e)).

(** [Option::map(..).transpose()] over an entry. *)
Definition stored_entry (entry : option InboxEntry) : result NodeCoreError (option StoredRouterWalInboxEntry) :=
  match entry with
  | None => Ok None
  | Some e =>
      stored_envelope (en_envelope e) ≫= fun envelope => Ok (Some (mkStoredEntry (inbox_seq e) (en_target e) envelope))
  end.

Definition entry_of_stored (entry : option StoredRouterWalInboxEntry) : result NodeCoreError (option InboxEntry) :=
  match entry with
  | None => Ok None
  | Some e =>
      envelope_of_stored (st_envelope e) ≫= fun envelope =>
      Ok (Some (mkEntry (st_inbox_seq e) (st_target_delivery_id e) envelope))
  end.

Definition stored_payload (p : RouterWalPayload) : result NodeCoreError StoredRouterWalPayload :=
  stored_entry (wp_entry p) ≫= fun entry =>
  let stored :=
    match wp_accepted_at p, wp_local_delivery p with
    | Some accepted_at, Some local_delivery =>
        SubmissionClassified (wp_replay_key p) (wp_replay_expires_at p) accepted_at entry local_delivery
    | Some accepted_at, None => SubmissionAccepted (wp_replay_key p) (wp_replay_expires_at p) accepted_at entry
    | None, _ => StoredSubmission (wp_replay_key p) (wp_replay_expires_at p) entry
    end in
  Ok (match wp_local_delivery p with Some _ => SenderAssigned stored | None => stored end).

Fixpoint payload_of_stored (p : StoredRouterWalPayload) : result NodeCoreError RouterWalPayload :=
  match p with
  | Incarnated _ payload => payload_of_stored payload
  | SenderAssigned payload =>
      if match payload with SubmissionClassified _ _ _ _ _ => true | _ => false end
      then payload_of_stored payload else Err (Redb "invalid sender assignment WAL wrapper")
  | StoredSubmission replay_key replay_expires_at entry =>
      entry_of_stored entry ≫= fun entry => Ok (mkSubmission replay_key replay_expires_at entry None None)
  | SubmissionAccepted replay_key replay_expires_at accepted_at entry =>
      entry_of_stored entry ≫= fun entry => Ok (mkSubmission replay_key replay_expires_at entry (Some accepted_at) None)
  | SubmissionClassified replay_key replay_expires_at accepted_at entry local_delivery =>
      entry_of_stored entry ≫= fun entry =>
      Ok (mkSubmission replay_key replay_expires_at entry (Some accepted_at) (Some local_delivery))
  end.

(** [decode_payload]: the incarnation of a mailbox is recorded on the way. *)
Definition decode_payload (stored : StoredRouterWalPayload) : stres RouterWalState NodeCoreError RouterWalPayload :=
  match stored with
  | Incarnated incarnation_id payload =>
      lift (ensure (valid_incarnation incarnation_id) (Redb "invalid inbox incarnation in stored cursor")) ≫= fun _ =>
      lift (if match payload with Incarnated _ _ => true | _ => false end
            then Err (Redb "nested WAL incarnation record") else payload_of_stored payload) ≫= fun payload =>
      lift (ok_or (wp_entry payload) (Redb "WAL incarnation record without inbox counter")) ≫= fun entry =>
      modify (fun s =>
        let differs := match wal_incarnations s !! en_target entry with
                       | Some old => bool_decide (old <> incarnation_id) | None => false end in
        set_wal_incarnations s (<[en_target entry := incarnation_id]> (wal_incarnations s))
          (incarnation_conflict s || differs)) ≫= fun _ =>
      mret payload
  | stored => lift (payload_of_stored stored)
  end.

(** ** Indexes *)

(** [SenderAssignment::new]; a digest that fails fences the process, and leaves
    no assignment. *)
Definition new_assignment (entry : InboxEntry) (id : string) (retain_until : Z) : option SenderAssignment :=
  content_digest (en_envelope entry) ≫= fun digest =>
  Some (mkAssignment (en_target entry) id (inbox_seq entry) retain_until digest).

Definition wal_index (clock : Z) (r : RouterWalSubmissionRecord) (s : RouterWalState) : RouterWalState :=
  let s := set_replay_due s ({[(wr_replay_expires_at r, wr_replay_key r)]} ∪ replay_due s) in
  let s :=
    match wr_entry r with
    | None => s
    | Some entry =>
        let sequences := default ∅ (submissions_by_target s !! en_target entry) in
        let keys := default ∅ (sequences !! inbox_seq entry) in
        let s := set_by_target s (<[en_target entry := <[inbox_seq entry := {[wr_replay_key r]} ∪ keys]> sequences]>
          (submissions_by_target s)) in
        set_entry_due s ({[(wal_retain_until clock r, wr_replay_key r)]} ∪ entry_due s)
    end in
  match wr_local_delivery r with
  | None => s
  | Some d =>
      let assignment :=
        match wr_entry r with
        | Some entry =>
            if wr_sender_assigned r
            then wal_incarnations s !! en_target entry ≫= fun id => new_assignment entry id (wal_retain_until clock r)
            else None
        | None => None
        end in
      let by_envelope := default ∅ (local_delivery_by_sender_envelope s !! ld_sender_root_commitment d) in
      set_by_sender s (<[ld_sender_root_commitment d :=
        <[(ld_envelope_id d, ld_target_delivery_id d) :=
          mkDeliveryIndex (wr_replay_key r) (ld_target_delivery_id d) (wr_replay_expires_at r) assignment]> by_envelope]>
        (local_delivery_by_sender_envelope s))
  end.

Definition unindex_target (entry : InboxEntry) (key : string) (s : RouterWalState) : RouterWalState :=
  match submissions_by_target s !! en_target entry with
  | None => s
  | Some sequences =>
      let sequences :=
        match sequences !! inbox_seq entry with
        | None => sequences
        | Some keys =>
            let keys := keys ∖ {[key]} in
            if decide (keys = ∅) then delete (inbox_seq entry) sequences else <[inbox_seq entry := keys]> sequences
        end in
      set_by_target s (if is_empty_map sequences then delete (en_target entry) (submissions_by_target s)
                       else <[en_target entry := sequences]> (submissions_by_target s))
  end.

Definition wal_unindex (clock : Z) (r : RouterWalSubmissionRecord) (s : RouterWalState) : RouterWalState :=
  let s := set_replay_due s (replay_due s ∖ {[(wr_replay_expires_at r, wr_replay_key r)]}) in
  let s :=
    match wr_entry r with
    | None => s
    | Some entry =>
        let s := unindex_target entry (wr_replay_key r) s in
        set_entry_due s (entry_due s ∖ {[(wal_retain_until clock r, wr_replay_key r)]})
    end in
  match wr_local_delivery r with
  | None => s
  | Some d =>
      match local_delivery_by_sender_envelope s !! ld_sender_root_commitment d with
      | None => s
      | Some by_envelope =>
          let delivery := (ld_envelope_id d, ld_target_delivery_id d) in
          let by_envelope :=
            match by_envelope !! delivery with
            | Some indexed => if decide (di_replay_key indexed = wr_replay_key r) then delete delivery by_envelope
                              else by_envelope
            | None => by_envelope
            end in
          set_by_sender s (if is_empty_map by_envelope
            then delete (ld_sender_root_commitment d) (local_delivery_by_sender_envelope s)
            else <[ld_sender_root_commitment d := by_envelope]> (local_delivery_by_sender_envelope s))
      end
  end.

(** ** Logging a submission *)

(** Keys of the second version get the mailbox they were accepted for. *)
Definition migrated_key (replay_key : string) (entry : option InboxEntry) : string :=
  match strip_prefix "envelope/v2/" replay_key, entry with
  | Some tail, Some entry => "envelope/v3/" +:+ tail +:+ "/" +:+ encode_base64url (en_target entry)
  | _, _ => replay_key
  end.

(** [apply] is this with [assigned] true. *)
Definition apply_with_sender_assignment (clock : Z) (p : RouterWalPayload) (location : RouterWalRecordLocation)
    (assigned : bool) (s : RouterWalState) : RouterWalState :=
  let s :=
    match wp_entry p with
    | Some entry => set_issued s (<[en_target entry :=
        N.max (default 0 (issued_by_target s !! en_target entry)) (inbox_seq entry)]> (issued_by_target s))
    | None => s
    end in
  let replay_key := migrated_key (wp_replay_key p) (wp_entry p) in
  let record := mkRecord replay_key (wp_replay_expires_at p) (wp_entry p) (wp_accepted_at p) (wp_local_delivery p)
    location assigned in
  let s :=
    match submissions_by_replay_key s !! replay_key with
    | Some previous => wal_unindex clock previous (set_submissions s (delete replay_key (submissions_by_replay_key s)))
    | None => s
    end in
  let s := wal_index clock record s in
  set_submissions s (<[replay_key := record]> (submissions_by_replay_key s)).

(** ** Settlement and retention *)

(** The body of the loop of [observe_settlement]. *)
Definition settle_key (clock : Z) (s : RouterWalState) (key : string) : RouterWalState :=
  match submissions_by_replay_key s !! key with
  | None => s
  | Some r =>
      match wr_entry r with
      | None => s
      | Some entry =>
          let s := set_submissions s (<[key := take_entry r]> (submissions_by_replay_key s)) in
          let s := set_entry_due s (entry_due s ∖ {[(wal_retain_until clock r, key)]}) in
          unindex_target entry key s
      end
  end.

Definition observe_settlement (clock : Z) (cursor : CursorAckState) (s : RouterWalState) : RouterWalState :=
  match submissions_by_target s !! cur_target cursor with
  | None => s
  | Some sequences =>
      let floor := (bt_range_le (settled_inbox_seq cursor) sequences).*2 in
      let single := omap (fun seq => sequences !! seq)
        (bs_elems (acked_inbox_seqs cursor) ++ retired_inbox_seqs cursor) in
      let keys : gset string := ⋃ (floor ++ single) in
      foldl (settle_key clock) s (bs_elems keys)
  end.

(** The first loop of [prune]; every round takes an entry off the queue. *)
Fixpoint prune_replay (fuel : nat) (clock now : Z) (s : RouterWalState) (removed : nat) : RouterWalState * nat :=
  match fuel with
  | O => (s, removed)
  | S fuel =>
      match bs_first (replay_due s) with
      | None => (s, removed)
      | Some (expires_at, key) =>
          if decide (now <= expires_at)%Z then (s, removed) else
          let s := set_replay_due s (replay_due s ∖ {[(expires_at, key)]}) in
          match submissions_by_replay_key s !! key with
          | None => prune_replay fuel clock now s removed
          | Some r =>
              let s := set_submissions s (delete key (submissions_by_replay_key s)) in
              prune_replay fuel clock now (wal_unindex clock r s) (S removed)
          end
      end
  end.

(** The second loop. *)
Fixpoint prune_entries (fuel : nat) (now : Z) (s : RouterWalState) (removed : nat) : RouterWalState * nat :=
  match fuel with
  | O => (s, removed)
  | S fuel =>
      match bs_first (entry_due s) with
      | None => (s, removed)
      | Some (deadline, key) =>
          if decide (now < deadline)%Z then (s, removed) else
          let s := set_entry_due s (entry_due s ∖ {[(deadline, key)]}) in
          match submissions_by_replay_key s !! key with
          | None => prune_entries fuel now s removed
          | Some r =>
              match wr_entry r with
              | None => prune_entries fuel now s removed
              | Some entry =>
                  let s := set_submissions s (<[key := take_entry r]> (submissions_by_replay_key s)) in
                  prune_entries fuel now (unindex_target entry key s) (S removed)
              end
          end
      end
  end.

Definition wal_prune (clock now : Z) (s : RouterWalState) : RouterWalState * nat :=
  let '(s, removed) := prune_replay (size (replay_due s)) clock now s 0 in
  prune_entries (size (entry_due s)) now s removed.

(** ** Views *)

Definition has_local_delivery_envelope (s : RouterWalState) (sender_root_commitment envelope_id target : string) (now : Z)
  : bool :=
  match local_delivery_by_sender_envelope s !! sender_root_commitment ≫= (.!! (envelope_id, target)) with
  | Some delivery => bool_decide (di_target_delivery_id delivery = target) && bool_decide (now < di_replay_expires_at delivery)%Z
  | None => false
  end.

Definition due_count (s : RouterWalState) (now : Z) : nat :=
  length (take_while (fun p => bool_decide (p.1 < now)%Z) (bs_elems (replay_due s))) +
  length (take_while (fun p => bool_decide (p.1 <= now)%Z) (bs_elems (entry_due s))).

Definition sender_assignment (s : RouterWalState) (root : string) (envelope : Envelope) (now : Z)
  : option SenderAssignment :=
  match local_delivery_by_sender_envelope s !! root ≫= (.!! (envelope_id envelope, target_delivery_id envelope)) with
  | Some row => if decide (now < di_replay_expires_at row)%Z then di_assignment row else None
  | None => None
  end.

Definition wal_issued_sequence (s : RouterWalState) (target : string) : N := default 0 (issued_by_target s !! target).

Definition retention_targets (s : RouterWalState) (now : Z) : gset string :=
  list_to_set (omap (fun p => submissions_by_replay_key s !! p.2 ≫= fun r => en_target <$> wr_entry r)
    (take_while (fun p => bool_decide (p.1 <= now)%Z) (bs_elems (entry_due s)))).

(** [settlement::retires] *)
Definition retires (cursor : CursorAckState) (seq : N) : bool :=
  bool_decide (last_acknowledged_inbox_seq cursor = Some seq) || bool_decide (seq ∈ acked_inbox_seqs cursor) ||
  bool_decide (seq ∈ retired_inbox_seqs cursor).

Definition settlement_head (clock : Z) (s : RouterWalState) (cursor : CursorAckState) (previous : N)
    (wal_expired_at : option Z) : option N :=
  submissions_by_target s !! cur_target cursor ≫= fun sequences =>
  let expired keys :=
    match wal_expired_at with
    | None => false
    | Some now => forallb (fun key => match submissions_by_replay_key s !! key with
        | Some r => bool_decide (wal_retain_until clock r <= now)%Z | None => false end) (bs_elems keys)
    end in
  find (fun seq => negb (retires cursor seq))
    (filter (fun p => expired p.2 = false) (bt_range_gt previous sequences)).*1.

Definition migration_target_view (s : RouterWalState) (target : string)
  : result NodeCoreError (N * list RouterWalSubmissionRecord) :=
  let keys := omap bs_first (bt_values (default ∅ (submissions_by_target s !! target))) in
  mapM (fun key => ok_or (submissions_by_replay_key s !! key) (Redb "WAL target index lost submission")) keys
    ≫= fun records =>
  Ok (wal_issued_sequence s target, records).

Definition wal_submissions (s : RouterWalState) (now : Z) : list RouterWalSubmissionRecord :=
  filter (fun r => now <= wr_replay_expires_at r)%Z (bt_values (submissions_by_replay_key s)).
End wal.
