(* ===== verification/WalSegment.v ===== *)
(** * The router's write-ahead log: segments, the writer and recovery

    crates/ramflux-node-core/src/router_wal.rs and router_wal/identity.rs: the
    frame of a record, the header of a segment, the writer that appends and
    rolls, and the recovery that reads a directory back.

    A directory is a map from segment ids to the bytes of the files. The writer's
    files also carry the length that was synced: after a crash a file is a prefix
    that is at least as long. Postcard, CRC-32 and the draw of an incarnation id
    are parameters. Errors of the file system are not modelled; they fence the
    process. *)

From S2P Require Import Prelude OrdMap Bytes Wire Inbox Wal.
From Stdlib Require Import Strings.Byte.

Open Scope N_scope.

(** [u32::to_le_bytes], [u64::to_le_bytes] and back. *)
Definition u32_le (n : N) : bytes := reverse (be_of_N 4 n).
Definition u64_le (n : N) : bytes := reverse (be_of_N 8 n).
Definition le_to_N (l : bytes) : N := be_to_N (reverse l).

Definition newline : bytes := [Byte.x0a].
Definition ROUTER_WAL_MAGIC : bytes := str "ramflux-router-wal-v1" ++ newline.
Definition CHAINED_MAGIC : bytes := str "ramflux-router-wal-v2" ++ newline.
Notation HEADER_LEN := 70%nat (only parsing).

(** [read_exact] of [n] bytes; [None] at the end of the file. *)
Definition read_exact (n : nat) (file : bytes) : option (bytes * bytes) :=
  if decide (n <= length file)%nat then Some (take n file, drop n file) else None.

(** ** Headers *)

Definition wal_header_bytes (id : string) (segment previous : N) : bytes :=
  CHAINED_MAGIC ++ str id ++ u64_le segment ++ u64_le previous.

Notation eof := (Redb "failed to fill whole buffer") (only parsing).

(** The length of the header, what a chained header says, and the rest of the
    file. [incarnation::validate] admits only ASCII, so the UTF-8 check before it
    only changes which error is returned. *)
Definition wal_read_header (file : bytes) : result NodeCoreError (nat * option (string * N * N) * bytes) :=
  ok_or (read_exact 22 file) eof ≫= fun '(magic, file) =>
  if decide (magic = ROUTER_WAL_MAGIC) then Ok (22%nat, None, file) else
  if decide (magic <> CHAINED_MAGIC) then Err (Redb "invalid router WAL segment magic") else
  ok_or (read_exact 32 file) eof ≫= fun '(id, file) =>
  ok_or (read_exact 8 file) eof ≫= fun '(segment, file) =>
  ok_or (read_exact 8 file) eof ≫= fun '(previous, file) =>
  let id := String.string_of_list_byte id in
  ensure (valid_incarnation id) (Redb "invalid inbox incarnation in stored cursor") ≫= fun _ =>
  Ok (HEADER_LEN, Some (id, le_to_N segment, le_to_N previous), file).

(** [bytes.starts_with(prefix)] *)
Definition bytes_start_with (prefix file : bytes) : bool := bool_decide (take (length prefix) file = prefix).

Definition repair_empty_header (newest : bool) (file : bytes) : result NodeCoreError unit :=
  let size := length file in
  if negb newest || bool_decide (HEADER_LEN < size)%nat || bool_decide (size <= 22)%nat then Ok tt
  else ensure (negb (bytes_start_with CHAINED_MAGIC file && bool_decide (size < HEADER_LEN)%nat))
         (Redb "incomplete chained WAL header").

(** ** The association with the store *)

Record Chain := mkChain { ch_anchor : N; ch_head : N; ch_legacy : list N; ch_anchor_lsn : N }.

Record Metadata := mkMetadata {
  md_version : N;
  md_directory_id : string;
  md_rotation_pending : bool;
  md_chains : gmap string Chain;
}.

Record Association := mkAssociation {
  as_metadata : Metadata;
  as_ids : gmap string string;
}.

(** The new head is committed before the first frame is appended. *)
Definition record_head (directory : string) (head : N) (a : Association) : Association :=
  let md := as_metadata a in
  let chain := default (mkChain head head [] 0) (md_chains md !! directory) in
  mkAssociation (mkMetadata (md_version md) (md_directory_id md) (md_rotation_pending md)
    (<[directory := mkChain (ch_anchor chain) head (ch_legacy chain) (ch_anchor_lsn chain)]> (md_chains md)))
    (as_ids a).

(** [identity::header] *)
Definition wal_header (association : option Association) (directory : string) (segment : N) : bytes :=
  match association with
  | None => ROUTER_WAL_MAGIC
  | Some a =>
      let previous :=
        match md_chains (as_metadata a) !! directory with
        | None => U64_MAX
        | Some chain => if decide (ch_head chain = segment) then default U64_MAX (u64_checked_sub segment 1)
                        else ch_head chain
        end in
      wal_header_bytes (md_directory_id (as_metadata a)) segment previous
  end.

(** ** Inspection at the start *)

Definition recorded_legacy (chain : option Chain) (segment : N) : bool :=
  match chain with Some chain => bool_decide (segment ∈ ch_legacy chain) | None => false end.

(** The header a segment should have: how long it is, and whether the file is no
    more than the residue of writing it. *)
Definition expected_len (metadata : option Metadata) (chain : option Chain) (segment : N) (file : bytes) : nat :=
  if recorded_legacy chain segment || (negb (bool_decide (is_Some metadata)) && bytes_start_with ROUTER_WAL_MAGIC file)
  then 22%nat else HEADER_LEN.

Definition empty_residue (newest : bool) (expected_len : nat) (file : bytes) : bool :=
  newest && bool_decide (length file <= expected_len)%nat &&
  (bool_decide (length file <= 22)%nat || bytes_start_with CHAINED_MAGIC file ||
   forallb (fun byte => bool_decide (byte = Byte.x00)) file).

(** The inner loop of [recovery::inspect]: an empty newest segment gets its header
    again, and every header is compared with the association. *)
Fixpoint inspect_segments (metadata : option Metadata) (chain : option Chain) (newest previous : option N)
    (segments : list (N * bytes)) (dir : gmap N bytes) (mismatch : bool) : result NodeCoreError (bool * gmap N bytes) :=
  match segments with
  | [] => Ok (mismatch, dir)
  | (segment, file) :: segments =>
      if match chain with Some chain => bool_decide (segment < ch_anchor chain) | None => false end
      then inspect_segments metadata chain newest previous segments dir mismatch else
      let legacy := bytes_start_with ROUTER_WAL_MAGIC file in
      let expected := expected_len metadata chain segment file in
      let residue := empty_residue (bool_decide (newest = Some segment)) expected file in
      let file :=
        match metadata with
        | Some metadata =>
            if residue && bool_decide (expected = HEADER_LEN)
            then wal_header_bytes (md_directory_id metadata) segment (default U64_MAX previous) else file
        | None => file
        end in
      (if bytes_start_with CHAINED_MAGIC file then
         map_err (fun _ => WalSegmentRequiresQuarantine segment) (wal_read_header file) ≫= fun '(_, header, _) =>
         Ok match header with
            | Some (identity, id, parent) =>
                match metadata with Some metadata => bool_decide (identity <> md_directory_id metadata) | None => false end ||
                bool_decide (id <> segment) ||
                match previous with Some previous => bool_decide (parent <> previous) | None => false end
            | None => false
            end
       else Ok (legacy && bool_decide (is_Some metadata) && negb (recorded_legacy chain segment) && negb residue)) ≫= fun differs =>
      inspect_segments metadata chain newest (Some segment) segments (<[segment := file]> dir) (mismatch || differs)
  end.

(** ** The writer *)

Record SegmentFile := mkSegmentFile { sf_bytes : bytes; sf_synced : nat }.

(** [file] is the file of [w_segment_id]; [w_files] is the directory. *)
Record RouterWalWriterState := mkWriter {
  w_root : string;
  w_segment_bytes : N;
  w_segment_born : Z;
  w_segment_id : N;
  w_offset : N;
  w_association : option Association;
  w_poisoned : bool;
  w_header_len : N;
  w_files : gmap N SegmentFile;
}.

(** [write_all] at the end of a file, and [sync_all]. *)
Definition append_file (b : bytes) (f : SegmentFile) : SegmentFile := mkSegmentFile (sf_bytes f ++ b) (sf_synced f).
Definition sync_file (f : SegmentFile) : SegmentFile := mkSegmentFile (sf_bytes f) (length (sf_bytes f)).

Definition set_w_files (w : RouterWalWriterState) (v : gmap N SegmentFile) : RouterWalWriterState :=
  mkWriter (w_root w) (w_segment_bytes w) (w_segment_born w) (w_segment_id w) (w_offset w) (w_association w)
    (w_poisoned w) (w_header_len w) v.
Definition set_w_offset (w : RouterWalWriterState) (v : N) : RouterWalWriterState :=
  mkWriter (w_root w) (w_segment_bytes w) (w_segment_born w) (w_segment_id w) v (w_association w)
    (w_poisoned w) (w_header_len w) (w_files w).
Definition set_w_association (w : RouterWalWriterState) (v : option Association) : RouterWalWriterState :=
  mkWriter (w_root w) (w_segment_bytes w) (w_segment_born w) (w_segment_id w) (w_offset w) v
    (w_poisoned w) (w_header_len w) (w_files w).

(** [durability_io::sync_file(&self.file, ..)] *)
Definition sync_current (w : RouterWalWriterState) : RouterWalWriterState :=
  set_w_files w (alter sync_file (w_segment_id w) (w_files w)).

Section segment.
Variable ext_to_vec : gmap string Value -> option bytes.
Variable ext_from_slice : bytes -> option (gmap string Value).
Variable encode_base64url : string -> string.
Variable content_digest : Envelope -> option string.
Variable crc32 : bytes -> N.
Variable to_allocvec : StoredRouterWalPayload -> option bytes.
Variable from_bytes : bytes -> option StoredRouterWalPayload.
Variable new_id : string -> option string.

(** The first incarnation drawn for a mailbox is kept; [new_id target] is that draw. *)
Definition association_reserve (target : string) (a : Association) : result NodeCoreError (string * Association) :=
  match as_ids a !! target with
  | Some id => Ok (id, a)
  | None =>
      ok_or (new_id target) (Redb "random source") ≫= fun id =>
      Ok (id, mkAssociation (as_metadata a) (<[target := id]> (as_ids a)))
  end.

Definition encode_payload (association : option Association) (p : RouterWalPayload)
  : result NodeCoreError (StoredRouterWalPayload * option Association) :=
  stored_payload ext_to_vec p ≫= fun stored =>
  match association, wp_entry p with
  | Some a, Some entry =>
      association_reserve (en_target entry) a ≫= fun '(id, a) => Ok (Incarnated id stored, Some a)
  | _, _ => Ok (stored, association)
  end.

(** ** Frames *)

Definition write_router_wal_record (encoded : bytes) : result NodeCoreError bytes :=
  ensure (bool_decide (N.of_nat (length encoded) <= U32_MAX)) (ItestJson "router WAL record too large") ≫= fun _ =>
  Ok (u32_le (N.of_nat (length encoded)) ++ u32_le (crc32 encoded) ++ encoded).

(** [None] at a torn frame; otherwise the record, its length and the rest of the
    file. *)
Definition read_router_wal_record (file : bytes)
  : result NodeCoreError (option (StoredRouterWalPayload * N * bytes)) :=
  match read_exact 8 file with
  | None => Ok None
  | Some (header, file) =>
      let len := le_to_N (take 4 header) in
      let expected_crc := le_to_N (drop 4 header) in
      match read_exact (N.to_nat len) file with
      | None => Ok None
      | Some (payload, file) =>
          if decide (crc32 payload <> expected_crc) then Ok None else
          ok_or (from_bytes payload) SnapshotSerialization ≫= fun stored => Ok (Some (stored, len, file))
      end
  end.

(** ** Appending *)

(** [open_associated], of a directory whose file of the segment is [w_files]'s. *)
Definition writer_open (root : string) (segment_id segment_bytes offset : N) (born : Z)
    (association : option Association) (files : gmap N SegmentFile) : result NodeCoreError RouterWalWriterState :=
  let file := default (mkSegmentFile [] 0) (files !! segment_id) in
  let file := if decide (offset = 0 /\ length (sf_bytes file) = 0%nat)
              then sync_file (append_file (wal_header association root segment_id) file) else file in
  let association := record_head root segment_id <$> association in
  wal_read_header (sf_bytes file) ≫= fun '(header_len, _, _) =>
  Ok (mkWriter root segment_bytes born segment_id (N.of_nat (length (sf_bytes file))) association false
    (N.of_nat header_len) (<[segment_id := file]> files)).

Definition write_record (encoded : bytes) : stres RouterWalWriterState NodeCoreError RouterWalRecordLocation :=
  lift (write_router_wal_record encoded) ≫= fun frame =>
  get ≫= fun w =>
  let len := N.of_nat (length encoded) in
  modify (fun w => set_w_offset (set_w_files w (alter (append_file frame) (w_segment_id w) (w_files w)))
    (u64_saturating_add (w_offset w) (8 + len))) ≫= fun _ =>
  mret (mkLocation (w_segment_id w) (w_offset w) len).

Definition roll_segment (now : Z) (w : RouterWalWriterState) : RouterWalWriterState :=
  let segment_id := u64_saturating_add (w_segment_id w) 1 in
  let header := wal_header (w_association w) (w_root w) segment_id in
  let file := sync_file (append_file header (default (mkSegmentFile [] 0) (w_files w !! segment_id))) in
  let offset := N.of_nat (length header) in
  mkWriter (w_root w) (w_segment_bytes w) now segment_id offset
    (record_head (w_root w) segment_id <$> w_association w) (w_poisoned w) offset
    (<[segment_id := file]> (w_files w)).

(** The body of the loop of [append_batch]. *)
Definition append_payload (now : Z) (p : RouterWalPayload)
  : stres RouterWalWriterState NodeCoreError RouterWalRecordLocation :=
  get ≫= fun w =>
  lift (ensure (negb (w_poisoned w)) (Redb "router WAL writer fenced")) ≫= fun _ =>
  lift (encode_payload (w_association w) p) ≫= fun '(stored, association) =>
  modify (fun w => set_w_association w association) ≫= fun _ =>
  lift (ok_or (to_allocvec stored) SnapshotSerialization) ≫= fun encoded =>
  lift (ok_or (u64_checked_add 8 (N.of_nat (length encoded))) (ItestJson "router WAL frame too large")) ≫= fun frame_len =>
  (if bool_decide (w_header_len w < w_offset w) &&
      (bool_decide (w_segment_bytes w < u64_saturating_add (w_offset w) frame_len) ||
       bool_decide (3600 <= now - w_segment_born w)%Z)
   then modify (fun w => roll_segment now (sync_current w)) else mret tt) ≫= fun _ =>
  write_record encoded.

Fixpoint append_payloads (now : Z) (ps : list RouterWalPayload)
  : stres RouterWalWriterState NodeCoreError (list RouterWalRecordLocation) :=
  match ps with
  | [] => mret []
  | p :: ps =>
      append_payload now p ≫= fun location =>
      append_payloads now ps ≫= fun locations => mret (location :: locations)
  end.

Definition append_batch (now : Z) (ps : list RouterWalPayload)
  : stres RouterWalWriterState NodeCoreError (list RouterWalRecordLocation) :=
  append_payloads now ps ≫= fun locations =>
  modify sync_current ≫= fun _ =>
  mret locations.

(** [prepare_sender_identity], on the state that is indexed. *)
Definition prepare_sender_identity (entry : option InboxEntry) (association : option Association) (s : RouterWalState)
  : result NodeCoreError (option Association * RouterWalState) :=
  match association, entry with
  | Some a, Some entry =>
      association_reserve (en_target entry) a ≫= fun '(id, a) =>
      Ok (Some a, set_wal_incarnations s (<[en_target entry := id]> (wal_incarnations s)) (incarnation_conflict s))
  | _, _ => Ok (association, s)
  end.

(** What [router_wal_ack_success] does to the index before it replies. *)
Definition ack_success (clock : Z) (ps : list RouterWalPayload) (locations : list RouterWalRecordLocation)
    (s : RouterWalState) : RouterWalState :=
  foldl (fun s '(p, location) => apply_with_sender_assignment encode_base64url content_digest clock p location true s) s (zip ps locations).

Definition shard_for_payload (p : RouterWalPayload) (shard_count : nat) : N :=
  let key := match wp_entry p with None => wp_replay_key p | Some entry => en_target entry end in
  crc32 (str key) mod N.max (N.of_nat shard_count) 1.

(** ** Recovery *)

(** The loop of [recover_router_wal_segment]; every record takes eight bytes or
    more. *)
Fixpoint recover_records (fuel : nat) (clock : Z) (segment_id offset : N) (file : bytes)
  : stres RouterWalState NodeCoreError N :=
  match fuel with
  | O => mret offset
  | S fuel =>
      lift (read_router_wal_record file) ≫= fun record =>
      match record with
      | None => mret offset
      | Some (stored, len, file) =>
          let location := mkLocation segment_id offset len in
          let assigned := sender_assigned stored in
          decode_payload ext_from_slice stored ≫= fun payload =>
          modify (apply_with_sender_assignment encode_base64url content_digest clock payload location assigned) ≫= fun _ =>
          recover_records fuel clock segment_id (u64_saturating_add offset (8 + len)) file
      end
  end.

(** The offset after the last complete record, and the file cut there. *)
Definition recover_router_wal_segment (clock : Z) (segment_id : N) (newest : bool) (file : bytes)
  : stres RouterWalState NodeCoreError (N * bytes) :=
  let file := if newest && bool_decide (length file <= 22)%nat then ROUTER_WAL_MAGIC else file in
  lift (map_err (fun _ => WalSegmentRequiresQuarantine segment_id) (repair_empty_header newest file)) ≫= fun _ =>
  lift (map_err (fun _ => WalSegmentRequiresQuarantine segment_id) (wal_read_header file)) ≫= fun '(offset, _, rest) =>
  recover_records (S (length rest)) clock segment_id (N.of_nat offset) rest ≫= fun offset =>
  mret (offset, take (N.to_nat offset) file).

Record RouterWalRecoveredShard := mkShard { last_segment_id : option N; current_offset : N }.

Fixpoint recover_segments (clock : Z) (newest : option N) (segments : list (N * bytes)) (dir : gmap N bytes)
    (shard : RouterWalRecoveredShard) : stres RouterWalState NodeCoreError (RouterWalRecoveredShard * gmap N bytes) :=
  match segments with
  | [] => mret (shard, dir)
  | (segment_id, file) :: segments =>
      recover_router_wal_segment clock segment_id (bool_decide (newest = Some segment_id)) file ≫= fun '(offset, file) =>
      recover_segments clock newest segments (<[segment_id := file]> dir) (mkShard (Some segment_id) offset)
  end.

Definition recover_router_wal_directory (clock : Z) (dir : gmap N bytes) (anchor : option N)
  : stres RouterWalState NodeCoreError (RouterWalRecoveredShard * gmap N bytes) :=
  let segments := match anchor with Some anchor => bt_range_ge anchor dir | None => bt_entries dir end in
  recover_segments clock (last segments.*1) segments dir (mkShard None 0).

(** The shard directories by number; [anchors] is keyed by their names, the root's
    is empty. *)
Fixpoint recover_shards (clock : Z) (dirs : list (nat * string * gmap N bytes)) (anchors : gmap string N)
    (shards : gmap nat RouterWalRecoveredShard) : stres RouterWalState NodeCoreError (gmap nat RouterWalRecoveredShard) :=
  match dirs with
  | [] => mret shards
  | (shard_id, name, dir) :: dirs =>
      recover_router_wal_directory clock dir (anchors !! name) ≫= fun '(recovered, _) =>
      recover_shards clock dirs anchors
        (if last_segment_id recovered then <[shard_id := recovered]> shards else shards)
  end.

Definition recover_router_wal_at (clock : Z) (root : gmap N bytes) (dirs : list (nat * string * gmap N bytes))
    (anchors : gmap string N) : stres RouterWalState NodeCoreError (gmap nat RouterWalRecoveredShard) :=
  recover_router_wal_directory clock root (anchors !! EmptyString) ≫= fun _ =>
  recover_shards clock dirs anchors ∅.

(** [recovery::prepare] of one directory of an associated store, up to the
    recovery: whether the headers call for a rotation of incarnations, what was
    recovered, and the files. *)
Definition prepare_directory (clock : Z) (metadata : option Metadata) (key : string) (dir : gmap N bytes)
  : stres RouterWalState NodeCoreError (bool * RouterWalRecoveredShard * gmap N bytes) :=
  let chain := metadata ≫= fun metadata => md_chains metadata !! key in
  lift (inspect_segments metadata chain (last (bt_keys dir)) None (bt_entries dir) dir false) ≫= fun '(mismatch, dir) =>
  recover_router_wal_directory clock dir (ch_anchor <$> chain) ≫= fun '(shard, dir) =>
  mret (mismatch, shard, dir).
End segment.
