(* ===== verification/WalFacts.v ===== *)
(** * The indexes of the write-ahead log agree with its records

    Two invariants of [RouterWalState]. [index_ok] holds whatever is logged: the
    queue of replay windows, the index by mailbox and the index by sender hold
    exactly what the records say, no sequence that was logged is above the mark of
    its mailbox, and every delivery has a deadline queued. [wal_ok] adds that the
    queue of deadlines holds nothing else. Every operation of Wal.v keeps them; what
    each of them does to the records is stated here.

    The deadline of a record without acceptance time depends on the clock only if
    its envelope is dated in the future; [wal_ok] is about logs without such
    records ([fixed]). *)

From S2P Require Import Prelude OrdMap Bytes Wire Inbox Wal.

Open Scope N_scope.

(** ** Views of the nested indexes *)

Definition keys_at (m : gmap string (gmap N (gset string))) (t : string) (q : N) : gset string :=
  default ∅ (default ∅ (m !! t) !! q).

Definition row_at {R} (m : gmap string (gmap (string * string) R)) (root : string) (d : string * string) : option R :=
  m !! root ≫= (.!! d).

(** No empty set and no empty map is kept. *)
Definition dense (m : gmap string (gmap N (gset string))) : Prop :=
  forall t sequences, m !! t = Some sequences ->
    sequences <> ∅ /\ forall q keys, sequences !! q = Some keys -> keys <> ∅.

Lemma keys_at_elem m t q k : k ∈ keys_at m t q <-> exists sequences keys, m !! t = Some sequences /\ sequences !! q = Some keys /\ k ∈ keys.
Proof.
  unfold keys_at. destruct (m !! t) as [sequences|]; simpl.
  - destruct (sequences !! q) as [keys|] eqn:E; simpl; [naive_solver|].
    split; [set_solver|]. intros (? & ? & [= <-] & ? & _). congruence.
  - rewrite lookup_empty. simpl. split; [set_solver|]. by intros (? & ? & ? & _).
Qed.

Lemma keys_at_insert m t q k t' q' :
  keys_at (<[t := <[q := {[k]} ∪ default ∅ (default ∅ (m !! t) !! q)]> (default ∅ (m !! t))]> m) t' q' =
  if decide (t' = t /\ q' = q) then {[k]} ∪ keys_at m t' q' else keys_at m t' q'.
Proof.
  unfold keys_at. destruct (decide (t' = t)) as [->|Ht].
  - rewrite lookup_insert_eq. cbn [default from_option id]. destruct (decide (q' = q)) as [->|Hq].
    + rewrite lookup_insert_eq. by rewrite decide_True.
    + rewrite lookup_insert_ne by done. by rewrite decide_False by tauto.
  - rewrite lookup_insert_ne by done. by rewrite decide_False by tauto.
Qed.

Lemma dense_insert m t q k :
  dense m -> dense (<[t := <[q := {[k]} ∪ default ∅ (default ∅ (m !! t) !! q)]> (default ∅ (m !! t))]> m).
Proof.
  intros D t' sequences [[<- <-]|[_ H]]%lookup_insert_Some; [|by apply (D t')].
  split; [apply insert_non_empty|]. intros q' keys [[_ <-]|[_ H]]%lookup_insert_Some; [set_solver|].
  destruct (m !! t) as [sequences|] eqn:E; [|cbn in H; by rewrite lookup_empty in H]. by eapply (proj2 (D t _ E)).
Qed.

(** What [unindex_target] does to the index. *)
Definition remove_key (m : gmap string (gmap N (gset string))) (t : string) (q : N) (k : string)
  : gmap string (gmap N (gset string)) :=
  match m !! t with
  | None => m
  | Some sequences =>
      let sequences :=
        match sequences !! q with
        | None => sequences
        | Some keys => let keys := keys ∖ {[k]} in
            if decide (keys = ∅) then delete q sequences else <[q := keys]> sequences
        end in
      if is_empty_map sequences then delete t m else <[t := sequences]> m
  end.

Lemma unindex_target_eq entry k s :
  unindex_target entry k s = set_by_target s (remove_key (submissions_by_target s) (en_target entry) (inbox_seq entry) k).
Proof. unfold unindex_target, remove_key. destruct (submissions_by_target s !! _); [done|by destruct s]. Qed.

Lemma keys_at_remove m t q k t' q' :
  keys_at (remove_key m t q k) t' q' =
  if decide (t' = t /\ q' = q) then keys_at m t' q' ∖ {[k]} else keys_at m t' q'.
Proof.
  unfold remove_key, keys_at. destruct (m !! t) as [sequences|] eqn:E; [|case_decide as H; [|done]].
  2:{ destruct H as [-> ->]. rewrite E. cbn. rewrite lookup_empty. set_solver. }
  set (sequences' := match sequences !! q with None => _ | _ => _ end).
  assert (default ∅ (sequences' !! q') = if decide (q' = q) then default ∅ (sequences !! q') ∖ {[k]} else default ∅ (sequences !! q')) as Hs.
  { unfold sequences'. destruct (decide (q' = q)) as [->|Hq], (sequences !! q) as [keys|] eqn:Eq; cbv zeta.
    - cbn [from_option id]. destruct (decide (keys ∖ {[k]} = ∅)) as [Hk|Hk].
      + rewrite lookup_delete_eq. by rewrite Hk.
      + by rewrite lookup_insert_eq.
    - rewrite Eq. cbn [from_option id]. set_solver.
    - case_decide; [by rewrite lookup_delete_ne|by rewrite lookup_insert_ne].
    - done. }
  destruct (decide (t' = t)) as [->|Ht].
  - rewrite E. assert (default ∅ ((if is_empty_map sequences' then delete t m else <[t:=sequences']> m) !! t) = sequences') as ->.
    { destruct (is_empty_map sequences') eqn:Em; [|by rewrite lookup_insert_eq].
      rewrite lookup_delete_eq. cbn. by apply is_empty_map_spec in Em. }
    rewrite Hs. cbn [from_option]. repeat case_decide; tauto.
  - rewrite decide_False by tauto.
    by destruct (is_empty_map sequences'); rewrite ?lookup_delete_ne, ?lookup_insert_ne by done.
Qed.

Lemma dense_remove m t q k : dense m -> dense (remove_key m t q k).
Proof.
  intros D. unfold remove_key. destruct (m !! t) as [sequences|] eqn:E; [|done].
  destruct (D t _ E) as [_ Dk]. set (sequences' := match sequences !! q with None => _ | _ => _ end).
  assert (forall q' keys, sequences' !! q' = Some keys -> keys <> ∅) as Ds.
  { unfold sequences'. intros q' keys. destruct (sequences !! q) as [ks|] eqn:Eq; [|apply Dk].
    case_decide as Hk; [intros [_ H]%lookup_delete_Some; by apply (Dk q')|].
    intros [[_ <-]|[_ H]]%lookup_insert_Some; [done|by apply (Dk q')]. }
  destruct (is_empty_map sequences') eqn:Em; intros t' seqs.
  - intros [_ H]%lookup_delete_Some. by apply (D t').
  - intros [[_ <-]|[_ H]]%lookup_insert_Some; [|by apply (D t')].
    split; [|done]. intros He%is_empty_map_spec. congruence.
Qed.

(** ** The index by sender *)

Definition remove_row (m : gmap string (gmap (string * string) RouterWalLocalDeliveryIndex)) (root : string)
    (d : string * string) (k : string) : gmap string (gmap (string * string) RouterWalLocalDeliveryIndex) :=
  match m !! root with
  | None => m
  | Some rows =>
      let rows := match rows !! d with
                  | Some row => if decide (di_replay_key row = k) then delete d rows else rows
                  | None => rows end in
      if is_empty_map rows then delete root m else <[root := rows]> m
  end.

Lemma row_at_insert {R} (m : gmap string (gmap (string * string) R)) root d v root' d' :
  row_at (<[root := <[d := v]> (default ∅ (m !! root))]> m) root' d' =
  if decide (root' = root /\ d' = d) then Some v else row_at m root' d'.
Proof.
  unfold row_at. destruct (decide (root' = root)) as [->|Hr].
  - rewrite lookup_insert_eq. cbn. destruct (decide (d' = d)) as [->|Hd].
    + rewrite lookup_insert_eq. by rewrite decide_True.
    + rewrite lookup_insert_ne by done. rewrite decide_False by tauto. by destruct (m !! root); cbn; rewrite ?lookup_empty.
  - rewrite lookup_insert_ne by done. by rewrite decide_False by tauto.
Qed.

Lemma row_at_remove m root d k root' d' :
  row_at (remove_row m root d k) root' d' =
  if decide (root' = root /\ d' = d) then
    row_at m root' d' ≫= fun row => if decide (di_replay_key row = k) then None else Some row
  else row_at m root' d'.
Proof.
  unfold remove_row, row_at. destruct (m !! root) as [rows|] eqn:E; [|case_decide as H; [|done]].
  2:{ destruct H as [-> ->]. by rewrite E. }
  set (rows' := match rows !! d with None => _ | _ => _ end).
  assert (rows' !! d' = if decide (d' = d) then rows !! d' ≫= fun row => if decide (di_replay_key row = k) then None else Some row
    else rows !! d') as Hs.
  { unfold rows'. destruct (decide (d' = d)) as [->|Hd], (rows !! d) as [row|] eqn:Ed; cbn [mbind option_bind]; try done.
    - destruct (decide (di_replay_key row = k)); [by rewrite lookup_delete_eq|done].
    - case_decide; [by rewrite lookup_delete_ne|done]. }
  destruct (decide (root' = root)) as [->|Hr].
  - rewrite E. assert (((if is_empty_map rows' then delete root m else <[root:=rows']> m) !! root ≫= (.!! d')) = rows' !! d') as ->.
    { destruct (is_empty_map rows') eqn:Em; [|by rewrite lookup_insert_eq].
      rewrite lookup_delete_eq. cbn. apply is_empty_map_spec in Em. by rewrite Em, lookup_empty. }
    rewrite Hs. cbn [mbind option_bind]. repeat case_decide; tauto.
  - rewrite decide_False by tauto.
    by destruct (is_empty_map rows'); rewrite ?lookup_delete_ne, ?lookup_insert_ne by done.
Qed.

(** ** The invariant *)

Section invariant.
(** No operation reads a clock before [epoch]. *)
Variable epoch : Z.

Definition fixed (r : RouterWalSubmissionRecord) : Prop :=
  match wr_entry r, wr_accepted_at r with
  | Some entry, None => (created_at (en_envelope entry) <= epoch)%Z
  | _, _ => True
  end.

Definition deadline (r : RouterWalSubmissionRecord) : Z := wal_retain_until epoch r.

Lemma retain_until_fixed c r : (epoch <= c)%Z -> fixed r -> wal_retain_until c r = deadline r.
Proof using.
  unfold deadline, wal_retain_until, fixed, inbox_legacy_retain_until. intros Hc.
  destruct (wr_entry r) as [e|], (wr_accepted_at r); try done. intros Hf. f_equal. lia.
Qed.

(** The indexes, whatever was logged: the queue of replay windows and the index by
    mailbox list exactly the records and the deliveries, receipts of senders name a
    record, marks are not passed, and every delivery waits in the queue of
    deadlines. *)
Record index_ok (s : RouterWalState) : Prop := {
  ok_key k r : submissions_by_replay_key s !! k = Some r -> wr_replay_key r = k;
  ok_replay e k : (e, k) ∈ replay_due s <->
    exists r, submissions_by_replay_key s !! k = Some r /\ wr_replay_expires_at r = e;
  ok_target t q k : k ∈ keys_at (submissions_by_target s) t q <->
    exists r e, submissions_by_replay_key s !! k = Some r /\ wr_entry r = Some e /\ en_target e = t /\ inbox_seq e = q;
  ok_dense : dense (submissions_by_target s);
  ok_sender root d row : row_at (local_delivery_by_sender_envelope s) root d = Some row ->
    exists r, submissions_by_replay_key s !! di_replay_key row = Some r /\
      wr_local_delivery r = Some (mkLocalDelivery root d.1 d.2) /\
      di_target_delivery_id row = d.2 /\ di_replay_expires_at row = wr_replay_expires_at r;
  ok_issued k r e : submissions_by_replay_key s !! k = Some r -> wr_entry r = Some e ->
    inbox_seq e <= wal_issued_sequence s (en_target e);
  ok_queued k r e : submissions_by_replay_key s !! k = Some r -> wr_entry r = Some e -> exists d, (d, k) ∈ entry_due s;
}.

(** With records whose deadline does not move, the queue of deadlines is exact. *)
Record wal_ok (s : RouterWalState) : Prop := {
  ok_index :> index_ok s;
  ok_fixed k r : submissions_by_replay_key s !! k = Some r -> fixed r;
  ok_entry d k : (d, k) ∈ entry_due s <->
    exists r e, submissions_by_replay_key s !! k = Some r /\ wr_entry r = Some e /\ deadline r = d;
}.

Lemma index_empty_ok : index_ok wal_empty.
Proof using. split; cbn; intros; rewrite ?lookup_empty in *; try done; try set_solver. Qed.

Lemma wal_empty_ok : wal_ok wal_empty.
Proof using. split; [apply index_empty_ok|..]; cbn; intros; rewrite ?lookup_empty in *; try done; set_solver. Qed.

(** The incarnations of mailboxes are no part of it. *)
Lemma index_incarnations s v conflict : index_ok s -> index_ok (set_wal_incarnations s v conflict).
Proof using. intros Hs. split; apply Hs. Qed.

Lemma ok_incarnations s v conflict : wal_ok s -> wal_ok (set_wal_incarnations s v conflict).
Proof using. intros Hs. split; [apply index_incarnations, Hs|apply Hs..]. Qed.

(** ** One record less *)

Lemma unindex_fields c r s :
  let s' := wal_unindex c r s in
  submissions_by_replay_key s' = submissions_by_replay_key s /\
  replay_due s' = replay_due s ∖ {[(wr_replay_expires_at r, wr_replay_key r)]} /\
  entry_due s' = match wr_entry r with None => entry_due s
    | Some _ => entry_due s ∖ {[(wal_retain_until c r, wr_replay_key r)]} end /\
  submissions_by_target s' = match wr_entry r with None => submissions_by_target s
    | Some e => remove_key (submissions_by_target s) (en_target e) (inbox_seq e) (wr_replay_key r) end /\
  local_delivery_by_sender_envelope s' = match wr_local_delivery r with None => local_delivery_by_sender_envelope s
    | Some d => remove_row (local_delivery_by_sender_envelope s) (ld_sender_root_commitment d)
        (ld_envelope_id d, ld_target_delivery_id d) (wr_replay_key r) end /\
  issued_by_target s' = issued_by_target s /\ wal_incarnations s' = wal_incarnations s /\
  incarnation_conflict s' = incarnation_conflict s.
Proof using.
  unfold wal_unindex, remove_row. destruct (wr_entry r) as [e|], (wr_local_delivery r) as [d|];
    rewrite ?unindex_target_eq; cbn; try done; by destruct (local_delivery_by_sender_envelope s !! _).
Qed.

Lemma index_drop c r k s :
  index_ok s -> submissions_by_replay_key s !! k = Some r ->
  index_ok (wal_unindex c r (set_submissions s (delete k (submissions_by_replay_key s)))).
Proof using.
  intros Hs Hk. pose proof (ok_key _ Hs _ _ Hk) as Hrk.
  destruct (unindex_fields c r (set_submissions s (delete k (submissions_by_replay_key s))))
    as (Hsub & Hrep & Hent & Htgt & Hsnd & Hiss & _). rewrite Hrk in *. cbn in *.
  set (s' := wal_unindex _ _ _) in *.
  split.
  - intros k' r'. rewrite Hsub. intros [_ H]%lookup_delete_Some. by apply Hs.
  - intros x k'. rewrite Hrep, Hsub, elem_of_difference, not_elem_of_singleton, (ok_replay _ Hs). setoid_rewrite lookup_delete_Some.
    naive_solver.
  - intros t q k'. rewrite Htgt, Hsub. setoid_rewrite lookup_delete_Some. destruct (wr_entry r) as [e|] eqn:Er.
    + rewrite keys_at_remove. case_decide as Hd;
        rewrite ?elem_of_difference, ?not_elem_of_singleton, (ok_target _ Hs); naive_solver.
    + rewrite (ok_target _ Hs). naive_solver.
  - rewrite Htgt. destruct (wr_entry r); [apply dense_remove|]; apply Hs.
  - intros root d row. rewrite Hsnd, Hsub. destruct (wr_local_delivery r) as [ld|] eqn:Eld.
    + rewrite row_at_remove. case_decide as Hd.
      * intros (row' & H & Hrow)%bind_Some. case_decide; [done|]. simplify_eq.
        destruct (ok_sender _ Hs _ _ _ H) as (r' & ? & ?). exists r'. by rewrite lookup_delete_ne.
      * intros H. destruct (ok_sender _ Hs _ _ _ H) as (r' & Hr' & Hl & ?). exists r'. split; [|done].
        rewrite lookup_delete_ne; [done|]. intros ->. simplify_eq. cbn in Hd. destruct d; tauto.
    + intros H. destruct (ok_sender _ Hs _ _ _ H) as (r' & Hr' & Hl & ?). exists r'. split; [|done].
      rewrite lookup_delete_ne; [done|]. intros ->. congruence.
  - intros k' r' e'. rewrite Hsub. unfold wal_issued_sequence. rewrite Hiss. intros [_ H]%lookup_delete_Some. by apply (ok_issued _ Hs k').
  - intros k' r' e'. rewrite Hsub, Hent. intros [Hne H]%lookup_delete_Some He'. destruct (ok_queued _ Hs _ _ _ H He') as [d Hd].
    exists d. destruct (wr_entry r); [|done]. apply elem_of_difference. split; [done|]. rewrite elem_of_singleton. congruence.
Qed.

Lemma ok_drop c r k s :
  wal_ok s -> (epoch <= c)%Z -> submissions_by_replay_key s !! k = Some r ->
  wal_ok (wal_unindex c r (set_submissions s (delete k (submissions_by_replay_key s)))).
Proof using.
  intros Hs Hc Hk. split; [by apply index_drop; [apply Hs|]|..];
    destruct (unindex_fields c r (set_submissions s (delete k (submissions_by_replay_key s)))) as (Hsub & _ & Hent & _);
    rewrite (ok_key _ Hs _ _ Hk) in *; cbn in *.
  - intros k' r'. rewrite Hsub. intros [_ H]%lookup_delete_Some. by apply (ok_fixed _ Hs k').
  - intros x k'. rewrite Hent, Hsub. setoid_rewrite lookup_delete_Some. destruct (wr_entry r) as [e|] eqn:Er.
    + rewrite elem_of_difference, not_elem_of_singleton, (ok_entry _ Hs), (retain_until_fixed c r);
        [naive_solver|done|by apply (ok_fixed _ Hs k)].
    + rewrite (ok_entry _ Hs). naive_solver.
Qed.

(** ** One delivery less *)

(** What [observe_settlement] and the second loop of [prune] do with one record. *)
Definition settled_at (d : Z) (e : InboxEntry) (r : RouterWalSubmissionRecord) (k : string) (s : RouterWalState) : RouterWalState :=
  unindex_target e k (set_entry_due (set_submissions s (<[k := take_entry r]> (submissions_by_replay_key s)))
    (entry_due s ∖ {[(d, k)]})).

Definition settled (c : Z) (e : InboxEntry) (r : RouterWalSubmissionRecord) (k : string) (s : RouterWalState) : RouterWalState :=
  settled_at (wal_retain_until c r) e r k s.

Lemma index_settle d r e k s :
  index_ok s -> submissions_by_replay_key s !! k = Some r -> wr_entry r = Some e -> index_ok (settled_at d e r k s).
Proof using.
  intros Hs Hk He. unfold settled_at. rewrite unindex_target_eq. split; cbn.
  - intros k' r' [[<- <-]|[_ H]]%lookup_insert_Some; [by apply (ok_key _ Hs k r)|by apply Hs].
  - intros x k'. rewrite (ok_replay _ Hs). setoid_rewrite lookup_insert_Some.
    destruct (decide (k = k')) as [<-|]; naive_solver.
  - intros t q k'. rewrite keys_at_remove. setoid_rewrite lookup_insert_Some.
    case_decide as Hd; rewrite ?elem_of_difference, ?not_elem_of_singleton, (ok_target _ Hs);
      destruct (decide (k = k')) as [<-|]; naive_solver.
  - apply dense_remove, Hs.
  - intros root x row H. destruct (ok_sender _ Hs _ _ _ H) as (r' & Hr' & ?). setoid_rewrite lookup_insert_Some.
    destruct (decide (k = di_replay_key row)) as [->|]; naive_solver.
  - intros k' r' e' [[<- <-]|[_ H]]%lookup_insert_Some; [done|]. by apply (ok_issued _ Hs k').
  - intros k' r' e' [[<- <-]|[Hne H]]%lookup_insert_Some; [done|]. intros He'.
    destruct (ok_queued _ Hs _ _ _ H He') as [x Hx]. exists x. apply elem_of_difference. split; [done|].
    rewrite elem_of_singleton. congruence.
Qed.

Lemma ok_settle c r e k s :
  wal_ok s -> (epoch <= c)%Z -> submissions_by_replay_key s !! k = Some r -> wr_entry r = Some e -> wal_ok (settled c e r k s).
Proof using.
  intros Hs Hc Hk He. split; [by apply index_settle; [apply Hs|..]|..]; unfold settled, settled_at; rewrite unindex_target_eq; cbn.
  - intros k' r' [[<- <-]|[_ H]]%lookup_insert_Some; [done|by apply (ok_fixed _ Hs k')].
  - intros x k'. rewrite elem_of_difference, not_elem_of_singleton, (ok_entry _ Hs), (retain_until_fixed c r);
      [|done|by apply (ok_fixed _ Hs k)].
    setoid_rewrite lookup_insert_Some. destruct (decide (k = k')) as [<-|]; naive_solver.
Qed.

(** ** Settlement *)

Lemma take_entry_None r : wr_entry r = None -> take_entry r = r.
Proof using. intros H. destruct r. cbn in *. by subst. Qed.

(** What settlement and retention leave as it is. *)
Definition same_receipts (s s' : RouterWalState) : Prop :=
  local_delivery_by_sender_envelope s' = local_delivery_by_sender_envelope s /\
  issued_by_target s' = issued_by_target s /\ wal_incarnations s' = wal_incarnations s /\
  incarnation_conflict s' = incarnation_conflict s.

#[global] Instance same_receipts_preorder : PreOrder same_receipts.
Proof using. split; [by intros s|]. unfold same_receipts. intros s1 s2 s3 (-> & -> & -> & ->) (-> & -> & -> & ->). done. Qed.

Lemma settled_fields c e r k s :
  submissions_by_replay_key (settled c e r k s) = <[k := take_entry r]> (submissions_by_replay_key s) /\
  replay_due (settled c e r k s) = replay_due s /\
  entry_due (settled c e r k s) = entry_due s ∖ {[(wal_retain_until c r, k)]} /\
  same_receipts s (settled c e r k s).
Proof using. unfold settled, settled_at, same_receipts. by rewrite unindex_target_eq. Qed.

(** What both invariants have in common: the indexes agree, and taking the
    delivery of a record keeps them so. *)
Definition kept_by_settling (c : Z) (I : RouterWalState -> Prop) : Prop :=
  (forall s, I s -> index_ok s) /\
  forall s k r e, I s -> submissions_by_replay_key s !! k = Some r -> wr_entry r = Some e -> I (settled c e r k s).

Lemma index_kept c : kept_by_settling c index_ok.
Proof using. split; [done|]. intros. by apply index_settle. Qed.

Lemma wal_kept c : (epoch <= c)%Z -> kept_by_settling c wal_ok.
Proof using. intros Hc. split; [by intros s []|]. intros. by apply ok_settle. Qed.

Section settling.
Variable c : Z.
Variable I : RouterWalState -> Prop.
Hypothesis keeps : kept_by_settling c I.

Lemma settle_key_ok s k :
  I s ->
  I (settle_key c s k) /\
  submissions_by_replay_key (settle_key c s k) = alter take_entry k (submissions_by_replay_key s) /\
  same_receipts s (settle_key c s k).
Proof using keeps.
  intros Hs. unfold settle_key. destruct (submissions_by_replay_key s !! k) as [r|] eqn:Hk.
  2:{ split; [done|]. split; [|done]. apply map_eq. intros i. destruct (decide (i = k)) as [->|].
      - by rewrite lookup_alter_eq, Hk.
      - by rewrite lookup_alter_ne. }
  assert (alter take_entry k (submissions_by_replay_key s) = <[k := take_entry r]> (submissions_by_replay_key s)) as ->.
  { apply map_eq. intros i. destruct (decide (i = k)) as [->|].
    - by rewrite lookup_alter_eq, lookup_insert_eq, Hk.
    - by rewrite lookup_alter_ne, lookup_insert_ne. }
  destruct (wr_entry r) as [e|] eqn:He.
  - destruct (settled_fields c e r k s) as (Hsub & _ & _ & Hsame).
    exact (conj (proj2 keeps s k r e Hs Hk He) (conj Hsub Hsame)).
  - split; [done|]. by rewrite take_entry_None, insert_id.
Qed.

Lemma settle_keys_ok keys s :
  I s ->
  let s' := foldl (settle_key c) s keys in
  I s' /\ same_receipts s s' /\
  forall k, submissions_by_replay_key s' !! k =
    (if decide (k ∈ keys) then take_entry <$> submissions_by_replay_key s !! k else submissions_by_replay_key s !! k).
Proof using keeps.
  intros Hs. revert s Hs. induction keys as [|k keys IH]; intros s Hs; cbn.
  { split; [done|]. split; [done|]. intros k. rewrite decide_False; [done|set_solver]. }
  destruct (settle_key_ok s k Hs) as (Hok & Hsub & Hsame). destruct (IH _ Hok) as (Hok' & Hsame' & Hsub').
  split; [done|]. split; [by etrans|]. intros k'. rewrite Hsub', Hsub. destruct (decide (k' = k)) as [->|Hne].
  - rewrite lookup_alter_eq, (decide_True (P := k ∈ k :: keys)) by set_solver.
    case_decide; [|done]. by destruct (submissions_by_replay_key s !! k).
  - rewrite lookup_alter_ne by done. by repeat case_decide; set_solver.
Qed.
End settling.

(** The sequences a cursor settles. *)
Definition settles (cursor : CursorAckState) (q : N) : Prop :=
  q <= settled_inbox_seq cursor \/ q ∈ acked_inbox_seqs cursor \/ q ∈ retired_inbox_seqs cursor.

#[global] Instance settles_dec cursor q : Decision (settles cursor q) := _.

(** The record after the cursor was observed. *)
Definition observed (cursor : CursorAckState) (r : RouterWalSubmissionRecord) : RouterWalSubmissionRecord :=
  match wr_entry r with
  | Some e => if decide (en_target e = cur_target cursor /\ settles cursor (inbox_seq e)) then take_entry r else r
  | None => r
  end.

Lemma observe_keys cursor sequences (s : RouterWalState) k :
  submissions_by_target s !! cur_target cursor = Some sequences ->
  k ∈ (⋃ ((bt_range_le (settled_inbox_seq cursor) sequences).*2 ++
    omap (fun q => sequences !! q) (bs_elems (acked_inbox_seqs cursor) ++ retired_inbox_seqs cursor)) : gset string) <->
  exists q, settles cursor q /\ k ∈ keys_at (submissions_by_target s) (cur_target cursor) q.
Proof using.
  intros Ht. rewrite elem_of_union_list. setoid_rewrite elem_of_app. setoid_rewrite list_elem_of_fmap. setoid_rewrite list_elem_of_omap.
  setoid_rewrite elem_of_app. setoid_rewrite elem_of_bs_elems. setoid_rewrite keys_at_elem. unfold settles. split.
  - intros (keys & [([q keys'] & -> & (Hq & Hle)%elem_of_bt_range_le)|(q & Hq & Hl)] & Hk); naive_solver.
  - intros (q & Hq & sequences' & keys & ? & Hl & Hk). simplify_eq. exists keys. split; [|done].
    destruct Hq as [Hq|Hq]; [left|right; eauto]. exists (q, keys). by rewrite elem_of_bt_range_le.
Qed.

Lemma observe_keeps c I cursor s :
  kept_by_settling c I -> I s ->
  I (observe_settlement c cursor s) /\ same_receipts s (observe_settlement c cursor s) /\
  submissions_by_replay_key (observe_settlement c cursor s) = observed cursor <$> submissions_by_replay_key s.
Proof using.
  intros HI Hi. pose proof (proj1 HI s Hi) as Hs.
  unfold observe_settlement. destruct (submissions_by_target s !! cur_target cursor) as [sequences|] eqn:Ht.
  - cbv zeta. match goal with |- context [bs_elems (⋃ ?l)] => set (keys := bs_elems (⋃ l)) end.
    destruct (settle_keys_ok c I HI keys s Hi) as (Hok & Hsame & Hsub). split; [done|]. split; [done|].
    apply map_eq. intros k. rewrite Hsub, lookup_fmap. destruct (submissions_by_replay_key s !! k) as [r|] eqn:Hk; [|by case_decide].
    assert (k ∈ keys <-> exists e, wr_entry r = Some e /\ en_target e = cur_target cursor /\ settles cursor (inbox_seq e)) as Hiff.
    { unfold keys. rewrite elem_of_bs_elems, (observe_keys _ _ _ _ Ht). setoid_rewrite (ok_target _ Hs). naive_solver. }
    cbn. unfold observed. destruct (wr_entry r) as [e|] eqn:He; case_decide; [by rewrite decide_True by naive_solver| |naive_solver|done].
    rewrite decide_False by naive_solver. done.
  - split; [done|]. split; [done|]. apply map_eq. intros k. rewrite lookup_fmap.
    destruct (submissions_by_replay_key s !! k) as [r|] eqn:Hk; [|done]. cbn. f_equal. unfold observed.
    destruct (wr_entry r) as [e|] eqn:He; [|done]. rewrite decide_False; [done|]. intros [Het _].
    assert (k ∈ keys_at (submissions_by_target s) (en_target e) (inbox_seq e)) as Hin by (apply (ok_target _ Hs); by exists r, e).
    rewrite Het in Hin. apply keys_at_elem in Hin as (? & ? & ? & _). congruence.
Qed.

Lemma observe_ok c cursor s :
  wal_ok s -> (epoch <= c)%Z ->
  wal_ok (observe_settlement c cursor s) /\ same_receipts s (observe_settlement c cursor s) /\
  submissions_by_replay_key (observe_settlement c cursor s) = observed cursor <$> submissions_by_replay_key s.
Proof using. intros Hs Hc. by apply (observe_keeps c wal_ok); [apply wal_kept|]. Qed.

(** ** Retention *)

Lemma due_min (due : gset (Z * string)) e k e' k' :
  bs_first due = Some (e, k) -> (e', k') ∈ due -> (e <= e')%Z.
Proof using. intros [_ Hmin]%bs_first_Some H. exact (prod_key_le_fst _ _ (Hmin _ H)). Qed.

Lemma due_first (due : gset (Z * string)) x : bs_first due = Some x -> x ∈ due.
Proof using. by intros [? _]%bs_first_Some. Qed.

Lemma size_remove_due (due : gset (Z * string)) x n : x ∈ due -> (size due <= S n)%nat -> (size (due ∖ {[x]}) <= n)%nat.
Proof using. intros Hx. rewrite size_difference by set_solver. rewrite size_singleton. lia. Qed.

(** Not dropped by [prune(now)]. *)
Definition replayable (now : Z) (x : string * RouterWalSubmissionRecord) : Prop := (now <= wr_replay_expires_at x.2)%Z.

(** Past its retention deadline. *)
Definition overdue (now : Z) (r : RouterWalSubmissionRecord) : Prop := is_Some (wr_entry r) /\ (deadline r <= now)%Z.

#[global] Instance replayable_dec now x : Decision (replayable now x).
Proof using. unfold replayable. apply _. Defined.
#[global] Instance overdue_dec now r : Decision (overdue now r).
Proof using. unfold overdue. apply _. Defined.

Definition retained (now : Z) (r : RouterWalSubmissionRecord) : RouterWalSubmissionRecord :=
  if decide (overdue now r) then take_entry r else r.

Lemma unindex_twice c r s m :
  wal_unindex c r (set_submissions (set_replay_due s (replay_due s ∖ {[(wr_replay_expires_at r, wr_replay_key r)]})) m) =
  wal_unindex c r (set_submissions s m).
Proof using.
  unfold wal_unindex. cbn.
  assert (forall x : Z * string, replay_due s ∖ {[x]} ∖ {[x]} = replay_due s ∖ {[x]}) as H by set_solver.
  by rewrite H.
Qed.

(** No receipt of a sender but those of [s]. *)
Definition rows_within (s' s : RouterWalState) : Prop := forall root d row,
  row_at (local_delivery_by_sender_envelope s') root d = Some row ->
  row_at (local_delivery_by_sender_envelope s) root d = Some row.

#[global] Instance rows_within_preorder : PreOrder rows_within.
Proof using. split; [by intros s root|]. intros s1 s2 s3 H1 H2 root d row H. by apply H2, H1. Qed.

Lemma unindex_rows c r s : rows_within (wal_unindex c r s) s.
Proof using.
  intros root d row. destruct (unindex_fields c r s) as (_ & _ & _ & _ & -> & _).
  destruct (wr_local_delivery r) as [ld|]; [|done]. rewrite row_at_remove. case_decide as Hd; [|done].
  intros (row' & -> & H)%bind_Some. case_decide; by simplify_eq.
Qed.

Lemma prune_replay_keeps (I : RouterWalState -> Prop) fuel c now s removed s' removed' :
  (forall s, I s -> index_ok s) ->
  (forall s k r, I s -> submissions_by_replay_key s !! k = Some r ->
     I (wal_unindex c r (set_submissions s (delete k (submissions_by_replay_key s))))) ->
  I s -> (size (replay_due s) <= fuel)%nat ->
  prune_replay fuel c now s removed = (s', removed') ->
  I s' /\ submissions_by_replay_key s' = filter (replayable now) (submissions_by_replay_key s) /\
  (removed' + size (submissions_by_replay_key s') = removed + size (submissions_by_replay_key s))%nat /\
  issued_by_target s' = issued_by_target s /\ wal_incarnations s' = wal_incarnations s /\ rows_within s' s.
Proof using.
  intros HI Hdrop Hinv. revert s removed Hinv. induction fuel as [|fuel IH]; intros s removed Hinv Hsz; cbn [prune_replay];
    pose proof (HI s Hinv) as Hs.
  - intros [= <- <-]. split; [done|]. rewrite map_filter_id; [done|].
    intros k r Hk. assert ((wr_replay_expires_at r, k) ∈ replay_due s) as H by (apply (ok_replay _ Hs); eauto).
    apply Nat.le_0_r, size_empty_inv in Hsz. set_solver.
  - destruct (bs_first (replay_due s)) as [[e k]|] eqn:Hf.
    2:{ apply bs_first_None in Hf. intros [= <- <-]. split; [done|]. rewrite map_filter_id; [done|].
        intros k r Hk. assert ((wr_replay_expires_at r, k) ∈ replay_due s) as H by (apply (ok_replay _ Hs); eauto). set_solver. }
    case_decide as Hnow.
    { intros [= <- <-]. split; [done|]. rewrite map_filter_id; [done|]. intros k' r Hk.
      assert ((wr_replay_expires_at r, k') ∈ replay_due s) as H by (apply (ok_replay _ Hs); eauto).
      pose proof (due_min _ _ _ _ _ Hf H). unfold replayable. cbn. lia. }
    pose proof (due_first _ _ Hf) as Hin. destruct (proj1 (ok_replay _ Hs e k) Hin) as (r & Hk & He).
    pose proof (ok_key _ Hs _ _ Hk) as Hrk. cbn [set_replay_due submissions_by_replay_key]. rewrite Hk.
    rewrite <- He, <- Hrk, unindex_twice, Hrk. intros Hrun.
    pose proof (Hdrop s k r Hinv Hk) as Hok.
    destruct (unindex_fields c r (set_submissions s (delete k (submissions_by_replay_key s))))
      as (Hsub & Hrep & _ & _ & _ & Hi & Hn & _). cbn in Hsub, Hrep, Hi, Hn.
    destruct (IH _ (S removed) Hok) as (Hok' & Hs' & Hcount & Hi' & Hn' & Hr'); [|exact Hrun|].
    { rewrite Hrep, Hrk, He. by apply size_remove_due. }
    split; [done|]. rewrite Hs', Hsub, Hi', Hn', Hi, Hn. split.
    + symmetry. rewrite <- (insert_delete_id (submissions_by_replay_key s) k r Hk) at 1. rewrite map_filter_insert_False.
      * by rewrite delete_delete_eq.
      * unfold replayable. cbn. lia.
    + rewrite Hs', Hsub in Hcount. rewrite Hcount.
      rewrite <- (insert_delete_id _ _ _ Hk) at 2. rewrite map_size_insert_None by apply lookup_delete_eq. split; [lia|].
      split; [done|]. split; [done|]. intros root d row H%Hr'. exact (unindex_rows _ _ _ _ _ _ H).
Qed.

Lemma prune_replay_ok fuel c now s removed s' removed' :
  wal_ok s -> (epoch <= c)%Z -> (size (replay_due s) <= fuel)%nat ->
  prune_replay fuel c now s removed = (s', removed') ->
  wal_ok s' /\ submissions_by_replay_key s' = filter (replayable now) (submissions_by_replay_key s) /\
  (removed' + size (submissions_by_replay_key s') = removed + size (submissions_by_replay_key s))%nat /\
  issued_by_target s' = issued_by_target s /\ wal_incarnations s' = wal_incarnations s /\ rows_within s' s.
Proof using. intros Hs Hc. apply (prune_replay_keeps wal_ok); [by intros ? []|intros; by apply ok_drop|done]. Qed.

(** The second loop keeps the indexes, also when deadlines in the queue are stale. *)
Lemma prune_entries_index fuel now s removed : index_ok s -> index_ok (prune_entries fuel now s removed).1.
Proof using.
  revert s removed. induction fuel as [|fuel IH]; intros s removed Hs; cbn [prune_entries]; [done|].
  destruct (bs_first (entry_due s)) as [[d k]|]; [|done]. case_decide; [done|]. cbn [set_entry_due submissions_by_replay_key].
  assert ((forall r e, submissions_by_replay_key s !! k = Some r -> wr_entry r <> Some e) ->
    index_ok (set_entry_due s (entry_due s ∖ {[(d, k)]}))) as Hskip.
  { intros Hno. split; try apply Hs. intros k' r e Hk He. destruct (ok_queued _ Hs _ _ _ Hk He) as [x Hx]. exists x.
    apply elem_of_difference. split; [done|]. rewrite elem_of_singleton. intros [= -> ->]. by eapply Hno. }
  destruct (submissions_by_replay_key s !! k) as [r|] eqn:Hk; [destruct (wr_entry r) as [e|] eqn:He|].
  - apply IH. exact (index_settle d r e k s Hs Hk He).
  - apply IH, Hskip. intros r' e' [= <-]. congruence.
  - by apply IH, Hskip.
Qed.

Lemma retained_take now r : retained now (take_entry r) = take_entry r.
Proof using. unfold retained. by case_decide. Qed.

Lemma prune_entries_ok fuel now s removed s' removed' :
  wal_ok s -> (size (entry_due s) <= fuel)%nat ->
  prune_entries fuel now s removed = (s', removed') ->
  wal_ok s' /\ submissions_by_replay_key s' = retained now <$> submissions_by_replay_key s /\
  removed' = (removed + size (filter (fun x => overdue now x.2) (submissions_by_replay_key s)))%nat /\ same_receipts s s'.
Proof using.
  assert (forall s, (forall k r, submissions_by_replay_key s !! k = Some r -> ~ overdue now r) ->
    retained now <$> submissions_by_replay_key s = submissions_by_replay_key s /\
    filter (fun x => overdue now x.2) (submissions_by_replay_key s) = ∅) as Hnone.
  { intros s0 H. split.
    - apply map_eq. intros k. rewrite lookup_fmap. destruct (submissions_by_replay_key s0 !! k) as [r|] eqn:Hk; [|done].
      cbn. unfold retained. rewrite decide_False by eauto. done.
    - apply map_empty. intros k. apply map_lookup_filter_None. right. intros r Hk. exact (H k r Hk). }
  revert s removed. induction fuel as [|fuel IH]; intros s removed Hs Hsz; cbn [prune_entries].
  - destruct (Hnone s) as [H1 H2].
    { intros k r Hk [[e He] _]. assert ((deadline r, k) ∈ entry_due s) as H by (apply (ok_entry _ Hs); eauto 6).
      apply Nat.le_0_r, size_empty_inv in Hsz. set_solver. }
    intros [= <- <-]. rewrite H1, H2, map_size_empty. split; [done|]. split; [done|]. split; [lia|done].
  - destruct (bs_first (entry_due s)) as [[x k]|] eqn:Hf; [case_decide as Hnow|].
    + destruct (Hnone s) as [H1 H2].
      { intros k' r Hk [[e He] Hd]. assert ((deadline r, k') ∈ entry_due s) as H by (apply (ok_entry _ Hs); eauto 6).
        pose proof (due_min _ _ _ _ _ Hf H). lia. }
      intros [= <- <-]. rewrite H1, H2, map_size_empty. split; [done|]. split; [done|]. split; [lia|done].
    + pose proof (due_first _ _ Hf) as Hin. destruct (proj1 (ok_entry _ Hs x k) Hin) as (r & e & Hk & He & Hx).
      cbn [set_entry_due submissions_by_replay_key]. rewrite Hk, He, <- Hx. intros Hrun.
      destruct (settled_fields epoch e r k s) as (Hsub & _ & Hent & Hsame).
      destruct (IH (settled epoch e r k s) (S removed)) as (Hok' & Hs' & Hcount & Hsame').
      { by apply ok_settle; [|lia|..]. }
      { rewrite Hent. fold (deadline r). rewrite Hx. by apply size_remove_due. }
      { exact Hrun. }
      assert (overdue now r) as Hover by (split; [eauto|lia]).
      split; [done|]. rewrite Hs', Hcount, Hsub. split; [|split; [|by etrans]].
      * rewrite fmap_insert, retained_take. apply insert_id. rewrite lookup_fmap, Hk. cbn. unfold retained. by rewrite decide_True.
      * rewrite map_filter_insert_False; [|by intros [[? [=]] _]]. rewrite <- (insert_delete_id _ _ _ Hk) at 2.
        rewrite map_filter_insert_True by done. rewrite map_size_insert_None; [lia|].
        apply map_lookup_filter_None. left. apply lookup_delete_eq.
    + apply bs_first_None in Hf. destruct (Hnone s) as [H1 H2].
      { intros k r Hk [[e He] _]. assert ((deadline r, k) ∈ entry_due s) as H by (apply (ok_entry _ Hs); eauto 6). set_solver. }
      intros [= <- <-]. rewrite H1, H2, map_size_empty. split; [done|]. split; [done|]. split; [lia|done].
Qed.

(** ** One record more *)

Variable content_digest : Envelope -> option string.

Lemma index_fields c r s :
  let s' := wal_index content_digest c r s in
  submissions_by_replay_key s' = submissions_by_replay_key s /\
  replay_due s' = {[(wr_replay_expires_at r, wr_replay_key r)]} ∪ replay_due s /\
  entry_due s' = match wr_entry r with None => entry_due s
    | Some _ => {[(wal_retain_until c r, wr_replay_key r)]} ∪ entry_due s end /\
  submissions_by_target s' = match wr_entry r with None => submissions_by_target s
    | Some e => let m := submissions_by_target s in
        <[en_target e := <[inbox_seq e := {[wr_replay_key r]} ∪ default ∅ (default ∅ (m !! en_target e) !! inbox_seq e)]>
          (default ∅ (m !! en_target e))]> m end /\
  (exists assignment, local_delivery_by_sender_envelope s' = match wr_local_delivery r with
    | None => local_delivery_by_sender_envelope s
    | Some d => let m := local_delivery_by_sender_envelope s in
        <[ld_sender_root_commitment d := <[(ld_envelope_id d, ld_target_delivery_id d) :=
          mkDeliveryIndex (wr_replay_key r) (ld_target_delivery_id d) (wr_replay_expires_at r) assignment]>
          (default ∅ (m !! ld_sender_root_commitment d))]> m end /\
    assignment = if wr_sender_assigned r then wr_entry r ≫= fun e => wal_incarnations s !! en_target e ≫= fun id =>
      new_assignment content_digest e id (wal_retain_until c r) else None) /\
  issued_by_target s' = issued_by_target s /\ wal_incarnations s' = wal_incarnations s /\
  incarnation_conflict s' = incarnation_conflict s.
Proof using.
  unfold wal_index. destruct (wr_entry r) as [e|], (wr_local_delivery r) as [d|]; cbn; repeat split; eauto;
    eexists; split; try reflexivity; by destruct (wr_sender_assigned r).
Qed.

Lemma index_add c r s :
  index_ok s -> submissions_by_replay_key s !! wr_replay_key r = None ->
  (forall e, wr_entry r = Some e -> inbox_seq e <= wal_issued_sequence s (en_target e)) ->
  index_ok (let s' := wal_index content_digest c r s in
          set_submissions s' (<[wr_replay_key r := r]> (submissions_by_replay_key s'))).
Proof using.
  intros Hs Hk Hiss'. set (k := wr_replay_key r) in *.
  destruct (index_fields c r s) as (Hsub & Hrep & Hent & Htgt & (a & Hsnd & _) & Hiss & _). cbv zeta in *.
  set (s' := wal_index _ _ _ _) in *. fold k in Hrep, Hent, Htgt, Hsnd. split; cbn; rewrite ?Hsub.
  - intros k' r' [[<- <-]|[_ H]]%lookup_insert_Some; [done|by apply Hs].
  - intros x k'. rewrite Hrep, elem_of_union, elem_of_singleton, (ok_replay _ Hs). setoid_rewrite lookup_insert_Some.
    destruct (decide (k = k')) as [<-|]; naive_solver.
  - intros t q k'. rewrite Htgt. setoid_rewrite lookup_insert_Some. destruct (wr_entry r) as [e|] eqn:Er.
    + rewrite keys_at_insert. case_decide as Hd; rewrite ?elem_of_union, ?elem_of_singleton, (ok_target _ Hs);
        destruct (decide (k = k')) as [<-|]; naive_solver.
    + rewrite (ok_target _ Hs). destruct (decide (k = k')) as [<-|]; naive_solver.
  - rewrite Htgt. destruct (wr_entry r); [apply dense_insert|]; apply Hs.
  - assert (forall root d row, row_at (local_delivery_by_sender_envelope s) root d = Some row ->
      exists r0, <[k := r]> (submissions_by_replay_key s) !! di_replay_key row = Some r0 /\
        wr_local_delivery r0 = Some (mkLocalDelivery root d.1 d.2) /\
        di_target_delivery_id row = d.2 /\ di_replay_expires_at row = wr_replay_expires_at r0) as Hold.
    { intros root d row H. destruct (ok_sender _ Hs _ _ _ H) as (r' & Hr' & ?). exists r'.
      by rewrite lookup_insert_ne by congruence. }
    intros root d row. rewrite Hsnd. destruct (wr_local_delivery r) as [ld|] eqn:Eld; [|apply Hold].
    rewrite row_at_insert. case_decide as Hd; [|apply Hold]. intros [= <-]. cbn. rewrite lookup_insert_eq.
    destruct Hd as [-> ->]. exists r. by destruct ld.
  - intros k' r' e' [[<- <-]|[_ H]]%lookup_insert_Some; unfold wal_issued_sequence; cbn; rewrite Hiss; [apply Hiss'|].
    by apply (ok_issued _ Hs k').
  - intros k' r' e' [[<- <-]|[_ H]]%lookup_insert_Some He'; rewrite Hent.
    + rewrite He'. exists (wal_retain_until c r). set_solver.
    + destruct (ok_queued _ Hs _ _ _ H He') as [x Hx]. exists x. destruct (wr_entry r); set_solver.
Qed.

Lemma ok_add c r s :
  wal_ok s -> (epoch <= c)%Z -> fixed r -> submissions_by_replay_key s !! wr_replay_key r = None ->
  (forall e, wr_entry r = Some e -> inbox_seq e <= wal_issued_sequence s (en_target e)) ->
  wal_ok (let s' := wal_index content_digest c r s in
          set_submissions s' (<[wr_replay_key r := r]> (submissions_by_replay_key s'))).
Proof using.
  intros Hs Hc Hfix Hk Hiss'. split; [by apply index_add; [apply Hs|..]|..];
    destruct (index_fields c r s) as (Hsub & _ & Hent & _); cbv zeta in *; cbn; rewrite Hsub; set (k := wr_replay_key r) in *.
  - intros k' r' [[<- <-]|[_ H]]%lookup_insert_Some; [done|by apply (ok_fixed _ Hs k')].
  - intros x k'. rewrite Hent. setoid_rewrite lookup_insert_Some. destruct (wr_entry r) as [e|] eqn:Er.
    + rewrite elem_of_union, elem_of_singleton, (ok_entry _ Hs), (retain_until_fixed c r) by done.
      destruct (decide (k = k')) as [<-|]; naive_solver.
    + rewrite (ok_entry _ Hs). destruct (decide (k = k')) as [<-|]; naive_solver.
Qed.

(** ** Logging *)

Variable encode_base64url : string -> string.

(** The record a payload leaves in the index. *)
Definition record_of (p : RouterWalPayload) (location : RouterWalRecordLocation) (assigned : bool)
  : RouterWalSubmissionRecord :=
  mkRecord (migrated_key encode_base64url (wp_replay_key p) (wp_entry p)) (wp_replay_expires_at p) (wp_entry p)
    (wp_accepted_at p) (wp_local_delivery p) location assigned.

(** The mark of the mailbox raised to the sequence of the payload. *)
Definition raised (p : RouterWalPayload) (s : RouterWalState) : RouterWalState :=
  match wp_entry p with
  | Some entry => set_issued s (<[en_target entry :=
      N.max (default 0 (issued_by_target s !! en_target entry)) (inbox_seq entry)]> (issued_by_target s))
  | None => s
  end.

(** The state without the record of key [k]. *)
Definition dropped (c : Z) (k : string) (s : RouterWalState) : RouterWalState :=
  match submissions_by_replay_key s !! k with
  | Some previous => wal_unindex c previous (set_submissions s (delete k (submissions_by_replay_key s)))
  | None => s
  end.

Lemma apply_eq c p location assigned s :
  apply_with_sender_assignment encode_base64url content_digest c p location assigned s =
  let r := record_of p location assigned in
  let s' := wal_index content_digest c r (dropped c (wr_replay_key r) (raised p s)) in
  set_submissions s' (<[wr_replay_key r := r]> (submissions_by_replay_key s')).
Proof using. reflexivity. Qed.

Lemma raised_issued p s t :
  wal_issued_sequence (raised p s) t =
  match wp_entry p with
  | Some e => if decide (t = en_target e) then N.max (wal_issued_sequence s t) (inbox_seq e) else wal_issued_sequence s t
  | None => wal_issued_sequence s t
  end.
Proof using.
  unfold raised, wal_issued_sequence. destruct (wp_entry p) as [e|]; [|done]. cbn.
  case_decide as H; [subst; by rewrite lookup_insert_eq|by rewrite lookup_insert_ne].
Qed.

Lemma raised_fields p s :
  submissions_by_replay_key (raised p s) = submissions_by_replay_key s /\ wal_incarnations (raised p s) = wal_incarnations s /\
  incarnation_conflict (raised p s) = incarnation_conflict s /\
  local_delivery_by_sender_envelope (raised p s) = local_delivery_by_sender_envelope s.
Proof using. unfold raised. by destruct (wp_entry p). Qed.

Lemma index_raise p s : index_ok s -> index_ok (raised p s).
Proof using.
  intros Hs. assert (forall k r e, submissions_by_replay_key s !! k = Some r -> wr_entry r = Some e ->
    inbox_seq e <= wal_issued_sequence (raised p s) (en_target e)) as Hi.
  { intros k r e Hk He. pose proof (ok_issued _ Hs k r e Hk He). rewrite raised_issued.
    destruct (wp_entry p); [case_decide|]; lia. }
  revert Hi. unfold raised. destruct (wp_entry p); [|done]. intros Hi. split; cbn; try apply Hs. exact Hi.
Qed.

Lemma ok_raise p s : wal_ok s -> wal_ok (raised p s).
Proof using. intros Hs. split; [apply index_raise, Hs|..]; unfold raised; destruct (wp_entry p); apply Hs. Qed.

Lemma dropped_fields c k s :
  submissions_by_replay_key (dropped c k s) = delete k (submissions_by_replay_key s) /\
  issued_by_target (dropped c k s) = issued_by_target s /\ wal_incarnations (dropped c k s) = wal_incarnations s /\
  incarnation_conflict (dropped c k s) = incarnation_conflict s.
Proof using.
  unfold dropped. destruct (submissions_by_replay_key s !! k) as [r|] eqn:E.
  - destruct (unindex_fields c r (set_submissions s (delete k (submissions_by_replay_key s))))
      as (H & _ & _ & _ & _ & H' & H'' & H3). by rewrite H, H', H'', H3.
  - by rewrite delete_id.
Qed.

Lemma index_dropped c k s : index_ok s -> index_ok (dropped c k s).
Proof using. intros Hs. unfold dropped. destruct (submissions_by_replay_key s !! k) eqn:E; [by apply index_drop|done]. Qed.

Lemma ok_dropped c k s : wal_ok s -> (epoch <= c)%Z -> wal_ok (dropped c k s).
Proof using. intros Hs Hc. unfold dropped. destruct (submissions_by_replay_key s !! k) eqn:E; [by apply ok_drop|done]. Qed.

Lemma apply_fields c p location assigned s :
  let s' := apply_with_sender_assignment encode_base64url content_digest c p location assigned s in
  let r := record_of p location assigned in
  submissions_by_replay_key s' = <[wr_replay_key r := r]> (submissions_by_replay_key s) /\
  issued_by_target s' = issued_by_target (raised p s) /\ wal_incarnations s' = wal_incarnations s /\
  incarnation_conflict s' = incarnation_conflict s.
Proof using.
  cbv zeta. rewrite apply_eq. cbv zeta. set (r := record_of _ _ _). cbn [submissions_by_replay_key set_submissions issued_by_target wal_incarnations incarnation_conflict].
  destruct (index_fields c r (dropped c (wr_replay_key r) (raised p s))) as (Hsub & _ & _ & _ & _ & Hi & Hn & Hc).
  destruct (dropped_fields c (wr_replay_key r) (raised p s)) as (Hsub' & Hi' & Hn' & Hc').
  destruct (raised_fields p s) as (Hs & Hn'' & Hc'' & _).
  rewrite Hsub, Hsub', Hs, Hi, Hi', Hn, Hn', Hn'', Hc, Hc', Hc''. by rewrite insert_delete_eq.
Qed.

(** The record is new where it is added, and its sequence is not above the mark. *)
Lemma apply_adds c p location assigned s :
  let r := record_of p location assigned in let s' := dropped c (wr_replay_key r) (raised p s) in
  submissions_by_replay_key s' !! wr_replay_key r = None /\
  forall e, wr_entry r = Some e -> inbox_seq e <= wal_issued_sequence s' (en_target e).
Proof using.
  intros r s'. destruct (dropped_fields c (wr_replay_key r) (raised p s)) as (Hsub & Hi & _). split.
  - unfold s'. by rewrite Hsub, lookup_delete_eq.
  - intros e He. unfold s', wal_issued_sequence. rewrite Hi. fold (wal_issued_sequence (raised p s) (en_target e)).
    rewrite raised_issued. cbn in He. rewrite He, decide_True by done. lia.
Qed.

Lemma index_apply c p location assigned s :
  index_ok s -> index_ok (apply_with_sender_assignment encode_base64url content_digest c p location assigned s).
Proof using.
  intros Hs. rewrite apply_eq. cbv zeta. destruct (apply_adds c p location assigned s) as [Hnew Hmark].
  apply index_add; [|done..]. by apply index_dropped, index_raise.
Qed.

Lemma ok_apply c p location assigned s :
  wal_ok s -> (epoch <= c)%Z -> fixed (record_of p location assigned) ->
  wal_ok (apply_with_sender_assignment encode_base64url content_digest c p location assigned s).
Proof using.
  intros Hs Hc Hf. rewrite apply_eq. cbv zeta. destruct (apply_adds c p location assigned s) as [Hnew Hmark].
  apply ok_add; [|done..]. by apply ok_dropped, Hc; apply ok_raise.
Qed.

(** ** Receipts of senders *)

Lemma dropped_rows c k s root d :
  wal_ok s ->
  row_at (local_delivery_by_sender_envelope (dropped c k s)) root d =
  row_at (local_delivery_by_sender_envelope s) root d ≫= fun row => if decide (di_replay_key row = k) then None else Some row.
Proof using.
  intros Hs. destruct (row_at (local_delivery_by_sender_envelope s) root d) as [row|] eqn:Er; cbn.
  - destruct (ok_sender _ Hs _ _ _ Er) as (r & Hr & Hld & _). unfold dropped.
    destruct (submissions_by_replay_key s !! k) as [r0|] eqn:Ek.
    + pose proof (ok_key _ Hs _ _ Ek) as Hk0.
      destruct (unindex_fields c r0 (set_submissions s (delete k (submissions_by_replay_key s)))) as (_ & _ & _ & _ & -> & _). cbn.
      case_decide as Hk.
      * rewrite Hk, Ek in Hr. injection Hr as ->. rewrite Hld. cbn. rewrite <- surjective_pairing, row_at_remove, decide_True by done.
        rewrite Er. cbn. by rewrite Hk0, decide_True.
      * destruct (wr_local_delivery r0); [|done]. rewrite row_at_remove. case_decide; [|done]. rewrite Er. cbn. by rewrite Hk0, decide_False.
    + rewrite decide_False; [done|]. intros Hk. rewrite Hk in Hr. congruence.
  - unfold dropped. destruct (submissions_by_replay_key s !! k) as [r0|] eqn:Ek; [|done].
    destruct (row_at (local_delivery_by_sender_envelope (wal_unindex _ _ _)) root d) eqn:E'; [|done].
    apply unindex_rows in E'. cbn in E'. congruence.
Qed.

(** The receipt a record leaves for its sender. *)
Definition receipt (c : Z) (incarnations : gmap string string) (r : RouterWalSubmissionRecord) (ld : RouterWalLocalDelivery)
  : RouterWalLocalDeliveryIndex :=
  mkDeliveryIndex (wr_replay_key r) (ld_target_delivery_id ld) (wr_replay_expires_at r)
    (if wr_sender_assigned r then wr_entry r ≫= fun e => incarnations !! en_target e ≫= fun id =>
      new_assignment content_digest e id (wal_retain_until c r) else None).

Lemma apply_rows c p location assigned s root d :
  let r := record_of p location assigned in
  row_at (local_delivery_by_sender_envelope (apply_with_sender_assignment encode_base64url content_digest c p location assigned s)) root d =
  match wp_local_delivery p with
  | Some ld => if decide (root = ld_sender_root_commitment ld /\ d = (ld_envelope_id ld, ld_target_delivery_id ld))
               then Some (receipt c (wal_incarnations s) r ld)
               else row_at (local_delivery_by_sender_envelope (dropped c (wr_replay_key r) (raised p s))) root d
  | None => row_at (local_delivery_by_sender_envelope (dropped c (wr_replay_key r) (raised p s))) root d
  end.
Proof using.
  intros r. rewrite apply_eq. fold r. cbv zeta. cbn [local_delivery_by_sender_envelope set_submissions].
  destruct (index_fields c r (dropped c (wr_replay_key r) (raised p s))) as (_ & _ & _ & _ & (a & -> & Ha) & _).
  change (wr_local_delivery r) with (wp_local_delivery p). destruct (wp_local_delivery p) as [ld|]; [|done]. cbv zeta.
  rewrite row_at_insert. case_decide; [|done]. do 2 f_equal. rewrite Ha.
  destruct (dropped_fields c (wr_replay_key r) (raised p s)) as (_ & _ & -> & _). by destruct (raised_fields p s) as (_ & -> & _).
Qed.
End invariant.
