(* ===== verification/WalLog.v ===== *)
(** * What the files of the write-ahead log hold

    Frames and headers read back what was written, a torn frame reads as the end
    of the file, and a segment cut at any byte recovers to the records that are
    complete. *)

From S2P Require Import Prelude OrdMap Bytes Wire Inbox Wal WalSegment.
From Stdlib Require Import Strings.Byte.

Open Scope N_scope.

(** ** Bytes *)

Lemma length_u32_le n : length (u32_le n) = 4%nat.
Proof. unfold u32_le. by rewrite length_reverse, length_be_of_N. Qed.

Lemma length_u64_le n : length (u64_le n) = 8%nat.
Proof. unfold u64_le. by rewrite length_reverse, length_be_of_N. Qed.

Lemma le_to_u32 n : n <= U32_MAX -> le_to_N (u32_le n) = n.
Proof. intros H. unfold le_to_N, u32_le. rewrite reverse_involutive. apply be_to_of. unfold U32_MAX in H. cbn. lia. Qed.

Lemma le_to_u64 n : n <= U64_MAX -> le_to_N (u64_le n) = n.
Proof. intros H. unfold le_to_N, u64_le. rewrite reverse_involutive. apply be_to_of. unfold U64_MAX in H. cbn. lia. Qed.

Lemma read_exact_app l rest n : length l = n -> read_exact n (l ++ rest) = Some (l, rest).
Proof.
  intros <-. unfold read_exact. rewrite decide_True by (rewrite length_app; lia). by rewrite take_app_length, drop_app_length.
Qed.

Lemma read_exact_short n file : (length file < n)%nat -> read_exact n file = None.
Proof. intros H. unfold read_exact. by rewrite decide_False by lia. Qed.

(** ** Headers *)

(** The two kinds of header a segment can have. *)
Definition whole_header (h : bytes) : Prop :=
  h = ROUTER_WAL_MAGIC \/
  exists id segment previous, valid_incarnation id = true /\ segment <= U64_MAX /\ previous <= U64_MAX /\
    h = wal_header_bytes id segment previous.

Lemma valid_incarnation_length id : valid_incarnation id = true -> String.length id = 32%nat.
Proof. unfold valid_incarnation. by intros [H%bool_decide_eq_true _]%andb_true_iff. Qed.

Lemma length_magic : length ROUTER_WAL_MAGIC = 22%nat /\ length CHAINED_MAGIC = 22%nat /\ CHAINED_MAGIC <> ROUTER_WAL_MAGIC.
Proof. done. Qed.

Lemma length_header_bytes id segment previous :
  valid_incarnation id = true -> length (wal_header_bytes id segment previous) = HEADER_LEN.
Proof.
  intros H%valid_incarnation_length. unfold wal_header_bytes.
  rewrite !length_app, length_str, H, !length_u64_le. reflexivity.
Qed.

(** A chained header says what was put in, whatever follows. *)
Lemma read_header_bytes id segment previous rest :
  valid_incarnation id = true -> segment <= U64_MAX -> previous <= U64_MAX ->
  wal_read_header (wal_header_bytes id segment previous ++ rest) = Ok (HEADER_LEN, Some (id, segment, previous), rest).
Proof.
  intros Hid Hs Hp. unfold wal_read_header, wal_header_bytes. rewrite <- !(assoc_L (++)). rewrite read_exact_app by done. cbn [ok_or mbind result_bind].
  rewrite decide_False by apply length_magic. rewrite decide_False by tauto.
  rewrite read_exact_app by (by rewrite length_str, valid_incarnation_length). cbn [ok_or mbind result_bind].
  rewrite read_exact_app by apply length_u64_le. cbn [ok_or mbind result_bind].
  rewrite read_exact_app by apply length_u64_le. cbn [ok_or mbind result_bind].
  rewrite string_of_str, Hid, !le_to_u64 by done. reflexivity.
Qed.

Lemma read_whole_header h rest :
  whole_header h -> exists what, wal_read_header (h ++ rest) = Ok (length h, what, rest).
Proof.
  intros [->|(id & segment & previous & Hid & Hs & Hp & ->)].
  - exists None. unfold wal_read_header. rewrite read_exact_app by done. reflexivity.
  - rewrite read_header_bytes, length_header_bytes by done. eauto.
Qed.

Lemma length_whole_header h : whole_header h -> (22 <= length h <= 70)%nat.
Proof.
  intros [->|(id & segment & previous & Hid & _ & _ & ->)]; [pose proof length_magic; lia|].
  rewrite length_header_bytes by done. lia.
Qed.

Lemma whole_header_short h : whole_header h -> (length h <= 22)%nat -> h = ROUTER_WAL_MAGIC.
Proof. intros [->|(id & segment & previous & Hid & _ & _ & ->)]; [done|]. rewrite length_header_bytes by done. lia. Qed.

(** A file with a whole header needs no repair. *)
Lemma repair_whole newest h rest : whole_header h -> repair_empty_header newest (h ++ rest) = Ok tt.
Proof.
  intros Hh. unfold repair_empty_header. case_match eqn:E; [done|]. apply ensure_Ok.
  destruct Hh as [->|(id & segment & previous & Hid & _ & _ & ->)].
  - unfold bytes_start_with. replace (take _ _) with ROUTER_WAL_MAGIC; [done|]. by rewrite take_app_length' by done.
  - rewrite length_app, length_header_bytes by done. rewrite (bool_decide_eq_false_2 (_ < _)%nat) by lia.
    by rewrite andb_false_r.
Qed.

(** ** Logged records *)

(** A payload with the incarnation it was logged under, its encoding and the place
    of its frame. *)
Record Logged := mkLogged {
  lg_payload : RouterWalPayload;
  lg_id : option string;
  lg_encoded : bytes;
  lg_location : RouterWalRecordLocation;
}.

(** The stored form of the submission is complete: one with a local delivery has
    the time it was accepted. *)
Definition complete_payload (p : RouterWalPayload) : Prop :=
  is_Some (wp_accepted_at p) \/ wp_local_delivery p = None.

(** Every logged record is at its place: segment [segment], from [offset] on. *)
Fixpoint located (segment offset : N) (l : list Logged) : Prop :=
  match l with
  | [] => True
  | lg :: l =>
      let len := N.of_nat (length (lg_encoded lg)) in
      lg_location lg = mkLocation segment offset len /\ located segment (offset + (8 + len)) l
  end.

(** What recovery does to the incarnation of the mailbox. *)
Definition incarnated (lg : Logged) (s : RouterWalState) : RouterWalState :=
  match lg_id lg, wp_entry (lg_payload lg) with
  | Some id, Some entry =>
      set_wal_incarnations s (<[en_target entry := id]> (wal_incarnations s))
        (incarnation_conflict s ||
         match wal_incarnations s !! en_target entry with Some old => bool_decide (old <> id) | None => false end)
  | _, _ => s
  end.

Section log.
Variable ext_to_vec : gmap string Value -> option bytes.
Variable ext_from_slice : bytes -> option (gmap string Value).
Variable encode_base64url : string -> string.
Variable content_digest : Envelope -> option string.
Variable crc32 : bytes -> N.
Variable to_allocvec : StoredRouterWalPayload -> option bytes.
Variable from_bytes : bytes -> option StoredRouterWalPayload.

(** JSON and postcard read back what they wrote; a CRC has 32 bits. *)
Hypothesis ext_roundtrip : forall m b, ext_to_vec m = Some b -> ext_from_slice b = Some m.
Hypothesis postcard_roundtrip : forall p b, to_allocvec p = Some b -> from_bytes b = Some p.
Hypothesis crc32_bound : forall b, crc32 b <= U32_MAX.

(** ** The stored form *)

Lemma envelope_roundtrip e stored : stored_envelope ext_to_vec e = Ok stored -> envelope_of_stored ext_from_slice stored = Ok e.
Proof using ext_roundtrip.
  unfold stored_envelope, envelope_of_stored. destruct (is_empty_map (env_ext e)) eqn:Em.
  - apply is_empty_map_spec in Em. cbn. intros <-%Ok_inj. cbn. destruct e; cbn in *. by subst.
  - destruct (ext_to_vec (env_ext e)) as [b|] eqn:Eb; [|done]. cbn. intros <-%Ok_inj. cbn.
    rewrite (ext_roundtrip _ _ Eb). by destruct e.
Qed.

Lemma entry_roundtrip e stored : stored_entry ext_to_vec e = Ok stored -> entry_of_stored ext_from_slice stored = Ok e.
Proof using ext_roundtrip.
  unfold stored_entry. destruct e as [e|]; [|by intros <-%Ok_inj].
  intros (env & Henv & <-%Ok_inj)%bind_Ok. cbn. rewrite (envelope_roundtrip _ _ Henv). by destruct e.
Qed.

Lemma payload_roundtrip p stored :
  complete_payload p -> stored_payload ext_to_vec p = Ok stored ->
  payload_of_stored ext_from_slice stored = Ok p /\ sender_assigned stored = bool_decide (is_Some (wp_local_delivery p)) /\
  (forall id inner, stored <> Incarnated id inner).
Proof using ext_roundtrip.
  intros Hc. unfold stored_payload. intros (entry & He%entry_roundtrip & <-%Ok_inj)%bind_Ok.
  destruct p as [k x e [a|] [d|]]; cbn in *; rewrite ?He; cbn; try done. by destruct Hc as [[? ?]|?].
Qed.

(** ** One frame *)

Definition frame (encoded : bytes) : bytes := u32_le (N.of_nat (length encoded)) ++ u32_le (crc32 encoded) ++ encoded.

Definition frames (l : list Logged) : bytes := mjoin (frame ∘ lg_encoded <$> l).

Lemma length_frame encoded : length (frame encoded) = (8 + length encoded)%nat.
Proof using. unfold frame. rewrite !length_app, !length_u32_le. lia. Qed.

Lemma frames_cons lg l : frames (lg :: l) = frame (lg_encoded lg) ++ frames l.
Proof using. done. Qed.

Lemma length_frames l : (length l <= length (frames l))%nat.
Proof using.
  induction l as [|lg l IH]; [done|]. rewrite frames_cons, length_app, length_frame. cbn [length]. lia.
Qed.

Lemma frames_app l l' : frames (l ++ l') = frames l ++ frames l'.
Proof using. unfold frames. by rewrite fmap_app, join_app. Qed.

Lemma write_router_wal_record_Ok encoded f :
  write_router_wal_record crc32 encoded = Ok f <-> N.of_nat (length encoded) <= U32_MAX /\ f = frame encoded.
Proof using.
  unfold write_router_wal_record. rewrite bind_Ok. setoid_rewrite ensure_Ok. setoid_rewrite bool_decide_eq_true. split.
  - by intros (_ & ? & <-%Ok_inj).
  - intros [? ->]. by exists tt.
Qed.

Lemma read_frame stored encoded rest :
  N.of_nat (length encoded) <= U32_MAX -> to_allocvec stored = Some encoded ->
  read_router_wal_record crc32 from_bytes (frame encoded ++ rest) = Ok (Some (stored, N.of_nat (length encoded), rest)).
Proof using postcard_roundtrip crc32_bound.
  intros Hlen Henc. unfold read_router_wal_record, frame.
  rewrite <- !(assoc_L (++)), (assoc_L (++) (u32_le _)).
  rewrite read_exact_app by (by rewrite length_app, !length_u32_le).
  rewrite (take_app_length' _ _ 4), (drop_app_length' _ _ 4) by (by rewrite length_u32_le). rewrite !le_to_u32 by done.
  rewrite read_exact_app by lia. rewrite decide_False by tauto. by rewrite (postcard_roundtrip _ _ Henc).
Qed.

(** A frame cut anywhere reads as the end of the file. *)
Lemma read_torn encoded n :
  N.of_nat (length encoded) <= U32_MAX -> (n < length (frame encoded))%nat ->
  read_router_wal_record crc32 from_bytes (take n (frame encoded)) = Ok None.
Proof using.
  rewrite length_frame. intros Hlen Hn. unfold read_router_wal_record, frame.
  destruct (decide (n < 8)%nat) as [H8|H8].
  { rewrite read_exact_short; [done|]. rewrite length_take. lia. }
  rewrite (assoc_L (++) (u32_le _) (u32_le _)). rewrite take_app_ge by (rewrite length_app, !length_u32_le; lia).
  rewrite read_exact_app by (by rewrite length_app, !length_u32_le).
  rewrite (take_app_length' _ _ 4) by (by rewrite length_u32_le). rewrite le_to_u32 by done.
  rewrite read_exact_short; [done|]. rewrite length_take, length_app, !length_u32_le. lia.
Qed.

(** ** Recovery of a segment *)

(** [lg] was written as [append_payload] writes it. *)
Definition encodes (lg : Logged) : Prop :=
  exists stored,
    stored_payload ext_to_vec (lg_payload lg) = Ok stored /\
    to_allocvec (match lg_id lg with Some id => Incarnated id stored | None => stored end) = Some (lg_encoded lg) /\
    N.of_nat (length (lg_encoded lg)) <= U32_MAX /\ complete_payload (lg_payload lg) /\
    (forall id, lg_id lg = Some id -> valid_incarnation id = true /\ is_Some (wp_entry (lg_payload lg))).

(** What recovery does with one record. *)
Definition replayed (c : Z) (s : RouterWalState) (lg : Logged) : RouterWalState :=
  apply_with_sender_assignment encode_base64url content_digest c (lg_payload lg) (lg_location lg)
    (bool_decide (is_Some (wp_local_delivery (lg_payload lg)))) (incarnated lg s).

(** The records whose frames end within the first [n] bytes. *)
Fixpoint whole (n : nat) (l : list Logged) : list Logged :=
  match l with
  | [] => []
  | lg :: l =>
      let len := length (frame (lg_encoded lg)) in
      if decide (len <= n)%nat then lg :: whole (n - len) l else []
  end.

Lemma whole_prefix n l : whole n l `prefix_of` l.
Proof using. revert n. induction l as [|lg l IH]; intros n; cbn; [done|]. case_decide; [by apply prefix_cons|apply prefix_nil]. Qed.

Lemma whole_all n l l' : (length (frames l) <= n)%nat -> exists rest, whole n (l ++ l') = l ++ rest.
Proof using.
  revert n. induction l as [|lg l IH]; intros n Hn; [by exists (whole n l')|]. rewrite frames_cons, length_app in Hn.
  destruct (IH (n - length (frame (lg_encoded lg)))%nat) as [rest Hrest]; [lia|].
  exists rest. cbn [app whole]. rewrite decide_True by lia. by rewrite Hrest.
Qed.

Lemma decode_logged lg s stored :
  complete_payload (lg_payload lg) -> stored_payload ext_to_vec (lg_payload lg) = Ok stored ->
  (forall id, lg_id lg = Some id -> valid_incarnation id = true /\ is_Some (wp_entry (lg_payload lg))) ->
  let outer := match lg_id lg with Some id => Incarnated id stored | None => stored end in
  sender_assigned outer = bool_decide (is_Some (wp_local_delivery (lg_payload lg))) /\
  decode_payload ext_from_slice outer s = (incarnated lg s, Ok (lg_payload lg)).
Proof using ext_roundtrip.
  intros Hc Hst Hid. destruct (payload_roundtrip _ _ Hc Hst) as (Hpay & Hass & Hnot). unfold incarnated. cbv zeta.
  destruct (lg_id lg) as [id|].
  - destruct (Hid id eq_refl) as [Hv [e He]]. split; [exact Hass|]. unfold decode_payload. rewrite Hv, He.
    destruct stored; try (by destruct (Hnot _ _ eq_refl)); cbn -[payload_of_stored]; rewrite Hpay;
      unfold mbind, stres_bind, lift, modify; cbn; by rewrite He.
  - split; [exact Hass|]. unfold decode_payload.
    destruct stored; try (by destruct (Hnot _ _ eq_refl)); unfold lift; by rewrite Hpay.
Qed.

Lemma recover_records_cut fuel c segment offset l n s :
  Forall encodes l -> located segment offset l ->
  offset + N.of_nat (length (frames l)) <= U64_MAX -> (length (take n (frames l)) < fuel)%nat ->
  recover_records ext_from_slice encode_base64url content_digest crc32 from_bytes fuel c segment offset (take n (frames l)) s =
  (foldl (replayed c) s (whole n l), Ok (offset + N.of_nat (length (frames (whole n l))))).
Proof using ext_roundtrip postcard_roundtrip crc32_bound.
  revert l n offset s. induction fuel as [|fuel IH]; intros l n offset s Henc Hloc Hmax Hfuel; [lia|].
  destruct l as [|lg l].
  { unfold frames. cbn. rewrite take_nil. cbn. by rewrite N.add_0_r. }
  apply Forall_cons in Henc as [(stored & Hst & Hall & Hlen & Hc & Hid) Henc]. cbn in Hloc. destruct Hloc as [Hloc Hrest].
  rewrite frames_cons in *.
  rewrite length_app in Hmax. cbn [whole recover_records]. case_decide as Hn.
  - rewrite take_app_ge in * by done.
    erewrite stres_bind_Ok; [|unfold lift; by rewrite (read_frame _ _ _ Hlen Hall)]. cbv beta iota zeta.
    destruct (decode_logged lg s stored Hc Hst Hid) as [Hass Hdec]. cbv zeta in Hass, Hdec.
    rewrite (stres_bind_Ok _ _ _ _ _ Hdec), Hass, <- Hloc. erewrite stres_bind_Ok by done.
    fold (replayed c s lg). rewrite length_app, length_frame in Hfuel. rewrite length_frame in *.
    unfold u64_saturating_add. rewrite N.min_l by (unfold U64_MAX in *; lia).
    rewrite IH; [|done..|lia|lia]. cbn [foldl]. do 2 f_equal.
    rewrite frames_cons, length_app, length_frame. lia.
  - rewrite take_app_le by lia. erewrite stres_bind_Ok; [|unfold lift; by rewrite read_torn by (done || lia)].
    cbn. by rewrite N.add_0_r.
Qed.

Lemma whole_frames n l : frames (whole n l) `prefix_of` take n (frames l).
Proof using.
  revert n. induction l as [|lg l IH]; intros n; cbn [whole]; [apply prefix_nil|].
  case_decide; [|apply prefix_nil]. rewrite !frames_cons, take_app_ge by done. apply prefix_app, IH.
Qed.

Lemma recover_segment_cut c segment newest h l n s :
  whole_header h -> Forall encodes l -> located segment (N.of_nat (length h)) l ->
  N.of_nat (length (h ++ frames l)) <= U64_MAX ->
  recover_router_wal_segment ext_from_slice encode_base64url content_digest crc32 from_bytes c segment newest
    (h ++ take n (frames l)) s =
  (foldl (replayed c) s (whole n l), Ok (N.of_nat (length (h ++ frames (whole n l))), h ++ frames (whole n l))).
Proof using ext_roundtrip postcard_roundtrip crc32_bound.
  intros Hh Henc Hloc Hmax. unfold recover_router_wal_segment. set (file := h ++ take n (frames l)).
  assert ((if newest && bool_decide (length file <= 22)%nat then ROUTER_WAL_MAGIC else file) = file) as ->.
  { destruct newest; [|done]. case_bool_decide as Hl; [|done]. unfold file in *. rewrite length_app in Hl.
    rewrite (whole_header_short h Hh) by lia. pose proof (length_whole_header h Hh).
    by rewrite (nil_length_inv (take n (frames l))) by lia. }
  unfold file. rewrite repair_whole by done. destruct (read_whole_header h (take n (frames l)) Hh) as [what Hread].
  rewrite Hread. erewrite stres_bind_Ok by done. erewrite stres_bind_Ok by done. cbv beta iota.
  rewrite length_app in Hmax. erewrite stres_bind_Ok; [|apply recover_records_cut; [done..|lia|lia]].
  assert (N.of_nat (length h) + N.of_nat (length (frames (whole n l))) = N.of_nat (length (h ++ frames (whole n l)))) as ->
    by (rewrite length_app; lia).
  unfold mret, stres_ret. do 3 f_equal. rewrite Nat2N.id. destruct (whole_frames n l) as [rest ->].
  by rewrite (assoc_L (++)), take_app_length.
Qed.

(** The newest file with no more than a plain header is made an empty segment. *)
Lemma recover_residue c segment file s :
  (length file <= 22)%nat ->
  recover_router_wal_segment ext_from_slice encode_base64url content_digest crc32 from_bytes c segment true file s =
  (s, Ok (22, ROUTER_WAL_MAGIC)).
Proof using.
  intros Hl. unfold recover_router_wal_segment. rewrite bool_decide_eq_true_2 by done. reflexivity.
Qed.

(** ** Directories *)

(** A segment with the records written to it, and how much of it is on disk. *)
Record SegmentLog := mkSegmentLog {
  sg_id : N;
  sg_header : bytes;
  sg_log : list Logged;
}.

Definition segment_ok (g : SegmentLog) : Prop :=
  whole_header (sg_header g) /\ Forall encodes (sg_log g) /\
  located (sg_id g) (N.of_nat (length (sg_header g))) (sg_log g) /\
  N.of_nat (length (sg_header g ++ frames (sg_log g))) <= U64_MAX.

Definition segment_bytes_of (g : SegmentLog) : bytes := sg_header g ++ frames (sg_log g).

(** The bytes of the segment with its log cut after [n] bytes, and what recovery
    makes of them. *)
Definition cut_file (x : SegmentLog * nat) : N * bytes := (sg_id x.1, sg_header x.1 ++ take x.2 (frames (sg_log x.1))).
Definition cut_segment (x : SegmentLog * nat) : SegmentLog :=
  mkSegmentLog (sg_id x.1) (sg_header x.1) (whole x.2 (sg_log x.1)).

Definition ids_increase (gs : list SegmentLog) : Prop := StronglySorted N.lt (sg_id <$> gs).

Definition segment_entry (g : SegmentLog) : N * bytes := (sg_id g, segment_bytes_of g).

Definition logs (gs : list SegmentLog) : list Logged := gs ≫= sg_log.

Lemma located_prefix segment offset l l' : l' `prefix_of` l -> located segment offset l -> located segment offset l'.
Proof using.
  intros [rest ->]. revert offset. induction l' as [|lg l' IH]; intros offset; cbn; [done|]. intros [? ?]. eauto.
Qed.

Lemma cut_segment_ok x : segment_ok x.1 -> segment_ok (cut_segment x).
Proof using.
  destruct x as [g n]. intros (Hh & Henc & Hloc & Hmax). cbn [fst] in *. pose proof (whole_prefix n (sg_log g)) as Hp.
  split; [done|]. split; [|split]; cbn [cut_segment sg_id sg_header sg_log fst snd].
  - destruct Hp as [rest Hp]. rewrite Hp in Henc. by apply Forall_app in Henc as [? _].
  - by eapply located_prefix.
  - destruct Hp as [rest Hp]. rewrite Hp, frames_app, !length_app in Hmax. rewrite length_app. lia.
Qed.

Lemma recover_segments_cut c newest xs dir shard s :
  Forall (fun x => segment_ok x.1) xs ->
  recover_segments ext_from_slice encode_base64url content_digest crc32 from_bytes c newest (cut_file <$> xs) dir shard s =
  (foldl (replayed c) s (logs (cut_segment <$> xs)),
   Ok (match last (cut_segment <$> xs) with
       | Some g => mkShard (Some (sg_id g)) (N.of_nat (length (segment_bytes_of g))) | None => shard end,
       foldl (fun d g => <[sg_id g := segment_bytes_of g]> d) dir (cut_segment <$> xs))).
Proof using ext_roundtrip postcard_roundtrip crc32_bound.
  intros Hok. revert dir shard s. induction xs as [|x xs IH]; intros dir shard s; [done|].
  apply Forall_cons in Hok as [(Hh & Henc & Hloc & Hmax) Hok]. cbn [fmap list_fmap recover_segments cut_file].
  erewrite stres_bind_Ok by (by apply recover_segment_cut). cbv beta iota. rewrite IH by done.
  cbn [foldl logs mbind list_bind]. fold (logs (cut_segment <$> xs)). rewrite foldl_app. f_equal. do 2 f_equal.
  destruct xs as [|x' xs]; [done|]. cbn [fmap list_fmap]. rewrite last_cons_cons. by destruct (last _) eqn:E; [|by apply last_None in E].
Qed.

Lemma recover_segments_app c newest l1 l2 dir shard s :
  recover_segments ext_from_slice encode_base64url content_digest crc32 from_bytes c newest (l1 ++ l2) dir shard s =
  (recover_segments ext_from_slice encode_base64url content_digest crc32 from_bytes c newest l1 dir shard ≫=
   fun '(shard, dir) => recover_segments ext_from_slice encode_base64url content_digest crc32 from_bytes c newest l2 dir shard) s.
Proof using.
  revert dir shard s. induction l1 as [|[id file] l1 IH]; intros dir shard s; [done|]. cbn [app recover_segments].
  unfold mbind, stres_bind. destruct (recover_router_wal_segment _ _ _ _ _ _ _ _ _ s) as [s1 [[offset file']|e]]; [|done].
  rewrite IH. reflexivity.
Qed.

(** The file a crash while rolling can leave beside the segments. *)
Definition residue_file (residue : option (N * bytes)) : list (N * bytes) := option_list residue.
Definition residue_segment (residue : option (N * bytes)) : list SegmentLog :=
  match residue with Some (id, _) => [mkSegmentLog id ROUTER_WAL_MAGIC []] | None => [] end.

Definition shard_of (gs : list SegmentLog) : RouterWalRecoveredShard :=
  match last gs with
  | Some g => mkShard (Some (sg_id g)) (N.of_nat (length (segment_bytes_of g)))
  | None => mkShard None 0
  end.

Lemma foldl_insert_segments (gs : list SegmentLog) (d : gmap N bytes) :
  NoDup (sg_id <$> gs) ->
  foldl (fun d g => <[sg_id g := segment_bytes_of g]> d) d gs = list_to_map (segment_entry <$> gs) ∪ d.
Proof using.
  revert d. induction gs as [|g gs IH]; intros d; cbn [fmap list_fmap foldl]; [intros _; by rewrite list_to_map_nil, (left_id_L ∅ (∪))|].
  intros [Hnot Hnd]%NoDup_cons. rewrite IH by done. unfold segment_entry at 2. rewrite list_to_map_cons, <- insert_union_l. apply map_eq. intros i.
  assert ((list_to_map (segment_entry <$> gs) : gmap N bytes) !! sg_id g = None) as Hn.
  { apply not_elem_of_list_to_map. by rewrite <- list_fmap_compose. }
  destruct (decide (i = sg_id g)) as [->|Hi].
  - by rewrite lookup_insert_eq, lookup_union_r, lookup_insert_eq.
  - rewrite lookup_insert_ne by done. rewrite !lookup_union, lookup_insert_ne by done. reflexivity.
Qed.

Lemma increasing_NoDup (l : list N) : StronglySorted N.lt l -> NoDup l.
Proof using. induction 1 as [|x l Hl IH Hx]; constructor; [|done]. rewrite Forall_forall in Hx. intros H%Hx. lia. Qed.

Lemma bt_entries_list (l : list (N * bytes)) : StronglySorted N.lt l.*1 -> bt_entries (list_to_map l : gmap N bytes) = l.
Proof using.
  intros Hl. pose proof (increasing_NoDup _ Hl) as Hnd.
  apply (StronglySorted_unique_strong entry_le).
  - intros [k v] [k' v'] H1 H2 Hle Hge. assert (k = k') as <- by (unfold entry_le, key_le, N_key in *; cbn in *; lia).
    apply elem_of_bt_entries in H1. apply elem_of_list_to_map in H2; [|done]. congruence.
  - apply bt_entries_sorted.
  - clear Hnd. induction l as [|[k v] l IH]; [constructor|]. apply StronglySorted_inv in Hl as [Hl Hx]. constructor; [by apply IH|].
    apply Forall_forall. intros [k' v'] H. rewrite Forall_forall in Hx. pose proof (Hx k' (list_elem_of_fmap_2 fst _ _ H)).
    unfold entry_le, key_le, N_key. cbn in *. lia.
  - rewrite bt_entries_perm. by apply map_to_list_to_map.
Qed.

Lemma recover_directory_cut c xs residue s :
  Forall (fun x => segment_ok x.1) xs ->
  (forall id file, residue = Some (id, file) -> (length file <= 22)%nat) ->
  ids_increase ((cut_segment <$> xs) ++ residue_segment residue) ->
  let gs := (cut_segment <$> xs) ++ residue_segment residue in
  recover_router_wal_directory ext_from_slice encode_base64url content_digest crc32 from_bytes c
    (list_to_map ((cut_file <$> xs) ++ residue_file residue)) None s =
  (foldl (replayed c) s (logs gs), Ok (shard_of gs, list_to_map (segment_entry <$> gs))).
Proof using ext_roundtrip postcard_roundtrip crc32_bound.
  intros Hok Hres Hinc gs. unfold recover_router_wal_directory.
  assert (((cut_file <$> xs) ++ residue_file residue).*1 = sg_id <$> gs) as Hids.
  { unfold gs. rewrite !fmap_app, <- !list_fmap_compose. by destruct residue as [[? ?]|]. }
  rewrite bt_entries_list by (by rewrite Hids). rewrite Hids.
  pose proof (increasing_NoDup _ Hinc) as Hnd. fold gs in Hnd.
  assert (forall d : gmap N bytes, dom d = list_to_set (sg_id <$> gs) ->
    foldl (fun d g => <[sg_id g := segment_bytes_of g]> d) d gs = list_to_map (segment_entry <$> gs)) as Hfold.
  { intros d Hd. rewrite foldl_insert_segments by done. apply map_eq. intros i. rewrite lookup_union.
    destruct (list_to_map (segment_entry <$> gs) !! i) eqn:E; [by destruct (d !! i)|]. cbn.
    apply not_elem_of_list_to_map in E. rewrite <- list_fmap_compose in E.
    rewrite (not_elem_of_dom_1 d i); [done|]. rewrite Hd, elem_of_list_to_set. exact E. }
  rewrite recover_segments_app. erewrite stres_bind_Ok by (by apply recover_segments_cut). cbv beta iota.
  specialize (Hfold (list_to_map ((cut_file <$> xs) ++ residue_file residue))).
  rewrite dom_list_to_map_L, Hids in Hfold. specialize (Hfold eq_refl). unfold gs in Hfold. rewrite foldl_app in Hfold.
  destruct residue as [[id file]|]; cbn [residue_segment] in *.
  - change (residue_file (Some (id, file))) with [(id, file)] in *. cbn [recover_segments]. erewrite stres_bind_Ok.
    2:{ rewrite bool_decide_eq_true_2; [by apply recover_residue, (Hres id file)|]. unfold gs. rewrite fmap_app. cbn [fmap list_fmap]. by rewrite last_snoc. }
    cbn [mret stres_ret]. unfold mret, stres_ret. cbn [foldl] in Hfold. unfold gs, logs. rewrite bind_app, foldl_app. cbn.
    do 2 f_equal. unfold shard_of. rewrite last_snoc. cbn. f_equal. exact Hfold.
  - change (residue_file None) with (@nil (N * bytes)) in *. unfold gs. rewrite !app_nil_r in *. cbn [recover_segments mret stres_ret]. unfold mret, stres_ret. cbn [foldl] in Hfold.
    by rewrite Hfold.
Qed.

(** Whole frames are replayed whatever follows them. *)
Lemma recover_frames fuel c segment offset l rest s :
  Forall encodes l -> located segment offset l -> offset + N.of_nat (length (frames l)) <= U64_MAX ->
  recover_records ext_from_slice encode_base64url content_digest crc32 from_bytes (length l + fuel) c segment offset (frames l ++ rest) s =
  recover_records ext_from_slice encode_base64url content_digest crc32 from_bytes fuel c segment
    (offset + N.of_nat (length (frames l))) rest (foldl (replayed c) s l).
Proof using ext_roundtrip postcard_roundtrip crc32_bound.
  revert offset s. induction l as [|lg l IH]; intros offset s Henc Hloc Hmax.
  { cbn. by rewrite N.add_0_r. }
  apply Forall_cons in Henc as [(stored & Hst & Hall & Hlen & Hc & Hid) Henc]. destruct Hloc as [Hloc Hrest].
  rewrite frames_cons, length_app, length_frame in *. rewrite <- (assoc_L (++)). cbn [length Nat.add recover_records].
  erewrite stres_bind_Ok; [|unfold lift; by rewrite (read_frame _ _ _ Hlen Hall)]. cbv beta iota zeta.
  destruct (decode_logged lg s stored Hc Hst Hid) as [Hass Hdec]. cbv zeta in Hass, Hdec.
  rewrite (stres_bind_Ok _ _ _ _ _ Hdec), Hass, <- Hloc. erewrite stres_bind_Ok by done. fold (replayed c s lg).
  unfold u64_saturating_add. rewrite N.min_l by (unfold U64_MAX in *; lia). rewrite IH; [|done..|lia]. cbn [foldl]. f_equal. lia.
Qed.
End log.
