(* ===== verification/WalWriter.v ===== *)
(** * The writer of the write-ahead log and what a crash leaves

    The invariant of the writer: every segment but the last is synced, the files
    hold the records in the order they were appended, and every record is where
    its location says. *)

From S2P Require Import Prelude OrdMap Bytes Wire Inbox Wal WalSegment WalLog.

Open Scope N_scope.

(** ** The association *)

Definition association_ok (a : Association) : Prop :=
  valid_incarnation (md_directory_id (as_metadata a)) = true /\
  (forall directory chain, md_chains (as_metadata a) !! directory = Some chain -> ch_head chain <= U64_MAX) /\
  (forall target id, as_ids a !! target = Some id -> valid_incarnation id = true).

Definition association_ok' (a : option Association) : Prop := forall a', a = Some a' -> association_ok a'.

Lemma record_head_ok directory head a : head <= U64_MAX -> association_ok a -> association_ok (record_head directory head a).
Proof.
  intros Hh (Hid & Hc & Hids). split; [done|]. split; [|done]. cbn.
  intros d chain [[_ <-]|[_ H]]%lookup_insert_Some; [done|by eapply Hc].
Qed.

Lemma wal_header_whole a directory segment :
  segment <= U64_MAX -> association_ok' a -> whole_header (wal_header a directory segment).
Proof.
  intros Hs Ha. destruct a as [a|]; [|by left]. right. destruct (Ha a eq_refl) as (Hid & Hc & _). do 3 eexists.
  split; [exact Hid|]. split; [exact Hs|]. split; [|reflexivity].
  destruct (md_chains (as_metadata a) !! directory) as [chain|] eqn:E; [|done].
  case_decide; [|by eapply Hc]. unfold u64_checked_sub. case_match; cbn; unfold U64_MAX in *; lia.
Qed.

(** ** Lists of segments *)

Lemma increase_below older g x : ids_increase (older ++ [g]) -> x ∈ older -> sg_id x < sg_id g.
Proof.
  unfold ids_increase. rewrite fmap_app. intros H Hx. induction older as [|y older IH]; [set_solver|].
  cbn in H. apply StronglySorted_inv in H as [H Hy]. apply elem_of_cons in Hx as [->|Hx]; [|by apply IH].
  rewrite Forall_forall in Hy. apply Hy. set_solver.
Qed.

Lemma increase_snoc gs g : ids_increase gs -> (forall x, x ∈ gs -> sg_id x < sg_id g) -> ids_increase (gs ++ [g]).
Proof.
  unfold ids_increase. induction gs as [|y gs IH]; intros H Hg; cbn; [repeat constructor|].
  cbn in H. apply StronglySorted_inv in H as [H Hy]. constructor; [apply IH; [done|]; set_solver|].
  rewrite fmap_app, Forall_app. split; [done|]. cbn. constructor; [|done]. apply Hg. set_solver.
Qed.

Lemma list_to_map_snoc (l : list (N * SegmentFile)) k v :
  k ∉ l.*1 -> list_to_map (l ++ [(k, v)]) = (<[k := v]> (list_to_map l) : gmap N SegmentFile).
Proof.
  intros Hk. rewrite list_to_map_app. cbn. rewrite <- insert_union_r by (by apply not_elem_of_list_to_map).
  f_equal. apply (right_id_L ∅ (∪)).
Qed.

Section writer.
Variable ext_to_vec : gmap string Value -> option bytes.
Variable crc32 : bytes -> N.
Variable to_allocvec : StoredRouterWalPayload -> option bytes.
Variable new_id : string -> option string.

Hypothesis new_id_valid : forall target id, new_id target = Some id -> valid_incarnation id = true.

Lemma association_reserve_ok target a id a' :
  association_ok a -> association_reserve new_id target a = Ok (id, a') ->
  association_ok a' /\ as_ids a' !! target = Some id /\ as_ids a ⊆ as_ids a' /\ as_metadata a' = as_metadata a.
Proof using new_id_valid.
  intros (Hid & Hc & Hids). unfold association_reserve. destruct (as_ids a !! target) as [old|] eqn:E.
  - by intros [= <- <-].
  - intros (id' & Hid' & [= -> <-]%Ok_inj)%bind_Ok. destruct (new_id target) as [n|] eqn:En; [|done]. apply Ok_inj in Hid' as ->.
    split; [|cbn; split; [apply lookup_insert_eq|split; [by apply insert_subseteq|done]]].
    split; [done|]. split; [done|]. cbn. intros t x [[<- <-]|[_ H]]%lookup_insert_Some; eauto.
Qed.

(** The incarnation a payload is logged under. *)
Definition incarnation_of (a : option Association) (p : RouterWalPayload) : option string :=
  wp_entry p ≫= fun entry => a ≫= fun a => as_ids a !! en_target entry.

Lemma encode_payload_ok a p stored a' encoded location :
  association_ok' a -> complete_payload p -> encode_payload ext_to_vec new_id a p = Ok (stored, a') ->
  to_allocvec stored = Some encoded -> N.of_nat (length encoded) <= U32_MAX ->
  association_ok' a' /\ encodes ext_to_vec to_allocvec (mkLogged p (incarnation_of a' p) encoded location).
Proof using new_id_valid.
  intros Ha Hc. unfold encode_payload. intros (st & Hst & H)%bind_Ok Henc Hlen.
  assert (forall a0 : Association, a = Some a0 -> association_ok a0) as Ha' by done.
  destruct a as [a|], (wp_entry p) as [entry|] eqn:He.
  - apply bind_Ok in H as ([id a1] & Hr & [= <- <-]%Ok_inj).
    destruct (association_reserve_ok _ _ _ _ (Ha' a eq_refl) Hr) as (Hok & Hl & _).
    split; [by intros ? [= <-]|]. exists st. cbn. unfold incarnation_of. rewrite He. cbn. rewrite Hl. split; [done|]. split; [done|].
    split; [done|]. split; [done|]. intros ? [= <-]. split; [|done]. destruct Hok as (_ & _ & Hids). by eapply Hids.
  - apply Ok_inj in H as [= <- <-]. split; [done|]. exists st. cbn. unfold incarnation_of. by rewrite He.
  - apply Ok_inj in H as [= <- <-]. split; [done|]. exists st. cbn. unfold incarnation_of. by rewrite He.
  - apply Ok_inj in H as [= <- <-]. split; [done|]. exists st. cbn. unfold incarnation_of. by rewrite He.
Qed.

(** ** The invariant *)

Definition synced_file (g : SegmentLog) : N * SegmentFile :=
  let b := segment_bytes_of crc32 g in (sg_id g, mkSegmentFile b (length b)).

(** [older] are the closed segments, [g] is the one being written, and [n] of its
    records are synced. *)
Record writer_inv (w : RouterWalWriterState) (older : list SegmentLog) (g : SegmentLog) (n : nat) : Prop := {
  wi_id : sg_id g = w_segment_id w;
  wi_synced : (n <= length (sg_log g))%nat;
  wi_offset : w_offset w = N.of_nat (length (segment_bytes_of crc32 g));
  wi_header : w_header_len w = N.of_nat (length (sg_header g));
  wi_files : w_files w = list_to_map ((synced_file <$> older) ++
    [(sg_id g, mkSegmentFile (segment_bytes_of crc32 g) (length (sg_header g ++ frames crc32 (take n (sg_log g)))))]);
  wi_ok : Forall (segment_ok ext_to_vec crc32 to_allocvec) (older ++ [g]);
  wi_increase : ids_increase (older ++ [g]);
  wi_ids : sg_id g <= U64_MAX;
  wi_association : association_ok' (w_association w);
}.

Lemma lookup_last older g f :
  ids_increase (older ++ [g]) -> (list_to_map ((synced_file <$> older) ++ [(sg_id g, f)]) : gmap N SegmentFile) !! sg_id g = Some f.
Proof using.
  intros Hinc. apply elem_of_list_to_map; [|apply elem_of_app; right; by apply list_elem_of_singleton]. apply increasing_NoDup.
  rewrite fmap_app, <- list_fmap_compose. unfold ids_increase in Hinc. by rewrite fmap_app in Hinc.
Qed.

Lemma alter_last older g f (h : SegmentFile -> SegmentFile) :
  ids_increase (older ++ [g]) ->
  alter h (sg_id g) (list_to_map ((synced_file <$> older) ++ [(sg_id g, f)])) =
  (list_to_map ((synced_file <$> older) ++ [(sg_id g, h f)]) : gmap N SegmentFile).
Proof using.
  intros Hinc. apply map_eq. intros i. destruct (decide (i = sg_id g)) as [->|Hi].
  - by rewrite lookup_alter_eq, !lookup_last.
  - rewrite lookup_alter_ne by done. rewrite !list_to_map_app, !lookup_union. cbn. by rewrite !lookup_insert_ne.
Qed.

(** Syncing the current file syncs every record. *)
Lemma sync_inv w older g n : writer_inv w older g n -> writer_inv (sync_current w) older g (length (sg_log g)).
Proof using.
  intros []. split; try done; cbn. rewrite wi_files0, <- wi_id0, alter_last by done. unfold sync_file. cbn.
  by rewrite firstn_all.
Qed.

(** The segment a roll opens. *)
Definition rolled (w : RouterWalWriterState) : SegmentLog :=
  mkSegmentLog (w_segment_id w + 1) (wal_header (w_association w) (w_root w) (w_segment_id w + 1)) [].

Lemma roll_inv now w older g :
  writer_inv w older g (length (sg_log g)) -> w_segment_id w < U64_MAX ->
  writer_inv (roll_segment now w) (older ++ [g]) (rolled w) 0.
Proof using.
  intros [] Hmax. assert (u64_saturating_add (w_segment_id w) 1 = w_segment_id w + 1) as Hid
    by (unfold u64_saturating_add; lia).
  assert (whole_header (sg_header (rolled w))) as Hwhole by (apply wal_header_whole; [lia|done]).
  assert (w_segment_id w + 1 ∉ ((synced_file <$> older) ++ [(sg_id g, mkSegmentFile (segment_bytes_of crc32 g)
    (length (sg_header g ++ frames crc32 (take (length (sg_log g)) (sg_log g)))))]).*1) as Hfresh.
  { rewrite fmap_app, <- list_fmap_compose. intros [(x & Hx' & Hx)%list_elem_of_fmap|H%list_elem_of_singleton]%elem_of_app.
    - pose proof (increase_below _ _ _ wi_increase0 Hx). cbn in *. lia.
    - cbn in H. lia. }
  assert (segment_bytes_of crc32 (rolled w) = sg_header (rolled w)) as Hb by (unfold segment_bytes_of, frames; cbn; by rewrite app_nil_r).
  unfold roll_segment. rewrite Hid. cbv zeta. split; cbn [w_segment_id w_offset w_header_len w_files w_association].
  - done.
  - cbn. lia.
  - by rewrite Hb.
  - done.
  - rewrite wi_files0, (not_elem_of_list_to_map_1 _ _ Hfresh). cbn [from_option].
    rewrite <- list_to_map_snoc by done. rewrite fmap_app. cbn [fmap list_fmap].
    rewrite firstn_all, Hb. change (frames crc32 (take 0 (sg_log (rolled w)))) with ([] : bytes). by rewrite app_nil_r.
  - apply Forall_app. split; [done|]. apply Forall_singleton. split; [done|]. split; [constructor|]. split; [done|].
    fold (segment_bytes_of crc32 (rolled w)). rewrite Hb. pose proof (length_whole_header _ Hwhole). unfold U64_MAX. lia.
  - apply increase_snoc; [done|]. intros x [Hx|Hx%list_elem_of_singleton]%elem_of_app; cbn; [|subst; lia].
    pose proof (increase_below _ _ _ wi_increase0 Hx). lia.
  - cbn. lia.
  - intros a Ha. destruct (w_association w) as [a0|]; [|done]. cbn in Ha. injection Ha as <-. apply record_head_ok; [lia|by apply wi_association0].
Qed.

Lemma located_snoc segment offset l lg :
  located segment offset l ->
  lg_location lg = mkLocation segment (offset + N.of_nat (length (frames crc32 l))) (N.of_nat (length (lg_encoded lg))) ->
  located segment offset (l ++ [lg]).
Proof using.
  revert offset. induction l as [|x l IH]; intros offset; cbn [located app].
  - intros _ ->. split; [|done]. f_equal. cbn. lia.
  - intros [Hx Hl] Hlg. split; [done|]. apply IH; [done|]. rewrite Hlg. f_equal.
    rewrite frames_cons, length_app, length_frame. lia.
Qed.

Definition add_record (g : SegmentLog) (lg : Logged) : SegmentLog := mkSegmentLog (sg_id g) (sg_header g) (sg_log g ++ [lg]).

Lemma segment_bytes_add g lg : segment_bytes_of crc32 (add_record g lg) = segment_bytes_of crc32 g ++ frame crc32 (lg_encoded lg).
Proof using.
  unfold segment_bytes_of. cbn [add_record sg_header sg_log]. rewrite frames_app, (assoc_L (++)), frames_cons.
  change (frames crc32 []) with ([] : bytes). by rewrite app_nil_r.
Qed.

Lemma write_inv w older g n encoded w' location p id :
  writer_inv w older g n -> write_record crc32 encoded w = (w', Ok location) ->
  encodes ext_to_vec to_allocvec (mkLogged p id encoded location) ->
  N.of_nat (length (segment_bytes_of crc32 g)) + (8 + N.of_nat (length encoded)) <= U64_MAX ->
  writer_inv w' older (add_record g (mkLogged p id encoded location)) n.
Proof using.
  intros [] Hw Henc Hmax. unfold write_record in Hw. apply stres_bind_inv in Hw as (w1 & f & Hf & Hw). unfold lift in Hf.
  injection Hf as <- Hf. apply write_router_wal_record_Ok in Hf as [Hlen ->]. unfold mbind, stres_bind, modify, get in Hw. cbn in Hw.
  injection Hw as <- Hloc. set (lg := mkLogged p id encoded location) in *.
  split; cbn [w_segment_id w_offset w_header_len w_files w_association set_w_offset set_w_files].
  - done.
  - cbn. rewrite length_app. cbn. lia.
  - rewrite segment_bytes_add, length_app, length_frame, wi_offset0. unfold u64_saturating_add. cbn. lia.
  - done.
  - rewrite wi_files0, <- wi_id0, alter_last by done. unfold append_file. cbn [sf_bytes sf_synced sg_id sg_log sg_header add_record].
    rewrite segment_bytes_add, take_app_le by done. reflexivity.
  - apply Forall_app in wi_ok0 as [Ho Hg]. apply Forall_app. split; [done|]. apply Forall_singleton in Hg as (Hh & Hl & Hloc' & _).
    apply Forall_singleton. split; [done|]. split; [by apply Forall_app; split; [|apply Forall_singleton]|]. split.
    + apply located_snoc; [done|]. cbn. rewrite <- Hloc, wi_id0, wi_offset0. f_equal. unfold segment_bytes_of. rewrite length_app. lia.
    + fold (segment_bytes_of crc32 (add_record g lg)). rewrite segment_bytes_add, length_app, length_frame. cbn. lia.
  - unfold ids_increase in *. by rewrite fmap_app in *.
  - done.
  - done.
Qed.

Lemma encode_payload_association a p stored a' :
  association_ok' a -> encode_payload ext_to_vec new_id a p = Ok (stored, a') ->
  association_ok' a' /\ (forall target id, (a ≫= fun a => as_ids a !! target) = Some id -> (a' ≫= fun a => as_ids a !! target) = Some id).
Proof using new_id_valid.
  intros Ha. unfold encode_payload. intros (st & Hst & H)%bind_Ok.
  destruct a as [a|], (wp_entry p) as [entry|]; try by apply Ok_inj in H as [= <- <-].
  apply bind_Ok in H as ([id a1] & Hr & [= <- <-]%Ok_inj).
  destruct (association_reserve_ok _ _ _ _ (Ha a eq_refl) Hr) as (Hok & _ & Hsub & _).
  split; [by intros ? [= <-]|]. cbn. intros target id' H. by eapply lookup_weaken.
Qed.

Lemma set_association_inv w older g n a : writer_inv w older g n -> association_ok' a -> writer_inv (set_w_association w a) older g n.
Proof using. by intros [] Ha. Qed.

(** The records that are on disk for good. *)
Definition synced_log (older : list SegmentLog) (g : SegmentLog) (n : nat) : list Logged := logs older ++ take n (sg_log g).

Definition written_log (older : list SegmentLog) (g : SegmentLog) : list Logged := logs (older ++ [g]).

Lemma written_snoc older g : written_log older g = logs older ++ sg_log g.
Proof using. unfold written_log, logs. rewrite bind_app. cbn. by rewrite app_nil_r. Qed.

Lemma synced_written older g n : synced_log older g n `prefix_of` written_log older g.
Proof using. rewrite written_snoc. apply prefix_app, prefix_take. Qed.

Lemma written_rolled older g w : written_log (older ++ [g]) (rolled w) = written_log older g.
Proof using. rewrite written_snoc. cbn. by rewrite app_nil_r. Qed.

(** The incarnation reserved for a mailbox. *)
Definition reserved (w : RouterWalWriterState) (target : string) : option string :=
  w_association w ≫= fun a => as_ids a !! target.

(** The choice to roll, with the segment that is current afterwards. *)
Definition maybe_roll (now : Z) (frame_len : N) (w : RouterWalWriterState) : RouterWalWriterState :=
  if bool_decide (w_header_len w < w_offset w) &&
     (bool_decide (w_segment_bytes w < u64_saturating_add (w_offset w) frame_len) ||
      bool_decide (3600 <= now - w_segment_born w)%Z)
  then roll_segment now (sync_current w) else w.

Lemma frame_fits offset header segment_bytes frame_len :
  header <= 70 -> segment_bytes < U64_MAX -> frame_len <= 8 + U32_MAX ->
  offset <= header \/ u64_saturating_add offset frame_len <= segment_bytes -> offset + frame_len <= U64_MAX.
Proof using. unfold u64_saturating_add, U64_MAX, U32_MAX. lia. Qed.

Lemma maybe_roll_inv now w older g n frame_len :
  writer_inv w older g n -> w_segment_bytes w < U64_MAX -> w_segment_id w < U64_MAX ->
  let w' := maybe_roll now frame_len w in
  exists older' g' n', writer_inv w' older' g' n' /\ written_log older' g' = written_log older g /\
    synced_log older g n `prefix_of` synced_log older' g' n' /\
    w_segment_bytes w' = w_segment_bytes w /\ w_root w' = w_root w /\ (forall target, reserved w' target = reserved w target) /\
    (frame_len <= 8 + U32_MAX -> N.of_nat (length (segment_bytes_of crc32 g')) + frame_len <= U64_MAX).
Proof using.
  intros Hinv Hseg Hid. unfold maybe_roll. case_match eqn:Hroll.
  - pose proof (roll_inv now _ _ _ (sync_inv _ _ _ _ Hinv) Hid) as Hinv'. exists (older ++ [g]), (rolled (sync_current w)), 0%nat.
    split; [exact Hinv'|]. split; [apply written_rolled|]. split; [|split; [done|split; [done|split]]].
    + unfold synced_log. cbn. rewrite app_nil_r. apply synced_written.
    + intros target. unfold reserved. cbn. by destruct (w_association w).
    + intros Hf. pose proof (wi_ok _ _ _ _ Hinv') as [_ Hok]%Forall_app. apply Forall_singleton in Hok as (Hh & _).
      pose proof (length_whole_header _ Hh). unfold segment_bytes_of.
      change (frames crc32 (sg_log (rolled (sync_current w)))) with ([] : bytes). rewrite app_nil_r. unfold U64_MAX, U32_MAX in *. lia.
  - exists older, g, n. do 6 (split; [done|]). intros Hf.
    pose proof (wi_ok _ _ _ _ Hinv) as [_ Hok]%Forall_app. apply Forall_singleton in Hok as (Hh & _).
    pose proof (length_whole_header _ Hh). rewrite (wi_offset _ _ _ _ Hinv), (wi_header _ _ _ _ Hinv) in Hroll.
    apply (frame_fits _ (N.of_nat (length (sg_header g))) (w_segment_bytes w)); [lia|done|done|].
    apply andb_false_iff in Hroll as [Hr%bool_decide_eq_false|[Hr%bool_decide_eq_false _]%orb_false_iff]; [left|right]; by apply N.nlt_ge.
Qed.

Lemma write_record_inv encoded w w' r :
  write_record crc32 encoded w = (w', r) ->
  match r with
  | Ok _ => N.of_nat (length encoded) <= U32_MAX /\ w_segment_bytes w' = w_segment_bytes w /\ w_association w' = w_association w
  | Err _ => w' = w
  end.
Proof using.
  unfold write_record, mbind, stres_bind, lift. destruct (write_router_wal_record crc32 encoded) as [f|e] eqn:Hf.
  - apply write_router_wal_record_Ok in Hf as [Hlen ->]. cbn. by intros [= <- <-].
  - by intros [= <- <-].
Qed.

Lemma written_add older g lg : written_log older (add_record g lg) = written_log older g ++ [lg].
Proof using. rewrite !written_snoc. cbn. by rewrite (assoc_L (++)). Qed.

(** The steps of [append_payload] before the frame is written. *)
Lemma append_payload_eq now p w w' r :
  append_payload ext_to_vec crc32 to_allocvec new_id now p w = (w', r) ->
  (w' = w /\ exists e, r = Err e) \/
  exists stored a, encode_payload ext_to_vec new_id (w_association w) p = Ok (stored, a) /\
    ((w' = set_w_association w a /\ exists e, r = Err e) \/
     exists encoded, to_allocvec stored = Some encoded /\
       write_record crc32 encoded (maybe_roll now (8 + N.of_nat (length encoded)) (set_w_association w a)) = (w', r)).
Proof using.
  unfold append_payload, mbind, stres_bind, get, lift. destruct (w_poisoned w); [intros [= <- <-]; eauto|]. cbn [negb ensure].
  destruct (encode_payload ext_to_vec new_id (w_association w) p) as [[stored a]|e] eqn:Henc; [|intros [= <- <-]; eauto].
  unfold modify at 1. cbv beta iota. intros Hrun. right. exists stored, a. split; [done|].
  destruct (to_allocvec stored) as [encoded|]; cbn [ok_or] in Hrun; [|injection Hrun as <- <-; eauto].
  destruct (u64_checked_add 8 (N.of_nat (length encoded))) as [frame_len|] eqn:Hfl; cbn [ok_or] in Hrun;
    [|injection Hrun as <- <-; eauto].
  assert (frame_len = 8 + N.of_nat (length encoded)) as -> by (unfold u64_checked_add in Hfl; by repeat case_match; simplify_eq).
  right. exists encoded. split; [done|]. rewrite <- Hrun. unfold maybe_roll, modify, mret, stres_ret. cbn.
  by destruct (bool_decide (w_header_len w < w_offset w) && _).
Qed.

(** Appending one payload: its record is written last and keeps what was synced;
    a refused one leaves no record. *)
Lemma append_inv now p w older g n w' r :
  writer_inv w older g n -> complete_payload p -> w_segment_bytes w < U64_MAX -> w_segment_id w < U64_MAX ->
  append_payload ext_to_vec crc32 to_allocvec new_id now p w = (w', r) ->
  exists older' g' n', writer_inv w' older' g' n' /\ w_segment_bytes w' = w_segment_bytes w /\
    synced_log older g n `prefix_of` synced_log older' g' n' /\
    (forall target id, reserved w target = Some id -> reserved w' target = Some id) /\
    match r with
    | Ok location => exists encoded,
        written_log older' g' = written_log older g ++ [mkLogged p (incarnation_of (w_association w') p) encoded location]
    | Err _ => written_log older' g' = written_log older g
    end.
Proof using new_id_valid.
  intros Hinv Hc Hseg Hid [(-> & e & ->)|(stored & a & Henc & Hrun)]%append_payload_eq; [by exists older, g, n|].
  destruct (encode_payload_association _ _ _ _ (wi_association _ _ _ _ Hinv) Henc) as [Ha Hgrow].
  pose proof (set_association_inv _ _ _ _ _ Hinv Ha) as Hinv1.
  destruct Hrun as [(-> & e & ->)|(encoded & Hall & Hw)]; [exists older, g, n; by do 3 (split; [done|])|].
  destruct (maybe_roll_inv now _ _ _ _ (8 + N.of_nat (length encoded)) Hinv1 Hseg Hid)
    as (older' & g' & n' & Hinv' & Hlog & Hsync & Hsb & _ & Hres & Hmax). set (w1 := maybe_roll _ _ _) in *.
  pose proof (write_record_inv _ _ _ _ Hw) as Hwr. destruct r as [location|e].
  - destruct Hwr as (Hlen & Hsb' & Has). set (lg := mkLogged p (incarnation_of (w_association w1) p) encoded location).
    assert (incarnation_of (w_association w1) p = incarnation_of a p) as Hinc.
    { unfold incarnation_of. destruct (wp_entry p) as [e|]; [|done]. apply Hres. }
    exists older', (add_record g' lg), n'. split; [|split; [by rewrite Hsb', Hsb|split; [|split]]].
    + eapply write_inv; [done..| |lia]. unfold lg. rewrite Hinc.
      exact (proj2 (encode_payload_ok _ _ _ _ _ location (wi_association _ _ _ _ Hinv) Hc Henc Hall Hlen)).
    + etrans; [exact Hsync|]. unfold synced_log. cbn [add_record sg_log]. by rewrite take_app_le by apply Hinv'.
    + intros target id H. unfold reserved at 1. rewrite Has. fold (reserved w1 target). rewrite Hres. by apply Hgrow.
    + exists encoded. rewrite Has, written_add, Hlog. done.
  - subst w'. exists older', g', n'. split; [done|]. split; [by rewrite Hsb|]. split; [done|]. split; [|done].
    intros target id H. rewrite Hres. by apply Hgrow.
Qed.
End writer.
