(* ===== verification/WalCrash.v ===== *)
(** * Crashes of the router's write-ahead log

    Runs of the writer, what a crash can leave of its files, and what recovery
    makes of them. *)

From S2P Require Import Prelude OrdMap Bytes Wire Inbox Wal WalSegment WalLog WalWriter.

Open Scope N_scope.

(** What recovery reads of a record. *)
Definition Note : Type := RouterWalPayload * option string * RouterWalRecordLocation.

Definition note (lg : Logged) : Note := (lg_payload lg, lg_id lg, lg_location lg).

(** What recovery does with it. *)
Definition replay_note (encode_base64url : string -> string) (content_digest : Envelope -> option string) (c : Z)
    (s : RouterWalState) (x : Note) : RouterWalState :=
  let '(p, id, location) := x in replayed encode_base64url content_digest c s (mkLogged p id [] location).

Lemma replay_notes encode_base64url content_digest c s l :
  foldl (replayed encode_base64url content_digest c) s l = foldl (replay_note encode_base64url content_digest c) s (note <$> l).
Proof. revert s. induction l as [|lg l IH]; intros s; [done|]. exact (IH _). Qed.

(** After a crash a file is a prefix that holds at least what was synced. *)
Definition torn (f : SegmentFile) (b : bytes) : Prop := exists n, (sf_synced f <= n)%nat /\ b = take n (sf_bytes f).

(** A crash in a roll can also leave a new file that has not got past the length of
    a plain header. This is what recovery alone reads; a longer residue of a chained
    header is repaired before it (WalRepair). *)
Definition crashed (w : RouterWalWriterState) (dir : gmap N bytes) : Prop :=
  exists images, map_Forall2 (fun _ => torn) (w_files w) images /\
    (dir = images \/
     exists file, (length file <= 22)%nat /\ w_segment_id w < U64_MAX /\ dir = <[w_segment_id w + 1 := file]> images).

Lemma prefix_fmap {A B} (f : A -> B) l k : l `prefix_of` k -> f <$> l `prefix_of` f <$> k.
Proof. intros [r ->]. rewrite fmap_app. apply prefix_app_r. done. Qed.

Section crash.
Variable ext_to_vec : gmap string Value -> option bytes.
Variable ext_from_slice : bytes -> option (gmap string Value).
Variable encode_base64url : string -> string.
Variable content_digest : Envelope -> option string.
Variable crc32 : bytes -> N.
Variable to_allocvec : StoredRouterWalPayload -> option bytes.
Variable from_bytes : bytes -> option StoredRouterWalPayload.
Variable new_id : string -> option string.

Hypothesis ext_roundtrip : forall m b, ext_to_vec m = Some b -> ext_from_slice b = Some m.
Hypothesis postcard_roundtrip : forall p b, to_allocvec p = Some b -> from_bytes b = Some p.
Hypothesis crc32_bound : forall b, crc32 b <= U32_MAX.
Hypothesis new_id_valid : forall target id, new_id target = Some id -> valid_incarnation id = true.

Notation segment_ok := (segment_ok ext_to_vec crc32 to_allocvec).
Notation writer_inv := (writer_inv ext_to_vec crc32 to_allocvec).
Notation recover := (recover_router_wal_directory ext_from_slice encode_base64url content_digest crc32 from_bytes).

(** ** Directories at rest *)

(** Whole segments, as recovery leaves them. *)
Definition log_ok (gs : list SegmentLog) : Prop :=
  Forall segment_ok gs /\ ids_increase gs /\ Forall (fun g => sg_id g <= U64_MAX) gs.

(** [open_associated] of the directory, on the segment recovery ended with. *)
Definition opens (gs : list SegmentLog) (w : RouterWalWriterState) : Prop :=
  exists root segment_bytes born a,
    association_ok' a /\ segment_bytes < U64_MAX /\
    writer_open root (default 0 (last_segment_id (shard_of crc32 gs))) segment_bytes (current_offset (shard_of crc32 gs))
      born a (list_to_map (synced_file crc32 <$> gs)) = Ok w.

(** ** Runs of the writer *)

(** [acked] is what was synced, [written] what was appended; both include what was
    in the directory at the start. *)
Inductive writes (gs : list SegmentLog) : RouterWalWriterState -> list Note -> list Note -> Prop :=
| writes_open w : log_ok gs -> opens gs w -> writes gs w (note <$> logs gs) (note <$> logs gs)
| writes_append w acked written now p w' location :
    writes gs w acked written -> complete_payload p -> w_segment_id w < U64_MAX ->
    append_payload ext_to_vec crc32 to_allocvec new_id now p w = (w', Ok location) ->
    writes gs w' acked (written ++ [(p, incarnation_of (w_association w') p, location)])
| writes_refused w acked written now p w' e :
    writes gs w acked written -> complete_payload p -> w_segment_id w < U64_MAX ->
    append_payload ext_to_vec crc32 to_allocvec new_id now p w = (w', Err e) ->
    writes gs w' acked written
| writes_sync w acked written :
    writes gs w acked written -> writes gs (sync_current w) written written
| writes_reserve w acked written target a id a' :
    writes gs w acked written -> w_association w = Some a -> association_reserve new_id target a = Ok (id, a') ->
    writes gs (set_w_association w (Some a')) acked written.

Lemma reopen_inv older g w :
  log_ok (older ++ [g]) -> opens (older ++ [g]) w ->
  writer_inv w older g (length (sg_log g)) /\ w_segment_bytes w < U64_MAX.
Proof using.
  intros (Hok & Hinc & Hids) (root & sb & born & a & Ha & Hsb & Hopen). unfold shard_of in Hopen. rewrite last_snoc in Hopen. cbn in Hopen.
  assert ((list_to_map (synced_file crc32 <$> older ++ [g]) : gmap N SegmentFile) =
    list_to_map ((synced_file crc32 <$> older) ++ [(sg_id g, mkSegmentFile (segment_bytes_of crc32 g) (length (segment_bytes_of crc32 g)))])) as Hfiles
    by by rewrite fmap_app.
  rewrite Hfiles in Hopen. unfold writer_open in Hopen. rewrite lookup_last in Hopen by done. cbn [from_option] in Hopen.
  pose proof Hok as [_ (Hh & _)%Forall_singleton]%Forall_app. pose proof (length_whole_header _ Hh) as Hlen.
  assert ((22 <= length (segment_bytes_of crc32 g))%nat) by (unfold segment_bytes_of; rewrite length_app; lia).
  rewrite decide_False in Hopen by (cbn; lia). unfold id in Hopen. cbn [sf_bytes] in Hopen.
  destruct (read_whole_header _ (frames crc32 (sg_log g)) Hh) as [what Hread].
  change (sg_header g ++ frames crc32 (sg_log g)) with (segment_bytes_of crc32 g) in Hread. rewrite Hread in Hopen.
  cbn in Hopen. apply Ok_inj in Hopen as <-. split; [|done].
  apply Forall_app in Hids as [_ Hid]. rewrite Forall_singleton in Hid.
  split; try done; cbn.
  - rewrite firstn_all. fold (segment_bytes_of crc32 g). rewrite insert_id by (by apply lookup_last). done.
  - intros a' Ha'. destruct a as [a|]; [|done]. injection Ha' as <-. apply record_head_ok; [done|by apply Ha].
Qed.

Lemma open_inv w : opens [] w -> exists g, writer_inv w [] g 0 /\ w_segment_bytes w < U64_MAX /\ sg_log g = [].
Proof using.
  intros (root & sb & born & a & Ha & Hsb & Hopen). change (list_to_map (synced_file crc32 <$> [])) with (∅ : gmap N SegmentFile) in Hopen.
  unfold writer_open in Hopen. rewrite lookup_empty in Hopen. cbn [from_option shard_of last last_segment_id current_offset] in Hopen.
  rewrite decide_True in Hopen by done. cbn [sync_file append_file sf_bytes app] in Hopen.
  assert (whole_header (wal_header a root 0)) as Hh by (by apply wal_header_whole).
  destruct (read_whole_header _ [] Hh) as [what Hread]. rewrite app_nil_r in Hread. rewrite Hread in Hopen. cbn in Hopen.
  apply Ok_inj in Hopen as <-. pose proof (length_whole_header _ Hh).
  exists (mkSegmentLog 0 (wal_header a root 0) []). split; [|done].
  split; try done; cbn -[U64_MAX].
  - by rewrite app_nil_r.
  - unfold sync_file, append_file. cbn. by rewrite app_nil_r.
  - apply Forall_singleton. split; [done|]. split; [constructor|]. split; [done|]. cbn [sg_header sg_log].
    change (frames crc32 []) with ([] : bytes). rewrite app_nil_r. unfold U64_MAX. lia.
  - by repeat constructor.
  - intros a' Ha'. destruct a as [a|]; [|done]. injection Ha' as <-. apply record_head_ok; [done|by apply Ha].
Qed.

Lemma writes_inv gs w acked written :
  writes gs w acked written ->
  exists older g n, writer_inv w older g n /\ w_segment_bytes w < U64_MAX /\
    note <$> written_log older g = written /\ acked `prefix_of` (note <$> synced_log older g n).
Proof using new_id_valid.
  induction 1 as [w Hok Hopen|w acked written now p w' location _ (older & g & n & Hinv & Hsb & Hw & Ha) Hc Hid Hrun
    |w acked written now p w' e _ (older & g & n & Hinv & Hsb & Hw & Ha) Hc Hid Hrun
    |w acked written _ (older & g & n & Hinv & Hsb & Hw & Ha)
    |w acked written target a id a' _ (older & g & n & Hinv & Hsb & Hw & Ha) Has Hr].
  - destruct (decide (gs = [])) as [->|Hne].
    + destruct (open_inv w Hopen) as (g & Hinv & Hsb & Hlog). exists [], g, 0%nat. split; [done|]. split; [done|].
      rewrite written_snoc, Hlog. split; [done|apply prefix_nil].
    + destruct (exists_last Hne) as (older & g & ->). destruct (reopen_inv _ _ _ Hok Hopen) as [Hinv Hsb].
      exists older, g, (length (sg_log g)). split; [done|]. split; [done|]. split; [done|].
      unfold synced_log. rewrite firstn_all, <- written_snoc. done.
  - destruct (append_inv _ _ _ _ new_id_valid _ _ _ _ _ _ _ _ Hinv Hc Hsb Hid Hrun) as (older' & g' & n' & Hinv' & Hsb' & Hsync & _ & enc & Hlog).
    exists older', g', n'. split; [done|]. split; [by rewrite Hsb'|]. rewrite Hlog, fmap_app, Hw. split; [done|].
    etrans; [exact Ha|]. by apply prefix_fmap.
  - destruct (append_inv _ _ _ _ new_id_valid _ _ _ _ _ _ _ _ Hinv Hc Hsb Hid Hrun) as (older' & g' & n' & Hinv' & Hsb' & Hsync & _ & Hlog).
    exists older', g', n'. split; [done|]. split; [by rewrite Hsb'|]. rewrite Hlog. split; [done|].
    etrans; [exact Ha|]. by apply prefix_fmap.
  - exists older, g, (length (sg_log g)). split; [by eapply sync_inv|]. split; [done|]. split; [done|].
    unfold synced_log. rewrite firstn_all, <- written_snoc, Hw. done.
  - exists older, g, n. split; [|done]. apply set_association_inv; [done|]. intros ? [= <-].
    eapply association_reserve_ok; [done| |done]. by apply (wi_association _ _ _ _ _ _ _ Hinv).
Qed.

(** ** What a crash leaves *)

Lemma torn_synced b x : torn (mkSegmentFile b (length b)) x -> x = b.
Proof using. intros (n & Hn & ->). cbn in *. by rewrite firstn_all2. Qed.

Lemma torn_current g n x :
  torn (mkSegmentFile (segment_bytes_of crc32 g) (length (sg_header g ++ frames crc32 (take n (sg_log g))))) x ->
  exists m, x = sg_header g ++ take m (frames crc32 (sg_log g)) /\ (length (frames crc32 (take n (sg_log g))) <= m)%nat.
Proof using.
  intros (k & Hk & ->). cbn [sf_synced sf_bytes] in *. rewrite length_app in Hk.
  exists (k - length (sg_header g))%nat. split; [|lia]. unfold segment_bytes_of. by rewrite take_app_ge by lia.
Qed.

(** Each closed segment whole, the current one cut after [m] bytes of records. *)
Definition cuts (older : list SegmentLog) (g : SegmentLog) (m : nat) : list (SegmentLog * nat) :=
  ((fun x => (x, length (frames crc32 (sg_log x)))) <$> older) ++ [(g, m)].

Lemma crash_images older g n images :
  ids_increase (older ++ [g]) ->
  map_Forall2 (fun _ => torn) (list_to_map ((synced_file crc32 <$> older) ++
    [(sg_id g, mkSegmentFile (segment_bytes_of crc32 g) (length (sg_header g ++ frames crc32 (take n (sg_log g)))))]) : gmap N SegmentFile) images ->
  exists m, images = list_to_map (cut_file crc32 <$> cuts older g m) /\ (length (frames crc32 (take n (sg_log g))) <= m)%nat.
Proof using.
  intros Hinc HF. set (cur := mkSegmentFile _ _) in *. set (files := (synced_file crc32 <$> older) ++ [(sg_id g, cur)]) in *.
  pose proof (HF (sg_id g)) as Hg. unfold files in Hg. rewrite lookup_last in Hg by done.
  inversion Hg as [x b Htorn Hx Hb|]; subst. destruct (torn_current _ _ _ Htorn) as (m & -> & Hm). exists m. split; [|done].
  assert (NoDup files.*1) as Hnd.
  { apply increasing_NoDup. unfold files, ids_increase in *. rewrite fmap_app, <- list_fmap_compose. by rewrite fmap_app in Hinc. }
  assert ((cut_file crc32 <$> cuts older g m).*1 = files.*1) as Hk.
  { unfold cuts, files. rewrite !fmap_app, <- !list_fmap_compose. done. }
  apply map_eq. intros i. destruct ((list_to_map files : gmap N SegmentFile) !! i) as [f|] eqn:Ef.
  - pose proof (HF i) as Hi. rewrite Ef in Hi. inversion Hi as [f' b Ht Hf' Hib|]; subst f'. symmetry. apply elem_of_list_to_map; [by rewrite Hk|].
    apply elem_of_list_to_map in Ef; [|done]. unfold files in Ef. apply elem_of_app in Ef as [Ef|Ef].
    + apply list_elem_of_fmap in Ef as (x & [= -> ->] & Hx). apply torn_synced in Ht as ->. unfold cuts. rewrite fmap_app.
      apply elem_of_app. left. rewrite <- list_fmap_compose. apply list_elem_of_fmap. exists x. split; [|done].
      unfold cut_file, segment_bytes_of. cbn. by rewrite firstn_all.
    + apply list_elem_of_singleton in Ef as [= -> ->]. assert (b = sg_header g ++ take m (frames crc32 (sg_log g))) as ->
        by (rewrite <- Hb in Hib; by injection Hib).
      unfold cuts. rewrite fmap_app. apply elem_of_app. right. by apply list_elem_of_singleton.
  - pose proof (HF i) as Hi. rewrite Ef in Hi. inversion Hi as [|Hn Hib]. symmetry. apply not_elem_of_list_to_map_1. rewrite Hk.
    by apply not_elem_of_list_to_map_2.
Qed.

Lemma cuts_segments older g m : (cuts older g m).*1 = older ++ [g].
Proof using. unfold cuts. rewrite fmap_app, <- list_fmap_compose. cbn. f_equal. induction older; cbn; f_equal; done. Qed.

Lemma whole_full l : whole crc32 (length (frames crc32 l)) l = l.
Proof using.
  destruct (whole_all crc32 (length (frames crc32 l)) l []) as [rest Hr]; [done|]. rewrite app_nil_r in Hr.
  destruct (whole_prefix crc32 (length (frames crc32 l)) l) as [rest' Hr'].
  apply (f_equal length) in Hr'. pose proof (f_equal length Hr) as Hl. rewrite length_app in Hr', Hl.
  rewrite Hr, (nil_length_inv rest) by lia. by rewrite app_nil_r.
Qed.

(** A segment that is not cut. *)
Definition uncut (x : SegmentLog) : SegmentLog * nat := (x, length (frames crc32 (sg_log x))).

Lemma uncut_segments (gs : list SegmentLog) : cut_segment crc32 <$> (uncut <$> gs) = gs /\ cut_file crc32 <$> (uncut <$> gs) = segment_entry crc32 <$> gs.
Proof using.
  rewrite <- !list_fmap_compose. split.
  - rewrite <- (list_fmap_id gs) at 2. apply list_fmap_ext. intros i x _. cbn. unfold cut_segment. cbn. rewrite whole_full. by destruct x.
  - apply list_fmap_ext. intros i x _. unfold cut_file, segment_entry, segment_bytes_of. cbn. by rewrite firstn_all.
Qed.

Lemma cuts_logs older g m : logs (cut_segment crc32 <$> cuts older g m) = logs older ++ whole crc32 m (sg_log g).
Proof using.
  unfold cuts, logs. fold uncut. rewrite fmap_app, bind_app. rewrite (proj1 (uncut_segments older)). cbn. by rewrite app_nil_r.
Qed.

Lemma cut_ids older g m : sg_id <$> (cut_segment crc32 <$> cuts older g m) = sg_id <$> older ++ [g].
Proof using. rewrite <- (cuts_segments older g m), <- !list_fmap_compose. done. Qed.

(** Every file of the writer has an id below the next one. *)
Lemma next_id_fresh w older g n i : writer_inv w older g n -> i ∈ sg_id <$> older ++ [g] -> i < w_segment_id w + 1.
Proof using.
  intros Hinv. rewrite <- (wi_id _ _ _ _ _ _ _ Hinv), fmap_app.
  intros [(x & -> & Hx)%list_elem_of_fmap|Hi%list_elem_of_singleton]%elem_of_app; [|lia].
  pose proof (increase_below _ _ _ (wi_increase _ _ _ _ _ _ _ Hinv) Hx). lia.
Qed.

Lemma image_directory (torn_new : bytes -> Prop) w older g n images dir :
  writer_inv w older g n -> map_Forall2 (fun _ => torn) (w_files w) images ->
  (dir = images \/ exists file, torn_new file /\ w_segment_id w < U64_MAX /\ dir = <[w_segment_id w + 1 := file]> images) ->
  exists m residue, dir = list_to_map ((cut_file crc32 <$> cuts older g m) ++ residue_file residue) /\
    (length (frames crc32 (take n (sg_log g))) <= m)%nat /\
    (forall id file, residue = Some (id, file) -> id = w_segment_id w + 1 /\ id <= U64_MAX /\ torn_new file).
Proof using.
  intros Hinv HF Hdir. rewrite (wi_files _ _ _ _ _ _ _ Hinv) in HF.
  destruct (crash_images _ _ _ _ (wi_increase _ _ _ _ _ _ _ Hinv) HF) as (m & -> & Hm). exists m.
  destruct Hdir as [->|(file & Hl & Hid & ->)].
  - exists None. split; [|done]. change (residue_file None) with (@nil (N * bytes)). by rewrite app_nil_r.
  - exists (Some (w_segment_id w + 1, file)). split; [|split; [done|intros id f [= <- <-]; split_and!; [done|lia|done]]].
    rewrite list_to_map_app. change (residue_file _) with [(w_segment_id w + 1, file)]. cbn [list_to_map foldr].
    rewrite <- insert_union_r; [f_equal; by rewrite (right_id_L ∅ (∪))|].
    apply not_elem_of_list_to_map. rewrite <- list_fmap_compose.
    change (fst ∘ cut_file crc32) with (sg_id ∘ cut_segment crc32). rewrite list_fmap_compose, cut_ids.
    intros H%(next_id_fresh _ _ _ _ _ Hinv). cbn in H. lia.
Qed.

(** What is cut holds the synced records, in order. *)
Lemma cut_records acked written older g n m :
  (length (frames crc32 (take n (sg_log g))) <= m)%nat -> acked `prefix_of` (note <$> synced_log older g n) ->
  written = note <$> written_log older g ->
  let recovered := note <$> logs older ++ whole crc32 m (sg_log g) in
  acked `prefix_of` recovered /\ recovered `prefix_of` written.
Proof using.
  intros Hm Ha ->. split.
  - etrans; [exact Ha|]. apply prefix_fmap. unfold synced_log. apply prefix_app.
    destruct (whole_all crc32 m (take n (sg_log g)) (drop n (sg_log g)) Hm) as [rest Hrest]. rewrite take_drop in Hrest.
    rewrite Hrest. by apply prefix_app_r.
  - rewrite written_snoc. apply prefix_fmap, prefix_app, whole_prefix.
Qed.

Lemma crash_log_ok w older g n m residue :
  writer_inv w older g n ->
  (forall id file, residue = Some (id, file) -> id = w_segment_id w + 1 /\ id <= U64_MAX /\ (length file <= 22)%nat) ->
  log_ok ((cut_segment crc32 <$> cuts older g m) ++ residue_segment residue).
Proof using.
  intros Hinv Hres. set (cut := cut_segment crc32 <$> cuts older g m).
  assert (log_ok cut) as (Hok & Hinc & Hids).
  { split; [|split].
    - unfold cut. apply Forall_fmap. eapply Forall_impl; [|intros x; apply cut_segment_ok].
      change (Forall (segment_ok ∘ fst) (cuts older g m)). rewrite <- Forall_fmap, cuts_segments. apply Hinv.
    - unfold ids_increase, cut. rewrite cut_ids. apply Hinv.
    - change (Forall ((fun i => i <= U64_MAX) ∘ sg_id) cut). rewrite <- Forall_fmap. unfold cut. rewrite cut_ids.
      apply Forall_forall. intros i Hi%(next_id_fresh _ _ _ _ _ Hinv). pose proof (wi_id _ _ _ _ _ _ _ Hinv).
      pose proof (wi_ids _ _ _ _ _ _ _ Hinv). lia. }
  destruct residue as [[id file]|]; cbn [residue_segment]; [|by rewrite app_nil_r].
  destruct (Hres id file eq_refl) as (Hid & Hmax & _). split; [|split].
  - apply Forall_app. split; [done|]. apply Forall_singleton. split; [by left|]. by repeat split.
  - apply increase_snoc; [done|]. intros x Hx%(list_elem_of_fmap_2 sg_id). unfold cut in Hx. rewrite cut_ids in Hx.
    apply (next_id_fresh _ _ _ _ _ Hinv) in Hx. cbn. lia.
  - apply Forall_app. split; [done|]. by apply Forall_singleton.
Qed.

(** Recovery of what a crash left, from any state. *)
Lemma crash_recovers gs w acked written dir c :
  writes gs w acked written -> crashed w dir ->
  exists gs', log_ok gs' /\ acked `prefix_of` (note <$> logs gs') /\ (note <$> logs gs') `prefix_of` written /\
    forall s, recover c dir None s =
      (foldl (replayed encode_base64url content_digest c) s (logs gs'),
       Ok (shard_of crc32 gs', list_to_map (segment_entry crc32 <$> gs'))).
Proof using ext_roundtrip postcard_roundtrip crc32_bound new_id_valid.
  intros (older & g & n & Hinv & Hsb & Hw & Ha)%writes_inv (images & HF & Hcrash).
  destruct (image_directory _ _ _ _ _ _ _ Hinv HF Hcrash) as (m & residue & -> & Hm & Hres).
  pose proof (crash_log_ok _ _ _ _ m _ Hinv Hres) as Hlog. set (gs' := (cut_segment crc32 <$> _) ++ _) in Hlog.
  assert (logs gs' = logs older ++ whole crc32 m (sg_log g)) as Hlogs.
  { unfold gs', logs. rewrite bind_app. fold (logs (cut_segment crc32 <$> cuts older g m)). rewrite cuts_logs.
    destruct residue as [[? ?]|]; cbn; by rewrite app_nil_r. }
  exists gs'. split; [done|]. rewrite Hlogs. destruct (cut_records acked written older g n m Hm Ha (eq_sym Hw)) as [Hpre Hpost].
  split; [done|]. split; [done|].
  intros s. rewrite <- Hlogs. eapply recover_directory_cut; try done.
  - change (Forall (segment_ok ∘ fst) (cuts older g m)). rewrite <- Forall_fmap, cuts_segments. apply Hinv.
  - intros id file H. by apply (Hres id file).
  - apply Hlog.
Qed.

(** Recovery changes nothing in a directory at rest. *)
Lemma recover_at_rest gs c s :
  log_ok gs ->
  recover c (list_to_map (segment_entry crc32 <$> gs)) None s =
    (foldl (replayed encode_base64url content_digest c) s (logs gs),
     Ok (shard_of crc32 gs, list_to_map (segment_entry crc32 <$> gs))).
Proof using ext_roundtrip postcard_roundtrip crc32_bound.
  intros (Hok & Hinc & _). destruct (uncut_segments gs) as [Hseg Hfile].
  pose proof (recover_directory_cut ext_to_vec ext_from_slice encode_base64url content_digest crc32 to_allocvec from_bytes
    ext_roundtrip postcard_roundtrip crc32_bound c (uncut <$> gs) None s) as H. cbv zeta in H.
  change (residue_file None) with (@nil (N * bytes)) in H. cbn [residue_segment] in H. rewrite !app_nil_r, Hseg, Hfile in H.
  apply H; [|done..]. apply Forall_fmap. exact Hok.
Qed.
End crash.
