(* ===== verification/WalRepair.v ===== *)
(** * Starting after a crash

    The start of a store whose log is associated with its database first repairs
    the header of an empty newest segment, which a crash may have left incomplete,
    and then recovers the directory. This file shows what the two together make of
    any directory whose segments are whole or cut, and of the residue of a new
    segment. *)

From S2P Require Import Prelude OrdMap Bytes Wire Inbox Wal WalSegment WalLog WalWriter WalCrash.
From Stdlib Require Import Strings.Byte.

Open Scope N_scope.

(** ** What a crash leaves *)

(** Of a segment that is being created: less than a plain header, or, where headers
    are chained, any prefix of the header or zeros in its place. *)
Definition torn_header (w : RouterWalWriterState) (file : bytes) : Prop :=
  (length file <= 22)%nat \/
  exists a, w_association w = Some a /\
    (file `prefix_of` wal_header (Some a) (w_root w) (w_segment_id w + 1) \/
     (length file <= HEADER_LEN)%nat /\ Forall (eq Byte.x00) file).

(** Of every file a prefix that holds at least what was synced, and possibly a
    segment that is being created. *)
Definition crash_image (w : RouterWalWriterState) (dir : gmap N bytes) : Prop :=
  exists images, map_Forall2 (fun _ => torn) (w_files w) images /\
    (dir = images \/
     exists file, torn_header w file /\ w_segment_id w < U64_MAX /\ dir = <[w_segment_id w + 1 := file]> images).

(** The association that is committed when the crash happens: the new head may be
    recorded already. *)
Definition committed (w : RouterWalWriterState) (a : option Association) : Prop :=
  a = w_association w \/ a = record_head (w_root w) (w_segment_id w + 1) <$> w_association w.

(** The association records the directory, as the start does: from its first
    segment on, and with all the segments that have the plain header. *)
Definition recorded (w : RouterWalWriterState) : Prop :=
  forall a, w_association w = Some a -> exists chain,
    md_chains (as_metadata a) !! w_root w = Some chain /\
    map_Forall (fun i _ => ch_anchor chain <= i) (w_files w) /\
    Forall (fun i => i <= w_segment_id w) (ch_legacy chain) /\
    map_Forall (fun i f => bytes_start_with ROUTER_WAL_MAGIC (sf_bytes f) = true -> i ∈ ch_legacy chain) (w_files w).

Lemma filter_total {A} (P : A -> Prop) `{!forall x, Decision (P x)} (l : list A) : Forall P l -> filter P l = l.
Proof. induction 1 as [|x l Hx _ IH]; [done|]. by rewrite filter_cons_True, IH. Qed.

(** ** Headers *)

Lemma starts_with_app p rest : bytes_start_with p (p ++ rest) = true.
Proof. unfold bytes_start_with. by rewrite take_app_length, bool_decide_eq_true_2. Qed.

Lemma chained_starts id segment previous rest :
  bytes_start_with CHAINED_MAGIC (wal_header_bytes id segment previous ++ rest) = true /\
  bytes_start_with ROUTER_WAL_MAGIC (wal_header_bytes id segment previous ++ rest) = false.
Proof.
  unfold wal_header_bytes. rewrite <- !(assoc_L (++)). split; [apply starts_with_app|].
  unfold bytes_start_with. change (length ROUTER_WAL_MAGIC) with (length CHAINED_MAGIC). rewrite take_app_length. done.
Qed.

Lemma plain_starts rest :
  bytes_start_with ROUTER_WAL_MAGIC (ROUTER_WAL_MAGIC ++ rest) = true /\
  bytes_start_with CHAINED_MAGIC (ROUTER_WAL_MAGIC ++ rest) = false.
Proof.
  split; [apply starts_with_app|]. unfold bytes_start_with.
  change (length CHAINED_MAGIC) with (length ROUTER_WAL_MAGIC). rewrite take_app_length. done.
Qed.

(** ** Inspection *)

Section inspect.
Variable md : Metadata.
Variable chain : Chain.
Hypothesis directory_valid : valid_incarnation (md_directory_id md) = true.

(** The newest file after its repair. *)
Definition repaired (previous : option N) (id : N) (file : bytes) : bytes :=
  if empty_residue true (expected_len (Some md) (Some chain) id file) file &&
     bool_decide (expected_len (Some md) (Some chain) id file = HEADER_LEN)
  then wal_header_bytes (md_directory_id md) id (default U64_MAX previous) else file.

Definition readable (file : bytes) : Prop := exists h rest, whole_header h /\ file = h ++ rest.

Lemma inspect_step newest previous id file segments dir mismatch :
  ch_anchor chain <= id ->
  let file' := if bool_decide (newest = Some id) then repaired previous id file else file in
  readable file' ->
  exists differs, inspect_segments (Some md) (Some chain) newest previous ((id, file) :: segments) dir mismatch =
    inspect_segments (Some md) (Some chain) newest (Some id) segments (<[id := file']> dir) (mismatch || differs).
Proof using.
  intros Hid file' (h & rest & Hh & Hf). cbn [inspect_segments]. rewrite bool_decide_eq_false_2 by lia.
  assert ((if empty_residue (bool_decide (newest = Some id)) (expected_len (Some md) (Some chain) id file) file &&
      bool_decide (expected_len (Some md) (Some chain) id file = HEADER_LEN)
    then wal_header_bytes (md_directory_id md) id (default U64_MAX previous) else file) = file') as ->.
  { unfold file', repaired. case_bool_decide; [done|]. done. }
  destruct (bytes_start_with CHAINED_MAGIC file'); [|by eexists].
  destruct (read_whole_header h rest Hh) as [what Hread]. rewrite Hf, Hread. by eexists.
Qed.

(** Segments before the newest stay as they are. *)
Lemma inspect_older newest previous es tail dir mismatch :
  Forall (fun e : N * bytes => ch_anchor chain <= e.1 /\ newest <> Some e.1 /\ readable e.2 /\ dir !! e.1 = Some e.2) es ->
  exists differs, inspect_segments (Some md) (Some chain) newest previous (es ++ tail) dir mismatch =
    inspect_segments (Some md) (Some chain) newest (default previous (Some <$> last es.*1)) tail dir differs.
Proof using.
  intros Hes. revert previous mismatch. induction Hes as [|[id file] es (Hid & Hne & Hread & Hdir) _ IH]; intros previous mismatch; [by eexists|].
  destruct (inspect_step newest previous id file (es ++ tail) dir mismatch Hid) as [d1 H1].
  { by rewrite bool_decide_eq_false_2. }
  rewrite bool_decide_eq_false_2 in H1 by done. cbn [snd fst] in *. rewrite insert_id in H1 by done.
  destruct (IH (Some id) (mismatch || d1)) as [d2 H2]. exists d2. cbn [app]. rewrite H1, H2. f_equal.
  rewrite fmap_cons, last_cons. cbn [fst]. by destruct (last es.*1).
Qed.
(** The whole directory: only the newest file changes. *)
Lemma inspect_last es id file :
  StronglySorted N.lt (es ++ [(id, file)]).*1 -> Forall (fun e : N * bytes => ch_anchor chain <= e.1) (es ++ [(id, file)]) ->
  Forall (fun e : N * bytes => readable e.2) es -> readable (repaired (last es.*1) id file) ->
  exists differs, inspect_segments (Some md) (Some chain) (Some id) None (es ++ [(id, file)])
      (list_to_map (es ++ [(id, file)])) false =
    Ok (differs, list_to_map (es ++ [(id, repaired (last es.*1) id file)])).
Proof using.
  intros Hsorted Hanchor Hread Hlast. pose proof (increasing_NoDup _ Hsorted) as Hnd.
  apply Forall_app in Hanchor as [Hes Hid]. rewrite Forall_singleton in Hid. cbn [fst] in Hid.
  assert (id ∉ es.*1) as Hfresh.
  { rewrite fmap_app in Hnd. apply NoDup_app in Hnd as (_ & H & _). intros Hin. apply (H id Hin). by left. }
  destruct (inspect_older (Some id) None es [(id, file)] (list_to_map (es ++ [(id, file)])) false) as [d1 ->].
  { rewrite Forall_forall in *. intros [i f] Hi. specialize (Hes _ Hi). specialize (Hread _ Hi). split_and!; [done| |done|].
    - intros [= ->]. apply Hfresh, (list_elem_of_fmap_2 fst _ _ Hi).
    - apply elem_of_list_to_map; [done|]. apply elem_of_app. by left. }
  replace (default None (Some <$> last es.*1)) with (last es.*1) by (by destruct (last es.*1)).
  destruct (inspect_step (Some id) (last es.*1) id file [] (list_to_map (es ++ [(id, file)])) d1 Hid) as [d2 ->].
  { by rewrite bool_decide_eq_true_2. }
  rewrite bool_decide_eq_true_2 by done. exists (d1 || d2). cbn [inspect_segments]. do 2 f_equal.
  rewrite !list_to_map_app. cbn [list_to_map foldr].
  apply map_eq. intros i. destruct (decide (i = id)) as [->|Hne].
  - rewrite lookup_insert_eq, lookup_union, (not_elem_of_list_to_map_1 es) by done. cbn. by rewrite lookup_insert_eq.
  - rewrite lookup_insert_ne, !lookup_union by done. cbn. by rewrite !lookup_insert_ne.
Qed.

(** The residue of a new segment becomes its header. *)
Lemma repaired_residue previous id file :
  id ∉ ch_legacy chain -> (length file <= HEADER_LEN)%nat ->
  (length file <= 22)%nat \/ bytes_start_with CHAINED_MAGIC file = true \/ Forall (eq Byte.x00) file ->
  repaired previous id file = wal_header_bytes (md_directory_id md) id (default U64_MAX previous).
Proof using.
  intros Hid Hlen Hres. unfold repaired, expected_len, recorded_legacy. rewrite (bool_decide_eq_false_2 (id ∈ _)) by done.
  cbn [orb negb]. rewrite (bool_decide_eq_true_2 (is_Some (Some md))) by eauto. cbn [negb andb].
  rewrite bool_decide_eq_true_2, andb_true_r by done. unfold empty_residue. rewrite (bool_decide_eq_true_2 (_ <= 70)%nat) by done.
  cbn [andb]. destruct Hres as [H|[H|H]].
  - by rewrite bool_decide_eq_true_2.
  - by rewrite H, orb_true_r.
  - assert (forallb (fun byte => bool_decide (byte = Byte.x00)) file = true) as ->; [|by rewrite !orb_true_r].
    apply forallb_forall. intros b Hb%list_elem_of_In. rewrite Forall_forall in H. apply bool_decide_eq_true. symmetry. by apply H.
Qed.
End inspect.

(** ** Preparing a directory *)

Section prepare.
Variable ext_to_vec : gmap string Value -> option bytes.
Variable ext_from_slice : bytes -> option (gmap string Value).
Variable encode_base64url : string -> string.
Variable content_digest : Envelope -> option string.
Variable crc32 : bytes -> N.
Variable to_allocvec : StoredRouterWalPayload -> option bytes.
Variable from_bytes : bytes -> option StoredRouterWalPayload.

Hypothesis ext_roundtrip : forall m b, ext_to_vec m = Some b -> ext_from_slice b = Some m.
Hypothesis postcard_roundtrip : forall p b, to_allocvec p = Some b -> from_bytes b = Some p.
Hypothesis crc32_bound : forall b, crc32 b <= U32_MAX.

Notation segment_ok := (segment_ok ext_to_vec crc32 to_allocvec).
Notation recover := (recover_router_wal_directory ext_from_slice encode_base64url content_digest crc32 from_bytes).
Notation prepare := (prepare_directory ext_from_slice encode_base64url content_digest crc32 from_bytes).
Notation cut_file := (cut_file crc32).
Notation cut_segment := (cut_segment crc32).

Variable md : Metadata.
Variable key : string.
Variable chain : Chain.
Hypothesis directory_valid : valid_incarnation (md_directory_id md) = true.
Hypothesis chain_of_key : md_chains md !! key = Some chain.

(** A segment the association knows. *)
Definition known (g : SegmentLog) : Prop :=
  segment_ok g /\ ch_anchor chain <= sg_id g <= U64_MAX /\ (sg_header g = ROUTER_WAL_MAGIC -> sg_id g ∈ ch_legacy chain).

Lemma cut_readable x : known x.1 -> readable (cut_file x).2.
Proof using. intros ((Hh & _) & _). exists (sg_header x.1). by eexists. Qed.

(** A segment with the repaired header and no records. *)
Definition fresh_segment (previous : option N) (id : N) : SegmentLog :=
  mkSegmentLog id (wal_header_bytes (md_directory_id md) id (default U64_MAX previous)) [].

Lemma fresh_known previous id :
  ch_anchor chain <= id <= U64_MAX -> (forall p, previous = Some p -> p <= U64_MAX) -> known (fresh_segment previous id).
Proof using directory_valid.
  intros Hid Hp. assert (default U64_MAX previous <= U64_MAX) by (destruct previous; [by apply Hp|done]).
  split; [|split; [done|]].
  - split; [right; exists (md_directory_id md), id, (default U64_MAX previous); split_and!; [done|lia|done|done]|].
    split; [constructor|]. split; [done|].
    change (frames crc32 []) with ([] : bytes). cbn [sg_header sg_log fresh_segment]. rewrite app_nil_r, length_header_bytes by done.
    unfold U64_MAX. lia.
  - cbn [sg_header fresh_segment]. intros Heq%(f_equal (bytes_start_with ROUTER_WAL_MAGIC)).
    pose proof (proj2 (chained_starts (md_directory_id md) id (default U64_MAX previous) [])) as Hc.
    rewrite app_nil_r in Hc. rewrite Hc in Heq. by vm_compute in Heq.
Qed.

Lemma whole_nil n l : take n (frames crc32 l) = [] -> whole crc32 n l = [].
Proof using.
  intros Hn. pose proof (whole_frames crc32 n l) as Hp. rewrite Hn in Hp. apply prefix_nil_inv in Hp.
  pose proof (length_frames crc32 (whole crc32 n l)) as Hl. rewrite Hp in Hl. apply nil_length_inv. simpl in Hl. lia.
Qed.

(** The newest segment after the repair: the same records, and a header of the same
    length. *)
Lemma repair_newest previous x :
  known x.1 -> (forall p, previous = Some p -> p <= U64_MAX) ->
  exists y, repaired md chain previous (sg_id x.1) (cut_file x).2 = (cut_file y).2 /\ known y.1 /\
    sg_id y.1 = sg_id x.1 /\ length (sg_header y.1) = length (sg_header x.1) /\
    sg_log (cut_segment y) = sg_log (cut_segment x).
Proof using directory_valid.
  destruct x as [g m]. cbn [fst snd cut_file]. intros Hk Hp. unfold repaired.
  destruct (_ && _) eqn:E; [|by exists (g, m)]. apply andb_true_iff in E as [Hres Hexp%bool_decide_eq_true].
  rewrite Hexp in Hres. unfold empty_residue in Hres. apply andb_true_iff in Hres as [[_ Hlen%bool_decide_eq_true]%andb_true_iff _].
  destruct Hk as ((Hh & Henc & Hloc & Hmax) & Hid & Hleg).
  assert (sg_header g <> ROUTER_WAL_MAGIC) as Hplain.
  { intros Hpl. specialize (Hleg Hpl). unfold expected_len, recorded_legacy in Hexp. by rewrite bool_decide_eq_true_2 in Hexp. }
  assert (length (sg_header g) = HEADER_LEN) as Hhl.
  { destruct Hh as [?|(? & ? & ? & Hv & _ & _ & ->)]; [done|by apply length_header_bytes]. }
  rewrite length_app, Hhl in Hlen. assert (take m (frames crc32 (sg_log g)) = []) as Hnil by (apply nil_length_inv; lia).
  exists (fresh_segment previous (sg_id g), 0%nat). cbn [fst snd]. split; [|split; [by apply fresh_known|split; [done|split]]].
  - unfold cut_file. cbn [fst snd fresh_segment sg_header sg_log]. by rewrite firstn_nil, app_nil_r.
  - cbn [fresh_segment sg_header]. by rewrite length_header_bytes.
  - cbn [sg_log WalLog.cut_segment fst snd fresh_segment]. by rewrite (whole_nil m).
Qed.

(** Recovery from the anchor recovers everything. *)
Lemma recover_anchor c (xs : list (SegmentLog * nat)) s :
  ids_increase xs.*1 -> Forall (known ∘ fst) xs ->
  recover c (list_to_map (cut_file <$> xs)) (Some (ch_anchor chain)) s = recover c (list_to_map (cut_file <$> xs)) None s.
Proof using.
  intros Hinc Hk. unfold recover_router_wal_directory, bt_range_ge.
  assert (Forall (fun e : N * bytes => key_le (ch_anchor chain) e.1) (bt_entries (list_to_map (cut_file <$> xs) : gmap N bytes))) as Hall.
  { apply Forall_forall. intros [i f] Hin%elem_of_bt_entries%elem_of_list_to_map_2.
    apply list_elem_of_fmap in Hin as (x & [= -> _] & Hx). rewrite Forall_forall in Hk. destruct (Hk x Hx) as (_ & [Ha _] & _).
    unfold key_le, N_key. cbn. exact Ha. }
  rewrite (filter_total _ _ Hall). done.
Qed.

Notation replayed := (replayed encode_base64url content_digest).

Lemma known_cut x : known x.1 -> known (cut_segment x).
Proof using. intros (Hok & Hid & Hleg). split; [by apply cut_segment_ok|done]. Qed.

(** A directory whose newest file is repaired to that of [y]. *)
Lemma prepare_ending c older id file y s :
  Forall (known ∘ fst) (older ++ [y]) -> ids_increase (older ++ [y]).*1 -> sg_id y.1 = id ->
  repaired md chain (last (sg_id <$> older.*1)) id file = (cut_file y).2 ->
  let gs := cut_segment <$> older ++ [y] in
  exists differs, prepare c (Some md) key (list_to_map ((cut_file <$> older) ++ [(id, file)])) s =
    (foldl (replayed c) s (logs gs), Ok (differs, shard_of crc32 gs, list_to_map (segment_entry crc32 <$> gs))).
Proof using directory_valid chain_of_key ext_roundtrip postcard_roundtrip crc32_bound.
  intros Hk Hinc Hid Hrep gs. set (es := cut_file <$> older) in *.
  assert (es.*1 = sg_id <$> older.*1) as Hes by (unfold es; rewrite <- !list_fmap_compose; done).
  assert (StronglySorted N.lt (es ++ [(id, file)]).*1) as Hsorted.
  { unfold ids_increase in Hinc. rewrite !fmap_app in *. rewrite Hes. cbn [fmap list_fmap fst] in *. by rewrite <- Hid. }
  pose proof Hk as [Hk1 Hk2]%Forall_app. rewrite Forall_singleton in Hk2. cbn in Hk2.
  destruct (inspect_last md chain es id file Hsorted) as [differs Hinspect].
  - apply Forall_app. split; [|apply Forall_singleton; cbn; rewrite <- Hid; apply Hk2].
    unfold es. apply Forall_fmap. eapply Forall_impl; [exact Hk1|]. intros x (_ & [Ha _] & _). exact Ha.
  - unfold es. apply Forall_fmap. eapply Forall_impl; [exact Hk1|]. intros x Hx. by apply cut_readable.
  - rewrite Hes, Hrep. by apply cut_readable.
  - exists differs. unfold prepare_directory. cbn [mbind option_bind]. rewrite chain_of_key.
    unfold bt_keys. rewrite bt_entries_list by done. rewrite fmap_app. cbn [fmap list_fmap]. rewrite last_snoc. cbn [fst].
    rewrite Hinspect, Hes, Hrep. cbn [mbind result_bind].
    replace (es ++ [(id, (cut_file y).2)]) with (cut_file <$> older ++ [y])
      by (unfold es; rewrite fmap_app, <- Hid; done).
    erewrite stres_bind_Ok by reflexivity. cbv beta iota. cbn [fmap option_fmap option_map].
    rewrite (stres_bind_Ok _ _ s (foldl (replayed c) s (logs gs)) (shard_of crc32 gs, list_to_map (segment_entry crc32 <$> gs)));
      [reflexivity|]. rewrite recover_anchor by done.
    pose proof (recover_directory_cut ext_to_vec ext_from_slice encode_base64url content_digest crc32 to_allocvec from_bytes
      ext_roundtrip postcard_roundtrip crc32_bound c (older ++ [y]) None s) as H. cbv zeta in H.
    change (residue_file None) with (@nil (N * bytes)) in H. cbn [residue_segment] in H. rewrite !app_nil_r in H. apply H.
    + eapply Forall_impl; [exact Hk|]. by intros x (Hx & _).
    + done.
    + unfold ids_increase in *. rewrite <- list_fmap_compose in *. exact Hinc.
Qed.

(** What preparing leaves of known segments [gs]: the same records and position, in
    a directory of known segments. *)
Definition prepares c (dir : gmap N bytes) s (records : list Logged) (gs : list SegmentLog) : Prop :=
  logs gs = records /\ Forall known gs /\ ids_increase gs /\ gs <> [] /\
  exists differs, prepare c (Some md) key dir s =
    (foldl (replayed c) s records, Ok (differs, shard_of crc32 gs, list_to_map (segment_entry crc32 <$> gs))).

Lemma last_bounded (older : list (SegmentLog * nat)) p :
  Forall (known ∘ fst) older -> last (sg_id <$> older.*1) = Some p -> p <= U64_MAX.
Proof using.
  intros Hk Hp. rewrite <- list_fmap_compose in Hp. rewrite fmap_last in Hp. apply fmap_Some_1 in Hp as (x & Hx & ->).
  apply last_Some_elem_of in Hx. rewrite Forall_forall in Hk. apply (Hk x Hx).
Qed.

Lemma prepares_ending c older id file y s :
  Forall (known ∘ fst) (older ++ [y]) -> ids_increase (older ++ [y]).*1 -> sg_id y.1 = id ->
  repaired md chain (last (sg_id <$> older.*1)) id file = (cut_file y).2 ->
  prepares c (list_to_map ((cut_file <$> older) ++ [(id, file)])) s
    (logs (cut_segment <$> older) ++ sg_log (cut_segment y)) (cut_segment <$> older ++ [y]).
Proof using directory_valid chain_of_key ext_roundtrip postcard_roundtrip crc32_bound.
  intros Hk Hinc Hid Hrep. assert (logs (cut_segment <$> older ++ [y]) = logs (cut_segment <$> older) ++ sg_log (cut_segment y)) as Hlogs.
  { unfold logs. rewrite fmap_app, bind_app. cbn. by rewrite app_nil_r. }
  split; [done|]. split; [|split; [|split]].
  - apply Forall_fmap. eapply Forall_impl; [exact Hk|]. intros x Hx. by apply known_cut.
  - unfold ids_increase in *. rewrite <- list_fmap_compose in *. exact Hinc.
  - rewrite fmap_app. by destruct (cut_segment <$> older).
  - rewrite <- Hlogs. by apply prepare_ending.
Qed.

Lemma prepares_cut c older x s :
  Forall (known ∘ fst) (older ++ [x]) -> ids_increase (older ++ [x]).*1 ->
  exists gs, prepares c (list_to_map (cut_file <$> older ++ [x])) s
    (logs (cut_segment <$> older) ++ sg_log (cut_segment x)) gs /\ shard_of crc32 gs = shard_of crc32 (cut_segment <$> older ++ [x]).
Proof using directory_valid chain_of_key ext_roundtrip postcard_roundtrip crc32_bound.
  intros Hk Hinc. pose proof Hk as [Hk1 Hk2]%Forall_app. rewrite Forall_singleton in Hk2. cbn in Hk2.
  destruct (repair_newest (last (sg_id <$> older.*1)) x Hk2) as (y & Hrep & Hy & Hid & Hhl & Hlog).
  { intros p. by apply last_bounded. }
  exists (cut_segment <$> older ++ [y]). split.
  - rewrite <- Hlog, fmap_app. apply prepares_ending; [by apply Forall_app; split; [|apply Forall_singleton]| |done|done].
    unfold ids_increase in *. rewrite !fmap_app in *. cbn [fmap list_fmap] in *. by rewrite Hid.
  - unfold shard_of. rewrite !fmap_app. cbn [fmap list_fmap]. rewrite !last_snoc. cbn [sg_id]. f_equal; [by f_equal|].
    unfold segment_bytes_of. rewrite Hlog, !length_app. cbn [sg_header cut_segment]. by rewrite Hhl.
Qed.

(** Preparing a prepared directory gives the same records and position again. *)
Lemma prepares_again c gs s :
  Forall known gs -> ids_increase gs -> gs <> [] ->
  exists gs', prepares c (list_to_map (segment_entry crc32 <$> gs)) s (logs gs) gs' /\ shard_of crc32 gs' = shard_of crc32 gs.
Proof using directory_valid chain_of_key ext_roundtrip postcard_roundtrip crc32_bound.
  intros Hk Hinc (older & g & ->)%exists_last. destruct (uncut_segments crc32 (older ++ [g])) as [Hseg Hfile].
  rewrite fmap_app in Hseg, Hfile. cbn [fmap list_fmap] in Hseg, Hfile.
  assert (((uncut crc32 <$> older) ++ [uncut crc32 g]).*1 = older ++ [g]) as Hids.
  { rewrite fmap_app, <- list_fmap_compose. f_equal. rewrite <- (list_fmap_id older) at 2. by apply list_fmap_ext. }
  destruct (prepares_cut c (uncut crc32 <$> older) (uncut crc32 g) s) as (gs' & Hp & Hs).
  - apply (proj1 (Forall_fmap _ _ _)). by rewrite Hids.
  - by rewrite Hids.
  - exists gs'. rewrite Hseg in Hs. rewrite Hfile in Hp. split; [|done].
    apply (f_equal logs) in Hseg. unfold logs at 1 in Hseg. rewrite fmap_app, bind_app in Hseg. cbn in Hseg.
    rewrite app_nil_r in Hseg. by rewrite <- Hseg.
Qed.
End prepare.

(** ** After a crash *)

Section restart.
Variable ext_to_vec : gmap string Value -> option bytes.
Variable ext_from_slice : bytes -> option (gmap string Value).
Variable encode_base64url : string -> string.
Variable content_digest : Envelope -> option string.
Variable crc32 : bytes -> N.
Variable to_allocvec : StoredRouterWalPayload -> option bytes.
Variable from_bytes : bytes -> option StoredRouterWalPayload.
Variable new_id : string -> option string.

Hypothesis ext_roundtrip : forall m b, ext_to_vec m = Some b -> ext_from_slice b = Some m.
Hypothesis postcard_roundtrip : forall p b, to_allocvec p = Some b -> from_bytes b = Some p.
Hypothesis crc32_bound : forall b, crc32 b <= U32_MAX.
Hypothesis new_id_valid : forall target id, new_id target = Some id -> valid_incarnation id = true.

Notation recover := (recover_router_wal_directory ext_from_slice encode_base64url content_digest crc32 from_bytes).
Notation prepare := (prepare_directory ext_from_slice encode_base64url content_digest crc32 from_bytes).
Notation writer_inv := (writer_inv ext_to_vec crc32 to_allocvec).
Notation replayed := (replayed encode_base64url content_digest).

(** A start on the directory, with or without an association. *)
Definition restart (clock : Z) (association : option Association) (root : string) (dir : gmap N bytes)
  : stres RouterWalState NodeCoreError (bool * RouterWalRecoveredShard * gmap N bytes) :=
  match association with
  | None => recover clock dir None ≫= fun '(shard, dir) => mret (false, shard, dir)
  | Some a => prepare clock (Some (as_metadata a)) root dir
  end.

(** ** Appending keeps the record of the directory *)

Lemma recorded_association w a :
  as_metadata <$> a = as_metadata <$> w_association w -> recorded w -> recorded (set_w_association w a).
Proof using.
  intros Hmd Hrec a0 Ha0. cbn in *. rewrite Ha0 in Hmd. symmetry in Hmd. apply fmap_Some_1 in Hmd as (a1 & Ha1 & ->). by apply Hrec.
Qed.

Lemma recorded_sync w : recorded w -> recorded (sync_current w).
Proof using.
  intros Hrec a Ha. destruct (Hrec a Ha) as (chain & Hc & Hanchor & Hleg & Hplain). exists chain. split; [done|]. cbn.
  split; [|split; [done|]]; intros i f [(<- & f0 & Hf & ->)|[Hne Hf]]%lookup_alter_Some; by eauto.
Qed.

Lemma recorded_roll now w :
  w_segment_id w < U64_MAX -> map_Forall (fun i _ => i <= w_segment_id w) (w_files w) -> is_Some (w_files w !! w_segment_id w) ->
  recorded w -> recorded (roll_segment now w).
Proof using.
  intros Hmax Hids [f0 Hf0] Hrec a Ha. unfold roll_segment in *. cbn [w_association w_root w_files w_segment_id] in *.
  assert (u64_saturating_add (w_segment_id w) 1 = w_segment_id w + 1) as Hid by (unfold u64_saturating_add; lia). rewrite Hid in *.
  apply fmap_Some_1 in Ha as (a0 & Ha0 & ->). destruct (Hrec a0 Ha0) as (chain & Hc & Hanchor & Hleg & Hplain).
  eexists. split; [cbn; by rewrite lookup_insert_eq|]. rewrite Hc. cbn [default ch_anchor ch_legacy from_option id]. split; [|split].
  - apply map_Forall_insert_2; [|done]. specialize (Hanchor _ _ Hf0). cbn in Hanchor. lia.
  - eapply Forall_impl; [exact Hleg|]. cbn. lia.
  - apply map_Forall_insert_2; [|done]. cbn beta. destruct (w_files w !! (w_segment_id w + 1)) as [f|] eqn:Hf.
    { specialize (Hids _ _ Hf). cbn in Hids. lia. }
    rewrite Ha0. unfold wal_header, append_file, sync_file. cbn [sf_bytes default from_option app].
    match goal with |- bytes_start_with _ (wal_header_bytes ?d ?i ?p) = true -> _ =>
      pose proof (proj2 (chained_starts d i p [])) as Hn end.
    rewrite app_nil_r in Hn. by rewrite Hn.
Qed.

Lemma recorded_write encoded w w' r :
  (forall f, w_files w !! w_segment_id w = Some f -> (22 <= length (sf_bytes f))%nat) ->
  recorded w -> write_record crc32 encoded w = (w', r) -> recorded w'.
Proof using.
  intros Hlen Hrec. unfold write_record, mbind, stres_bind, lift, modify, get. destruct (write_router_wal_record crc32 encoded) as [frame|e];
    cbn; intros [= <- _]; [|done]. intros a Ha. cbn in *. destruct (Hrec a Ha) as (chain & Hc & Hanchor & Hleg & Hplain).
  exists chain. split; [done|]. split; [|split; [done|]]; intros i f [(<- & f0 & Hf & ->)|[Hne Hf]]%lookup_alter_Some; [by eauto..| |by eauto].
  cbn. intros Hs. apply (Hplain _ _ Hf). unfold bytes_start_with in *. rewrite take_app_le in Hs; [done|]. by apply Hlen.
Qed.

Lemma encode_payload_metadata a p stored a' :
  encode_payload ext_to_vec new_id a p = Ok (stored, a') -> as_metadata <$> a' = as_metadata <$> a.
Proof using.
  unfold encode_payload. intros (st & _ & H)%bind_Ok. destruct a as [a|], (wp_entry p) as [entry|]; try by injection H as _ <-.
  apply bind_Ok in H as ([id a1] & Hr & [= _ <-]%Ok_inj). cbn. f_equal. unfold association_reserve in Hr.
  destruct (as_ids a !! en_target entry); [by injection Hr as _ <-|]. by apply bind_Ok in Hr as (id' & _ & [= _ <-]%Ok_inj).
Qed.

(** The files of the writer: none above the current one, which has its header. *)
Lemma writer_files w older g n :
  writer_inv w older g n ->
  map_Forall (fun i _ => i <= w_segment_id w) (w_files w) /\
  exists f, w_files w !! w_segment_id w = Some f /\ (22 <= length (sf_bytes f))%nat.
Proof using.
  intros Hinv. rewrite (wi_files _ _ _ _ _ _ _ Hinv). split.
  - intros i f Hf%elem_of_list_to_map_2%(list_elem_of_fmap_2 fst). rewrite fmap_app, <- list_fmap_compose in Hf. cbn [fst fmap list_fmap] in Hf.
    assert (i ∈ sg_id <$> older ++ [g]) as Hi by (by rewrite fmap_app).
    pose proof (next_id_fresh _ _ _ _ _ _ _ _ Hinv Hi). lia.
  - rewrite <- (wi_id _ _ _ _ _ _ _ Hinv). eexists. split; [apply lookup_last; apply Hinv|]. cbn.
    pose proof (wi_ok _ _ _ _ _ _ _ Hinv) as [_ (Hh & _)%Forall_singleton]%Forall_app.
    unfold segment_bytes_of. rewrite length_app. pose proof (length_whole_header _ Hh). lia.
Qed.

(** An append keeps the association in step with the directory, whatever it
    returns. *)
Lemma recorded_append now p w w' r older g n :
  writer_inv w older g n -> w_segment_bytes w < U64_MAX -> w_segment_id w < U64_MAX -> recorded w ->
  append_payload ext_to_vec crc32 to_allocvec new_id now p w = (w', r) -> recorded w'.
Proof using new_id_valid.
  intros Hinv Hsb Hid Hrec [(-> & e & ->)|(stored & a & Henc & Hrun)]%append_payload_eq; [done|].
  pose proof (recorded_association w a (encode_payload_metadata _ _ _ _ Henc) Hrec) as Hrec1.
  destruct Hrun as [(-> & e & ->)|(encoded & Hall & Hw)]; [done|].
  destruct (encode_payload_association _ _ new_id_valid _ _ _ _ (wi_association _ _ _ _ _ _ _ Hinv) Henc) as [Ha _].
  pose proof (set_association_inv _ _ _ _ _ _ _ _ Hinv Ha) as Hinv1.
  destruct (maybe_roll_inv _ _ _ now _ _ _ _ (8 + N.of_nat (length encoded)) Hinv1 Hsb Hid) as (older' & g' & n' & Hinv' & _).
  destruct (writer_files _ _ _ _ Hinv') as (_ & f & Hf & Hlen). apply (fun Hl Hr => recorded_write _ _ _ _ Hl Hr Hw).
  { intros f' Hf'. rewrite Hf in Hf'. by injection Hf' as <-. }
  unfold maybe_roll. case_match; [|done].
  destruct (writer_files _ _ _ _ (sync_inv _ _ _ _ _ _ _ Hinv1)) as (Hbelow & f1 & Hf1 & _).
  apply recorded_roll; [done|done|by exists f1|by apply recorded_sync].
Qed.

(** The committed association has the recorded anchor and legacy segments, and its
    directory is valid. *)
Lemma committed_chain w a :
  association_ok' (w_association w) -> recorded w -> committed w (Some a) ->
  valid_incarnation (md_directory_id (as_metadata a)) = true /\
  exists chain, md_chains (as_metadata a) !! w_root w = Some chain /\
    map_Forall (fun i _ => ch_anchor chain <= i) (w_files w) /\
    Forall (fun i => i <= w_segment_id w) (ch_legacy chain) /\
    map_Forall (fun i f => bytes_start_with ROUTER_WAL_MAGIC (sf_bytes f) = true -> i ∈ ch_legacy chain) (w_files w).
Proof using.
  intros Hok Hrec [Ha|Ha].
  - destruct (Hrec a (eq_sym Ha)) as (chain & H). split; [by apply (Hok a)|by exists chain].
  - symmetry in Ha. apply fmap_Some_1 in Ha as (a0 & Ha0 & ->). destruct (Hrec a0 Ha0) as (chain & Hc & H).
    split; [by apply (Hok a0)|]. eexists. split; [cbn; by rewrite lookup_insert_eq|]. by rewrite Hc.
Qed.

Lemma writer_known chain w older g n :
  writer_inv w older g n -> map_Forall (fun i _ => ch_anchor chain <= i) (w_files w) ->
  map_Forall (fun i f => bytes_start_with ROUTER_WAL_MAGIC (sf_bytes f) = true -> i ∈ ch_legacy chain) (w_files w) ->
  Forall (known ext_to_vec crc32 to_allocvec chain) (older ++ [g]).
Proof using.
  intros Hinv Hanchor Hplain. pose proof (wi_ok _ _ _ _ _ _ _ Hinv) as Hok. rewrite Forall_forall in *. intros x Hx.
  assert (exists f, w_files w !! sg_id x = Some f /\ sf_bytes f = segment_bytes_of crc32 x) as (f & Hf & Hbytes).
  { rewrite (wi_files _ _ _ _ _ _ _ Hinv). apply elem_of_app in Hx as [Hx|Hx].
    - eexists. split; [apply elem_of_list_to_map_1|].
      + apply increasing_NoDup. rewrite fmap_app, <- list_fmap_compose.
        pose proof (wi_increase _ _ _ _ _ _ _ Hinv) as Hinc. unfold ids_increase in Hinc. by rewrite fmap_app in Hinc.
      + apply elem_of_app. left. by apply (list_elem_of_fmap_2 (synced_file crc32)).
      + done.
    - apply list_elem_of_singleton in Hx as ->. eexists. split; [apply lookup_last; apply Hinv|done]. }
  split; [by apply Hok|]. split; [split; [by apply (Hanchor _ f)|]|].
  - pose proof (next_id_fresh _ _ _ _ _ _ _ (sg_id x) Hinv (list_elem_of_fmap_2 sg_id _ _ Hx)).
    pose proof (wi_id _ _ _ _ _ _ _ Hinv). pose proof (wi_ids _ _ _ _ _ _ _ Hinv). lia.
  - intros Hh. apply (Hplain _ f Hf). rewrite Hbytes. unfold segment_bytes_of. rewrite Hh. apply plain_starts.
Qed.

(** The residue of a chained header is no longer than the header and is recognised. *)
Lemma torn_header_residue w a file :
  association_ok' (w_association w) -> w_association w = Some a -> torn_header w file ->
  (length file <= HEADER_LEN)%nat /\
  ((length file <= 22)%nat \/ bytes_start_with CHAINED_MAGIC file = true \/ Forall (eq Byte.x00) file).
Proof using.
  intros Hok Ha [Hl|(a' & Ha' & [[rest Hpre]|[Hl Hz]])].
  - split; [change HEADER_LEN with 70%nat; lia|by left].
  - assert (a' = a) as -> by congruence. destruct (Hok a Ha) as (Hid & _). unfold wal_header in Hpre.
    pose proof (f_equal length Hpre) as Hlen. rewrite length_header_bytes, length_app in Hlen by done. split; [lia|].
    destruct (decide (length file <= 22)%nat) as [|Hlong]; [by left|]. right. left.
    unfold wal_header_bytes in Hpre. apply (f_equal (take (length CHAINED_MAGIC))) in Hpre.
    rewrite take_app_length, (take_app_le file) in Hpre by (change (length CHAINED_MAGIC) with 22%nat; lia).
    unfold bytes_start_with. by rewrite <- Hpre, bool_decide_eq_true_2.
  - by auto.
Qed.

Notation prepares := (prepares ext_to_vec ext_from_slice encode_base64url content_digest crc32 to_allocvec from_bytes).
Notation known := (known ext_to_vec crc32 to_allocvec).

(** What a crash left is prepared to the records that are whole in it. *)
Lemma image_prepares w older g n a dir c s :
  writer_inv w older g n -> recorded w -> committed w (Some a) -> crash_image w dir ->
  exists chain m gs, md_chains (as_metadata a) !! w_root w = Some chain /\
    valid_incarnation (md_directory_id (as_metadata a)) = true /\ (length (frames crc32 (take n (sg_log g))) <= m)%nat /\
    prepares (as_metadata a) (w_root w) chain c dir s (logs older ++ whole crc32 m (sg_log g)) gs.
Proof using ext_roundtrip postcard_roundtrip crc32_bound.
  intros Hinv Hrec Hcom (images & HF & Hdir). pose proof (wi_association _ _ _ _ _ _ _ Hinv) as Hok.
  destruct (committed_chain w a Hok Hrec Hcom) as (Hvalid & chain & Hchain & Hanchor & Hlegacy & Hplain). exists chain.
  destruct (image_directory _ _ _ _ _ _ _ _ _ _ Hinv HF Hdir) as (m & residue & -> & Hm & Hres). exists m.
  pose proof (writer_known chain _ _ _ _ Hinv Hanchor Hplain) as Hknown. pose proof (wi_increase _ _ _ _ _ _ _ Hinv) as Hinc.
  assert (Forall (known chain ∘ fst) (cuts crc32 older g m)) as Hcuts by (apply (proj1 (Forall_fmap _ _ _)); by rewrite cuts_segments).
  assert (ids_increase (cuts crc32 older g m).*1) as Hcinc by (by rewrite cuts_segments).
  destruct residue as [[id file]|].
  - destruct (Hres id file eq_refl) as (-> & Hmax & Htorn).
    assert (exists a0, w_association w = Some a0) as [a0 Ha0].
    { destruct Hcom as [H|H]; symmetry in H; [by eexists|]. apply fmap_Some_1 in H as (a0 & H & _). by exists a0. }
    destruct (torn_header_residue w a0 file Hok Ha0 Htorn) as [Hlen Hkind].
    set (y := (fresh_segment (as_metadata a) (last (sg_id <$> (cuts crc32 older g m).*1)) (w_segment_id w + 1), 0%nat)).
    assert (forall p, last (sg_id <$> (cuts crc32 older g m).*1) = Some p -> p <= U64_MAX) as Hlast
      by (intros p; by eapply last_bounded).
    assert (ch_anchor chain <= w_segment_id w + 1) as Hnew.
    { rewrite Forall_app, Forall_singleton in Hknown. destruct Hknown as [_ (_ & [Hge _] & _)].
      rewrite (wi_id _ _ _ _ _ _ _ Hinv) in Hge. lia. }
    exists (cut_segment crc32 <$> cuts crc32 older g m ++ [y]). split; [done|]. split; [done|]. split; [done|].
    rewrite <- cuts_logs. rewrite <- (app_nil_r (logs _)). change (@nil Logged) with (sg_log (cut_segment crc32 y)).
    apply prepares_ending; try done.
    + apply Forall_app. split; [done|]. apply Forall_singleton. by apply fresh_known.
    + rewrite fmap_app. apply increase_snoc; [done|]. intros x Hx. rewrite cuts_segments in Hx.
      apply (next_id_fresh _ _ _ _ _ _ _ _ Hinv). by apply (list_elem_of_fmap_2 sg_id).
    + rewrite repaired_residue; [|intros Hin; rewrite Forall_forall in Hlegacy; specialize (Hlegacy _ Hin); cbn in Hlegacy; lia|done..].
      unfold cut_file, y. cbn [fst snd fresh_segment sg_header sg_log]. by rewrite firstn_nil, app_nil_r.
  - destruct (prepares_cut ext_to_vec ext_from_slice encode_base64url content_digest crc32 to_allocvec from_bytes ext_roundtrip
      postcard_roundtrip crc32_bound (as_metadata a) (w_root w) chain Hvalid Hchain c (uncut crc32 <$> older) (g, m) s Hcuts Hcinc) as (gs & Hp & _).
    exists gs. rewrite (proj1 (uncut_segments crc32 older)) in Hp. change (residue_file None) with (@nil (N * bytes)).
    rewrite app_nil_r. by split_and!.
Qed.

(** A start after a crash, and another one after it. *)
Lemma crash_restarts gs w acked written dir a c :
  writes ext_to_vec crc32 to_allocvec new_id gs w acked written -> recorded w -> committed w a -> crash_image w dir ->
  exists records shard dir', acked `prefix_of` (note <$> records) /\ (note <$> records) `prefix_of` written /\
    (exists differs, restart c a (w_root w) dir wal_empty = (foldl (replayed c) wal_empty records, Ok (differs, shard, dir'))) /\
    exists differs dir'', restart c a (w_root w) dir' wal_empty = (foldl (replayed c) wal_empty records, Ok (differs, shard, dir'')).
Proof using ext_roundtrip postcard_roundtrip crc32_bound new_id_valid.
  intros Hw Hrec Hcom Hcrash. destruct a as [a|].
  - destruct (writes_inv _ _ _ _ new_id_valid _ _ _ _ Hw) as (older & g & n & Hinv & Hsb & Hwr & Ha).
    destruct (image_prepares _ _ _ _ _ _ c wal_empty Hinv Hrec Hcom Hcrash) as (chain & m & gs' & Hc & Hv & Hm & Hlog & Hk & Hinc & Hne & Hrun).
    destruct (prepares_again ext_to_vec ext_from_slice encode_base64url content_digest crc32 to_allocvec from_bytes ext_roundtrip
      postcard_roundtrip crc32_bound (as_metadata a) (w_root w) chain Hv Hc c gs' wal_empty Hk Hinc Hne) as (gs2 & (_ & _ & _ & _ & d2 & Hrun2) & Hs).
    exists (logs older ++ whole crc32 m (sg_log g)), (shard_of crc32 gs'), (list_to_map (segment_entry crc32 <$> gs')).
    destruct (cut_records crc32 acked written older g n m Hm Ha (eq_sym Hwr)) as [Hpre Hpost]. split; [done|]. split; [done|].
    split; [exact Hrun|]. exists d2. eexists. cbn [restart]. rewrite Hrun2, Hs, Hlog. done.
  - assert (w_association w = None) as Hnone by (destruct Hcom as [H|H]; [done|]; by destruct (w_association w)).
    assert (crashed w dir) as Hcr.
    { destruct Hcrash as (images & HF & [->|(file & [Hl|(a & Ha & _)] & Hid & ->)]); [| |congruence]; exists images; split; [done| |done|].
      - by left.
      - right. by exists file. }
    destruct (crash_recovers ext_to_vec ext_from_slice encode_base64url content_digest crc32 to_allocvec from_bytes new_id
      ext_roundtrip postcard_roundtrip crc32_bound new_id_valid gs w acked written dir c Hw Hcr) as (gs' & Hok & Hpre & Hpost & Hrun).
    exists (logs gs'), (shard_of crc32 gs'), (list_to_map (segment_entry crc32 <$> gs')). split; [done|]. split; [done|].
    cbn [restart]. split; [exists false; by rewrite (stres_bind_Ok _ _ _ _ _ (Hrun wal_empty))|].
    exists false. eexists. rewrite (stres_bind_Ok _ _ _ _ _ (recover_at_rest ext_to_vec ext_from_slice encode_base64url content_digest crc32
      to_allocvec from_bytes ext_roundtrip postcard_roundtrip crc32_bound gs' c wal_empty Hok)). reflexivity.
Qed.
End restart.
