(* ===== verification/WalRestart.v ===== *)
(** * The running log and the log after a restart

    The store in operation: mailboxes are prepared, batches are appended and
    indexed, cursors are observed, expired records are pruned. What the running
    index holds, the index that recovery builds holds too. *)

From S2P Require Import Prelude OrdMap Bytes Wire Inbox Wal WalSegment WalFacts WalLog WalWriter WalCrash.

Open Scope N_scope.

(** [r] is [r'], or what is left of it once its delivery was settled. *)
Definition within (r r' : RouterWalSubmissionRecord) : Prop :=
  wr_replay_key r = wr_replay_key r' /\ wr_replay_expires_at r = wr_replay_expires_at r' /\
  wr_accepted_at r = wr_accepted_at r' /\ wr_local_delivery r = wr_local_delivery r' /\
  wr_location r = wr_location r' /\ (wr_entry r = None \/ wr_entry r = wr_entry r').

Lemma within_take r r' : within r r' -> within (take_entry r) r'.
Proof. unfold within. cbn. tauto. Qed.

(** Whatever the index [live] holds, [recovered] holds. *)
Record covers (live recovered : RouterWalState) : Prop := {
  cov_records k r : submissions_by_replay_key live !! k = Some r ->
    exists r', submissions_by_replay_key recovered !! k = Some r' /\ within r r';
  cov_rows : rows_within live recovered;
  cov_issued target : wal_issued_sequence live target = wal_issued_sequence recovered target;
}.

Section restart.
Variable encode_base64url : string -> string.
Variable content_digest : Envelope -> option string.
Variable epoch : Z.

Notation apply := (apply_with_sender_assignment encode_base64url content_digest).

(** ** The steps of the index *)

(** The index only loses records, deliveries and receipts. *)
Lemma covers_shrink live live' recovered :
  covers live recovered ->
  (forall k r, submissions_by_replay_key live' !! k = Some r ->
    exists r0, submissions_by_replay_key live !! k = Some r0 /\ (r = r0 \/ r = take_entry r0)) ->
  rows_within live' live -> issued_by_target live' = issued_by_target live -> covers live' recovered.
Proof using.
  intros [Hrec Hrow Hiss] Hsub Hrows Hissued. split.
  - intros k r (r0 & H0 & Hr)%Hsub. destruct (Hrec k r0 H0) as (r' & H' & Hw). exists r'. split; [done|].
    destruct Hr as [->| ->]; [done|by apply within_take].
  - by etrans.
  - intros target. unfold wal_issued_sequence at 1. rewrite Hissued. apply Hiss.
Qed.

Lemma prune_ok c now s :
  wal_ok epoch s -> (epoch <= c)%Z -> wal_ok epoch (wal_prune c now s).1 /\ wal_incarnations (wal_prune c now s).1 = wal_incarnations s.
Proof using.
  intros Hok Hc. unfold wal_prune. destruct (prune_replay _ _ _ _ _) as [s1 n1] eqn:E1. destruct (prune_entries _ _ _ _) as [s2 n2] eqn:E2.
  destruct (prune_replay_ok _ _ _ _ _ _ _ _ Hok Hc (le_n _) E1) as (Hok1 & _ & _ & _ & Hn1 & _).
  destruct (prune_entries_ok _ _ _ _ _ _ _ Hok1 (le_n _) E2) as (Hok2 & _ & _ & _ & _ & Hn2 & _). cbn. by rewrite Hn2, Hn1.
Qed.

Lemma covers_prune c now live recovered :
  wal_ok epoch live -> (epoch <= c)%Z -> covers live recovered -> covers (wal_prune c now live).1 recovered.
Proof using.
  intros Hok Hc Hcov. unfold wal_prune. destruct (prune_replay _ _ _ _ _) as [s1 n1] eqn:E1. destruct (prune_entries _ _ _ _) as [s2 n2] eqn:E2.
  destruct (prune_replay_ok _ _ _ _ _ _ _ _ Hok Hc (le_n _) E1) as (Hok1 & Hsub1 & _ & Hi1 & _ & Hr1).
  destruct (prune_entries_ok _ _ _ _ _ _ _ Hok1 (le_n _) E2) as (_ & Hsub2 & _ & Hl2 & Hi2 & _). cbn.
  eapply covers_shrink; [exact Hcov| | |by rewrite Hi2].
  - intros k r. rewrite Hsub2, Hsub1, lookup_fmap. intros (r0 & H0 & ->)%fmap_Some_1.
    apply map_lookup_filter_Some in H0 as [H0 _]. exists r0. split; [done|]. unfold retained. case_decide; eauto.
  - intros root d row. rewrite Hl2. apply Hr1.
Qed.

Lemma covers_observe c cursor live recovered :
  wal_ok epoch live -> (epoch <= c)%Z -> covers live recovered -> covers (observe_settlement c cursor live) recovered.
Proof using.
  intros Hok Hc Hcov. destruct (observe_ok epoch c cursor live Hok Hc) as (_ & (Hl & Hi & _) & Hsub).
  eapply covers_shrink; [exact Hcov| | |exact Hi].
  - intros k r. rewrite Hsub, lookup_fmap. intros (r0 & H0 & ->)%fmap_Some_1. exists r0. split; [done|].
    unfold observed. destruct (wr_entry r0); [case_decide|]; eauto.
  - intros root d row. by rewrite Hl.
Qed.

Lemma fixed_accepted p location assigned : is_Some (wp_accepted_at p) -> fixed epoch (record_of encode_base64url p location assigned).
Proof using. intros [a Ha]. unfold fixed. cbn. rewrite Ha. by destruct (wp_entry p). Qed.

(** A payload indexed by both; recovery assigns what has a local delivery, the
    running index everything. *)
Lemma covers_apply c c' p location assigned live recovered :
  (is_Some (wp_local_delivery p) -> assigned = true) -> wal_ok epoch live -> wal_ok epoch recovered -> (epoch <= c)%Z -> (epoch <= c')%Z -> is_Some (wp_accepted_at p) ->
  (forall e, wp_entry p = Some e -> wal_incarnations live !! en_target e = wal_incarnations recovered !! en_target e) ->
  covers live recovered ->
  covers (apply c p location assigned live) (apply c' p location (bool_decide (is_Some (wp_local_delivery p))) recovered).
Proof using.
  intros Has Hl Hr Hc Hc' Hacc Hinc [Hrec Hrow Hiss]. set (b := bool_decide _).
  destruct (apply_fields content_digest encode_base64url c p location assigned live) as (Hsub & Hi & _).
  destruct (apply_fields content_digest encode_base64url c' p location b recovered) as (Hsub' & Hi' & _).
  split.
  - intros k r. rewrite Hsub, Hsub'. change (wr_replay_key (record_of encode_base64url p location assigned)) with (wr_replay_key (record_of encode_base64url p location b)).
    intros [[<- <-]|[Hk H]]%lookup_insert_Some.
    + rewrite lookup_insert_eq. eexists. split; [done|]. unfold within. cbn. tauto.
    + rewrite lookup_insert_ne by done. by apply Hrec.
  - intros root d row. rewrite !apply_rows.
    change (wr_replay_key (record_of encode_base64url p location assigned)) with (wr_replay_key (record_of encode_base64url p location b)).
    set (k := wr_replay_key _). set (old := row_at _ root d).
    assert (old = Some row -> row_at (local_delivery_by_sender_envelope (dropped c' k (raised p recovered))) root d = Some row) as Hold.
    { unfold old. rewrite !(dropped_rows epoch) by (by apply ok_raise). destruct (raised_fields p live) as (_ & _ & _ & ->).
      destruct (raised_fields p recovered) as (_ & _ & _ & ->). intros (row' & H%Hrow & Hk)%bind_Some. rewrite H. cbn.
      exact Hk. }
    destruct (wp_local_delivery p) as [ld|] eqn:Eld; [|exact Hold]. case_decide; [|exact Hold].
    intros <-. f_equal. unfold receipt. cbn. unfold b. rewrite Has by eauto. f_equal.
    destruct (wp_entry p) as [e|] eqn:Ee; [|done]. cbn. rewrite (Hinc e eq_refl).
    pose proof (fixed_accepted p location true Hacc) as Hfix.
    by rewrite (retain_until_fixed epoch c'), (retain_until_fixed epoch c).
  - intros target. unfold wal_issued_sequence. rewrite Hi, Hi'. fold (wal_issued_sequence (raised p live) target).
    fold (wal_issued_sequence (raised p recovered) target). rewrite !raised_issued, Hiss. done.
Qed.

(** ** Replaying the log *)

Notation replay := (replay_note encode_base64url content_digest).

Definition accepted_note (x : Note) : Prop := is_Some (wp_accepted_at x.1.1).

Lemma incarnated_ok lg s : wal_ok epoch s -> wal_ok epoch (incarnated lg s).
Proof using. intros Hs. unfold incarnated. destruct (lg_id lg), (wp_entry (lg_payload lg)); [|done..]. by apply ok_incarnations. Qed.

Lemma replay_ok c x s : wal_ok epoch s -> (epoch <= c)%Z -> accepted_note x -> wal_ok epoch (replay c s x).
Proof using.
  intros Hs Hc Hx. destruct x as [[p id] location]. unfold replay_note, replayed. apply ok_apply; [by apply incarnated_ok|done|by apply fixed_accepted].
Qed.

Lemma replays_ok c l s : wal_ok epoch s -> (epoch <= c)%Z -> Forall accepted_note l -> wal_ok epoch (foldl (replay c) s l).
Proof using. intros Hs Hc Hl. revert s Hs. induction Hl as [|x l Hx Hl IH]; intros s Hs; [done|]. apply IH. by apply replay_ok. Qed.

(** The mailbox of the entry has the incarnation [id] before the payload is indexed. *)
Lemma replay_incarnations c p id location s :
  wal_incarnations (replay c s (p, id, location)) =
  match id, wp_entry p with Some id, Some e => <[en_target e := id]> (wal_incarnations s) | _, _ => wal_incarnations s end.
Proof using.
  unfold replay_note, replayed. cbn [lg_payload lg_location].
  destruct (apply_fields content_digest encode_base64url c p location (bool_decide (is_Some (wp_local_delivery p)))
    (incarnated (mkLogged p id [] location) s)) as (_ & _ & -> & _).
  unfold incarnated. cbn. by destruct id, (wp_entry p).
Qed.

Lemma covers_incarnated live recovered lg lg' : covers live recovered -> covers (incarnated lg live) (incarnated lg' recovered).
Proof using.
  intros [H1 H2 H3]. unfold incarnated.
  destruct (lg_id lg), (wp_entry (lg_payload lg)), (lg_id lg'), (wp_entry (lg_payload lg')); by split.
Qed.

(** Two replays of the same log, at different times. *)
Lemma covers_replay c c' l s s' :
  wal_ok epoch s -> wal_ok epoch s' -> (epoch <= c)%Z -> (epoch <= c')%Z -> Forall accepted_note l ->
  covers s s' -> wal_incarnations s = wal_incarnations s' ->
  covers (foldl (replay c) s l) (foldl (replay c') s' l) /\
  wal_incarnations (foldl (replay c) s l) = wal_incarnations (foldl (replay c') s' l).
Proof using.
  intros Hs Hs' Hc Hc' Hl. revert s s' Hs Hs'. induction Hl as [|x l Hx Hl IH]; intros s s' Hs Hs' Hcov Hinc; [done|]. cbn [foldl].
  apply IH; [by apply replay_ok..| |].
  - destruct x as [[p id] location]. unfold replay_note, replayed. apply covers_apply; [|by apply incarnated_ok..|done|done|done| |by apply covers_incarnated].
    + intros H. by apply bool_decide_eq_true.
    + intros e _. unfold incarnated. cbn. destruct id, (wp_entry p); cbn; by rewrite Hinc.
  - destruct x as [[p id] location]. rewrite !replay_incarnations, Hinc. done.
Qed.
End restart.

(** ** The store in operation *)

Record System := mkSystem { sy_writer : RouterWalWriterState; sy_state : RouterWalState }.

(** What [record_submission_classified] hands to the writer: a payload with its time
    of acceptance, after [prepare_sender_identity]. *)
Definition prepared (w : RouterWalWriterState) (s : RouterWalState) (p : RouterWalPayload) : Prop :=
  is_Some (wp_accepted_at p) /\
  forall e, wp_entry p = Some e -> w_association w = None \/
    exists id, reserved w (en_target e) = Some id /\ wal_incarnations s !! en_target e = Some id.

Section system.
Variable ext_to_vec : gmap string Value -> option bytes.
Variable ext_from_slice : bytes -> option (gmap string Value).
Variable encode_base64url : string -> string.
Variable content_digest : Envelope -> option string.
Variable crc32 : bytes -> N.
Variable to_allocvec : StoredRouterWalPayload -> option bytes.
Variable from_bytes : bytes -> option StoredRouterWalPayload.
Variable new_id : string -> option string.
Variable epoch : Z.

Hypothesis ext_roundtrip : forall m b, ext_to_vec m = Some b -> ext_from_slice b = Some m.
Hypothesis postcard_roundtrip : forall p b, to_allocvec p = Some b -> from_bytes b = Some p.
Hypothesis crc32_bound : forall b, crc32 b <= U32_MAX.
Hypothesis new_id_valid : forall target id, new_id target = Some id -> valid_incarnation id = true.

Notation writes := (writes ext_to_vec crc32 to_allocvec new_id).
Notation replay := (replay_note encode_base64url content_digest).

Definition note_of (w : RouterWalWriterState) (p : RouterWalPayload) (location : RouterWalRecordLocation) : Note :=
  (p, incarnation_of (w_association w) p, location).

(** The store, with what its log holds. *)
Inductive runs (gs : list SegmentLog) : System -> list Note -> Prop :=
| runs_start w c :
    log_ok ext_to_vec crc32 to_allocvec gs -> opens crc32 gs w -> Forall accepted_note (note <$> logs gs) -> (epoch <= c)%Z ->
    runs gs (mkSystem w (foldl (replay c) wal_empty (note <$> logs gs))) (note <$> logs gs)
| runs_prepare w s l entry a s' :
    runs gs (mkSystem w s) l -> prepare_sender_identity new_id entry (w_association w) s = Ok (a, s') ->
    runs gs (mkSystem (set_w_association w a) s') l
| runs_batch w s l now c ps w' locations :
    runs gs (mkSystem w s) l -> Forall (prepared w s) ps -> w_segment_id w + N.of_nat (length ps) <= U64_MAX ->
    append_batch ext_to_vec crc32 to_allocvec new_id now ps w = (w', Ok locations) -> (epoch <= c)%Z ->
    runs gs (mkSystem w' (ack_success encode_base64url content_digest c ps locations s)) (l ++ zip_with (note_of w) ps locations)
| runs_settle w s l c cursor :
    runs gs (mkSystem w s) l -> (epoch <= c)%Z -> runs gs (mkSystem w (observe_settlement c cursor s)) l
| runs_prune w s l c now :
    runs gs (mkSystem w s) l -> (epoch <= c)%Z -> runs gs (mkSystem w (wal_prune c now s).1) l.

(** ** Batches *)

Lemma append_payload_step now p w w' r :
  append_payload ext_to_vec crc32 to_allocvec new_id now p w = (w', r) ->
  (w_association w' = None <-> w_association w = None) /\ w_segment_id w' <= w_segment_id w + 1.
Proof using.
  assert (forall stored a, encode_payload ext_to_vec new_id (w_association w) p = Ok (stored, a) -> a = None <-> w_association w = None) as Hnone.
  { unfold encode_payload. intros stored a (st & _ & H)%bind_Ok. destruct (w_association w), (wp_entry p); try by injection H as <- <-.
    by apply bind_Ok in H as ([id a1] & _ & [= <- <-]%Ok_inj). }
  intros [(-> & _)|(stored & a & Henc & [(-> & _)|(encoded & _ & Hw)])]%append_payload_eq; [split; [done|lia]|split; [by eapply Hnone|cbn; lia]|].
  assert ((w_association (maybe_roll now (8 + N.of_nat (length encoded)) (set_w_association w a)) = None <-> w_association w = None) /\
    w_segment_id (maybe_roll now (8 + N.of_nat (length encoded)) (set_w_association w a)) <= w_segment_id w + 1) as [H1 H2].
  { rewrite <- (Hnone _ _ Henc). unfold maybe_roll. case_match; cbn; [|split; [done|lia]]. split; [by destruct a|].
    unfold u64_saturating_add. lia. }
  unfold write_record, mbind, stres_bind, lift in Hw. destruct (write_router_wal_record crc32 encoded); injection Hw as <- _; done.
Qed.

Lemma append_payloads_writes gs now ps w w' locations acked written :
  writes gs w acked written ->
  Forall (fun p => complete_payload p /\
    forall e, wp_entry p = Some e -> w_association w = None \/ is_Some (reserved w (en_target e))) ps ->
  w_segment_id w + N.of_nat (length ps) <= U64_MAX ->
  append_payloads ext_to_vec crc32 to_allocvec new_id now ps w = (w', Ok locations) ->
  writes gs w' acked (written ++ zip_with (note_of w) ps locations) /\
  (w_association w' = None <-> w_association w = None) /\
  (forall target id, reserved w target = Some id -> reserved w' target = Some id).
Proof using new_id_valid.
  revert w written locations. induction ps as [|p ps IH]; intros w written locations Hw Hps Hid.
  { intros [= <- <-]. cbn. by rewrite app_nil_r. }
  apply Forall_cons in Hps as [[Hc Hp] Hps]. cbn [append_payloads length] in *.
  intros (w1 & location & Hp1 & (w2 & locs & Hp2 & [= <- <-])%stres_bind_inv)%stres_bind_inv.
  destruct (append_payload_step _ _ _ _ _ Hp1) as [Hnone Hid1].
  destruct (writes_inv _ _ _ _ new_id_valid _ _ _ _ Hw) as (older & g & n & Hinv & Hsb & _).
  destruct (append_inv _ _ _ _ new_id_valid _ _ _ _ _ _ _ _ Hinv Hc Hsb ltac:(lia) Hp1) as (_ & _ & _ & _ & _ & _ & Hres & _).
  assert (forall q location', (forall e, wp_entry q = Some e -> w_association w = None \/ is_Some (reserved w (en_target e))) ->
    note_of w1 q location' = note_of w q location') as Hnote.
  { intros q location' Hq. unfold note_of, incarnation_of. destruct (wp_entry q) as [e|]; [|done]. cbn. do 2 f_equal.
    destruct (Hq e eq_refl) as [Hw0|[id Hi]]; [by rewrite Hw0, (proj2 Hnone Hw0)|]. fold (reserved w1 (en_target e)) (reserved w (en_target e)).
    by rewrite Hi, (Hres _ _ Hi). }
  pose proof (writes_append _ _ _ _ _ _ _ _ now p w1 location Hw Hc ltac:(lia) Hp1) as Hw1. fold (note_of w1 p location) in Hw1.
  rewrite Hnote in Hw1 by done. destruct (IH w1 _ locs Hw1) as (Hw2 & Hn2 & Hr2); [|lia|done|].
  { eapply Forall_impl; [exact Hps|]. intros q [Hcq Hq]. split; [done|]. intros e He. destruct (Hq e He) as [?|[id Hi]]; [left; by apply Hnone|eauto]. }
  rewrite (Forall_zip_with_ext_l (note_of w1) (note_of w) _ locs locs) in Hw2; [| |done].
  2:{ eapply Forall_impl; [exact Hps|]. intros q [_ Hq] location'. by apply Hnote. }
  rewrite <- (assoc_L (++)) in Hw2. split; [exact Hw2|]. split; [by rewrite Hn2|eauto].
Qed.

Lemma covers_ack c c' w ps locations s recovered :
  wal_ok epoch s -> wal_ok epoch recovered -> (epoch <= c)%Z -> (epoch <= c')%Z -> Forall (prepared w s) ps ->
  covers s recovered -> (w_association w = None -> wal_incarnations s = wal_incarnations recovered) ->
  let s' := ack_success encode_base64url content_digest c ps locations s in
  let recovered' := foldl (replay c') recovered (zip_with (note_of w) ps locations) in
  wal_ok epoch s' /\ covers s' recovered' /\ (w_association w = None -> wal_incarnations s' = wal_incarnations recovered').
Proof using.
  intros Hs Hr Hc Hc'. revert locations s recovered Hs Hr. unfold ack_success.
  induction ps as [|p ps IH]; intros [|location locations] s recovered Hs Hr Hps Hcov Hinc; try done.
  apply Forall_cons in Hps as [[Hacc Hp] Hps]. cbn [zip zip_with foldl]. fold (zip ps locations).
  destruct (apply_fields content_digest encode_base64url c p location true s) as (_ & _ & Hin & _).
  assert (forall e, wp_entry p = Some e -> wal_incarnations s !! en_target e =
    wal_incarnations (incarnated (mkLogged p (incarnation_of (w_association w) p) [] location) recovered) !! en_target e) as Hsame.
  { intros e He. unfold incarnated, incarnation_of. cbn. rewrite He. cbn. destruct (Hp e He) as [Hn|(id & Hi & Hs')].
    - rewrite Hn. cbn. by rewrite Hinc.
    - unfold reserved in Hi. rewrite Hi. cbn. by rewrite lookup_insert_eq. }
  apply IH.
  - apply ok_apply; [done..|by apply fixed_accepted].
  - by apply replay_ok.
  - eapply Forall_impl; [exact Hps|]. intros q [Hq1 Hq2]. split; [done|]. by rewrite Hin.
  - apply (covers_apply encode_base64url content_digest epoch); try done; [by apply incarnated_ok|].
    exact (covers_incarnated _ _ (mkLogged p None [] location) _ Hcov).
  - intros Hn. rewrite Hin, (Hinc Hn). unfold note_of. rewrite replay_incarnations. unfold incarnation_of.
    rewrite Hn. by destruct (wp_entry p).
Qed.

Lemma set_same_association w : set_w_association w (w_association w) = w.
Proof using. by destruct w. Qed.

Lemma covers_set_incarnations s recovered v conflict : covers s recovered -> covers (set_wal_incarnations s v conflict) recovered.
Proof using. by intros [H1 H2 H3]. Qed.

Lemma notes_accepted w s ps locations : Forall (prepared w s) ps -> Forall accepted_note (zip_with (note_of w) ps locations).
Proof using.
  intros Hps. revert locations. induction Hps as [|p ps [Hp _] Hps IH]; intros [|location locations]; constructor; [done|apply IH].
Qed.

Lemma runs_inv gs y l :
  runs gs y l ->
  writes gs (sy_writer y) l l /\ Forall accepted_note l /\ wal_ok epoch (sy_state y) /\
  forall c', (epoch <= c')%Z -> covers (sy_state y) (foldl (replay c') wal_empty l) /\
    (w_association (sy_writer y) = None -> wal_incarnations (sy_state y) = wal_incarnations (foldl (replay c') wal_empty l)).
Proof using new_id_valid.
  induction 1 as [w c Hok Hop Hacc Hc|w s l entry a s' _ (Hw & Hacc & Hs & Hcov) Hprep
    |w s l now c ps w' locations _ (Hw & Hacc & Hs & Hcov) Hps Hid Hrun Hc
    |w s l c cursor _ (Hw & Hacc & Hs & Hcov) Hc|w s l c now _ (Hw & Hacc & Hs & Hcov) Hc]; cbn [sy_writer sy_state] in *.
  - split; [by apply writes_open|]. split; [done|]. pose proof (wal_empty_ok epoch). split; [by apply replays_ok|].
    intros c' Hc'. assert (covers wal_empty wal_empty) as He by (split; [intros k r H'; cbn in H'; by rewrite lookup_empty in H'|done|done]).
    destruct (covers_replay encode_base64url content_digest epoch c c' (note <$> logs gs) wal_empty wal_empty) as [H1 H2]; done.
  - unfold prepare_sender_identity in Hprep. destruct (w_association w) as [a0|] eqn:Ea, entry as [e|].
    2-4: injection Hprep as <- <-; rewrite <- Ea, set_same_association, Ea; done.
    apply bind_Ok in Hprep as ([id a1] & Hres & [= <- <-]%Ok_inj). split; [by eapply writes_reserve|]. split; [done|].
    split; [by apply ok_incarnations|]. intros c' Hc'. split; [by apply covers_set_incarnations, Hcov|done].
  - unfold append_batch in Hrun. apply stres_bind_inv in Hrun as (w1 & locs & Hrun & [= <- <-]).
    destruct (append_payloads_writes gs now ps w w1 locs l l Hw) as (Hw1 & Hn1 & _); [|done..|].
    { eapply Forall_impl; [exact Hps|]. intros p [Hp1 Hp2]. split; [by left|]. intros e He. destruct (Hp2 e He) as [?|(id & ? & _)]; eauto. }
    assert (forall c', (epoch <= c')%Z -> wal_ok epoch (foldl (replay c') wal_empty l)) as Hrec
      by (intros; apply replays_ok; [apply wal_empty_ok|done..]).
    split; [by eapply writes_sync|]. split; [by apply Forall_app; split; [|eapply notes_accepted]|]. split.
    { destruct (Hcov c Hc) as [H1 H2]. by apply (covers_ack c c w ps locs s (foldl (replay c) wal_empty l)); [done|apply Hrec|..]. }
    intros c' Hc'. rewrite foldl_app. destruct (Hcov c' Hc') as [H1 H2].
    destruct (covers_ack c c' w ps locs s (foldl (replay c') wal_empty l)) as (_ & H3 & H4); try done; [by apply Hrec|].
    split; [done|]. cbn. intros Hn. by apply H4, Hn1.
  - destruct (observe_ok epoch c cursor s Hs Hc) as (Hok & (_ & _ & Hin & _) & _). do 3 (split; [done|]). intros c' Hc'.
    destruct (Hcov c' Hc') as [H1 H2]. split; [by eapply covers_observe|]. by rewrite Hin.
  - do 2 (split; [done|]). destruct (prune_ok epoch c now s Hs Hc) as (Hok & Hin). split; [done|]. intros c' Hc'.
    destruct (Hcov c' Hc') as [H1 H2]. split; [by eapply covers_prune|]. by rewrite Hin.
Qed.
End system.
