(* ===== verification/WalProps.v ===== *)
(** * Properties of the router's write-ahead log *)

From S2P Require Import Prelude OrdMap Bytes Wire Inbox Replay ReplayProps Wal WalSegment WalFacts WalLog WalWriter WalCrash WalRepair WalRestart.
From Stdlib Require Import Strings.Byte.

Open Scope N_scope.

(** ** Crashes and restarts *)

Section crash.
Variable ext_to_vec : gmap string Value -> option bytes.
Variable ext_from_slice : bytes -> option (gmap string Value).
Variable encode_base64url : string -> string.
Variable content_digest : Envelope -> option string.
Variable crc32 : bytes -> N.
Variable to_allocvec : StoredRouterWalPayload -> option bytes.
Variable from_bytes : bytes -> option StoredRouterWalPayload.
Variable new_id : string -> option string.

Hypothesis ext_roundtrip : forall m b, ext_to_vec m = Some b -> ext_from_slice b = Some m.
Hypothesis postcard_roundtrip : forall p b, to_allocvec p = Some b -> from_bytes b = Some p.
Hypothesis crc32_bound : forall b, crc32 b <= U32_MAX.
Hypothesis new_id_valid : forall target id, new_id target = Some id -> valid_incarnation id = true.

Notation recover := (recover_router_wal_directory ext_from_slice encode_base64url content_digest crc32 from_bytes).
Notation restart := (restart ext_from_slice encode_base64url content_digest crc32 from_bytes).

(** C6: a crash leaves of every file a prefix that holds at least what was synced,
    and of a segment that is being created any prefix of its header or zeros in its
    place; a log without an association has only the plain header. Whatever it leaves,
    the next start succeeds: where the log is associated and the association records
    the directory, as every append keeps it, the start repairs the newest header and
    recovers from the anchor, with the new head recorded or not; otherwise it recovers
    the directory. It indexes a prefix of the records that were appended, in order
    and with their locations, and every record that was synced is in it. A further
    start on the files it leaves gives the same index and the same position. A file
    that a crash extends with zeros is not covered. *)
Theorem acknowledged_survives_crash gs w acked written dir association c :
  writes ext_to_vec crc32 to_allocvec new_id gs w acked written -> recorded w ->
  committed w association -> crash_image w dir ->
  exists recovered shard dir',
    acked `prefix_of` recovered /\ recovered `prefix_of` written /\
    let s := foldl (replay_note encode_base64url content_digest c) wal_empty recovered in
    (exists differs, restart c association (w_root w) dir wal_empty = (s, Ok (differs, shard, dir'))) /\
    exists differs dir'', restart c association (w_root w) dir' wal_empty = (s, Ok (differs, shard, dir'')).
Proof using ext_roundtrip postcard_roundtrip crc32_bound new_id_valid.
  intros Hw Hrec Hcom Hcrash.
  destruct (crash_restarts ext_to_vec ext_from_slice encode_base64url content_digest crc32 to_allocvec from_bytes new_id
    ext_roundtrip postcard_roundtrip crc32_bound new_id_valid gs w acked written dir association c Hw Hrec Hcom Hcrash)
    as (records & shard & dir' & Ha & Hr & Hrun).
  exists (note <$> records), shard, dir'. split; [done|]. split; [done|]. cbv zeta. by rewrite <- replay_notes.
Qed.

(** C7: a store that stops between two batches comes back with all it knew: every
    record it still held is recovered, differing at most by a delivery that was
    settled meanwhile; every retry it would have answered with an assignment is
    answered with the same one; and the highest sequence issued for each mailbox
    is the same. *)
Theorem restart_resumes epoch gs w s l dir c :
  runs ext_to_vec encode_base64url content_digest crc32 to_allocvec new_id epoch gs (mkSystem w s) l ->
  crashed w dir -> (epoch <= c)%Z ->
  exists recovered shard dir',
    recover c dir None wal_empty = (recovered, Ok (shard, dir')) /\
    (forall k r, submissions_by_replay_key s !! k = Some r ->
      exists r', submissions_by_replay_key recovered !! k = Some r' /\ within r r') /\
    (forall root envelope now a, sender_assignment s root envelope now = Some a ->
      sender_assignment recovered root envelope now = Some a) /\
    (forall target, wal_issued_sequence recovered target = wal_issued_sequence s target).
Proof using ext_roundtrip postcard_roundtrip crc32_bound new_id_valid.
  intros (Hw & _ & _ & Hcov)%runs_inv Hcrash Hc; [|done]. cbn [sy_writer sy_state] in *.
  destruct (crash_recovers ext_to_vec ext_from_slice encode_base64url content_digest crc32 to_allocvec from_bytes new_id
    ext_roundtrip postcard_roundtrip crc32_bound new_id_valid gs w l l dir c Hw Hcrash) as (gs' & Hok & Ha & Hr & Hrun).
  assert (note <$> logs gs' = l) as Hl by (by apply (anti_symm prefix)).
  destruct (Hcov c Hc) as [[Hrec Hrow Hiss] _]. rewrite <- Hl, <- replay_notes in Hrec, Hrow, Hiss.
  eexists _, _, _. split; [apply Hrun|]. split; [exact Hrec|]. split; [|done].
  intros root envelope now a. unfold sender_assignment. fold (row_at (local_delivery_by_sender_envelope s) root (envelope_id envelope, target_delivery_id envelope)).
  destruct (row_at _ root _) as [row|] eqn:E; [|done]. apply Hrow in E. unfold row_at in E. by rewrite E.
Qed.

(** Zero bytes read as an empty frame. *)
Lemma read_zeros n :
  crc32 [] = 0 -> from_bytes [] = None -> (8 <= n)%nat ->
  read_router_wal_record crc32 from_bytes (repeat Byte.x00 n) = Err SnapshotSerialization.
Proof using.
  intros Hcrc Hempty Hn. replace n with (8 + (n - 8))%nat by lia. rewrite repeat_app. unfold read_router_wal_record.
  rewrite read_exact_app by done. change (N.to_nat (le_to_N (take 4 (repeat Byte.x00 8)))) with 0%nat. unfold read_exact.
  rewrite decide_True by lia. rewrite firstn_O, Hcrc, Hempty. reflexivity.
Qed.

(** C40: a segment whose records are followed by eight or more zero bytes, as a file
    system can leave after a crash, is refused: the zeros read as an empty frame
    whose checksum is right, so recovery stops with an error where a torn frame
    would have been cut off. *)
Theorem zero_tail_refused c newest g n s :
  crc32 [] = 0 -> from_bytes [] = None ->
  segment_ok ext_to_vec crc32 to_allocvec g -> (8 <= n)%nat ->
  exists s', recover_router_wal_segment ext_from_slice encode_base64url content_digest crc32 from_bytes c (sg_id g) newest
    (segment_bytes_of crc32 g ++ repeat Byte.x00 n) s = (s', Err SnapshotSerialization).
Proof using ext_roundtrip postcard_roundtrip crc32_bound.
  intros Hcrc Hempty (Hh & Henc & Hloc & Hmax) Hn. unfold recover_router_wal_segment. unfold segment_bytes_of. rewrite <- (assoc_L (++)).
  pose proof (length_whole_header _ Hh). rewrite (bool_decide_eq_false_2 (_ <= 22)%nat), andb_false_r
    by (rewrite !length_app, repeat_length; lia).
  rewrite repair_whole by done. destruct (read_whole_header (sg_header g) (frames crc32 (sg_log g) ++ repeat Byte.x00 n) Hh) as [what ->].
  erewrite stres_bind_Ok by done. erewrite stres_bind_Ok by done. cbv beta iota. rewrite length_app in Hmax.
  pose proof (length_frames crc32 (sg_log g)) as Hlen. set (fuel := S _).
  replace fuel with (length (sg_log g) + S (fuel - S (length (sg_log g))))%nat by (unfold fuel; rewrite length_app; lia).
  unfold mbind, stres_bind. rewrite (recover_frames ext_to_vec ext_from_slice encode_base64url content_digest crc32 to_allocvec from_bytes)
    by (done || lia).
  cbn [recover_records]. unfold mbind, stres_bind, lift at 1. rewrite read_zeros by done. eauto.
Qed.
End crash.

(** ** The index *)

Lemma string_app_assoc (s t u : string) : (s +:+ t) +:+ u = s +:+ t +:+ u.
Proof. induction s as [|a s IH]; [done|]. exact (f_equal (String a) IH). Qed.


Lemma find_sorted (f : N -> bool) (l : list N) :
  StronglySorted N.le l ->
  match find f l with
  | Some q => q ∈ l /\ f q = true /\ forall q', q' ∈ l -> f q' = true -> q <= q'
  | None => forall q', q' ∈ l -> f q' = false
  end.
Proof.
  induction 1 as [|x l Hl IH Hx]; cbn; [by intros q' H%not_elem_of_nil|]. destruct (f x) eqn:Ef.
  - split; [by left|]. split; [done|]. intros q' [->|H]%elem_of_cons _; [done|]. rewrite Forall_forall in Hx. by apply Hx.
  - destruct (find f l) as [q|].
    + destruct IH as (H1 & H2 & H3). split; [by right|]. split; [done|]. intros q' [->|H]%elem_of_cons; [congruence|by apply H3].
    + intros q' [->|H]%elem_of_cons; [done|by apply IH].
Qed.

Lemma StronglySorted_fst (l : list (N * gset string)) : StronglySorted entry_le l -> StronglySorted N.le l.*1.
Proof.
  induction 1 as [|x l Hl IH Hx]; cbn; constructor; [done|]. apply Forall_fmap. eapply Forall_impl; [exact Hx|]. done.
Qed.

Lemma forallb_false {A} (f : A -> bool) l : forallb f l = false <-> exists x, x ∈ l /\ f x = false.
Proof.
  induction l as [|x l IH]; cbn.
  - split; [done|]. by intros (x & H%not_elem_of_nil & _).
  - rewrite andb_false_iff, IH. setoid_rewrite elem_of_cons. naive_solver.
Qed.

Section index.
Variable epoch : Z.


(** C22: observing a cursor takes exactly the deliveries of its mailbox that it
    settles, by its floor or one by one; the records stay as replay receipts, and
    so do the receipts of senders and the marks. *)
Theorem settlement_exact s c cursor :
  wal_ok epoch s -> (epoch <= c)%Z ->
  let s' := observe_settlement c cursor s in
  wal_ok epoch s' /\ same_receipts s s' /\
  submissions_by_replay_key s' = observed cursor <$> submissions_by_replay_key s /\
  (forall q, settles cursor q -> keys_at (submissions_by_target s') (cur_target cursor) q = ∅) /\
  (forall target q, target <> cur_target cursor \/ ~ settles cursor q ->
    keys_at (submissions_by_target s') target q = keys_at (submissions_by_target s) target q).
Proof using.
  intros Hok Hc s'. destruct (observe_ok epoch c cursor s Hok Hc) as (Hok' & Hsame & Hsub). do 3 (split; [done|]). fold s' in Hok', Hsub.
  assert (forall k r e, submissions_by_replay_key s' !! k = Some r -> wr_entry r = Some e ->
    submissions_by_replay_key s !! k = Some r /\ (en_target e <> cur_target cursor \/ ~ settles cursor (inbox_seq e))) as Hback.
  { intros k r e. rewrite Hsub, lookup_fmap. intros (r0 & Hr0 & ->)%fmap_Some_1. unfold observed.
    destruct (wr_entry r0) as [e0|] eqn:E0; [case_decide as Hd; [done|]|congruence].
    rewrite E0. intros [= <-]. split; [done|]. destruct (decide (settles cursor (inbox_seq e0))); naive_solver. }
  split.
  - intros q Hq. apply set_eq. intros k. rewrite (ok_target _ Hok'). split; [|set_solver].
    intros (r & e & Hr & He & Ht & Hs'). destruct (Hback k r e Hr He) as [_ ?]. subst. naive_solver.
  - intros target q Hq. apply set_eq. intros k. rewrite (ok_target _ Hok'), (ok_target _ Hok). split.
    + intros (r & e & Hr & He & Ht & Hs'). destruct (Hback k r e Hr He) as [? _]. eauto 6.
    + intros (r & e & Hr & He & Ht & Hs'). exists r, e. split; [|done]. rewrite Hsub, lookup_fmap, Hr. cbn. unfold observed. rewrite He.
      rewrite decide_False; [done|]. subst. tauto.
Qed.
(** The records of [target] at sequence [q] that a sweep at [expired_at] would not
    pass over. *)
Definition live_at (s : RouterWalState) (expired_at : option Z) (target : string) (q : N) : Prop :=
  exists k r e, submissions_by_replay_key s !! k = Some r /\ wr_entry r = Some e /\ en_target e = target /\ inbox_seq e = q /\
    forall now, expired_at = Some now -> (now < deadline epoch r)%Z.

(** Which rows of the index by mailbox the head looks at. *)
Lemma live_rows s c cursor previous expired_at sequences q :
  wal_ok epoch s -> (epoch <= c)%Z -> submissions_by_target s !! cur_target cursor = Some sequences ->
  let expired keys :=
    match expired_at with
    | None => false
    | Some now => forallb (fun key => match submissions_by_replay_key s !! key with
        | Some r => bool_decide (wal_retain_until c r <= now)%Z | None => false end) (bs_elems keys)
    end in
  q ∈ (filter (fun p => expired p.2 = false) (bt_range_gt previous sequences)).*1 <->
  previous < q /\ live_at s expired_at (cur_target cursor) q.
Proof using.
  intros Hok Hc Ht expired.
  assert (forall keys, sequences !! q = Some keys -> (expired keys = false <-> live_at s expired_at (cur_target cursor) q)) as Hlive.
  { intros keys Hq. destruct (ok_dense _ Hok _ _ Ht) as [_ Hne]. specialize (Hne q keys Hq).
    assert (forall k, k ∈ keys <-> exists r e, submissions_by_replay_key s !! k = Some r /\ wr_entry r = Some e /\
      en_target e = cur_target cursor /\ inbox_seq e = q) as Hk.
    { intros k. rewrite <- (ok_target _ Hok). unfold keys_at. rewrite Ht. cbn. by rewrite Hq. }
    unfold expired, live_at. destruct expired_at as [now|].
    - rewrite forallb_false. setoid_rewrite elem_of_bs_elems. split.
      + intros (k & Hin & Hf). pose proof Hin as (r & e & Hr & He & Ht' & Hq')%Hk. rewrite Hr in Hf. apply bool_decide_eq_false in Hf.
        rewrite (retain_until_fixed epoch) in Hf by (done || by apply (ok_fixed _ _ Hok k)).
        exists k, r, e. do 4 (split; [done|]). intros ? [= <-]. lia.
      + intros (k & r & e & Hr & He & Ht' & Hq' & Hd). exists k. split; [apply Hk; by exists r, e|]. rewrite Hr. apply bool_decide_eq_false.
        rewrite (retain_until_fixed epoch) by (done || by apply (ok_fixed _ _ Hok k)). specialize (Hd now eq_refl). lia.
    - split; [intros _|done]. destruct (set_choose_L keys Hne) as [k0 (r & e & Hr & He & Ht' & Hq')%Hk]. exists k0, r, e. by do 4 (split; [done|]). }
  rewrite list_elem_of_fmap. setoid_rewrite list_elem_of_filter. split.
  - intros ([q' keys] & -> & Hf & (Hq & Hgt)%elem_of_bt_range_gt). cbn in *. split; [|by apply (Hlive keys)].
    unfold key_le, N_key in Hgt. lia.
  - intros [Hgt Hl]. pose proof Hl as (k & r & e & Hr & He & Ht' & Hq' & _).
    assert (k ∈ keys_at (submissions_by_target s) (cur_target cursor) q) as Hin by (apply (ok_target _ Hok); by exists r, e).
    apply keys_at_elem in Hin as (sequences' & keys & Ht'' & Hq'' & _). simplify_eq. exists (inbox_seq e, keys). split; [done|].
    split; [by apply (Hlive keys)|]. apply elem_of_bt_range_gt. split; [done|]. unfold key_le, N_key. lia.
Qed.

(** C23: the head of a mailbox after [previous] is the least sequence above it that
    has a live delivery and that the cursor has not retired; there is none exactly
    when no such sequence exists. *)
Theorem settlement_head_exact s c cursor previous expired_at :
  wal_ok epoch s -> (epoch <= c)%Z ->
  let candidate q := previous < q /\ live_at s expired_at (cur_target cursor) q /\ retires cursor q = false in
  match settlement_head c s cursor previous expired_at with
  | Some q => candidate q /\ forall q', candidate q' -> q <= q'
  | None => forall q, ~ candidate q
  end.
Proof using.
  intros Hok Hc candidate. unfold settlement_head. destruct (submissions_by_target s !! cur_target cursor) as [sequences|] eqn:Ht.
  - cbn [mbind option_bind].
    pose proof (fun q => live_rows s c cursor previous expired_at sequences q Hok Hc Ht) as Hrows. cbv zeta in Hrows.
    match goal with |- context [find ?f ?l] => pose proof (find_sorted f l) as Hfind; set (rows := l) in * end.
    destruct (find _ rows) as [q|].
    + destruct Hfind as (H1 & H2%negb_true_iff & H3); [by apply StronglySorted_fst, StronglySorted_filter, bt_range_gt_sorted|].
      apply Hrows in H1. split; [unfold candidate; tauto|]. intros q' (Hp & Hl & Hr). apply H3; [by apply Hrows|by rewrite Hr].
    + intros q (Hp & Hl & Hr). assert (q ∈ rows) as Hq by (by apply Hrows). apply Hfind in Hq; [by rewrite Hr in Hq|].
      by apply StronglySorted_fst, StronglySorted_filter, bt_range_gt_sorted.
  - cbn. intros q (_ & (k & r & e & Hr & He & Ht' & Hq' & _) & _).
    assert (k ∈ keys_at (submissions_by_target s) (cur_target cursor) q) as Hin by (apply (ok_target _ Hok); by exists r, e).
    apply keys_at_elem in Hin as (? & ? & ? & _). congruence.
Qed.

(** The records listed for a mailbox, one for every sequence. *)
Lemma view_records s target (entries : list (N * gset string)) :
  wal_ok epoch s ->
  (forall q keys, (q, keys) ∈ entries -> keys <> ∅ /\ forall k, k ∈ keys -> k ∈ keys_at (submissions_by_target s) target q) ->
  exists records,
    mapM (fun key => ok_or (submissions_by_replay_key s !! key) (Redb "WAL target index lost submission")) (omap bs_first entries.*2) = Ok records /\
    Forall2 (fun q r => submissions_by_replay_key s !! wr_replay_key r = Some r /\
      exists e, wr_entry r = Some e /\ en_target e = target /\ inbox_seq e = q) entries.*1 records.
Proof using.
  intros Hok. induction entries as [|[q keys] entries IH]; intros Hen; [by exists []|].
  destruct IH as (records & Hm & Hf); [intros q' keys' H; apply Hen; by right|].
  destruct (Hen q keys) as [Hne Hk]; [by left|].
  destruct (bs_first keys) as [k|] eqn:Ek; [|by apply bs_first_None in Ek].
  pose proof (proj1 (bs_first_Some keys k) Ek) as [Hin _]. apply Hk, (ok_target _ Hok) in Hin as (r & e & Hr & He & Ht & Hq).
  pose proof (ok_key _ Hok _ _ Hr) as Hkey.
  exists (r :: records). cbn. rewrite Ek. cbn [mapM]. rewrite Hr. cbn. rewrite Hm. split; [done|]. constructor; [|done].
  rewrite Hkey. split; [done|]. by exists e.
Qed.

(** the view of a mailbox that a migration takes never fails: it has the mark of
    the mailbox and, in order, one record for each sequence that has a live
    delivery. *)
Theorem migration_view_complete s target :
  wal_ok epoch s ->
  exists qs records,
    migration_target_view s target = Ok (wal_issued_sequence s target, records) /\
    StronglySorted N.le qs /\ NoDup qs /\ (forall q, q ∈ qs <-> live_at s None target q) /\
    Forall2 (fun q r => submissions_by_replay_key s !! wr_replay_key r = Some r /\
      exists e, wr_entry r = Some e /\ en_target e = target /\ inbox_seq e = q) qs records.
Proof using.
  intros Hok. set (sequences := default ∅ (submissions_by_target s !! target)).
  assert (forall q keys, (q, keys) ∈ bt_entries sequences -> keys <> ∅ /\ forall k, k ∈ keys -> k ∈ keys_at (submissions_by_target s) target q) as Hen.
  { intros q keys H%elem_of_bt_entries. unfold sequences in H. destruct (submissions_by_target s !! target) as [m|] eqn:Et; [|cbn in H; by rewrite lookup_empty in H].
    split; [by apply (proj2 (ok_dense _ Hok _ _ Et) q)|]. intros k Hk. apply keys_at_elem. eauto. }
  destruct (view_records s target _ Hok Hen) as (records & Hm & Hf). exists (bt_keys sequences), records. split.
  { unfold migration_target_view, bt_values. fold sequences. by rewrite Hm. }
  split; [by apply StronglySorted_fst, bt_entries_sorted|]. split; [apply NoDup_bt_keys|]. split; [|done].
  intros q. unfold bt_keys. rewrite list_elem_of_fmap. split.
  - intros ([q' keys] & -> & H). destruct (Hen _ _ H) as [Hne Hk]. destruct (set_choose_L keys Hne) as [k Hin].
    apply Hk, (ok_target _ Hok) in Hin as (r & e & Hr & He & Ht & Hq). exists k, r, e. by do 4 (split; [done|]).
  - intros (k & r & e & Hr & He & Ht & Hq & _).
    assert (k ∈ keys_at (submissions_by_target s) target q) as Hin by (apply (ok_target _ Hok); by exists r, e).
    apply keys_at_elem in Hin as (m & keys & Hm' & Hq' & _). exists (q, keys). split; [done|]. apply elem_of_bt_entries.
    unfold sequences. by rewrite Hm'.
Qed.

Variable content_digest : Envelope -> option string.
Variable encode_base64url : string -> string.

(** The states of the index, by the operations that change it: at which times they
    read the clock, and which records are logged. *)
Inductive reaches (at_time : Z -> Prop) (logged : RouterWalSubmissionRecord -> Prop) : RouterWalState -> Prop :=
| reaches_empty : reaches at_time logged wal_empty
| reaches_log s c p location assigned :
    reaches at_time logged s -> at_time c -> logged (record_of encode_base64url p location assigned) ->
    reaches at_time logged (apply_with_sender_assignment encode_base64url content_digest c p location assigned s)
| reaches_incarnation s v conflict :
    reaches at_time logged s -> reaches at_time logged (set_wal_incarnations s v conflict)
| reaches_settle s c cursor :
    reaches at_time logged s -> at_time c -> reaches at_time logged (observe_settlement c cursor s)
| reaches_prune s c now : reaches at_time logged s -> at_time c -> reaches at_time logged (wal_prune c now s).1.

Lemma prune_index c now s : index_ok s -> index_ok (wal_prune c now s).1.
Proof using.
  intros Hs. unfold wal_prune. destruct (prune_replay _ c now s 0) as [s1 n] eqn:E. apply prune_entries_index.
  by eapply (prune_replay_keeps index_ok) in E as [Hok _]; [|done|intros; by apply index_drop|..].
Qed.

(** C20: in every state of the index, whatever records were logged and however the
    clock moved, the queue of replay windows and the index by mailbox list exactly
    the records and the deliveries they hold, receipts of senders name a record, no
    sequence of a logged delivery is above the mark of its mailbox, and every
    delivery waits in the queue of deadlines. If moreover every logged record has an
    acceptance time or an envelope that is not dated after [epoch], and the clock
    never reads a time before [epoch], the queue of deadlines is exact too: it holds
    the deadline of every delivery and nothing else. *)
Theorem indexes_agree s :
  (reaches (fun _ => True) (fun _ => True) s -> index_ok s) /\
  (reaches (fun c => epoch <= c)%Z (fun r => is_Some (wr_accepted_at r) \/
     forall e, wr_entry r = Some e -> created_at (en_envelope e) <= epoch)%Z s -> wal_ok epoch s).
Proof using.
  split.
  - induction 1 as [|s c p location assigned _ IH _ _|s v conflict _ IH|s c cursor _ IH _|s c now _ IH _].
    + apply index_empty_ok.
    + by apply index_apply.
    + by apply index_incarnations.
    + by apply (observe_keeps c index_ok); [apply index_kept|].
    + by apply prune_index.
  - induction 1 as [|s c p location assigned _ IH Hc Hf|s v conflict _ IH|s c cursor _ IH Hc|s c now _ IH Hc].
    + apply wal_empty_ok.
    + apply ok_apply; [done..|]. unfold fixed. destruct (wr_entry _) as [e|]; [|done].
      destruct Hf as [[a ->]|Hf]; [done|]. case_match; [done|]. by apply Hf.
    + by apply ok_incarnations.
    + by apply observe_ok.
    + by apply prune_ok.
Qed.

(** a delivery that was logged under the second version of its replay key, or
    under the current one, is indexed under the key that the replay guard computes
    for its envelope today. *)
Theorem logged_key_is_current source envelope p entry c location assigned s :
  wp_replay_key p = legacy_key encode_base64url source envelope \/
  wp_replay_key p = envelope_replay_tuple_key encode_base64url source envelope ->
  wp_entry p = Some entry -> en_target entry = target_delivery_id envelope ->
  submissions_by_replay_key (apply_with_sender_assignment encode_base64url content_digest c p location assigned s)
    !! envelope_replay_tuple_key encode_base64url source envelope =
  Some (mkRecord (envelope_replay_tuple_key encode_base64url source envelope) (wp_replay_expires_at p) (Some entry)
    (wp_accepted_at p) (wp_local_delivery p) location assigned).
Proof using.
  intros Hkey He Ht. destruct (apply_fields content_digest encode_base64url c p location assigned s) as (-> & _).
  assert (migrated_key encode_base64url (wp_replay_key p) (wp_entry p) = envelope_replay_tuple_key encode_base64url source envelope) as Hm.
  { unfold migrated_key. rewrite He, Ht. destruct Hkey as [-> | ->].
    - unfold legacy_key. rewrite (strip_prefix_app "envelope/v2/"). unfold envelope_replay_tuple_key. by rewrite !string_app_assoc.
    - done. }
  unfold record_of. cbn [wr_replay_key]. rewrite Hm, He. apply lookup_insert_eq.
Qed.
End index.
