(* ===== verification/WalRun.v ===== *)
(** * Runs of the router's write-ahead log

    Concrete logs: a CRC-32, a codec for the payloads that are logged here, a
    writer that rolls, a crash in the middle of a frame, and a restart. *)

From S2P Require Import Prelude OrdMap Bytes Wire Inbox Replay Wal WalSegment WalFacts WalLog WalWriter WalCrash WalRepair WalRestart WalProps.
From Stdlib Require Import Strings.Byte.

Open Scope N_scope.

(** ** CRC-32 *)

Fixpoint crc_bits (n : nat) (crc : N) : N :=
  match n with
  | O => crc
  | S n => crc_bits n (if N.testbit crc 0 then N.lxor (N.shiftr crc 1) 3988292384 else N.shiftr crc 1)
  end.

Definition crc (b : bytes) : N :=
  N.lxor (foldl (fun c x => crc_bits 8 (N.lxor c (Byte.to_N x))) U32_MAX b) U32_MAX mod 4294967296.

Lemma crc_bound b : crc b <= U32_MAX.
Proof. unfold crc, U32_MAX. pose proof (N.mod_lt (N.lxor (foldl (fun c x => crc_bits 8 (N.lxor c (Byte.to_N x))) 4294967295 b) 4294967295) 4294967296). lia. Qed.

(** The check value of CRC-32. *)
Example crc_check : crc (str "123456789") = 3421780262 /\ crc [] = 0.
Proof. by vm_compute. Qed.

(** ** What is logged *)

#[local] Instance SignatureAlg_dec : EqDecision SignatureAlg. Proof. solve_decision. Defined.
#[local] Instance SignedFields_dec : EqDecision SignedFields. Proof. solve_decision. Defined.
#[local] Instance DeliveryClass_dec : EqDecision DeliveryClass. Proof. solve_decision. Defined.
#[local] Instance Priority_dec : EqDecision Priority. Proof. solve_decision. Defined.
#[local] Instance StoredEnvelope_dec : EqDecision StoredRouterWalEnvelope. Proof. solve_decision. Defined.
#[local] Instance StoredEntry_dec : EqDecision StoredRouterWalInboxEntry. Proof. solve_decision. Defined.
#[local] Instance LocalDelivery_dec : EqDecision RouterWalLocalDelivery. Proof. solve_decision. Defined.
#[local] Instance StoredPayload_dec : EqDecision StoredRouterWalPayload. Proof. solve_decision. Defined.

Definition mail (id : string) : Envelope :=
  mkEnvelope "v" 1 "d" ∅ (mkSigned "k" Ed25519 "s") id "p" "phone" "bob" None OpaqueEvent Normal 60 100 "c" "h".

Definition first_entry : InboxEntry := mkEntry 1 "bob" (mail "m1").
Definition second_entry : InboxEntry := mkEntry 2 "bob" (mail "m2").

Definition first_mail : RouterWalPayload :=
  mkSubmission "envelope/v3/phone/m1/bob" 400 (Some first_entry) (Some 100%Z) (Some (mkLocalDelivery "root" "m1" "bob")).
Definition second_mail : RouterWalPayload :=
  mkSubmission "envelope/v3/phone/m2/bob" 500 (Some second_entry) (Some 110%Z) None.

Definition id0 : string := "0123456789abcdef0123456789abcdef".

(** No extensions are logged here. *)
Definition no_ext (m : gmap string Value) : option bytes := None.
Definition no_ext_back (b : bytes) : option (gmap string Value) := None.

(** A codec for the two payloads. *)
Definition stored_form (p : RouterWalPayload) : option StoredRouterWalPayload :=
  match stored_payload no_ext p with Ok st => Some (Incarnated id0 st) | Err _ => None end.

Definition to_bytes (p : StoredRouterWalPayload) : option bytes :=
  if decide (Some p = stored_form first_mail) then Some (str "first") else
  if decide (Some p = stored_form second_mail) then Some (str "second") else None.

Definition of_bytes (b : bytes) : option StoredRouterWalPayload :=
  if decide (b = str "first") then stored_form first_mail else
  if decide (b = str "second") then stored_form second_mail else None.

Lemma codec_roundtrip p b : to_bytes p = Some b -> of_bytes b = Some p.
Proof.
  unfold to_bytes, of_bytes. case_decide as H1; [intros [= <-]; by rewrite decide_True|].
  case_decide as H2; [|done]. intros [= <-]. rewrite decide_False by done. by rewrite decide_True.
Qed.

Lemma no_ext_roundtrip m b : no_ext m = Some b -> no_ext_back b = Some m.
Proof. done. Qed.

Definition draw (target : string) : option string := Some id0.

Lemma draw_valid target id : draw target = Some id -> valid_incarnation id = true.
Proof. intros [= <-]. by vm_compute. Qed.

Definition same_text (s : string) : string := s.
Definition digest_of (e : Envelope) : option string := Some (payload_hash e).

(** ** A run of the writer *)

Definition association0 : Association := mkAssociation (mkMetadata 1 id0 false ∅) ∅.

(** Segments of 90 bytes hold one record each. *)
Definition writer0 : RouterWalWriterState :=
  match writer_open "shard" 0 90 0 100 (Some association0) ∅ with Ok w => w | Err _ => mkWriter "" 0 0 0 0 None true 0 ∅ end.

Definition append1 : RouterWalWriterState * result NodeCoreError RouterWalRecordLocation :=
  append_payload no_ext crc to_bytes draw 100 first_mail writer0.
Definition writer1 : RouterWalWriterState := sync_current append1.1.
Definition append2 : RouterWalWriterState * result NodeCoreError RouterWalRecordLocation :=
  append_payload no_ext crc to_bytes draw 100 second_mail writer1.

(** The first record is in segment 0 behind the header, the second one in segment 1. *)
Example places : append1.2 = Ok (mkLocation 0 70 5) /\ append2.2 = Ok (mkLocation 1 70 6).
Proof. by vm_compute. Qed.

(** The crash cuts the second record after three bytes. *)
Definition image : gmap N bytes := <[1 := take 73 (default [] (sf_bytes <$> w_files append2.1 !! 1))]> (sf_bytes <$> w_files append2.1).

Definition note1 : Note := (first_mail, Some id0, mkLocation 0 70 5).
Definition note2 : Note := (second_mail, Some id0, mkLocation 1 70 6).

Lemma association0_ok : association_ok' (Some association0).
Proof. intros ? [= <-]. split; [by vm_compute|]. split; cbn; intros ? ? H; by rewrite lookup_empty in H. Qed.

Lemma opens0 : opens crc [] writer0.
Proof. exists "shard", 90, 100%Z, (Some association0). split; [apply association0_ok|]. split; [done|]. by vm_compute. Qed.

Lemma log_ok_nil : log_ok no_ext crc to_bytes [].
Proof. split; [constructor|]. split; constructor. Qed.

Lemma writes1 : writes no_ext crc to_bytes draw [] writer1 [note1] [note1].
Proof.
  pose proof (writes_append no_ext crc to_bytes draw [] writer0 [] [] 100 first_mail append1.1 (mkLocation 0 70 5)
    (writes_open _ _ _ _ _ _ log_ok_nil opens0)) as H.
  assert (incarnation_of (w_association append1.1) first_mail = Some id0) as Hid by by vm_compute. rewrite Hid in H.
  eapply writes_sync, H; [left; eauto|by vm_compute|by vm_compute].
Qed.

Lemma writes2 : writes no_ext crc to_bytes draw [] append2.1 [note1] [note1; note2].
Proof.
  pose proof (writes_append no_ext crc to_bytes draw [] writer1 [note1] [note1] 100 second_mail append2.1 (mkLocation 1 70 6) writes1) as H.
  assert (incarnation_of (w_association append2.1) second_mail = Some id0) as Hid by by vm_compute. rewrite Hid in H.
  apply H; [left; eauto|by vm_compute|by vm_compute].
Qed.

Lemma torn2 : map_Forall2 (fun _ => torn) (w_files append2.1) image.
Proof.
  intros i. unfold image. destruct (decide (i = 1)) as [->|Hi].
  - rewrite lookup_insert_eq. assert (exists f, w_files append2.1 !! 1 = Some f /\ (sf_synced f <= 73)%nat) as (f & Hf & Hs).
    { eexists. split; [by vm_compute|]. vm_compute. lia. }
    rewrite Hf. constructor. exists 73%nat. split; [exact Hs|reflexivity].
  - rewrite lookup_insert_ne by done. rewrite lookup_fmap. destruct (w_files append2.1 !! i) as [f|] eqn:Hf; [|constructor].
    constructor. exists (length (sf_bytes f) `max` sf_synced f)%nat. split; [lia|]. by rewrite firstn_all2 by lia.
Qed.

(** The crash hits while a third segment gets its header: 40 of its 70 bytes are
    there, and its head is recorded already. *)
Definition third_header : bytes := wal_header (w_association append2.1) "shard" 2.
Definition rolling_image : gmap N bytes := <[2 := take 40 third_header]> image.
Definition rolling_association : option Association := record_head "shard" 2 <$> w_association append2.1.

Lemma rolling_crash : crash_image append2.1 rolling_image.
Proof.
  exists image. split; [exact torn2|]. right. exists (take 40 third_header). split; [|split; [by vm_compute|done]].
  right. assert (exists a, w_association append2.1 = Some a) as [a Ha] by (eexists; by vm_compute).
  exists a. split; [done|]. left. rewrite <- Ha. exists (drop 40 third_header). rewrite take_drop. by vm_compute.
Qed.

Lemma recorded2 : recorded append2.1.
Proof.
  intros a Ha. exists (mkChain 0 1 [] 0). split; [|split; [|split; [constructor|]]].
  - assert ((w_association append2.1 ≫= fun a => md_chains (as_metadata a) !! w_root append2.1) = Some (mkChain 0 1 [] 0)) as H by by vm_compute.
    by rewrite Ha in H.
  - intros i f _. cbn. lia.
  - apply (bool_decide_unpack _). by vm_compute.
Qed.

Lemma committed2 : committed append2.1 rolling_association.
Proof. right. by vm_compute. Qed.

Lemma acknowledged_survives_crash_witness :
  exists recovered shard dir',
    [note1] `prefix_of` recovered /\ recovered `prefix_of` [note1; note2] /\
    let s := foldl (replay_note same_text digest_of 120) wal_empty recovered in
    (exists differs, restart no_ext_back same_text digest_of crc of_bytes 120 rolling_association (w_root append2.1) rolling_image wal_empty =
      (s, Ok (differs, shard, dir'))) /\
    exists differs dir'', restart no_ext_back same_text digest_of crc of_bytes 120 rolling_association (w_root append2.1) dir' wal_empty =
      (s, Ok (differs, shard, dir'')).
Proof.
  exact (acknowledged_survives_crash no_ext no_ext_back same_text digest_of crc to_bytes of_bytes draw
    no_ext_roundtrip codec_roundtrip crc_bound draw_valid [] append2.1 [note1] [note1; note2] rolling_image rolling_association 120
    writes2 recorded2 committed2 rolling_crash).
Defined.

(** The start keeps the first record, cuts the second segment behind its header and
    completes the header of the third; the next one finds nothing to repair. *)
Example restarted_image :
  match restart no_ext_back same_text digest_of crc of_bytes 120 rolling_association "shard" rolling_image wal_empty with
  | (s, Ok (differs, shard, dir')) =>
      bt_keys (submissions_by_replay_key s) = ["envelope/v3/phone/m1/bob"] /\ differs = false /\ shard = mkShard (Some 2) 70 /\
      length <$> bt_values dir' = [83; 70; 70]%nat /\ dir' !! 2 = Some third_header
  | _ => False
  end.
Proof. vm_compute. done. Qed.

(** ** A restart *)

(** The files as they are. *)
Lemma crashed_whole w : crashed w (sf_bytes <$> w_files w).
Proof.
  exists (sf_bytes <$> w_files w). split; [|by left]. intros i. rewrite lookup_fmap. destruct (w_files w !! i) as [f|]; constructor.
  exists (length (sf_bytes f) `max` sf_synced f)%nat. split; [lia|]. by rewrite firstn_all2 by lia.
Qed.

Definition prepare1 : result NodeCoreError (option Association * RouterWalState) :=
  prepare_sender_identity draw (Some first_entry) (w_association writer0) wal_empty.
Definition ready : RouterWalWriterState * RouterWalState :=
  match prepare1 with Ok (a, s) => (set_w_association writer0 a, s) | Err _ => (writer0, wal_empty) end.
Definition batch1 : RouterWalWriterState * result NodeCoreError (list RouterWalRecordLocation) :=
  append_batch no_ext crc to_bytes draw 100 [first_mail] ready.1.
Definition indexed1 : RouterWalState := ack_success same_text digest_of 100 [first_mail] [mkLocation 0 70 5] ready.2.

Lemma prepared1 : Forall (prepared ready.1 ready.2) [first_mail].
Proof. apply Forall_singleton. split; [eauto|]. intros e [= <-]. right. exists id0. by vm_compute. Qed.

Lemma runs1 : runs no_ext same_text digest_of crc to_bytes draw 0 [] (mkSystem batch1.1 indexed1) [note1].
Proof.
  pose proof (runs_start no_ext same_text digest_of crc to_bytes draw 0 [] writer0 100 log_ok_nil opens0
    (Forall_nil_2 _) ltac:(done)) as H0.
  pose proof (runs_prepare _ _ _ _ _ _ _ _ _ _ _ (Some first_entry) (w_association ready.1) ready.2 H0) as H1.
  assert (prepare_sender_identity draw (Some first_entry) (w_association writer0) wal_empty = Ok (w_association ready.1, ready.2)) as Hp by by vm_compute.
  specialize (H1 Hp). change (set_w_association writer0 (w_association ready.1)) with ready.1 in H1.
  pose proof (runs_batch _ _ _ _ _ _ _ _ _ _ _ 100 100 [first_mail] batch1.1 [mkLocation 0 70 5] H1 prepared1) as H2.
  assert (incarnation_of (w_association ready.1) first_mail = Some id0) as Hid by by vm_compute.
  cbn [zip_with app] in H2. unfold note_of in H2. rewrite Hid in H2. apply H2; by vm_compute.
Qed.

Lemma restart_resumes_witness :
  exists recovered shard dir',
    recover_router_wal_directory no_ext_back same_text digest_of crc of_bytes 120 (sf_bytes <$> w_files batch1.1) None wal_empty =
      (recovered, Ok (shard, dir')) /\
    (forall k r, submissions_by_replay_key indexed1 !! k = Some r ->
      exists r', submissions_by_replay_key recovered !! k = Some r' /\ within r r') /\
    (forall root envelope now a, sender_assignment indexed1 root envelope now = Some a ->
      sender_assignment recovered root envelope now = Some a) /\
    (forall target, wal_issued_sequence recovered target = wal_issued_sequence indexed1 target).
Proof.
  exact (restart_resumes no_ext no_ext_back same_text digest_of crc to_bytes of_bytes draw
    no_ext_roundtrip codec_roundtrip crc_bound draw_valid 0 [] batch1.1 indexed1 [note1] _ 120 runs1 (crashed_whole _) ltac:(done)).
Defined.

(** The retry of the first message is answered with its assignment. *)
Example retry_answered :
  sender_assignment indexed1 "root" (mail "m1") 150 = Some (mkAssignment "bob" id0 1 160 "h") /\ wal_issued_sequence indexed1 "bob" = 1.
Proof. by vm_compute. Qed.

(** ** The index *)

Definition indexed2 : RouterWalState :=
  apply_with_sender_assignment same_text digest_of 110 second_mail (mkLocation 1 70 6) true
    (apply_with_sender_assignment same_text digest_of 100 first_mail (mkLocation 0 70 5) true wal_empty).

Lemma indexed2_ok : wal_ok 0 indexed2.
Proof. apply ok_apply; [apply ok_apply; [apply wal_empty_ok|done|done]|done|done]. Qed.

Lemma indexes_agree_witness : index_ok indexed2 /\ wal_ok 0 indexed2.
Proof.
  destruct (indexes_agree 0 digest_of same_text indexed2) as [Hindex Hexact]. split.
  - apply Hindex. by repeat constructor.
  - apply Hexact. repeat constructor; try done; by eexists.
Defined.

(** At 450 the replay window of the first message is over, and the second message
    is past its deadline. *)
Definition pruned2 : RouterWalState * nat := wal_prune 450 450 indexed2.

Example pruned2_keys : bt_keys (submissions_by_replay_key pruned2.1) = ["envelope/v3/phone/m2/bob"] /\ pruned2.2 = 2%nat.
Proof. by vm_compute. Qed.


(** The cursor of the mailbox after the first message. *)
Definition cursor1 : CursorAckState := set_settled_inbox_seq (cursor_new "bob") 1.

Lemma settlement_exact_witness :
  let s' := observe_settlement 120 cursor1 indexed2 in
  wal_ok 0 s' /\ same_receipts indexed2 s' /\
  submissions_by_replay_key s' = observed cursor1 <$> submissions_by_replay_key indexed2 /\
  (forall q, settles cursor1 q -> keys_at (submissions_by_target s') (cur_target cursor1) q = ∅) /\
  (forall target q, target <> cur_target cursor1 \/ ~ settles cursor1 q ->
    keys_at (submissions_by_target s') target q = keys_at (submissions_by_target indexed2) target q).
Proof. exact (settlement_exact 0 indexed2 120 cursor1 indexed2_ok ltac:(done)). Defined.

Example head_after_first : settlement_head 120 indexed2 cursor1 1 (Some 120%Z) = Some 2.
Proof. by vm_compute. Qed.

Lemma settlement_head_exact_witness :
  let candidate q := 1 < q /\ live_at 0 indexed2 (Some 120%Z) (cur_target cursor1) q /\ retires cursor1 q = false in
  match settlement_head 120 indexed2 cursor1 1 (Some 120%Z) with
  | Some q => candidate q /\ forall q', candidate q' -> q <= q'
  | None => forall q, ~ candidate q
  end.
Proof. exact (settlement_head_exact 0 indexed2 120 cursor1 1 (Some 120%Z) indexed2_ok ltac:(done)). Defined.

Lemma migration_view_complete_witness :
  exists qs records,
    migration_target_view indexed2 "bob" = Ok (wal_issued_sequence indexed2 "bob", records) /\
    StronglySorted N.le qs /\ NoDup qs /\ (forall q, q ∈ qs <-> live_at 0 indexed2 None "bob" q) /\
    Forall2 (fun q r => submissions_by_replay_key indexed2 !! wr_replay_key r = Some r /\
      exists e, wr_entry r = Some e /\ en_target e = "bob" /\ inbox_seq e = q) qs records.
Proof. exact (migration_view_complete 0 indexed2 "bob" indexed2_ok). Defined.

(** ** Keys of the second version *)

Definition phone : RootQualifiedDeviceRef := mkDeviceRef "root" "phone" "phone".

Definition old_mail : RouterWalPayload := mkSubmission (legacy_key same_text phone (mail "m1")) 400 (Some first_entry) None None.

Lemma logged_key_is_current_witness :
  wp_replay_key old_mail = "envelope/v2/phone/m1" /\
  submissions_by_replay_key (apply_with_sender_assignment same_text digest_of 100 old_mail (mkLocation 0 22 5) false wal_empty)
    !! envelope_replay_tuple_key same_text phone (mail "m1") =
  Some (mkRecord (envelope_replay_tuple_key same_text phone (mail "m1")) 400 (Some first_entry) None None (mkLocation 0 22 5) false).
Proof.
  exact (conj eq_refl (logged_key_is_current digest_of same_text phone (mail "m1") old_mail first_entry 100 (mkLocation 0 22 5) false wal_empty
    (or_introl eq_refl) eq_refl eq_refl)).
Defined.

(** ** Records without acceptance time *)

(** An envelope dated ten seconds ahead, with the longest lifetime. *)
Definition ahead : Envelope :=
  mkEnvelope "v" 1 "d" ∅ (mkSigned "k" Ed25519 "s") "m3" "p" "phone" "bob" None OpaqueEvent Normal 4000000 110 "c" "h".
Definition undated : RouterWalPayload := mkSubmission "key" 9000000 (Some (mkEntry 3 "bob" ahead)) None None.

(** Its deadline moves with the clock: indexed at 100 and settled at 105, it stays in
    the queue although no delivery is left. *)
Example undated_deadline_moves :
  let s := apply_with_sender_assignment same_text digest_of 100 undated (mkLocation 0 22 5) true wal_empty in
  let s' := observe_settlement 105 (set_settled_inbox_seq (cursor_new "bob") 3) s in
  wr_entry <$> bt_values (submissions_by_replay_key s') = [None] /\ size (entry_due s') = 1%nat.
Proof. by vm_compute. Qed.

(** ** Zero bytes *)

(** A segment with the first record. *)
Definition segment1 : SegmentLog :=
  mkSegmentLog 0 ROUTER_WAL_MAGIC [mkLogged first_mail (Some id0) (str "first") (mkLocation 0 22 5)].

Lemma segment1_ok : segment_ok no_ext crc to_bytes segment1.
Proof.
  split; [by left|]. split; [|split; [done|by vm_compute]]. apply Forall_singleton.
  destruct (stored_payload no_ext first_mail) as [st|] eqn:E; [|done]. exists st. split; [done|]. split; [|split; [done|split; [left; eauto|]]].
  - cbn. unfold to_bytes, stored_form. rewrite E. by rewrite decide_True.
  - intros id [= <-]. split; [by vm_compute|eauto].
Qed.

Lemma zero_tail_refused_witness :
  exists s', recover_router_wal_segment no_ext_back same_text digest_of crc of_bytes 120 0 true
    (segment_bytes_of crc segment1 ++ repeat Byte.x00 4096) wal_empty = (s', Err SnapshotSerialization).
Proof.
  exact (zero_tail_refused no_ext no_ext_back same_text digest_of crc to_bytes of_bytes no_ext_roundtrip codec_roundtrip crc_bound
    120 true segment1 4096 wal_empty (proj2 crc_check) eq_refl segment1_ok ltac:(lia)).
Defined.
