(* ===== verification/Rfs1.v ===== *)
(** * RFS1 documents

    ramflux-protocol/src/dm_fs_v3/codec.rs: the scanner of the prekey
    documents. A document is a header, a field count and, for every field its
    type prescribes, an id, a length and a value; values may be nested
    documents. Bytes are [Byte.byte]; lengths read from the input are [N], as
    an attacker chooses them.

    [scan_fuel] recurses on the nesting depth. The layout tables bound that
    depth, see [nesting_bounded] in Rfs1Props.v, and [scan] starts with enough. *)

From S2P Require Import Prelude OrdMap Bytes.
From Stdlib Require Import Strings.Byte.

Open Scope N_scope.

(** ** Data *)

Inductive DecodeError :=
| TypeCeiling | Truncated | Header | Fields | FieldCeiling | ValueError | Count | Trailing.

#[export] Instance DecodeError_eq_dec : EqDecision DecodeError.
Proof. solve_decision. Defined.

Inductive WireType :=
| QualifiedBranch | SignedNativePrekeyBase | SignedNativeOpk | RetirementRef | OwnerPrekeyUpdate
| PrekeyPublicationSnapshot | PublicPrekeyView | PrekeyLeaseIntent | PrekeyLeaseResult
| OwnerStatusQuery | OwnerStatusEntry | OwnerPrekeyStatus | NativePrekeyRequest
| NativePrekeyLease | NativePrekeyPublish | NativePrekeyStatus | NativePrekeyResult
| BootstrapHeader | BootstrapTranscript.

#[export] Instance WireType_eq_dec : EqDecision WireType.
Proof. solve_decision. Defined.

(** [kind as u8] *)
Definition type_code (k : WireType) : N :=
  match k with
  | QualifiedBranch => 1 | SignedNativePrekeyBase => 2 | SignedNativeOpk => 3
  | RetirementRef => 4 | OwnerPrekeyUpdate => 5 | PrekeyPublicationSnapshot => 6
  | PublicPrekeyView => 7 | PrekeyLeaseIntent => 8 | PrekeyLeaseResult => 9
  | OwnerStatusQuery => 10 | OwnerStatusEntry => 11 | OwnerPrekeyStatus => 12
  | NativePrekeyRequest => 13 | NativePrekeyLease => 14 | NativePrekeyPublish => 15
  | NativePrekeyStatus => 16 | NativePrekeyResult => 17 | BootstrapHeader => 18
  | BootstrapTranscript => 19
  end.

(** [WireType::try_from] *)
Definition type_of_code (code : N) : result DecodeError WireType :=
  match code with
  | 1 => Ok QualifiedBranch | 2 => Ok SignedNativePrekeyBase | 3 => Ok SignedNativeOpk
  | 4 => Ok RetirementRef | 5 => Ok OwnerPrekeyUpdate | 6 => Ok PrekeyPublicationSnapshot
  | 7 => Ok PublicPrekeyView | 8 => Ok PrekeyLeaseIntent | 9 => Ok PrekeyLeaseResult
  | 10 => Ok OwnerStatusQuery | 11 => Ok OwnerStatusEntry | 12 => Ok OwnerPrekeyStatus
  | 13 => Ok NativePrekeyRequest | 14 => Ok NativePrekeyLease | 15 => Ok NativePrekeyPublish
  | 16 => Ok NativePrekeyStatus | 17 => Ok NativePrekeyResult | 18 => Ok BootstrapHeader
  | 19 => Ok BootstrapTranscript
  | _ => Err Header
  end.

Inductive Kind :=
| KFixed (width : N) | KText | KProfile | KCode | KBytes | KNested (k : WireType)
| KOptionalFixed (width : N) | KOptionalNested (k : WireType) | KList (max : N) (k : WireType).

Record Spec := mkSpec { sp_id : N; sp_max : N; sp_kind : Kind }.

Definition ceiling (k : WireType) : N :=
  match k with
  | QualifiedBranch | SignedNativeOpk | RetirementRef | OwnerStatusEntry => 1024
  | SignedNativePrekeyBase | PublicPrekeyView | PrekeyLeaseIntent => 2048
  | OwnerPrekeyUpdate => 50176
  | PrekeyPublicationSnapshot => 81920
  | PrekeyLeaseResult => 4096
  | OwnerStatusQuery => 17408
  | OwnerPrekeyStatus => 25600
  | NativePrekeyRequest => 3072
  | NativePrekeyLease => 5120
  | NativePrekeyPublish => 53248
  | NativePrekeyStatus => 19456
  | NativePrekeyResult => 26624
  | BootstrapHeader => 8192
  | BootstrapTranscript => 12288
  end.

(** ** Layout tables *)

(** The layouts of prekey records, leases and status. *)
Definition record_specs (k : WireType) : list Spec :=
  match k with
  | QualifiedBranch =>
      [mkSpec 1 32 (KFixed 32);
       mkSpec 2 256 KText;
       mkSpec 3 256 KText;
       mkSpec 4 8 (KFixed 8);
       mkSpec 5 32 (KFixed 32);
       mkSpec 6 32 (KFixed 32);
       mkSpec 7 32 (KFixed 32);
       mkSpec 8 32 (KFixed 32)]
  | SignedNativePrekeyBase =>
      [mkSpec 1 64 KProfile;
       mkSpec 2 1024 (KNested QualifiedBranch);
       mkSpec 3 8 (KFixed 8);
       mkSpec 4 32 (KFixed 32);
       mkSpec 5 8 (KFixed 8);
       mkSpec 6 32 (KFixed 32);
       mkSpec 7 8 (KFixed 8);
       mkSpec 8 8 (KFixed 8);
       mkSpec 9 8 (KFixed 8);
       mkSpec 10 64 KCode;
       mkSpec 11 64 (KFixed 64)]
  | SignedNativeOpk =>
      [mkSpec 1 64 KProfile;
       mkSpec 2 32 (KFixed 32);
       mkSpec 3 8 (KFixed 8);
       mkSpec 4 8 (KFixed 8);
       mkSpec 5 32 (KFixed 32);
       mkSpec 6 32 (KFixed 32);
       mkSpec 7 64 (KFixed 64)]
  | RetirementRef =>
      [mkSpec 1 8 (KFixed 8);
       mkSpec 2 8 (KFixed 8);
       mkSpec 3 32 (KFixed 32)]
  | OwnerPrekeyUpdate =>
      [mkSpec 1 64 KProfile;
       mkSpec 2 2048 (KNested SignedNativePrekeyBase);
       mkSpec 3 8 (KFixed 8);
       mkSpec 4 16386 (KList 64 SignedNativeOpk);
       mkSpec 5 31202 (KList 400 RetirementRef);
       mkSpec 6 64 (KFixed 64)]
  | PrekeyPublicationSnapshot =>
      [mkSpec 1 64 KProfile;
       mkSpec 2 50176 (KNested OwnerPrekeyUpdate);
       mkSpec 3 8 (KFixed 8);
       mkSpec 4 8 (KFixed 8);
       mkSpec 5 8 (KFixed 8);
       mkSpec 6 31202 (KList 400 RetirementRef);
       mkSpec 7 32 (KFixed 32)]
  | PublicPrekeyView =>
      [mkSpec 1 64 KProfile;
       mkSpec 2 2048 (KNested SignedNativePrekeyBase);
       mkSpec 3 1024 (KNested QualifiedBranch);
       mkSpec 4 8 (KFixed 8)]
  | PrekeyLeaseIntent =>
      [mkSpec 1 64 KProfile;
       mkSpec 2 1024 (KNested QualifiedBranch);
       mkSpec 3 1024 (KNested QualifiedBranch);
       mkSpec 4 32 (KFixed 32);
       mkSpec 5 8 (KFixed 8);
       mkSpec 6 8 (KFixed 8);
       mkSpec 7 8 (KFixed 8);
       mkSpec 8 32 (KFixed 32)]
  | PrekeyLeaseResult =>
      [mkSpec 1 64 KProfile;
       mkSpec 2 2048 (KNested SignedNativePrekeyBase);
       mkSpec 3 1025 (KOptionalNested SignedNativeOpk);
       mkSpec 4 1024 (KNested QualifiedBranch);
       mkSpec 5 1024 (KNested QualifiedBranch);
       mkSpec 6 32 (KFixed 32);
       mkSpec 7 8 (KFixed 8);
       mkSpec 8 8 (KFixed 8);
       mkSpec 9 8 (KFixed 8);
       mkSpec 10 64 KCode;
       mkSpec 11 64 (KFixed 64)]
  | OwnerStatusQuery =>
      [mkSpec 1 64 KProfile;
       mkSpec 2 1024 (KNested QualifiedBranch);
       mkSpec 3 15602 (KList 200 RetirementRef)]
  | OwnerStatusEntry =>
      [mkSpec 1 32 (KFixed 32);
       mkSpec 2 8 (KFixed 8);
       mkSpec 3 8 (KFixed 8);
       mkSpec 4 8 (KFixed 8);
       mkSpec 5 8 (KFixed 8);
       mkSpec 6 64 KCode]
  | OwnerPrekeyStatus =>
      [mkSpec 1 64 KProfile;
       mkSpec 2 1024 (KNested QualifiedBranch);
       mkSpec 3 32 (KFixed 32);
       mkSpec 4 8 (KFixed 8);
       mkSpec 5 8 (KFixed 8);
       mkSpec 6 8 (KFixed 8);
       mkSpec 7 32 (KFixed 32);
       mkSpec 8 8 (KFixed 8);
       mkSpec 9 24002 (KList 200 OwnerStatusEntry);
       mkSpec 10 64 (KFixed 64)]
  | _ => []
  end.

(** The layouts of requests and of the bootstrap header and transcript. *)
Definition request_specs (k : WireType) : list Spec :=
  match k with
  | NativePrekeyRequest =>
      [mkSpec 1 64 KProfile;
       mkSpec 2 64 KCode;
       mkSpec 3 32 (KFixed 32);
       mkSpec 4 1024 (KNested QualifiedBranch);
       mkSpec 5 1024 (KNested QualifiedBranch);
       mkSpec 6 8 (KFixed 8);
       mkSpec 7 256 KText;
       mkSpec 8 32 (KFixed 32);
       mkSpec 9 256 KText;
       mkSpec 10 256 KText;
       mkSpec 11 32 (KFixed 32);
       mkSpec 12 8 (KFixed 8);
       mkSpec 13 8 (KFixed 8);
       mkSpec 14 64 (KFixed 64)]
  | NativePrekeyLease =>
      [mkSpec 1 32 (KFixed 32);
       mkSpec 2 3072 (KNested NativePrekeyRequest);
       mkSpec 3 2048 (KNested PrekeyLeaseIntent)]
  | NativePrekeyPublish =>
      [mkSpec 1 32 (KFixed 32);
       mkSpec 2 3072 (KNested NativePrekeyRequest);
       mkSpec 3 50176 (KNested OwnerPrekeyUpdate)]
  | NativePrekeyStatus =>
      [mkSpec 1 32 (KFixed 32);
       mkSpec 2 3072 (KNested NativePrekeyRequest);
       mkSpec 3 17408 (KNested OwnerStatusQuery)]
  | NativePrekeyResult =>
      [mkSpec 1 32 (KFixed 32);
       mkSpec 2 32 (KFixed 32);
       mkSpec 3 64 KCode;
       mkSpec 4 4097 (KOptionalNested PrekeyLeaseResult);
       mkSpec 5 25601 (KOptionalNested OwnerPrekeyStatus);
       mkSpec 6 64 KCode;
       mkSpec 7 64 KCode;
       mkSpec 8 4 (KFixed 4);
       mkSpec 9 256 KText;
       mkSpec 10 256 KText]
  | BootstrapHeader =>
      [mkSpec 1 64 KProfile;
       mkSpec 2 1024 (KNested QualifiedBranch);
       mkSpec 3 1024 (KNested QualifiedBranch);
       mkSpec 4 2048 (KNested SignedNativePrekeyBase);
       mkSpec 5 32 (KFixed 32);
       mkSpec 6 32 (KFixed 32);
       mkSpec 7 32 (KFixed 32);
       mkSpec 8 8 (KFixed 8);
       mkSpec 9 8 (KFixed 8);
       mkSpec 10 33 (KOptionalFixed 32);
       mkSpec 11 33 (KOptionalFixed 32);
       mkSpec 12 32 (KFixed 32);
       mkSpec 13 32 (KFixed 32);
       mkSpec 14 32 (KFixed 32);
       mkSpec 15 8 (KFixed 8);
       mkSpec 16 8 (KFixed 8);
       mkSpec 17 32 (KFixed 32);
       mkSpec 18 256 KText;
       mkSpec 19 8 (KFixed 8);
       mkSpec 20 8 (KFixed 8);
       mkSpec 21 8 (KFixed 8);
       mkSpec 22 4096 KBytes]
  | BootstrapTranscript =>
      [mkSpec 1 64 KProfile;
       mkSpec 2 8192 (KNested BootstrapHeader);
       mkSpec 3 8 (KFixed 8);
       mkSpec 4 8 (KFixed 8);
       mkSpec 5 4096 KBytes]
  | _ => []
  end.

Definition specs (k : WireType) : list Spec :=
  match k with
  | NativePrekeyRequest | NativePrekeyLease | NativePrekeyPublish | NativePrekeyStatus | NativePrekeyResult
  | BootstrapHeader | BootstrapTranscript => request_specs k
  | _ => record_specs k
  end.

(** [b"ramflux.dm.bootstrap.fs.v1"] *)
Notation PROFILE := (String.list_byte_of_string "ramflux.dm.bootstrap.fs.v1") (only parsing).

(** ** Text *)

(** [std::str::from_utf8] followed by [chars()]: well-formed UTF-8 only, without
    overlong forms, surrogates or values above U+10FFFF. *)
Definition continuation (b : Byte.byte) : option N :=
  let n := Byte.to_N b in
  if decide (128 <= n < 192) then Some (n - 128) else None.

Fixpoint utf8_chars (fuel : nat) (l : bytes) : option (list N) :=
  match fuel, l with
  | _, [] => Some []
  | O, _ :: _ => None
  | S fuel, b :: l =>
      let n := Byte.to_N b in
      if decide (n < 128) then cons n <$> utf8_chars fuel l else
      if decide (194 <= n < 224) then
        match l with
        | b1 :: l =>
            match continuation b1 with
            | Some c1 => cons ((n - 192) * 64 + c1) <$> utf8_chars fuel l
            | None => None
            end
        | _ => None
        end
      else if decide (224 <= n < 240) then
        match l with
        | b1 :: b2 :: l =>
            match continuation b1, continuation b2 with
            | Some c1, Some c2 =>
                let c := (n - 224) * 4096 + c1 * 64 + c2 in
                if decide (2048 <= c /\ ~ (55296 <= c < 57344))
                then cons c <$> utf8_chars fuel l else None
            | _, _ => None
            end
        | _ => None
        end
      else if decide (240 <= n < 245) then
        match l with
        | b1 :: b2 :: b3 :: l =>
            match continuation b1, continuation b2, continuation b3 with
            | Some c1, Some c2, Some c3 =>
                let c := (n - 240) * 262144 + c1 * 4096 + c2 * 64 + c3 in
                if decide (65536 <= c < 1114112) then cons c <$> utf8_chars fuel l else None
            | _, _, _ => None
            end
        | _ => None
        end
      else None
  end.

Definition from_utf8 (l : bytes) : option (list N) := utf8_chars (length l) l.

(** [char::is_control]: the C0 and C1 control characters. *)
Definition is_control (c : N) : bool := bool_decide (c < 32 \/ 127 <= c < 160).

Definition valid_custody_id (l : bytes) (chars : list N) : bool :=
  negb (bool_decide (l = [])) && bool_decide (length l <= 256)%nat && negb (existsb is_control chars).

(** ** The cursor *)

Definition take_bytes (n : N) (cursor : bytes) : result DecodeError (bytes * bytes) :=
  if decide (N.of_nat (length cursor) < n) then Err Truncated
  else Ok (take (N.to_nat n) cursor, drop (N.to_nat n) cursor).

Definition read_be (width : N) (cursor : bytes) : result DecodeError (N * bytes) :=
  match take_bytes width cursor with
  | Ok (l, rest) => Ok (be_to_N l, rest)
  | Err e => Err e
  end.
Notation read_u16 := (read_be 2).
Notation read_u32 := (read_be 4).

Definition finish_cursor (cursor : bytes) : result DecodeError unit :=
  match cursor with [] => Ok tt | _ => Err Trailing end.

(** ** Scanning *)

Section layer.
(** Scanning of nested documents. *)
Variable nested : WireType -> bytes -> result DecodeError unit.

(** The kinds that are not optional or lists. *)
Definition validate_plain (k : Kind) (value : bytes) : result DecodeError unit :=
  match k with
  | KFixed width => if decide (N.of_nat (length value) = width) then Ok tt else Err ValueError
  | KProfile => if decide (value = PROFILE) then Ok tt else Err ValueError
  | KText =>
      match from_utf8 value with
      | Some chars => if valid_custody_id value chars then Ok tt else Err ValueError
      | None => Err ValueError
      end
  | KCode =>
      match from_utf8 value with
      | Some chars => if existsb is_control chars then Err ValueError else Ok tt
      | None => Err ValueError
      end
  | KNested k => nested k value
  | _ => Ok tt
  end.

Definition optional (k : Kind) (value : bytes) : result DecodeError unit :=
  match value with
  | [] => Err ValueError
  | tag :: body =>
      if decide (Byte.to_N tag = 0 /\ body = []) then Ok tt
      else if decide (Byte.to_N tag = 1) then validate_plain k body
      else Err ValueError
  end.

Fixpoint scan_items (count : nat) (k : WireType) (cursor : bytes) : result DecodeError unit :=
  match count with
  | O => finish_cursor cursor
  | S count =>
      match read_u32 cursor with
      | Err e => Err e
      | Ok (len, cursor) =>
          if decide (ceiling k < len) then Err FieldCeiling else
          match take_bytes len cursor with
          | Err e => Err e
          | Ok (item, cursor) =>
              match nested k item with
              | Err e => Err e
              | Ok _ => scan_items count k cursor
              end
          end
      end
  end.

Definition validate_value (k : Kind) (value : bytes) : result DecodeError unit :=
  match k with
  | KOptionalFixed width => optional (KFixed width) value
  | KOptionalNested k => optional (KNested k) value
  | KList max k =>
      match read_u16 value with
      | Err e => Err e
      | Ok (count, cursor) =>
          if decide (max < count) then Err Count else scan_items (N.to_nat count) k cursor
      end
  | k => validate_plain k value
  end.

Fixpoint scan_fields (l : list Spec) (cursor : bytes) : result DecodeError unit :=
  match l with
  | [] => finish_cursor cursor
  | spec :: l =>
      match read_u16 cursor with
      | Err e => Err e
      | Ok (id, cursor) =>
          if decide (id = sp_id spec) then
            match read_u32 cursor with
            | Err e => Err e
            | Ok (len, cursor) =>
                if decide (sp_max spec < len) then Err FieldCeiling else
                match take_bytes len cursor with
                | Err e => Err e
                | Ok (value, cursor) =>
                    match validate_value (sp_kind spec) value with
                    | Err e => Err e
                    | Ok _ => scan_fields l cursor
                    end
                end
            end
          else Err Fields
      end
  end.

Definition scan_layer (k : WireType) (input : bytes) : result DecodeError unit :=
  if decide (ceiling k < N.of_nat (length input)) then Err TypeCeiling else
  match take_bytes 6 input with
  | Err e => Err e
  | Ok (magic, cursor) =>
      if decide (magic = String.list_byte_of_string "RFS1" ++ [byte_of (type_code k); Byte.x01]) then
        match read_u16 cursor with
        | Err e => Err e
        | Ok (count, cursor) =>
            if decide (count = N.of_nat (length (specs k))) then scan_fields (specs k) cursor
            else Err Fields
        end
      else Err Header
  end.
End layer.

(** Documents nested [fuel] deep; running out is reported as a header error,
    which [nesting_bounded] of Rfs1Props.v shows never happens. *)
Fixpoint scan_fuel (fuel : nat) (k : WireType) (input : bytes) : result DecodeError unit :=
  match fuel with
  | O => Err Header
  | S fuel => scan_layer (scan_fuel fuel) k input
  end.

(** Documents on the stack, at most. *)
Definition MAX_NESTING : nat := 4.

Definition scan : WireType -> bytes -> result DecodeError unit := scan_fuel MAX_NESTING.

(** ** Reading a scanned document *)

(** [Fields::next] *)
Definition next_field (cursor : bytes) : option (N * bytes * bytes) :=
  match cursor with
  | [] => None
  | _ =>
      match read_u16 cursor with
      | Ok (id, cursor) =>
          match read_u32 cursor with
          | Ok (len, cursor) =>
              match take_bytes len cursor with
              | Ok (value, cursor) => Some (id, value, cursor)
              | Err _ => None
              end
          | Err _ => None
          end
      | Err _ => None
      end
  end.

(** The iterator [Scanned::fields], run to its end; every field takes at least
    six bytes. *)
Fixpoint fields_from (fuel : nat) (cursor : bytes) : list (N * bytes) :=
  match fuel with
  | O => []
  | S fuel =>
      match next_field cursor with
      | Some (id, value, cursor) => (id, value) :: fields_from fuel cursor
      | None => []
      end
  end.

Definition scanned_fields (input : bytes) : list (N * bytes) :=
  fields_from (length input) (drop 8 input).
