(* ===== verification/Rfs1Props.v ===== *)
(** * RFS1 documents: properties

    The scanner accepts exactly the canonical encodings, for which this file
    has a reference encoder; the recursion is bounded by the layout tables; and
    the field iterator reads back what was encoded. *)

From S2P Require Import Prelude OrdMap Bytes Rfs1.
From Stdlib Require Import Strings.Byte.

Open Scope N_scope.

(** ** Reference encoder *)

Definition encode_field (id : N) (value : bytes) : bytes :=
  be_of_N 2 id ++ be_of_N 4 (N.of_nat (length value)) ++ value.

Fixpoint encode_fields (l : list Spec) (values : list bytes) : bytes :=
  match l, values with
  | spec :: l, value :: values => encode_field (sp_id spec) value ++ encode_fields l values
  | _, _ => []
  end.

Definition encode_header (k : WireType) : bytes :=
  String.list_byte_of_string "RFS1" ++ [byte_of (type_code k); Byte.x01] ++
    be_of_N 2 (N.of_nat (length (specs k))).

Definition encode (k : WireType) (values : list bytes) : bytes :=
  encode_header k ++ encode_fields (specs k) values.

Definition encode_list (items : list bytes) : bytes :=
  be_of_N 2 (N.of_nat (length items)) ++
    mjoin ((fun item => be_of_N 4 (N.of_nat (length item)) ++ item) <$> items).

(** UTF-8, from the scalar values of Unicode to bytes. *)
Definition scalar (c : N) : Prop := c < 55296 \/ 57344 <= c < 1114112.

Definition utf8_encode (c : N) : bytes :=
  byte_of <$>
    if decide (c < 128) then [c]
    else if decide (c < 2048) then [192 + c / 64; 128 + c mod 64]
    else if decide (c < 65536) then [224 + c / 4096; 128 + c / 64 mod 64; 128 + c mod 64]
    else [240 + c / 262144; 128 + c / 4096 mod 64; 128 + c / 64 mod 64; 128 + c mod 64].

(** Unicode outside the control characters C0, DEL and C1. *)
Definition printable (c : N) : Prop := scalar c /\ (32 <= c < 127 \/ 160 <= c).

(** ** The format

    What a value of each kind is, and what a document is, by rules that do not
    mention the scanner: only the encoder above and the tables of the layouts. *)

Inductive value_of (document : WireType -> bytes -> Prop) : Kind -> bytes -> Prop :=
| value_fixed width v : N.of_nat (length v) = width -> value_of document (KFixed width) v
| value_profile : value_of document KProfile (str "ramflux.dm.bootstrap.fs.v1")
| value_text chars :
    chars <> [] -> Forall printable chars -> (length (mjoin (utf8_encode <$> chars)) <= 256)%nat ->
    value_of document KText (mjoin (utf8_encode <$> chars))
| value_code chars : Forall printable chars -> value_of document KCode (mjoin (utf8_encode <$> chars))
| value_bytes v : value_of document KBytes v
| value_nested k v : document k v -> value_of document (KNested k) v
| value_absent_fixed width : value_of document (KOptionalFixed width) [Byte.x00]
| value_present_fixed width v :
    N.of_nat (length v) = width -> value_of document (KOptionalFixed width) (Byte.x01 :: v)
| value_absent_nested k : value_of document (KOptionalNested k) [Byte.x00]
| value_present_nested k v : document k v -> value_of document (KOptionalNested k) (Byte.x01 :: v)
| value_list max k items :
    N.of_nat (length items) <= max -> Forall (document k) items ->
    value_of document (KList max k) (encode_list items).

(** A document is within the ceiling of its type and encodes, for every field of
    the layout, a value of its kind within its limit. *)
Inductive document : WireType -> bytes -> Prop :=
| document_of k values :
    Forall2 (fun spec v => N.of_nat (length v) <= sp_max spec /\ value_of document (sp_kind spec) v) (specs k) values ->
    N.of_nat (length (encode k values)) <= ceiling k ->
    document k (encode k values).

(** A value a field may have. *)
Definition fits (spec : Spec) (value : bytes) : Prop :=
  N.of_nat (length value) <= sp_max spec /\ value_of document (sp_kind spec) value.

(** ** Nesting *)

Definition nested_types (k : Kind) : list WireType :=
  match k with KNested k | KOptionalNested k | KList _ k => [k] | _ => [] end.

Definition children (k : WireType) : list WireType := specs k ≫= fun s => nested_types (sp_kind s).

Fixpoint depth (fuel : nat) (k : WireType) : nat :=
  match fuel with
  | O => O
  | S fuel => S (foldr Nat.max O (depth fuel <$> children k))
  end.

(** The number of types bounds the depth of an acyclic layout. *)
Definition rank (k : WireType) : nat := depth 19 k.

(** ** The cursor *)

Lemma take_bytes_app n l rest : N.of_nat (length l) = n -> take_bytes n (l ++ rest) = Ok (l, rest).
Proof.
  intros <-. unfold take_bytes. rewrite length_app, decide_False by lia.
  by rewrite Nat2N.id, take_app_length, drop_app_length.
Qed.

Lemma take_bytes_Ok n c l rest :
  take_bytes n c = Ok (l, rest) <-> c = l ++ rest /\ N.of_nat (length l) = n.
Proof.
  split; [|intros [-> ?]; by apply take_bytes_app].
  unfold take_bytes. case_decide; [done|]. intros [= <- <-].
  rewrite take_drop, length_take. split; [done|]. lia.
Qed.

Lemma read_be_Ok w c n rest :
  read_be (N.of_nat w) c = Ok (n, rest) <-> c = be_of_N w n ++ rest /\ n < 256 ^ N.of_nat w.
Proof.
  unfold read_be. split.
  - destruct (take_bytes _ c) as [[l r]|] eqn:E; [|done]. intros [= <- <-].
    apply take_bytes_Ok in E as [-> Hl]. apply Nat2N.inj in Hl. subst w.
    rewrite be_of_to. split; [done|apply be_to_N_bound].
  - intros [-> Hn]. rewrite take_bytes_app by (by rewrite length_be_of_N).
    by rewrite be_to_of.
Qed.

Lemma read_u16_Ok c n rest : read_u16 c = Ok (n, rest) <-> c = be_of_N 2 n ++ rest /\ n < 65536.
Proof. apply (read_be_Ok 2). Qed.
Lemma read_u32_Ok c n rest : read_u32 c = Ok (n, rest) <-> c = be_of_N 4 n ++ rest /\ n < 4294967296.
Proof. apply (read_be_Ok 4). Qed.

Lemma finish_cursor_Ok c : finish_cursor c = Ok tt <-> c = [].
Proof. by destruct c. Qed.

(** ** Fuel *)

Section agree.
Context (f g : WireType -> bytes -> result DecodeError unit).

Lemma validate_plain_agree k v :
  (forall k' v, k' ∈ nested_types k -> f k' v = g k' v) -> validate_plain f k v = validate_plain g k v.
Proof. intros H. destruct k; try done. apply H. by left. Qed.

Lemma scan_items_agree n k c :
  (forall v, f k v = g k v) -> scan_items f n k c = scan_items g n k c.
Proof.
  intros H. revert c. induction n as [|n IH]; intros c; [done|]. simpl.
  destruct (read_u32 c) as [[len c1]|]; [|done]. case_decide; [done|].
  destruct (take_bytes len c1) as [[v c2]|]; [|done]. rewrite H. case_match; [apply IH|done].
Qed.

Lemma validate_value_agree k v :
  (forall k' v, k' ∈ nested_types k -> f k' v = g k' v) -> validate_value f k v = validate_value g k v.
Proof.
  intros H. destruct k; unfold validate_value; try by apply validate_plain_agree.
  - unfold optional. destruct v; [done|]. by repeat case_decide.
  - unfold optional. destruct v; [done|]. repeat case_decide; try done. apply H. by left.
  - destruct (read_u16 v) as [[c cur]|]; [|done]. case_decide; [done|].
    apply scan_items_agree. intros. apply H. by left.
Qed.

Lemma scan_fields_agree l c :
  (forall s k v, s ∈ l -> k ∈ nested_types (sp_kind s) -> f k v = g k v) ->
  scan_fields f l c = scan_fields g l c.
Proof.
  revert c. induction l as [|s l IH]; intros c H; [done|]. simpl.
  destruct (read_u16 c) as [[id c1]|]; [|done]. case_decide; [|done].
  destruct (read_u32 c1) as [[len c2]|]; [|done]. case_decide; [done|].
  destruct (take_bytes len c2) as [[v c3]|]; [|done].
  rewrite (validate_value_agree (sp_kind s) v) by (intros; eapply H; [by left|done]).
  case_match; [|done]. apply IH. intros s' k' v' ?. apply H. by right.
Qed.

Lemma scan_layer_agree k v :
  (forall k' v, k' ∈ children k -> f k' v = g k' v) -> scan_layer f k v = scan_layer g k v.
Proof.
  intros H. unfold scan_layer. case_decide; [done|]. destruct (take_bytes 6 v) as [[m c]|]; [|done].
  case_decide; [|done]. destruct (read_u16 c) as [[n c1]|]; [|done]. case_decide; [|done].
  apply scan_fields_agree. intros s k' v' Hs Hk. apply H. apply list_elem_of_bind. eauto.
Qed.
End agree.

Lemma rank_child k k' : k' ∈ children k -> (rank k' < rank k)%nat.
Proof.
  assert (forallb (fun k' => Nat.ltb (rank k') (rank k)) (children k) = true) as H
    by (by destruct k; vm_compute).
  intros Hk. rewrite forallb_forall in H. apply list_elem_of_In in Hk. apply H in Hk.
  by apply Nat.ltb_lt.
Qed.

Lemma rank_bound k : (rank k <= MAX_NESTING)%nat.
Proof. destruct k; vm_compute; lia. Qed.

Lemma scan_fuel_rank n m k v :
  (rank k <= n)%nat -> (rank k <= m)%nat -> scan_fuel n k v = scan_fuel m k v.
Proof.
  revert m k v. induction n as [|n IH]; intros m k v Hn Hm.
  { assert (1 <= rank k)%nat by (destruct k; vm_compute; lia). lia. }
  destruct m as [|m]; [assert (1 <= rank k)%nat by (destruct k; vm_compute; lia); lia|].
  simpl. apply scan_layer_agree. intros k' v' Hk. pose proof (rank_child k k' Hk).
  apply IH; lia.
Qed.

(** ** Encoding and scanning *)

Lemma scan_unfold k v : scan k v = scan_layer scan k v.
Proof.
  unfold scan at 1. rewrite (scan_fuel_rank MAX_NESTING (S MAX_NESTING)); [done|apply rank_bound|].
  pose proof (rank_bound k). lia.
Qed.

(** Limits of the tables that fit the integers on the wire. *)
Definition kind_width (k : Kind) : Prop := match k with KList max _ => max < 65536 | _ => True end.
Definition spec_width (s : Spec) : Prop := sp_id s < 65536 /\ sp_max s < 4294967296 /\ kind_width (sp_kind s).

#[export] Instance kind_width_dec k : Decision (kind_width k).
Proof. destruct k; apply _. Defined.
#[export] Instance spec_width_dec s : Decision (spec_width s).
Proof. unfold spec_width. apply _. Defined.

Lemma specs_width k : Forall spec_width (specs k).
Proof. apply (bool_decide_unpack _). by destruct k; vm_compute. Qed.

Lemma specs_length k : N.of_nat (length (specs k)) < 65536.
Proof. by destruct k; vm_compute. Qed.

Lemma read_be_app w n rest : n < 256 ^ N.of_nat w -> read_be (N.of_nat w) (be_of_N w n ++ rest) = Ok (n, rest).
Proof. intros Hn. by apply read_be_Ok. Qed.
Lemma read_u16_app n rest : n < 65536 -> read_u16 (be_of_N 2 n ++ rest) = Ok (n, rest).
Proof. apply (read_be_app 2). Qed.
Lemma read_u32_app n rest : n < 4294967296 -> read_u32 (be_of_N 4 n ++ rest) = Ok (n, rest).
Proof. apply (read_be_app 4). Qed.

(** *** UTF-8 *)

Lemma continuation_Some b c : continuation b = Some c <-> Byte.to_N b = 128 + c /\ c < 64.
Proof. unfold continuation. case_decide; split; intros; simplify_eq; try lia; f_equal; lia. Qed.

Lemma to_N_byte_eq b n : Byte.to_N b = n -> b = byte_of n.
Proof. intros <-. symmetry. apply byte_of_N. Qed.

Lemma continuation_byte c : c < 64 -> continuation (byte_of (128 + c)) = Some c.
Proof. intros Hc. apply continuation_Some. rewrite byte_of_to_N by lia. done. Qed.

Lemma utf8_chars_encode fuel c l :
  scalar c -> utf8_chars (S fuel) (utf8_encode c ++ l) = cons c <$> utf8_chars fuel l.
Proof.
  intros Hc. unfold scalar in Hc. unfold utf8_encode.
  assert (c / 64 mod 64 < 64 /\ c / 4096 mod 64 < 64 /\ c mod 64 < 64) as (Hm1 & Hm2 & Hm) by (split_and!; by apply N.mod_lt).
  pose proof (N.div_mod' c 64). pose proof (N.div_mod' (c / 64) 64). pose proof (N.div_mod' (c / 4096) 64).
  rewrite !N.Div0.div_div in *. change (64 * 64) with 4096 in *. change (4096 * 64) with 262144 in *.
  generalize dependent (c / 64 mod 64). generalize dependent (c / 4096 mod 64). generalize dependent (c mod 64).
  generalize dependent (c / 262144). generalize dependent (c / 4096). generalize dependent (c / 64).
  intros q1 q2 q3 m1 Hm1 H1 m3 Hm3 H3 m2 Hm2 H2.
  repeat case_decide; cbn [fmap list_fmap app utf8_chars]; rewrite byte_of_to_N by lia; rewrite ?continuation_byte by lia.
  - by rewrite decide_True.
  - replace ((192 + q1 - 192) * 64 + m1) with c by lia. repeat case_decide; done || (exfalso; lia).
  - replace ((224 + q2 - 224) * 4096 + m2 * 64 + m1) with c by lia. repeat case_decide; done || (exfalso; lia).
  - replace ((240 + q3 - 240) * 262144 + m3 * 4096 + m2 * 64 + m1) with c by lia.
    repeat case_decide; done || (exfalso; lia).
Qed.

(** Digits in base 64. *)
Lemma digits2 a c1 : c1 < 64 -> (a * 64 + c1) / 64 = a /\ (a * 64 + c1) mod 64 = c1.
Proof. intros H. split; symmetry; [apply (N.div_unique _ _ _ c1)|apply (N.mod_unique _ _ a)]; lia. Qed.

Lemma digits3 a c1 c2 :
  c1 < 64 -> c2 < 64 -> let c := a * 4096 + c1 * 64 + c2 in
  c / 4096 = a /\ c / 64 mod 64 = c1 /\ c mod 64 = c2.
Proof.
  intros H1 H2 c. assert (c / 64 = a * 64 + c1) as -> by (symmetry; apply (N.div_unique _ _ _ c2); lia).
  split_and!; symmetry; [apply (N.div_unique _ _ _ (c1 * 64 + c2))|apply (N.mod_unique _ _ a)|
    apply (N.mod_unique _ _ (a * 64 + c1))]; lia.
Qed.

Lemma digits4 a c1 c2 c3 :
  c1 < 64 -> c2 < 64 -> c3 < 64 -> let c := a * 262144 + c1 * 4096 + c2 * 64 + c3 in
  c / 262144 = a /\ c / 4096 mod 64 = c1 /\ c / 64 mod 64 = c2 /\ c mod 64 = c3.
Proof.
  intros H1 H2 H3 c.
  assert (c / 64 = a * 4096 + c1 * 64 + c2) as -> by (symmetry; apply (N.div_unique _ _ _ c3); lia).
  assert (c / 4096 = a * 64 + c1) as -> by (symmetry; apply (N.div_unique _ _ _ (c2 * 64 + c3)); lia).
  split_and!; symmetry; [apply (N.div_unique _ _ _ (c1 * 4096 + c2 * 64 + c3))|apply (N.mod_unique _ _ a)|
    apply (N.mod_unique _ _ (a * 64 + c1))|apply (N.mod_unique _ _ (a * 4096 + c1 * 64 + c2))]; lia.
Qed.

(** What is read is the encoding of a scalar value. *)
Lemma utf8_chars_head fuel b l cs :
  utf8_chars (S fuel) (b :: l) = Some cs ->
  exists c l' cs', scalar c /\ b :: l = utf8_encode c ++ l' /\ cs = c :: cs' /\ utf8_chars fuel l' = Some cs'.
Proof.
  cbn [utf8_chars]. unfold utf8_encode, scalar. set (n := Byte.to_N b).
  assert (b = byte_of n) as Hb by (symmetry; apply byte_of_N). clearbody n. subst b.
  assert (forall x y, continuation x = Some y -> x = byte_of (128 + y) /\ y < 64) as Hcont.
  { intros x y [Hx Hy]%continuation_Some. split; [by apply to_N_byte_eq|done]. }
  case_decide as Hn1; [|case_decide as Hn2; [|case_decide as Hn3; [|case_decide as Hn4; [|done]]]].
  - intros (cs' & H & ->)%fmap_Some. exists n, l, cs'. rewrite decide_True by done. split; [lia|]. done.
  - destruct l as [|b1 l]; [done|]. destruct (continuation b1) as [c1|] eqn:E1; [|done]. apply Hcont in E1 as [-> H1].
    intros (cs' & H & ->)%fmap_Some. exists ((n - 192) * 64 + c1), l, cs'. destruct (digits2 (n - 192) c1 H1) as [Hd Hm].
    rewrite decide_False, decide_True by lia. split; [lia|]. rewrite Hd, Hm. replace (192 + (n - 192)) with n by lia. done.
  - destruct l as [|b1 [|b2 l]]; try done. destruct (continuation b1) as [c1|] eqn:E1; [|done].
    destruct (continuation b2) as [c2|] eqn:E2; [|done]. apply Hcont in E1 as [-> H1]. apply Hcont in E2 as [-> H2].
    case_decide as Hc; [|done]. intros (cs' & H & ->)%fmap_Some.
    destruct (digits3 (n - 224) c1 c2 H1 H2) as (Hd & Hd' & Hm). eexists _, l, cs'. split; [|split; [|by split]]; [lia|].
    rewrite 2!decide_False, decide_True by lia. rewrite Hd, Hd', Hm. replace (224 + (n - 224)) with n by lia. done.
  - destruct l as [|b1 [|b2 [|b3 l]]]; try done. destruct (continuation b1) as [c1|] eqn:E1; [|done].
    destruct (continuation b2) as [c2|] eqn:E2; [|done]. destruct (continuation b3) as [c3|] eqn:E3; [|done].
    apply Hcont in E1 as [-> H1]. apply Hcont in E2 as [-> H2]. apply Hcont in E3 as [-> H3].
    case_decide as Hc; [|done]. intros (cs' & H & ->)%fmap_Some.
    destruct (digits4 (n - 240) c1 c2 c3 H1 H2 H3) as (Hd & Hd' & Hd'' & Hm).
    eexists _, l, cs'. split; [|split; [|by split]]; [lia|].
    rewrite 3!decide_False by lia. rewrite Hd, Hd', Hd'', Hm. replace (240 + (n - 240)) with n by lia. done.
Qed.

Lemma mjoin_fmap_cons {A B} (f : A -> list B) x l : mjoin (f <$> x :: l) = f x ++ mjoin (f <$> l).
Proof. done. Qed.

Lemma length_utf8_encode c : (1 <= length (utf8_encode c))%nat.
Proof. unfold utf8_encode. rewrite length_fmap. repeat case_decide; simpl; lia. Qed.

(** Reading UTF-8 is the inverse of encoding it. *)
Lemma from_utf8_spec l cs : from_utf8 l = Some cs <-> Forall scalar cs /\ l = mjoin (utf8_encode <$> cs).
Proof.
  unfold from_utf8. split.
  - generalize (length l) as fuel. intros fuel. revert l cs. induction fuel as [|fuel IH]; intros [|b l] cs; try done.
    1, 2: by intros [= <-].
    intros (c & l' & cs' & Hc & -> & -> & [Hs ->]%IH)%utf8_chars_head. by split; [constructor|].
  - intros [Hs ->]. assert (length cs <= length (mjoin (utf8_encode <$> cs)))%nat as Hf.
    { clear Hs. induction cs as [|c cs IH]; [done|]. rewrite mjoin_fmap_cons, length_app. simpl length at 1. pose proof (length_utf8_encode c). lia. }
    revert Hf. generalize (length (mjoin (utf8_encode <$> cs))) as fuel. intros fuel. revert fuel.
    induction Hs as [|c cs Hc _ IH]; intros fuel Hf; [by destruct fuel|].
    destruct fuel as [|fuel]; simpl in Hf; [lia|]. rewrite mjoin_fmap_cons. rewrite utf8_chars_encode by done.
    rewrite IH by lia. done.
Qed.

Lemma printable_spec cs : Forall printable cs <-> Forall scalar cs /\ existsb is_control cs = false.
Proof.
  rewrite <- not_true_iff_false, existsb_exists, !Forall_forall. unfold printable, is_control. split.
  - intros H. split; [intros c Hc; apply (H c Hc)|]. intros (c & Hc%list_elem_of_In & Hd%bool_decide_eq_true).
    apply H in Hc. lia.
  - intros [Hs Hc] c Hin. split; [auto|]. destruct (decide (c < 32 \/ 127 <= c < 160)); [|lia].
    destruct Hc. exists c. split; [by apply list_elem_of_In|by apply bool_decide_eq_true].
Qed.

(** *** Values *)

Section values.
Context (f : WireType -> bytes -> result DecodeError unit) (P : WireType -> bytes -> Prop).

Lemma scan_items_Ok n k c :
  (forall v, f k v = Ok tt <-> P k v) -> (forall v, P k v -> N.of_nat (length v) <= ceiling k) ->
  scan_items f n k c = Ok tt <->
  exists items, length items = n /\ Forall (P k) items /\
    c = mjoin ((fun item => be_of_N 4 (N.of_nat (length item)) ++ item) <$> items).
Proof.
  intros Hf Hceil. assert (ceiling k < 4294967296) as Hk by (by destruct k; vm_compute).
  revert c. induction n as [|n IH]; intros c; cbn [scan_items].
  { rewrite finish_cursor_Ok. split; [intros ->; by exists []|]. intros (items & Hl%nil_length_inv & _ & ->). by subst. }
  split.
  - destruct (read_u32 c) as [[len c1]|] eqn:E1; [|done]. case_decide as Hlen; [done|].
    destruct (take_bytes len c1) as [[v c2]|] eqn:E2; [|done]. destruct (f k v) as [[]|] eqn:E3; [|done].
    intros (items & Hl & Hp & ->)%IH. apply read_u32_Ok in E1 as [-> _]. apply take_bytes_Ok in E2 as [-> Hv].
    exists (v :: items). split; [simpl; by f_equal|]. split; [constructor; [by apply Hf|done]|].
    rewrite mjoin_fmap_cons. by rewrite <- Hv, <- !app_assoc.
  - intros ([|v items] & Hl & Hp & ->); [done|]. apply Forall_cons in Hp as [Hv Hp].
    rewrite mjoin_fmap_cons. rewrite <- !app_assoc. pose proof (Hceil v Hv).
    rewrite read_u32_app, decide_False, take_bytes_app by (done || lia). apply Hf in Hv as ->.
    apply IH. exists items. simpl in Hl. split; [lia|done].
Qed.

Lemma text_Ok v : validate_plain f KText v = Ok tt <-> value_of P KText v.
Proof.
  cbn [validate_plain]. unfold valid_custody_id. split.
  - destruct (from_utf8 v) as [cs|] eqn:E; [|done]. apply from_utf8_spec in E as [Hs ->].
    destruct (_ && _) eqn:Hv; [|done]. intros _.
    apply andb_true_iff in Hv as [[Hne%negb_true_iff%bool_decide_eq_false Hl%bool_decide_eq_true]%andb_true_iff Hc%negb_true_iff].
    constructor; [by intros ->|by apply printable_spec|done].
  - inversion 1 as [| |cs Hne [Hs Hc]%printable_spec Hl| | | | | | | |]; subst.
    rewrite (proj2 (from_utf8_spec _ cs)) by done.
    rewrite Hc, (bool_decide_eq_true_2 (_ <= 256)%nat), bool_decide_eq_false_2; [done| |done].
    destruct cs as [|c cs]; [done|]. rewrite mjoin_fmap_cons. pose proof (length_utf8_encode c).
    intros Hnil%(f_equal length). rewrite length_app in Hnil. simpl in Hnil. lia.
Qed.

Lemma code_Ok v : validate_plain f KCode v = Ok tt <-> value_of P KCode v.
Proof.
  cbn [validate_plain]. split.
  - destruct (from_utf8 v) as [cs|] eqn:E; [|done]. apply from_utf8_spec in E as [Hs ->].
    destruct (existsb is_control cs) eqn:Hc; [done|]. intros _. constructor. by apply printable_spec.
  - inversion 1 as [| | |cs [Hs Hc]%printable_spec| | | | | | |]; subst.
    rewrite (proj2 (from_utf8_spec _ cs)) by done. by rewrite Hc.
Qed.

Lemma optional_Ok k v :
  optional f k v = Ok tt <-> v = [Byte.x00] \/ exists body, v = Byte.x01 :: body /\ validate_plain f k body = Ok tt.
Proof.
  unfold optional. split.
  - destruct v as [|t v]; [done|]. case_decide as H0.
    + destruct H0 as [H0%to_N_byte_eq ->]. subst t. by left.
    + case_decide as H1; [|done]. apply to_N_byte_eq in H1. subst t. intros Hv. right. by exists v.
  - intros [->|(body & -> & Hv)]; [done|]. rewrite decide_False by (by intros [??]). by rewrite decide_True.
Qed.

Lemma validate_value_Ok k v :
  kind_width k -> (forall k' v, k' ∈ nested_types k -> f k' v = Ok tt <-> P k' v) ->
  (forall k' v, k' ∈ nested_types k -> P k' v -> N.of_nat (length v) <= ceiling k') ->
  validate_value f k v = Ok tt <-> value_of P k v.
Proof.
  intros Hw Hf Hceil. destruct k as [width| | | | |k|width|k|max k]; cbn [validate_value nested_types] in *;
    try apply text_Ok; try apply code_Ok; rewrite ?optional_Ok; cbn [validate_plain].
  - case_decide; split; try done; [by constructor|by inversion 1].
  - case_decide; split; try done; [subst; constructor|by inversion 1].
  - split; [constructor|done].
  - rewrite Hf by (by left). split; [by constructor|by inversion 1].
  - split.
    + intros [->|(body & -> & Hb)]; [constructor|]. case_decide; [by constructor|done].
    + inversion 1; subst; [by left|]. right. eexists. split; [done|]. by rewrite decide_True.
  - split.
    + intros [->|(body & -> & Hb%Hf)]; [constructor|by constructor|by left].
    + inversion 1; subst; [by left|]. right. eexists. split; [done|]. apply Hf; [by left|done].
  - split.
    + destruct (read_u16 v) as [[n c]|] eqn:E; [|done]. case_decide as Hn; [done|]. apply read_u16_Ok in E as [-> _].
      intros (items & Hl & Hp & ->)%scan_items_Ok; [|intros; apply Hf; by left|intros; apply Hceil; [by left|done]].
      assert (N.of_nat (length items) = n) as <- by lia. apply value_list; [lia|done].
    + inversion 1; subst. unfold encode_list. simpl in Hw. rewrite read_u16_app, decide_False by lia.
      apply scan_items_Ok; [intros; apply Hf; by left|intros; apply Hceil; [by left|done]|]. exists items. split; [lia|done].
Qed.

(** *** Documents *)

Lemma scan_fields_Ok l c :
  Forall spec_width l ->
  scan_fields f l c = Ok tt <-> exists values,
    Forall2 (fun s v => N.of_nat (length v) <= sp_max s /\ validate_value f (sp_kind s) v = Ok tt) l values /\
    c = encode_fields l values.
Proof.
  intros Hw. revert c. induction Hw as [|s l (Hid & Hmax & _) _ IH]; intros c; cbn [scan_fields].
  { rewrite finish_cursor_Ok. split; [intros ->; exists []; by split|].
    intros (values & Hf & ->). by apply Forall2_nil_inv_l in Hf as ->. }
  split.
  - destruct (read_u16 c) as [[id c1]|] eqn:E1; [|done]. case_decide; [|done]. subst id.
    destruct (read_u32 c1) as [[len c2]|] eqn:E2; [|done]. case_decide as Hlen; [done|].
    destruct (take_bytes len c2) as [[v c3]|] eqn:E3; [|done].
    destruct (validate_value f (sp_kind s) v) as [[]|] eqn:E4; [|done].
    intros (values & Hf & ->)%IH. apply read_u16_Ok in E1 as [-> _]. apply read_u32_Ok in E2 as [-> _].
    apply take_bytes_Ok in E3 as [-> Hl]. exists (v :: values). split.
    + constructor; [|done]. split; [lia|done].
    + cbn [encode_fields]. unfold encode_field. rewrite Hl, <-!app_assoc. done.
  - intros (values & Hf & ->). apply Forall2_cons_inv_l in Hf as (v & values' & [Hl Hv] & Hf & ->).
    cbn [encode_fields]. unfold encode_field. rewrite <-!app_assoc.
    rewrite read_u16_app, decide_True, read_u32_app, decide_False, take_bytes_app by (done || lia). rewrite Hv. apply IH. eauto.
Qed.

Lemma scan_layer_Ok k v :
  scan_layer f k v = Ok tt <->
  N.of_nat (length v) <= ceiling k /\ exists values,
    Forall2 (fun s v => N.of_nat (length v) <= sp_max s /\ validate_value f (sp_kind s) v = Ok tt) (specs k) values /\
    v = encode k values.
Proof.
  unfold scan_layer, encode, encode_header. pose proof (specs_length k) as Hn.
  set (magic := String.list_byte_of_string "RFS1" ++ [byte_of (type_code k); Byte.x01]).
  assert (forall rest, String.list_byte_of_string "RFS1" ++ [byte_of (type_code k); Byte.x01] ++ rest
    = magic ++ rest) as Hm by done.
  split.
  - case_decide as Hc; [done|]. destruct (take_bytes 6 v) as [[m c]|] eqn:E1; [|done].
    case_decide as Hmm; [|done]. destruct (read_u16 c) as [[n c1]|] eqn:E2; [|done].
    case_decide as Hcnt; [|done]. intros (values & Hf & ->)%scan_fields_Ok; [|apply specs_width].
    split; [lia|]. exists values. split; [done|].
    apply take_bytes_Ok in E1 as [-> _]. apply read_u16_Ok in E2 as [-> _]. subst m n.
    rewrite <-!app_assoc. done.
  - intros [Hc (values & Hf & ->)]. rewrite decide_False by lia.
    rewrite <-!app_assoc, Hm, take_bytes_app by done. rewrite decide_True by done.
    rewrite read_u16_app, decide_True by done. apply scan_fields_Ok; [apply specs_width|eauto].
Qed.
End values.

Lemma document_ceiling k v : document k v -> N.of_nat (length v) <= ceiling k.
Proof. by destruct 1. Qed.

Lemma specs_agree k (f : WireType -> bytes -> result DecodeError unit) values :
  (forall k' v, k' ∈ children k -> f k' v = Ok tt <-> document k' v) ->
  Forall2 (fun s v => N.of_nat (length v) <= sp_max s /\ validate_value f (sp_kind s) v = Ok tt) (specs k) values <->
  Forall2 fits (specs k) values.
Proof.
  intros Hf. assert (forall s v, s ∈ specs k ->
    validate_value f (sp_kind s) v = Ok tt <-> value_of document (sp_kind s) v) as Hv.
  { intros s v Hs. pose proof (specs_width k) as Hw. rewrite Forall_forall in Hw. destruct (Hw s Hs) as (_ & _ & Hk).
    apply validate_value_Ok; [done| |intros; by apply document_ceiling].
    intros k' v' Hk'. apply Hf, list_elem_of_bind. by exists s. }
  clear Hf. revert Hv. generalize (specs k) as l. intros l Hv. unfold fits.
  split; induction 1 as [|s v l values [Hl Hval] _ IH]; constructor;
    try (split; [done|apply Hv; [by left|done]]); apply IH; intros; apply Hv; by right.
Qed.

Lemma scan_document k v : scan k v = Ok tt <-> document k v.
Proof.
  remember (rank k) as n eqn:Hn. revert k v Hn. induction (lt_wf n) as [n _ IH]. intros k v ->.
  rewrite scan_unfold, scan_layer_Ok.
  assert (forall values, Forall2 (fun s v => N.of_nat (length v) <= sp_max s /\ validate_value scan (sp_kind s) v = Ok tt)
    (specs k) values <-> Forall2 fits (specs k) values) as Hs.
  { intros values. apply specs_agree. intros k' v' Hk'. by eapply IH; [apply rank_child|]. }
  split.
  - intros (Hc & values & Hf%Hs & ->). by constructor.
  - destruct 1 as [k values Hf Hc]. split; [done|]. exists values. split; [by apply Hs|done].
Qed.

Lemma scan_Ok_iff k v :
  scan k v = Ok tt <->
  N.of_nat (length v) <= ceiling k /\ exists values, Forall2 fits (specs k) values /\ v = encode k values.
Proof.
  rewrite scan_document. split; [destruct 1; eauto|]. intros (Hc & values & Hf & ->). by constructor.
Qed.

Lemma next_field_app id v rest :
  id < 65536 -> N.of_nat (length v) < 4294967296 ->
  next_field (encode_field id v ++ rest) = Some (id, v, rest).
Proof.
  intros Hid Hv. unfold encode_field. rewrite <-!app_assoc. unfold next_field.
  assert (be_of_N 2 id ++ be_of_N 4 (N.of_nat (length v)) ++ v ++ rest <> []) as Hne.
  { intros Hnil%(f_equal length). rewrite length_app, length_be_of_N in Hnil. simpl in Hnil. lia. }
  destruct (be_of_N 2 id ++ _) as [|b l] eqn:E; [done|]. rewrite <-E.
  assert (forall rest, read_u16 (be_of_N 2 id ++ rest) = Ok (id, rest)) as ->
    by (intros; by apply read_u16_Ok).
  assert (forall rest, read_u32 (be_of_N 4 (N.of_nat (length v)) ++ rest) = Ok (N.of_nat (length v), rest)) as ->
    by (intros; by apply read_u32_Ok).
  by rewrite take_bytes_app.
Qed.

Lemma fields_from_encode l values fuel :
  Forall spec_width l -> Forall2 fits l values -> (length l <= fuel)%nat ->
  fields_from fuel (encode_fields l values) = zip (sp_id <$> l) values.
Proof.
  intros Hw Hf. revert fuel. induction Hf as [|s v l values [Hl _] _ IH]; intros fuel Hfl.
  { by destruct fuel. }
  inversion Hw as [|? ? [Hid Hmax] Hw']; subst. destruct fuel as [|fuel]; [simpl in Hfl; lia|].
  cbn [encode_fields fields_from]. rewrite next_field_app by lia. simpl in Hfl. rewrite IH by (done || lia). done.
Qed.

Lemma length_encode_header k : length (encode_header k) = 8%nat.
Proof. unfold encode_header. rewrite !length_app, length_be_of_N. done. Qed.

Lemma length_encode_fields l values :
  Forall2 fits l values -> (length l <= length (encode_fields l values))%nat.
Proof.
  induction 1 as [|s v l values _ _ IH]; [simpl; lia|].
  cbn [encode_fields length]. unfold encode_field. rewrite !length_app, length_be_of_N. lia.
Qed.

Lemma scanned_fields_encode k values :
  Forall2 fits (specs k) values ->
  scanned_fields (encode k values) = zip (sp_id <$> specs k) values.
Proof.
  intros Hf. unfold scanned_fields, encode.
  rewrite drop_app_ge by (rewrite length_encode_header; lia). rewrite length_encode_header, Nat.sub_diag, drop_0.
  apply fields_from_encode; [apply specs_width|done|].
  rewrite length_app. pose proof (length_encode_fields _ _ Hf). lia.
Qed.

(** ** Properties *)

(** C15: The scanner accepts exactly the documents of the format, as the rules
    [document] and [value_of] give it. Input is accepted as a document of a type
    if and only if it is within the type's ceiling and is the header followed by
    one field per id of the layout, in order, each within its limit and holding a
    value of its kind: bytes of the width, the profile, UTF-8 text without control
    characters, a document of the nested type, tag 0 alone or tag 1 and a value,
    or a list of documents up to its count. Nothing precedes, follows or is missing. *)
Theorem scan_accepts_exactly_canonical k v : scan k v = Ok tt <-> document k v.
Proof. apply scan_document. Qed.

(** The documented nesting bound holds. A document never has more than
    four documents open, so scanning with more room gives the same verdict on
    every input. *)
Theorem nesting_bounded fuel k v :
  (MAX_NESTING <= fuel)%nat -> (rank k <= MAX_NESTING)%nat /\ scan_fuel fuel k v = scan k v.
Proof.
  intros Hf. pose proof (rank_bound k). split; [done|]. apply scan_fuel_rank; lia.
Qed.

Lemma nesting_bounded_witness :
  (rank NativePrekeyResult <= MAX_NESTING)%nat /\
  scan_fuel 9 NativePrekeyResult [] = scan NativePrekeyResult [].
Proof. apply (nesting_bounded 9 NativePrekeyResult []). vm_compute. lia. Defined.

(** Reading fields inverts encoding. The field iterator over an accepted
    document yields its specified ids in order with the encoded values, and
    re-encoding what it yields gives back the input. *)
Theorem fields_roundtrip k v :
  scan k v = Ok tt ->
  (scanned_fields v).*1 = sp_id <$> specs k /\ encode k (scanned_fields v).*2 = v /\
  Forall2 fits (specs k) (scanned_fields v).*2.
Proof.
  intros [_ (values & Hf & ->)]%scan_Ok_iff. rewrite scanned_fields_encode by done.
  pose proof (Forall2_length _ _ _ Hf) as Hl.
  rewrite fst_zip, snd_zip by (rewrite length_fmap; lia). done.
Qed.

(** A minimal retirement reference. *)
Definition retirement : bytes :=
  encode RetirementRef [be_of_N 8 7; be_of_N 8 9; be_of_N 32 1].

Lemma fields_roundtrip_witness :
  (scanned_fields retirement).*1 = [1; 2; 3] /\
  encode RetirementRef (scanned_fields retirement).*2 = retirement.
Proof.
  destruct (fields_roundtrip RetirementRef retirement) as (H1 & H2 & _); [by vm_compute|].
  split; [rewrite H1; by vm_compute|exact H2].
Defined.
