(* ===== verification/Text.v ===== *)
(** * Display text

    The shared text policy of crates/ramflux-protocol/src/text_safety.rs: which
    characters signed names and free text may hold, and the quoted rendering of
    untrusted fields for text-only clients. A [str] is the list of its Unicode
    scalar values. The Unicode general category comes from the crate
    [unicode-general-category] and is a parameter; the parts of the standard
    library the code uses ([trim], [lines], [char::is_whitespace], [{:x}]) are
    written out. *)

From S2P Require Import Prelude.

Open Scope N_scope.

Notation text := (list N).

(** A literal of the source; every literal used here is ASCII. *)
Definition lit (s : string) : text := (fun a => Ascii.N_of_ascii a) <$> String.list_ascii_of_string s.

Inductive GeneralCategory :=
| UppercaseLetter | LowercaseLetter | TitlecaseLetter | ModifierLetter | OtherLetter
| NonspacingMark | SpacingMark | EnclosingMark
| DecimalNumber | LetterNumber | OtherNumber
| ConnectorPunctuation | DashPunctuation | OpenPunctuation | ClosePunctuation
| InitialPunctuation | FinalPunctuation | OtherPunctuation
| MathSymbol | CurrencySymbol | ModifierSymbol | OtherSymbol
| SpaceSeparator | LineSeparator | ParagraphSeparator
| Control | Format | Surrogate | PrivateUse | Unassigned.

#[export] Instance GeneralCategory_eq_dec : EqDecision GeneralCategory.
Proof. solve_decision. Defined.

(** ** Standard library *)

(** [char::is_whitespace]: the Unicode property [White_Space]. *)
Definition is_whitespace (c : N) : bool :=
  bool_decide (9 <= c <= 13 \/ c = 32 \/ c = 133 \/ c = 160 \/ c = 5760 \/ 8192 <= c <= 8202 \/
    c = 8232 \/ c = 8233 \/ c = 8239 \/ c = 8287 \/ c = 12288).

Fixpoint trim_start (t : text) : text :=
  match t with
  | [] => []
  | c :: rest => if is_whitespace c then trim_start rest else t
  end.

Definition trim (t : text) : text := rev (trim_start (rev (trim_start t))).

(** The first item of [str::lines]: up to the first line feed, without a
    carriage return that precedes it. *)
Fixpoint first_line (t : text) : text :=
  match t with
  | [] => []
  | c :: rest =>
      if decide (c = 10) then []
      else if decide (c = 13 /\ head rest = Some 10) then [] else c :: first_line rest
  end.

Definition hex_digit (d : N) : N := if decide (d < 10) then 48 + d else 87 + d.

Fixpoint hex_digits (fuel : nat) (n : N) (acc : text) : text :=
  match fuel with
  | O => acc
  | S fuel =>
      let acc := hex_digit (n mod 16) :: acc in
      if decide (n / 16 = 0) then acc else hex_digits fuel (n / 16) acc
  end.

(** [{:x}] of a [u32]: eight digits at most. *)
Definition lower_hex (n : N) : text := hex_digits 8 n [].

(** ** Policy *)

Definition is_bidi_control (c : N) : bool :=
  bool_decide (c = 1564 \/ 8206 <= c <= 8207 \/ 8234 <= c <= 8238 \/ 8294 <= c <= 8297).

Section policy.
Context (get_general_category : N -> GeneralCategory).

Definition single_line_char (c : N) : bool :=
  match get_general_category c with
  | Control | Format | LineSeparator | ParagraphSeparator => false
  | _ => true
  end.

Definition single_line_is_safe (value : text) : bool := forallb single_line_char value.

Definition free_text_char (c : N) : bool :=
  negb (bool_decide (get_general_category c = Control /\ c <> 10) || is_bidi_control c).

Definition free_text_is_safe (value : text) : bool := forallb free_text_char value.

(** ** Quoting *)

(** Characters rendered as a numeric escape. *)
Definition invisible (index : nat) (c : N) : bool :=
  match get_general_category c with
  | Control | Format | LineSeparator | ParagraphSeparator | PrivateUse | Unassigned => true
  | NonspacingMark | SpacingMark | EnclosingMark =>
      bool_decide (index = O) || bool_decide (c = 4447 \/ c = 4448 \/ c = 12644 \/ c = 65440)
  | _ => bool_decide (c = 4447 \/ c = 4448 \/ c = 12644 \/ c = 65440)
  end.

Definition quote_char (index : nat) (c : N) : text :=
  if decide (c = 34) then [92; 34]
  else if decide (c = 92) then [92; 92]
  else if decide (c = 10) then [92; 110]
  else if decide (c = 13) then [92; 114]
  else if decide (c = 9) then [92; 116]
  else if invisible index c then [92; 117; 123] ++ lower_hex c ++ [125]
  else [c].

Definition quote_fallback_field (value : text) : text :=
  [34] ++ mjoin (imap quote_char value) ++ [34].

Definition render_text_fallback (signer kind content : text) : text :=
  lit "Signed event signer=" ++ quote_fallback_field signer ++
  lit " kind=" ++ quote_fallback_field kind ++
  lit " content=" ++ quote_fallback_field content.
End policy.
