(* ===== verification/TextProps.v ===== *)
(** * Display text: properties

    A reader of quoted fields, and what quoting guarantees: the rendered event
    determines the fields it was made from, and holds no raw line break or
    invisible control. *)

From S2P Require Import Prelude Text.

Open Scope N_scope.

(** ** Reading a quoted field *)

Definition hex_value (c : N) : option N :=
  if decide (48 <= c <= 57) then Some (c - 48)
  else if decide (97 <= c <= 102) then Some (c - 87) else None.

Definition unescape (c : N) : option N :=
  if decide (c = 34) then Some 34
  else if decide (c = 92) then Some 92
  else if decide (c = 110) then Some 10
  else if decide (c = 114) then Some 13
  else if decide (c = 116) then Some 9 else None.

Definition push (c : N) (r : option (text * text)) : option (text * text) :=
  match r with Some (v, rest) => Some (c :: v, rest) | None => None end.

(** The reader's position: in the text, after a backslash, after the [u] of a
    numeric escape, or inside one with the value so far. *)
Inductive reading := Plain | Escape | Open | Digits (n : N).

Fixpoint unquote_in (m : reading) (l : text) : option (text * text) :=
  match l with
  | [] => None
  | c :: l =>
      match m with
      | Plain =>
          if decide (c = 34) then Some ([], l)
          else if decide (c = 92) then unquote_in Escape l else push c (unquote_in Plain l)
      | Escape =>
          if decide (c = 117) then unquote_in Open l
          else match unescape c with Some c => push c (unquote_in Plain l) | None => None end
      | Open => if decide (c = 123) then unquote_in (Digits 0) l else None
      | Digits n =>
          if decide (c = 125) then push n (unquote_in Plain l)
          else match hex_value c with Some v => unquote_in (Digits (n * 16 + v)) l | None => None end
      end
  end.

(** Read one quoted field off the front. *)
Definition unquote (l : text) : option (text * text) :=
  match l with 34 :: l => unquote_in Plain l | _ => None end.

(** ** Numeric escapes *)

Lemma hex_value_digit d : d < 16 -> hex_value (hex_digit d) = Some d.
Proof.
  intros. unfold hex_value, hex_digit. repeat case_decide; try lia; f_equal; lia.
Qed.

Lemma hex_digit_close d : d < 16 -> hex_digit d <> 125.
Proof. intros. unfold hex_digit. case_decide; lia. Qed.

Lemma unquote_digit n d l :
  d < 16 -> unquote_in (Digits n) (hex_digit d :: l) = unquote_in (Digits (n * 16 + d)) l.
Proof.
  intros Hd. cbn [unquote_in]. rewrite decide_False by by apply hex_digit_close.
  by rewrite hex_value_digit.
Qed.

Lemma unquote_hex fuel n acc l :
  n < 16 ^ N.of_nat fuel -> (0 < fuel)%nat ->
  unquote_in (Digits 0) (hex_digits fuel n acc ++ l) = unquote_in (Digits n) (acc ++ l).
Proof.
  revert n acc. induction fuel as [|fuel IH]; intros n acc Hn Hf; [lia|]. cbn [hex_digits].
  pose proof (N.div_mod n 16 ltac:(lia)) as Hdm. pose proof (N.mod_lt n 16 ltac:(lia)) as Hm.
  case_decide as Hz.
  - rewrite <-app_comm_cons, unquote_digit by done. do 2 f_equal. lia.
  - rewrite IH.
    + rewrite <-app_comm_cons, unquote_digit by done. do 2 f_equal. lia.
    + apply N.Div0.div_lt_upper_bound. rewrite Nat2N.inj_succ, N.pow_succ_r' in Hn. done.
    + destruct fuel; [|lia]. simpl in Hn. change (16 ^ 1) with 16 in Hn.
      rewrite N.div_small in Hz; lia.
Qed.

Lemma imap_join_cons {A} (f : nat -> N -> list A) c t :
  mjoin (imap f (c :: t)) = f O c ++ mjoin (imap (f ∘ S) t).
Proof. done. Qed.

Section quoting.
Context (get_general_category : N -> GeneralCategory).
Notation quote_char := (quote_char get_general_category).
Notation quote_fallback_field := (quote_fallback_field get_general_category).
Notation render_text_fallback := (render_text_fallback get_general_category).

(** Unicode scalar values. *)
Definition scalars : text -> Prop := Forall (fun c => c < 1114112).

Lemma unquote_char i c l :
  c < 1114112 -> unquote_in Plain (quote_char i c ++ l) = push c (unquote_in Plain l).
Proof.
  intros Hc. unfold Text.quote_char. repeat case_decide; subst; try done.
  destruct (invisible get_general_category i c).
  - rewrite <-!app_assoc. change (unquote_in Plain ([92; 117; 123] ++ ?l)) with (unquote_in (Digits 0) l).
    unfold lower_hex. rewrite unquote_hex by (simpl; lia). done.
  - cbn [app unquote_in]. by rewrite !decide_False.
Qed.

Lemma unquote_chars f t l :
  (forall i, exists j, f i = quote_char j) -> scalars t ->
  unquote_in Plain (mjoin (imap f t) ++ [34] ++ l) = Some (t, l).
Proof.
  intros Hf Ht. revert f Hf. induction Ht as [|c t Hc _ IH]; intros f Hf; [done|].
  rewrite imap_join_cons, <-app_assoc. destruct (Hf O) as [j ->].
  rewrite unquote_char by done. rewrite (IH (f ∘ S)); [done|]. intros i. apply Hf.
Qed.

Lemma unquote_quote t l : scalars t -> unquote (quote_fallback_field t ++ l) = Some (t, l).
Proof.
  intros Ht. unfold Text.quote_fallback_field. rewrite <-!app_assoc. apply unquote_chars; [eauto|done].
Qed.

Lemma quote_prefix t t' l l' :
  scalars t -> scalars t' ->
  quote_fallback_field t ++ l = quote_fallback_field t' ++ l' -> t = t' /\ l = l'.
Proof.
  intros Ht Ht' Heq%(f_equal unquote). rewrite !unquote_quote in Heq by done. by simplify_eq.
Qed.

(** A character that may appear in rendered output. *)
Definition visible (c : N) : Prop :=
  match get_general_category c with
  | Control | Format | LineSeparator | ParagraphSeparator | PrivateUse | Unassigned => False
  | _ => True
  end.

Section visible.
(** The printable characters of ASCII are letters, digits, punctuation,
    symbols or the space. *)
Hypothesis ascii_printable : forall c, 32 <= c <= 126 -> visible c.

Lemma hex_digit_ascii d : d < 16 -> 32 <= hex_digit d <= 126.
Proof. intros. unfold hex_digit. case_decide; lia. Qed.

Lemma hex_digits_visible fuel n acc : Forall visible acc -> Forall visible (hex_digits fuel n acc).
Proof.
  revert n acc. induction fuel as [|fuel IH]; intros n acc Ha; [done|]. cbn [hex_digits].
  assert (Forall visible (hex_digit (n mod 16) :: acc)).
  { constructor; [|done]. apply ascii_printable, hex_digit_ascii, N.mod_lt. lia. }
  case_decide; auto.
Qed.

Lemma quote_char_visible i c : Forall visible (quote_char i c).
Proof.
  assert (forall l, forallb (fun c => bool_decide (32 <= c <= 126)) l = true -> Forall visible l) as Hl.
  { intros l Hl. apply Forall_forall. intros x Hx. apply ascii_printable.
    rewrite forallb_forall in Hl. by apply (bool_decide_eq_true_1 _), Hl, list_elem_of_In. }
  unfold Text.quote_char. repeat (case_decide; [by apply Hl|]).
  destruct (invisible get_general_category i c) eqn:E.
  - repeat apply Forall_app_2; [by apply Hl|by apply hex_digits_visible|by apply Hl].
  - constructor; [|done]. unfold visible, invisible in *. by destruct (get_general_category c).
Qed.

Lemma imap_visible f t : (forall i, exists j, f i = quote_char j) -> Forall visible (mjoin (imap f t)).
Proof.
  revert f. induction t as [|c t IH]; intros f Hf; [constructor|].
  rewrite imap_join_cons. apply Forall_app_2; [|apply IH; intros i; apply Hf].
  destruct (Hf O) as [j ->]. apply quote_char_visible.
Qed.

Lemma quote_visible t : Forall visible (quote_fallback_field t).
Proof.
  repeat apply Forall_app_2; [|apply imap_visible; eauto|];
    (constructor; [apply ascii_printable; lia|constructor]).
Qed.

Lemma lit_visible s :
  forallb (fun c => bool_decide (32 <= c <= 126)) (lit s) = true -> Forall visible (lit s).
Proof.
  intros Hl. apply Forall_forall. intros x Hx. apply ascii_printable.
  rewrite forallb_forall in Hl. by apply (bool_decide_eq_true_1 _), Hl, list_elem_of_In.
Qed.
End visible.

(** ** Properties *)

(** The text rendering of a signed event cannot be forged through its
    fields. Two renderings are equal only if the signer, the kind and the
    content are; and every character of a rendering is visible, so it occupies
    one physical line whatever its fields hold. *)
Theorem render_text_fallback_unforgeable s k c s' k' c' :
  (forall x, 32 <= x <= 126 -> visible x) ->
  scalars s -> scalars k -> scalars c -> scalars s' -> scalars k' -> scalars c' ->
  Forall visible (render_text_fallback s k c) /\
  (render_text_fallback s k c = render_text_fallback s' k' c' -> s = s' /\ k = k' /\ c = c').
Proof.
  intros Hascii Hs Hk Hc Hs' Hk' Hc'. unfold Text.render_text_fallback. split.
  - rewrite !Forall_app. split_and!; (by apply quote_visible) || (by apply lit_visible).
  - intros Heq%app_inv_head. apply quote_prefix in Heq as [-> Heq%app_inv_head]; [|done..].
    apply quote_prefix in Heq as [-> Heq%app_inv_head]; [|done..].
    rewrite <-(app_nil_r (quote_fallback_field c)), <-(app_nil_r (quote_fallback_field c')) in Heq.
    by apply quote_prefix in Heq as [-> _].
Qed.
End quoting.

(** A category function for ASCII. *)
Definition ascii_category (c : N) : GeneralCategory :=
  if decide (c < 32 \/ 127 <= c) then Control else OtherLetter.

(** An agent whose content imitates another event cannot pass for it. *)
Lemma render_text_fallback_unforgeable_witness :
  Forall (visible ascii_category)
    (render_text_fallback ascii_category (lit "agent") (lit "update")
      (10 :: lit "Signed event signer=")) /\
  render_text_fallback ascii_category (lit "agent") (lit "update") (10 :: lit "Signed event signer=") <>
  render_text_fallback ascii_category (lit "human") (lit "accept") (lit "x").
Proof.
  destruct (render_text_fallback_unforgeable ascii_category
    (lit "agent") (lit "update") (10 :: lit "Signed event signer=")
    (lit "human") (lit "accept") (lit "x")) as [H1 H2].
  - intros x Hx. unfold visible, ascii_category. by rewrite decide_False by lia.
  - by repeat constructor.
  - by repeat constructor.
  - by repeat constructor.
  - by repeat constructor.
  - by repeat constructor.
  - by repeat constructor.
  - split; [exact H1|]. intros (Hd & _ & _)%H2. discriminate Hd.
Defined.
