(* ===== verification/Tasks.v ===== *)
(** * Task lifecycle

    crates/ramflux-protocol/src/tasks: the payloads (types.rs), their limits
    (validation.rs), verification against the caller's signer binding
    (event.rs), the plain-text summaries (fallback.rs) and the state that
    events are applied to (state.rs). Strings are the lists of their Unicode
    scalar values. Canonical JSON, I-JSON parsing, Ed25519 and the Unicode
    categories are third-party code: the fields of [TaskEnv]. *)

From S2P Require Import Prelude Text Wire.

Open Scope N_scope.

(** ** Payloads *)

Inductive ActorType := Human | Bot | Workflow | System.

#[export] Instance ActorType_eq_dec : EqDecision ActorType.
Proof. solve_decision. Defined.

Inductive TaskStatus := Proposed | Running | NeedsMe | Done | Failed | Cancelled.

#[export] Instance TaskStatus_eq_dec : EqDecision TaskStatus.
Proof. solve_decision. Defined.

Definition is_terminal (s : TaskStatus) : bool :=
  match s with Done | Failed | Cancelled => true | _ => false end.

(** [NeedsMe] of the source; the status of the same name is the constructor above. *)
Inductive Intervention :=
| Approval (grant_id : text) | Choice (surface_id : text) | Input (surface_id : text).

#[export] Instance Intervention_eq_dec : EqDecision Intervention.
Proof. solve_decision. Defined.

Definition target_id (n : Intervention) : text :=
  match n with Approval id | Choice id | Input id => id end.

Record TaskStep := mkStep {
  st_id : text;
  st_title : text;
  st_state : TaskStatus;
  st_needs_me : option Intervention;
}.

#[export] Instance TaskStep_eq_dec : EqDecision TaskStep.
Proof. solve_decision. Defined.

Record TaskStart := mkStart {
  sa_task_id : text;
  sa_conversation_id : text;
  sa_requester : text;
  sa_assignee : text;
  sa_text : text;
  sa_constraints : option text;
}.

Record TaskProposal := mkProposal {
  pr_task_id : text;
  pr_conversation_id : text;
  pr_proposer : text;
  pr_assignee : text;
  pr_title : text;
  pr_steps : list TaskStep;
}.

Record TaskAccept := mkAccept { ac_task_id : text; ac_version : N }.
Record TaskDecline := mkDecline { de_task_id : text; de_version : N }.

Record TaskUpdate := mkUpdate {
  up_task_id : text;
  up_version : N;
  up_state : TaskStatus;
  up_steps : list TaskStep;
  up_result_ref : option text;
  up_result_summary : option text;
}.

Record TaskCancel := mkCancel { ca_task_id : text; ca_base_revision : N }.

Inductive TaskDecision := Resume | Deny.

#[export] Instance TaskDecision_eq_dec : EqDecision TaskDecision.
Proof. solve_decision. Defined.

Record TaskResolve := mkResolve {
  re_task_id : text;
  re_base_revision : N;
  re_step_id : text;
  re_target : Intervention;
  re_decision_id : text;
  re_decision : TaskDecision;
}.

Inductive TaskEventBody :=
| Start (v : TaskStart) | Proposal (v : TaskProposal) | Accept (v : TaskAccept)
| Decline (v : TaskDecline) | Update (v : TaskUpdate) | Cancel (v : TaskCancel)
| Resolve (v : TaskResolve).

Definition kind (b : TaskEventBody) : text :=
  lit match b with
      | Start _ => "start" | Proposal _ => "proposal" | Accept _ => "accept"
      | Decline _ => "decline" | Update _ => "update" | Cancel _ => "cancel"
      | Resolve _ => "resolve"
      end%string.

Definition base_revision (b : TaskEventBody) : option N :=
  match b with
  | Cancel v => Some (ca_base_revision v)
  | Resolve v => Some (re_base_revision v)
  | _ => None
  end.

Definition body_task_id (b : TaskEventBody) : text :=
  match b with
  | Start v => sa_task_id v | Proposal v => pr_task_id v | Accept v => ac_task_id v
  | Decline v => de_task_id v | Update v => up_task_id v | Cancel v => ca_task_id v
  | Resolve v => re_task_id v
  end.

Definition body_version (b : TaskEventBody) : N :=
  match b with
  | Start _ | Proposal _ => 1
  | Accept v => ac_version v | Decline v => de_version v | Update v => up_version v
  | Cancel v => ca_base_revision v | Resolve v => re_base_revision v
  end.

(** ** Events *)

Record TaskSignedFields := mkTaskSigned {
  tsf_signing_key_id : text;
  tsf_signature_alg : SignatureAlg;
  tsf_signature : text;
}.

(** [TaskEvent] wraps its [EventFields]. *)
Record TaskEvent := mkEvent {
  ev_schema : text;
  ev_version : N;
  ev_domain : text;
  ev_ext : gmap string Value;
  ev_signed : TaskSignedFields;
  ev_conversation_id : text;
  ev_event : TaskEventBody;
}.

Record TaskSigner := mkSigner {
  principal_id : text;
  actor_type : ActorType;
  signer_key_id : text;
  public_key_base64url : text;
}.

Notation TASK_EVENT_SCHEMA := (lit "ramflux.task_event.v1") (only parsing).
Notation TASK_EVENT := (lit "ramflux.task_event.v1") (only parsing).
Notation MAX_TASK_STEPS := 64%nat (only parsing).
Notation MAX_TASK_TITLE_CHARS := 256%nat (only parsing).
Notation MAX_TASK_TEXT_CHARS := 16384%N (only parsing).
Notation MAX_TASK_EVENT_BYTES := 65536%N (only parsing).
Notation MAX_TASK_VERSION := 9007199254740991%N (only parsing).

Inductive TaskDecisionChange := Closed | TargetChanged | NewerThanObserved.

(** [PE] is the crate's [ProtocolError]. *)
Inductive TaskReject (PE : Type) :=
| InvalidSchema | InvalidDomain | InvalidField (name : string) | EventTooLarge | TooManySteps
| DuplicateStep | NeedsMeMismatch | MultipleNeedsMe | InvalidVersion
| StaleVersion (expected actual : N) | WrongSigner | InvalidSignature | HumanRequired
| AgentRequired | AlreadyExists | NotFound | ContextMismatch | Terminal | IllegalTransition
| HumanDecisionPending | DecisionMismatch | StaleDecision (step_id : text) (change : TaskDecisionChange)
| DecisionReplay | Protocol (source : PE).
Arguments InvalidSchema {PE}.
Arguments InvalidDomain {PE}.
Arguments InvalidField {PE} name.
Arguments EventTooLarge {PE}.
Arguments TooManySteps {PE}.
Arguments DuplicateStep {PE}.
Arguments NeedsMeMismatch {PE}.
Arguments MultipleNeedsMe {PE}.
Arguments InvalidVersion {PE}.
Arguments StaleVersion {PE} expected actual.
Arguments WrongSigner {PE}.
Arguments InvalidSignature {PE}.
Arguments HumanRequired {PE}.
Arguments AgentRequired {PE}.
Arguments AlreadyExists {PE}.
Arguments NotFound {PE}.
Arguments ContextMismatch {PE}.
Arguments Terminal {PE}.
Arguments IllegalTransition {PE}.
Arguments HumanDecisionPending {PE}.
Arguments DecisionMismatch {PE}.
Arguments StaleDecision {PE} step_id change.
Arguments DecisionReplay {PE}.
Arguments Protocol {PE} source.

(** What the lifecycle uses of other crates. *)
Class TaskEnv (PE : Type) := {
  get_general_category : N -> GeneralCategory;
  canonical_json_bytes : TaskEvent -> result PE (list Byte.byte);
  signed_bytes : TaskEvent -> result PE (list Byte.byte);
  parse_i_json : list Byte.byte -> result PE TaskEvent;
  to_value : TaskEvent -> result PE Value;
  validate_i_json_value : Value -> result PE unit;
  verify_canonical_signature : list Byte.byte -> text -> text -> result PE unit;
}.

(** ** Validation and verification *)

Section events.
Context {PE : Type} {env : TaskEnv PE}.
Implicit Types (event : TaskEvent) (signer : TaskSigner).
Notation reject := (TaskReject PE).

Definition field (value : text) (name : string) (max : nat) : result reject unit :=
  if bool_decide (trim value = []) || bool_decide (max < length value)%nat
     || negb (single_line_is_safe get_general_category value)
  then Err (InvalidField name) else Ok tt.

Definition free_text (value : text) (name : string) : result reject unit :=
  if bool_decide (trim value = []) || bool_decide (MAX_TASK_TEXT_CHARS < N.of_nat (length value))
     || negb (free_text_is_safe get_general_category value)
  then Err (InvalidField name) else Ok tt.

Definition pending (step : TaskStep) : bool := bool_decide (is_Some (st_needs_me step)).

(** The loop of [steps] with the ids seen and the interventions counted. *)
Fixpoint steps_loop (values : list TaskStep) (ids : gset text) (count : nat) : result reject nat :=
  match values with
  | [] => Ok count
  | step :: values =>
      field (st_id step) "step.id" 256 ≫= fun _ =>
      field (st_title step) "step.title" MAX_TASK_TITLE_CHARS ≫= fun _ =>
      ensure (bool_decide (st_id step ∉ ids)) DuplicateStep ≫= fun _ =>
      ensure (bool_decide (bool_decide (st_state step = NeedsMe) = pending step)) NeedsMeMismatch ≫= fun _ =>
      match st_needs_me step with
      | Some target =>
          field (target_id target) "needs_me.target" 256 ≫= fun _ =>
          steps_loop values ({[st_id step]} ∪ ids) (S count)
      | None => steps_loop values ({[st_id step]} ∪ ids) count
      end
  end.

Definition steps (values : list TaskStep) : result reject unit :=
  if bool_decide (MAX_TASK_STEPS < length values)%nat then Err TooManySteps else
  steps_loop values ∅ 0 ≫= fun count =>
  if bool_decide (1 < count)%nat then Err MultipleNeedsMe else Ok tt.

Definition validate_body (conversation_id : text) (b : TaskEventBody) : result reject unit :=
  match b with
  | Start v =>
      ensure (bool_decide (sa_conversation_id v = conversation_id)) ContextMismatch ≫= fun _ =>
      field (sa_requester v) "requester" 256 ≫= fun _ =>
      field (sa_assignee v) "assignee" 256 ≫= fun _ =>
      free_text (sa_text v) "text" ≫= fun _ =>
      match sa_constraints v with Some text => free_text text "constraints" | None => Ok tt end
  | Proposal v =>
      ensure (bool_decide (pr_conversation_id v = conversation_id)) ContextMismatch ≫= fun _ =>
      field (pr_proposer v) "proposer" 256 ≫= fun _ =>
      field (pr_assignee v) "assignee" 256 ≫= fun _ =>
      field (pr_title v) "title" MAX_TASK_TITLE_CHARS ≫= fun _ =>
      steps (pr_steps v)
  | Update v =>
      steps (up_steps v) ≫= fun _ =>
      match up_result_summary v with
      | Some summary =>
          free_text summary "result_summary" ≫= fun _ =>
          ensure (bool_decide (N.of_nat (length summary) <= 4096)) (InvalidField "result_summary")
      | None => Ok tt
      end ≫= fun _ =>
      match up_result_ref v with Some reference => field reference "result_ref" 256 | None => Ok tt end
  | Resolve v =>
      field (re_step_id v) "step_id" 256 ≫= fun _ =>
      field (target_id (re_target v)) "needs_me.target" 256 ≫= fun _ =>
      field (re_decision_id v) "decision_id" 256
  | Accept _ | Decline _ | Cancel _ => Ok tt
  end.

Definition validate event : result reject unit :=
  ensure (bool_decide (ev_schema event = TASK_EVENT_SCHEMA /\ ev_version event = 1)) InvalidSchema ≫= fun _ =>
  ensure (bool_decide (ev_domain event = TASK_EVENT)) InvalidDomain ≫= fun _ =>
  field (ev_conversation_id event) "conversation_id" 256 ≫= fun _ =>
  field (body_task_id (ev_event event)) "task_id" 256 ≫= fun _ =>
  field (tsf_signing_key_id (ev_signed event)) "signing_key_id" 256 ≫= fun _ =>
  ensure (bool_decide (1 <= body_version (ev_event event) <= MAX_TASK_VERSION)) InvalidVersion ≫= fun _ =>
  validate_body (ev_conversation_id event) (ev_event event) ≫= fun _ =>
  map_err Protocol (canonical_json_bytes event) ≫= fun bytes =>
  ensure (bool_decide (N.of_nat (length bytes) <= MAX_TASK_EVENT_BYTES)) EventTooLarge ≫= fun _ =>
  map_err Protocol (signed_bytes event) ≫= fun _ => Ok tt.

(** [verify_signed_fields]; [Ed25519] is the only algorithm. *)
Definition verify_signed_fields event (signed : TaskSignedFields) (public_key : text) : result PE unit :=
  match tsf_signature_alg signed with
  | Ed25519 =>
      signed_bytes event ≫= fun canonical =>
      verify_canonical_signature canonical (tsf_signature signed) public_key
  end.

Definition verify event signer : result reject unit :=
  validate event ≫= fun _ =>
  ensure (bool_decide (principal_id signer <> [] /\
    tsf_signing_key_id (ev_signed event) = signer_key_id signer)) WrongSigner ≫= fun _ =>
  map_err (fun _ => InvalidSignature)
    (verify_signed_fields event (ev_signed event) (public_key_base64url signer)).

(** *** Construction *)

Definition checked event : result reject TaskEvent :=
  validate event ≫= fun _ =>
  map_err Protocol (to_value event) ≫= fun value =>
  map_err Protocol (validate_i_json_value value) ≫= fun _ => Ok event.

Definition from_wire_bytes (bytes : list Byte.byte) : result reject TaskEvent :=
  if bool_decide (MAX_TASK_EVENT_BYTES < N.of_nat (length bytes)) then Err EventTooLarge else
  map_err Protocol (parse_i_json bytes) ≫= fun event =>
  validate event ≫= fun _ => Ok event.

Definition new_event (conversation_id : text) (b : TaskEventBody) (signed : TaskSignedFields) :
    result reject TaskEvent :=
  checked (mkEvent TASK_EVENT_SCHEMA 1 TASK_EVENT ∅ signed conversation_id b).

Definition with_extensions event (ext : gmap string Value) : result reject TaskEvent :=
  checked (mkEvent (ev_schema event) (ev_version event) (ev_domain event) ext (ev_signed event)
    (ev_conversation_id event) (ev_event event)).

Definition with_signature event (signature : text) : result reject TaskEvent :=
  checked (mkEvent (ev_schema event) (ev_version event) (ev_domain event) (ev_ext event)
    (mkTaskSigned (tsf_signing_key_id (ev_signed event)) (tsf_signature_alg (ev_signed event)) signature)
    (ev_conversation_id event) (ev_event event)).
End events.

(** ** State *)

Record Task := mkTask {
  t_task_id : text;
  t_conversation_id : text;
  t_requester : option text;
  t_proposer : option text;
  t_assignee : text;
  t_title : text;
  t_text : option text;
  t_constraints : option text;
  t_version : N;
  t_state : TaskStatus;
  t_steps : list TaskStep;
  t_result_ref : option text;
  t_result_summary : option text;
  t_accepted : bool;
}.

Record TaskState := mkTaskState {
  task : option Task;
  decisions : gset text;
  approvals : gset text;
  pending_since : gmap text N;
}.

Definition TaskState_default : TaskState := mkTaskState None ∅ ∅ ∅.

(** Assignments to fields of a task. *)
Definition set_lifecycle (t : Task) (requester : option text) (accepted : bool) (state : TaskStatus)
    (steps : list TaskStep) : Task :=
  mkTask (t_task_id t) (t_conversation_id t) requester (t_proposer t) (t_assignee t) (t_title t)
    (t_text t) (t_constraints t) (t_version t) state steps (t_result_ref t) (t_result_summary t)
    accepted.

Definition set_progress (t : Task) (state : TaskStatus) (steps : list TaskStep) : Task :=
  set_lifecycle t (t_requester t) (t_accepted t) state steps.

Definition set_result (t : Task) (reference summary : option text) : Task :=
  mkTask (t_task_id t) (t_conversation_id t) (t_requester t) (t_proposer t) (t_assignee t) (t_title t)
    (t_text t) (t_constraints t) (t_version t) (t_state t) (t_steps t) reference summary (t_accepted t).

Definition set_version (t : Task) (version : N) : Task :=
  mkTask (t_task_id t) (t_conversation_id t) (t_requester t) (t_proposer t) (t_assignee t) (t_title t)
    (t_text t) (t_constraints t) version (t_state t) (t_steps t) (t_result_ref t) (t_result_summary t)
    (t_accepted t).

Definition set_step (s : TaskStep) (state : TaskStatus) : TaskStep :=
  mkStep (st_id s) (st_title s) state None.

Definition cancel_step (s : TaskStep) : TaskStep :=
  set_step s (if is_terminal (st_state s) then st_state s else Cancelled).

Definition cancel_unfinished (l : list TaskStep) : list TaskStep := cancel_step <$> l.

(** [iter_mut().find(..)] and an assignment through the result. *)
Fixpoint update_first {A} (f : A -> bool) (g : A -> A) (l : list A) : option (list A) :=
  match l with
  | [] => None
  | a :: l => if f a then Some (g a :: l) else (a ::.) <$> update_first f g l
  end.

Section state.
Context {PE : Type} {env : TaskEnv PE}.
Implicit Types (event : TaskEvent) (signer : TaskSigner) (t : Task).
Notation reject := (TaskReject PE).

Definition human signer : result reject unit :=
  ensure (bool_decide (actor_type signer = Human)) HumanRequired.

Definition requester t signer : result reject unit :=
  human signer ≫= fun _ =>
  ensure (bool_decide (t_requester t = Some (principal_id signer))) WrongSigner.

(** One old step against the updated list. *)
Definition check_step (new_steps : list TaskStep) (old : TaskStep) : result reject unit :=
  ok_or (find (fun s => bool_decide (st_id s = st_id old)) new_steps)
    (if pending old then HumanDecisionPending else IllegalTransition) ≫= fun new =>
  if pending old && bool_decide (old <> new) then Err HumanDecisionPending
  else if is_terminal (st_state old) && bool_decide (old <> new) then Err IllegalTransition
  else if bool_decide (st_state old = Running) && bool_decide (st_state new = Proposed)
  then Err IllegalTransition else Ok tt.

Fixpoint check_steps (new_steps olds : list TaskStep) : result reject unit :=
  match olds with
  | [] => Ok tt
  | old :: olds => check_step new_steps old ≫= fun _ => check_steps new_steps olds
  end.

Definition replayed_approval (approvals : gset text) (open : option TaskStep) : bool :=
  match open ≫= st_needs_me with
  | Some (Approval grant_id) => bool_decide (grant_id ∈ approvals)
  | _ => false
  end.

Definition update_task t (update : TaskUpdate) (approvals : gset text) : result reject Task :=
  ensure match up_state update with Running | NeedsMe | Done | Failed => true | _ => false end
    IllegalTransition ≫= fun _ =>
  let open := find pending (up_steps update) in
  ensure (bool_decide (bool_decide (up_state update = NeedsMe) = bool_decide (is_Some open)))
    NeedsMeMismatch ≫= fun _ =>
  check_steps (up_steps update) (t_steps t) ≫= fun _ =>
  ensure (negb (replayed_approval approvals open)) DecisionReplay ≫= fun _ =>
  if bool_decide (up_state update = Done)
     && existsb (fun s => bool_decide (st_state s <> Done)) (up_steps update)
  then Err IllegalTransition
  else if bool_decide (up_state update = Failed)
     && existsb (fun s => negb (is_terminal (st_state s))) (up_steps update)
  then Err IllegalTransition
  else if (bool_decide (is_Some (up_result_ref update)) || bool_decide (is_Some (up_result_summary update)))
     && negb (is_terminal (up_state update))
  then Err IllegalTransition
  else Ok (set_result (set_progress t (up_state update) (up_steps update))
    (up_result_ref update) (up_result_summary update)).

Definition validate_resolution t (decision : TaskResolve) (since : gmap text N) : result reject unit :=
  ok_or (find (fun s => bool_decide (st_id s = re_step_id decision)) (t_steps t)) DecisionMismatch ≫= fun step =>
  if negb (pending step) then Err (StaleDecision (re_step_id decision) Closed)
  else if bool_decide (st_needs_me step <> Some (re_target decision))
  then Err (StaleDecision (re_step_id decision) TargetChanged)
  else match since !! re_step_id decision with
       | Some opened =>
           if bool_decide (re_base_revision decision < opened)
           then Err (StaleDecision (re_step_id decision) NewerThanObserved) else Ok tt
       | None => Err (StaleDecision (re_step_id decision) NewerThanObserved)
       end.

Definition decides (decision : TaskResolve) (s : TaskStep) : bool :=
  bool_decide (st_id s = re_step_id decision) && bool_decide (st_needs_me s = Some (re_target decision)).

Definition resolve t (decision : TaskResolve) : result reject Task :=
  ensure (bool_decide (t_state t = NeedsMe)) DecisionMismatch ≫= fun _ =>
  let outcome := match re_decision decision with Resume => Running | Deny => Failed end in
  ok_or (update_first (decides decision) (fun s => set_step s outcome) (t_steps t))
    DecisionMismatch ≫= fun steps =>
  match re_decision decision with
  | Resume => Ok (set_progress t Running steps)
  | Deny => Ok (set_progress t Failed (cancel_unfinished steps))
  end.

Definition initialize (self : TaskState) event signer : result reject TaskState :=
  match ev_event event with
  | Start v =>
      human signer ≫= fun _ =>
      ensure (bool_decide (principal_id signer = sa_requester v)) WrongSigner ≫= fun _ =>
      Ok (mkTask (sa_task_id v) (sa_conversation_id v) (Some (sa_requester v)) None (sa_assignee v)
        (take 256 (first_line (trim (sa_text v)))) (Some (sa_text v)) (sa_constraints v) 1 Running []
        None None true)
  | Proposal v =>
      ensure (bool_decide (actor_type signer = Bot \/ actor_type signer = Workflow)) AgentRequired ≫= fun _ =>
      ensure (bool_decide (principal_id signer = pr_proposer v)) WrongSigner ≫= fun _ =>
      ensure (negb (existsb (fun s => bool_decide (st_state s <> Proposed)) (pr_steps v)))
        IllegalTransition ≫= fun _ =>
      Ok (mkTask (pr_task_id v) (pr_conversation_id v) None (Some (pr_proposer v)) (pr_assignee v)
        (pr_title v) None None 1 Proposed (pr_steps v) None None false)
  | _ => Err NotFound
  end ≫= fun t => Ok (mkTaskState (Some t) (decisions self) (approvals self) (pending_since self)).

(** Accepting or declining a proposal. *)
Definition answer t (accepted : bool) signer : result reject Task :=
  human signer ≫= fun _ =>
  ensure (bool_decide (t_state t = Proposed)) IllegalTransition ≫= fun _ =>
  ensure (bool_decide (t_proposer t <> Some (principal_id signer))) WrongSigner ≫= fun _ =>
  Ok (set_lifecycle t (Some (principal_id signer)) accepted
    (if accepted then Running else Cancelled)
    (if accepted then t_steps t else cancel_unfinished (t_steps t))).

(** The [match] of [reduce]: the task, and the decisions and approvals consumed. *)
Definition transition t (self : TaskState) event signer : result reject (Task * gset text * gset text) :=
  match ev_event event with
  | Accept _ => answer t true signer ≫= fun t => Ok (t, decisions self, approvals self)
  | Decline _ => answer t false signer ≫= fun t => Ok (t, decisions self, approvals self)
  | Cancel _ =>
      requester t signer ≫= fun _ =>
      Ok (set_progress t Cancelled (cancel_unfinished (t_steps t)), decisions self, approvals self)
  | Update update =>
      ensure (bool_decide (principal_id signer = t_assignee t)) WrongSigner ≫= fun _ =>
      ensure (t_accepted t) IllegalTransition ≫= fun _ =>
      update_task t update (approvals self) ≫= fun t => Ok (t, decisions self, approvals self)
  | Resolve resolution =>
      requester t signer ≫= fun _ =>
      ensure (bool_decide (re_decision_id resolution ∉ decisions self)) DecisionReplay ≫= fun _ =>
      validate_resolution t resolution (pending_since self) ≫= fun _ =>
      resolve t resolution ≫= fun t =>
      Ok (t, {[re_decision_id resolution]} ∪ decisions self,
          match re_target resolution with
          | Approval grant_id => {[grant_id]} ∪ approvals self
          | _ => approvals self
          end)
  | Start _ | Proposal _ => Err AlreadyExists
  end.

(** Closed interventions are dropped, new ones are opened at [expected]. *)
Definition open_since (l : list TaskStep) (expected : N) (since : gmap text N) : gmap text N :=
  let kept := filter (fun p : text * N =>
    existsb (fun s => bool_decide (st_id s = p.1) && pending s) l = true) since in
  foldl (fun m s => if m !! st_id s then m else <[st_id s := expected]> m) kept
    (filter (fun s => pending s = true) l).

Definition check_revision t event (expected : N) : result reject unit :=
  match base_revision (ev_event event) with
  | Some base => if bool_decide (t_version t < base) then Err (StaleVersion (t_version t) base) else Ok tt
  | None =>
      if bool_decide (body_version (ev_event event) <> expected)
      then Err (StaleVersion expected (body_version (ev_event event))) else Ok tt
  end.

Definition reduce (self : TaskState) event signer : result reject TaskState :=
  match ev_event event with
  | Start _ | Proposal _ =>
      if bool_decide (is_Some (task self)) then Err AlreadyExists else initialize self event signer
  | _ =>
      ok_or (task self) NotFound ≫= fun t =>
      ensure (bool_decide (t_task_id t = body_task_id (ev_event event) /\
        t_conversation_id t = ev_conversation_id event)) ContextMismatch ≫= fun _ =>
      ensure (negb (is_terminal (t_state t))) Terminal ≫= fun _ =>
      ok_or (u64_checked_add (t_version t) 1 ≫= fun n =>
        if bool_decide (n <= MAX_TASK_VERSION) then Some n else None) InvalidVersion ≫= fun expected =>
      check_revision t event expected ≫= fun _ =>
      transition t self event signer ≫= fun '(t, decisions, approvals) =>
      Ok (mkTaskState (Some (set_version t expected)) decisions approvals
        (open_since (t_steps t) expected (pending_since self)))
  end.

Definition apply (self : TaskState) event signer : TaskState * result reject Task :=
  match verify event signer ≫= fun _ => reduce self event signer with
  | Err e => (self, Err e)
  | Ok next => (next, ok_or (task next) NotFound)
  end.
End state.

(** ** Text summaries *)

Definition status (value : TaskStatus) : text :=
  lit match value with
      | Proposed => "proposed" | Running => "running" | NeedsMe => "needs_me"
      | Done => "done" | Failed => "failed" | Cancelled => "cancelled"
      end%string.

(** The em dash of the format string is U+2014. *)
Definition step_line (step : TaskStep) : text :=
  st_id step ++ lit ": " ++ st_title step ++ lit " (" ++ status (st_state step) ++ lit ")" ++
  match st_needs_me step with
  | Some target => lit " " ++ [8212] ++ lit " needs decision at " ++ target_id target
  | None => []
  end.

Definition step_lines (l : list TaskStep) : list text := step_line <$> l.

(** [lines.join("\n")] *)
Fixpoint join_lines (lines : list text) : text :=
  match lines with
  | [] => []
  | [line] => line
  | line :: lines => line ++ [10] ++ join_lines lines
  end.

Definition fallback_lines (b : TaskEventBody) (actor : text) : list text :=
  let id := body_task_id b in
  match b with
  | Start v =>
      (lit "Task " ++ id ++ lit " requested for " ++ sa_assignee v ++ lit ": " ++ sa_text v) ::
      match sa_constraints v with Some c => [lit "Constraints: " ++ c] | None => [] end
  | Proposal v =>
      (lit "Task " ++ id ++ lit " proposed by " ++ pr_proposer v ++ lit " for " ++ pr_assignee v ++
        lit " (awaiting acceptance): " ++ pr_title v) :: step_lines (pr_steps v)
  | Accept _ => [lit "Task " ++ id ++ lit " accepted" ++ actor]
  | Decline _ => [lit "Task " ++ id ++ lit " declined" ++ actor]
  | Cancel _ => [lit "Task " ++ id ++ lit " cancelled by its requester"]
  | Update v =>
      (lit "Task " ++ id ++ lit ": " ++ status (up_state v)) :: step_lines (up_steps v) ++
      match up_result_ref v with Some reference => [lit "Result: " ++ reference] | None => [] end
  | Resolve v =>
      [lit "Task " ++ id ++ lit ": decision" ++ actor ++ lit " " ++
        lit match re_decision v with Resume => "resume" | Deny => "deny" end%string ++
        lit " for step " ++ re_step_id v ++ lit " at " ++ target_id (re_target v) ++
        lit " (decision " ++ re_decision_id v ++ lit ")"]
  end.

Definition fallback_text_with_actor_kind {PE} {env : TaskEnv PE} (event : TaskEvent)
    (actor_kind_verified : bool) : text :=
  let actor := if actor_kind_verified then [] else lit " (actor kind unverified)" in
  render_text_fallback get_general_category (tsf_signing_key_id (ev_signed event))
    (kind (ev_event event)) (join_lines (fallback_lines (ev_event event) actor)).

Definition fallback_text {PE} {env : TaskEnv PE} (event : TaskEvent) : text :=
  fallback_text_with_actor_kind event false.
