(* ===== verification/TasksProps.v ===== *)
(** * Task lifecycle: properties

    Runs of accepted events, the invariant of the states they reach, and what
    the lifecycle promises the human it works for. *)

From S2P Require Import Prelude Text Wire Tasks.

Open Scope N_scope.

(** ** Interventions and step lists *)

Definition no_pending (l : list TaskStep) : Prop := Forall (fun s => st_needs_me s = None) l.

(** At most one step is open. *)
Definition one_pending (l : list TaskStep) : Prop :=
  forall a b, a ∈ l -> b ∈ l -> is_Some (st_needs_me a) -> is_Some (st_needs_me b) -> a = b.

Record steps_wf (l : list TaskStep) : Prop := {
  wf_length : (length l <= MAX_TASK_STEPS)%nat;
  wf_ids : NoDup (st_id <$> l);
  wf_marked : Forall (fun s => st_state s = NeedsMe <-> is_Some (st_needs_me s)) l;
  wf_one : one_pending l;
}.

Lemma pending_spec s : pending s = true <-> is_Some (st_needs_me s).
Proof. unfold pending. apply bool_decide_eq_true. Qed.

Lemma pending_false s : pending s = false <-> st_needs_me s = None.
Proof. unfold pending. rewrite bool_decide_eq_false, eq_None_not_Some. done. Qed.

Lemma no_pending_one l : no_pending l -> one_pending l.
Proof.
  unfold no_pending, one_pending. rewrite Forall_forall. intros Hl a b Ha _ [n Hn]. rewrite Hl in Hn; done.
Qed.

Lemma find_pending_None l : find pending l = None <-> no_pending l.
Proof.
  unfold no_pending. rewrite Forall_forall. split.
  - intros Hf s Hs. apply pending_false. apply (find_none _ _ Hf). by apply list_elem_of_In.
  - intros Hl. destruct (find pending l) as [s|] eqn:E; [|done].
    apply find_some in E as [Hin Hp]. apply list_elem_of_In, Hl in Hin. apply pending_false in Hin. congruence.
Qed.

Lemma find_pending_Some l s : find pending l = Some s -> s ∈ l /\ is_Some (st_needs_me s).
Proof. intros [Hin Hp]%find_some. by rewrite list_elem_of_In, <-pending_spec. Qed.

Lemma ids_unique l a b : NoDup (st_id <$> l) -> a ∈ l -> b ∈ l -> st_id a = st_id b -> a = b.
Proof.
  intros Hnd [i Hi]%list_elem_of_lookup [j Hj]%list_elem_of_lookup Heq.
  assert (i = j) as ->; [|congruence].
  apply (NoDup_lookup (st_id <$> l) i j (st_id a)); [done| |]; rewrite list_lookup_fmap.
  - by rewrite Hi.
  - rewrite Hj. simpl. by rewrite Heq.
Qed.

(** Stepwise maps that keep ids. *)
Lemma map_ids (f : TaskStep -> TaskStep) (l : list TaskStep) :
  (forall s, st_id (f s) = st_id s) -> st_id <$> (f <$> l) = st_id <$> l.
Proof. intros Hf. rewrite <-list_fmap_compose. apply list_fmap_ext. intros; apply Hf. Qed.

Lemma cancel_no_pending l : no_pending (cancel_unfinished l).
Proof. apply Forall_fmap, Forall_true. done. Qed.

Lemma cancel_state s : st_state (cancel_step s) <> NeedsMe.
Proof. unfold cancel_step. simpl. by destruct (st_state s). Qed.

Lemma cancel_wf l : (length l <= MAX_TASK_STEPS)%nat -> NoDup (st_id <$> l) -> steps_wf (cancel_unfinished l).
Proof.
  intros Hl Hn. split.
  - unfold cancel_unfinished. by rewrite length_fmap.
  - unfold cancel_unfinished. by rewrite map_ids.
  - apply Forall_fmap, Forall_true. intros s. simpl. split; [|by intros []].
    intros Hs. by apply cancel_state in Hs.
  - apply no_pending_one, cancel_no_pending.
Qed.

Lemma cancel_keeps s l : s ∈ l -> is_terminal (st_state s) = true -> st_needs_me s = None ->
  s ∈ cancel_unfinished l.
Proof.
  intros Hs Ht Hn. apply list_elem_of_fmap. exists s. split; [|done].
  destruct s as [id title st n]. unfold cancel_step, set_step. simpl in *. by rewrite Ht, Hn.
Qed.

Section first.
Context {A : Type} (f : A -> bool) (g : A -> A).

Lemma update_first_Some l l' :
  update_first f g l = Some l' ->
  exists l1 a l2, l = l1 ++ a :: l2 /\ l' = l1 ++ g a :: l2 /\ f a = true.
Proof.
  revert l'. induction l as [|a l IH]; intros l'; simpl; [done|]. destruct (f a) eqn:E.
  - intros [= <-]. by exists [], a, l.
  - destruct (update_first f g l) as [l0|]; [|done]. intros [= <-].
    destruct (IH l0 eq_refl) as (l1 & b & l2 & -> & -> & Hb). by exists (a :: l1), b, l2.
Qed.

Lemma update_first_find l a : a ∈ l -> f a = true -> is_Some (update_first f g l).
Proof.
  induction 1 as [a l|a b l _ IH]; intros Ha; simpl; [by rewrite Ha|].
  destruct (f b); [done|]. destruct (IH Ha) as [l' ->]. eauto.
Qed.
End first.

(** ** Validated step lists *)

Section props.
Context {PE : Type} {env : TaskEnv PE}.
Implicit Types (e : TaskEvent) (g : TaskSigner) (t : Task).

Lemma steps_loop_Ok l ids n m :
  steps_loop l ids n = Ok m ->
  NoDup (st_id <$> l) /\ (forall s, s ∈ l -> st_id s ∉ ids) /\
  Forall (fun s => st_state s = NeedsMe <-> is_Some (st_needs_me s)) l /\
  m = (n + length (filter (fun s => pending s = true) l))%nat.
Proof.
  revert ids n. induction l as [|x l IH]; intros ids n; cbn [steps_loop].
  { intros [= <-]. rewrite filter_nil. split_and!; [constructor| |constructor|simpl; lia].
    by intros ? ?%not_elem_of_nil. }
  rewrite !bind_Ok. intros (_ & _ & Hk). apply bind_Ok in Hk as (_ & _ & Hk).
  apply bind_Ok in Hk as (_ & Hid%ensure_Ok%bool_decide_eq_true & Hk).
  apply bind_Ok in Hk as (_ & Hmark%ensure_Ok%bool_decide_eq_true & Hk).
  assert (exists n', steps_loop l ({[st_id x]} ∪ ids) n' = Ok m /\
    n' = (n + if pending x then 1 else 0)%nat) as (n' & Hloop & ->).
  { destruct (st_needs_me x) as [target|] eqn:E; unfold pending; rewrite E; simpl.
    - apply bind_Ok in Hk as (_ & _ & Hk). exists (S n). split; [done|lia].
    - exists n. split; [done|lia]. }
  destruct (IH _ _ Hloop) as (Hnd & Hdis & Hall & ->).
  split_and!.
  - rewrite fmap_cons. constructor; [|done]. intros (y & Hy & Hin)%list_elem_of_fmap.
    apply Hdis in Hin. apply Hin. rewrite <-Hy. by apply elem_of_union_l, elem_of_singleton.
  - intros y [->|Hy]%elem_of_cons; [done|]. apply Hdis in Hy. intros Hin. apply Hy.
    by apply elem_of_union_r.
  - constructor; [|done]. rewrite <-pending_spec, <-Hmark. symmetry. apply bool_decide_eq_true.
  - rewrite filter_cons. destruct (pending x) eqn:E.
    + rewrite decide_True by done. simpl. lia.
    + rewrite decide_False by done. lia.
Qed.

Lemma one_pending_count l :
  (length (filter (fun s => pending s = true) l) <= 1)%nat -> one_pending l.
Proof.
  intros Hc a b Ha Hb Hpa Hpb. rewrite <-pending_spec in Hpa, Hpb.
  assert (a ∈ filter (fun s => pending s = true) l) as Ha' by by apply list_elem_of_filter.
  assert (b ∈ filter (fun s => pending s = true) l) as Hb' by by apply list_elem_of_filter.
  destruct (filter _ l) as [|x [|y l']]; simpl in Hc; [by apply not_elem_of_nil in Ha'| |lia].
  apply list_elem_of_singleton in Ha', Hb'. congruence.
Qed.

Lemma steps_Ok l : steps l = Ok tt -> steps_wf l.
Proof.
  unfold steps. case_bool_decide as Hlen; [done|]. intros (m & Hloop & Hc)%bind_Ok.
  case_bool_decide; [done|]. apply steps_loop_Ok in Hloop as (Hnd & _ & Hall & ->).
  split; [lia|done|done|]. apply one_pending_count. lia.
Qed.

(** ** Transitions *)

Definition accepts (b : TaskEventBody) : option bool :=
  match b with Accept _ => Some true | Decline _ => Some false | _ => None end.

Record updates t (u : TaskUpdate) (used : gset text) : Prop := {
  upd_state : up_state u = Running \/ up_state u = NeedsMe \/ up_state u = Done \/ up_state u = Failed;
  upd_open : up_state u = NeedsMe <-> exists x, find pending (up_steps u) = Some x;
  upd_checked : check_steps (PE := PE) (up_steps u) (t_steps t) = Ok tt;
  upd_fresh : replayed_approval used (find pending (up_steps u)) = false;
}.

Inductive moved (s : TaskState) t e g : Task -> gset text -> gset text -> Prop :=
| mv_answer b :
    accepts (ev_event e) = Some b -> actor_type g = Human -> t_state t = Proposed ->
    t_proposer t <> Some (principal_id g) ->
    moved s t e g
      (set_lifecycle t (Some (principal_id g)) b (if b then Running else Cancelled)
        (if b then t_steps t else cancel_unfinished (t_steps t))) (decisions s) (approvals s)
| mv_cancel v :
    ev_event e = Cancel v -> actor_type g = Human -> t_requester t = Some (principal_id g) ->
    moved s t e g (set_progress t Cancelled (cancel_unfinished (t_steps t))) (decisions s) (approvals s)
| mv_update u :
    ev_event e = Update u -> principal_id g = t_assignee t -> t_accepted t = true ->
    updates t u (approvals s) ->
    moved s t e g (set_result (set_progress t (up_state u) (up_steps u)) (up_result_ref u)
      (up_result_summary u)) (decisions s) (approvals s)
| mv_resolve d l1 x l2 opened :
    ev_event e = Resolve d -> actor_type g = Human -> t_requester t = Some (principal_id g) ->
    re_decision_id d ∉ decisions s -> t_state t = NeedsMe ->
    t_steps t = l1 ++ x :: l2 -> st_id x = re_step_id d -> st_needs_me x = Some (re_target d) ->
    pending_since s !! re_step_id d = Some opened -> opened <= re_base_revision d ->
    moved s t e g
      (match re_decision d with
       | Resume => set_progress t Running (l1 ++ set_step x Running :: l2)
       | Deny => set_progress t Failed (cancel_unfinished (l1 ++ set_step x Failed :: l2))
       end)
      ({[re_decision_id d]} ∪ decisions s)
      (match re_target d with Approval grant_id => {[grant_id]} ∪ approvals s | _ => approvals s end).

Lemma human_Ok g u : human (PE := PE) g = Ok u <-> actor_type g = Human.
Proof. unfold human. by rewrite ensure_Ok, bool_decide_eq_true. Qed.

Lemma requester_Ok t g u :
  requester (PE := PE) t g = Ok u <-> actor_type g = Human /\ t_requester t = Some (principal_id g).
Proof.
  unfold requester. rewrite bind_Ok. split.
  - intros (v & Hh%human_Ok & Hr%ensure_Ok%bool_decide_eq_true). done.
  - intros [Hh Hr]. exists tt. split; [by apply human_Ok|]. by apply ensure_Ok, bool_decide_eq_true.
Qed.

Lemma answer_moved s t e g b t' :
  accepts (ev_event e) = Some b -> answer (PE := PE) t b g = Ok t' ->
  moved s t e g t' (decisions s) (approvals s).
Proof.
  intros Hb. unfold answer. intros (? & Hh%human_Ok & Hk)%bind_Ok.
  apply bind_Ok in Hk as (_ & Hp%ensure_Ok%bool_decide_eq_true & Hk).
  apply bind_Ok in Hk as (_ & Hs%ensure_Ok%bool_decide_eq_true & [= <-]). by apply mv_answer.
Qed.

Lemma update_task_Ok t u used t' :
  update_task (PE := PE) t u used = Ok t' ->
  updates t u used /\
  t' = set_result (set_progress t (up_state u) (up_steps u)) (up_result_ref u) (up_result_summary u).
Proof.
  unfold update_task. intros (_ & Hs%ensure_Ok & Hk)%bind_Ok.
  apply bind_Ok in Hk as (_ & Ho%ensure_Ok%bool_decide_eq_true & Hk).
  apply bind_Ok in Hk as ([] & Hc & Hk). apply bind_Ok in Hk as (_ & Hf%ensure_Ok & Hk).
  destruct (_ && _); [done|]. destruct (_ && _); [done|]. destruct (_ && _); [done|].
  injection Hk as <-. split; [|done]. split; [|..].
  - destruct (up_state u); naive_solver.
  - rewrite <-(bool_decide_eq_true (up_state u = NeedsMe)), Ho, bool_decide_eq_true. done.
  - done.
  - by apply negb_true_iff.
Qed.

Lemma resolve_Ok t d t' :
  resolve (PE := PE) t d = Ok t' ->
  t_state t = NeedsMe /\ exists l1 x l2, t_steps t = l1 ++ x :: l2 /\
    st_id x = re_step_id d /\ st_needs_me x = Some (re_target d) /\
    t' = match re_decision d with
         | Resume => set_progress t Running (l1 ++ set_step x Running :: l2)
         | Deny => set_progress t Failed (cancel_unfinished (l1 ++ set_step x Failed :: l2))
         end.
Proof.
  unfold resolve. intros (_ & Hs%ensure_Ok%bool_decide_eq_true & Hk)%bind_Ok. split; [done|].
  destruct (update_first _ _ _) as [l'|] eqn:E; [|done]. cbn [ok_or mbind result_bind] in Hk.
  apply update_first_Some in E as (l1 & x & l2 & Hl & -> & Hx).
  unfold decides in Hx. rewrite andb_true_iff, !bool_decide_eq_true in Hx. destruct Hx as [Hid Ht].
  exists l1, x, l2. split_and!; [done..|]. destruct (re_decision d); by injection Hk as <-.
Qed.

Lemma validate_resolution_Ok t d since u :
  validate_resolution (PE := PE) t d since = Ok u ->
  exists opened, since !! re_step_id d = Some opened /\ opened <= re_base_revision d.
Proof.
  unfold validate_resolution. intros (x & _ & Hk)%bind_Ok. destruct (negb _); [done|].
  case_bool_decide; [done|]. destruct (since !! _) as [o|]; [|done].
  case_bool_decide; [done|]. exists o. split; [done|lia].
Qed.

Lemma transition_moved s t e g t' D A :
  transition (PE := PE) t s e g = Ok (t', D, A) -> moved s t e g t' D A.
Proof.
  unfold transition. destruct (ev_event e) as [| | | |u|v|d] eqn:E; try done.
  - intros (? & Ha & [= <- <- <-])%bind_Ok. eapply answer_moved; [by rewrite E|done].
  - intros (? & Ha & [= <- <- <-])%bind_Ok. eapply answer_moved; [by rewrite E|done].
  - intros (_ & Hp%ensure_Ok%bool_decide_eq_true & Hk)%bind_Ok.
    apply bind_Ok in Hk as (_ & Hac%ensure_Ok & Hk).
    apply bind_Ok in Hk as (? & [Hu ->]%update_task_Ok & [= <- <- <-]). by apply mv_update.
  - intros (? & [Hh Hr]%requester_Ok & [= <- <- <-])%bind_Ok. by eapply mv_cancel.
  - intros (? & [Hh Hr]%requester_Ok & Hk)%bind_Ok.
    apply bind_Ok in Hk as (_ & Hd%ensure_Ok%bool_decide_eq_true & Hk).
    apply bind_Ok in Hk as (? & (o & Ho & Hle)%validate_resolution_Ok & Hk).
    apply bind_Ok in Hk as (? & (Hs & l1 & y & l2 & Hl & Hid & Ht & ->)%resolve_Ok & [= <- <- <-]).
    by eapply mv_resolve.
Qed.

Definition started (v : TaskStart) : Task :=
  mkTask (sa_task_id v) (sa_conversation_id v) (Some (sa_requester v)) None (sa_assignee v)
    (take 256 (first_line (trim (sa_text v)))) (Some (sa_text v)) (sa_constraints v) 1 Running []
    None None true.

Definition proposed (v : TaskProposal) : Task :=
  mkTask (pr_task_id v) (pr_conversation_id v) None (Some (pr_proposer v)) (pr_assignee v)
    (pr_title v) None None 1 Proposed (pr_steps v) None None false.

Inductive reduced (s : TaskState) e g : TaskState -> Prop :=
| rd_start v :
    ev_event e = Start v -> task s = None -> actor_type g = Human -> principal_id g = sa_requester v ->
    reduced s e g (mkTaskState (Some (started v)) (decisions s) (approvals s) (pending_since s))
| rd_propose v :
    ev_event e = Proposal v -> task s = None -> actor_type g <> Human -> principal_id g = pr_proposer v ->
    Forall (fun x => st_state x = Proposed) (pr_steps v) ->
    reduced s e g (mkTaskState (Some (proposed v)) (decisions s) (approvals s) (pending_since s))
| rd_move t t' D A :
    task s = Some t -> is_terminal (t_state t) = false -> t_version t + 1 <= MAX_TASK_VERSION ->
    check_revision (PE := PE) t e (t_version t + 1) = Ok tt -> moved s t e g t' D A ->
    reduced s e g (mkTaskState (Some (set_version t' (t_version t + 1))) D A
      (open_since (t_steps t') (t_version t + 1) (pending_since s))).

Lemma initialize_reduced s e g s' :
  task s = None -> initialize (PE := PE) s e g = Ok s' -> reduced s e g s'.
Proof.
  intros Hn. unfold initialize. intros (t & Ht & [= <-])%bind_Ok.
  destruct (ev_event e) as [v|v| | | | |] eqn:E; try done.
  - apply bind_Ok in Ht as (? & Hh%human_Ok & Ht).
    apply bind_Ok in Ht as (_ & Hp%ensure_Ok%bool_decide_eq_true & [= <-]). by apply rd_start.
  - apply bind_Ok in Ht as (? & Ha%ensure_Ok%bool_decide_eq_true & Ht).
    apply bind_Ok in Ht as (_ & Hp%ensure_Ok%bool_decide_eq_true & Ht).
    apply bind_Ok in Ht as (_ & Hs%ensure_Ok & [= <-]). apply rd_propose; [done..|by destruct Ha as [-> | ->]|done|].
    apply Forall_forall. intros y Hy. apply dec_stable. intros Hne. rewrite negb_true_iff in Hs.
    rewrite (proj2 (existsb_exists _ _)) in Hs; [done|]. exists y.
    split; [by apply list_elem_of_In|by apply bool_decide_eq_true].
Qed.

Lemma reduce_reduced s e g s' : reduce (PE := PE) s e g = Ok s' -> reduced s e g s'.
Proof.
  intros Hr. destruct (task s) as [t|] eqn:Et.
  - assert (exists k, Ok s' = k /\ k = (
      ensure (bool_decide (t_task_id t = body_task_id (ev_event e) /\
        t_conversation_id t = ev_conversation_id e)) ContextMismatch ≫= fun _ =>
      ensure (negb (is_terminal (t_state t))) Terminal ≫= fun _ =>
      ok_or (u64_checked_add (t_version t) 1 ≫= fun n =>
        if bool_decide (n <= MAX_TASK_VERSION) then Some n else None) InvalidVersion ≫= fun expected =>
      check_revision (PE := PE) t e expected ≫= fun _ =>
      transition t s e g ≫= fun '(t, decisions, approvals) =>
      Ok (mkTaskState (Some (set_version t expected)) decisions approvals
        (open_since (t_steps t) expected (pending_since s))))) as (k & Hk & ->).
    { unfold reduce in Hr. rewrite Et in Hr. destruct (ev_event e) eqn:Ee; try done;
        (eexists; split; [|reflexivity]; symmetry; exact Hr). }
    symmetry in Hk. apply bind_Ok in Hk as (_ & _ & Hk).
    apply bind_Ok in Hk as (_ & Ht%ensure_Ok%negb_true_iff & Hk).
    apply bind_Ok in Hk as (n & Hn & Hk). apply bind_Ok in Hk as ([] & Hc & Hk).
    apply bind_Ok in Hk as ([[t' D] A] & Hm%transition_moved & [= <-]).
    assert (n = t_version t + 1 /\ n <= MAX_TASK_VERSION) as [-> Hle].
    { unfold u64_checked_add in Hn. case_decide; [|done]. simpl in Hn.
      case_bool_decide; [|done]. by injection Hn as <-. }
    by eapply rd_move.
  - unfold reduce in Hr. rewrite Et in Hr. destruct (ev_event e) eqn:Ee; try done;
      (rewrite bool_decide_false in Hr by (by intros []); by apply initialize_reduced).
Qed.

Lemma validate_steps e :
  validate e = Ok tt ->
  match ev_event e with
  | Proposal v => steps_wf (pr_steps v) | Update u => steps_wf (up_steps u) | _ => True
  end.
Proof.
  unfold validate. do 6 (intros (_ & _ & Hk)%bind_Ok; revert Hk).
  intros ([] & Hb & _)%bind_Ok. unfold validate_body in Hb. destruct (ev_event e); try done.
  - do 4 (apply bind_Ok in Hb as (_ & _ & Hb)). by apply steps_Ok.
  - apply bind_Ok in Hb as ([] & Hs & _). by apply steps_Ok.
Qed.

(** Accepted events. *)
Definition accepted (s : TaskState) e g (s' : TaskState) : Prop := exists t, apply s e g = (s', Ok t).

Lemma accepted_cases s e g s' :
  accepted s e g s' -> reduced s e g s' /\
  match ev_event e with
  | Proposal v => steps_wf (pr_steps v) | Update u => steps_wf (up_steps u) | _ => True
  end.
Proof.
  intros [t Ha]. unfold apply in Ha. destruct (verify e g) as [[]|] eqn:Ev; [|done].
  cbn [mbind result_bind] in Ha. destruct (reduce s e g) as [next|] eqn:Er; [|done].
  injection Ha as <- _. split; [by apply reduce_reduced|].
  unfold verify in Ev. apply bind_Ok in Ev as ([] & Hv & _). by apply validate_steps.
Qed.

(** ** When interventions opened *)

Definition open_step (l : list TaskStep) (id : text) : Prop :=
  exists x, x ∈ l /\ st_id x = id /\ is_Some (st_needs_me x).

Lemma open_fold (n : N) (l : list TaskStep) (m : gmap text N) id :
  foldl (fun m s => if m !! st_id s then m else <[st_id s := n]> m) m l !! id =
  match m !! id with Some v => Some v | None => if decide (id ∈ st_id <$> l) then Some n else None end.
Proof.
  revert m. induction l as [|x l IH]; intros m; cbn [foldl].
  { destruct (m !! id); [done|]. by rewrite decide_False by apply not_elem_of_nil. }
  rewrite IH, fmap_cons. destruct (m !! st_id x) as [v|] eqn:E.
  - destruct (m !! id) eqn:E'; [done|]. apply decide_ext. rewrite elem_of_cons.
    split; [by right|]. intros [->|]; [congruence|done].
  - destruct (decide (id = st_id x)) as [->|Hne].
    + rewrite lookup_insert_eq, E, decide_True; [done|]. by left.
    + rewrite lookup_insert_ne by done. destruct (m !! id); [done|].
      apply decide_ext. rewrite elem_of_cons. naive_solver.
Qed.

Lemma open_since_spec l n m id v :
  open_since l n m !! id = Some v <->
  open_step l id /\ match m !! id with Some v' => v = v' | None => v = n end.
Proof.
  assert (existsb (fun s => bool_decide (st_id s = id) && pending s) l = true <-> open_step l id) as He.
  { rewrite existsb_exists. unfold open_step. apply exist_proper. intros x.
    rewrite list_elem_of_In, andb_true_iff, bool_decide_eq_true, pending_spec. done. }
  assert (id ∈ st_id <$> filter (fun s => pending s = true) l <-> open_step l id) as Hf.
  { rewrite list_elem_of_fmap. unfold open_step. apply exist_proper. intros x.
    rewrite list_elem_of_filter, pending_spec. naive_solver. }
  unfold open_since. cbv zeta. rewrite open_fold.
  destruct (filter _ m !! id) as [v'|] eqn:E.
  - apply map_lookup_filter_Some in E as [Hm Ho]. rewrite Hm. simpl in Ho. apply He in Ho. naive_solver.
  - case_decide as Hin; rewrite Hf in Hin; [|naive_solver].
    destruct (m !! id) as [v'|] eqn:Em; [|naive_solver].
    apply map_lookup_filter_None in E as [E|E]; [congruence|]. exfalso. eapply E; [done|]. by apply He.
Qed.

(** ** Invariant *)

Record task_wf (s : TaskState) t : Prop := {
  tw_steps : steps_wf (t_steps t);
  tw_open : t_state t = NeedsMe <-> exists id, open_step (t_steps t) id;
  tw_since id : is_Some (pending_since s !! id) <-> open_step (t_steps t) id;
  tw_fresh x (g : text) : x ∈ t_steps t -> st_needs_me x = Some (Approval g) -> g ∉ approvals s;
  tw_accepted : t_accepted t = true -> is_Some (t_requester t) /\ t_state t <> Proposed;
  tw_waiting : t_accepted t = false -> t_state t = Proposed \/ t_state t = Cancelled;
  tw_proposed : t_state t = Proposed -> t_requester t = None;
}.

Definition task_inv (s : TaskState) : Prop :=
  match task s with Some t => task_wf s t | None => s = TaskState_default end.

(** Accepted events in order, the latest first. *)
Inductive task_run : list (TaskEvent * TaskSigner) -> TaskState -> Prop :=
| run_start : task_run [] TaskState_default
| run_accept log s e g s' : task_run log s -> accepted s e g s' -> task_run ((e, g) :: log) s'.

Lemma no_open l id : no_pending l -> ~ open_step l id.
Proof.
  unfold no_pending. rewrite Forall_forall. intros Hl (x & Hx & _ & [n Hn]). rewrite Hl in Hn; done.
Qed.

(** The same, with the states passed on the way, the latest first. *)
Inductive task_trace : list (TaskEvent * TaskSigner) -> list TaskState -> TaskState -> Prop :=
| trace_start : task_trace [] [] TaskState_default
| trace_accept log past s e g s' :
    task_trace log past s -> accepted s e g s' -> task_trace ((e, g) :: log) (s :: past) s'.

Lemma trace_run log past s : task_trace log past s -> task_run log s.
Proof. induction 1; [constructor|by econstructor]. Qed.

#[export] Instance open_step_dec l id : Decision (open_step l id).
Proof.
  refine (cast_if (decide (Exists (fun x => st_id x = id /\ is_Some (st_needs_me x)) l)));
    rewrite Exists_exists in *; done.
Defined.

(** The revision at which a step that is open now began to be open: the earliest
    of the latest states in a row in which it is. *)
Fixpoint opened_at (states : list TaskState) (id : text) : option N :=
  match states with
  | [] => None
  | s :: past =>
      match task s with
      | None => None
      | Some t =>
          if decide (open_step (t_steps t) id)
          then Some (default (t_version t) (opened_at past id)) else None
      end
  end.

(** The state after a move on a well-formed step list. *)
Lemma moved_wf s t t' D A :
  steps_wf (t_steps t') ->
  (t_state t' = NeedsMe <-> exists id, open_step (t_steps t') id) ->
  (forall x (g : text), x ∈ t_steps t' -> st_needs_me x = Some (Approval g) -> g ∉ A) ->
  (t_accepted t' = true -> is_Some (t_requester t') /\ t_state t' <> Proposed) ->
  (t_accepted t' = false -> t_state t' = Proposed \/ t_state t' = Cancelled) ->
  (t_state t' = Proposed -> t_requester t' = None) ->
  task_wf (mkTaskState (Some (set_version t' (t_version t + 1))) D A
    (open_since (t_steps t') (t_version t + 1) (pending_since s))) (set_version t' (t_version t + 1)).
Proof.
  intros Hsteps Hopen Hfresh Hacc Hwait Hprop. split; simpl; try done.
  - intros id. split.
    + intros [v Hv]. by apply open_since_spec in Hv as [Ho _].
    + intros Ho. destruct (pending_since s !! id) as [v|] eqn:E.
      * exists v. apply open_since_spec. by rewrite E.
      * exists (t_version t + 1). apply open_since_spec. by rewrite E.
Qed.

Lemma no_pending_approval (l : list TaskStep) (x : TaskStep) (g : text) (A : gset text) :
  no_pending l -> x ∈ l -> st_needs_me x = Some (Approval g) -> g ∉ A.
Proof. unfold no_pending. rewrite Forall_forall. intros Hl Hx Hn. rewrite Hl in Hn; done. Qed.

Lemma decided_no_pending l1 x l2 st :
  steps_wf (l1 ++ x :: l2) -> is_Some (st_needs_me x) -> no_pending (l1 ++ set_step x st :: l2).
Proof.
  intros Hw Hx. apply Forall_forall. intros y Hy.
  assert (forall y, y ∈ l1 \/ y ∈ l2 -> st_needs_me y = None) as Hrest.
  { intros z Hz. apply eq_None_not_Some. intros Hn.
    assert (z = x) as ->.
    { apply (wf_one _ Hw); [|by apply elem_of_app; right; left|done|done].
      rewrite elem_of_app, elem_of_cons. tauto. }
    pose proof (wf_ids _ Hw) as Hnd. rewrite fmap_app, fmap_cons in Hnd.
    apply NoDup_app in Hnd as (_ & Hdis & Hnd). apply NoDup_cons in Hnd as [Hni _].
    destruct Hz as [Hz|Hz]; [|by apply Hni, list_elem_of_fmap_2].
    apply (Hdis (st_id x)); [by apply list_elem_of_fmap_2|by left]. }
  apply elem_of_app in Hy as [Hy|Hy]; [auto|]. apply elem_of_cons in Hy as [->|Hy]; [done|auto].
Qed.

Lemma decided_wf l1 x l2 st :
  steps_wf (l1 ++ x :: l2) -> is_Some (st_needs_me x) -> st <> NeedsMe ->
  steps_wf (l1 ++ set_step x st :: l2).
Proof.
  intros Hw Hx Hst. pose proof (decided_no_pending _ _ _ st Hw Hx) as Hnp. split.
  - pose proof (wf_length _ Hw) as Hl. rewrite length_app in *. done.
  - pose proof (wf_ids _ Hw) as Hn. rewrite fmap_app, fmap_cons in *. done.
  - pose proof (wf_marked _ Hw) as Hm. rewrite Forall_app, Forall_cons in *.
    destruct Hm as (H1 & _ & H2). split_and!; [done| |done]. simpl. split; [done|by intros []].
  - by apply no_pending_one.
Qed.

Lemma check_steps_Ok l olds :
  check_steps (PE := PE) l olds = Ok tt ->
  forall old, old ∈ olds -> exists new, new ∈ l /\ st_id new = st_id old /\
    (is_Some (st_needs_me old) \/ is_terminal (st_state old) = true -> new = old).
Proof.
  induction olds as [|x olds IH]; intros Hc old Hold; [by apply not_elem_of_nil in Hold|].
  cbn [check_steps] in Hc. apply bind_Ok in Hc as ([] & Hx & Hc).
  apply elem_of_cons in Hold as [->|Hold]; [|by apply IH]. clear IH Hc.
  unfold check_step in Hx. apply bind_Ok in Hx as (new & Hf & Hx).
  destruct (find _ l) as [y|] eqn:E; [|done]. injection Hf as ->. apply find_some in E as [Hin Hid].
  exists new. split_and!; [by apply list_elem_of_In|by apply bool_decide_eq_true in Hid|].
  intros Hor. apply dec_stable. intros Hne.
  rewrite (bool_decide_true (x <> new)) in Hx by congruence.
  destruct Hor as [Hp%pending_spec|Ht]; rewrite ?Hp, ?Ht in Hx; [done|]. by destruct (pending x).
Qed.

Lemma no_open_iff l st : no_pending l -> st <> NeedsMe -> st = NeedsMe <-> exists id, open_step l id.
Proof. intros Hl Hst. split; [done|]. intros [id Ho]. by apply no_open in Ho. Qed.

Lemma cancelled_wf t : steps_wf (t_steps t) -> steps_wf (cancel_unfinished (t_steps t)).
Proof. intros [Hl Hn _ _]. by apply cancel_wf. Qed.

Lemma not_waiting s t : task_wf s t -> t_state t <> NeedsMe -> no_pending (t_steps t).
Proof.
  intros Hw Hs. apply Forall_forall. intros x Hx. apply eq_None_not_Some. intros Hn. apply Hs.
  apply (tw_open _ _ Hw). exists (st_id x), x. done.
Qed.

#[local] Hint Resolve cancel_no_pending cancelled_wf no_pending_approval : ramflux.

Lemma update_wf s t u :
  steps_wf (up_steps u) -> updates t u (approvals s) -> t_accepted t = true -> task_wf s t ->
  task_wf (mkTaskState (Some (set_version (set_result (set_progress t (up_state u) (up_steps u))
      (up_result_ref u) (up_result_summary u)) (t_version t + 1))) (decisions s) (approvals s)
    (open_since (up_steps u) (t_version t + 1) (pending_since s)))
   (set_version (set_result (set_progress t (up_state u) (up_steps u))
      (up_result_ref u) (up_result_summary u)) (t_version t + 1)).
Proof.
  intros Hs Hu Ha Hw.
  apply (moved_wf s t (set_result (set_progress t (up_state u) (up_steps u)) (up_result_ref u)
    (up_result_summary u))); simpl; try done.
  - rewrite (upd_open _ _ _ Hu). split.
    + intros [x [Hx Hn]%find_pending_Some]. by exists (st_id x), x.
    + intros [id (x & Hx & _ & Hn)]. destruct (find pending (up_steps u)) eqn:E; [eauto|].
      apply find_pending_None in E. by eapply Forall_forall in E; [rewrite E in Hn; destruct Hn|].
  - intros x gr Hx Hn Hin. pose proof (upd_fresh _ _ _ Hu) as Hf. unfold replayed_approval in Hf.
    destruct (find pending (up_steps u)) as [y|] eqn:E.
    + apply find_pending_Some in E as [Hy Hny].
      assert (y = x) as -> by (apply (wf_one _ Hs); try done; by rewrite Hn).
      simpl in Hf. rewrite Hn in Hf. by apply bool_decide_eq_false in Hf.
    + apply find_pending_None in E. eapply Forall_forall in E; [|done]. congruence.
  - intros _. split; [apply (tw_accepted _ _ Hw Ha)|]. destruct (upd_state _ _ _ Hu) as [?|[?|[?|?]]]; congruence.
  - congruence.
  - destruct (upd_state _ _ _ Hu) as [?|[?|[?|?]]]; congruence.
Qed.

Lemma moved_inv s t e g t' D A :
  task_wf s t -> is_terminal (t_state t) = false -> moved s t e g t' D A ->
  match ev_event e with Update u => steps_wf (up_steps u) | _ => True end ->
  task_wf (mkTaskState (Some (set_version t' (t_version t + 1))) D A
    (open_since (t_steps t') (t_version t + 1) (pending_since s))) (set_version t' (t_version t + 1)).
Proof.
  intros Hw Hnt Hm Hu. pose proof (tw_steps _ _ Hw) as Hs. 
  destruct Hm as [b Hb Hh Hp Hne|v Hv Hh Hr|u He Hpr Hac Hup|d l1 x l2 o Hd Hh Hr Hni Hst Hl Hid Htg Ho Hle].
  - assert (no_pending (t_steps t)) as Hnp by (eapply not_waiting; [done|congruence]).
    apply moved_wf; simpl; try done; destruct b; simpl; eauto with ramflux;
      try (apply no_open_iff; eauto with ramflux); done.
  - apply moved_wf; simpl; eauto with ramflux; try done.
    apply no_open_iff; eauto with ramflux.
  - rewrite He in Hu. by apply update_wf.
  - rewrite Hl in Hs. assert (is_Some (st_needs_me x)) as Hx by by rewrite Htg.
    assert (t_accepted t = true) as Ha.
    { destruct (t_accepted t) eqn:E; [done|]. destruct (tw_waiting _ _ Hw E); congruence. }
    pose proof (tw_accepted _ _ Hw Ha) as [Hrq _].
    destruct (re_decision d); apply moved_wf; simpl; try done; try congruence.
    + by apply decided_wf.
    + apply no_open_iff; [by apply decided_no_pending|done].
    + intros y gr. apply no_pending_approval. by apply decided_no_pending.
    + apply (cancelled_wf (set_progress t Failed (l1 ++ set_step x Failed :: l2))). by apply decided_wf.
    + apply no_open_iff; eauto with ramflux.
    + intros y gr. apply no_pending_approval, cancel_no_pending.
Qed.

Lemma accepted_inv s e g s' : task_inv s -> accepted s e g s' -> task_inv s'.
Proof.
  intros Hi [Hr Hv]%accepted_cases. unfold task_inv in Hi.
  destruct Hr as [v He Hn Hh Hp|v He Hn Hh Hp Hst|t t' D A Ht Hnt Hmax Hc Hm]; simpl.
  - rewrite Hn in Hi. subst s. split; simpl; try done.
    + split; [simpl; lia|constructor|constructor|by intros ? ? ?%not_elem_of_nil].
    + apply no_open_iff; [constructor|done].
    + intros id. split; [by intros []|]. by intros Ho%no_open; [|constructor].
  - rewrite Hn in Hi. subst s. rewrite He in Hv.
    assert (no_pending (pr_steps v)) as Hnp.
    { apply Forall_forall. intros x Hx. apply eq_None_not_Some. intros Hp'.
      pose proof (wf_marked _ Hv) as Hm. rewrite Forall_forall in Hm. apply (Hm x Hx) in Hp'.
      rewrite Forall_forall in Hst. rewrite Hst in Hp'; done. }
    split; simpl; try done; eauto with ramflux.
    + apply no_open_iff; [done|done].
    + intros id. split; [by intros []|]. by intros Ho%no_open.
  - rewrite Ht in Hi. eapply moved_inv; try done. by destruct (ev_event e).
Qed.

Lemma run_inv log s : task_run log s -> task_inv s.
Proof. induction 1; [done|]. by eapply accepted_inv. Qed.

(** The recorded revisions are those at which the steps opened. *)
Lemma trace_opened log past s id : task_trace log past s -> pending_since s !! id = opened_at (s :: past) id.
Proof.
  induction 1 as [|log past s e g s' Htr IH Hacc]; [done|].
  pose proof (run_inv _ _ (trace_run _ _ _ Htr)) as Hi. pose proof (accepted_inv _ _ _ _ Hi Hacc) as Hi'.
  apply accepted_cases in Hacc as [Hr _]. cbn [opened_at].
  destruct Hr as [v He Hn Hh Hp|v He Hn Hh Hp Hst|t t' D A Ht Hnt Hmax Hc Hm]; cbn [task pending_since];
    cbn [opened_at] in IH.
  - unfold task_inv in *. rewrite Hn in IH, Hi. rewrite decide_False; [done|].
    intros Ho%(tw_since _ _ Hi'). cbn [pending_since] in Ho. rewrite IH in Ho. by destruct Ho.
  - unfold task_inv in *. rewrite Hn in IH, Hi. rewrite decide_False; [done|].
    intros Ho%(tw_since _ _ Hi'). cbn [pending_since] in Ho. rewrite IH in Ho. by destruct Ho.
  - rewrite <- IH. cbn [set_version t_steps t_version].
    apply option_eq. intros v. rewrite open_since_spec. case_decide; [|naive_solver].
    destruct (pending_since s !! id); naive_solver.
Qed.

(** ** What a move keeps *)

(** An open intervention stays as it is, or the human requester closed it and
    nothing is open any more. *)
Lemma pending_kept s t e g t' D A x n :
  task_wf s t -> moved s t e g t' D A -> x ∈ t_steps t -> st_needs_me x = Some n ->
  x ∈ t_steps t' \/
  (no_pending (t_steps t') /\ actor_type g = Human /\ t_requester t = Some (principal_id g) /\
   ((exists d, ev_event e = Resolve d /\ re_step_id d = st_id x /\ re_target d = n) \/
    (exists v, ev_event e = Cancel v))).
Proof.
  intros Hw Hm Hx Hn.
  destruct Hm as [b Hb Hh Hp Hne|v Hv Hh Hr|u He Hpr Hac Hup|d l1 y l2 o Hd Hh Hr Hni Hst Hl Hid Htg Ho Hle].
  - exfalso. assert (no_pending (t_steps t)) as Hnp by (eapply not_waiting; [done|congruence]).
    eapply Forall_forall in Hnp; [|done]. congruence.
  - right. split_and!; [apply cancel_no_pending|done|done|eauto].
  - left. destruct (check_steps_Ok _ _ (upd_checked _ _ _ Hup) x Hx) as (new & Hnew & _ & Heq).
    rewrite Heq in Hnew; [done|]. left. by rewrite Hn.
  - right. pose proof (tw_steps _ _ Hw) as Hs. assert (x = y) as ->.
    { apply (wf_one _ Hs); [done| |by rewrite Hn|by rewrite Htg]. rewrite Hl. apply elem_of_app. right. by left. }
    split_and!; [|done..|left; exists d; split_and!; [done..|congruence]].
    rewrite Hl in Hs. destruct (re_decision d); simpl; [|apply cancel_no_pending].
    apply decided_no_pending; [done|by rewrite Htg].
Qed.

(** Finished steps stay as they are. *)
Lemma terminal_kept s t e g t' D A x :
  task_wf s t -> moved s t e g t' D A -> x ∈ t_steps t -> is_terminal (st_state x) = true ->
  x ∈ t_steps t'.
Proof.
  intros Hw Hm Hx Ht. pose proof (tw_steps _ _ Hw) as Hs.
  assert (st_needs_me x = None) as Hn.
  { apply eq_None_not_Some. intros Hp. pose proof (wf_marked _ Hs) as Hmk.
    eapply Forall_forall in Hmk; [|exact Hx]. apply Hmk in Hp. by rewrite Hp in Ht. }
  destruct Hm as [b Hb Hh Hp Hne|v Hv Hh Hr|u He Hpr Hac Hup|d l1 y l2 o Hd Hh Hr Hni Hst Hl Hid Htg Ho Hle].
  - destruct b; simpl; [done|]. by apply cancel_keeps.
  - by apply cancel_keeps.
  - destruct (check_steps_Ok _ _ (upd_checked _ _ _ Hup) x Hx) as (new & Hnew & _ & Heq).
    rewrite Heq in Hnew; [done|]. by right.
  - assert (x ∈ l1 \/ x ∈ l2) as Hin.
    { rewrite Hl, elem_of_app, elem_of_cons in Hx. destruct Hx as [Hx|[->|Hx]]; [by left|congruence|by right]. }
    assert (forall st, x ∈ l1 ++ set_step y st :: l2) as Hkeep.
    { intros st. rewrite elem_of_app, elem_of_cons. tauto. }
    destruct (re_decision d); simpl; [done|]. by apply cancel_keeps.
Qed.

(** The acceptance of a task and the people involved. *)
Lemma moved_parties s t e g t' D A :
  task_wf s t -> moved s t e g t' D A ->
  t_proposer t' = t_proposer t /\
  (t_accepted t = true -> t_accepted t' = true /\ t_requester t' = t_requester t) /\
  (t_accepted t = false -> t_accepted t' = true ->
    actor_type g = Human /\ t_requester t' = Some (principal_id g) /\
    t_proposer t' <> Some (principal_id g) /\ exists v, ev_event e = Accept v).
Proof.
  intros Hw Hm.
  destruct Hm as [b Hb Hh Hp Hne|v Hv Hh Hr|u He Hpr Hac Hup|d l1 y l2 o Hd Hh Hr Hni Hst Hl Hid Htg Ho Hle].
  - simpl. split_and!; [done| |].
    + intros Ha. destruct (tw_accepted _ _ Hw Ha). congruence.
    + intros _ ->. split_and!; [done..|]. destruct (ev_event e); simpl in Hb; try done. eauto.
  - simpl. split_and!; [done|done|congruence].
  - simpl. split_and!; [done|done|congruence].
  - destruct (re_decision d); simpl; (split_and!; [done|done|congruence]).
Qed.

Lemma accepted_task s e g s' : accepted s e g s' -> is_Some (task s').
Proof. intros [Hr _]%accepted_cases. destruct Hr; simpl; eauto. Qed.

Lemma run_empty log s : task_run log s -> task s = None -> log = [].
Proof.
  destruct 1 as [|log s e g s' _ Ha]; [done|]. intros Hn.
  apply accepted_task in Ha as [t Ht]. congruence.
Qed.

Lemma run_version log s t :
  task_run log s -> task s = Some t -> t_version t = N.of_nat (length log) /\ t_version t <= MAX_TASK_VERSION.
Proof.
  intros Hr. revert t. induction Hr as [|log s e g s' Hr IH Ha]; intros t Ht; [done|].
  pose proof (run_inv _ _ Hr) as Hi. apply accepted_cases in Ha as [Hred _].
  destruct Hred as [v He Hn Hh Hp|v He Hn Hh Hp Hst|t0 t' D A Ht0 Hnt Hmax Hc Hm];
    simpl in Ht; injection Ht as <-; simpl.
  1,2: rewrite (run_empty _ _ Hr Hn); simpl; lia.
  destruct (IH _ Ht0) as [Hv _]. lia.
Qed.


(** ** What a run consumed *)

Definition decision_of (p : TaskEvent * TaskSigner) : option text :=
  match ev_event p.1 with Resolve d => Some (re_decision_id d) | _ => None end.

Definition grant_of (p : TaskEvent * TaskSigner) : option text :=
  match ev_event p.1 with
  | Resolve d => match re_target d with Approval grant_id => Some grant_id | _ => None end
  | _ => None
  end.

Definition add_opt (o : option text) (X : gset text) : gset text :=
  match o with Some a => {[a]} ∪ X | None => X end.

(** A move adds what its event consumes, which was not consumed before. *)
Lemma moved_consumes s t e g t' D A :
  task_wf s t -> moved s t e g t' D A ->
  D = add_opt (decision_of (e, g)) (decisions s) /\ A = add_opt (grant_of (e, g)) (approvals s) /\
  (forall a, decision_of (e, g) = Some a -> a ∉ decisions s) /\
  (forall a, grant_of (e, g) = Some a -> a ∉ approvals s).
Proof.
  intros Hw Hm. unfold decision_of, grant_of. simpl.
  destruct Hm as [b Hb Hh Hp Hne|v Hv Hh Hr|u He Hpr Hac Hup|d l1 y l2 o Hd Hh Hr Hni Hst Hl Hid Htg Ho Hle].
  - by destruct (ev_event e).
  - by rewrite Hv.
  - by rewrite He.
  - rewrite Hd. split_and!; [done|by destruct (re_target d)|congruence|].
    intros a Ha. destruct (re_target d) as [gr| |] eqn:E; [|done..]. injection Ha as <-.
    apply (tw_fresh _ _ Hw y); [|done]. rewrite Hl. apply elem_of_app. right. by left.
Qed.

Lemma NoDup_omap_cons {A} (f : A -> option text) (X : gset text) a l :
  X = list_to_set (omap f l) -> (forall b, f a = Some b -> b ∉ X) -> NoDup (omap f l) ->
  add_opt (f a) X = list_to_set (omap f (a :: l)) /\ NoDup (omap f (a :: l)).
Proof.
  intros -> Hf Hl. csimpl. destruct (f a) as [b|]; simpl; [|done]. split; [done|].
  constructor; [|done]. specialize (Hf b eq_refl). by rewrite elem_of_list_to_set in Hf.
Qed.

Lemma run_consumed log s :
  task_run log s ->
  (decisions s = list_to_set (omap decision_of log) /\ NoDup (omap decision_of log)) /\
  (approvals s = list_to_set (omap grant_of log) /\ NoDup (omap grant_of log)).
Proof.
  induction 1 as [|log s e g s' Hr (HD & HA) Ha].
  { split; (split; [done|constructor]). }
  pose proof (run_inv _ _ Hr) as Hi. apply accepted_cases in Ha as [Hred _]. unfold task_inv in Hi.
  destruct HD as [HD HDn], HA as [HA HAn].
  destruct Hred as [v He Hn Hh Hp|v He Hn Hh Hp Hst|t t' D A Ht Hnt Hmax Hc Hm].
  - rewrite (run_empty _ _ Hr Hn) in *. unfold decision_of, grant_of. csimpl. rewrite He. done.
  - rewrite (run_empty _ _ Hr Hn) in *. unfold decision_of, grant_of. csimpl. rewrite He. done.
  - rewrite Ht in Hi. destruct (moved_consumes _ _ _ _ _ _ _ Hi Hm) as (-> & -> & HfD & HfA). simpl.
    split; by apply NoDup_omap_cons.
Qed.

(** ** Revisions at which an intervention was open *)

(** The state after the first accepted events of a run. *)
Definition at_revision (log : list (TaskEvent * TaskSigner)) (r : N) (x : TaskStep) : Prop :=
  exists earlier later s t, log = later ++ earlier /\ task_run earlier s /\ task s = Some t /\
    t_version t = r /\ x ∈ t_steps t.

Lemma at_revision_cons p log r x : at_revision log r x -> at_revision (p :: log) r x.
Proof. intros (l1 & l2 & s & t & -> & Hr). by exists l1, (p :: l2), s, t. Qed.

Lemma open_since_start log s t x o r :
  task_run log s -> task s = Some t -> x ∈ t_steps t -> is_Some (st_needs_me x) ->
  pending_since s !! st_id x = Some o -> o <= r <= t_version t -> at_revision log r x.
Proof.
  intros Hr. revert t x o r. induction Hr as [|log s e g s' Hr IH Ha]; intros t x o r Ht Hx Hn Ho Hrange; [done|].
  destruct (decide (r = t_version t)) as [->|Hne].
  { exists ((e, g) :: log), [], s', t. split_and!; try done. by eapply run_accept. }
  apply at_revision_cons. pose proof (run_inv _ _ Hr) as Hi. unfold task_inv in Hi.
  pose proof (accepted_inv _ _ _ _ (run_inv _ _ Hr) Ha) as Hi'. unfold task_inv in Hi'. rewrite Ht in Hi'.
  apply accepted_cases in Ha as [Hred _].
  destruct Hred as [v He Hnn Hh Hp|v He Hnn Hh Hp Hst|t0 t' D A Ht0 Hnt Hmax Hc Hm].
  - rewrite Hnn in Hi. by subst s.
  - rewrite Hnn in Hi. by subst s.
  - rewrite Ht0 in Hi. simpl in Ht, Ho. injection Ht as <-. simpl in Hx, Hrange, Hne.
    apply open_since_spec in Ho as [_ Ho]. destruct (pending_since s !! st_id x) as [o'|] eqn:E; subst; [|lia].
    assert (open_step (t_steps t0) (st_id x)) as (y & Hy & Hid & [n Hyn]) by by apply (tw_since _ _ Hi).
    destruct (pending_kept _ _ _ _ _ _ _ _ _ Hi Hm Hy Hyn) as [Hy'|(Hnp & _)].
    + assert (y = x) as -> by (eapply ids_unique; [apply (wf_ids _ (tw_steps _ _ Hi'))|done..]).
      eapply IH; try done. lia.
    + eapply Forall_forall in Hnp; [|exact Hx]. rewrite Hnp in Hn. by destruct Hn.
Qed.

Lemma not_accepted s e g : (forall s', ~ reduced s e g s') -> exists r, apply s e g = (s, Err r).
Proof.
  intros Hn. unfold apply. destruct (verify e g ≫= _) as [next|r] eqn:E; [|eauto].
  apply bind_Ok in E as (? & _ & Hr%reduce_reduced). by apply Hn in Hr.
Qed.

(** ** Properties *)

(** C34: Every task state reached by accepted events is well formed. Steps have
    distinct ids and respect the limit, at most one is open, the task waits for
    its human exactly when one is, no consumed approval is asked for again, and the
    revision counts the accepted events within the interoperable range. For every
    step, the recorded opening revision is that of the first of the latest states
    in a row in which the step is open, and there is none if it is not open. *)
Theorem task_state_invariant log past s :
  task_trace log past s ->
  (forall id, pending_since s !! id = opened_at (s :: past) id) /\
  match task s with
  | None => log = [] /\ s = TaskState_default
  | Some t => task_wf s t /\ t_version t = N.of_nat (length log) /\ t_version t <= MAX_TASK_VERSION
  end.
Proof.
  intros Htr. split; [intros id; by eapply trace_opened|]. pose proof (trace_run _ _ _ Htr) as Hr.
  pose proof (run_inv _ _ Hr) as Hi. unfold task_inv in Hi. destruct (task s) as [t|] eqn:E.
  - split; [done|]. by eapply run_version.
  - split; [by eapply run_empty|done].
Qed.

(** C17: Only the human requester closes an open intervention. Whatever event is
    accepted, a step that waits for a decision is carried over unchanged,
    unless the human who requested the task either decided exactly that
    intervention or cancelled the task; afterwards nothing is open. *)
Theorem intervention_closed_by_requester log s t x n e g s' :
  task_run log s -> task s = Some t -> x ∈ t_steps t -> st_needs_me x = Some n -> accepted s e g s' ->
  exists t', task s' = Some t' /\
  (x ∈ t_steps t' \/
   (no_pending (t_steps t') /\ actor_type g = Human /\ t_requester t = Some (principal_id g) /\
    ((exists d, ev_event e = Resolve d /\ re_step_id d = st_id x /\ re_target d = n) \/
     (exists v, ev_event e = Cancel v)))).
Proof.
  intros Hr%run_inv Ht Hx Hn [Hred _]%accepted_cases. unfold task_inv in Hr. rewrite Ht in Hr.
  destruct Hred as [v He Hnn Hh Hp|v He Hnn Hh Hp Hst|t0 t' D A Ht0 Hnt Hmax Hc Hm]; [congruence..|].
  eexists. split; [done|]. rewrite Ht in Ht0. injection Ht0 as <-. exact (pending_kept _ _ _ _ _ _ _ _ _ Hr Hm Hx Hn).
Qed.

(** Decisions and approvals are consumed once. In the accepted events of a
    task no decision id occurs twice, and no approval grant is decided twice. *)
Theorem decisions_consumed_once log s :
  task_run log s -> NoDup (omap decision_of log) /\ NoDup (omap grant_of log).
Proof. intros [[_ H1] [_ H2]]%run_consumed. done. Qed.

(** A human decides only what they saw. An accepted decision names a base
    revision at which the very step it decides was open with the very target
    it names. *)
Theorem decision_observed log s e g s' d :
  task_run log s -> accepted s e g s' -> ev_event e = Resolve d ->
  exists x, st_id x = re_step_id d /\ st_needs_me x = Some (re_target d) /\
    at_revision log (re_base_revision d) x.
Proof.
  intros Hr Ha Hd. pose proof (run_inv _ _ Hr) as Hi. unfold task_inv in Hi.
  apply accepted_cases in Ha as [Hred _].
  destruct Hred as [v He Hnn Hh Hp|v He Hnn Hh Hp Hst|t t' D A Ht Hnt Hmax Hc Hm]; [congruence..|].
  rewrite Ht in Hi. unfold check_revision in Hc. rewrite Hd in Hc. simpl in Hc.
  case_bool_decide as Hbase; [done|].
  destruct Hm as [b Hb Hh Hp Hne|v Hv Hh Hr'|u He Hpr Hac Hup|d' l1 x l2 o Hd' Hh Hr' Hni Hst Hl Hid Htg Ho Hle];
    [by rewrite Hd in Hb|congruence|congruence|].
  assert (d' = d) as -> by congruence. exists x. split_and!; [done|done|].
  eapply open_since_start; [done|done| |by rewrite Htg|by rewrite Hid|lia].
  rewrite Hl. apply elem_of_app. right. by left.
Qed.

(** What is finished stays finished. A terminal task refuses every event
    and keeps its state, and a terminal step of a live task is carried over
    unchanged by every accepted event. *)
Theorem finished_is_final log s t e g :
  task_run log s -> task s = Some t ->
  (is_terminal (t_state t) = true -> exists r, apply s e g = (s, Err r)) /\
  (forall x s', x ∈ t_steps t -> is_terminal (st_state x) = true -> accepted s e g s' ->
    exists t', task s' = Some t' /\ x ∈ t_steps t').
Proof.
  intros Hr%run_inv Ht. unfold task_inv in Hr. rewrite Ht in Hr. split.
  - intros Hterm. apply not_accepted. intros s' Hred. destruct Hred; congruence.
  - intros x s' Hx Hxt [Hred _]%accepted_cases.
    destruct Hred as [v He Hnn Hh Hp|v He Hnn Hh Hp Hst|t0 t' D A Ht0 Hnt Hmax Hc Hm]; [congruence..|].
    eexists. split; [done|]. rewrite Ht in Ht0. injection Ht0 as <-. exact (terminal_kept _ _ _ _ _ _ _ _ Hr Hm Hx Hxt).
Qed.

(** Work begins with a human. If a task is accepted, its requester is a
    human who started it or accepted it, and is not its proposer. *)
Theorem accepted_by_human log s t :
  task_run log s -> task s = Some t -> t_accepted t = true ->
  exists e g, (e, g) ∈ log /\ actor_type g = Human /\ t_requester t = Some (principal_id g) /\
    t_proposer t <> Some (principal_id g) /\
    ((exists v, ev_event e = Start v) \/ (exists v, ev_event e = Accept v)).
Proof.
  intros Hr. revert t. induction Hr as [|log s e g s' Hr IH Ha]; intros t Ht Hacc; [done|].
  pose proof (run_inv _ _ Hr) as Hi. unfold task_inv in Hi. apply accepted_cases in Ha as [Hred _].
  destruct Hred as [v He Hn Hh Hp|v He Hn Hh Hp Hst|t0 t' D A Ht0 Hnt Hmax Hc Hm];
    simpl in Ht; injection Ht as <-.
  - exists e, g. split; [by left|]. simpl. rewrite Hp. split_and!; [done..|by left; exists v].
  - done.
  - rewrite Ht0 in Hi. destruct (moved_parties _ _ _ _ _ _ _ Hi Hm) as (Hpr & Hkeep & Hnew). simpl in Hacc |- *.
    destruct (t_accepted t0) eqn:E.
    + destruct (Hkeep eq_refl) as [_ ->]. rewrite Hpr. destruct (IH _ Ht0 E) as (e' & g' & Hin & Hrest).
      exists e', g'. split; [by right|done].
    + destruct (Hnew eq_refl Hacc) as (Hh & Hq & Hne & Hv). exists e, g. split; [by left|]. split_and!; [done..|by right].
Qed.

(** The requester can always stop the task. While a task is live and its
    revision can advance, a verified cancellation by its human requester
    against a known revision is accepted, whatever the assignee did; it ends
    the task and leaves nothing open. *)
Theorem requester_can_cancel s t e g v :
  task s = Some t -> is_terminal (t_state t) = false -> t_version t < MAX_TASK_VERSION ->
  t_requester t = Some (principal_id g) -> actor_type g = Human -> verify e g = Ok tt ->
  ev_event e = Cancel v -> ca_task_id v = t_task_id t -> ev_conversation_id e = t_conversation_id t ->
  ca_base_revision v <= t_version t ->
  exists s' t', apply s e g = (s', Ok t') /\ task s' = Some t' /\ t_state t' = Cancelled /\
    no_pending (t_steps t').
Proof.
  intros Ht Hnt Hmax Hreq Hh Hver He Hid Hconv Hbase.
  unfold apply. rewrite Hver. cbn [mbind result_bind]. unfold reduce. rewrite He, Ht. cbn [ok_or mbind result_bind].
  rewrite bool_decide_true by done. rewrite Hnt. cbn [ensure negb mbind result_bind].
  unfold u64_checked_add. rewrite decide_True by (unfold U64_MAX in *; lia).
  cbn [mbind option_bind]. rewrite bool_decide_true by lia. cbn [ok_or mbind result_bind].
  unfold check_revision. rewrite He. cbn [base_revision]. rewrite bool_decide_false by lia.
  cbn [mbind result_bind]. unfold transition. rewrite He.
  replace (requester t g) with (Ok (E := TaskReject PE) tt) by (symmetry; by apply requester_Ok).
  cbn [mbind result_bind]. eexists _, _. split_and!; [done|done|done|]. apply cancel_no_pending.
Qed.
End props.

(** ** A run *)

Module TasksRun.
#[local] Instance demo : TaskEnv unit := {|
  get_general_category c := if decide (c < 32) then Control else OtherLetter;
  canonical_json_bytes _ := Ok [];
  signed_bytes _ := Ok [];
  parse_i_json _ := Err tt;
  to_value _ := Err tt;
  validate_i_json_value _ := Ok tt;
  verify_canonical_signature _ sig key := if decide (sig = key) then Ok tt else Err tt;
|}.

Definition signer (id : string) (kind : ActorType) : TaskSigner := mkSigner (lit id) kind (lit id) (lit id).
Definition ada := signer "ada" Human.
Definition bot := signer "bot" Bot.

Definition signed_by (g : TaskSigner) (b : TaskEventBody) : TaskEvent :=
  mkEvent TASK_EVENT_SCHEMA 1 TASK_EVENT ∅ (mkTaskSigned (signer_key_id g) Ed25519 (principal_id g)) (lit "chat") b.

Definition ask_step : TaskStep := mkStep (lit "s1") (lit "deploy") NeedsMe (Some (Approval (lit "g1"))).
Definition done_step : TaskStep := mkStep (lit "s0") (lit "build") Done None.

Definition e1 := signed_by ada (Start (mkStart (lit "t") (lit "chat") (lit "ada") (lit "bot") (lit "ship it") None)).
Definition e2 := signed_by bot (Update (mkUpdate (lit "t") 2 NeedsMe [done_step; ask_step] None None)).
Definition e3 := signed_by ada (Resolve (mkResolve (lit "t") 2 (lit "s1") (Approval (lit "g1")) (lit "d1") Resume)).
Definition e4 := signed_by ada (Cancel (mkCancel (lit "t") 1)).

Definition s1 := (apply TaskState_default e1 ada).1.
Definition s2 := (apply s1 e2 bot).1.
Definition s3 := (apply s2 e3 ada).1.
Definition s4 := (apply s3 e4 ada).1.
Definition task_of (s : TaskState) : Task := default (started (mkStart [] [] [] [] [] None)) (task s).

Lemma has2 : task s2 = Some (task_of s2).
Proof. by vm_compute. Qed.
Lemma has3 : task s3 = Some (task_of s3).
Proof. by vm_compute. Qed.
Lemma has4 : task s4 = Some (task_of s4).
Proof. by vm_compute. Qed.

Lemma accepted1 : accepted TaskState_default e1 ada s1.
Proof. exists (task_of s1). by vm_compute. Qed.
Lemma accepted2 : accepted s1 e2 bot s2.
Proof. exists (task_of s2). by vm_compute. Qed.
Lemma accepted3 : accepted s2 e3 ada s3.
Proof. exists (task_of s3). by vm_compute. Qed.
Lemma accepted4 : accepted s3 e4 ada s4.
Proof. exists (task_of s4). by vm_compute. Qed.

Lemma run2 : task_run [(e2, bot); (e1, ada)] s2.
Proof. eapply run_accept; [eapply run_accept; [apply run_start|]|]; [apply accepted1|apply accepted2]. Qed.
Lemma run3 : task_run [(e3, ada); (e2, bot); (e1, ada)] s3.
Proof. eapply run_accept; [apply run2|apply accepted3]. Qed.
Lemma run4 : task_run [(e4, ada); (e3, ada); (e2, bot); (e1, ada)] s4.
Proof. eapply run_accept; [apply run3|apply accepted4]. Qed.

Lemma trace2 : task_trace [(e2, bot); (e1, ada)] [s1; TaskState_default] s2.
Proof. eapply trace_accept; [eapply trace_accept; [apply trace_start|]|]; [apply accepted1|apply accepted2]. Qed.

Lemma task_state_invariant_witness :
  task_wf s2 (task_of s2) /\ t_version (task_of s2) = 2 /\
  pending_since s2 !! st_id ask_step = opened_at [s2; s1; TaskState_default] (st_id ask_step).
Proof. destruct (task_state_invariant _ _ _ trace2) as (H & H1 & H2 & _). split; [exact H1|]. split; [exact H2|apply H]. Defined.

Lemma intervention_closed_by_requester_witness :
  t_state (task_of s2) = NeedsMe /\ exists t', task s3 = Some t' /\ (ask_step ∈ t_steps t' \/ no_pending (t_steps t')).
Proof.
  split; [by vm_compute|].
  destruct (intervention_closed_by_requester _ s2 (task_of s2) ask_step (Approval (lit "g1")) e3 ada s3
    run2 has2) as (t' & Ht & Hor); [by right; left|done|apply accepted3|].
  exists t'. split; [done|]. destruct Hor as [?|[? _]]; [by left|by right].
Defined.

Lemma decisions_consumed_once_witness :
  omap decision_of [(e4, ada); (e3, ada); (e2, bot); (e1, ada)] = [lit "d1"] /\ NoDup [lit "d1"].
Proof.
  split; [by vm_compute|]. apply (decisions_consumed_once _ _ run4).
Defined.

Lemma decision_observed_witness :
  exists x, st_id x = lit "s1" /\ at_revision [(e2, bot); (e1, ada)] 2 x.
Proof.
  destruct (decision_observed _ s2 e3 ada s3 _ run2 accepted3 eq_refl) as (x & H1 & _ & H3).
  exists x. split; [exact H1|exact H3].
Defined.

Lemma finished_is_final_witness :
  (exists r, apply s4 e2 bot = (s4, Err r)) /\ exists t', task s4 = Some t' /\ done_step ∈ t_steps t'.
Proof.
  destruct (finished_is_final _ s4 (task_of s4) e2 bot run4 has4) as [H1 _].
  destruct (finished_is_final _ s3 (task_of s3) e4 ada run3 has3) as [_ H2].
  split; [apply H1; by vm_compute|]. apply (H2 done_step); [|done|apply accepted4].
  assert (t_steps (task_of s3) = [done_step; set_step ask_step Running]) as -> by by vm_compute.
  by left.
Defined.

Lemma accepted_by_human_witness : exists e g, (e, g) ∈ [(e2, bot); (e1, ada)] /\ actor_type g = Human.
Proof.
  destruct (accepted_by_human _ s2 (task_of s2) run2 has2 eq_refl) as (e & g & H1 & H2 & _).
  exists e, g. split; assumption.
Defined.

Lemma requester_can_cancel_witness :
  exists s' t', apply s2 e4 ada = (s', Ok t') /\ t_state t' = Cancelled.
Proof.
  destruct (requester_can_cancel s2 (task_of s2) e4 ada (mkCancel (lit "t") 1))
    as (s' & t' & H1 & _ & H2 & _); [by vm_compute..|].
  exists s', t'. split; assumption.
Defined.
End TasksRun.
