(* ===== verification/Crypto.v ===== *)
(** * Key derivation, canonical headers and message franking

    The parts of the crypto crate the double ratchet is built from:
    [hkdf_sha256] and the domain-separated hashes (crates/ramflux-crypto/src/
    kdf.rs), the RFH1 canonical header (crates/ramflux-protocol/src/header.rs)
    and the committing-AEAD commitments (crates/ramflux-crypto/src/
    franking.rs). The primitives themselves come from other packages and are
    the class [Primitives]; [PrimitiveLaws] states what the proofs use of them. *)

From S2P Require Import Prelude Bytes.
From Stdlib Require Import Strings.Byte.

Open Scope N_scope.

(** ** Primitives *)

Class Primitives := {
  (** [Hmac::<Sha256>::new_from_slice(key)], [update], [finalize]; [None] is
      an invalid key length. *)
  hmac_sha256 : bytes -> bytes -> option bytes;
  (** [blake3::Hasher::new()] and [new_keyed] *)
  blake3 : bytes -> bytes;
  blake3_keyed : bytes -> bytes -> bytes;
  (** [X25519PublicKey::from(&secret)] and [diffie_hellman] *)
  x25519_public : bytes -> bytes;
  diffie_hellman : bytes -> bytes -> bytes;
  (** [ChaCha20Poly1305]: key, nonce, associated data, message *)
  aead_encrypt : bytes -> bytes -> bytes -> bytes -> option bytes;
  aead_decrypt : bytes -> bytes -> bytes -> bytes -> option bytes;
  (** [URL_SAFE_NO_PAD.encode] *)
  encode_base64url : bytes -> string;
}.

Class PrimitiveLaws (p : Primitives) : Prop := {
  (** HMAC accepts a key of any length and SHA-256 has 32 bytes. *)
  hmac_total k m : exists tag, hmac_sha256 k m = Some tag /\ length tag = 32%nat;
  blake3_length m : length (blake3 m) = 32%nat;
  x25519_public_length a : length (x25519_public a) = 32%nat;
  (** The two ends of a Diffie-Hellman exchange agree. *)
  dh_agree a b : diffie_hellman a (x25519_public b) = diffie_hellman b (x25519_public a);
  (** ChaCha20Poly1305 seals any message below its limit of 256 GiB. *)
  aead_seals k n aad m : N.of_nat (length m) <= U32_MAX -> exists c, aead_encrypt k n aad m = Some c;
  (** Four characters for three bytes, without padding. *)
  base64_length l : String.length (encode_base64url l) = Nat.div (4 * length l + 2) 3;
  (** What was sealed opens under the same key, nonce and associated data. *)
  aead_opens k n aad m c : aead_encrypt k n aad m = Some c -> aead_decrypt k n aad c = Some m;
}.

(** ** Errors *)

Inductive HeaderError := HeaderFieldCountOverflow | HeaderFieldValueTooLong.

#[export] Instance HeaderError_eq_dec : EqDecision HeaderError.
Proof. solve_decision. Defined.

(** The variants of [CryptoError] that key derivation, the ratchet, the group
    sender keys and the prekey bundles raise; [Base64Invalid] and [CanonicalJson]
    are protocol errors. *)
Inductive CryptoError :=
| Protocol (e : HeaderError)
| AeadFailed
| HkdfFailed
| HmacFailed
| RandomUnavailable (what : string)
| KeyCommitmentMismatch
| CommitmentMismatch
| MaxSkipExceeded
| UnsupportedDmSessionSnapshot
| GroupSenderKeyUnavailable
| MembershipCommitmentMismatch
| VerifyFailed
| InvalidSignatureLength (len : nat)
| InvalidPublicKeyLength (len : nat)
| Base64Invalid
| CanonicalJson.

#[export] Instance CryptoError_eq_dec : EqDecision CryptoError.
Proof. solve_decision. Defined.

(** ** Domain tags *)

Module domain.
Definition DM_RATCHET_ROOT : string := "ramflux.dm_ratchet.root.v1".
Definition DM_RATCHET_CHAIN : string := "ramflux.dm_ratchet.chain.v1".
Definition DM_RATCHET_MESSAGE : string := "ramflux.dm_ratchet.message.v1".
Definition COMMITTING_AEAD : string := "ramflux.committing_aead.v1".
Definition COMMITTING_AEAD_HEADER : string := "ramflux.committing_aead.header.v1".
Definition COMMITTING_AEAD_AD : string := "ramflux.committing_aead.ad.v1".
Definition FRANKING_OPENING : string := "ramflux.franking_opening.v1".
Definition FRANKING_NODE_TAG : string := "ramflux.franking.node_tag.v1".
Definition X3DH_PREKEY_BUNDLE : string := "ramflux.x3dh.prekey_bundle.v1".
Definition X3DH_INITIAL_SECRET : string := "ramflux.x3dh.initial_secret.v1".
Definition DEVICE_PROOF : string := "ramflux.device_proof.v1".
End domain.

(** ** RFH1 headers *)

Inductive HeaderKind := DmMessage | GroupMessage.

(** [kind as u8] *)
Definition header_kind_code (k : HeaderKind) : N :=
  match k with DmMessage => 1 | GroupMessage => 2 end.

Inductive HeaderFieldValue :=
| HU64 (value : N)
| HBytes32 (value : bytes)
| HString (value : string).

Record HeaderField := mkHeaderField { field_id : N; value : HeaderFieldValue }.

Notation MAGIC := (str "RFH1") (only parsing).

Definition field_value_bytes (v : HeaderFieldValue) : bytes :=
  match v with
  | HU64 value => u64_be value
  | HBytes32 value => value
  | HString value => str value
  end.

(** The body of the [for] loop. *)
Fixpoint header_fields (fields : list HeaderField) : result HeaderError bytes :=
  match fields with
  | [] => Ok []
  | field :: fields =>
      let value := field_value_bytes (value field) in
      ensure (bool_decide (N.of_nat (length value) <= U32_MAX)) HeaderFieldValueTooLong ≫= fun _ =>
      header_fields fields ≫= fun rest =>
      Ok (u16_be (field_id field) ++ u32_be (N.of_nat (length value)) ++ value ++ rest)
  end.

Definition canonical_header_bytes (kind : HeaderKind) (fields : list HeaderField)
  : result HeaderError bytes :=
  ensure (bool_decide (N.of_nat (length fields) <= 65535)) HeaderFieldCountOverflow ≫= fun _ =>
  header_fields fields ≫= fun body =>
  Ok (MAGIC ++ [byte_of (header_kind_code kind); Byte.x01] ++ u16_be (N.of_nat (length fields)) ++ body).

(** ** Hashes and key derivation *)

Section kdf.
Context {prim : Primitives}.

Definition blake3_hash_bytes (domain_tag : string) (l : bytes) : bytes := blake3 (str domain_tag ++ l).

(** A valid and an invalid core domain tag both hash under the given text. *)
Definition blake3_256 (domain_tag : string) (l : bytes) : bytes := blake3_hash_bytes domain_tag l.

Definition blake3_256_base64url (domain_tag : string) (l : bytes) : string :=
  encode_base64url (blake3_hash_bytes domain_tag l).

Definition header_hash_base64url (kind : HeaderKind) (fields : list HeaderField)
  : result HeaderError string :=
  canonical_header_bytes kind fields ≫= fun canonical =>
  Ok (encode_base64url (blake3_hash_bytes domain.COMMITTING_AEAD_HEADER canonical)).

(** The expansion loop: [remaining] output bytes are still to be written. The
    counter is a [u8] that starts at 1, so 255 iterations suffice: the last one
    fails to increment it. *)
Fixpoint hkdf_expand (fuel : nat) (prk info previous : bytes) (counter : N) (remaining : nat)
  : result CryptoError bytes :=
  match remaining, fuel with
  | O, _ => Ok []
  | _, O => Err HkdfFailed
  | _, S fuel =>
      ok_or (hmac_sha256 prk (previous ++ info ++ [byte_of counter])) HmacFailed ≫= fun previous =>
      let take_ := Nat.min remaining (length previous) in
      if decide (255 < counter + 1) then Err HkdfFailed else
      hkdf_expand fuel prk info previous (counter + 1) (remaining - take_) ≫= fun rest =>
      Ok (take take_ previous ++ rest)
  end.

Definition hkdf_sha256 (salt ikm info : bytes) (len : nat) : result CryptoError bytes :=
  ok_or (hmac_sha256 salt ikm) HmacFailed ≫= fun prk =>
  hkdf_expand 255 prk info [] 1 len.

(** ** Franking *)

Record FrankingCommitmentInput := mkFrankingInput {
  fi_plaintext : bytes;
  fi_sender_device_id_hash : bytes;
  fi_message_event_id : string;
  fi_canonical_header_bytes : bytes;
  fi_associated_data : bytes;
  fi_ciphertext : bytes;
  fi_opening_key : bytes;
  fi_commitment_key : bytes;
}.

Record FrankingCommitment := mkFranking {
  fc_plaintext_hash : string;
  fc_ciphertext_hash : string;
  fc_header_hash : string;
  fc_associated_data_hash : string;
  fc_key_commitment : string;
  fc_franking_commitment : string;
  fc_commitment : string;
}.

Definition franking_commitment (input : FrankingCommitmentInput) : FrankingCommitment :=
  let plaintext_hash := blake3_256_base64url domain.COMMITTING_AEAD (fi_plaintext input) in
  let ciphertext_hash := blake3_256_base64url domain.COMMITTING_AEAD (fi_ciphertext input) in
  let header_hash :=
    blake3_256_base64url domain.COMMITTING_AEAD_HEADER (fi_canonical_header_bytes input) in
  let associated_data_hash :=
    blake3_256_base64url domain.COMMITTING_AEAD_AD (fi_associated_data input) in
  let key_preimage := str domain.COMMITTING_AEAD ++ fi_sender_device_id_hash input ++
    str (fi_message_event_id input) ++ str header_hash ++ str associated_data_hash ++
    str ciphertext_hash in
  let key_commitment_bytes := blake3_keyed (fi_commitment_key input) key_preimage in
  let franking_preimage := str domain.FRANKING_OPENING ++ fi_plaintext input ++
    fi_sender_device_id_hash input ++ str (fi_message_event_id input) ++ str header_hash ++
    str associated_data_hash in
  let franking_commitment_bytes := blake3_keyed (fi_opening_key input) franking_preimage in
  let final_preimage :=
    str domain.COMMITTING_AEAD ++ key_commitment_bytes ++ franking_commitment_bytes in
  mkFranking plaintext_hash ciphertext_hash header_hash associated_data_hash
    (encode_base64url key_commitment_bytes) (encode_base64url franking_commitment_bytes)
    (blake3_256_base64url domain.COMMITTING_AEAD final_preimage).
End kdf.

(** [bytes[..usize::from(len)]] after a clamped [u16] length. *)
Definition write_len_prefixed (l : bytes) : bytes :=
  let len := N.min (N.of_nat (length l)) 65535 in
  u16_be len ++ take (N.to_nat len) l.

Definition franking_node_tag_preimage (node_id envelope_id message_event_id : string)
    (sender_device_id_hash : bytes) (commitment ciphertext_hash : string)
    (accepted_at_unix_ms : N) : bytes :=
  str domain.FRANKING_NODE_TAG ++
  write_len_prefixed (str node_id) ++ write_len_prefixed (str envelope_id) ++
  write_len_prefixed (str message_event_id) ++ write_len_prefixed sender_device_id_hash ++
  write_len_prefixed (str commitment) ++ write_len_prefixed (str ciphertext_hash) ++
  u64_be accepted_at_unix_ms.
