(* ===== verification/Ratchet.v ===== *)
(** * The double ratchet

    crates/ramflux-crypto/src/double_ratchet.rs: the session of two devices,
    its four constructors, encryption, decryption with the symmetric and the
    Diffie-Hellman ratchet, the store of skipped message keys and the
    snapshots. A key is a byte string; [Secret32] and zeroization have no
    counterpart. [X25519KeyPair::random] is the argument [fresh]: the answer of
    the operating system for the one key pair a decryption may draw. *)

From S2P Require Import Prelude OrdMap Bytes Crypto.
From stdpp Require Import pretty.
From Stdlib Require Import Strings.Byte.

Open Scope N_scope.

Notation ROLE_INITIATOR_SEND := (str "initiator_send") (only parsing).
Notation ROLE_RECIPIENT_SEND := (str "recipient_send") (only parsing).
Notation DIRECTION_SEND := (str "send") (only parsing).
Notation DIRECTION_RECV := (str "recv") (only parsing).

(** [[0_u8; 32]] *)
Definition ZERO32 : bytes := replicate 32 Byte.x00.

(** ** Data *)

Record RatchetContextParts := mkParts {
  rc_session_id : string;
  rc_local_device_id_hash : bytes;
  rc_remote_device_id_hash : bytes;
  rc_device_epoch_local : N;
  rc_device_epoch_remote : N;
  rc_dh_ratchet_step : N;
}.

Record MessageKeys := mkMessageKeys {
  aead_key : bytes;
  nonce : bytes;
  commitment_key : bytes;
  opening_key : bytes;
}.

Record DmSession := mkSession {
  session_id : string;
  bootstrap_transcript_hash : bytes;
  root_key : bytes;
  sending_chain_key : bytes;
  receiving_chain_key : bytes;
  send_counter : N;
  receive_counter : N;
  dhs_private : option bytes;
  dhs_public : option bytes;
  dhr_public : option bytes;
  sender_device_id_hash : bytes;
  recipient_device_id_hash : bytes;
  device_epoch_local : N;
  device_epoch_remote : N;
  dh_ratchet_step : N;
  is_initiator_side : bool;
  previous_sending_chain_length : N;
  max_skip : nat;
  skipped_message_keys : gmap string MessageKeys;
  skipped_message_secrets : gmap string bytes;
  skipped_order : list string;
}.

Record DmCiphertext := mkCiphertext {
  ct_session_id : string;
  ct_counter : N;
  ct_nonce : bytes;
  ct_ciphertext : bytes;
  ct_ratchet_public_key : option bytes;
  ct_previous_chain_length : N;
  ct_sender_device_id_hash : bytes;
  ct_recipient_device_id_hash : bytes;
  ct_device_epoch : N;
  ct_message_event_id : string;
  ct_canonical_header_bytes : bytes;
  ct_header_hash : string;
  ct_key_commitment : string;
  ct_franking_commitment : string;
  ct_commitment : string;
  ct_ciphertext_hash : string;
}.

Record DmDecryptionOutput := mkOutput {
  out_plaintext : bytes;
  out_opening_key : bytes;
  out_commitment_key : bytes;
}.

Record X25519KeyPair := mkPair { secret : bytes; public : bytes }.

(** *** Assignments to groups of fields *)

Definition set_sending (s : DmSession) (chain : bytes) (counter : N) : DmSession :=
  mkSession (session_id s) (bootstrap_transcript_hash s) (root_key s) chain (receiving_chain_key s)
    counter (receive_counter s) (dhs_private s) (dhs_public s) (dhr_public s)
    (sender_device_id_hash s) (recipient_device_id_hash s) (device_epoch_local s)
    (device_epoch_remote s) (dh_ratchet_step s) (is_initiator_side s)
    (previous_sending_chain_length s) (max_skip s) (skipped_message_keys s)
    (skipped_message_secrets s) (skipped_order s).

Definition set_receiving (s : DmSession) (chain : bytes) (counter : N) : DmSession :=
  mkSession (session_id s) (bootstrap_transcript_hash s) (root_key s) (sending_chain_key s) chain
    (send_counter s) counter (dhs_private s) (dhs_public s) (dhr_public s)
    (sender_device_id_hash s) (recipient_device_id_hash s) (device_epoch_local s)
    (device_epoch_remote s) (dh_ratchet_step s) (is_initiator_side s)
    (previous_sending_chain_length s) (max_skip s) (skipped_message_keys s)
    (skipped_message_secrets s) (skipped_order s).

Definition set_skipped (s : DmSession) (keys : gmap string MessageKeys)
    (secrets : gmap string bytes) (order : list string) : DmSession :=
  mkSession (session_id s) (bootstrap_transcript_hash s) (root_key s) (sending_chain_key s)
    (receiving_chain_key s) (send_counter s) (receive_counter s) (dhs_private s) (dhs_public s)
    (dhr_public s) (sender_device_id_hash s) (recipient_device_id_hash s) (device_epoch_local s)
    (device_epoch_remote s) (dh_ratchet_step s) (is_initiator_side s)
    (previous_sending_chain_length s) (max_skip s) keys secrets order.

Definition set_dhr_public (s : DmSession) (remote : bytes) : DmSession :=
  mkSession (session_id s) (bootstrap_transcript_hash s) (root_key s) (sending_chain_key s)
    (receiving_chain_key s) (send_counter s) (receive_counter s) (dhs_private s) (dhs_public s)
    (Some remote) (sender_device_id_hash s) (recipient_device_id_hash s) (device_epoch_local s)
    (device_epoch_remote s) (dh_ratchet_step s) (is_initiator_side s)
    (previous_sending_chain_length s) (max_skip s) (skipped_message_keys s)
    (skipped_message_secrets s) (skipped_order s).

Definition set_epochs (s : DmSession) (local remote : N) : DmSession :=
  mkSession (session_id s) (bootstrap_transcript_hash s) (root_key s) (sending_chain_key s)
    (receiving_chain_key s) (send_counter s) (receive_counter s) (dhs_private s) (dhs_public s)
    (dhr_public s) (sender_device_id_hash s) (recipient_device_id_hash s) local remote
    (dh_ratchet_step s) (is_initiator_side s) (previous_sending_chain_length s) (max_skip s)
    (skipped_message_keys s) (skipped_message_secrets s) (skipped_order s).

Definition set_device_hashes (s : DmSession) (sender recipient : bytes) : DmSession :=
  mkSession (session_id s) (bootstrap_transcript_hash s) (root_key s) (sending_chain_key s)
    (receiving_chain_key s) (send_counter s) (receive_counter s) (dhs_private s) (dhs_public s)
    (dhr_public s) sender recipient (device_epoch_local s) (device_epoch_remote s)
    (dh_ratchet_step s) (is_initiator_side s) (previous_sending_chain_length s) (max_skip s)
    (skipped_message_keys s) (skipped_message_secrets s) (skipped_order s).

Definition set_step_root (s : DmSession) (root : bytes) (step previous : N) : DmSession :=
  mkSession (session_id s) (bootstrap_transcript_hash s) root (sending_chain_key s)
    (receiving_chain_key s) (send_counter s) (receive_counter s) (dhs_private s) (dhs_public s)
    (dhr_public s) (sender_device_id_hash s) (recipient_device_id_hash s) (device_epoch_local s)
    (device_epoch_remote s) step (is_initiator_side s) previous (max_skip s)
    (skipped_message_keys s) (skipped_message_secrets s) (skipped_order s).

Definition set_dhs (s : DmSession) (pair : X25519KeyPair) : DmSession :=
  mkSession (session_id s) (bootstrap_transcript_hash s) (root_key s) (sending_chain_key s)
    (receiving_chain_key s) (send_counter s) (receive_counter s) (Some (secret pair))
    (Some (public pair)) (dhr_public s) (sender_device_id_hash s) (recipient_device_id_hash s)
    (device_epoch_local s) (device_epoch_remote s) (dh_ratchet_step s) (is_initiator_side s)
    (previous_sending_chain_length s) (max_skip s) (skipped_message_keys s)
    (skipped_message_secrets s) (skipped_order s).

(** ** Contexts and key schedule *)

Definition transcript_context (parts : RatchetContextParts) (role_tag : bytes) : bytes :=
  str (rc_session_id parts) ++ rc_local_device_id_hash parts ++ rc_remote_device_id_hash parts ++
  u64_be (rc_device_epoch_local parts) ++ u64_be (rc_device_epoch_remote parts) ++
  u64_be (rc_dh_ratchet_step parts) ++ role_tag.

Definition direction_context (session_id : string) (direction_tag dh_ratchet_public : bytes)
    (chain_index device_epoch_local device_epoch_remote : N) : bytes :=
  str session_id ++ direction_tag ++ dh_ratchet_public ++ u64_be chain_index ++
  u64_be device_epoch_local ++ u64_be device_epoch_remote.

Definition dm_header_associated_data (associated_data canonical_header : bytes) : bytes :=
  associated_data ++ canonical_header.

(** *** Headers *)

Record DmHeader := mkHeader {
  h_ratchet_session_id : string;
  h_sender_device_id_hash : bytes;
  h_recipient_device_id_hash : bytes;
  h_dh_ratchet_public : bytes;
  h_pn : N;
  h_n : N;
  h_device_epoch : N;
  h_message_event_id : string;
}.

Definition fields (h : DmHeader) : list HeaderField :=
  [mkHeaderField 1 (HString (h_ratchet_session_id h));
   mkHeaderField 2 (HBytes32 (h_sender_device_id_hash h));
   mkHeaderField 3 (HBytes32 (h_recipient_device_id_hash h));
   mkHeaderField 4 (HBytes32 (h_dh_ratchet_public h));
   mkHeaderField 5 (HU64 (h_pn h));
   mkHeaderField 6 (HU64 (h_n h));
   mkHeaderField 7 (HU64 (h_device_epoch h));
   mkHeaderField 8 (HString (h_message_event_id h))].

Definition dm_canonical_header_bytes (h : DmHeader) : result CryptoError bytes :=
  map_err Protocol (canonical_header_bytes DmMessage (fields h)).

(** *** Views of the session *)

Definition canonical_epoch_pair (s : DmSession) (current_remote_epoch : N) : N * N :=
  if is_initiator_side s then (device_epoch_local s, current_remote_epoch)
  else (current_remote_epoch, device_epoch_local s).

Definition canonical_device_hash_pair (s : DmSession) : bytes * bytes :=
  if is_initiator_side s then (sender_device_id_hash s, recipient_device_id_hash s)
  else (recipient_device_id_hash s, sender_device_id_hash s).

Definition ratchet_context_parts (s : DmSession) : RatchetContextParts :=
  let '(local_hash, remote_hash) := canonical_device_hash_pair s in
  let '(local_epoch, remote_epoch) := canonical_epoch_pair s (device_epoch_remote s) in
  mkParts (session_id s) local_hash remote_hash local_epoch remote_epoch (dh_ratchet_step s).

Definition send_direction_tag (s : DmSession) : bytes :=
  if is_initiator_side s then DIRECTION_SEND else DIRECTION_RECV.

Definition recv_direction_tag (s : DmSession) : bytes :=
  if is_initiator_side s then DIRECTION_RECV else DIRECTION_SEND.

Definition local_sender_role_tag (s : DmSession) : bytes :=
  if is_initiator_side s then ROLE_INITIATOR_SEND else ROLE_RECIPIENT_SEND.

Definition remote_sender_role_tag (s : DmSession) : bytes :=
  if is_initiator_side s then ROLE_RECIPIENT_SEND else ROLE_INITIATOR_SEND.

Definition session_direction_context (s : DmSession) (direction_tag dh_ratchet_public : bytes)
    (chain_index device_epoch_remote : N) : bytes :=
  let '(local_epoch, remote_epoch) := canonical_epoch_pair s device_epoch_remote in
  direction_context (session_id s) direction_tag dh_ratchet_public chain_index local_epoch remote_epoch.

Definition default_dm_max_skip : nat := 1000.

(** [DmSession::new] *)
Definition new (session_id : string) (transcript root send recv : bytes)
    (private local_public remote_public : option bytes) (sender recipient : bytes)
    (initiator_side : bool) : DmSession :=
  mkSession session_id transcript root send recv 0 0 private local_public remote_public
    sender recipient 0 0 0 initiator_side 0 default_dm_max_skip ∅ ∅ [].

Definition with_header_identity (s : DmSession) (sender recipient : bytes) (device_epoch : N)
  : DmSession :=
  set_epochs (set_device_hashes s sender recipient) device_epoch (device_epoch_remote s).

Definition with_device_epochs (s : DmSession) (local remote : N) : DmSession :=
  set_epochs s local remote.

(** *** Evicting skipped keys *)

(** The inner [while]: each round takes an entry off the order or off a map, so
    their total size bounds the rounds. *)
Fixpoint evict_skipped (fuel : nat) (s : DmSession) : DmSession :=
  match fuel with
  | O => s
  | S fuel =>
      if decide (max_skip s <= size (skipped_message_keys s) + size (skipped_message_secrets s))%nat
      then
        let oldest :=
          match skipped_order s with
          | id :: _ => Some id
          | [] =>
              match bt_first (skipped_message_keys s) with
              | Some (id, _) => Some id
              | None => fst <$> bt_first (skipped_message_secrets s)
              end
          end in
        match oldest with
        | None => s
        | Some id =>
            evict_skipped fuel (set_skipped s (delete id (skipped_message_keys s))
              (delete id (skipped_message_secrets s)) (tail (skipped_order s)))
        end
      else s
  end.

Definition skipped_weight (s : DmSession) : nat :=
  length (skipped_order s) + size (skipped_message_keys s) + size (skipped_message_secrets s).

(** *** Session ids, key pairs, message contexts *)

Section session.
Context {prim : Primitives}.

Definition from_seed (seed : bytes) : X25519KeyPair := mkPair seed (x25519_public seed).

Definition ratchet_session_id_bytes (local_hash remote_hash transcript : bytes) : bytes :=
  blake3_256 domain.DM_RATCHET_ROOT
    (str domain.DM_RATCHET_ROOT ++ local_hash ++ remote_hash ++ transcript).

Definition ratchet_session_id (local_hash remote_hash transcript : bytes) : string :=
  encode_base64url (ratchet_session_id_bytes local_hash remote_hash transcript).

Definition skipped_key_id (ratchet_public_key : bytes) (counter : N) : string :=
  encode_base64url ratchet_public_key +:+ ":" +:+ pretty counter.

Definition derive_root_and_chain (root_key dh_output : bytes) (parts : RatchetContextParts)
    (role_tag : bytes) : result CryptoError (bytes * bytes) :=
  hkdf_sha256 root_key dh_output
    (str domain.DM_RATCHET_ROOT ++ transcript_context parts role_tag) 64 ≫= fun output =>
  Ok (take 32 output, drop 32 output).

Definition derive_initial_chains (root_seed : bytes) (parts : RatchetContextParts)
  : result CryptoError (bytes * bytes) :=
  derive_root_and_chain root_seed root_seed parts ROLE_INITIATOR_SEND ≫= fun '(_, initiator_send) =>
  derive_root_and_chain root_seed root_seed parts ROLE_RECIPIENT_SEND ≫= fun '(_, recipient_send) =>
  Ok (initiator_send, recipient_send).

Definition kdf_ck (chain_key direction_context : bytes) : result CryptoError (bytes * bytes) :=
  hkdf_sha256 (blake3_256 domain.DM_RATCHET_CHAIN direction_context) chain_key
    (str domain.DM_RATCHET_CHAIN ++ direction_context) 64 ≫= fun output =>
  Ok (take 32 output, drop 32 output).

Definition advance_chain_key (chain_key direction_context : bytes) : result CryptoError bytes :=
  kdf_ck chain_key direction_context ≫= fun '(next, _) => Ok next.

Definition message_context (session_id : string) (direction_tag : bytes) (message_number : N)
    (canonical_header associated_data : bytes) : bytes :=
  str session_id ++ direction_tag ++ u64_be message_number ++
  blake3_hash_bytes domain.COMMITTING_AEAD_HEADER canonical_header ++
  blake3_256 domain.DM_RATCHET_MESSAGE associated_data.

Definition derive_message_keys (message_secret message_context : bytes)
  : result CryptoError MessageKeys :=
  hkdf_sha256 (blake3_256 domain.DM_RATCHET_MESSAGE message_context) message_secret
    (str domain.DM_RATCHET_MESSAGE ++ message_context) 108 ≫= fun output =>
  Ok (mkMessageKeys (take 32 output) (take 12 (drop 32 output)) (take 32 (drop 44 output))
        (take 32 (drop 76 output))).

Definition verify_commitments (c : DmCiphertext) (plaintext associated_data canonical : bytes)
    (keys : MessageKeys) : result CryptoError unit :=
  let commitments := franking_commitment (mkFrankingInput plaintext (ct_sender_device_id_hash c)
    (ct_message_event_id c) canonical associated_data (ct_ciphertext c) (opening_key keys)
    (commitment_key keys)) in
  ensure (bool_decide (fc_key_commitment commitments = ct_key_commitment c))
    KeyCommitmentMismatch ≫= fun _ =>
  ensure (bool_decide (fc_franking_commitment commitments = ct_franking_commitment c))
    CommitmentMismatch ≫= fun _ =>
  ensure (bool_decide (fc_commitment commitments = ct_commitment c)) CommitmentMismatch.

(** ** Constructors *)

Definition initiator (root_seed local_hash remote_hash transcript : bytes)
  : result CryptoError DmSession :=
  let sid := ratchet_session_id local_hash remote_hash transcript in
  derive_initial_chains root_seed (mkParts sid local_hash remote_hash 0 0 0) ≫= fun '(send, recv) =>
  Ok (new sid transcript root_seed send recv None None None local_hash remote_hash true).

Definition recipient (root_seed local_hash remote_hash transcript : bytes)
  : result CryptoError DmSession :=
  let sid := ratchet_session_id remote_hash local_hash transcript in
  derive_initial_chains root_seed (mkParts sid remote_hash local_hash 0 0 0) ≫= fun '(recv, send) =>
  Ok (new sid transcript root_seed send recv None None None local_hash remote_hash false).

Definition initiator_with_remote_ratchet (root_seed local_hash remote_hash transcript : bytes)
    (local_ratchet : X25519KeyPair) (remote_ratchet_public : bytes) : result CryptoError DmSession :=
  let sid := ratchet_session_id local_hash remote_hash transcript in
  let dh := diffie_hellman (secret local_ratchet) remote_ratchet_public in
  let context := mkParts sid local_hash remote_hash 0 0 0 in
  derive_root_and_chain root_seed dh context ROLE_INITIATOR_SEND ≫= fun '(root, sending) =>
  derive_initial_chains root context ≫= fun '(_, receiving) =>
  let session := new sid transcript root sending receiving (Some (secret local_ratchet))
    (Some (public local_ratchet)) (Some remote_ratchet_public) local_hash remote_hash true in
  Ok (set_step_root session (root_key session) 1 (previous_sending_chain_length session)).

Definition recipient_with_local_ratchet (root_seed local_hash remote_hash transcript : bytes)
    (local_ratchet : X25519KeyPair) : result CryptoError DmSession :=
  let sid := ratchet_session_id remote_hash local_hash transcript in
  derive_initial_chains root_seed (mkParts sid remote_hash local_hash 0 0 0)
    ≫= fun '(receiving, sending) =>
  Ok (new sid transcript root_seed sending receiving (Some (secret local_ratchet))
        (Some (public local_ratchet)) None local_hash remote_hash false).

(** ** Encryption *)

(** The part of [encrypt] before the assignments: the message and the next
    sending chain key. *)
Definition encrypt_message (s : DmSession) (plaintext associated_data : bytes)
  : result CryptoError (DmCiphertext * bytes) :=
  let counter := send_counter s in
  let ratchet_public_key := dhs_public s in
  let dh_ratchet_public := default ZERO32 ratchet_public_key in
  let message_event_id := session_id s +:+ ":" +:+ pretty counter in
  let tag := send_direction_tag s in
  kdf_ck (sending_chain_key s)
    (session_direction_context s tag dh_ratchet_public counter (device_epoch_remote s))
    ≫= fun '(next_chain, message_secret) =>
  let header := mkHeader (session_id s) (sender_device_id_hash s) (recipient_device_id_hash s)
    dh_ratchet_public (previous_sending_chain_length s) counter (device_epoch_local s)
    message_event_id in
  dm_canonical_header_bytes header ≫= fun canonical =>
  derive_message_keys message_secret
    (message_context (session_id s) tag counter canonical associated_data) ≫= fun keys =>
  let aad := dm_header_associated_data associated_data canonical in
  ok_or (aead_encrypt (aead_key keys) (nonce keys) aad plaintext) AeadFailed ≫= fun ciphertext =>
  let commitments := franking_commitment (mkFrankingInput plaintext (sender_device_id_hash s)
    message_event_id canonical associated_data ciphertext (opening_key keys) (commitment_key keys)) in
  Ok (mkCiphertext (session_id s) counter (nonce keys) ciphertext ratchet_public_key
        (previous_sending_chain_length s) (sender_device_id_hash s) (recipient_device_id_hash s)
        (device_epoch_local s) message_event_id canonical (fc_header_hash commitments)
        (fc_key_commitment commitments) (fc_franking_commitment commitments)
        (fc_commitment commitments) (fc_ciphertext_hash commitments), next_chain).

Definition encrypt (plaintext associated_data : bytes) : stres DmSession CryptoError DmCiphertext :=
  fun s =>
  match encrypt_message s plaintext associated_data with
  | Ok (c, next_chain) => (set_sending s next_chain (u64_saturating_add (send_counter s) 1), Ok c)
  | Err e => (s, Err e)
  end.

(** ** Skipping and ratcheting *)

(** One round of the [while] of [skip_message_keys]. *)
Definition skip_one (remote_public : bytes) : stres DmSession CryptoError unit := fun s =>
  let context := session_direction_context s (recv_direction_tag s) remote_public
    (receive_counter s) (device_epoch_remote s) in
  match kdf_ck (receiving_chain_key s) context with
  | Err e => (s, Err e)
  | Ok (_, message_secret) =>
      let skipped_id := skipped_key_id remote_public (receive_counter s) in
      let s := evict_skipped (skipped_weight s) s in
      let s := set_skipped s (skipped_message_keys s)
        (<[skipped_id := message_secret]> (skipped_message_secrets s))
        (skipped_order s ++ [skipped_id]) in
      match advance_chain_key (receiving_chain_key s) context with
      | Err e => (s, Err e)
      | Ok next => (set_receiving s next (u64_saturating_add (receive_counter s) 1), Ok tt)
      end
  end.

(** Each round advances the receive counter, so the distance to
    [until_counter] bounds the rounds. *)
Fixpoint skip_loop (fuel : nat) (remote_public : bytes) (until_counter : N)
  : stres DmSession CryptoError unit := fun s =>
  match fuel with
  | O => (s, Ok tt)
  | S fuel =>
      if decide (receive_counter s < until_counter)
      then run (skip_one remote_public ≫= fun _ => skip_loop fuel remote_public until_counter) s
      else (s, Ok tt)
  end.

Definition skip_message_keys (until_counter : N) : stres DmSession CryptoError unit := fun s =>
  if decide (until_counter < receive_counter s) then (s, Ok tt) else
  let skipped := until_counter - receive_counter s in
  if decide (N.of_nat (max_skip s) < skipped) then (s, Err MaxSkipExceeded) else
  skip_loop (N.to_nat skipped) (default ZERO32 (dhr_public s)) until_counter s.

(** The two root-key steps of [ratchet_for_header]. *)
Definition ratchet_receiving (h : DmHeader) : stres DmSession CryptoError unit := fun s =>
  let s := set_dhr_public s (h_dh_ratchet_public h) in
  match dhs_private s with
  | None => (s, Err AeadFailed)
  | Some local_private =>
      let dh := diffie_hellman local_private (h_dh_ratchet_public h) in
      let s := set_epochs s (device_epoch_local s) (h_device_epoch h) in
      match derive_root_and_chain (root_key s) dh (ratchet_context_parts s) (remote_sender_role_tag s) with
      | Err e => (s, Err e)
      | Ok (root, chain) =>
          let s := set_step_root s root (u64_saturating_add (dh_ratchet_step s) 1)
            (previous_sending_chain_length s) in
          (set_receiving s chain 0, Ok tt)
      end
  end.

Definition ratchet_sending (h : DmHeader) (fresh : result CryptoError bytes)
  : stres DmSession CryptoError unit := fun s =>
  let s := set_step_root s (root_key s) (dh_ratchet_step s) (send_counter s) in
  match fresh with
  | Err e => (s, Err e)
  | Ok seed =>
      let new_local := from_seed seed in
      let dh := diffie_hellman (secret new_local) (h_dh_ratchet_public h) in
      match derive_root_and_chain (root_key s) dh (ratchet_context_parts s) (local_sender_role_tag s) with
      | Err e => (s, Err e)
      | Ok (root, chain) =>
          let s := set_step_root s root (u64_saturating_add (dh_ratchet_step s) 1)
            (previous_sending_chain_length s) in
          (set_sending (set_dhs s new_local) chain 0, Ok tt)
      end
  end.

Definition ratchet_for_header (h : DmHeader) (fresh : result CryptoError bytes)
  : stres DmSession CryptoError unit := fun s =>
  if bool_decide (h_dh_ratchet_public h = ZERO32) ||
     bool_decide (dhr_public s = Some (h_dh_ratchet_public h))
  then (s, Ok tt) else
  run (skip_message_keys (h_pn h) ≫= fun _ => ratchet_receiving h ≫= fun _ =>
       ratchet_sending h fresh) s.

(** ** Decryption *)

Definition ciphertext_header (c : DmCiphertext) : DmHeader :=
  mkHeader (ct_session_id c) (ct_sender_device_id_hash c) (ct_recipient_device_id_hash c)
    (default ZERO32 (ct_ratchet_public_key c)) (ct_previous_chain_length c) (ct_counter c)
    (ct_device_epoch c) (ct_message_event_id c).

Definition receive_context (s : DmSession) (c : DmCiphertext) : bytes :=
  session_direction_context s (recv_direction_tag s) (default ZERO32 (ct_ratchet_public_key c))
    (ct_counter c) (ct_device_epoch c).

Definition receive_message_context (s : DmSession) (c : DmCiphertext)
    (canonical associated_data : bytes) : bytes :=
  message_context (session_id s) (recv_direction_tag s) (ct_counter c) canonical associated_data.

(** The keys of a message that is not among the skipped ones. *)
Definition next_message_keys (c : DmCiphertext) (canonical associated_data : bytes)
    (fresh : result CryptoError bytes) : stres DmSession CryptoError MessageKeys :=
  ratchet_for_header (ciphertext_header c) fresh ≫= fun _ =>
  get ≫= fun s =>
  lift (ensure (bool_decide (receive_counter s <= ct_counter c)) AeadFailed) ≫= fun _ =>
  skip_message_keys (ct_counter c) ≫= fun _ =>
  get ≫= fun s =>
  lift (kdf_ck (receiving_chain_key s) (receive_context s c)) ≫= fun '(_, message_secret) =>
  lift (derive_message_keys message_secret (receive_message_context s c canonical associated_data)).

(** The keys of the message, and whether a skipped key was used. *)
Definition select_message_keys (c : DmCiphertext) (canonical associated_data : bytes)
    (fresh : result CryptoError bytes) : stres DmSession CryptoError (MessageKeys * bool) :=
  get ≫= fun s =>
  let id := skipped_key_id (default ZERO32 (ct_ratchet_public_key c)) (ct_counter c) in
  match skipped_message_secrets s !! id with
  | Some secret =>
      lift (derive_message_keys secret (receive_message_context s c canonical associated_data))
        ≫= fun keys => mret (keys, true)
  | None =>
      match skipped_message_keys s !! id with
      | Some keys => mret (keys, true)
      | None => next_message_keys c canonical associated_data fresh ≫= fun keys => mret (keys, false)
      end
  end.

Definition open_message (c : DmCiphertext) (canonical associated_data : bytes) (keys : MessageKeys)
  : result CryptoError bytes :=
  ok_or (aead_decrypt (aead_key keys) (ct_nonce c)
    (dm_header_associated_data associated_data canonical) (ct_ciphertext c)) AeadFailed
    ≫= fun plaintext =>
  verify_commitments c plaintext associated_data canonical keys ≫= fun _ => Ok plaintext.

(** The update after the message was opened. *)
Definition consume_key (c : DmCiphertext) (used_skipped_key : bool)
  : stres DmSession CryptoError unit := fun s =>
  if used_skipped_key then
    let id := skipped_key_id (default ZERO32 (ct_ratchet_public_key c)) (ct_counter c) in
    (set_skipped s (delete id (skipped_message_keys s)) (delete id (skipped_message_secrets s))
       (filter (fun other => other <> id) (skipped_order s)), Ok tt)
  else
    match advance_chain_key (receiving_chain_key s) (receive_context s c) with
    | Err e => (s, Err e)
    | Ok next => (set_receiving s next (u64_saturating_add (receive_counter s) 1), Ok tt)
    end.

Definition decrypt_with_franking_keys (c : DmCiphertext) (associated_data : bytes)
    (fresh : result CryptoError bytes) : stres DmSession CryptoError DmDecryptionOutput :=
  lift (dm_canonical_header_bytes (ciphertext_header c)) ≫= fun canonical =>
  lift (map_err Protocol (header_hash_base64url DmMessage (fields (ciphertext_header c))))
    ≫= fun computed =>
  lift (ensure (bool_decide (computed = ct_header_hash c)) CommitmentMismatch) ≫= fun _ =>
  select_message_keys c canonical associated_data fresh ≫= fun '(keys, used_skipped_key) =>
  lift (open_message c canonical associated_data keys) ≫= fun plaintext =>
  consume_key c used_skipped_key ≫= fun _ =>
  mret (mkOutput plaintext (opening_key keys) (commitment_key keys)).

Definition decrypt (c : DmCiphertext) (associated_data : bytes) (fresh : result CryptoError bytes)
  : stres DmSession CryptoError bytes :=
  decrypt_with_franking_keys c associated_data fresh ≫= fun output => mret (out_plaintext output).
End session.

(** ** Snapshots *)

Record DmSessionSnapshot := mkSnapshot {
  sn_schema : string;
  sn_version : N;
  sn_session_id : string;
  sn_bootstrap_transcript_hash : bytes;
  sn_root_key : bytes;
  sn_sending_chain_key : bytes;
  sn_receiving_chain_key : bytes;
  sn_send_counter : N;
  sn_receive_counter : N;
  sn_dhs_private : option bytes;
  sn_dhs_public : option bytes;
  sn_dhr_public : option bytes;
  sn_sender_device_id_hash : bytes;
  sn_recipient_device_id_hash : bytes;
  sn_device_epoch_local : N;
  sn_device_epoch_remote : N;
  sn_dh_ratchet_step : N;
  sn_is_initiator_side : bool;
  sn_previous_sending_chain_length : N;
  sn_max_skip : nat;
  sn_skipped_message_keys : gmap string MessageKeys;
  sn_skipped_message_secrets : gmap string bytes;
  sn_skipped_order : list string;
}.

Definition SNAPSHOT_SCHEMA : string := "ramflux.dm_session.snapshot.v1".

Definition snapshot (s : DmSession) : DmSessionSnapshot :=
  mkSnapshot SNAPSHOT_SCHEMA 1 (session_id s) (bootstrap_transcript_hash s) (root_key s)
    (sending_chain_key s) (receiving_chain_key s) (send_counter s) (receive_counter s)
    (dhs_private s) (dhs_public s) (dhr_public s) (sender_device_id_hash s)
    (recipient_device_id_hash s) (device_epoch_local s) (device_epoch_remote s)
    (dh_ratchet_step s) (is_initiator_side s) (previous_sending_chain_length s) (max_skip s)
    (skipped_message_keys s) (skipped_message_secrets s) (skipped_order s).

Definition from_snapshot (n : DmSessionSnapshot) : result CryptoError DmSession :=
  if bool_decide (sn_schema n <> SNAPSHOT_SCHEMA) || bool_decide (sn_version n <> 1)
  then Err UnsupportedDmSessionSnapshot else
  Ok (mkSession (sn_session_id n) (sn_bootstrap_transcript_hash n) (sn_root_key n)
    (sn_sending_chain_key n) (sn_receiving_chain_key n) (sn_send_counter n) (sn_receive_counter n)
    (sn_dhs_private n) (sn_dhs_public n) (sn_dhr_public n) (sn_sender_device_id_hash n)
    (sn_recipient_device_id_hash n) (sn_device_epoch_local n) (sn_device_epoch_remote n)
    (sn_dh_ratchet_step n) (sn_is_initiator_side n) (sn_previous_sending_chain_length n)
    (sn_max_skip n) (sn_skipped_message_keys n) (sn_skipped_message_secrets n) (sn_skipped_order n)).
