(* ===== verification/CryptoProps.v ===== *)
(** * Canonical headers and franking preimages: theorems

    The RFH1 encoding and the preimage of the node's franking tag determine the
    fields they are made from, so what is hashed, authenticated or signed
    stands for one reading only. *)

From S2P Require Import Prelude OrdMap Bytes Crypto Ratchet.
From Stdlib Require Import Strings.Byte.

Open Scope N_scope.

Section kdf_total.
Context {prim : Primitives} {laws : PrimitiveLaws prim}.

(** ** Key derivation *)

Lemma hkdf_expand_total fuel prk info previous counter remaining :
  (N.to_nat counter + fuel = 256)%nat -> (remaining <= 32 * (fuel - 1))%nat ->
  exists out, hkdf_expand fuel prk info previous counter remaining = Ok out /\ length out = remaining.
Proof.
  revert previous counter remaining. induction fuel as [|fuel IH]; intros previous counter remaining Hc Hr.
  - assert (remaining = 0)%nat as -> by lia. by exists [].
  - destruct remaining as [|r]; [by exists []|].
    destruct (hmac_total prk (previous ++ info ++ [byte_of counter])) as (tag & Htag & Hl).
    destruct (IH tag (counter + 1) (S r - Nat.min (S r) (length tag))%nat) as (out & Hout & Hlen); [lia|lia|].
    exists (take (Nat.min (S r) (length tag)) tag ++ out). split.
    + cbn [hkdf_expand]. rewrite Htag. cbv beta iota zeta delta [ok_or mbind result_bind].
      rewrite decide_False by lia. rewrite Hout. reflexivity.
    + rewrite length_app, length_take, Hlen. lia.
Qed.

(** 254 blocks of output can be asked for. *)
Lemma hkdf_total salt ikm info len :
  (len <= 32 * 254)%nat -> exists out, hkdf_sha256 salt ikm info len = Ok out /\ length out = len.
Proof.
  intros Hl. unfold hkdf_sha256. destruct (hmac_total salt ikm) as (prk & -> & _).
  cbv beta iota delta [ok_or mbind result_bind]. apply hkdf_expand_total; lia.
Qed.
End kdf_total.

(** What the encoding keeps of a field. *)
Definition field_content (f : HeaderField) : N * bytes := (field_id f, field_value_bytes (value f)).

Lemma u16_app_inj n m (l k : bytes) :
  n < 65536 -> m < 65536 -> u16_be n ++ l = u16_be m ++ k -> n = m /\ l = k.
Proof.
  intros Hn Hm [Heq Hl]%app_inj_length; [|by unfold u16_be; rewrite !length_be_of_N].
  split; [|done]. by apply (be_of_inj 2).
Qed.

Lemma u32_app_inj n m (l k : bytes) :
  n <= U32_MAX -> m <= U32_MAX -> u32_be n ++ l = u32_be m ++ k -> n = m /\ l = k.
Proof.
  unfold U32_MAX. intros Hn Hm [Heq Hl]%app_inj_length; [|by unfold u32_be; rewrite !length_be_of_N].
  split; [|done]. apply (be_of_inj 4) in Heq; [done|simpl; lia|simpl; lia].
Qed.

Lemma header_fields_inj l : forall l' out,
  length l = length l' -> Forall (fun f => field_id f < 65536) l -> Forall (fun f => field_id f < 65536) l' ->
  header_fields l = Ok out -> header_fields l' = Ok out ->
  field_content <$> l = field_content <$> l'.
Proof.
  induction l as [|f l IH]; intros [|f' l'] out Hlen Hid Hid' H H'; try done.
  apply Forall_cons in Hid as [Hf Hid]. apply Forall_cons in Hid' as [Hf' Hid'].
  cbn [header_fields] in H, H'.
  apply bind_Ok in H as ([] & Hb%ensure_Ok%bool_decide_eq_true & H).
  apply bind_Ok in H as (rest & Hrest & <-%Ok_inj).
  apply bind_Ok in H' as ([] & Hb'%ensure_Ok%bool_decide_eq_true & H').
  apply bind_Ok in H' as (rest' & Hrest' & Heq%Ok_inj).
  apply u16_app_inj in Heq as [Hids Heq]; [|done|done].
  apply u32_app_inj in Heq as [Hlens Heq]; [|done|done].
  apply app_inj_length in Heq as [Hv <-]; [|lia].
  rewrite !fmap_cons. f_equal; [unfold field_content; congruence|].
  eapply IH; [by simpl in Hlen; lia|done|done|exact Hrest|done].
Qed.

Lemma canonical_header_inj k k' l l' out :
  Forall (fun f => field_id f < 65536) l -> Forall (fun f => field_id f < 65536) l' ->
  canonical_header_bytes k l = Ok out -> canonical_header_bytes k' l' = Ok out ->
  k = k' /\ field_content <$> l = field_content <$> l'.
Proof.
  intros Hid Hid' H H'. unfold canonical_header_bytes in H, H'.
  apply bind_Ok in H as ([] & Hb%ensure_Ok%bool_decide_eq_true & H).
  apply bind_Ok in H as (body & Hbody & <-%Ok_inj).
  apply bind_Ok in H' as ([] & Hb'%ensure_Ok%bool_decide_eq_true & H').
  apply bind_Ok in H' as (body' & Hbody' & H'%Ok_inj).
  apply app_inj_length in H' as [_ H']; [|done].
  apply app_inj_length in H' as [Hk H']; [|done].
  apply u16_app_inj in H' as [Hn <-]; [|lia|lia]. split.
  - destruct k, k'; try done; by vm_compute in Hk.
  - eapply header_fields_inj; [lia|done|done|exact Hbody|exact Hbody'].
Qed.

Record header_typed (h : DmHeader) : Prop := {
  ht_pn : h_pn h <= U64_MAX;
  ht_n : h_n h <= U64_MAX;
  ht_epoch : h_device_epoch h <= U64_MAX;
}.

Lemma u64_be_inj n m : n <= U64_MAX -> m <= U64_MAX -> u64_be n = u64_be m -> n = m.
Proof. unfold U64_MAX. intros Hn Hm. apply (be_of_inj 8); simpl; lia. Qed.

(** The canonical bytes of a direct-message header determine the header:
    session, both devices, ratchet key, both counters, epoch and event id. They
    never are the canonical bytes of a group message. Hashing and
    authenticating them therefore binds every field. *)
Theorem dm_header_binding h h' out :
  header_typed h -> header_typed h' ->
  dm_canonical_header_bytes h = Ok out ->
  (dm_canonical_header_bytes h' = Ok out -> h' = h) /\
  forall l, Forall (fun f => field_id f < 65536) l -> canonical_header_bytes GroupMessage l <> Ok out.
Proof.
  intros [Hpn Hn He] [Hpn' Hn' He'] H. unfold dm_canonical_header_bytes in *.
  assert (forall x, Forall (fun f => field_id f < 65536) (fields x)) as Hids
    by (intros x; unfold fields; repeat apply Forall_cons_2; try done; by vm_compute).
  destruct (canonical_header_bytes DmMessage (fields h)) as [b|] eqn:E; [injection H as ->|done].
  split.
  - intros H'. destruct (canonical_header_bytes DmMessage (fields h')) as [b|] eqn:E'; [injection H' as ->|done].
    destruct (canonical_header_inj _ _ _ _ _ (Hids h') (Hids h) E' E) as [_ Heq].
    pose proof (fun i => f_equal (fun l : list (N * bytes) => default [] (snd <$> l !! i)) Heq) as Hat.
    assert (str (h_ratchet_session_id h') = str (h_ratchet_session_id h)) as H1 by exact (Hat 0%nat).
    assert (h_sender_device_id_hash h' = h_sender_device_id_hash h) as H2 by exact (Hat 1%nat).
    assert (h_recipient_device_id_hash h' = h_recipient_device_id_hash h) as H3 by exact (Hat 2%nat).
    assert (h_dh_ratchet_public h' = h_dh_ratchet_public h) as H4 by exact (Hat 3%nat).
    assert (u64_be (h_pn h') = u64_be (h_pn h)) as H5 by exact (Hat 4%nat).
    assert (u64_be (h_n h') = u64_be (h_n h)) as H6 by exact (Hat 5%nat).
    assert (u64_be (h_device_epoch h') = u64_be (h_device_epoch h)) as H7 by exact (Hat 6%nat).
    assert (str (h_message_event_id h') = str (h_message_event_id h)) as H8 by exact (Hat 7%nat).
    apply str_inj in H1. apply str_inj in H8.
    apply u64_be_inj in H5; [|done|done]. apply u64_be_inj in H6; [|done|done].
    apply u64_be_inj in H7; [|done|done]. clear -H1 H2 H3 H4 H5 H6 H7 H8.
    destruct h, h'; simpl in *; congruence.
  - intros l Hl E'. by destruct (canonical_header_inj _ _ _ _ _ (Hids h) Hl E E') as [Hk _].
Qed.

(** ** The franking tag of the node *)

(** What a length prefix of 16 bits keeps of a text. *)
Definition abridged (l : bytes) : bytes := take (N.to_nat 65535) l.

Lemma abridged_short l : N.of_nat (length l) <= 65535 -> abridged l = l.
Proof. intros Hl. apply take_ge. lia. Qed.

Lemma length_abridged l : N.of_nat (length (abridged l)) <= 65535.
Proof. unfold abridged. rewrite length_take. lia. Qed.

Lemma write_len_prefixed_abridged l : write_len_prefixed l = write_len_prefixed (abridged l).
Proof.
  unfold write_len_prefixed. cbv zeta. unfold abridged. rewrite length_take.
  replace (N.min (N.of_nat (Nat.min (N.to_nat 65535) (length l))) 65535) with (N.min (N.of_nat (length l)) 65535) by lia.
  rewrite take_take. do 2 f_equal. lia.
Qed.

Lemma write_len_prefixed_inj l l' k k' :
  N.of_nat (length l) <= 65535 -> N.of_nat (length l') <= 65535 ->
  write_len_prefixed l ++ k = write_len_prefixed l' ++ k' -> l = l' /\ k = k'.
Proof.
  intros Hl Hl'. unfold write_len_prefixed. cbv zeta. rewrite !N.min_l by done.
  rewrite !Nat2N.id, !firstn_all, <- !app_assoc. intros [Hlen Heq]%u16_app_inj; [|lia|lia].
  apply app_inj_length; [lia|done].
Qed.

(** The preimage a node signs when it franks an accepted envelope
    determines node, envelope, message event, sender, commitments and time, for
    texts of at most 65535 bytes. *)
Theorem franking_preimage_binding n e m s c x t n' e' m' s' c' x' t' :
  Forall (fun l => N.of_nat (length l) <= 65535)
    [str n; str e; str m; s; str c; str x; str n'; str e'; str m'; s'; str c'; str x'] ->
  t <= U64_MAX -> t' <= U64_MAX ->
  franking_node_tag_preimage n e m s c x t = franking_node_tag_preimage n' e' m' s' c' x' t' ->
  (n, e, m, s, c, x, t) = (n', e', m', s', c', x', t').
Proof.
  intros Hall Ht Ht'. rewrite !Forall_cons in Hall.
  destruct Hall as (? & ? & ? & ? & ? & ? & ? & ? & ? & ? & ? & ? & _).
  unfold franking_node_tag_preimage. intros Heq. apply app_inv_head in Heq.
  apply write_len_prefixed_inj in Heq as [E1 Heq]; [|done..].
  apply write_len_prefixed_inj in Heq as [E2 Heq]; [|done..].
  apply write_len_prefixed_inj in Heq as [E3 Heq]; [|done..].
  apply write_len_prefixed_inj in Heq as [E4 Heq]; [|done..].
  apply write_len_prefixed_inj in Heq as [E5 Heq]; [|done..].
  apply write_len_prefixed_inj in Heq as [E6 Heq]; [|done..].
  apply u64_be_inj in Heq; [|done..]. apply str_inj in E1, E2, E3, E5, E6. congruence.
Qed.

(** *** Concrete instances *)

Definition sample_header : DmHeader :=
  mkHeader "session" (replicate 32 Byte.x01) (replicate 32 Byte.x02) (replicate 32 Byte.x03) 0 7 0 "session:7".

Definition next_header : DmHeader :=
  mkHeader "session" (replicate 32 Byte.x01) (replicate 32 Byte.x02) (replicate 32 Byte.x03) 0 8 0 "session:7".

Lemma sample_header_encodes : exists out, dm_canonical_header_bytes sample_header = Ok out.
Proof. by vm_compute; eexists. Qed.

Lemma dm_header_binding_witness :
  exists out, dm_canonical_header_bytes sample_header = Ok out /\
    (dm_canonical_header_bytes next_header = Ok out -> next_header = sample_header) /\
    forall l, Forall (fun f => field_id f < 65536) l -> canonical_header_bytes GroupMessage l <> Ok out.
Proof.
  destruct sample_header_encodes as [out E]. exists out. split; [exact E|].
  apply (dm_header_binding sample_header next_header out); [split; by vm_compute..|exact E].
Defined.

Lemma franking_preimage_binding_witness :
  ("n", "e", "m", [Byte.x01], "c", "x", 5) = ("n", "e", "m", [Byte.x01], "c", "x", 5).
Proof.
  refine (franking_preimage_binding "n" "e" "m" [Byte.x01] "c" "x" 5 "n" "e" "m" [Byte.x01] "c" "x" 5 _ _ _ eq_refl);
    [|by vm_compute|by vm_compute].
  repeat apply Forall_cons_2; [by vm_compute..|constructor].
Defined.
