(* ===== verification/RatchetProps.v ===== *)
(** * The double ratchet: theorems

    Key derivation never fails on the lengths the ratchet asks for, so the key
    schedule is a pure function ([ck], [keys_of], [rc]). On top of it: the
    chain of one sender, received in any order and with repetitions, behaves
    as a channel that hands every message over at most once; a conversation
    whose sides take turns, each turn received in any order, decrypts
    throughout; the store of skipped keys stays within its limit whatever
    arrives; every session keeps its array lengths; and snapshots restore. *)

From S2P Require Import Prelude OrdMap Bytes Crypto Ratchet CryptoProps.
From stdpp Require Import pretty.
From Stdlib Require Import Strings.Byte.

Open Scope N_scope.

(** Evaluate the updates of a session given by its fields. *)
Ltac session_cbv :=
  cbv beta iota delta [set_sending set_dhs set_step_root set_receiving set_epochs set_dhr_public
    set_skipped from_seed secret public
    session_id bootstrap_transcript_hash root_key sending_chain_key receiving_chain_key send_counter
    receive_counter dhs_private dhs_public dhr_public sender_device_id_hash recipient_device_id_hash
    device_epoch_local device_epoch_remote dh_ratchet_step is_initiator_side
    previous_sending_chain_length max_skip skipped_message_keys skipped_message_secrets skipped_order].

Section ratchet.
Context {prim : Primitives} {laws : PrimitiveLaws prim}.

(** ** The key schedule as functions *)

Definition from_ok {E A} (d : A) (r : result E A) : A := match r with Ok a => a | Err _ => d end.

Definition ck (chain context : bytes) : bytes * bytes := from_ok ([], []) (kdf_ck chain context).
Definition keys_of (secret context : bytes) : MessageKeys :=
  from_ok (mkMessageKeys [] [] [] []) (derive_message_keys secret context).
Definition rc (root dh : bytes) (parts : RatchetContextParts) (role : bytes) : bytes * bytes :=
  from_ok ([], []) (derive_root_and_chain root dh parts role).

Lemma kdf_ck_ok chain context : kdf_ck chain context = Ok (ck chain context).
Proof.
  unfold ck, kdf_ck. edestruct hkdf_total as (out & Hout & _); [|rewrite Hout; reflexivity].
  apply Nat.leb_le. reflexivity.
Qed.

Lemma derive_message_keys_ok secret context :
  derive_message_keys secret context = Ok (keys_of secret context).
Proof.
  unfold keys_of, derive_message_keys.
  edestruct hkdf_total as (out & Hout & _); [|rewrite Hout; reflexivity].
  apply Nat.leb_le. reflexivity.
Qed.

Lemma derive_root_and_chain_ok root dh parts role :
  derive_root_and_chain root dh parts role = Ok (rc root dh parts role).
Proof.
  unfold rc, derive_root_and_chain.
  edestruct hkdf_total as (out & Hout & _); [|rewrite Hout; reflexivity].
  apply Nat.leb_le. reflexivity.
Qed.

Lemma advance_chain_key_ok chain context : advance_chain_key chain context = Ok (ck chain context).1.
Proof. unfold advance_chain_key. rewrite kdf_ck_ok. simpl. by destruct (ck chain context). Qed.

Lemma derive_initial_chains_ok root parts :
  derive_initial_chains root parts =
  Ok ((rc root root parts ROLE_INITIATOR_SEND).2, (rc root root parts ROLE_RECIPIENT_SEND).2).
Proof.
  unfold derive_initial_chains. rewrite !derive_root_and_chain_ok. simpl.
  by destruct (rc root root parts ROLE_INITIATOR_SEND), (rc root root parts ROLE_RECIPIENT_SEND).
Qed.

(** ** A sender's chain *)

(** The chain key before message [n] and the secret of message [n]. *)
Fixpoint chain_at (context : N -> bytes) (k0 : bytes) (n : nat) : bytes :=
  match n with
  | O => k0
  | S n => (ck (chain_at context k0 n) (context (N.of_nat n))).1
  end.

Definition secret_at (context : N -> bytes) (k0 : bytes) (n : nat) : bytes :=
  (ck (chain_at context k0 n) (context (N.of_nat n))).2.

(** The public key in the headers of a session, and the contexts of its chain. *)
Definition wire_public (s : DmSession) : bytes := default ZERO32 (dhs_public s).

Definition send_context (s : DmSession) (n : N) : bytes :=
  session_direction_context s (send_direction_tag s) (wire_public s) n (device_epoch_remote s).

(** [c] carries [plaintext] as message [n] of the chain of [s], under the
    secret of that position. *)
Record sealed (s : DmSession) (n : N) (secret associated_data plaintext : bytes) (c : DmCiphertext) : Prop := {
  se_session : ct_session_id c = session_id s;
  se_counter : ct_counter c = n;
  se_public : default ZERO32 (ct_ratchet_public_key c) = wire_public s;
  se_pn : ct_previous_chain_length c = previous_sending_chain_length s;
  se_epoch : ct_device_epoch c = device_epoch_local s;
  se_open : exists canonical,
    dm_canonical_header_bytes (ciphertext_header c) = Ok canonical /\
    header_hash_base64url DmMessage (fields (ciphertext_header c)) = Ok (ct_header_hash c) /\
    open_message c canonical associated_data
      (keys_of secret (message_context (session_id s) (send_direction_tag s) n canonical associated_data))
    = Ok plaintext;
}.

(** The commitments of a message are the ones its receiver recomputes. *)
Lemma verify_commitments_self c plaintext ad canonical keys f :
  f = franking_commitment (mkFrankingInput plaintext (ct_sender_device_id_hash c)
        (ct_message_event_id c) canonical ad (ct_ciphertext c) (opening_key keys) (commitment_key keys)) ->
  ct_key_commitment c = fc_key_commitment f -> ct_franking_commitment c = fc_franking_commitment f ->
  ct_commitment c = fc_commitment f -> verify_commitments c plaintext ad canonical keys = Ok tt.
Proof.
  intros -> H1 H2 H3. unfold verify_commitments. by rewrite H1, H2, H3, !bool_decide_eq_true_2.
Qed.

Lemma encrypt_message_sealed s plaintext ad c next :
  encrypt_message s plaintext ad = Ok (c, next) ->
  sealed s (send_counter s) (ck (sending_chain_key s) (send_context s (send_counter s))).2 ad plaintext c /\
  next = (ck (sending_chain_key s) (send_context s (send_counter s))).1.
Proof.
  unfold encrypt_message. rewrite kdf_ck_ok. fold (wire_public s) (send_context s (send_counter s)).
  destruct (ck (sending_chain_key s) (send_context s (send_counter s))) as [nx secret].
  cbn [fst snd]. intros ([nx' secret'] & [= <- <-] & (canonical & Hcan & H)%bind_Ok)%bind_Ok.
  rewrite derive_message_keys_ok in H. apply bind_Ok in H as (keys & [= <-] & H).
  apply bind_Ok in H as (sealed_bytes & Haead & H).
  injection H as <- <-. split; [|done]. split; try done.
  exists canonical. split; [exact Hcan|]. split.
  - unfold header_hash_base64url, dm_canonical_header_bytes, ciphertext_header in *.
    cbn -[canonical_header_bytes fields franking_commitment] in *.
    destruct (canonical_header_bytes _ _); simpl in Hcan; [injection Hcan as ->|done]. done.
  - unfold open_message. cbn [ct_nonce ct_ciphertext].
    destruct (aead_encrypt _ _ _ _) as [ct|] eqn:Hct; [injection Haead as ->|done].
    apply aead_opens in Hct. rewrite Hct. cbn [ok_or mbind result_bind].
    by erewrite verify_commitments_self by reflexivity.
Qed.

(** The messages of a list, encrypted one after the other. *)
Fixpoint encrypt_all (l : list (bytes * bytes)) : stres DmSession CryptoError (list DmCiphertext) :=
  match l with
  | [] => mret []
  | (plaintext, ad) :: l => encrypt plaintext ad ≫= fun c => encrypt_all l ≫= fun cs => mret (c :: cs)
  end.

Lemma sealed_set_sending s chain counter n secret ad p c :
  sealed (set_sending s chain counter) n secret ad p c -> sealed s n secret ad p c.
Proof. intros []. by split. Qed.

Lemma encrypt_all_sealed l : forall s n0 k0 s' cs,
  sending_chain_key s = chain_at (send_context s) k0 n0 -> send_counter s = N.of_nat n0 ->
  N.of_nat (n0 + length l) <= U64_MAX ->
  encrypt_all l s = (s', Ok cs) ->
  length cs = length l /\
  s' = set_sending s (chain_at (send_context s) k0 (n0 + length l)) (N.of_nat (n0 + length l)) /\
  forall i p ad c, l !! i = Some (p, ad) -> cs !! i = Some c ->
    sealed s (N.of_nat (n0 + i)) (secret_at (send_context s) k0 (n0 + i)) ad p c.
Proof.
  induction l as [|[p ad] l IH]; intros s n0 k0 s' cs Hk Hn Hb H.
  - injection H as <- <-. split; [done|]. split; [|intros [|i]; done].
    simpl. rewrite Nat.add_0_r, <- Hk, <- Hn. by destruct s.
  - cbn [encrypt_all] in H. unfold mbind at 1, stres_bind in H. unfold encrypt in H.
    destruct (encrypt_message s p ad) as [[c next]|] eqn:Henc; [|done].
    apply encrypt_message_sealed in Henc as [Hse ->].
    replace (u64_saturating_add (send_counter s) 1) with (N.of_nat (S n0)) in H
      by (rewrite Hn; simpl in Hb; revert Hb; unfold_ints; lia).
    rewrite Hn, Hk in H, Hse.
    set (s1 := set_sending s _ _) in H.
    unfold mbind, stres_bind, mret, stres_ret in H.
    destruct (encrypt_all l s1) as [s2 [cs2|]] eqn:Hrec; [|done]. injection H as <- <-.
    edestruct (IH s1 (S n0) k0 s2 cs2) as (Hlen & -> & Hall); [done|done| |done|].
    { simpl in Hb. rewrite <- Hb. simpl. lia. }
    split; [simpl; lia|]. split; [simpl; by rewrite <- plus_n_Sm|].
    intros [|i] p' ad' c'; simpl.
    + intros [= <- <-] [= <-]. by rewrite Nat.add_0_r.
    + intros Hi Hc. apply (sealed_set_sending s (sending_chain_key s1) (send_counter s1)).
      specialize (Hall i p' ad' c' Hi Hc). by rewrite <- plus_n_Sm.
Qed.

(** ** The receiver of a chain *)

(** Two sessions that are the two ends of one. *)
Record aligned (s r : DmSession) : Prop := {
  al_session : session_id s = session_id r;
  al_role : is_initiator_side s = negb (is_initiator_side r);
  al_epoch : device_epoch_remote s = device_epoch_local r;
  al_epoch' : device_epoch_remote r = device_epoch_local s;
  al_hash : sender_device_id_hash s = recipient_device_id_hash r;
  al_hash' : recipient_device_id_hash s = sender_device_id_hash r;
}.

Lemma aligned_tags s r :
  aligned s r ->
  send_direction_tag s = recv_direction_tag r /\ local_sender_role_tag s = remote_sender_role_tag r.
Proof.
  intros [_ Hr _ _ _ _].
  unfold send_direction_tag, recv_direction_tag, local_sender_role_tag, remote_sender_role_tag.
  rewrite Hr. by destruct (is_initiator_side r).
Qed.

Lemma aligned_context s r n :
  aligned s r ->
  session_direction_context r (recv_direction_tag r) (wire_public s) n (device_epoch_remote r) =
  send_context s n.
Proof.
  intros Hal. destruct (aligned_tags _ _ Hal) as [Htag _]. destruct Hal as [Hid Hr He He' _ _].
  unfold send_context, session_direction_context, canonical_epoch_pair.
  rewrite Htag, Hid, Hr, He, He'. by destruct (is_initiator_side r).
Qed.

(** What receiving on a chain leaves alone. *)
Definition sending_side (s : DmSession) :=
  (root_key s, sending_chain_key s, send_counter s, dhs_private s, dhs_public s,
   dh_ratchet_step s, previous_sending_chain_length s, max_skip s).

(** [r] receives the chain that [s] started with [k0]; [seen] are the numbers
    of the messages it has handed over. *)
Record receiver (s : DmSession) (k0 : bytes) (seen : gset N) (r : DmSession) : Prop := {
  rv_aligned : aligned s r;
  rv_same : wire_public s = ZERO32 \/ dhr_public r = Some (wire_public s);
  rv_public : default ZERO32 (dhr_public r) = wire_public s;
  rv_seen n : n ∈ seen -> n < receive_counter r;
  rv_chain : receiving_chain_key r = chain_at (send_context s) k0 (N.to_nat (receive_counter r));
  rv_keys : skipped_message_keys r = ∅;
  rv_secrets id v : skipped_message_secrets r !! id = Some v <->
    exists n, id = skipped_key_id (wire_public s) n /\ n < receive_counter r /\ n ∉ seen /\
      v = secret_at (send_context s) k0 (N.to_nat n);
  rv_size : (size (skipped_message_secrets r) + size seen = N.to_nat (receive_counter r))%nat;
}.

Lemma skipped_key_id_inj public n m : skipped_key_id public n = skipped_key_id public m -> n = m.
Proof. unfold skipped_key_id. intros H%(inj _)%(inj _). by apply (inj pretty) in H. Qed.

Lemma evict_skipped_noop fuel s :
  (size (skipped_message_keys s) + size (skipped_message_secrets s) < max_skip s)%nat ->
  evict_skipped fuel s = s.
Proof. intros Hs. destruct fuel; [done|]. cbn [evict_skipped]. by rewrite decide_False by lia. Qed.

Lemma skip_one_receiver s k0 seen r :
  receiver s k0 seen r -> receive_counter r < U64_MAX ->
  (size (skipped_message_secrets r) < max_skip r)%nat ->
  exists r', skip_one (wire_public s) r = (r', Ok tt) /\ receiver s k0 seen r' /\
    receive_counter r' = receive_counter r + 1 /\ sending_side r' = sending_side r.
Proof.
  intros [Hal Hsame Hpub Hseen Hch Hkeys Hsec Hsize] Hmax Hroom. unfold skip_one.
  rewrite (aligned_context s r _ Hal), kdf_ck_ok, Hch.
  destruct (ck _ _) as [nx secret] eqn:Hck.
  rewrite evict_skipped_noop by (rewrite Hkeys, map_size_empty; done).
  cbn -[ck chain_at]. rewrite advance_chain_key_ok. cbn -[ck chain_at].
  replace (u64_saturating_add (receive_counter r) 1) with (receive_counter r + 1)
    by (revert Hmax; unfold_ints; lia).
  eexists. split; [reflexivity|]. split; [|done].
  set (c := receive_counter r) in *.
  assert (skipped_message_secrets r !! skipped_key_id (wire_public s) c = None) as Hnew.
  { apply eq_None_not_Some. intros [v (n & Hid & Hn & _)%Hsec]. apply skipped_key_id_inj in Hid. lia. }
  split; cbn -[ck chain_at]; try done.
  - by destruct Hal.
  - intros n Hn%Hseen. lia.
  - rewrite N.add_1_r, N2Nat.inj_succ. cbn [chain_at]. by rewrite N2Nat.id, Hch.
  - intros id v. rewrite lookup_insert_Some, Hsec. split.
    + intros [[<- <-]|[_ (n & -> & Hn & Hs & ->)]]; [|exists n; split_and!; [done|lia|done|done]].
      exists c. split_and!; [done|lia| |].
      * intros Hc%Hseen. lia.
      * unfold secret_at. by rewrite N2Nat.id, Hck.
    + intros (n & -> & Hn & Hs & ->). destruct (decide (n = c)) as [->|Hne].
      * left. split; [done|]. unfold secret_at. by rewrite N2Nat.id, Hck.
      * right. split; [by intros ?%skipped_key_id_inj|]. exists n. split_and!; [done|lia|done|done].
  - rewrite map_size_insert_None by done. lia.
Qed.

Lemma skip_loop_receiver s k0 seen n fuel : forall r,
  receiver s k0 seen r -> receive_counter r <= n -> fuel = N.to_nat (n - receive_counter r) ->
  n <= U64_MAX -> (N.to_nat n <= max_skip r)%nat ->
  exists r', skip_loop fuel (wire_public s) n r = (r', Ok tt) /\ receiver s k0 seen r' /\
    receive_counter r' = n /\ sending_side r' = sending_side r.
Proof.
  induction fuel as [|fuel IH]; intros r Hr Hle Hf Hn Hmax; cbn [skip_loop].
  - exists r. split_and!; [done|done|lia|done].
  - rewrite decide_True by lia.
    pose proof (rv_size _ _ _ _ Hr) as Hsize.
    destruct (skip_one_receiver s k0 seen r Hr) as (r1 & H1 & Hr1 & Hc1 & Hs1); [lia|lia|].
    assert (max_skip r1 = max_skip r) as Hm by (unfold sending_side in Hs1; congruence).
    destruct (IH r1 Hr1) as (r2 & H2 & Hr2 & Hc2 & Hs2); [lia|lia|done|lia|].
    exists r2. split_and!; [|done|done|congruence].
    unfold run. by rewrite (stres_bind_Ok _ _ _ _ _ H1).
Qed.

Lemma skip_message_keys_receiver s k0 seen n r :
  receiver s k0 seen r -> receive_counter r <= n -> n <= U64_MAX -> (N.to_nat n <= max_skip r)%nat ->
  exists r', skip_message_keys n r = (r', Ok tt) /\ receiver s k0 seen r' /\
    receive_counter r' = n /\ sending_side r' = sending_side r.
Proof.
  intros Hr Hle Hn Hmax. unfold skip_message_keys. rewrite !decide_False by lia.
  rewrite (rv_public _ _ _ _ Hr). by apply (skip_loop_receiver s k0 seen n).
Qed.

(** ** Delivering a message *)

(** [decrypt] once the header of the message checks out. *)
Lemma decrypt_eval c ad fresh r canonical :
  dm_canonical_header_bytes (ciphertext_header c) = Ok canonical ->
  header_hash_base64url DmMessage (fields (ciphertext_header c)) = Ok (ct_header_hash c) ->
  decrypt c ad fresh r =
  match select_message_keys c canonical ad fresh r with
  | (r, Err e) => (r, Err e)
  | (r, Ok (keys, used)) =>
      match open_message c canonical ad keys with
      | Err e => (r, Err e)
      | Ok p => match consume_key c used r with
                | (r, Err e) => (r, Err e)
                | (r, Ok _) => (r, Ok p)
                end
      end
  end.
Proof.
  intros Hcan Hhash. unfold decrypt, decrypt_with_franking_keys.
  rewrite Hcan, Hhash. unfold lift, mbind, stres_bind, mret, stres_ret. cbn [map_err].
  rewrite bool_decide_eq_true_2 by done. cbn [ensure].
  destruct (select_message_keys c canonical ad fresh r) as [r1 [[keys used]|e]]; [|done].
  destruct (open_message c canonical ad keys) as [p|e]; [|done].
  by destruct (consume_key c used r1) as [r2 [[]|e]].
Qed.

(** The receiver stays on the chain of a message that carries its key. *)
Lemma ratchet_for_header_same s k0 seen r c n secret ad p fresh :
  receiver s k0 seen r -> sealed s n secret ad p c ->
  ratchet_for_header (ciphertext_header c) fresh r = (r, Ok tt).
Proof.
  intros Hr Hc. unfold ratchet_for_header. cbn [h_dh_ratchet_public ciphertext_header].
  rewrite (se_public _ _ _ _ _ _ Hc). destruct (rv_same _ _ _ _ Hr) as [->| ->].
  - done.
  - rewrite (bool_decide_eq_true_2 (Some _ = Some _)) by done. by rewrite orb_true_r.
Qed.

Lemma receive_message_context_sealed s r c n secret ad p canonical :
  aligned s r -> sealed s n secret ad p c ->
  receive_message_context r c canonical ad =
  message_context (session_id s) (send_direction_tag s) n canonical ad.
Proof.
  intros Hal Hc. unfold receive_message_context. destruct (aligned_tags _ _ Hal) as [-> _].
  by rewrite (al_session _ _ Hal), (se_counter _ _ _ _ _ _ Hc).
Qed.

Lemma receive_context_sealed s r c n secret ad p :
  aligned s r -> sealed s n secret ad p c -> receive_context r c = send_context s n.
Proof.
  intros Hal Hc. unfold receive_context. rewrite <- (aligned_context s r n Hal).
  by rewrite (se_public _ _ _ _ _ _ Hc), (se_counter _ _ _ _ _ _ Hc), (se_epoch _ _ _ _ _ _ Hc),
    (al_epoch' _ _ Hal).
Qed.

(** What a receiver of the chain knows about message [n]. *)
Lemma receiver_lookup s k0 seen r n :
  receiver s k0 seen r ->
  skipped_message_secrets r !! skipped_key_id (wire_public s) n =
  (if decide (n < receive_counter r /\ n ∉ seen)
   then Some (secret_at (send_context s) k0 (N.to_nat n)) else None).
Proof.
  intros Hr. case_decide as Hn.
  - apply (rv_secrets _ _ _ _ Hr). exists n. naive_solver.
  - apply eq_None_not_Some. intros [v (m & Hid & Hm)%(rv_secrets _ _ _ _ Hr)].
    apply skipped_key_id_inj in Hid as ->. naive_solver.
Qed.

Lemma deliver_again s k0 seen r c n secret ad p fresh :
  receiver s k0 seen r -> sealed s n secret ad p c -> n ∈ seen ->
  decrypt c ad fresh r = (r, Err AeadFailed).
Proof.
  intros Hr Hc Hn. destruct (se_open _ _ _ _ _ _ Hc) as (canonical & Hcan & Hhash & _).
  rewrite (decrypt_eval _ _ _ _ _ Hcan Hhash). unfold select_message_keys.
  rewrite (stres_bind_Ok _ _ _ r r) by done.
  rewrite (se_public _ _ _ _ _ _ Hc), (se_counter _ _ _ _ _ _ Hc).
  rewrite (receiver_lookup _ _ _ _ _ Hr), decide_False by naive_solver.
  rewrite (rv_keys _ _ _ _ Hr), lookup_empty. unfold mbind, stres_bind, next_message_keys.
  unfold mbind, stres_bind. erewrite ratchet_for_header_same by done.
  unfold get, lift. rewrite (se_counter _ _ _ _ _ _ Hc).
  rewrite bool_decide_eq_false_2; [done|]. pose proof (rv_seen _ _ _ _ Hr n Hn). lia.
Qed.

Lemma receiver_consume s k0 seen r n order :
  receiver s k0 seen r -> n < receive_counter r -> n ∉ seen ->
  receiver s k0 ({[n]} ∪ seen)
    (set_skipped r (delete (skipped_key_id (wire_public s) n) (skipped_message_keys r))
       (delete (skipped_key_id (wire_public s) n) (skipped_message_secrets r)) order).
Proof.
  intros Hr Hn Hs. pose proof (receiver_lookup _ _ _ _ n Hr) as Hl.
  rewrite decide_True in Hl by done. destruct Hr as [Hal Hsame Hpub Hseen Hch Hkeys Hsec Hsize].
  split; cbn -[chain_at]; try done.
  - by destruct Hal.
  - intros m [->%elem_of_singleton|Hm]%elem_of_union; auto.
  - by rewrite Hkeys, delete_empty.
  - intros id v. rewrite lookup_delete_Some, Hsec. split.
    + intros [Hid (m & -> & Hm & Hms & ->)]. exists m. split_and!; [done|done| |done].
      intros [->%elem_of_singleton|?]%elem_of_union; done.
    + intros (m & -> & Hm & Hms & ->). rewrite not_elem_of_union, not_elem_of_singleton in Hms.
      split; [by intros ?%skipped_key_id_inj; naive_solver|]. exists m. naive_solver.
  - rewrite map_size_delete_Some by by eexists. rewrite size_union, size_singleton by set_solver.
    assert (size (skipped_message_secrets r) <> 0)%nat; [|lia].
    intros H0%map_size_empty_inv. by rewrite H0 in Hl.
Qed.

Lemma deliver_skipped s k0 seen r c n ad p fresh :
  receiver s k0 seen r -> sealed s n (secret_at (send_context s) k0 (N.to_nat n)) ad p c ->
  n < receive_counter r -> n ∉ seen ->
  exists r', decrypt c ad fresh r = (r', Ok p) /\ receiver s k0 ({[n]} ∪ seen) r' /\
    sending_side r' = sending_side r /\ receive_counter r' <= N.max (receive_counter r) (n + 1).
Proof.
  intros Hr Hc Hn Hs. destruct (se_open _ _ _ _ _ _ Hc) as (canonical & Hcan & Hhash & Hopen).
  rewrite (decrypt_eval _ _ _ _ _ Hcan Hhash). unfold select_message_keys.
  rewrite (stres_bind_Ok _ _ _ r r) by done.
  rewrite (se_public _ _ _ _ _ _ Hc), (se_counter _ _ _ _ _ _ Hc).
  rewrite (receiver_lookup _ _ _ _ _ Hr), decide_True by done.
  rewrite derive_message_keys_ok.
  rewrite (receive_message_context_sealed _ _ _ _ _ _ _ _ (rv_aligned _ _ _ _ Hr) Hc).
  unfold lift, mbind, stres_bind, mret, stres_ret. rewrite Hopen. unfold consume_key.
  rewrite (se_public _ _ _ _ _ _ Hc), (se_counter _ _ _ _ _ _ Hc).
  eexists. split; [reflexivity|]. split; [by apply receiver_consume|]. split; [done|simpl; lia].
Qed.

Lemma receiver_advance s k0 seen r n :
  receiver s k0 seen r -> receive_counter r = n -> n < U64_MAX ->
  receiver s k0 ({[n]} ∪ seen)
    (set_receiving r (ck (receiving_chain_key r) (send_context s n)).1
       (u64_saturating_add (receive_counter r) 1)).
Proof.
  intros [Hal Hsame Hpub Hseen Hch Hkeys Hsec Hsize] Hn Hmax.
  replace (u64_saturating_add (receive_counter r) 1) with (n + 1)
    by (rewrite Hn; revert Hmax; unfold_ints; lia).
  assert (n ∉ seen) as Hns by (intros Hin%Hseen; lia).
  split; cbn -[ck chain_at]; try done.
  - by destruct Hal.
  - intros m [->%elem_of_singleton|Hm%Hseen]%elem_of_union; lia.
  - rewrite N.add_1_r, N2Nat.inj_succ. cbn [chain_at]. by rewrite N2Nat.id, Hch, Hn.
  - intros id v. rewrite Hsec. split; intros (m & -> & Hm & Hms & ->); exists m.
    + split_and!; [done|lia| |done]. intros [->%elem_of_singleton|?]%elem_of_union; [lia|done].
    + rewrite not_elem_of_union, not_elem_of_singleton in Hms. split_and!; [done|lia|naive_solver|done].
  - rewrite size_union, size_singleton by set_solver. lia.
Qed.

(** A message the receiver has not reached, after the ratchet step its header
    asks for. *)
Lemma deliver_after_ratchet s k0 seen r r1 c n ad p fresh :
  skipped_message_secrets r !! skipped_key_id (wire_public s) n = None ->
  skipped_message_keys r !! skipped_key_id (wire_public s) n = None ->
  ratchet_for_header (ciphertext_header c) fresh r = (r1, Ok tt) ->
  receiver s k0 seen r1 -> sealed s n (secret_at (send_context s) k0 (N.to_nat n)) ad p c ->
  receive_counter r1 <= n -> n < U64_MAX -> (N.to_nat n <= max_skip r1)%nat ->
  exists r', decrypt c ad fresh r = (r', Ok p) /\ receiver s k0 ({[n]} ∪ seen) r' /\
    sending_side r' = sending_side r1 /\ receive_counter r' <= n + 1.
Proof.
  intros Hsec Hkeys Hrat Hr Hc Hn Hmax Hskip.
  destruct (se_open _ _ _ _ _ _ Hc) as (canonical & Hcan & Hhash & Hopen).
  destruct (skip_message_keys_receiver s k0 seen n r1) as (r2 & Hskip2 & Hr2 & Hc2 & Hs2); [done|done|lia|done|].
  rewrite (decrypt_eval _ _ _ _ _ Hcan Hhash). unfold select_message_keys.
  rewrite (stres_bind_Ok _ _ _ r r) by done.
  rewrite (se_public _ _ _ _ _ _ Hc), (se_counter _ _ _ _ _ _ Hc), Hsec, Hkeys.
  unfold next_message_keys, mbind, stres_bind. rewrite Hrat. unfold get, lift.
  rewrite (se_counter _ _ _ _ _ _ Hc), bool_decide_eq_true_2 by done. cbn [ensure].
  rewrite Hskip2, kdf_ck_ok.
  rewrite (receive_context_sealed _ _ _ _ _ _ _ (rv_aligned _ _ _ _ Hr2) Hc).
  rewrite (rv_chain _ _ _ _ Hr2), Hc2.
  destruct (ck (chain_at (send_context s) k0 (N.to_nat n)) (send_context s n)) as [next secret] eqn:Hck.
  rewrite (receive_message_context_sealed _ _ _ _ _ _ _ _ (rv_aligned _ _ _ _ Hr2) Hc).
  assert (secret_at (send_context s) k0 (N.to_nat n) = secret) as Hsecret
    by (unfold secret_at; by rewrite N2Nat.id, Hck).
  rewrite Hsecret in Hopen. rewrite derive_message_keys_ok.
  unfold mret, stres_ret. rewrite Hopen. unfold consume_key. rewrite advance_chain_key_ok.
  rewrite (receive_context_sealed _ _ _ _ _ _ _ (rv_aligned _ _ _ _ Hr2) Hc).
  eexists. split; [reflexivity|]. split; [by apply receiver_advance|].
  split; [by rewrite <- Hs2|]. cbn [receive_counter set_receiving]. unfold_ints. lia.
Qed.

Lemma deliver_next s k0 seen r c n ad p fresh :
  receiver s k0 seen r -> sealed s n (secret_at (send_context s) k0 (N.to_nat n)) ad p c ->
  receive_counter r <= n -> n < U64_MAX -> (N.to_nat n <= max_skip r)%nat ->
  exists r', decrypt c ad fresh r = (r', Ok p) /\ receiver s k0 ({[n]} ∪ seen) r' /\
    sending_side r' = sending_side r /\ receive_counter r' <= N.max (receive_counter r) (n + 1).
Proof.
  intros Hr Hc Hn Hmax Hskip.
  edestruct (deliver_after_ratchet s k0 seen r r c n) as (r' & ? & ? & ? & ?); try done;
    [..|exists r'; split_and!; [done..|lia]].
  - rewrite (receiver_lookup _ _ _ _ _ Hr), decide_False; [done|lia].
  - by rewrite (rv_keys _ _ _ _ Hr).
  - by eapply ratchet_for_header_same.
Qed.

Lemma deliver_new s k0 seen r c n ad p fresh :
  receiver s k0 seen r -> sealed s n (secret_at (send_context s) k0 (N.to_nat n)) ad p c ->
  n ∉ seen -> n < U64_MAX -> (N.to_nat n <= max_skip r)%nat ->
  exists r', decrypt c ad fresh r = (r', Ok p) /\ receiver s k0 ({[n]} ∪ seen) r' /\
    sending_side r' = sending_side r /\ receive_counter r' <= N.max (receive_counter r) (n + 1).
Proof.
  intros Hr Hc Hs Hmax Hskip. destruct (decide (n < receive_counter r)).
  - by apply deliver_skipped.
  - apply deliver_next; [done|done|lia|done|done].
Qed.

(** ** A chain is a channel *)

(** The specification: a channel hands message [i] over the first time it
    arrives and refuses it afterwards. *)
Fixpoint channel (msgs : list (bytes * bytes)) (seen : gset N) (schedule : list nat)
  : list (result CryptoError bytes) :=
  match schedule with
  | [] => []
  | i :: schedule =>
      if decide (N.of_nat i ∈ seen) then Err AeadFailed :: channel msgs seen schedule
      else Ok (default [] (fst <$> msgs !! i)) :: channel msgs ({[N.of_nat i]} ∪ seen) schedule
  end.

(** The arrivals of a schedule: the ciphertexts with their associated data. *)
Definition arrivals (cs : list DmCiphertext) (msgs : list (bytes * bytes)) (schedule : list nat)
  : list (DmCiphertext * bytes) :=
  omap (fun i => c ← cs !! i; m ← msgs !! i; Some (c, m.2)) schedule.

Fixpoint receive_all (fresh : result CryptoError bytes) (l : list (DmCiphertext * bytes))
    (r : DmSession) : DmSession * list (result CryptoError bytes) :=
  match l with
  | [] => (r, [])
  | (c, ad) :: l =>
      let '(r, answer) := decrypt c ad fresh r in
      let '(r, answers) := receive_all fresh l r in (r, answer :: answers)
  end.

(** The ciphertexts [cs] are the messages [msgs] of the chain of [s]. *)
Definition chain_of (s : DmSession) (k0 : bytes) (msgs : list (bytes * bytes)) (cs : list DmCiphertext) : Prop :=
  length cs = length msgs /\
  forall i p ad c, msgs !! i = Some (p, ad) -> cs !! i = Some c ->
    sealed s (N.of_nat i) (secret_at (send_context s) k0 i) ad p c.

Lemma arrivals_cons s k0 msgs cs i schedule :
  chain_of s k0 msgs cs -> (i < length msgs)%nat ->
  exists c p ad, arrivals cs msgs (i :: schedule) = (c, ad) :: arrivals cs msgs schedule /\
    default [] (fst <$> msgs !! i) = p /\
    sealed s (N.of_nat i) (secret_at (send_context s) k0 (N.to_nat (N.of_nat i))) ad p c.
Proof.
  intros [Hlen Hall] Hi. destruct (lookup_lt_is_Some_2 msgs i Hi) as [[p ad] Hm].
  destruct (lookup_lt_is_Some_2 cs i) as [c Hc]; [lia|]. exists c, p, ad.
  unfold arrivals. cbn [omap list_omap]. rewrite Hm, Hc, Nat2N.id. split_and!; [done|done|by apply Hall].
Qed.

Definition numbers (schedule : list nat) : gset N := list_to_set (N.of_nat <$> schedule).

Lemma receive_all_channel s k0 msgs cs fresh schedule : forall seen r,
  receiver s k0 seen r -> chain_of s k0 msgs cs ->
  Forall (fun i => i < length msgs)%nat schedule -> (length msgs <= S (max_skip r))%nat ->
  N.of_nat (length msgs) <= U64_MAX ->
  exists r', receive_all fresh (arrivals cs msgs schedule) r = (r', channel msgs seen schedule) /\
    receiver s k0 (numbers schedule ∪ seen) r' /\ sending_side r' = sending_side r /\
    receive_counter r' <= N.max (receive_counter r) (N.of_nat (length msgs)).
Proof.
  induction schedule as [|i schedule IH]; intros seen r Hr Hcs Hall Hmax Hu.
  - exists r. unfold numbers. simpl. rewrite union_empty_l_L. split_and!; [done|done|done|lia].
  - apply Forall_cons in Hall as [Hi Hall].
    destruct (arrivals_cons s k0 msgs cs i schedule Hcs Hi) as (c & p & ad & -> & Hp & Hc).
    cbn [receive_all channel]. rewrite Hp. case_decide as Hin.
    + rewrite (deliver_again _ _ _ _ _ _ _ _ _ fresh Hr Hc Hin).
      destruct (IH seen r Hr Hcs Hall Hmax Hu) as (r' & -> & Hr' & Hs' & Hc'). exists r'.
      split_and!; [done| |done|done]. replace (numbers (i :: schedule) ∪ seen) with (numbers schedule ∪ seen); [done|].
      unfold numbers. rewrite fmap_cons, list_to_set_cons. set_solver.
    + destruct (deliver_new _ _ _ _ _ _ _ _ fresh Hr Hc Hin) as (r1 & -> & Hr1 & Hs1 & Hc1); [lia|lia|].
      assert (max_skip r1 = max_skip r) as Hm by (unfold sending_side in Hs1; congruence).
      destruct (IH _ r1 Hr1 Hcs Hall) as (r' & -> & Hr' & Hs' & Hc'); [lia|done|]. exists r'.
      split_and!; [done| |congruence|lia]. replace (numbers (i :: schedule) ∪ seen)
        with (numbers schedule ∪ ({[N.of_nat i]} ∪ seen)); [done|].
      unfold numbers. rewrite fmap_cons, list_to_set_cons. set_solver.
Qed.

Lemma receiver_start s r :
  aligned s r -> wire_public s = ZERO32 \/ dhr_public r = Some (wire_public s) ->
  default ZERO32 (dhr_public r) = wire_public s -> receive_counter r = 0 ->
  receiving_chain_key r = sending_chain_key s ->
  skipped_message_keys r = ∅ -> skipped_message_secrets r = ∅ ->
  receiver s (sending_chain_key s) ∅ r.
Proof.
  intros Hal Hsame Hpub Hc Hk Hkeys Hsec. split; try done.
  - by rewrite Hc.
  - intros id v. rewrite Hsec, lookup_empty, Hc. split; [done|]. intros (n & _ & Hn & _). lia.
  - by rewrite Hsec, Hc, map_size_empty, size_empty.
Qed.

(** The two ends of a session without ratchet keys, in either role. *)
Definition opened (root a b transcript : bytes) (s r : DmSession) : Prop :=
  (initiator root a b transcript = Ok s /\ recipient root b a transcript = Ok r) \/
  (recipient root b a transcript = Ok s /\ initiator root a b transcript = Ok r).

Lemma opened_receiver root a b transcript s r :
  opened root a b transcript s r ->
  receiver s (sending_chain_key s) ∅ r /\ send_counter s = 0 /\ max_skip r = default_dm_max_skip.
Proof.
  unfold opened, initiator, recipient. rewrite !derive_initial_chains_ok.
  cbn -[rc ratchet_session_id default_dm_max_skip].
  intros [[[= <-] [= <-]]|[[= <-] [= <-]]]; (split; [|done]); apply receiver_start; try done; by left.
Qed.

Lemma encrypt_all_chain msgs s s' cs :
  send_counter s = 0 -> N.of_nat (length msgs) <= U64_MAX -> encrypt_all msgs s = (s', Ok cs) ->
  chain_of s (sending_chain_key s) msgs cs /\
  s' = set_sending s (sending_chain_key s') (N.of_nat (length msgs)).
Proof.
  intros Hc Hu He.
  destruct (encrypt_all_sealed msgs s 0 (sending_chain_key s) s' cs) as (Hlen & -> & Hall); [done..|].
  split; [|done]. split; [done|]. exact Hall.
Qed.

(** ** Types

    The lengths that Rust's array types fix, and the machine width of the
    counters. *)

Definition key32 (l : bytes) : Prop := length l = 32%nat.

Record keys_typed (k : MessageKeys) : Prop := {
  kt_aead : key32 (aead_key k);
  kt_nonce : length (nonce k) = 12%nat;
  kt_commitment : key32 (commitment_key k);
  kt_opening : key32 (opening_key k);
}.

Record session_typed (s : DmSession) : Prop := {
  ty_session_id : String.length (session_id s) = 43%nat;
  ty_transcript : key32 (bootstrap_transcript_hash s);
  ty_root : key32 (root_key s);
  ty_sending : key32 (sending_chain_key s);
  ty_receiving : key32 (receiving_chain_key s);
  ty_send_counter : send_counter s <= U64_MAX;
  ty_receive_counter : receive_counter s <= U64_MAX;
  ty_step : dh_ratchet_step s <= U64_MAX;
  ty_previous : previous_sending_chain_length s <= U64_MAX;
  ty_private a : dhs_private s = Some a -> key32 a;
  ty_pair : dhs_public s = x25519_public <$> dhs_private s;
  ty_remote a : dhr_public s = Some a -> key32 a;
  ty_sender : key32 (sender_device_id_hash s);
  ty_recipient : key32 (recipient_device_id_hash s);
  ty_secrets : map_Forall (fun _ v => key32 v) (skipped_message_secrets s);
  ty_keys : map_Forall (fun _ k => keys_typed k) (skipped_message_keys s);
}.

Lemma ck_typed chain context : key32 (ck chain context).1 /\ key32 (ck chain context).2.
Proof.
  unfold ck, kdf_ck, key32.
  edestruct hkdf_total as (out & -> & Hl); [apply Nat.leb_le; reflexivity|]. simpl.
  rewrite length_take, length_drop, Hl. done.
Qed.

Lemma rc_typed root dh parts role :
  key32 (rc root dh parts role).1 /\ key32 (rc root dh parts role).2.
Proof.
  unfold rc, derive_root_and_chain, key32.
  edestruct hkdf_total as (out & -> & Hl); [apply Nat.leb_le; reflexivity|]. simpl.
  rewrite length_take, length_drop, Hl. done.
Qed.

Lemma keys_of_typed secret context : keys_typed (keys_of secret context).
Proof.
  unfold keys_of, derive_message_keys.
  edestruct hkdf_total as (out & -> & Hl); [apply Nat.leb_le; reflexivity|]. simpl.
  split; unfold key32; simpl; rewrite !length_take, ?length_drop, Hl; done.
Qed.

Lemma session_id_length a b transcript : String.length (ratchet_session_id a b transcript) = 43%nat.
Proof.
  unfold ratchet_session_id, ratchet_session_id_bytes, blake3_256, blake3_hash_bytes.
  by rewrite base64_length, blake3_length.
Qed.

(** ** Encryption succeeds *)

Lemma pretty_N_go_length k : forall n s,
  n < 10 ^ N.of_nat k -> (String.length (pretty_N_go n s) <= k + String.length s)%nat.
Proof.
  induction k as [|k IH]; intros n s Hn.
  - assert (n = 0) as -> by (simpl in Hn; lia). by rewrite pretty_N_go_0.
  - destruct (decide (n = 0)) as [->|Hz]; [rewrite pretty_N_go_0; lia|].
    rewrite pretty_N_go_step by lia. rewrite Nat2N.inj_succ, N.pow_succ_r' in Hn.
    specialize (IH (n / 10) (String (pretty_N_char (n mod 10)) s)). simpl in IH.
    assert (n / 10 < 10 ^ N.of_nat k) as Hd by (apply N.Div0.div_lt_upper_bound; lia).
    specialize (IH Hd). lia.
Qed.

(** A [u64] has at most twenty digits. *)
Lemma pretty_u64_length n : n <= U64_MAX -> (String.length (pretty n) <= 20)%nat.
Proof.
  intros Hn. unfold pretty, pretty_N. case_decide; [simpl; lia|].
  etransitivity; [apply (pretty_N_go_length 20)|simpl; lia].
  eapply N.le_lt_trans; [exact Hn|]. by vm_compute.
Qed.

Lemma string_length_app s t : String.length (s +:+ t) = (String.length s + String.length t)%nat.
Proof.
  induction s as [|c s IH]; [done|]. change (S (String.length (s +:+ t)) = S (String.length s + String.length t)).
  by rewrite IH.
Qed.

Lemma header_fields_total l :
  Forall (fun f => N.of_nat (length (field_value_bytes (value f))) <= U32_MAX) l ->
  exists out, header_fields l = Ok out.
Proof.
  induction 1 as [|f l Hf Hl [out IH]]; [by exists []|]. cbn [header_fields].
  rewrite bool_decide_eq_true_2 by done. rewrite IH. by eexists.
Qed.

Lemma dm_header_total h :
  (String.length (h_ratchet_session_id h) <= 1000)%nat -> (String.length (h_message_event_id h) <= 1000)%nat ->
  key32 (h_sender_device_id_hash h) -> key32 (h_recipient_device_id_hash h) ->
  key32 (h_dh_ratchet_public h) ->
  exists out, dm_canonical_header_bytes h = Ok out.
Proof.
  intros H1 H2 H3 H4 H5. unfold dm_canonical_header_bytes, canonical_header_bytes.
  destruct (header_fields_total (fields h)) as [out Hout].
  - unfold fields. repeat apply Forall_cons_2; [..|constructor];
      cbn [value field_value_bytes]; rewrite ?length_str; unfold key32, U32_MAX in *;
      rewrite ?H3, ?H4, ?H5; try lia; by unfold u64_be; rewrite length_be_of_N.
  - rewrite bool_decide_eq_true_2 by done. rewrite Hout. by eexists.
Qed.

Lemma wire_public_typed s : session_typed s -> key32 (wire_public s).
Proof.
  intros Hs. unfold wire_public. rewrite (ty_pair _ Hs).
  destruct (dhs_private s); simpl; [apply x25519_public_length|done].
Qed.

Lemma encrypt_total s plaintext ad :
  session_typed s -> N.of_nat (length plaintext) <= U32_MAX ->
  exists c, encrypt plaintext ad s =
    (set_sending s (ck (sending_chain_key s) (send_context s (send_counter s))).1
       (u64_saturating_add (send_counter s) 1), Ok c).
Proof.
  intros Hs Hp. unfold encrypt.
  enough (exists p, encrypt_message s plaintext ad = Ok p) as [[c next] Hc].
  { rewrite Hc. apply encrypt_message_sealed in Hc as [_ ->]. by eexists. }
  unfold encrypt_message. rewrite kdf_ck_ok. destruct (ck _ _) as [next secret].
  pose proof (pretty_u64_length _ (ty_send_counter _ Hs)) as Hpretty.
  match goal with |- context [dm_canonical_header_bytes ?h] =>
    destruct (dm_header_total h) as [canonical Hcan] end.
  { simpl. rewrite (ty_session_id _ Hs). lia. }
  { cbn [h_message_event_id]. rewrite !string_length_app, (ty_session_id _ Hs). simpl. lia. }
  { exact (ty_sender _ Hs). } { exact (ty_recipient _ Hs). } { by apply wire_public_typed. }
  cbn [mbind result_bind]. rewrite Hcan. cbn [mbind result_bind]. rewrite derive_message_keys_ok.
  cbn [mbind result_bind]. edestruct aead_seals as [ct ->]; [exact Hp|]. by eexists.
Qed.

Lemma set_sending_typed s chain counter :
  session_typed s -> key32 chain -> counter <= U64_MAX -> session_typed (set_sending s chain counter).
Proof. intros []. by split. Qed.

Lemma set_receiving_typed s chain counter :
  session_typed s -> key32 chain -> counter <= U64_MAX -> session_typed (set_receiving s chain counter).
Proof. intros []. by split. Qed.

Lemma saturating_bounded a b : u64_saturating_add a b <= U64_MAX.
Proof. unfold u64_saturating_add. lia. Qed.

Lemma encrypt_all_total msgs : forall s,
  session_typed s -> Forall (fun m => N.of_nat (length m.1) <= U32_MAX) msgs ->
  exists s' cs, encrypt_all msgs s = (s', Ok cs) /\ session_typed s'.
Proof.
  induction msgs as [|[p ad] msgs IH]; intros s Hs Hall; [by exists s, []|].
  apply Forall_cons in Hall as [Hp Hall]. destruct (encrypt_total s p ad Hs Hp) as [c Hc].
  cbn [encrypt_all]. rewrite (stres_bind_Ok _ _ _ _ _ Hc).
  edestruct (IH (set_sending s (ck (sending_chain_key s) (send_context s (send_counter s))).1
    (u64_saturating_add (send_counter s) 1))) as (s' & cs & Hrec & Hs'); [|exact Hall|].
  { apply set_sending_typed; [exact Hs|apply ck_typed|apply saturating_bounded]. }
  rewrite (stres_bind_Ok _ _ _ _ _ Hrec). by exists s', (c :: cs).
Qed.

Lemma initiator_typed root a b transcript s :
  key32 root -> key32 a -> key32 b -> key32 transcript ->
  initiator root a b transcript = Ok s -> session_typed s.
Proof.
  intros Hr Ha Hb Ht. unfold initiator. rewrite derive_initial_chains_ok.
  cbn -[rc ratchet_session_id]. intros [= <-].
  split; try done; first [apply session_id_length|apply rc_typed].
Qed.

Lemma recipient_typed root a b transcript s :
  key32 root -> key32 a -> key32 b -> key32 transcript ->
  recipient root a b transcript = Ok s -> session_typed s.
Proof.
  intros Hr Ha Hb Ht. unfold recipient. rewrite derive_initial_chains_ok.
  cbn -[rc ratchet_session_id]. intros [= <-].
  split; try done; first [apply session_id_length|apply rc_typed].
Qed.

(** C3: Whatever order the messages of a chain arrive in, and however often
    each of them arrives, the receiving session answers exactly as a channel
    that hands each message over once, the first time, and refuses it
    afterwards. Encrypting them does not fail. This holds for the two sessions
    made from one seed, in both directions, for up to 1000 messages, the most
    the session lets a message run ahead. *)
Theorem chain_refines_channel root a b transcript s r msgs :
  key32 root -> key32 a -> key32 b -> key32 transcript ->
  opened root a b transcript s r -> (length msgs <= default_dm_max_skip)%nat ->
  Forall (fun m => N.of_nat (length m.1) <= U32_MAX) msgs ->
  exists s' cs, encrypt_all msgs s = (s', Ok cs) /\
    forall fresh schedule, Forall (fun i => i < length msgs)%nat schedule ->
      (receive_all fresh (arrivals cs msgs schedule) r).2 = channel msgs ∅ schedule.
Proof.
  intros Hroot Ha Hb Ht Ho Hlen Hp. pose proof (opened_receiver _ _ _ _ _ _ Ho) as (Hr & Hc & Hm).
  assert (session_typed s) as Hs by (destruct Ho as [[Hs _]|[Hs _]];
    [by eapply initiator_typed in Hs|by eapply recipient_typed in Hs]).
  destruct (encrypt_all_total msgs s Hs Hp) as (s' & cs & He & _). exists s', cs. split; [done|].
  intros fresh schedule Hall.
  assert (N.of_nat (length msgs) <= U64_MAX) as Hu by (revert Hlen; unfold default_dm_max_skip, U64_MAX; lia).
  destruct (encrypt_all_chain _ _ _ _ Hc Hu He) as [Hcs _].
  destruct (receive_all_channel s (sending_chain_key s) msgs cs fresh schedule ∅ r) as (r' & -> & _);
    [done|done|done|lia|done|done].
Qed.

(** ** What decryption preserves *)

Lemma keeps_read {A} (P : DmSession -> Prop) (m : DmSession -> stres DmSession CryptoError A) :
  (forall s, keeps P (m s)) -> keeps P (get ≫= m).
Proof. intros Hm. apply keeps_bind; [apply keeps_get|done]. Qed.

Section preserved.
Context (P : DmSession -> Prop) (c : DmCiphertext) (fresh : result CryptoError bytes).
Hypothesis skip_one_keeps : forall public, keeps P (skip_one public).
Hypothesis ratchet_receiving_keeps : keeps P (ratchet_receiving (ciphertext_header c)).
Hypothesis ratchet_sending_keeps : keeps P (ratchet_sending (ciphertext_header c) fresh).
Hypothesis consume_key_keeps : forall used, keeps P (consume_key c used).

Lemma skip_loop_keeps fuel public n : keeps P (skip_loop fuel public n).
Proof.
  induction fuel as [|fuel IH]; intros s Hs; cbn [skip_loop]; [done|]. case_decide; [|done].
  by apply (keeps_bind P (skip_one public)).
Qed.

Lemma skip_message_keys_keeps n : keeps P (skip_message_keys n).
Proof.
  intros s Hs. unfold skip_message_keys. case_decide; [done|]. cbv zeta. case_decide; [done|].
  by apply skip_loop_keeps.
Qed.

Lemma ratchet_for_header_keeps : keeps P (ratchet_for_header (ciphertext_header c) fresh).
Proof.
  intros s Hs. unfold ratchet_for_header. destruct (_ || _); [done|].
  apply (keeps_bind P (skip_message_keys _)); [apply skip_message_keys_keeps| |done].
  intros _. by apply keeps_bind.
Qed.

Lemma next_message_keys_keeps canonical ad : keeps P (next_message_keys c canonical ad fresh).
Proof.
  unfold next_message_keys. apply keeps_bind; [apply ratchet_for_header_keeps|]. intros _.
  apply keeps_read. intros s. apply keeps_bind; [apply keeps_lift|]. intros _.
  apply keeps_bind; [apply skip_message_keys_keeps|]. intros _. apply keeps_read. intros s'.
  apply keeps_bind; [apply keeps_lift|]. intros [_ secret]. apply keeps_lift.
Qed.

Lemma decrypt_keeps ad : keeps P (decrypt c ad fresh).
Proof.
  unfold decrypt, decrypt_with_franking_keys.
  apply keeps_bind; [|intros ?; apply keeps_ret].
  apply keeps_bind; [apply keeps_lift|]. intros canonical.
  apply keeps_bind; [apply keeps_lift|]. intros computed.
  apply keeps_bind; [apply keeps_lift|]. intros _.
  apply keeps_bind.
  - unfold select_message_keys. apply keeps_read. intros s.
    destruct (skipped_message_secrets s !! _); [|destruct (skipped_message_keys s !! _)].
    + apply keeps_bind; [apply keeps_lift|]. intros ?. apply keeps_ret.
    + apply keeps_ret.
    + apply keeps_bind; [apply next_message_keys_keeps|]. intros ?. apply keeps_ret.
  - intros [keys used]. apply keeps_bind; [apply keeps_lift|]. intros p.
    apply keeps_bind; [apply consume_key_keeps|]. intros ?. apply keeps_ret.
Qed.
End preserved.

(** *** The store of skipped keys *)

Lemma evict_step_room fuel s :
  (skipped_weight s <= fuel)%nat -> (0 < max_skip s)%nat ->
  (size (skipped_message_keys (evict_skipped fuel s)) +
   size (skipped_message_secrets (evict_skipped fuel s)) < max_skip s)%nat.
Proof.
  revert s. induction fuel as [|fuel IH]; intros s Hw Hm; unfold skipped_weight in Hw; cbn [evict_skipped].
  - lia.
  - case_decide as Hfull; [|lia].
    assert (forall id, is_Some (skipped_message_keys s !! id) \/ is_Some (skipped_message_secrets s !! id) ->
      (size (delete id (skipped_message_keys s)) + size (delete id (skipped_message_secrets s)) <
       size (skipped_message_keys s) + size (skipped_message_secrets s))%nat) as Hdel.
    { intros id [Hid|Hid].
      - pose proof (size_delete_lt _ _ Hid). pose proof (size_delete_le id (skipped_message_secrets s)). lia.
      - pose proof (size_delete_lt _ _ Hid). pose proof (size_delete_le id (skipped_message_keys s)). lia. }
    destruct (skipped_order s) as [|id rest] eqn:Ho.
    + destruct (bt_first (skipped_message_keys s)) as [[id k]|] eqn:Hk.
      * apply bt_first_Some in Hk as [Hk _]. apply (IH (set_skipped s _ _ _)); [|done].
        unfold skipped_weight. cbn. simpl in *. pose proof (Hdel id (or_introl (mk_is_Some _ _ Hk))). lia.
      * destruct (bt_first (skipped_message_secrets s)) as [[id v]|] eqn:Hv; simpl.
        -- apply bt_first_Some in Hv as [Hv _]. apply (IH (set_skipped s _ _ _)); [|done].
           unfold skipped_weight. cbn. simpl in *. pose proof (Hdel id (or_intror (mk_is_Some _ _ Hv))). lia.
        -- apply bt_first_None in Hk. apply bt_first_None in Hv. rewrite Hk, Hv, !map_size_empty. lia.
    + apply (IH (set_skipped s _ _ _)); [|done]. unfold skipped_weight. cbn. simpl in *.
      pose proof (size_delete_le id (skipped_message_keys s)).
      pose proof (size_delete_le id (skipped_message_secrets s)). lia.
Qed.

Lemma evict_shape fuel s :
  exists keys secrets order, evict_skipped fuel s = set_skipped s keys secrets order /\
    keys ⊆ skipped_message_keys s /\ secrets ⊆ skipped_message_secrets s.
Proof.
  assert (s = set_skipped s (skipped_message_keys s) (skipped_message_secrets s) (skipped_order s)) as Hs
    by by destruct s.
  revert s Hs. induction fuel as [|fuel IH]; intros s Hs; cbn [evict_skipped]; [by eauto 6|].
  case_decide; [|by eauto 6]. cbv zeta. destruct (match skipped_order s with [] => _ | _ => _ end) as [id|]; [|by eauto 6].
  edestruct (IH (set_skipped s (delete id (skipped_message_keys s)) (delete id (skipped_message_secrets s))
    (tail (skipped_order s))) eq_refl) as (keys & secrets & order & -> & Hk & Hv).
  exists keys, secrets, order. split_and!; [done| |]; etransitivity; try done; apply delete_subseteq.
Qed.

Definition within_skip (s : DmSession) : Prop :=
  (max_skip s = default_dm_max_skip /\
   size (skipped_message_keys s) + size (skipped_message_secrets s) <= default_dm_max_skip)%nat.

Lemma skip_one_within public : keeps within_skip (skip_one public).
Proof.
  intros s [Hm Hs]. unfold skip_one. rewrite kdf_ck_ok. destruct (ck _ _) as [next secret]. cbv zeta.
  assert (0 < max_skip s)%nat as Hpos by (rewrite Hm; unfold default_dm_max_skip; lia).
  pose proof (evict_step_room (skipped_weight s) s (le_n _) Hpos) as Hroom. rewrite Hm in Hroom.
  destruct (evict_shape (skipped_weight s) s) as (keys & secrets & order & Hev & _ & _).
  rewrite Hev in Hroom |- *. cbn [skipped_message_keys skipped_message_secrets set_skipped] in Hroom.
  rewrite advance_chain_key_ok. split; [done|].
  cbn [fst skipped_message_keys skipped_message_secrets set_skipped set_receiving].
  rewrite map_size_insert. destruct (secrets !! _); unfold id; lia.
Qed.

Lemma ratchet_receiving_within h : keeps within_skip (ratchet_receiving h).
Proof.
  intros s Hs. unfold ratchet_receiving. cbv zeta. destruct (dhs_private _); [|done].
  rewrite derive_root_and_chain_ok. by destruct (rc _ _ _ _).
Qed.

Lemma ratchet_sending_within h fresh : keeps within_skip (ratchet_sending h fresh).
Proof.
  intros s Hs. unfold ratchet_sending. cbv zeta. destruct fresh; [|done].
  rewrite derive_root_and_chain_ok. by destruct (rc _ _ _ _).
Qed.

Lemma consume_key_within c used : keeps within_skip (consume_key c used).
Proof.
  intros s [Hm Hs]. unfold consume_key. destruct used.
  - split; [done|]. cbv zeta. cbn [fst skipped_message_keys skipped_message_secrets set_skipped].
    match goal with |- context [delete ?id (skipped_message_keys s)] =>
      pose proof (size_delete_le id (skipped_message_keys s));
      pose proof (size_delete_le id (skipped_message_secrets s)) end. lia.
  - by rewrite advance_chain_key_ok.
Qed.


(** *** Types *)

Definition ciphertext_typed (c : DmCiphertext) : Prop :=
  forall a, ct_ratchet_public_key c = Some a -> key32 a.

Definition fresh_typed (fresh : result CryptoError bytes) : Prop := forall z, fresh = Ok z -> key32 z.

Lemma set_skipped_typed s keys secrets order :
  session_typed s -> map_Forall (fun _ k => keys_typed k) keys -> map_Forall (fun _ v => key32 v) secrets ->
  session_typed (set_skipped s keys secrets order).
Proof. intros []. by split. Qed.

Lemma set_step_root_typed s root step previous :
  session_typed s -> key32 root -> step <= U64_MAX -> previous <= U64_MAX ->
  session_typed (set_step_root s root step previous).
Proof. intros []. by split. Qed.

Lemma header_public_typed c : ciphertext_typed c -> key32 (h_dh_ratchet_public (ciphertext_header c)).
Proof. intros Hc. simpl. destruct (ct_ratchet_public_key c) eqn:E; [by apply Hc|done]. Qed.

Lemma skip_one_typed public : keeps session_typed (skip_one public).
Proof.
  intros s Hs. unfold skip_one. rewrite kdf_ck_ok.
  destruct (ck_typed (receiving_chain_key s) (session_direction_context s (recv_direction_tag s) public
    (receive_counter s) (device_epoch_remote s))) as [Hnext Hsecret].
  destruct (ck _ _) as [next secret]. cbv zeta.
  destruct (evict_shape (skipped_weight s) s) as (keys & secrets & order & -> & Hk & Hv).
  rewrite advance_chain_key_ok. cbn [fst].
  apply set_receiving_typed; [|apply ck_typed|apply saturating_bounded].
  apply set_skipped_typed; [apply set_skipped_typed; [done|..]|..].
  - by eapply map_Forall_subseteq, (ty_keys _ Hs).
  - by eapply map_Forall_subseteq, (ty_secrets _ Hs).
  - by eapply map_Forall_subseteq, (ty_keys _ Hs).
  - apply map_Forall_insert_2; [done|]. by eapply map_Forall_subseteq, (ty_secrets _ Hs).
Qed.

Lemma ratchet_receiving_typed c :
  ciphertext_typed c -> keeps session_typed (ratchet_receiving (ciphertext_header c)).
Proof.
  intros Hc s Hs. unfold ratchet_receiving. cbv zeta.
  assert (session_typed (set_dhr_public s (h_dh_ratchet_public (ciphertext_header c)))) as H1.
  { destruct Hs. split; try done. intros a [= <-]. by apply header_public_typed. }
  destruct (dhs_private _) as [y|]; [|done]. rewrite derive_root_and_chain_ok.
  match goal with |- context [rc ?a ?b ?c ?d] => destruct (rc_typed a b c d) as [Hr Hk];
    destruct (rc a b c d) as [root chain] end.
  cbn [fst]. apply set_receiving_typed; [|done|apply N.le_0_l].
  apply set_step_root_typed; [by destruct H1|done|apply saturating_bounded|apply (ty_previous _ Hs)].
Qed.

Lemma ratchet_sending_typed h fresh :
  fresh_typed fresh -> keeps session_typed (ratchet_sending h fresh).
Proof.
  intros Hf s Hs. unfold ratchet_sending. cbv zeta.
  assert (session_typed (set_step_root s (root_key s) (dh_ratchet_step s) (send_counter s))) as H1
    by by destruct Hs.
  destruct fresh as [z|]; [|done]. rewrite derive_root_and_chain_ok.
  match goal with |- context [rc ?a ?b ?c ?d] => destruct (rc_typed a b c d) as [Hr Hk];
    destruct (rc a b c d) as [root chain] end.
  cbn [fst]. apply set_sending_typed; [|done|apply N.le_0_l].
  assert (session_typed (set_step_root (set_step_root s (root_key s) (dh_ratchet_step s) (send_counter s))
    root (u64_saturating_add (dh_ratchet_step s) 1) (send_counter s))) as [] by
    (apply set_step_root_typed; [done|done|apply saturating_bounded|apply (ty_send_counter _ Hs)]).
  split; try done. intros a [= <-]. by apply Hf.
Qed.

Lemma consume_key_typed c used : keeps session_typed (consume_key c used).
Proof.
  intros s Hs. unfold consume_key. destruct used.
  - apply set_skipped_typed; [done|apply map_Forall_delete, Hs|apply map_Forall_delete, Hs].
  - rewrite advance_chain_key_ok. apply set_receiving_typed; [done|apply ck_typed|apply saturating_bounded].
Qed.

Lemma decrypt_typed c ad fresh :
  ciphertext_typed c -> fresh_typed fresh -> keeps session_typed (decrypt c ad fresh).
Proof.
  intros Hc Hf. apply decrypt_keeps; [apply skip_one_typed|by apply ratchet_receiving_typed
    |by apply ratchet_sending_typed|apply consume_key_typed].
Qed.


Lemma initiator_with_remote_ratchet_typed root a b transcript x remote s :
  key32 root -> key32 a -> key32 b -> key32 transcript -> key32 x -> key32 remote ->
  initiator_with_remote_ratchet root a b transcript (from_seed x) remote = Ok s -> session_typed s.
Proof.
  intros Hr Ha Hb Ht Hx Hp. unfold initiator_with_remote_ratchet. rewrite derive_root_and_chain_ok.
  match goal with |- context [rc ?a ?b ?c ?d] => destruct (rc_typed a b c d) as [H1 H2];
    destruct (rc a b c d) as [root' chain] end.
  cbn -[ratchet_session_id derive_initial_chains]. rewrite derive_initial_chains_ok.
  cbn -[rc ratchet_session_id]. intros [= <-].
  split; try done; first [apply session_id_length|apply rc_typed|by intros ? [= <-]].
Qed.

Lemma recipient_with_local_ratchet_typed root a b transcript x s :
  key32 root -> key32 a -> key32 b -> key32 transcript -> key32 x ->
  recipient_with_local_ratchet root a b transcript (from_seed x) = Ok s -> session_typed s.
Proof.
  intros Hr Ha Hb Ht Hx. unfold recipient_with_local_ratchet. rewrite derive_initial_chains_ok.
  cbn -[rc ratchet_session_id]. intros [= <-].
  split; try done; first [apply session_id_length|apply rc_typed|by intros ? [= <-]].
Qed.

Lemma encrypt_within p ad : keeps within_skip (encrypt p ad).
Proof. intros s Hs. unfold encrypt. by destruct (encrypt_message s p ad) as [[c next]|]. Qed.

(** Sessions made by the four constructors from any keys, and used in any way:
    setting the identities and epochs of the devices, encrypting, decrypting
    whatever arrives, whether it is accepted or not, and being stored and
    restored. *)
Inductive session_reach : DmSession -> Prop :=
| reach_initiator root a b transcript s : initiator root a b transcript = Ok s -> session_reach s
| reach_recipient root a b transcript s : recipient root a b transcript = Ok s -> session_reach s
| reach_initiator_ratchet root a b transcript local remote s :
    initiator_with_remote_ratchet root a b transcript local remote = Ok s -> session_reach s
| reach_recipient_ratchet root a b transcript local s :
    recipient_with_local_ratchet root a b transcript local = Ok s -> session_reach s
| reach_identity s sender recipient epoch :
    session_reach s -> session_reach (with_header_identity s sender recipient epoch)
| reach_epochs s local remote : session_reach s -> session_reach (with_device_epochs s local remote)
| reach_encrypt s p ad : session_reach s -> session_reach (encrypt p ad s).1
| reach_decrypt s c ad fresh : session_reach s -> session_reach (decrypt c ad fresh s).1
| reach_restored s s' : session_reach s -> from_snapshot (snapshot s) = Ok s' -> session_reach s'.

Lemma from_snapshot_snapshot s : from_snapshot (snapshot s) = Ok s.
Proof. by destruct s. Qed.

(** C33: However far ahead the received message numbers run, and whatever
    ratchet keys they claim, a session never stores more than 1000 skipped
    message keys, also when the messages turn out to be forged. *)
Theorem skipped_keys_bounded s :
  session_reach s ->
  (size (skipped_message_keys s) + size (skipped_message_secrets s) <= 1000)%nat.
Proof.
  intros Hs. enough (within_skip s) as [_ H] by exact H.
  induction Hs as [root a b t s H|root a b t s H|root a b t x y s H|root a b t x s H|s a b e _ IH|s a b _ IH
    |s p ad _ IH|s c ad fresh _ IH|s s' _ IH H].
  - unfold initiator in H. rewrite derive_initial_chains_ok in H. injection H as <-. split; [done|apply Nat.le_0_l].
  - unfold recipient in H. rewrite derive_initial_chains_ok in H. injection H as <-. split; [done|apply Nat.le_0_l].
  - unfold initiator_with_remote_ratchet in H. rewrite derive_root_and_chain_ok in H.
    destruct (rc _ _ _ _) in H. cbn -[ratchet_session_id derive_initial_chains] in H.
    rewrite derive_initial_chains_ok in H. injection H as <-. split; [done|apply Nat.le_0_l].
  - unfold recipient_with_local_ratchet in H. rewrite derive_initial_chains_ok in H.
    injection H as <-. split; [done|apply Nat.le_0_l].
  - done.
  - done.
  - by apply encrypt_within.
  - by apply decrypt_keeps; [apply skip_one_within|apply ratchet_receiving_within
      |apply ratchet_sending_within|apply consume_key_within|].
  - rewrite from_snapshot_snapshot in H. by injection H as <-.
Qed.

(** ** Conversations *)

(** [s] has taken a step of the Diffie-Hellman ratchet that [r] has yet to
    follow; everything sent before was received. *)
Record ahead (s r : DmSession) : Prop := {
  ah_aligned : aligned s r;
  ah_send : send_counter s = 0;
  ah_step : dh_ratchet_step s = u64_saturating_add (dh_ratchet_step r) 1;
  ah_received : previous_sending_chain_length s = receive_counter r;
  ah_sent : send_counter r = receive_counter s;
  ah_keys : skipped_message_keys s = ∅ /\ skipped_message_keys r = ∅;
  ah_secrets : skipped_message_secrets s = ∅ /\ skipped_message_secrets r = ∅;
  ah_skip : max_skip s = default_dm_max_skip /\ max_skip r = default_dm_max_skip;
  ah_ratchet : exists x y,
    dhs_private s = Some x /\ dhs_public s = Some (x25519_public x) /\
    dhs_private r = Some y /\ dhr_public s = Some (x25519_public y) /\
    x25519_public x <> ZERO32 /\ dhr_public r <> Some (x25519_public x) /\
    rc (root_key r) (diffie_hellman y (x25519_public x)) (ratchet_context_parts r)
      (remote_sender_role_tag r) = (root_key s, sending_chain_key s);
}.

(** The contexts of the two ends agree at the same step. *)
Lemma aligned_parts s r :
  aligned s r -> dh_ratchet_step s = dh_ratchet_step r ->
  ratchet_context_parts s = ratchet_context_parts r.
Proof.
  intros [Hid Hr He He' Hh Hh'] Hstep.
  unfold ratchet_context_parts, canonical_device_hash_pair, canonical_epoch_pair.
  rewrite Hr, Hid, He, He', Hh, Hh', Hstep. by destruct (is_initiator_side r).
Qed.

(** The receiver after the two root-key steps, for the fresh secret [z]. *)
Definition ratcheted (s r : DmSession) (x z : bytes) : DmSession :=
  let out := rc (root_key s) (diffie_hellman z (x25519_public x)) (ratchet_context_parts s)
    (local_sender_role_tag r) in
  mkSession (session_id r) (bootstrap_transcript_hash r) out.1 out.2 (sending_chain_key s)
    0 0 (Some z) (Some (x25519_public z)) (Some (x25519_public x)) (sender_device_id_hash r)
    (recipient_device_id_hash r) (device_epoch_local r) (device_epoch_remote r)
    (u64_saturating_add (dh_ratchet_step s) 1) (is_initiator_side r) (send_counter r)
    (max_skip r) ∅ ∅ (skipped_order r).

Lemma ratchet_turn s r c n secret ad p x z :
  ahead s r -> sealed s n secret ad p c -> dhs_private s = Some x ->
  ratchet_for_header (ciphertext_header c) (Ok z) r = (ratcheted s r x z, Ok tt).
Proof.
  intros [Hal Hsend Hstep Hrec Hsent [Hks Hkr] [Hss Hsr] _ (x' & y & Hx & Hpx & Hy & Hdr & Hnz & Hnew & Hroot)] Hc Hx'.
  assert (x' = x) as -> by congruence. unfold ratchet_for_header.
  cbn [h_dh_ratchet_public ciphertext_header h_pn]. rewrite (se_public _ _ _ _ _ _ Hc).
  replace (wire_public s) with (x25519_public x) by (unfold wire_public; by rewrite Hpx).
  rewrite !bool_decide_eq_false_2 by done. cbn [orb]. unfold run.
  rewrite (stres_bind_Ok _ _ r r tt).
  2: { unfold skip_message_keys. rewrite (se_pn _ _ _ _ _ _ Hc), Hrec, !decide_False by lia.
       by rewrite N.sub_diag. }
  unfold mbind, stres_bind, ratchet_receiving. cbn [dhs_private set_dhr_public]. rewrite Hy.
  rewrite derive_root_and_chain_ok. cbn [h_dh_ratchet_public h_device_epoch ciphertext_header].
  rewrite (se_public _ _ _ _ _ _ Hc), (se_epoch _ _ _ _ _ _ Hc), <- (al_epoch' _ _ Hal).
  replace (wire_public s) with (x25519_public x) by (unfold wire_public; by rewrite Hpx).
  match goal with |- context [rc ?a ?b ?c ?d] => change (rc a b c d) with
    (rc (root_key r) (diffie_hellman y (x25519_public x)) (ratchet_context_parts r)
      (remote_sender_role_tag r)) end.
  rewrite Hroot. unfold ratchet_sending. rewrite derive_root_and_chain_ok.
  cbn [h_dh_ratchet_public ciphertext_header]. rewrite (se_public _ _ _ _ _ _ Hc).
  replace (wire_public s) with (x25519_public x) by (unfold wire_public; by rewrite Hpx).
  rewrite <- (aligned_parts s) by (try done; by destruct Hal).
  unfold ratcheted.
  repeat match goal with |- context [local_sender_role_tag ?a] => progress change (local_sender_role_tag a)
    with (local_sender_role_tag r) end.
  cbn -[rc u64_saturating_add ratchet_context_parts local_sender_role_tag].
  destruct (rc (root_key s) _ _ _) as [root chain].
  cbn [fst snd]. rewrite <- Hstep. clear -Hkr Hsr. destruct r. cbn in Hkr, Hsr. subst.
  session_cbv. reflexivity.
Qed.

Lemma aligned_sym s r : aligned s r -> aligned r s.
Proof. intros [? Hr ? ? ? ?]. split; try done. rewrite Hr. by destruct (is_initiator_side r). Qed.

Lemma ahead_receiver s r x z :
  ahead s r -> dhs_private s = Some x -> receiver s (sending_chain_key s) ∅ (ratcheted s r x z).
Proof.
  intros Ha Hx. destruct (ah_ratchet _ _ Ha) as (x' & y & Hx' & Hpx & _).
  assert (wire_public s = x25519_public x) as Hw by (unfold wire_public; rewrite Hpx; simpl; congruence).
  apply receiver_start; cbn -[rc]; try done.
  - by destruct (ah_aligned _ _ Ha).
  - right. by rewrite Hw.
Qed.

(** All of a turn has arrived: nothing is left in the store. *)
Lemma receiver_all s k0 r k :
  (forall n, n < N.of_nat k -> n ∈ numbers (seq 0 k)) ->
  receiver s k0 (numbers (seq 0 k)) r -> (0 < k)%nat -> receive_counter r <= N.of_nat k ->
  skipped_message_secrets r = ∅ /\ receive_counter r = N.of_nat k.
Proof.
  intros Hin Hr Hk Hle. split.
  - apply map_empty. intros id. apply eq_None_not_Some.
    intros [v (n & _ & Hn & Hns & _)%(rv_secrets _ _ _ _ Hr)]. apply Hns, Hin. lia.
  - pose proof (rv_seen _ _ _ _ Hr (N.of_nat (k - 1)) (Hin (N.of_nat (k - 1)) ltac:(lia))). lia.
Qed.

Lemma numbers_seq k n : n < N.of_nat k -> n ∈ numbers (seq 0 k).
Proof.
  intros Hn. unfold numbers. apply elem_of_list_to_set, list_elem_of_fmap. exists (N.to_nat n).
  split; [lia|]. apply elem_of_seq. lia.
Qed.

(** The relation after the turn: the receiver is now the one ahead. *)
Lemma ahead_turn s r x z s' r' k :
  ahead s r -> dhs_private s = Some x ->
  x25519_public z <> ZERO32 -> dhr_public s <> Some (x25519_public z) ->
  s' = set_sending s (sending_chain_key s') (N.of_nat k) ->
  receiver s (sending_chain_key s) (numbers (seq 0 k)) r' -> (0 < k)%nat ->
  receive_counter r' <= N.of_nat k -> sending_side r' = sending_side (ratcheted s r x z) ->
  ahead r' s'.
Proof.
  intros Ha Hx Hz Hnew Hs' Hr' Hk Hle Hside.
  destruct (receiver_all _ _ _ _ (numbers_seq k) Hr' Hk Hle) as [Hsec Hcount].
  destruct (ah_ratchet _ _ Ha) as (x' & y & Hx' & Hpx & Hy & Hdr & Hnz & _ & _).
  assert (x' = x) as -> by congruence.
  assert (wire_public s = x25519_public x) as Hw by (unfold wire_public; by rewrite Hpx).
  unfold sending_side in Hside.
  cbn -[rc u64_saturating_add ratchet_context_parts local_sender_role_tag] in Hside.
  injection Hside as Hroot Hchain Hsend Hpriv Hpub Hstep Hprev Hskip.
  pose proof (rv_aligned _ _ _ _ Hr') as Hal. rewrite Hs'.
  destruct (aligned_tags _ _ (aligned_sym _ _ (ah_aligned _ _ Ha))) as [_ Hrole].
  split; cbn -[rc u64_saturating_add ratchet_context_parts remote_sender_role_tag]; try done.
  - by destruct (aligned_sym _ _ Hal).
  - by rewrite Hprev, (ah_sent _ _ Ha).
  - split; [apply (rv_keys _ _ _ _ Hr')|apply (ah_keys _ _ Ha)].
  - split; [done|apply (ah_secrets _ _ Ha)].
  - split; [rewrite Hskip|]; apply (ah_skip _ _ Ha).
  - exists z, x. split_and!; try done.
    + destruct (rv_same _ _ _ _ Hr') as [H|H]; congruence.
    + rewrite Hroot, Hchain, dh_agree, Hrole.
      match goal with |- rc ?a ?b ?c ?d = _ => change (rc a b c d) with
        (rc (root_key s) (diffie_hellman z (x25519_public x)) (ratchet_context_parts s)
           (remote_sender_role_tag s)) end.
      apply surjective_pairing.
Qed.

(** What the receiver of a turn should get. *)
Definition expected (msgs : list (bytes * bytes)) (schedule : list nat) : list (result CryptoError bytes) :=
  (fun i => Ok (default [] (fst <$> msgs !! i))) <$> schedule.

Lemma channel_expected msgs schedule : forall seen,
  NoDup schedule -> (forall i, i ∈ schedule -> N.of_nat i ∉ seen) ->
  channel msgs seen schedule = expected msgs schedule.
Proof.
  induction schedule as [|i schedule IH]; intros seen Hnd Hseen; [done|].
  apply NoDup_cons in Hnd as [Hi Hnd]. cbn [channel].
  rewrite decide_False by (apply Hseen; left). unfold expected. rewrite fmap_cons. f_equal.
  apply IH; [done|]. intros j Hj. rewrite not_elem_of_union, not_elem_of_singleton.
  split; [|apply Hseen; by right]. intros Hji%Nat2N.inj. congruence.
Qed.

Lemma receive_all_typed fresh l r :
  fresh_typed fresh -> Forall (fun p => ciphertext_typed p.1) l -> session_typed r ->
  session_typed (receive_all fresh l r).1.
Proof.
  intros Hf Hl. revert r. induction Hl as [|[c ad] l Hc Hl IH]; intros r Hr; [done|].
  cbn [receive_all]. pose proof (decrypt_typed c ad fresh Hc Hf r Hr) as H1.
  destruct (decrypt c ad fresh r) as [r1 answer]. specialize (IH r1 H1).
  by destruct (receive_all fresh l r1).
Qed.

Lemma arrivals_typed s k0 msgs cs schedule :
  session_typed s -> chain_of s k0 msgs cs -> Forall (fun p => ciphertext_typed p.1) (arrivals cs msgs schedule).
Proof.
  intros Hs [_ Hall]. apply Forall_forall. intros [c ad] Hin.
  apply list_elem_of_omap in Hin as (i & _ & Hi). apply bind_Some in Hi as (c' & Hc & Hi).
  apply bind_Some in Hi as ([p ad'] & Hm & [= <- <-]). intros a Ha. simpl in Ha.
  pose proof (se_public _ _ _ _ _ _ (Hall _ _ _ _ Hm Hc)) as Hp. rewrite Ha in Hp. simpl in Hp.
  rewrite Hp. by apply wire_public_typed.
Qed.

(** One turn of a conversation: the messages of the side whose turn it is with
    their associated data, the order in which they arrive, and the ratchet
    secret the other side draws. *)
Record Turn := mkTurn { tu_msgs : list (bytes * bytes); tu_schedule : list nat; tu_fresh : bytes }.

Record turn_ok (t : Turn) : Prop := {
  to_some : (0 < length (tu_msgs t) <= default_dm_max_skip)%nat;
  to_short : Forall (fun m => N.of_nat (length m.1) <= U32_MAX) (tu_msgs t);
  to_schedule : tu_schedule t ≡ₚ seq 0 (length (tu_msgs t));
  to_fresh : key32 (tu_fresh t);
}.

Lemma receive_turn s r x t cs :
  ahead s r -> dhs_private s = Some x -> turn_ok t ->
  chain_of s (sending_chain_key s) (tu_msgs t) cs ->
  exists r', receive_all (Ok (tu_fresh t)) (arrivals cs (tu_msgs t) (tu_schedule t)) r =
      (r', expected (tu_msgs t) (tu_schedule t)) /\
    receiver s (sending_chain_key s) (numbers (seq 0 (length (tu_msgs t)))) r' /\
    sending_side r' = sending_side (ratcheted s r x (tu_fresh t)) /\
    receive_counter r' <= N.of_nat (length (tu_msgs t)).
Proof.
  intros Ha Hx Ht Hcs. destruct t as [msgs schedule z]. destruct Ht as [Hlen _ Hperm _]. simpl in *.
  assert (NoDup schedule) as Hnd by (rewrite Hperm; apply NoDup_seq).
  assert (Forall (fun i => i < length msgs)%nat schedule) as Hall.
  { apply Forall_forall. intros i. rewrite Hperm, elem_of_seq. lia. }
  assert (N.of_nat (length msgs) <= U64_MAX) as Hu
    by (revert Hlen; unfold default_dm_max_skip, U64_MAX; lia).
  assert (numbers (seq 0 (length msgs)) = numbers schedule) as ->
    by (unfold numbers; by rewrite Hperm).
  destruct schedule as [|i schedule]; [apply Permutation_length in Hperm; rewrite length_seq in Hperm; simpl in Hperm; lia|].
  apply NoDup_cons in Hnd as [Hi Hnd]. apply Forall_cons in Hall as [Hil Hall].
  pose proof (ahead_receiver s r x z Ha Hx) as Hr1.
  destruct (arrivals_cons s _ msgs cs i schedule Hcs Hil) as (c & p & ad & -> & Hp & Hc).
  pose proof (ah_keys _ _ Ha) as [_ Hk]. pose proof (ah_secrets _ _ Ha) as [_ Hv].
  pose proof (ah_skip _ _ Ha) as [_ Hskip].
  destruct (deliver_after_ratchet s (sending_chain_key s) ∅ r (ratcheted s r x z) c (N.of_nat i) ad p (Ok z))
    as (r2 & Hd & Hr2 & Hs2 & Hc2); [by rewrite Hv|by rewrite Hk|by eapply ratchet_turn|done|done|simpl; lia|lia| |].
  { simpl. rewrite Hskip. lia. }
  destruct (receive_all_channel s (sending_chain_key s) msgs cs (Ok z) schedule _ r2 Hr2 Hcs Hall)
    as (r' & Hrec & Hr' & Hs' & Hc'); [|done|].
  { replace (max_skip r2) with (max_skip r); [rewrite Hskip; lia|].
    unfold sending_side in Hs2. simpl in Hs2. congruence. }
  exists r'. cbn [receive_all]. rewrite Hd, Hrec. split_and!; [| |congruence|lia].
  - unfold expected. rewrite fmap_cons, Hp. rewrite channel_expected; [done|done|].
    intros j Hj. rewrite union_empty_r_L, not_elem_of_singleton. intros ->%Nat2N.inj. done.
  - replace (numbers (i :: schedule)) with (numbers schedule ∪ ({[N.of_nat i]} ∪ ∅)); [done|].
    unfold numbers. rewrite fmap_cons, list_to_set_cons. set_solver.
Qed.

(** A conversation: the sides take turns, the first turn is [s]'s. *)
Fixpoint converse (turns : list Turn) (s r : DmSession)
  : result CryptoError (list (list (result CryptoError bytes))) :=
  match turns with
  | [] => Ok []
  | t :: turns =>
      match encrypt_all (tu_msgs t) s with
      | (_, Err e) => Err e
      | (s, Ok cs) =>
          let '(r, answers) := receive_all (Ok (tu_fresh t)) (arrivals cs (tu_msgs t) (tu_schedule t)) r in
          converse turns r s ≫= fun rest => Ok (answers :: rest)
      end
  end.

Lemma converse_ahead turns : forall s r x y,
  ahead s r -> session_typed s -> session_typed r ->
  dhs_private s = Some x -> dhs_private r = Some y -> Forall turn_ok turns ->
  NoDup (x25519_public <$> (x :: y :: (tu_fresh <$> turns))) ->
  ZERO32 ∉ x25519_public <$> (tu_fresh <$> turns) ->
  converse turns s r = Ok ((fun t => expected (tu_msgs t) (tu_schedule t)) <$> turns).
Proof.
  induction turns as [|t turns IH]; intros s r x y Ha Hs Hr Hx Hy Hok Hnd Hz; [done|].
  apply Forall_cons in Hok as [Ht Hok]. cbn [converse].
  destruct (encrypt_all_total (tu_msgs t) s Hs (to_short _ Ht)) as (s' & cs & He & Hs').
  assert (N.of_nat (length (tu_msgs t)) <= U64_MAX) as Hu
    by (pose proof (to_some _ Ht) as Hl; revert Hl; unfold default_dm_max_skip, U64_MAX; lia).
  destruct (encrypt_all_chain _ _ _ _ (ah_send _ _ Ha) Hu He) as [Hcs Hset]. rewrite He.
  destruct (receive_turn s r x t cs Ha Hx Ht Hcs) as (r' & Hrec & Hr' & Hside & Hcount).
  assert (session_typed r') as Hty.
  { pose proof (receive_all_typed (Ok (tu_fresh t)) _ r
      ltac:(intros ? [= <-]; apply (to_fresh _ Ht)) (arrivals_typed _ _ _ _ (tu_schedule t) Hs Hcs) Hr) as H.
    by rewrite Hrec in H. }
  rewrite !fmap_cons in Hnd. rewrite !fmap_cons in Hz. rewrite !NoDup_cons, !not_elem_of_cons in Hnd.
  rewrite not_elem_of_cons in Hz.
  destruct (ah_ratchet _ _ Ha) as (x' & y' & Hx' & _ & Hy' & Hdr & _).
  assert (ahead r' s') as Ha'.
  { eapply (ahead_turn s r x (tu_fresh t)); try done; [naive_solver| |apply (to_some _ Ht)].
    rewrite Hdr. intros [= Heq]. assert (y' = y) as -> by congruence. naive_solver. }
  rewrite Hrec. unfold sending_side in Hside. cbn -[rc] in Hside.
  rewrite (IH r' s' (tu_fresh t) x Ha' Hty Hs'); [done|congruence| |done| |naive_solver].
  - rewrite Hset. done.
  - rewrite !fmap_cons, !NoDup_cons, !not_elem_of_cons. naive_solver.
Qed.

Lemma ratchet_sessions_ahead root a b transcript x y s r :
  initiator_with_remote_ratchet root a b transcript (from_seed x) (x25519_public y) = Ok s ->
  recipient_with_local_ratchet root b a transcript (from_seed y) = Ok r ->
  x25519_public x <> ZERO32 -> ahead s r /\ dhs_private s = Some x /\ dhs_private r = Some y.
Proof.
  unfold initiator_with_remote_ratchet. rewrite derive_root_and_chain_ok.
  match goal with |- context [rc ?a ?b ?c ?d] => destruct (rc a b c d) as [root' chain] eqn:Hrc end.
  unfold recipient_with_local_ratchet. rewrite !derive_initial_chains_ok.
  cbn -[rc ratchet_session_id]. rewrite derive_initial_chains_ok.
  cbn -[rc ratchet_session_id]. intros [= <-] [= <-] Hz. split; [|done].
  split; cbn -[rc ratchet_session_id]; try done.
  exists x, y. split_and!; try done.
  rewrite <- dh_agree. exact Hrc.
Qed.

(** C4: Two devices that opened a session with ratchet keys understand each
    other for any number of turns: in every turn one side sends up to 1000
    messages, they arrive in any order, and the other side recovers exactly
    their plaintexts and answers under fresh keys. No encryption and no
    decryption fails, provided the ratchet keys drawn are pairwise different
    and not the all-zero string. *)
Theorem conversation_decrypts root a b transcript x y s r turns :
  key32 root -> key32 a -> key32 b -> key32 transcript -> key32 x -> key32 y ->
  initiator_with_remote_ratchet root a b transcript (from_seed x) (x25519_public y) = Ok s ->
  recipient_with_local_ratchet root b a transcript (from_seed y) = Ok r ->
  Forall turn_ok turns -> NoDup (x25519_public <$> (x :: y :: (tu_fresh <$> turns))) ->
  ZERO32 ∉ x25519_public <$> (x :: (tu_fresh <$> turns)) ->
  converse turns s r = Ok ((fun t => expected (tu_msgs t) (tu_schedule t)) <$> turns).
Proof.
  intros Hroot Ha Hb Ht Hx Hy Hs Hr Hok Hnd Hz.
  rewrite fmap_cons, not_elem_of_cons in Hz. destruct Hz as [Hz1 Hz2].
  destruct (ratchet_sessions_ahead _ _ _ _ _ _ _ _ Hs Hr) as (Hahead & Hsx & Hry); [done|].
  apply (converse_ahead turns s r x y); try done.
  - by eapply (initiator_with_remote_ratchet_typed root a b transcript x);
      [..|exact Hs]; try done; apply x25519_public_length.
  - by apply (recipient_with_local_ratchet_typed root b a transcript y).
Qed.
End ratchet.
