(* ===== verification/RatchetRun.v ===== *)
(** * The double ratchet on a concrete instance of its primitives

    The laws that the theorems of RatchetProps.v assume of the cryptographic
    primitives can hold together: [toy] satisfies them. It has no secrecy, only
    the functional behaviour the laws speak of (its base64url is the real one).
    The theorems are applied and sessions are run on it. *)

From S2P Require Import Prelude OrdMap Bytes Crypto Ratchet RatchetProps.
From Stdlib Require Import Strings.Byte.

Open Scope N_scope.

(** ** base64url without padding *)

Definition b64_char (n : N) : Ascii.ascii :=
  Ascii.ascii_of_N
    (if decide (n < 26) then 65 + n else if decide (n < 52) then 71 + n
     else if decide (n < 62) then n - 4 else if decide (n = 62) then 45 else 95).

Fixpoint b64 (l : bytes) : string :=
  match l with
  | a :: b :: c :: l =>
      let n := Byte.to_N a * 65536 + Byte.to_N b * 256 + Byte.to_N c in
      String (b64_char (n / 262144)) (String (b64_char (n / 4096 mod 64))
        (String (b64_char (n / 64 mod 64)) (String (b64_char (n mod 64)) (b64 l))))
  | [a; b] =>
      let n := Byte.to_N a * 65536 + Byte.to_N b * 256 in
      String (b64_char (n / 262144)) (String (b64_char (n / 4096 mod 64))
        (String (b64_char (n / 64 mod 64)) EmptyString))
  | [a] =>
      let n := Byte.to_N a * 65536 in
      String (b64_char (n / 262144)) (String (b64_char (n / 4096 mod 64)) EmptyString)
  | [] => EmptyString
  end.

Lemma b64_length n : forall l, (length l <= n)%nat -> String.length (b64 l) = Nat.div (4 * length l + 2) 3.
Proof.
  induction n as [n IH] using lt_wf_ind. intros l Hl.
  destruct l as [|a [|b [|c l]]]; [done..|].
  cbn [b64 String.length]. rewrite (IH (length l)) by (simpl in Hl; lia). simpl length.
  replace (4 * S (S (S (length l))) + 2)%nat with ((4 * length l + 2) + 4 * 3)%nat by lia.
  rewrite Nat.div_add by done. lia.
Qed.

(** ** The primitives *)

Definition mix (l : bytes) : bytes :=
  be_of_N 32 (foldl (fun a b => (a * 257 + Byte.to_N b + 1) mod 4294967291) 0 l).

Definition toy_public (a : bytes) : bytes := be_of_N 32 (be_to_N a).

Definition seal (k n aad m : bytes) : bytes := mix (k ++ n ++ aad ++ m) ++ m.

Definition unseal (k n aad c : bytes) : option bytes :=
  if decide (take 32 c = mix (k ++ n ++ aad ++ drop 32 c)) then Some (drop 32 c) else None.

Lemma unseal_seal k n aad m : unseal k n aad (seal k n aad m) = Some m.
Proof.
  unfold unseal, seal. rewrite take_app_length', drop_app_length' by (symmetry; apply length_be_of_N).
  by rewrite decide_True.
Qed.

#[local] Instance toy : Primitives := {|
  hmac_sha256 k m := Some (mix (k ++ m));
  blake3 := mix;
  blake3_keyed k m := mix (k ++ m);
  x25519_public := toy_public;
  diffie_hellman a b := be_of_N 32 (be_to_N (toy_public a) + be_to_N b);
  aead_encrypt k n aad m := Some (seal k n aad m);
  aead_decrypt := unseal;
  encode_base64url := b64;
|}.

#[local] Instance toy_laws : PrimitiveLaws toy.
Proof.
  split.
  - intros k m. eexists. split; [reflexivity|]. apply length_be_of_N.
  - intros m. apply length_be_of_N.
  - intros a. apply length_be_of_N.
  - intros a b. apply (f_equal (be_of_N 32)), N.add_comm.
  - intros k n aad m _. by eexists.
  - intros l. by apply (b64_length (length l)).
  - intros k n aad m c [= <-]. apply unseal_seal.
Qed.

(** ** Runs *)

Definition key (n : N) : bytes := be_of_N 32 n.

Lemma key_32 n : key32 (key n).
Proof. apply length_be_of_N. Qed.

Definition hello : list (bytes * bytes) :=
  [(str "hello", str "ad0"); (str "", str "ad1"); (str "bye", str "ad2")].

Lemma initiator_exists root a b t : exists s, initiator root a b t = Ok s.
Proof. unfold initiator. rewrite derive_initial_chains_ok. by eexists. Qed.

Lemma recipient_exists root a b t : exists s, recipient root a b t = Ok s.
Proof. unfold recipient. rewrite derive_initial_chains_ok. by eexists. Qed.

Lemma chain_refines_channel_witness :
  exists s r s' cs, opened (key 1) (key 2) (key 3) (key 4) s r /\
    encrypt_all hello s = (s', Ok cs) /\
    (receive_all (Err AeadFailed) (arrivals cs hello [2; 0; 2; 1; 0]%nat) r).2 =
      [Ok (str "bye"); Ok (str "hello"); Err AeadFailed; Ok (str ""); Err AeadFailed].
Proof.
  destruct (initiator_exists (key 1) (key 2) (key 3) (key 4)) as [s Hs].
  destruct (recipient_exists (key 1) (key 3) (key 2) (key 4)) as [r Hr].
  destruct (chain_refines_channel (key 1) (key 2) (key 3) (key 4) s r hello) as (s' & cs & He & Hc);
    [apply key_32..|by left| | |].
  - unfold default_dm_max_skip. simpl. lia.
  - repeat apply Forall_cons_2; [by vm_compute..|constructor].
  - exists s, r, s', cs. split_and!; [by left|done|]. rewrite Hc; [by vm_compute|].
    repeat apply Forall_cons_2; [simpl; lia..|constructor].
Defined.

(** *** A forged message that runs ahead *)

Definition forged_header : DmHeader :=
  mkHeader "someone" (key 3) (key 2) ZERO32 0 3 0 "event".

Definition forged : DmCiphertext :=
  mkCiphertext "someone" 3 (key 0) [] None 0 (key 3) (key 2) 0 "event" []
    (from_ok EmptyString (header_hash_base64url DmMessage (fields forged_header)))
    "k" "f" "c" "h".

Definition victim : DmSession :=
  from_ok (new "" [] [] [] [] None None None [] [] true) (initiator (key 1) (key 2) (key 3) (key 4)).

Lemma victim_reach : session_reach victim.
Proof.
  apply (reach_initiator (key 1) (key 2) (key 3) (key 4)).
  unfold victim. destruct (initiator_exists (key 1) (key 2) (key 3) (key 4)) as [s Hs]. by rewrite Hs.
Qed.

Lemma forged_reach : session_reach (decrypt forged [] (Err AeadFailed) victim).1.
Proof. apply reach_decrypt, victim_reach. Qed.

Lemma skipped_keys_bounded_witness :
  (decrypt forged [] (Err AeadFailed) victim).2 = Err AeadFailed /\
  size (skipped_message_secrets (decrypt forged [] (Err AeadFailed) victim).1) = 3%nat /\
  (size (skipped_message_keys (decrypt forged [] (Err AeadFailed) victim).1) +
   size (skipped_message_secrets (decrypt forged [] (Err AeadFailed) victim).1) <= 1000)%nat.
Proof. split; [by vm_compute|]. split; [by vm_compute|]. apply (skipped_keys_bounded _ forged_reach). Defined.

(** *** A conversation of three turns *)

Definition turns : list Turn :=
  [mkTurn hello [1; 2; 0]%nat (key 7); mkTurn [(str "yes", [])] [0]%nat (key 8);
   mkTurn hello [2; 1; 0]%nat (key 9)].

Lemma turns_ok : Forall turn_ok turns.
Proof.
  repeat apply Forall_cons_2; [..|constructor]; split; cbn [tu_msgs tu_schedule tu_fresh]; try apply key_32.
  1, 4, 7: unfold default_dm_max_skip; simpl; lia.
  all: compute_done.
Qed.

Lemma conversation_decrypts_witness :
  exists s r,
    initiator_with_remote_ratchet (key 1) (key 2) (key 3) (key 4) (from_seed (key 5)) (x25519_public (key 6)) = Ok s /\
    recipient_with_local_ratchet (key 1) (key 3) (key 2) (key 4) (from_seed (key 6)) = Ok r /\
    converse turns s r =
      Ok [[Ok (str ""); Ok (str "bye"); Ok (str "hello")]; [Ok (str "yes")];
          [Ok (str "bye"); Ok (str ""); Ok (str "hello")]].
Proof.
  assert (exists s, initiator_with_remote_ratchet (key 1) (key 2) (key 3) (key 4) (from_seed (key 5))
    (x25519_public (key 6)) = Ok s) as [s Hs].
  { unfold initiator_with_remote_ratchet. rewrite derive_root_and_chain_ok. cbn [mbind result_bind].
    destruct (rc _ _ _ _). rewrite derive_initial_chains_ok. by eexists. }
  assert (exists r, recipient_with_local_ratchet (key 1) (key 3) (key 2) (key 4) (from_seed (key 6)) = Ok r)
    as [r Hr].
  { unfold recipient_with_local_ratchet. rewrite derive_initial_chains_ok. by eexists. }
  exists s, r. split_and!; [done|done|].
  rewrite (conversation_decrypts (key 1) (key 2) (key 3) (key 4) (key 5) (key 6) s r turns);
    [vm_compute; reflexivity|apply key_32..|exact Hs|exact Hr|apply turns_ok|compute_done|compute_done].
Defined.

(** *** The order queue outgrows the store

    A peer that draws the same two ratchet secrets in turn, and delivers only
    the third message of each of its chains, makes the session record the ids
    of the same four skipped messages again and again. The store of keys stays
    at four entries; the queue that remembers their order gets two more with
    every turn, and nothing shortens it before the store is full. *)

(** One turn: three messages of which the last arrives, and a reply. *)
Definition pump_turn (fresh_victim fresh_peer : bytes) (state : DmSession * DmSession)
  : option (DmSession * DmSession) :=
  let '(peer, me) := state in
  match encrypt_all hello peer with
  | (peer, Ok [_; _; c]) =>
      match decrypt c (str "ad2") (Ok fresh_victim) me with
      | (me, Ok _) =>
          match encrypt [] [] me with
          | (me, Ok reply) =>
              match decrypt reply [] (Ok fresh_peer) peer with
              | (peer, Ok _) => Some (peer, me)
              | _ => None
              end
          | _ => None
          end
      | _ => None
      end
  | _ => None
  end.

Fixpoint pump (draws : list (bytes * bytes)) (state : DmSession * DmSession) : option (DmSession * DmSession) :=
  match draws with
  | [] => Some state
  | (v, p) :: draws => pump_turn v p state ≫= pump draws
  end.

Definition pump_start : DmSession * DmSession :=
  let none := new "" [] [] [] [] None None None [] [] true in
  (from_ok none (initiator_with_remote_ratchet (key 1) (key 2) (key 3) (key 4) (from_seed (key 5)) (toy_public (key 6))),
   from_ok none (recipient_with_local_ratchet (key 1) (key 3) (key 2) (key 4) (from_seed (key 6)))).

Definition pump_draws : list (bytes * bytes) :=
  [(key 11, key 7); (key 12, key 5); (key 13, key 7); (key 14, key 5); (key 15, key 7); (key 16, key 5)].

(** Six turns with accepted messages leave four stored keys and twelve queued
    ids. *)
Theorem skipped_order_outgrows_store :
  (fun s => (size (skipped_message_keys s.2) + size (skipped_message_secrets s.2), length (skipped_order s.2))%nat)
    <$> pump pump_draws pump_start = Some (4, 12)%nat.
Proof. by vm_compute. Qed.
