(* ===== verification/Net.v ===== *)
(** * Socket addresses and the relay's target filter

    The addresses of [std::net] and the functions of
    ramflux-node-core/src/signaling.rs that decide which of them a relay may
    talk to. An octet is a number below 2^8, a segment one below 2^16. The flow
    label and scope of an IPv6 socket address, zero for public addresses, are left
    out. *)

From S2P Require Import Prelude Bytes.

Open Scope N_scope.

Inductive IpAddr :=
| V4 (a b c d : N)
| V6 (s0 s1 s2 s3 s4 s5 s6 s7 : N).

#[export] Instance IpAddr_eq_dec : EqDecision IpAddr.
Proof. solve_decision. Defined.

Record SocketAddr := mkSocket { ip : IpAddr; port : N }.

#[export] Instance SocketAddr_eq_dec : EqDecision SocketAddr.
Proof. solve_decision. Defined.

(** ** [std::net] *)

Definition is_private (a b : N) : bool :=
  bool_decide (a = 10) || (bool_decide (a = 172) && bool_decide (16 <= b <= 31))
  || (bool_decide (a = 192) && bool_decide (b = 168)).
Definition is_loopback (a : N) : bool := bool_decide (a = 127).
Definition is_link_local (a b : N) : bool := bool_decide (a = 169) && bool_decide (b = 254).
Definition is_multicast (a : N) : bool := bool_decide (224 <= a <= 239).
Definition is_broadcast (a b c d : N) : bool :=
  bool_decide (a = 255) && bool_decide (b = 255) && bool_decide (c = 255) && bool_decide (d = 255).
Definition is_documentation (a b c : N) : bool :=
  bool_decide ((a, b, c) = (192, 0, 2)) || bool_decide ((a, b, c) = (198, 51, 100))
  || bool_decide ((a, b, c) = (203, 0, 113)).

(** [Ipv6Addr::to_ipv4_mapped] of [::ffff:a.b.c.d] *)
Definition to_ipv4_mapped (s0 s1 s2 s3 s4 s5 s6 s7 : N) : option IpAddr :=
  if decide ((s0, s1, s2, s3, s4, s5) = (0, 0, 0, 0, 0, 65535))
  then Some (V4 (s6 / 256) (s6 mod 256) (s7 / 256) (s7 mod 256)) else None.

(** The octets as they go on the wire. *)
Definition octets (addr : IpAddr) : bytes :=
  match addr with
  | V4 a b c d => be_of_N 1 a ++ be_of_N 1 b ++ be_of_N 1 c ++ be_of_N 1 d
  | V6 s0 s1 s2 s3 s4 s5 s6 s7 =>
      u16_be s0 ++ u16_be s1 ++ u16_be s2 ++ u16_be s3 ++ u16_be s4 ++ u16_be s5 ++ u16_be s6 ++ u16_be s7
  end.

(** ** The filter *)

Definition normalize_ipv4_mapped (addr : IpAddr) : IpAddr :=
  match addr with
  | V6 s0 s1 s2 s3 s4 s5 s6 s7 => default addr (to_ipv4_mapped s0 s1 s2 s3 s4 s5 s6 s7)
  | V4 _ _ _ _ => addr
  end.

Definition relay_target_v4_allowed (a b c d : N) : bool :=
  if is_private a b || is_loopback a || is_link_local a b || is_multicast a || is_broadcast a b c d
     || is_documentation a b c || bool_decide ((a, b, c, d) = (169, 254, 169, 254))
  then false else
  if bool_decide (a = 100) && bool_decide (64 <= b <= 127) then false else true.

Definition relay_target_v6_allowed (s0 s1 s2 s3 s4 s5 s6 s7 : N) : bool :=
  if bool_decide ((s0, s1, s2, s3, s4, s5, s6, s7) = (0, 0, 0, 0, 0, 0, 0, 1))
     || bool_decide ((s0, s1, s2, s3, s4, s5, s6, s7) = (0, 0, 0, 0, 0, 0, 0, 0))
     || bool_decide (N.land s0 65280 = 65280)
     || bool_decide (N.land s0 65472 = 65152)
     || bool_decide (N.land s0 65024 = 64512)
     || (bool_decide (s0 = 8193) && bool_decide (s1 = 3512))
  then false else true.

Definition relay_target_allowed (addr : IpAddr) (internal_mesh_addrs : list IpAddr) : bool :=
  let normalized := normalize_ipv4_mapped addr in
  if bool_decide (normalized ∈ (normalize_ipv4_mapped <$> internal_mesh_addrs)) then false else
  match normalized with
  | V4 a b c d => relay_target_v4_allowed a b c d
  | V6 s0 s1 s2 s3 s4 s5 s6 s7 => relay_target_v6_allowed s0 s1 s2 s3 s4 s5 s6 s7
  end.

Definition relay_socket_target_allowed (addr : SocketAddr) (internal_mesh_addrs : list IpAddr) : bool :=
  relay_target_allowed (ip addr) internal_mesh_addrs.
