(* ===== verification/NetProps.v ===== *)
(** * The relay's target filter: theorems

    The tests of the filter, on octets, segments and masks, are membership in a
    list of address blocks. *)

From S2P Require Import Prelude Bytes Net.

Open Scope N_scope.

(** ** Blocks *)

Definition v4_value (a b c d : N) : N := a * 2^24 + b * 2^16 + c * 2^8 + d.
Definition v6_value (s0 s1 s2 s3 s4 s5 s6 s7 : N) : N :=
  s0 * 2^112 + s1 * 2^96 + s2 * 2^80 + s3 * 2^64 + s4 * 2^48 + s5 * 2^32 + s6 * 2^16 + s7.

(** [base/len] of a [width]-bit address space holds the addresses whose first
    [len] bits are those of [base]. *)
Definition in_block (width value : N) (block : N * N) : Prop :=
  value / 2 ^ (width - block.2) = block.1 / 2 ^ (width - block.2).

Definition v4_blocks : list (N * N) := [
  (v4_value 10 0 0 0, 8); (v4_value 172 16 0 0, 12); (v4_value 192 168 0 0, 16);
  (v4_value 127 0 0 0, 8); (v4_value 169 254 0 0, 16); (v4_value 224 0 0 0, 4);
  (v4_value 255 255 255 255, 32); (v4_value 192 0 2 0, 24); (v4_value 198 51 100 0, 24);
  (v4_value 203 0 113 0, 24); (v4_value 100 64 0 0, 10)].

Definition v6_blocks : list (N * N) := [
  (v6_value 0 0 0 0 0 0 0 1, 128); (v6_value 0 0 0 0 0 0 0 0, 128);
  (v6_value 65280 0 0 0 0 0 0 0, 8); (v6_value 65152 0 0 0 0 0 0 0, 10);
  (v6_value 64512 0 0 0 0 0 0 0, 7); (v6_value 8193 3512 0 0 0 0 0 0, 32)].

Definition wf_ip (addr : IpAddr) : Prop :=
  match addr with
  | V4 a b c d => Forall (fun o => o < 256) [a; b; c; d]
  | V6 s0 s1 s2 s3 s4 s5 s6 s7 => Forall (fun s => s < 65536) [s0; s1; s2; s3; s4; s5; s6; s7]
  end.

Definition blocked (addr : IpAddr) : Prop :=
  match addr with
  | V4 a b c d => Exists (in_block 32 (v4_value a b c d)) v4_blocks
  | V6 s0 s1 s2 s3 s4 s5 s6 s7 => Exists (in_block 128 (v6_value s0 s1 s2 s3 s4 s5 s6 s7)) v6_blocks
  end.

(** A mask of the upper bits is a division. *)
Lemma land_upper s k : k <= 16 -> s < 65536 -> N.land s (2^16 - 2^k) = s / 2^k * 2^k.
Proof.
  intros Hk Hs. rewrite <- N.shiftr_div_pow2, <- N.shiftl_mul_pow2.
  replace (2^16 - 2^k) with (N.shiftl (N.ones (16 - k)) k).
  - apply N.bits_inj. intros i. rewrite N.land_spec. destruct (decide (i < k)) as [Hi|Hi].
    + by rewrite !N.shiftl_spec_low, andb_false_r.
    + rewrite !N.shiftl_spec_high', N.shiftr_spec' by lia. replace (i - k + k) with i by lia.
      destruct (decide (i < 16)) as [Hi'|Hi'].
      * rewrite N.ones_spec_low by lia. by rewrite andb_true_r.
      * rewrite N.ones_spec_high by lia. rewrite andb_false_r. symmetry.
        destruct (decide (s = 0)) as [->|Hz]; [apply N.bits_0|]. apply N.bits_above_log2.
        assert (N.log2 s < 16) by (apply N.log2_lt_pow2; lia). lia.
  - rewrite N.shiftl_mul_pow2, N.ones_equiv. replace (2^16) with (2^(16 - k) * 2^k)
      by (rewrite <- N.pow_add_r; f_equal; lia).
    by rewrite N.pred_sub, N.mul_sub_distr_r, N.mul_1_l.
Qed.

(** A block is an interval. *)
Lemma in_block_range width v base len :
  in_block width v (base, len) <->
  let k := 2 ^ (width - len) in base / k * k <= v < base / k * k + k.
Proof.
  unfold in_block. cbn [fst snd]. set (k := 2 ^ (width - len)).
  assert (k <> 0) as Hk by by apply N.pow_nonzero. clearbody k.
  pose proof (N.div_mod v k Hk) as Hv. rewrite (N.mul_comm k) in Hv. pose proof (N.mod_lt v k Hk) as Hr.
  revert Hv Hr. generalize (v mod k). intros r Hv Hr. split.
  - intros <-. cbv zeta. lia.
  - cbv zeta. intros [H1 H2]. symmetry. apply (N.div_unique v k _ (v - base / k * k)); [lia|]. rewrite (N.mul_comm k). lia.
Qed.

Lemma land_block s k m :
  k <= 16 -> s < 65536 -> N.land s (2^16 - 2^k) = m * 2^k <-> m * 2^k <= s < m * 2^k + 2^k.
Proof.
  intros Hk Hs. rewrite land_upper by done. pose proof (in_block_range k s (m * 2^k) 0) as Hb. revert Hb.
  unfold in_block. cbn [fst snd]. rewrite N.sub_0_r, N.div_mul by by apply N.pow_nonzero. cbv zeta. intros <-.
  split; [intros He; by apply N.mul_cancel_r in He; [|apply N.pow_nonzero]|by intros ->].
Qed.

(** Its ends are numbers, so [lia] decides which octets or segments it holds. *)
Ltac block :=
  rewrite in_block_range; cbv zeta;
  match goal with |- (?l <= _ < ?l + ?k) <-> _ =>
    let l' := eval vm_compute in l in let k' := eval vm_compute in k in change l with l'; change k with k'
  end; unfold v4_value, v6_value;
  repeat match goal with |- context [2 ^ ?e] => let p := eval vm_compute in (2 ^ e) in change (2 ^ e) with p end;
  lia.

Lemma refused_or (x y : bool) : (if x then false else if y then false else true) = true <-> ~ (x || y = true).
Proof. by destruct x, y. Qed.

Lemma refused (x : bool) : (if x then false else true) = true <-> ~ (x = true).
Proof. by destruct x. Qed.

Lemma v4_blocked a b c d :
  wf_ip (V4 a b c d) -> relay_target_v4_allowed a b c d = true <-> ~ blocked (V4 a b c d).
Proof.
  unfold wf_ip. rewrite !Forall_cons. intros (Ha & Hb & Hc & Hd & _).
  unfold blocked, v4_blocks. rewrite !Exists_cons, Exists_nil.
  assert (in_block 32 (v4_value a b c d) (v4_value 10 0 0 0, 8) <-> a = 10) as -> by block.
  assert (in_block 32 (v4_value a b c d) (v4_value 172 16 0 0, 12) <-> a = 172 /\ 16 <= b <= 31) as -> by block.
  assert (in_block 32 (v4_value a b c d) (v4_value 192 168 0 0, 16) <-> a = 192 /\ b = 168) as -> by block.
  assert (in_block 32 (v4_value a b c d) (v4_value 127 0 0 0, 8) <-> a = 127) as -> by block.
  assert (in_block 32 (v4_value a b c d) (v4_value 169 254 0 0, 16) <-> a = 169 /\ b = 254) as -> by block.
  assert (in_block 32 (v4_value a b c d) (v4_value 224 0 0 0, 4) <-> 224 <= a <= 239) as -> by block.
  assert (in_block 32 (v4_value a b c d) (v4_value 255 255 255 255, 32) <-> a = 255 /\ b = 255 /\ c = 255 /\ d = 255) as -> by block.
  assert (in_block 32 (v4_value a b c d) (v4_value 192 0 2 0, 24) <-> a = 192 /\ b = 0 /\ c = 2) as -> by block.
  assert (in_block 32 (v4_value a b c d) (v4_value 198 51 100 0, 24) <-> a = 198 /\ b = 51 /\ c = 100) as -> by block.
  assert (in_block 32 (v4_value a b c d) (v4_value 203 0 113 0, 24) <-> a = 203 /\ b = 0 /\ c = 113) as -> by block.
  assert (in_block 32 (v4_value a b c d) (v4_value 100 64 0 0, 10) <-> a = 100 /\ 64 <= b <= 127) as -> by block.
  unfold relay_target_v4_allowed, is_private, is_loopback, is_link_local, is_multicast, is_broadcast, is_documentation.
  rewrite refused_or, !orb_true_iff, !andb_true_iff, !bool_decide_eq_true, !pair_equal_spec. tauto.
Qed.

Lemma v6_blocked s0 s1 s2 s3 s4 s5 s6 s7 :
  wf_ip (V6 s0 s1 s2 s3 s4 s5 s6 s7) ->
  relay_target_v6_allowed s0 s1 s2 s3 s4 s5 s6 s7 = true <-> ~ blocked (V6 s0 s1 s2 s3 s4 s5 s6 s7).
Proof.
  unfold wf_ip. rewrite !Forall_cons. intros (H0 & H1 & H2 & H3 & H4 & H5 & H6 & H7 & _).
  unfold blocked, v6_blocks. rewrite !Exists_cons, Exists_nil.
  assert (in_block 128 (v6_value s0 s1 s2 s3 s4 s5 s6 s7) (v6_value 0 0 0 0 0 0 0 1, 128) <->
    s0 = 0 /\ s1 = 0 /\ s2 = 0 /\ s3 = 0 /\ s4 = 0 /\ s5 = 0 /\ s6 = 0 /\ s7 = 1) as -> by block.
  assert (in_block 128 (v6_value s0 s1 s2 s3 s4 s5 s6 s7) (v6_value 0 0 0 0 0 0 0 0, 128) <->
    s0 = 0 /\ s1 = 0 /\ s2 = 0 /\ s3 = 0 /\ s4 = 0 /\ s5 = 0 /\ s6 = 0 /\ s7 = 0) as -> by block.
  assert (in_block 128 (v6_value s0 s1 s2 s3 s4 s5 s6 s7) (v6_value 65280 0 0 0 0 0 0 0, 8) <-> 65280 <= s0)
    as -> by block.
  assert (in_block 128 (v6_value s0 s1 s2 s3 s4 s5 s6 s7) (v6_value 65152 0 0 0 0 0 0 0, 10) <->
    65152 <= s0 < 65152 + 64) as -> by block.
  assert (in_block 128 (v6_value s0 s1 s2 s3 s4 s5 s6 s7) (v6_value 64512 0 0 0 0 0 0 0, 7) <->
    64512 <= s0 < 64512 + 512) as -> by block.
  assert (in_block 128 (v6_value s0 s1 s2 s3 s4 s5 s6 s7) (v6_value 8193 3512 0 0 0 0 0 0, 32) <->
    s0 = 8193 /\ s1 = 3512) as -> by block.
  assert (N.land s0 65280 = 65280 <-> 65280 <= s0) as E1 by (rewrite (land_block s0 8 255) by lia; lia).
  assert (N.land s0 65472 = 65152 <-> 65152 <= s0 < 65152 + 64) as E2 by exact (land_block s0 6 1018 ltac:(lia) H0).
  assert (N.land s0 65024 = 64512 <-> 64512 <= s0 < 64512 + 512) as E3 by exact (land_block s0 9 126 ltac:(lia) H0).
  unfold relay_target_v6_allowed.
  rewrite refused, !orb_true_iff, !andb_true_iff, !bool_decide_eq_true, !pair_equal_spec, E1, E2, E3. tauto.
Qed.

Lemma wf_normalize addr : wf_ip addr -> wf_ip (normalize_ipv4_mapped addr).
Proof.
  destruct addr as [a b c d|s0 s1 s2 s3 s4 s5 s6 s7]; [done|]. cbn [normalize_ipv4_mapped]. unfold to_ipv4_mapped.
  case_decide; [|done]. cbn [from_option id wf_ip]. rewrite !Forall_cons, Forall_nil. intros (_ & _ & _ & _ & _ & _ & H6 & H7 & _).
  split_and!; try done; first [by apply N.mod_lt|apply N.Div0.div_lt_upper_bound; lia].
Qed.

(** the relay sends to an address exactly when, with an IPv4-mapped address
    read as the IPv4 one, it is no address of the internal mesh and lies outside
    the private, shared, loopback, link-local, multicast, broadcast and
    documentation blocks of its family. *)
Theorem target_filter_is_blocks addr mesh :
  wf_ip addr ->
  relay_target_allowed addr mesh = true <->
  normalize_ipv4_mapped addr ∉ normalize_ipv4_mapped <$> mesh /\ ~ blocked (normalize_ipv4_mapped addr).
Proof.
  intros Hwf%wf_normalize. unfold relay_target_allowed. case_bool_decide as Hmesh; [naive_solver|].
  destruct (normalize_ipv4_mapped addr) as [a b c d|s0 s1 s2 s3 s4 s5 s6 s7];
    [rewrite v4_blocked by done|rewrite v6_blocked by done]; tauto.
Qed.

(** The mapped form of 100.64.0.1 is refused, whatever the mesh. *)
Lemma target_filter_is_blocks_witness :
  relay_target_allowed (V6 0 0 0 0 0 65535 25664 1) [] = true <->
  V4 100 64 0 1 ∉ [] /\ ~ blocked (V4 100 64 0 1).
Proof. apply (target_filter_is_blocks (V6 0 0 0 0 0 65535 25664 1) []). repeat constructor. Defined.
