(* ===== verification/Turn.v ===== *)
(** * Call signaling and the opaque media relay

    ramflux-node-core/src/signaling.rs: opaque call sessions, TURN credentials
    with their replay cache, allocations under quotas, SRTP flows between two
    allocations of a call, and the tokens that authorise media packets; and the
    use the relay makes of them for one packet (apps/ramflux-relay/src/media.rs).
    HMAC and base64 come from [Primitives]; the JSON of a token is a parameter.
    The clock is an argument. *)

From stdpp Require Import pretty.
From S2P Require Import Prelude OrdMap Bytes Publication Wire Crypto Net.
From Stdlib Require Import Strings.Ascii Strings.Byte.

Open Scope N_scope.

(** ** Constants *)

Notation DEFAULT_TURN_CREDENTIAL_TTL_SECS := 600%N (only parsing).
Notation MAX_TURN_ALLOCATIONS_PER_USERNAME := 2%nat (only parsing).
Notation MAX_TURN_ALLOCATIONS_PER_CALL_SESSION := 8%nat (only parsing).
Notation MAX_SRTP_FLOWS_PER_CALL_SESSION := 4%nat (only parsing).
Notation MAX_TURN_ALLOCATE_PER_IDENTITY_PER_MINUTE := 30%N (only parsing).
Notation MAX_TURN_ALLOCATE_PER_SOURCE_IP_PER_MINUTE := 60%N (only parsing).
Notation DEFAULT_TURN_ALLOCATION_BANDWIDTH_BPS := 2000000%N (only parsing).
Notation DEFAULT_TURN_ALLOCATION_BURST_BPS := 4000000%N (only parsing).
Notation DEFAULT_TURN_CALL_SESSION_BANDWIDTH_BPS := 6000000%N (only parsing).
Notation DEFAULT_TURN_NODE_WIDE_BANDWIDTH_BPS := 100000000%N (only parsing).
Notation DEFAULT_TURN_NODE_WIDE_MAX_ALLOCATIONS := 500%nat (only parsing).
Notation TURN_MEDIA_RELAY_PACKET_MAX_BYTES := (N.to_nat 65507)%nat (only parsing).
Notation TURN_MEDIA_RELAY_HEADER_MAX_BYTES := (N.to_nat 16384)%nat (only parsing).

(** ** Data *)

Inductive CallSessionLifecycle := CallPending | CallActive | CallDraining | CallClosed.

#[export] Instance CallSessionLifecycle_eq_dec : EqDecision CallSessionLifecycle.
Proof. solve_decision. Defined.

Record OpaqueCallSession := mkCall {
  call_id : string;
  caller_device_hash : string;
  callee_device_hash : string;
  allowed_peer_hashes : gset string;
  call_created_at : N;
  call_expires_at : N;
  lifecycle : CallSessionLifecycle;
  opaque_envelope_hash : string;
}.

Record TurnAllocation := mkAllocation {
  al_id : string;
  al_call_id : string;
  username_hash : string;
  identity_hash : string;
  peer_hash : string;
  source_ip_hash : string;
  relay_address : string;
  bandwidth_limit_bps : N;
  burst_limit_bps : N;
  al_created_at : N;
  al_expires_at : N;
  bytes_relayed : N;
  packets_relayed : N;
}.

Inductive SrtpRelayFlowState := FlowActive | FlowDraining | FlowClosed.

#[export] Instance SrtpRelayFlowState_eq_dec : EqDecision SrtpRelayFlowState.
Proof. solve_decision. Defined.

Record SrtpRelayFlow := mkFlow {
  flow_id : string;
  call_session_id : string;
  allocation_id_a : string;
  allocation_id_b : string;
  peer_hash_a : string;
  peer_hash_b : string;
  fl_created_at : N;
  fl_expires_at : N;
  bytes_a_to_b : N;
  bytes_b_to_a : N;
  packets_a_to_b : N;
  packets_b_to_a : N;
  last_activity_at : N;
  fl_state : SrtpRelayFlowState;
}.

Record TurnMediaRelayToken := mkToken {
  tk_call_id : string;
  tk_allocation_id : string;
  tk_target_allocation_id : string;
  tk_flow_id : string;
  tk_identity_hash : string;
  tk_peer_hash : string;
  tk_issued_at : N;
  tk_expires_at : N;
  tk_nonce : string;
  tk_mac : string;
}.

Record TurnCredentialParts := mkParts {
  call_session_id_hash : string;
  device_id_hash : string;
  issued_at : N;
  nonce : string;
}.

Record TurnCredentialReplayCache := mkCache {
  seen_nonce_expires_at : gmap string N;
  max_entries : nat;
}.

Record TurnQuotaPolicy := mkPolicy {
  max_allocations_per_username : nat;
  max_allocations_per_call_session : nat;
  max_flows_per_call_session : nat;
  max_allocate_per_identity_per_minute : N;
  max_allocate_per_source_ip_per_minute : N;
  allocation_bandwidth_bps : N;
  allocation_burst_bps : N;
  call_session_bandwidth_bps : N;
  node_wide_bandwidth_bps : N;
  node_wide_max_allocations : nat;
}.

Definition default_policy : TurnQuotaPolicy :=
  mkPolicy MAX_TURN_ALLOCATIONS_PER_USERNAME MAX_TURN_ALLOCATIONS_PER_CALL_SESSION
    MAX_SRTP_FLOWS_PER_CALL_SESSION MAX_TURN_ALLOCATE_PER_IDENTITY_PER_MINUTE
    MAX_TURN_ALLOCATE_PER_SOURCE_IP_PER_MINUTE DEFAULT_TURN_ALLOCATION_BANDWIDTH_BPS
    DEFAULT_TURN_ALLOCATION_BURST_BPS DEFAULT_TURN_CALL_SESSION_BANDWIDTH_BPS
    DEFAULT_TURN_NODE_WIDE_BANDWIDTH_BPS DEFAULT_TURN_NODE_WIDE_MAX_ALLOCATIONS.

Record RateWindow := mkWindow { window_start : N; window_count : N }.

Record SignalingState := mkSignaling {
  calls_by_id : gmap string OpaqueCallSession;
  allocations_by_id : gmap string TurnAllocation;
  srtp_flows_by_id : gmap string SrtpRelayFlow;
  turn_allocation_sources : gmap string SocketAddr;
  turn_replay_cache : TurnCredentialReplayCache;
  identity_allocate_window : gmap string RateWindow;
  source_ip_allocate_window : gmap string RateWindow;
}.

Definition signaling_new : SignalingState := mkSignaling ∅ ∅ ∅ ∅ (mkCache ∅ (N.to_nat 4096)) ∅ ∅.

Definition set_calls (s : SignalingState) m : SignalingState :=
  mkSignaling m (allocations_by_id s) (srtp_flows_by_id s) (turn_allocation_sources s) (turn_replay_cache s)
    (identity_allocate_window s) (source_ip_allocate_window s).
Definition set_allocations (s : SignalingState) m : SignalingState :=
  mkSignaling (calls_by_id s) m (srtp_flows_by_id s) (turn_allocation_sources s) (turn_replay_cache s)
    (identity_allocate_window s) (source_ip_allocate_window s).
Definition set_flows (s : SignalingState) m : SignalingState :=
  mkSignaling (calls_by_id s) (allocations_by_id s) m (turn_allocation_sources s) (turn_replay_cache s)
    (identity_allocate_window s) (source_ip_allocate_window s).
Definition set_sources (s : SignalingState) m : SignalingState :=
  mkSignaling (calls_by_id s) (allocations_by_id s) (srtp_flows_by_id s) m (turn_replay_cache s)
    (identity_allocate_window s) (source_ip_allocate_window s).
Definition set_cache (s : SignalingState) c : SignalingState :=
  mkSignaling (calls_by_id s) (allocations_by_id s) (srtp_flows_by_id s) (turn_allocation_sources s) c
    (identity_allocate_window s) (source_ip_allocate_window s).
Definition set_windows (s : SignalingState) mi ms : SignalingState :=
  mkSignaling (calls_by_id s) (allocations_by_id s) (srtp_flows_by_id s) (turn_allocation_sources s)
    (turn_replay_cache s) mi ms.

(** ** The replay cache of credentials *)

Definition evict_expired (c : TurnCredentialReplayCache) (now : N) : TurnCredentialReplayCache :=
  mkCache (filter (fun p => now < p.2) (seen_nonce_expires_at c)) (max_entries c).

(** [iter().min_by_key(expires_at)]: the first entry with the least expiry. *)
Definition min_by_expiry (l : list (string * N)) : option (string * N) :=
  foldl (fun acc p => match acc with
    | None => Some p
    | Some q => if decide (p.2 < q.2) then Some p else Some q
    end) None l.

Definition accept_once (nonce_key : string) (expires_at now : N)
  : stres TurnCredentialReplayCache NodeCoreError unit := fun c =>
  let c := evict_expired c now in
  let seen := seen_nonce_expires_at c in
  if decide (is_Some (seen !! nonce_key)) then (c, Err (ReplayGuardError "turn credential nonce replay")) else
  let seen :=
    if decide (max_entries c <= size seen)%nat then
      match min_by_expiry (bt_entries seen) with
      | Some (oldest_key, _) => delete oldest_key seen
      | None => seen
      end
    else seen in
  (mkCache (<[nonce_key := expires_at]> seen) (max_entries c), Ok tt).

(** ** Rate windows *)

(** [entry(key).or_default()] *)
Definition window_entry (m : gmap string RateWindow) (key : string) : RateWindow :=
  default (mkWindow 0 0) (m !! key).

Definition increment_rate_window (now limit : N) : stres RateWindow NodeCoreError unit := fun w =>
  let minute := now / 60 in
  let w := if decide (window_start w <> minute) then mkWindow minute 0 else w in
  if decide (limit <= window_count w) then (w, Err (ItestHttp "turn allocate rate limited")) else
  (mkWindow (window_start w) (u32_saturating_add (window_count w) 1), Ok tt).

Definition record_allocate_attempt (identity_hash source_ip_hash : string) (now : N) (policy : TurnQuotaPolicy)
  : stres SignalingState NodeCoreError unit := fun s =>
  let '(w, r) := increment_rate_window now (max_allocate_per_identity_per_minute policy)
    (window_entry (identity_allocate_window s) identity_hash) in
  let s := set_windows s (<[identity_hash := w]> (identity_allocate_window s)) (source_ip_allocate_window s) in
  match r with
  | Err e => (s, Err e)
  | Ok _ =>
      let '(w, r) := increment_rate_window now (max_allocate_per_source_ip_per_minute policy)
        (window_entry (source_ip_allocate_window s) source_ip_hash) in
      (set_windows s (identity_allocate_window s) (<[source_ip_hash := w]> (source_ip_allocate_window s)), r)
  end.

(** ** Quotas *)

Definition sum_bandwidth (l : list TurnAllocation) : N := foldr N.add 0 (bandwidth_limit_bps <$> l).

(** [allocations_by_id.values()]; the sums and counts do not depend on the order. *)
Definition allocations (s : SignalingState) : list TurnAllocation := bt_values (allocations_by_id s).

Definition enforce_allocation_quota (s : SignalingState) (allocation : TurnAllocation) (policy : TurnQuotaPolicy)
  : result NodeCoreError unit :=
  if decide (node_wide_max_allocations policy <= size (allocations_by_id s))%nat
  then Err (ItestHttp "turn node allocation circuit breaker open") else
  if decide (node_wide_bandwidth_bps policy <
             u64_saturating_add (sum_bandwidth (allocations s)) (bandwidth_limit_bps allocation))
  then Err (ItestHttp "turn node bandwidth circuit breaker open") else
  let per_username := length (filter (fun e => username_hash e = username_hash allocation) (allocations s)) in
  if decide (max_allocations_per_username policy <= per_username)%nat
  then Err (ItestHttp "turn username allocation quota reached") else
  let of_call := filter (fun e => al_call_id e = al_call_id allocation) (allocations s) in
  if decide (max_allocations_per_call_session policy <= length of_call)%nat
  then Err (ItestHttp "turn call session allocation quota reached") else
  if decide (call_session_bandwidth_bps policy <
             u64_saturating_add (sum_bandwidth of_call) (bandwidth_limit_bps allocation))
  then Err (ItestHttp "turn call session bandwidth quota reached") else
  Ok tt.

(** ** Calls and allocations *)

Definition submit_opaque_call_envelope (s : SignalingState) (session : OpaqueCallSession) : SignalingState :=
  set_calls s (<[call_id session := session]> (calls_by_id s)).

Definition set_lifecycle (c : OpaqueCallSession) (l : CallSessionLifecycle) : OpaqueCallSession :=
  mkCall (call_id c) (caller_device_hash c) (callee_device_hash c) (allowed_peer_hashes c) (call_created_at c)
    (call_expires_at c) l (opaque_envelope_hash c).

Definition activate_call (id : string) : stres SignalingState NodeCoreError unit := fun s =>
  match calls_by_id s !! id with
  | None => (s, Err (SessionNotFound id))
  | Some call => (set_calls s (<[id := set_lifecycle call CallActive]> (calls_by_id s)), Ok tt)
  end.

Definition allocate_turn_with_policy (allocation : TurnAllocation) (policy : TurnQuotaPolicy)
  : stres SignalingState NodeCoreError unit := fun s =>
  match calls_by_id s !! al_call_id allocation with
  | None => (s, Err (SessionNotFound (al_call_id allocation)))
  | Some call =>
      if decide (lifecycle call <> CallActive) then (s, Err (SessionNotFound (al_call_id allocation))) else
      if decide (call_expires_at call < al_expires_at allocation) then (s, Err (TtlExpired (al_id allocation))) else
      if decide (peer_hash allocation ∉ allowed_peer_hashes call)
      then (s, Err (SessionNotFound (peer_hash allocation))) else
      match enforce_allocation_quota s allocation policy with
      | Err e => (s, Err e)
      | Ok _ => (set_allocations s (<[al_id allocation := allocation]> (allocations_by_id s)), Ok tt)
      end
  end.

Definition allocate_turn (allocation : TurnAllocation) : stres SignalingState NodeCoreError unit :=
  allocate_turn_with_policy allocation default_policy.

(** ** Flows *)

Definition active_flows (s : SignalingState) (id : string) : nat :=
  length (filter (fun f => call_session_id f = id /\ fl_state f = FlowActive) (bt_values (srtp_flows_by_id s))).

Definition bind_srtp_relay_flow (id alloc_a alloc_b : string) (now : N) (policy : TurnQuotaPolicy)
  : stres SignalingState NodeCoreError SrtpRelayFlow := fun s =>
  match allocations_by_id s !! alloc_a with
  | None => (s, Err (SessionNotFound alloc_a))
  | Some a =>
  match allocations_by_id s !! alloc_b with
  | None => (s, Err (SessionNotFound alloc_b))
  | Some b =>
  if decide (al_call_id a <> al_call_id b) then (s, Err (SessionNotFound (al_call_id b))) else
  match calls_by_id s !! al_call_id a with
  | None => (s, Err (SessionNotFound (al_call_id a)))
  | Some call =>
  if decide (lifecycle call <> CallActive) then (s, Err (SessionNotFound (call_id call))) else
  if decide (max_flows_per_call_session policy <= active_flows s (call_id call))%nat
  then (s, Err (ItestHttp "turn call session flow quota reached")) else
  let expires_at := N.min (N.min (al_expires_at a) (al_expires_at b)) (call_expires_at call) in
  let flow := mkFlow id (call_id call) alloc_a alloc_b (peer_hash a) (peer_hash b) now expires_at 0 0 0 0 now
    FlowActive in
  (set_flows s (<[id := flow]> (srtp_flows_by_id s)), Ok flow)
  end end end.

Definition count_a_to_b (f : SrtpRelayFlow) (n : N) : SrtpRelayFlow :=
  mkFlow (flow_id f) (call_session_id f) (allocation_id_a f) (allocation_id_b f) (peer_hash_a f) (peer_hash_b f)
    (fl_created_at f) (fl_expires_at f) (u64_saturating_add (bytes_a_to_b f) n) (bytes_b_to_a f)
    (u64_saturating_add (packets_a_to_b f) 1) (packets_b_to_a f) (last_activity_at f) (fl_state f).
Definition count_b_to_a (f : SrtpRelayFlow) (n : N) : SrtpRelayFlow :=
  mkFlow (flow_id f) (call_session_id f) (allocation_id_a f) (allocation_id_b f) (peer_hash_a f) (peer_hash_b f)
    (fl_created_at f) (fl_expires_at f) (bytes_a_to_b f) (u64_saturating_add (bytes_b_to_a f) n)
    (packets_a_to_b f) (u64_saturating_add (packets_b_to_a f) 1) (last_activity_at f) (fl_state f).
Definition set_last_activity (f : SrtpRelayFlow) (now : N) : SrtpRelayFlow :=
  mkFlow (flow_id f) (call_session_id f) (allocation_id_a f) (allocation_id_b f) (peer_hash_a f) (peer_hash_b f)
    (fl_created_at f) (fl_expires_at f) (bytes_a_to_b f) (bytes_b_to_a f) (packets_a_to_b f) (packets_b_to_a f)
    now (fl_state f).
Definition count_relayed (a : TurnAllocation) (n : N) : TurnAllocation :=
  mkAllocation (al_id a) (al_call_id a) (username_hash a) (identity_hash a) (peer_hash a) (source_ip_hash a)
    (relay_address a) (bandwidth_limit_bps a) (burst_limit_bps a) (al_created_at a) (al_expires_at a)
    (u64_saturating_add (bytes_relayed a) n) (u64_saturating_add (packets_relayed a) 1).

(** A [usize] length always fits a [u64]. *)
Definition relay_srtp_packet (id from_allocation_id : string) (payload_len now : N)
  : stres SignalingState NodeCoreError string := fun s =>
  match srtp_flows_by_id s !! id with
  | None => (s, Err (SessionNotFound id))
  | Some flow =>
      if decide (fl_state flow <> FlowActive \/ fl_expires_at flow <= now) then (s, Err (TtlExpired id)) else
      let relayed (flow : SrtpRelayFlow) (target : string) :=
        let s := set_flows s (<[id := set_last_activity flow now]> (srtp_flows_by_id s)) in
        let s := match allocations_by_id s !! from_allocation_id with
          | Some a => set_allocations s (<[from_allocation_id := count_relayed a payload_len]> (allocations_by_id s))
          | None => s
          end in
        (s, Ok target) in
      if decide (from_allocation_id = allocation_id_a flow)
      then relayed (count_a_to_b flow payload_len) (allocation_id_b flow) else
      if decide (from_allocation_id = allocation_id_b flow)
      then relayed (count_b_to_a flow payload_len) (allocation_id_a flow) else
      (s, Err (SessionNotFound from_allocation_id))
  end.

(** ** Sources *)

(** The code keeps the address as text, which determines it. *)
Definition validate_or_bind_turn_allocation_source (id : string) (source_addr : SocketAddr)
  : stres SignalingState NodeCoreError unit := fun s =>
  match turn_allocation_sources s !! id with
  | Some bound => if decide (bound <> source_addr)
      then (s, Err (ItestHttp "turn allocation source address mismatch")) else (s, Ok tt)
  | None => (set_sources s (<[id := source_addr]> (turn_allocation_sources s)), Ok tt)
  end.

Notation turn_allocation_source s id := (turn_allocation_sources s !! id) (only parsing).

Definition expire_turn_media_state (s : SignalingState) (now : N) : SignalingState * list string :=
  let expired := (filter (fun p => al_expires_at p.2 <= now) (bt_entries (allocations_by_id s))).*1 in
  let s := foldl (fun s id => set_sources (set_allocations s (delete id (allocations_by_id s)))
                                (delete id (turn_allocation_sources s))) s expired in
  let s := set_flows s (filter (fun p => now < fl_expires_at p.2 /\
      is_Some (allocations_by_id s !! allocation_id_a p.2) /\
      is_Some (allocations_by_id s !! allocation_id_b p.2)) (srtp_flows_by_id s)) in
  (s, expired).

(** ** Text *)

Fixpoint split_on (sep : Ascii.ascii) (s : string) : list string :=
  match s with
  | EmptyString => [EmptyString]
  | String c s =>
      if decide (c = sep) then EmptyString :: split_on sep s else
      match split_on sep s with
      | part :: parts => String c part :: parts
      | [] => [String c EmptyString]
      end
  end.

Definition digit_value (c : Ascii.ascii) : option N :=
  let n := Ascii.N_of_ascii c in
  if decide (48 <= n <= 57) then Some (n - 48) else None.

Fixpoint digits_value (acc : N) (s : string) : option N :=
  match s with
  | EmptyString => Some acc
  | String c s =>
      digit_value c ≫= fun d =>
      if decide (acc * 10 + d <= U64_MAX) then digits_value (acc * 10 + d) s else None
  end.

(** [str::parse::<u64>]: an optional plus sign, then at least one digit. *)
Definition parse_u64 (s : string) : option N :=
  let digits := match s with
    | String c rest => if decide (c = "+"%char) then rest else s
    | EmptyString => s
    end in
  match digits with
  | EmptyString => None
  | _ => digits_value 0 digits
  end.

Definition turn_username (parts : TurnCredentialParts) : string :=
  call_session_id_hash parts +:+ ":" +:+ device_id_hash parts +:+ ":" +:+ pretty (issued_at parts) +:+ ":" +:+ nonce parts.

Definition parse_turn_username (username : string) : result NodeCoreError TurnCredentialParts :=
  match split_on ":"%char username with
  | [p0; p1; p2; p3] =>
      if decide (Exists (fun p => p = ""%string) [p0; p1; p2; p3])
      then Err (ItestHttp "invalid turn username format") else
      match parse_u64 p2 with
      | None => Err (ItestHttp "invalid number")
      | Some issued_at => Ok (mkParts p0 p1 issued_at p3)
      end
  | _ => Err (ItestHttp "invalid turn username format")
  end.

(** Equality in constant time: no difference accumulates. *)
Definition constant_time_eq (left right : bytes) : bool :=
  if decide (length left <> length right) then false else
  bool_decide (foldl (fun acc p => N.lor acc (N.lxor (Byte.to_N p.1) (Byte.to_N p.2))) 0 (zip left right) = 0).

(** ** Credentials and tokens *)

Section mac.
Context `{!Primitives}.
(** [serde_json] of a token, and of a packet header holding it. *)
Variable token_json : TurnMediaRelayToken -> option bytes.
Variable header_json : TurnMediaRelayToken -> option bytes.
Variable header_of_json : bytes -> option TurnMediaRelayToken.

Definition turn_credential_password (service_key : bytes) (username : string) : result NodeCoreError string :=
  ok_or (hmac_sha256 service_key (str username)) (ItestHttp "mac") ≫= fun tag => Ok (encode_base64url tag).

Definition clear_mac (t : TurnMediaRelayToken) (mac : string) : TurnMediaRelayToken :=
  mkToken (tk_call_id t) (tk_allocation_id t) (tk_target_allocation_id t) (tk_flow_id t) (tk_identity_hash t)
    (tk_peer_hash t) (tk_issued_at t) (tk_expires_at t) (tk_nonce t) mac.

Definition turn_media_relay_token_canonical_bytes (token : TurnMediaRelayToken) : result NodeCoreError bytes :=
  ok_or (token_json (clear_mac token "")) (ItestJson "token").

Definition turn_media_relay_token_mac (service_key : bytes) (token : TurnMediaRelayToken)
  : result NodeCoreError string :=
  turn_media_relay_token_canonical_bytes token ≫= fun canonical =>
  ok_or (hmac_sha256 service_key canonical) (ItestHttp "mac") ≫= fun tag => Ok (encode_base64url tag).

Definition sign_turn_media_relay_token (service_key : bytes) (token : TurnMediaRelayToken)
  : result NodeCoreError TurnMediaRelayToken :=
  turn_media_relay_token_mac service_key (clear_mac token "") ≫= fun mac => Ok (clear_mac token mac).

Definition check_mac (service_key : bytes) (token : TurnMediaRelayToken) : result NodeCoreError unit :=
  turn_media_relay_token_mac service_key token ≫= fun expected =>
  if constant_time_eq (str expected) (str (tk_mac token)) then Ok tt
  else Err (ItestHttp "turn media relay token mac rejected").

Definition validate_turn_media_relay_token_signature (token : TurnMediaRelayToken) (service_key : bytes) (now : N)
  : result NodeCoreError unit :=
  if decide (now < tk_issued_at token \/ tk_expires_at token <= now) then Err (TtlExpired (tk_allocation_id token)) else
  if decide (tk_allocation_id token = tk_target_allocation_id token)
  then Err (ItestHttp "turn media relay target allocation must differ from source") else
  check_mac service_key token.

Definition validate_turn_media_relay_token (s : SignalingState) (token : TurnMediaRelayToken) (service_key : bytes)
    (now : N) : result NodeCoreError unit :=
  if decide (now < tk_issued_at token \/ tk_expires_at token <= now) then Err (TtlExpired (tk_allocation_id token)) else
  check_mac service_key token ≫= fun _ =>
  match allocations_by_id s !! tk_allocation_id token with
  | None => Err (SessionNotFound (tk_allocation_id token))
  | Some a =>
      if decide (al_expires_at a < tk_expires_at token \/ al_expires_at a <= now)
      then Err (TtlExpired (tk_allocation_id token)) else
      if decide (identity_hash a <> tk_identity_hash token \/ peer_hash a <> tk_peer_hash token)
      then Err (SessionNotFound (tk_allocation_id token)) else
      match srtp_flows_by_id s !! tk_flow_id token with
      | None => Err (SessionNotFound (tk_flow_id token))
      | Some flow =>
          if decide (fl_state flow <> FlowActive \/ fl_expires_at flow <= now)
          then Err (TtlExpired (tk_flow_id token)) else
          if decide (call_session_id flow <> al_call_id a \/
                     (allocation_id_a flow <> tk_allocation_id token /\ allocation_id_b flow <> tk_allocation_id token))
          then Err (SessionNotFound (tk_flow_id token)) else
          Ok tt
      end
  end.

Definition validate_turn_media_packet (token : TurnMediaRelayToken) (source_addr : SocketAddr) (payload_len : N)
    (service_key : bytes) (now : N) : stres SignalingState NodeCoreError string := fun s =>
  match validate_turn_media_relay_token s token service_key now with
  | Err e => (s, Err e)
  | Ok _ =>
      (validate_or_bind_turn_allocation_source (tk_allocation_id token) source_addr ≫= fun _ =>
       relay_srtp_packet (tk_flow_id token) (tk_allocation_id token) payload_len now) s
  end.

Definition validate_turn_credential (username password : string) (service_key : bytes) (now : N)
  : stres SignalingState NodeCoreError TurnCredentialParts := fun s =>
  match parse_turn_username username with
  | Err e => (s, Err e)
  | Ok parts =>
  match calls_by_id s !! call_session_id_hash parts with
  | None => (s, Err (SessionNotFound (call_session_id_hash parts)))
  | Some call =>
  if decide (lifecycle call <> CallActive \/ call_expires_at call <= now)
  then (s, Err (TtlExpired (call_session_id_hash parts))) else
  let max_expires_at :=
    N.min (u64_saturating_add (issued_at parts) DEFAULT_TURN_CREDENTIAL_TTL_SECS) (call_expires_at call) in
  if decide (now < issued_at parts \/ max_expires_at < now)
  then (s, Err (TtlExpired (call_session_id_hash parts))) else
  match turn_credential_password service_key username with
  | Err e => (s, Err e)
  | Ok expected =>
  if negb (constant_time_eq (str expected) (str password))
  then (s, Err (ItestHttp "turn credential mac rejected")) else
  let nonce_key := call_session_id_hash parts +:+ ":" +:+ device_id_hash parts +:+ ":" +:+ nonce parts in
  match accept_once nonce_key max_expires_at now (turn_replay_cache s) with
  | (c, Err e) => (set_cache s c, Err e)
  | (c, Ok _) => (set_cache s c, Ok parts)
  end end end end.

(** ** Creating what a token implies *)

Record TurnMediaRelayEnsureContext := mkContext {
  cx_service_key : bytes;
  cx_source_ip_hash : string;
  cx_relay_address : string;
  cx_now : N;
  cx_policy : TurnQuotaPolicy;
}.

Definition token_call (token : TurnMediaRelayToken) : OpaqueCallSession :=
  mkCall (tk_call_id token) (tk_identity_hash token) (tk_peer_hash token)
    ({[ tk_peer_hash token; tk_identity_hash token ]}) (tk_issued_at token) (tk_expires_at token) CallActive
    "media_relay_opaque_call".

Definition token_allocation (token : TurnMediaRelayToken) (cx : TurnMediaRelayEnsureContext)
    (id identity peer source_hash : string) : TurnAllocation :=
  mkAllocation id (tk_call_id token) ("media:" +:+ id) identity peer source_hash (cx_relay_address cx)
    (allocation_bandwidth_bps (cx_policy cx)) (allocation_burst_bps (cx_policy cx)) (tk_issued_at token)
    (tk_expires_at token) 0 0.

Definition ensure_turn_media_relay_state (token : TurnMediaRelayToken) (cx : TurnMediaRelayEnsureContext)
  : stres SignalingState NodeCoreError unit :=
  lift (validate_turn_media_relay_token_signature token (cx_service_key cx) (cx_now cx)) ≫= fun _ =>
  modify (fun s => if decide (is_Some (calls_by_id s !! tk_call_id token)) then s
                   else submit_opaque_call_envelope s (token_call token)) ≫= fun _ =>
  get ≫= fun s =>
  (if decide (is_Some (allocations_by_id s !! tk_allocation_id token)) then mret tt else
   allocate_turn_with_policy
     (token_allocation token cx (tk_allocation_id token) (tk_identity_hash token) (tk_peer_hash token)
        (cx_source_ip_hash cx)) (cx_policy cx)) ≫= fun _ =>
  get ≫= fun s =>
  (if decide (is_Some (allocations_by_id s !! tk_target_allocation_id token)) then mret tt else
   allocate_turn_with_policy
     (token_allocation token cx (tk_target_allocation_id token) (tk_peer_hash token) (tk_identity_hash token)
        "media-relay-target-pending") (cx_policy cx)) ≫= fun _ =>
  get ≫= fun s =>
  if decide (is_Some (srtp_flows_by_id s !! tk_flow_id token)) then mret tt else
  bind_srtp_relay_flow (tk_flow_id token) (tk_allocation_id token) (tk_target_allocation_id token) (cx_now cx)
    (cx_policy cx) ≫= fun _ => mret tt.

(** ** Packets *)

Definition encode_turn_media_relay_packet (header : TurnMediaRelayToken) (payload : bytes)
  : result NodeCoreError bytes :=
  ok_or (header_json header) (ItestJson "header") ≫= fun header_bytes =>
  if decide (TURN_MEDIA_RELAY_HEADER_MAX_BYTES < length header_bytes)%nat
  then Err (ItestHttp "turn media relay header too large") else
  if decide (TURN_MEDIA_RELAY_PACKET_MAX_BYTES < 4 + length header_bytes + length payload)%nat
  then Err (ItestHttp "turn media relay packet too large") else
  Ok (u32_be (N.of_nat (length header_bytes)) ++ header_bytes ++ payload).

Definition decode_turn_media_relay_packet (packet : bytes) : result NodeCoreError (TurnMediaRelayToken * bytes) :=
  if decide (TURN_MEDIA_RELAY_PACKET_MAX_BYTES < length packet)%nat
  then Err (ItestHttp "turn media relay packet too large") else
  if decide (length packet < 4)%nat then Err (ItestHttp "turn media relay packet missing header") else
  let header_len := N.to_nat (be_to_N (take 4 packet)) in
  if decide (header_len = 0%nat \/ TURN_MEDIA_RELAY_HEADER_MAX_BYTES < header_len)%nat
  then Err (ItestHttp "turn media relay header length rejected") else
  if decide (length packet < 4 + header_len)%nat then Err (ItestHttp "turn media relay packet truncated") else
  ok_or (header_of_json (take header_len (drop 4 packet))) (ItestJson "header") ≫= fun header =>
  Ok (header, drop (4 + header_len) packet).

(** What the relay does with a packet while it holds the lock, and the address
    it then sends the payload to, if any. *)
Definition relay_media_packet (service_key : bytes) (relay_addr source_hash : string) (peer : SocketAddr)
    (packet : bytes) (now : N) (allow_private_targets : bool)
  : stres SignalingState NodeCoreError (option (SocketAddr * bytes)) :=
  lift (decode_turn_media_relay_packet packet) ≫= fun '(token, payload) =>
  ensure_turn_media_relay_state token (mkContext service_key source_hash relay_addr now default_policy) ≫= fun _ =>
  validate_turn_media_packet token peer (N.of_nat (length payload)) service_key now ≫= fun target_id =>
  get ≫= fun s =>
  match turn_allocation_source s target_id with
  | None => mret None
  | Some target =>
      if negb allow_private_targets && negb (relay_socket_target_allowed target []) then mret None
      else mret (Some (target, payload))
  end.
End mac.
