(* ===== verification/TurnProps.v ===== *)
(** * Call signaling and the media relay: theorems

    Quotas hold in every state of the relay, media stays within its call and
    between pinned addresses, credentials and usernames are unambiguous, and the
    target filter is the list of address blocks it stands for. *)

From stdpp Require Import pretty.
From S2P Require Import Prelude OrdMap Bytes Publication Wire Crypto Net Turn.
From Stdlib Require Import Strings.Ascii Strings.Byte.

Open Scope N_scope.

(** ** Bandwidth *)

Lemma sum_bandwidth_cons a l : sum_bandwidth (a :: l) = bandwidth_limit_bps a + sum_bandwidth l.
Proof. done. Qed.

Lemma sum_bandwidth_app l l' : sum_bandwidth (l ++ l') = sum_bandwidth l + sum_bandwidth l'.
Proof. induction l as [|a l IH]; [done|]. rewrite <- app_comm_cons, !sum_bandwidth_cons, IH. lia. Qed.

#[export] Instance sum_bandwidth_perm : Proper ((≡ₚ) ==> (=)) sum_bandwidth.
Proof. induction 1; rewrite ?sum_bandwidth_cons in *; lia. Qed.

(** ** Text *)

Fixpoint no_char (c : Ascii.ascii) (s : string) : bool :=
  match s with
  | EmptyString => true
  | String d s => bool_decide (d <> c) && no_char c s
  end.

Lemma split_on_none sep s : no_char sep s = true -> split_on sep s = [s].
Proof.
  induction s as [|c s IH]; [done|]. simpl. rewrite andb_true_iff, bool_decide_eq_true. intros [Hne Hs].
  by rewrite decide_False, IH.
Qed.

Lemma split_on_app sep s rest :
  no_char sep s = true -> split_on sep (s +:+ String sep rest) = s :: split_on sep rest.
Proof.
  induction s as [|c s IH]; simpl; [by rewrite decide_True|].
  rewrite andb_true_iff, bool_decide_eq_true. intros [Hne Hs]. by rewrite decide_False, IH.
Qed.

Lemma split_on_colon s rest :
  no_char ":" s = true -> split_on ":"%char (s +:+ ":" +:+ rest) = s :: split_on ":"%char rest.
Proof. apply split_on_app. Qed.

Lemma digit_value_pretty d : d < 10 -> digit_value (pretty_N_char d) = Some d.
Proof.
  intros Hd. assert (d = 0 \/ d = 1 \/ d = 2 \/ d = 3 \/ d = 4 \/ d = 5 \/ d = 6 \/ d = 7 \/ d = 8 \/ d = 9) as Hcase
    by lia. by repeat destruct Hcase as [->|Hcase]; subst.
Qed.

Lemma digits_value_pretty x s :
  x <= U64_MAX -> digits_value 0 (pretty_N_go x s) = digits_value x s.
Proof.
  revert s. induction (N.lt_wf_0 x) as [x _ IH]. intros s Hx.
  destruct (decide (x = 0)) as [->|Hne]; [by rewrite pretty_N_go_0|].
  rewrite pretty_N_go_step by lia.
  rewrite IH by (try apply N.div_lt; try (pose proof (N.Div0.div_le_upper_bound x 10 x)); lia).
  simpl. rewrite digit_value_pretty by (apply N.mod_lt; lia). simpl.
  replace (x / 10 * 10 + x mod 10) with x by (pose proof (N.div_mod' x 10); lia). by rewrite decide_True.
Qed.

Lemma no_char_pretty_go c x s :
  digit_value c = None -> no_char c s = true -> no_char c (pretty_N_go x s) = true.
Proof.
  intros Hc. revert s. induction (N.lt_wf_0 x) as [x _ IH]. intros s Hs.
  destruct (decide (x = 0)) as [->|Hne]; [by rewrite pretty_N_go_0|].
  rewrite pretty_N_go_step by lia. apply IH; [apply N.div_lt; lia|]. simpl.
  rewrite Hs, andb_true_r, bool_decide_eq_true. intros <-.
  by rewrite digit_value_pretty in Hc by (apply N.mod_lt; lia).
Qed.

Lemma pretty_number_spec n c :
  n <= U64_MAX -> digit_value c = None ->
  pretty n <> ""%string /\ no_char c (pretty n) = true /\ digits_value 0 (pretty n) = Some n.
Proof.
  intros Hn Hc. unfold pretty, pretty_N. case_decide as H0; [subst; split; [done|]; split; [|done]|].
  - simpl. rewrite andb_true_r, bool_decide_eq_true. by intros <-.
  - rewrite digits_value_pretty by done. split; [|split; [by apply no_char_pretty_go|done]].
    intros He. assert (digits_value 0 (pretty_N_go n "") = Some n) as Hd by by rewrite digits_value_pretty.
    rewrite He in Hd. simpl in Hd. congruence.
Qed.

Lemma parse_u64_pretty n : n <= U64_MAX -> parse_u64 (pretty n) = Some n.
Proof.
  intros Hn. destruct (pretty_number_spec n "+" Hn eq_refl) as (Hne & Hplus & Hd). unfold parse_u64.
  destruct (pretty n) as [|c rest]; [done|]. simpl in Hplus.
  apply andb_true_iff in Hplus as [Hc%bool_decide_eq_true _]. by rewrite decide_False.
Qed.

(** ** Quotas *)

Definition of_username (u : string) (l : list TurnAllocation) : nat :=
  length (filter (fun e => username_hash e = u) l).
Definition of_call (c : string) (l : list TurnAllocation) : list TurnAllocation :=
  filter (fun e => al_call_id e = c) l.
Definition flows_of (c : string) (l : list SrtpRelayFlow) : nat :=
  length (filter (fun f => call_session_id f = c /\ fl_state f = FlowActive) l).

Record quotas (policy : TurnQuotaPolicy) (s : SignalingState) : Prop := {
  qu_node : (length (allocations s) <= node_wide_max_allocations policy)%nat;
  qu_bandwidth : sum_bandwidth (allocations s) <= node_wide_bandwidth_bps policy;
  qu_username u : (of_username u (allocations s) <= max_allocations_per_username policy)%nat;
  qu_call c : (length (of_call c (allocations s)) <= max_allocations_per_call_session policy)%nat;
  qu_call_bandwidth c : sum_bandwidth (of_call c (allocations s)) <= call_session_bandwidth_bps policy;
  qu_flows c : (flows_of c (bt_values (srtp_flows_by_id s)) <= max_flows_per_call_session policy)%nat;
}.

(** Removing never breaks a quota. *)
Lemma quotas_shrink policy s s' :
  allocations_by_id s' ⊆ allocations_by_id s -> srtp_flows_by_id s' ⊆ srtp_flows_by_id s ->
  quotas policy s -> quotas policy s'.
Proof.
  intros (la & Ha)%bt_values_sub (lf & Hf)%bt_values_sub [H1 H2 H3 H4 H5 H6].
  unfold allocations, of_username, of_call, flows_of in *. rewrite Ha in H1, H2. rewrite length_app in H1.
  rewrite sum_bandwidth_app in H2. split; unfold of_username, of_call, flows_of, allocations; [lia|lia|intros c..].
  - specialize (H3 c). rewrite Ha, filter_app, length_app in H3. lia.
  - specialize (H4 c). rewrite Ha, filter_app, length_app in H4. lia.
  - specialize (H5 c). rewrite Ha, filter_app, sum_bandwidth_app in H5. lia.
  - specialize (H6 c). rewrite Hf, filter_app, length_app in H6. lia.
Qed.

(** An allocation that passes the quota check, whether or not it replaces one. *)
Lemma quotas_allocate policy s a :
  node_wide_bandwidth_bps policy < U64_MAX -> call_session_bandwidth_bps policy < U64_MAX ->
  enforce_allocation_quota s a policy = Ok tt ->
  quotas policy s -> quotas policy (set_allocations s (<[al_id a := a]> (allocations_by_id s))).
Proof.
  intros Hu1 Hu2. unfold enforce_allocation_quota. do 5 (case_decide; [done|]).
  intros _ Hq. pose proof (quotas_shrink _ _ (set_allocations s (delete (al_id a) (allocations_by_id s)))
    (delete_subseteq _ _) (reflexivity _) Hq) as [Q1 Q2 Q3 Q4 Q5 Q6].
  destruct (bt_values_sub (allocations_by_id s) (delete (al_id a) (allocations_by_id s))) as (l & Hl);
    [apply delete_subseteq|].
  assert (allocations (set_allocations s (<[al_id a := a]> (allocations_by_id s))) ≡ₚ
          a :: allocations (set_allocations s (delete (al_id a) (allocations_by_id s)))) as Hp.
  { unfold allocations. cbn. rewrite <- insert_delete_eq. apply bt_values_insert, lookup_delete_eq. }
  rewrite <- length_bt_values in *. unfold allocations in *. cbn [allocations_by_id set_allocations] in *.
  rewrite Hl, ?filter_app, ?length_app, ?sum_bandwidth_app in *. unfold u64_saturating_add in *.
  split; unfold of_username, of_call, allocations in *; [| |intros c..]; cbn [allocations_by_id set_allocations];
    rewrite ?Hp; try (rewrite filter_cons; case_decide; subst); rewrite ?sum_bandwidth_cons; simpl length; auto; lia.
Qed.

Lemma quotas_count policy s k a a' :
  allocations_by_id s !! k = Some a ->
  username_hash a' = username_hash a -> al_call_id a' = al_call_id a ->
  bandwidth_limit_bps a' = bandwidth_limit_bps a ->
  quotas policy s -> quotas policy (set_allocations s (<[k := a']> (allocations_by_id s))).
Proof.
  intros Hk Eu Ec Eb [H1 H2 H3 H4 H5 H6].
  destruct (bt_values_update _ _ _ a' Hk) as (l & Hl & Hl').
  unfold allocations, of_username, of_call in *. rewrite Hl in H1, H2.
  split; unfold allocations, of_username, of_call; cbn [allocations_by_id set_allocations]; [| |intros c..];
    rewrite ?Hl'; [done|by rewrite sum_bandwidth_cons, Eb| | | |done].
  - specialize (H3 c). rewrite Hl, filter_cons in H3. rewrite filter_cons, Eu. by case_decide.
  - specialize (H4 c). rewrite Hl, filter_cons in H4. rewrite filter_cons, Ec. by case_decide.
  - specialize (H5 c). rewrite Hl, filter_cons in H5. rewrite filter_cons, Ec.
    case_decide; rewrite ?sum_bandwidth_cons, ?Eb in *; done.
Qed.

Lemma quotas_flows policy s m :
  quotas policy s -> (forall c, (flows_of c (bt_values m) <= max_flows_per_call_session policy)%nat) ->
  quotas policy (set_flows s m).
Proof. by intros [H1 H2 H3 H4 H5 _] H6. Qed.

Lemma flows_of_update s k f f' c :
  srtp_flows_by_id s !! k = Some f -> call_session_id f' = call_session_id f -> fl_state f' = fl_state f ->
  flows_of c (bt_values (<[k := f']> (srtp_flows_by_id s))) = flows_of c (bt_values (srtp_flows_by_id s)).
Proof.
  intros Hk Ec Es. destruct (bt_values_update _ _ _ f' Hk) as (l & Hl & Hl').
  unfold flows_of. rewrite Hl, Hl', !filter_cons, Ec, Es. by case_decide.
Qed.

Lemma flows_of_insert s k f c :
  (flows_of c (bt_values (<[k := f]> (srtp_flows_by_id s))) <=
   (if decide (call_session_id f = c) then 1 else 0) + flows_of c (bt_values (srtp_flows_by_id s)))%nat.
Proof.
  destruct (bt_values_sub (srtp_flows_by_id s) (delete k (srtp_flows_by_id s))) as (l & Hl);
    [apply delete_subseteq|].
  unfold flows_of. rewrite Hl, filter_app, length_app, <- insert_delete_eq, bt_values_insert, filter_cons
    by apply lookup_delete_eq.
  repeat case_decide; simpl; try lia. naive_solver.
Qed.

(** ** What expiry removes *)

Definition drop_allocation (s : SignalingState) (id : string) : SignalingState :=
  set_sources (set_allocations s (delete id (allocations_by_id s))) (delete id (turn_allocation_sources s)).

Lemma drop_allocations_spec l : forall s,
  let s' := foldl drop_allocation s l in
  calls_by_id s' = calls_by_id s /\ srtp_flows_by_id s' = srtp_flows_by_id s /\
  (forall k, allocations_by_id s' !! k = if decide (k ∈ l) then None else allocations_by_id s !! k) /\
  (forall k, turn_allocation_sources s' !! k = if decide (k ∈ l) then None else turn_allocation_sources s !! k).
Proof.
  induction l as [|id l IH]; intros s; cbn [foldl].
  - split_and!; [done..| |]; intros k; by rewrite decide_False by apply not_elem_of_nil.
  - destruct (IH (drop_allocation s id)) as (-> & -> & Ha & Hs). split_and!; [done..| |]; intros k;
      rewrite ?Ha, ?Hs; cbn; destruct (decide (k = id)) as [->|Hne];
      [rewrite lookup_delete_eq|rewrite lookup_delete_ne by done|
       rewrite lookup_delete_eq|rewrite lookup_delete_ne by done];
      repeat case_decide; set_solver.
Qed.

Definition expired_ids (s : SignalingState) (now : N) : list string :=
  (filter (fun p => al_expires_at p.2 <= now) (bt_entries (allocations_by_id s))).*1.

Lemma elem_of_expired_ids s now k :
  k ∈ expired_ids s now <-> exists a, allocations_by_id s !! k = Some a /\ al_expires_at a <= now.
Proof.
  unfold expired_ids. rewrite list_elem_of_fmap. setoid_rewrite list_elem_of_filter.
  setoid_rewrite bt_entries_perm. split.
  - intros ([k' a] & -> & Hle & Hin%elem_of_map_to_list). eauto.
  - intros (a & Ha & Hle). exists (k, a). split; [done|]. split; [done|]. by apply elem_of_map_to_list.
Qed.

Lemma expire_spec s now :
  let s' := (expire_turn_media_state s now).1 in
  calls_by_id s' = calls_by_id s /\
  (forall k a, allocations_by_id s' !! k = Some a <-> allocations_by_id s !! k = Some a /\ now < al_expires_at a) /\
  (forall k, turn_allocation_sources s' !! k =
     if decide (k ∈ expired_ids s now) then None else turn_allocation_sources s !! k) /\
  (forall k f, srtp_flows_by_id s' !! k = Some f <->
     srtp_flows_by_id s !! k = Some f /\ now < fl_expires_at f /\
     is_Some (allocations_by_id s' !! allocation_id_a f) /\ is_Some (allocations_by_id s' !! allocation_id_b f)).
Proof.
  unfold expire_turn_media_state. fold (expired_ids s now). fold drop_allocation.
  destruct (drop_allocations_spec (expired_ids s now) s) as (Hc & Hf & Ha & Hs). cbn.
  split; [done|]. split; [|split; [done|]].
  - intros k a. rewrite Ha. case_decide as Hin; rewrite elem_of_expired_ids in Hin.
    + split; [done|]. intros [Hk Hlt]. destruct Hin as (a' & Hk' & Hle). simplify_eq. lia.
    + split; [|by intros []]. intros Hk. split; [done|]. apply N.nle_gt. naive_solver.
  - intros k f. rewrite map_lookup_filter_Some, Hf. done.
Qed.

(** ** The operations *)

Section operations.
Context `{!Primitives} (token_json : TurnMediaRelayToken -> option bytes).

Inductive SignalingOp :=
| OpSubmit (session : OpaqueCallSession)
| OpActivate (id : string)
| OpAttempt (identity source_ip : string) (now : N)
| OpAllocate (allocation : TurnAllocation)
| OpBind (id a b : string) (now : N)
| OpRelay (id from : string) (len now : N)
| OpSource (id : string) (addr : SocketAddr)
| OpEnsure (token : TurnMediaRelayToken) (key : bytes) (source_hash relay_addr : string) (now : N)
| OpPacket (token : TurnMediaRelayToken) (addr : SocketAddr) (len : N) (key : bytes) (now : N)
| OpCredential (username password : string) (key : bytes) (now : N)
| OpExpire (now : N).

(** The state after an operation, whether it succeeds or not. *)
Definition exec (policy : TurnQuotaPolicy) (s : SignalingState) (op : SignalingOp) : SignalingState :=
  match op with
  | OpSubmit session => submit_opaque_call_envelope s session
  | OpActivate id => (activate_call id s).1
  | OpAttempt i a now => (record_allocate_attempt i a now policy s).1
  | OpAllocate a => (allocate_turn_with_policy a policy s).1
  | OpBind id a b now => (bind_srtp_relay_flow id a b now policy s).1
  | OpRelay id from len now => (relay_srtp_packet id from len now s).1
  | OpSource id addr => (validate_or_bind_turn_allocation_source id addr s).1
  | OpEnsure t key h r now => (ensure_turn_media_relay_state token_json t (mkContext key h r now policy) s).1
  | OpPacket t addr len key now => (validate_turn_media_packet token_json t addr len key now s).1
  | OpCredential u p key now => (validate_turn_credential u p key now s).1
  | OpExpire now => (expire_turn_media_state s now).1
  end.

Section bounded.
Variable policy : TurnQuotaPolicy.
Hypothesis node_below : node_wide_bandwidth_bps policy < U64_MAX.
Hypothesis call_below : call_session_bandwidth_bps policy < U64_MAX.

Lemma quotas_frame s s' :
  allocations_by_id s' = allocations_by_id s -> srtp_flows_by_id s' = srtp_flows_by_id s ->
  quotas policy s -> quotas policy s'.
Proof. intros Ha Hf. apply quotas_shrink; by rewrite ?Ha, ?Hf. Qed.

Ltac unquoted :=
  first [done|match goal with H : quotas policy ?s |- _ => apply (quotas_frame s); [done|done|exact H] end].

Lemma allocate_keeps_quotas a : keeps (quotas policy) (allocate_turn_with_policy a policy).
Proof.
  intros s Hs. unfold allocate_turn_with_policy. case_match; [|done]. do 3 (case_decide; [done|]).
  destruct (enforce_allocation_quota s a policy) as [[]|] eqn:Hq; [|done]. by apply quotas_allocate.
Qed.

Lemma bind_keeps_quotas id a b now : keeps (quotas policy) (bind_srtp_relay_flow id a b now policy).
Proof.
  intros s Hs. unfold bind_srtp_relay_flow. do 2 (case_match; [|done]). case_decide; [done|].
  destruct (calls_by_id s !! _) as [call|]; [|done]. do 2 (case_decide; [done|]).
  apply quotas_flows; [done|]. intros c. etrans; [apply flows_of_insert|]. cbn.
  pose proof (qu_flows _ _ Hs c). destruct (decide (call_id call = c)) as [<-|]; [|done].
  unfold active_flows in *. fold (flows_of (call_id call) (bt_values (srtp_flows_by_id s))) in *. lia.
Qed.

Lemma relay_keeps_quotas id from len now : keeps (quotas policy) (relay_srtp_packet id from len now).
Proof.
  intros s Hs. unfold relay_srtp_packet. destruct (srtp_flows_by_id s !! id) as [f|] eqn:Hf; [|done].
  case_decide; [done|].
  assert (forall f', call_session_id f' = call_session_id f -> fl_state f' = fl_state f ->
    quotas policy (set_flows s (<[id := f']> (srtp_flows_by_id s)))) as Hq.
  { intros f' Ec Es. apply quotas_flows; [done|]. intros c. rewrite (flows_of_update _ _ _ _ _ Hf Ec Es). apply Hs. }
  repeat case_decide; [| |done]; cbn [fst]; case_match; try by apply Hq.
  all: eapply quotas_count; [done..|by apply Hq].
Qed.

Lemma source_keeps_quotas id addr : keeps (quotas policy) (validate_or_bind_turn_allocation_source id addr).
Proof. intros s Hs. unfold validate_or_bind_turn_allocation_source. repeat case_match; unquoted. Qed.

Lemma packet_keeps_quotas t addr len key now :
  keeps (quotas policy) (validate_turn_media_packet token_json t addr len key now).
Proof.
  intros s Hs. unfold validate_turn_media_packet. case_match; [|done].
  apply (keeps_bind (quotas policy)); [apply source_keeps_quotas|intros _; apply relay_keeps_quotas|done].
Qed.

Lemma ensure_keeps_quotas t key h r now :
  keeps (quotas policy) (ensure_turn_media_relay_state token_json t (mkContext key h r now policy)).
Proof.
  unfold ensure_turn_media_relay_state. cbn [cx_policy].
  apply keeps_bind; [apply keeps_lift|intros _]. apply keeps_bind; [|intros _].
  { intros s Hs. unfold modify. cbn [fst]. case_decide; unquoted. }
  do 2 (apply keeps_bind; [apply keeps_get|intros ?]; apply keeps_bind;
    [case_decide; [apply keeps_ret|apply allocate_keeps_quotas]|intros _]).
  apply keeps_bind; [apply keeps_get|intros s]. case_decide; [apply keeps_ret|].
  apply keeps_bind; [apply bind_keeps_quotas|intros ?; apply keeps_ret].
Qed.

Lemma expire_keeps_quotas s now : quotas policy s -> quotas policy (expire_turn_media_state s now).1.
Proof.
  destruct (expire_spec s now) as (_ & Ha & _ & Hf). apply quotas_shrink; apply map_subseteq_spec; naive_solver.
Qed.

Lemma exec_keeps_quotas s op : quotas policy s -> quotas policy (exec policy s op).
Proof.
  intros Hs. destruct op; cbn [exec].
  - unquoted.
  - unfold activate_call. case_match; unquoted.
  - unfold record_allocate_attempt. repeat case_match; unquoted.
  - by apply allocate_keeps_quotas.
  - by apply bind_keeps_quotas.
  - by apply relay_keeps_quotas.
  - by apply source_keeps_quotas.
  - by apply ensure_keeps_quotas.
  - by apply packet_keeps_quotas.
  - unfold validate_turn_credential. repeat case_match; unquoted.
  - by apply expire_keeps_quotas.
Qed.
End bounded.

(** ** What a media relay keeps *)

Definition flow_ok (s : SignalingState) (f : SrtpRelayFlow) : Prop :=
  allocation_id_a f <> allocation_id_b f /\
  exists a b, allocations_by_id s !! allocation_id_a f = Some a /\ allocations_by_id s !! allocation_id_b f = Some b /\
    al_call_id a = call_session_id f /\ al_call_id b = call_session_id f /\
    fl_expires_at f <= al_expires_at a /\ fl_expires_at f <= al_expires_at b.

Record relay_inv (s : SignalingState) : Prop := {
  ri_calls k c : calls_by_id s !! k = Some c -> call_id c = k;
  ri_flows k f : srtp_flows_by_id s !! k = Some f -> flow_ok s f;
  ri_sources k : is_Some (turn_allocation_sources s !! k) -> is_Some (allocations_by_id s !! k);
}.

(** Allocations may be added, and counters of one may change. *)
Lemma relay_inv_allocations s m :
  (forall k a, allocations_by_id s !! k = Some a ->
     exists a', m !! k = Some a' /\ al_call_id a' = al_call_id a /\ al_expires_at a' = al_expires_at a) ->
  relay_inv s -> relay_inv (set_allocations s m).
Proof.
  intros Hm [Hc Hf Hs]. split; [done| |].
  - intros k f Hk. destruct (Hf k f Hk) as (Hne & a & b & (a' & Ha & Ea & Xa)%Hm & (b' & Hb & Eb & Xb)%Hm & Hrest).
    split; [done|]. exists a', b'. by rewrite Ea, Xa, Eb, Xb.
  - intros k Hk. destruct (Hs k Hk) as (a & (a' & Ha & _)%Hm). eauto.
Qed.

Lemma relay_inv_flow s k f : flow_ok s f -> relay_inv s -> relay_inv (set_flows s (<[k := f]> (srtp_flows_by_id s))).
Proof. intros Hok [Hc Hf Hs]. split; [done| |done]. cbn. intros k' f'. rewrite lookup_insert_Some. naive_solver. Qed.

Lemma allocate_keeps_relay a policy s :
  allocations_by_id s !! al_id a = None -> relay_inv s -> relay_inv (allocate_turn_with_policy a policy s).1.
Proof.
  intros Hnew Hs. unfold allocate_turn_with_policy. repeat (case_match; try done).
  apply relay_inv_allocations; [|done]. intros k a' Hk. exists a'. by rewrite lookup_insert_ne by congruence.
Qed.

Lemma bind_keeps_relay id a b now policy :
  a <> b -> keeps relay_inv (bind_srtp_relay_flow id a b now policy).
Proof.
  intros Hne s Hs. unfold bind_srtp_relay_flow. destruct (allocations_by_id s !! a) as [la|] eqn:Ha; [|done].
  destruct (allocations_by_id s !! b) as [lb|] eqn:Hb; [|done]. case_decide as Hcall; [done|].
  destruct (calls_by_id s !! al_call_id la) as [call|] eqn:Hc; [|done]. do 2 (case_decide; [done|]).
  apply relay_inv_flow; [|done]. split; [done|]. exists la, lb. apply (ri_calls _ Hs) in Hc. cbn.
  split_and!; [done..|congruence|congruence|lia|lia].
Qed.

Lemma relay_keeps_relay id from len now : keeps relay_inv (relay_srtp_packet id from len now).
Proof.
  intros s Hs. unfold relay_srtp_packet. destruct (srtp_flows_by_id s !! id) as [f|] eqn:Hf; [|done].
  case_decide; [done|]. pose proof (ri_flows _ Hs _ _ Hf) as Hok.
  assert (forall s a, allocations_by_id s !! from = Some a -> relay_inv s ->
    relay_inv (set_allocations s (<[from := count_relayed a len]> (allocations_by_id s)))) as Hcount.
  { intros s0 a Ha. apply relay_inv_allocations. intros k a' Hk.
    destruct (decide (k = from)) as [->|Hne]; [|rewrite lookup_insert_ne by done; eauto].
    rewrite lookup_insert_eq. simplify_eq. by eexists. }
  repeat case_decide; [| |done]; cbn [fst]; case_match; try by apply relay_inv_flow.
  all: apply Hcount; [done|]; by apply relay_inv_flow.
Qed.

Lemma source_keeps_relay id addr s :
  is_Some (allocations_by_id s !! id) -> relay_inv s ->
  relay_inv (validate_or_bind_turn_allocation_source id addr s).1.
Proof.
  intros Hid Hs. unfold validate_or_bind_turn_allocation_source. repeat (case_match; try done).
  destruct Hs as [Hc Hf Hsrc]. split; [done|done|]. cbn. intros k. rewrite lookup_insert_is_Some. naive_solver.
Qed.

Lemma validate_outcome s t key now :
  validate_turn_media_relay_token token_json s t key now = Ok tt ->
  tk_issued_at t <= now < tk_expires_at t /\ check_mac token_json key t = Ok tt /\
  exists a, allocations_by_id s !! tk_allocation_id t = Some a /\
    identity_hash a = tk_identity_hash t /\ peer_hash a = tk_peer_hash t.
Proof.
  unfold validate_turn_media_relay_token. case_decide; [done|]. rewrite bind_Ok. intros ([] & Hmac & Hv).
  split; [lia|]. split; [done|]. case_match; [|done]. do 2 (case_decide; [done|]). eexists. split; [done|].
  split; apply dec_stable; tauto.
Qed.

Lemma packet_keeps_relay t addr len key now :
  keeps relay_inv (validate_turn_media_packet token_json t addr len key now).
Proof.
  intros s Hs. unfold validate_turn_media_packet.
  destruct (validate_turn_media_relay_token token_json s t key now) as [[]|] eqn:Hv; [|done].
  apply validate_outcome in Hv as (_ & _ & a & Ha & _).
  pose proof (source_keeps_relay _ addr s (mk_is_Some _ _ Ha) Hs) as Hs1. unfold mbind, stres_bind.
  destruct (validate_or_bind_turn_allocation_source _ addr s) as [s1 [[]|]]; [|done]. by apply relay_keeps_relay.
Qed.

Lemma ensure_keeps_relay t cx : keeps relay_inv (ensure_turn_media_relay_state token_json t cx).
Proof.
  unfold ensure_turn_media_relay_state. apply keeps_lift_bind. intros [] Hsig.
  assert (tk_allocation_id t <> tk_target_allocation_id t) as Hne.
  { unfold validate_turn_media_relay_token_signature in Hsig. by repeat (case_decide; [done|]). }
  apply keeps_bind; [|intros _].
  { intros s Hs. unfold modify. cbn. case_decide; [done|]. destruct Hs as [Hc Hf Hsrc]. split; [|done..].
    cbn. intros k c. rewrite lookup_insert_Some. naive_solver. }
  do 2 (apply keeps_get_bind; intros ? ?; apply keeps_at; [|intros _];
    [case_decide; [done|]; apply allocate_keeps_relay; [by apply eq_None_not_Some|done]|]).
  apply keeps_bind; [apply keeps_get|intros ?]. case_decide; [apply keeps_ret|].
  apply keeps_bind; [by apply bind_keeps_relay|intros ?; apply keeps_ret].
Qed.

Definition ends (f : SrtpRelayFlow) (from target : string) : Prop :=
  (allocation_id_a f = from /\ allocation_id_b f = target) \/ (allocation_id_b f = from /\ allocation_id_a f = target).

Lemma count_relayed_lookup (m : gmap string TurnAllocation) from al len k a :
  m !! from = Some al -> m !! k = Some a ->
  exists a', <[from := count_relayed al len]> m !! k = Some a' /\ identity_hash a' = identity_hash a /\
    peer_hash a' = peer_hash a.
Proof.
  intros Hal Hk. destruct (decide (k = from)) as [->|Hne]; [|rewrite lookup_insert_ne by done; eauto].
  rewrite lookup_insert_eq. simplify_eq. by eexists.
Qed.

Lemma relay_srtp_outcome id from len now s s' target :
  relay_srtp_packet id from len now s = (s', Ok target) ->
  turn_allocation_sources s' = turn_allocation_sources s /\
  (exists f, srtp_flows_by_id s' !! id = Some f /\ fl_state f = FlowActive /\ now < fl_expires_at f /\ ends f from target) /\
  (forall k a, allocations_by_id s !! k = Some a ->
     exists a', allocations_by_id s' !! k = Some a' /\ identity_hash a' = identity_hash a /\ peer_hash a' = peer_hash a).
Proof.
  unfold relay_srtp_packet. destruct (srtp_flows_by_id s !! id) as [f|] eqn:Hf; [|done]. case_decide as Hlive; [done|].
  assert (fl_state f = FlowActive /\ now < fl_expires_at f) as [Hact Hexp]
    by (split; [apply dec_stable; tauto|apply N.nle_gt; tauto]).
  repeat case_decide; [| |done]; subst from; cbn [set_flows allocations_by_id];
    destruct (allocations_by_id s !! _) as [al|] eqn:Hal; intros [= <- <-]; cbn; (split; [done|]; split;
      [eexists; split; [apply lookup_insert_eq|]; cbn; split_and!; [done..|]; unfold ends; cbn; tauto|]);
    intros k a Hk; first [by apply (count_relayed_lookup _ _ al)|by eexists].
Qed.

Lemma source_outcome id addr s s' :
  validate_or_bind_turn_allocation_source id addr s = (s', Ok tt) ->
  turn_allocation_sources s' !! id = Some addr /\ allocations_by_id s' = allocations_by_id s.
Proof.
  unfold validate_or_bind_turn_allocation_source. case_match eqn:Hb; [case_decide as Hne; [done|]|]; intros [= <-]; cbn.
  - by rewrite Hb, Hne.
  - by rewrite lookup_insert_eq.
Qed.

(** ** The relay *)

Section relay.
Variable header_of_json : bytes -> option TurnMediaRelayToken.

Inductive RelayOp :=
| MediaPacket (key : bytes) (relay_addr source_hash : string) (peer : SocketAddr) (packet : bytes) (now : N)
    (allow_private : bool)
| MediaExpiry (now : N).

Definition relay_exec (s : SignalingState) (op : RelayOp) : SignalingState :=
  match op with
  | MediaPacket key ra sh peer packet now ap =>
      (relay_media_packet token_json header_of_json key ra sh peer packet now ap s).1
  | MediaExpiry now => (expire_turn_media_state s now).1
  end.

Lemma expire_keeps_relay s now : relay_inv s -> relay_inv (expire_turn_media_state s now).1.
Proof.
  destruct (expire_spec s now) as (Hcalls & Ha & Hs & Hf). intros [Hc Hfl Hsrc].
  split; [by rewrite Hcalls| |].
  - intros k f (Hk & _ & [a' Ha'] & [b' Hb'])%Hf.
    destruct (Hfl k f Hk) as (Hne & a & b & Hla & Hlb & Hrest). split; [done|]. exists a, b.
    split; [|split; [|done]]; [rewrite Ha'|rewrite Hb'].
    + apply Ha in Ha' as [Ha' _]. by simplify_eq.
    + apply Ha in Hb' as [Hb' _]. by simplify_eq.
  - intros k. rewrite Hs. case_decide as Hin; [by intros []|]. intros [a Hk]%Hsrc. exists a. apply Ha.
    split; [done|]. apply N.nle_gt. intros Hle. apply Hin, elem_of_expired_ids. eauto.
Qed.

Lemma relay_exec_keeps s op : relay_inv s -> relay_inv (relay_exec s op).
Proof.
  destruct op as [key ra sh peer packet now ap|now]; cbn [relay_exec]; [|apply expire_keeps_relay].
  apply (keeps_bind relay_inv); [apply keeps_lift|intros [t payload]].
  apply keeps_bind; [apply ensure_keeps_relay|intros _].
  apply keeps_bind; [apply packet_keeps_relay|intros id].
  apply keeps_get_bind. intros s1 Hs1. by repeat case_match.
Qed.

Lemma relay_inv_new : relay_inv signaling_new.
Proof. split; cbn; [intros k c|intros k f|intros k]; rewrite lookup_empty; [done..|by intros []]. Qed.

Lemma relay_run_inv ops : relay_inv (foldl relay_exec signaling_new ops).
Proof.
  apply foldl_keeps; [apply relay_exec_keeps|apply relay_inv_new].
Qed.

Lemma flow_ok_ends s f from target :
  flow_ok s f -> ends f from target ->
  target <> from /\ exists a b, allocations_by_id s !! from = Some a /\ allocations_by_id s !! target = Some b /\
    al_call_id a = call_session_id f /\ al_call_id b = call_session_id f /\
    fl_expires_at f <= al_expires_at a /\ fl_expires_at f <= al_expires_at b.
Proof. intros (Hne & a & b & H1) [[<- <-]|[<- <-]]; (split; [done|]); [exists a, b|exists b, a]; tauto. Qed.

(** What is known of the packet [relay_media_packet] forwards to [target]. *)
Record forwarded (key packet payload : bytes) (now : N) (peer target : SocketAddr) (allow_private : bool)
    (s : SignalingState) (token : TurnMediaRelayToken) (flow : SrtpRelayFlow) (a b : TurnAllocation) (id_b : string)
  : Prop := {
  fw_packet : decode_turn_media_relay_packet header_of_json packet = Ok (token, payload);
  fw_mac : check_mac token_json key token = Ok tt;
  fw_time : tk_issued_at token <= now < tk_expires_at token;
  fw_flow : srtp_flows_by_id s !! tk_flow_id token = Some flow;
  fw_live : fl_state flow = FlowActive /\ now < fl_expires_at flow;
  fw_ends : ends flow (tk_allocation_id token) id_b /\ id_b <> tk_allocation_id token;
  fw_source : allocations_by_id s !! tk_allocation_id token = Some a;
  fw_target : allocations_by_id s !! id_b = Some b;
  fw_call : al_call_id a = call_session_id flow /\ al_call_id b = call_session_id flow;
  fw_allocated : now < al_expires_at a /\ now < al_expires_at b;
  fw_owner : identity_hash a = tk_identity_hash token /\ peer_hash a = tk_peer_hash token;
  fw_from : turn_allocation_sources s !! tk_allocation_id token = Some peer;
  fw_to : turn_allocation_sources s !! id_b = Some target;
  fw_public : allow_private = false -> relay_socket_target_allowed target [] = true;
}.

Lemma forwarded_in_call key ra sh peer packet now ap s s' target payload :
  relay_inv s ->
  relay_media_packet token_json header_of_json key ra sh peer packet now ap s = (s', Ok (Some (target, payload))) ->
  exists token flow a b id_b, forwarded key packet payload now peer target ap s' token flow a b id_b.
Proof.
  intros Hs Hrun. pose proof (relay_exec_keeps s (MediaPacket key ra sh peer packet now ap) Hs) as Hs'.
  cbn [relay_exec] in Hs'. rewrite Hrun in Hs'. cbn in Hs'.
  apply stres_bind_inv in Hrun as (s0 & [token p] & [= -> Hdec] & Hrun).
  apply stres_bind_inv in Hrun as (s1 & [] & _ & Hrun).
  apply stres_bind_inv in Hrun as (s2 & id_b & Hval & Hrun).
  apply stres_bind_inv in Hrun as (s4 & s5 & [= <- <-] & Hrun).
  unfold validate_turn_media_packet in Hval. 
  destruct (validate_turn_media_relay_token token_json s1 token key now) as [[]|] eqn:Hv; [|done].
  apply validate_outcome in Hv as (Htime & Hmac & a1 & Ha1 & Howner & Hpeer).
  apply stres_bind_inv in Hval as (s3 & [] & Hsrc & Hrel). apply source_outcome in Hsrc as (Hsrc & Halloc).
  apply relay_srtp_outcome in Hrel as (Hss & (f & Hf & Hact & Hlive & Hends) & Hal).
  rewrite <- Halloc in Ha1. apply Hal in Ha1 as (a & Ha & Hia & Hpa).
  destruct (turn_allocation_source s2 id_b) as [tg|] eqn:Ht; [|done].
  destruct (_ && _) eqn:Hpub in Hrun; [done|]. injection Hrun as -> -> ->.
  destruct (flow_ok_ends _ _ _ _ (ri_flows _ Hs' _ _ Hf) Hends) as (Hne & x & b & Hx & Hb & Hcx & Hcb & Hex & Heb).
  assert (x = a) as -> by congruence. exists token, f, a, b, id_b.
  split; try done; try lia; [split; congruence|by rewrite Hss|].
  intros ->. by destruct (relay_socket_target_allowed target []).
Qed.

(** C8: whatever packets a media relay handled before, and whenever it expired
    its state, it forwards a packet only if the packet carries a token with a
    valid MAC, used within its time by the owner of its allocation; the payload
    then goes from the address pinned to that allocation to the address pinned
    to the other end of a live flow, both ends being live allocations of the
    flow's call, and to no refused target. *)
Theorem media_confined ops key ra sh peer packet now allow_private s' target payload :
  relay_media_packet token_json header_of_json key ra sh peer packet now allow_private
    (foldl relay_exec signaling_new ops) = (s', Ok (Some (target, payload))) ->
  exists token flow a b id_b,
    forwarded key packet payload now peer target allow_private s' token flow a b id_b.
Proof. apply forwarded_in_call, relay_run_inv. Qed.

End relay.

(** ** Credentials *)

(** When a credential of a call stops being accepted. *)
Definition credential_deadline (parts : TurnCredentialParts) (call : OpaqueCallSession) : N :=
  N.min (u64_saturating_add (issued_at parts) DEFAULT_TURN_CREDENTIAL_TTL_SECS) (call_expires_at call).

Definition nonce_key (parts : TurnCredentialParts) : string :=
  call_session_id_hash parts +:+ ":" +:+ device_id_hash parts +:+ ":" +:+ nonce parts.

(** All the checks of a credential before the replay cache. *)
Lemma credential_accepted username password key now s s1 parts :
  validate_turn_credential username password key now s = (s1, Ok parts) ->
  exists call, calls_by_id s !! call_session_id_hash parts = Some call /\
    calls_by_id s1 = calls_by_id s /\ issued_at parts <= now <= credential_deadline parts call /\
    seen_nonce_expires_at (turn_replay_cache s1) !! nonce_key parts = Some (credential_deadline parts call) /\
    (forall now', issued_at parts <= now' <= credential_deadline parts call -> now' < call_expires_at call ->
       forall s', calls_by_id s' = calls_by_id s ->
       validate_turn_credential username password key now' s' =
       match accept_once (nonce_key parts) (credential_deadline parts call) now' (turn_replay_cache s') with
       | (c, Err e) => (set_cache s' c, Err e)
       | (c, Ok _) => (set_cache s' c, Ok parts)
       end).
Proof.
  unfold validate_turn_credential. destruct (parse_turn_username username) as [p|]; [|done].
  destruct (calls_by_id s !! call_session_id_hash p) as [call|] eqn:Hcall; [|done].
  fold (credential_deadline p call). fold (nonce_key p).
  case_decide as Hlive; [done|]. case_decide as Htime; [done|]. destruct (turn_credential_password key username) as [e|]; [|done].
  destruct (negb _) eqn:Hmac; [done|].
  destruct (accept_once _ _ now _) as [c [[]|]] eqn:Hacc; [|done]. intros [= <- <-]. exists call.
  split; [done|]. split; [done|]. split; [lia|]. split.
  - revert Hacc. unfold accept_once. case_decide; [done|]. intros [= <-]. apply lookup_insert_eq.
  - intros now' Hnow Hexp s' ->. rewrite Hcall. fold (credential_deadline p call).
    rewrite !decide_False by (first [lia|intros [Hl|Hl]; [tauto|lia]]). done.
Qed.

Lemma accept_once_seen k e e' now c :
  seen_nonce_expires_at c !! k = Some e' -> now < e' ->
  (accept_once k e now c).2 = Err (ReplayGuardError "turn credential nonce replay").
Proof.
  intros Hk Hlt. unfold accept_once. rewrite decide_True; [done|]. exists e'. cbn.
  by rewrite map_lookup_filter_Some.
Qed.

Lemma accept_once_expired k e e' now c :
  seen_nonce_expires_at c !! k = Some e' -> e' <= now -> (accept_once k e now c).2 = Ok tt.
Proof.
  intros Hk Hle. unfold accept_once. rewrite decide_False; [done|]. cbn. intros [e2 He2].
  apply map_lookup_filter_Some in He2 as [H1 H2]. cbn in H2. rewrite Hk in H1. injection H1 as ->. lia.
Qed.

(** ** Tokens *)

Lemma constant_time_eq_spec l r : constant_time_eq l r = bool_decide (l = r).
Proof.
  unfold constant_time_eq. case_decide as Hlen; [symmetry; apply bool_decide_eq_false; congruence|].
  apply bool_decide_ext.
  enough (forall acc, foldl (fun acc p => N.lor acc (N.lxor (Byte.to_N p.1) (Byte.to_N p.2))) acc (zip l r) = 0 <->
    acc = 0 /\ l = r) as He by (rewrite He; tauto).
  revert r Hlen. induction l as [|a l IH]; intros [|b r] Hlen acc; simplify_eq/=; [naive_solver|].
  rewrite IH, N.lor_eq_0_iff, N.lxor_eq_0_iff by done. split; [|naive_solver].
  intros [[-> Hab] ->]. split; [done|]. f_equal. apply (f_equal Byte.of_N) in Hab.
  rewrite !Byte.of_to_N in Hab. congruence.
Qed.

Lemma sign_check key token signed :
  sign_turn_media_relay_token token_json key token = Ok signed -> check_mac token_json key signed = Ok tt.
Proof.
  unfold sign_turn_media_relay_token. rewrite bind_Ok. intros (mac & Hmac & [= <-]). unfold check_mac.
  change (turn_media_relay_token_mac token_json key (clear_mac token mac))
    with (turn_media_relay_token_mac token_json key (clear_mac token "")).
  rewrite Hmac. cbn. by rewrite constant_time_eq_spec, bool_decide_eq_true_2.
Qed.

(** ** Theorems *)

(** C13: in every state that operations on an empty signaling state reach, with
    any arguments and in any order, the allocations of the node, of a username
    and of a call, the bandwidth promised in total and per call, and the active
    flows of a call stay within the policy. So the sums of bandwidths the code
    takes never overflow. *)
Theorem turn_quotas_hold policy ops :
  node_wide_bandwidth_bps policy < U64_MAX -> call_session_bandwidth_bps policy < U64_MAX ->
  quotas policy (foldl (exec policy) signaling_new ops).
Proof.
  intros Hn Hc. apply foldl_keeps; [by apply exec_keeps_quotas|].
  assert (allocations signaling_new = [] /\ bt_values (srtp_flows_by_id signaling_new) = []) as [Ha Hf] by done.
  split; rewrite ?Ha, ?Hf; [| |intros c..]; rewrite ?Ha, ?Hf; cbn; lia.
Qed.

(** C35: an accepted credential is refused as a replay at any time before its
    deadline, but is accepted once more at the deadline itself: the cache has
    dropped the nonce that the credential check still lets through. *)
Theorem credential_replayed_at_deadline username password key now s s1 parts call :
  validate_turn_credential username password key now s = (s1, Ok parts) ->
  calls_by_id s !! call_session_id_hash parts = Some call ->
  (forall now', issued_at parts <= now' < credential_deadline parts call ->
     (validate_turn_credential username password key now' s1).2 =
     Err (ReplayGuardError "turn credential nonce replay")) /\
  (credential_deadline parts call < call_expires_at call ->
     (validate_turn_credential username password key (credential_deadline parts call) s1).2 = Ok parts).
Proof.
  intros (call' & Hcall & Hcalls & Hnow & Hseen & Hnext)%credential_accepted Hcall'.
  rewrite Hcall in Hcall'. injection Hcall' as ->.
  assert (credential_deadline parts call <= call_expires_at call) as Hle by apply N.le_min_r. split.
  - intros now' Hnow'. rewrite Hnext by (done || lia).
    pose proof (accept_once_seen _ (credential_deadline parts call) _ now' _ Hseen ltac:(lia)) as Hr.
    destruct (accept_once _ _ _ _) as [c [|e]]; cbn in *; congruence.
  - intros Hlt. rewrite Hnext by (done || lia).
    pose proof (accept_once_expired _ (credential_deadline parts call) _ _ _ Hseen (N.le_refl _)) as Hr.
    destruct (accept_once _ _ _ _) as [c [|e]]; cbn in *; congruence.
Qed.
End operations.

(** a TURN username is read back as the parts it was made of, when the parts
    are not empty and hold no separator. *)
Theorem turn_username_roundtrip parts :
  Forall (fun p => p <> ""%string /\ no_char ":" p = true)
    [call_session_id_hash parts; device_id_hash parts; nonce parts] ->
  issued_at parts <= U64_MAX ->
  parse_turn_username (turn_username parts) = Ok parts.
Proof.
  rewrite !Forall_cons. intros ([Hc Hcc] & [Hd Hcd] & [Hn Hcn] & _) Hi.
  destruct (pretty_number_spec (issued_at parts) ":" Hi eq_refl) as (Hp & Hcp & _).
  unfold parse_turn_username, turn_username.
  rewrite !split_on_colon, split_on_none by done. rewrite decide_False.
  - rewrite parse_u64_pretty by done. by destruct parts.
  - rewrite !Exists_cons, Exists_nil. naive_solver.
Qed.

Section packets.
Context `{!Primitives} (token_json header_json : TurnMediaRelayToken -> option bytes)
  (header_of_json : bytes -> option TurnMediaRelayToken).

(** a packet made with a token signed by the service is read back with its
    token and payload, and the token's MAC is accepted, when the JSON reader
    reads back what the writer wrote and nothing from no bytes. *)
Theorem media_packet_roundtrip key token signed payload packet :
  (forall t b, header_json t = Some b -> header_of_json b = Some t) -> header_of_json [] = None ->
  sign_turn_media_relay_token token_json key token = Ok signed ->
  encode_turn_media_relay_packet header_json signed payload = Ok packet ->
  decode_turn_media_relay_packet header_of_json packet = Ok (signed, payload) /\
  check_mac token_json key signed = Ok tt.
Proof.
  intros Hread Hempty Hsign Henc. split; [|by eapply sign_check]. revert Henc.
  unfold encode_turn_media_relay_packet. rewrite bind_Ok. intros (h & Hh & Henc).
  destruct (header_json signed) as [h'|] eqn:Hj; [|done]. injection Hh as ->. apply Hread in Hj.
  revert Henc. case_decide as H1; [done|]. case_decide as H2; [done|]. intros <-%Ok_inj.
  assert (length (u32_be (N.of_nat (length h))) = 4%nat) as H4 by done.
  assert (N.to_nat (be_to_N (u32_be (N.of_nat (length h)))) = length h) as Hlen.
  { unfold u32_be. rewrite be_to_of by lia. lia. }
  assert (length h <> 0%nat) as Hne by (intros ->%nil_length_inv; congruence).
  unfold decode_turn_media_relay_packet. rewrite !length_app, H4.
  rewrite (take_app_length' _ _ 4), (drop_app_length' _ _ 4), Hlen by done.
  rewrite !decide_False by lia. rewrite take_app_length, Hj.
  change (@Ok NodeCoreError _ (signed, drop (4 + length h) (u32_be (N.of_nat (length h)) ++ h ++ payload)) =
          Ok (signed, payload)). do 2 f_equal.
  by rewrite app_assoc, drop_app_length' by by rewrite length_app, H4.
Qed.
End packets.
