(* ===== verification/TurnRun.v ===== *)
(** * The media relay on concrete tokens

    The theorems of TurnProps.v that have hypotheses, applied to runs of the
    relay with the primitives of RatchetRun.v and a reader of two headers. *)

From S2P Require Import Prelude OrdMap Bytes Publication Wire Crypto RatchetRun Net Turn TurnProps.
From Stdlib Require Import Strings.Ascii Strings.Byte.

Open Scope N_scope.

#[local] Existing Instance toy.

#[local] Instance TurnMediaRelayToken_eq_dec : EqDecision TurnMediaRelayToken.
Proof. solve_decision. Defined.

Definition json (t : TurnMediaRelayToken) : option bytes :=
  Some (str (tk_call_id t +:+ "," +:+ tk_allocation_id t +:+ "," +:+ tk_target_allocation_id t +:+ "," +:+
    tk_flow_id t +:+ "," +:+ tk_identity_hash t +:+ "," +:+ tk_peer_hash t +:+ "," +:+ tk_nonce t +:+ "," +:+ tk_mac t)).

Definition service_key : bytes := str "service".

Definition signed (t : TurnMediaRelayToken) : TurnMediaRelayToken :=
  match sign_turn_media_relay_token json service_key t with Ok t => t | Err _ => t end.

Definition token_alice : TurnMediaRelayToken :=
  Eval vm_compute in signed (mkToken "call" "a" "b" "flow" "alice" "bob" 100 400 "n1" "").
Definition token_bob : TurnMediaRelayToken :=
  Eval vm_compute in signed (mkToken "call" "b" "a" "flow" "bob" "alice" 100 400 "n2" "").

(** A header is one byte that names a token. *)
Definition write_header (t : TurnMediaRelayToken) : option bytes :=
  if decide (t = token_alice) then Some [x01] else
  if decide (t = token_bob) then Some [x02] else None.
Definition read_header (b : bytes) : option TurnMediaRelayToken :=
  match b with
  | [x01] => Some token_alice
  | [x02] => Some token_bob
  | _ => None
  end.

Definition socket_alice : SocketAddr := mkSocket (V4 8 8 8 8) 5000.
Definition socket_bob : SocketAddr := mkSocket (V4 9 9 9 9) 6000.
Definition packet_alice : bytes := [x00; x00; x00; x01; x01; x68; x69].
Definition packet_bob : bytes := [x00; x00; x00; x01; x02; x79; x6f].

(** Bob's packet pins Bob's address; Alice's then goes there. *)
Lemma media_confined_witness :
  let s := relay_exec json read_header signaling_new
    (MediaPacket service_key "relay" "h" socket_bob packet_bob 110 false) in
  exists s' token flow a b id_b,
    relay_media_packet json read_header service_key "relay" "h" socket_alice packet_alice 120 false s =
      (s', Ok (Some (socket_bob, [x68; x69]))) /\
    forwarded json read_header service_key packet_alice [x68; x69] 120 socket_alice socket_bob false s'
      token flow a b id_b.
Proof.
  intros s.
  assert (exists s', relay_media_packet json read_header service_key "relay" "h" socket_alice packet_alice 120 false s =
      (s', Ok (Some (socket_bob, [x68; x69])))) as [s' Hrun].
  { eexists. vm_compute. reflexivity. }
  destruct (media_confined json read_header
    [MediaPacket service_key "relay" "h" socket_bob packet_bob 110 false]
    service_key "relay" "h" socket_alice packet_alice 120 false s' socket_bob [x68; x69] Hrun)
    as (token & flow & a & b & id_b & Hfw).
  exists s', token, flow, a, b, id_b. exact (conj Hrun Hfw).
Defined.

(** Two allocations of a call, as its media relay makes them. *)
Lemma turn_quotas_hold_witness :
  let s := foldl (exec json default_policy) signaling_new
    [OpEnsure token_alice service_key "h" "relay" 110; OpExpire 120] in
  size (allocations_by_id s) = 2%nat /\ quotas default_policy s.
Proof.
  split; [vm_compute; reflexivity|]. apply (turn_quotas_hold json default_policy
    [OpEnsure token_alice service_key "h" "relay" 110; OpExpire 120]); vm_compute; reflexivity.
Defined.

Definition alice_parts : TurnCredentialParts := mkParts "call" "device" 100 "nonce".

(** The username of a credential, its call and its password. *)
Lemma turn_username_roundtrip_witness :
  turn_username alice_parts = "call:device:100:nonce"%string /\
  parse_turn_username (turn_username alice_parts) = Ok alice_parts.
Proof.
  split; [vm_compute; reflexivity|]. apply (turn_username_roundtrip alice_parts); [|vm_compute; discriminate].
  repeat constructor; discriminate.
Defined.

Definition password : string :=
  match turn_credential_password service_key "call:device:100:nonce" with Ok p => p | Err _ => "" end.
Definition call_open : OpaqueCallSession := mkCall "call" "alice" "bob" ∅ 90 10000 CallActive "h".
Definition with_call : SignalingState := submit_opaque_call_envelope signaling_new call_open.

(** Issued at 100, used at 110, refused at 699 and accepted again at 700. *)
Lemma credential_replayed_at_deadline_witness :
  let first := validate_turn_credential "call:device:100:nonce" password service_key 110 with_call in
  first.2 = Ok alice_parts /\
  (validate_turn_credential "call:device:100:nonce" password service_key 699 first.1).2 =
    Err (ReplayGuardError "turn credential nonce replay") /\
  (validate_turn_credential "call:device:100:nonce" password service_key 700 first.1).2 = Ok alice_parts.
Proof.
  intros first.
  assert (validate_turn_credential "call:device:100:nonce" password service_key 110 with_call =
    (first.1, Ok alice_parts)) as Hfirst by (vm_compute; reflexivity).
  destruct (credential_replayed_at_deadline "call:device:100:nonce" password service_key 110 with_call first.1
    alice_parts call_open Hfirst) as [Hrefused Haccepted]; [vm_compute; reflexivity|].
  split; [vm_compute; reflexivity|]. split; [apply Hrefused|apply Haccepted];
    [split; [vm_compute; discriminate|vm_compute; reflexivity]|vm_compute; reflexivity].
Defined.

Lemma read_write_header t b : write_header t = Some b -> read_header b = Some t.
Proof. unfold write_header. repeat case_decide; intros [= <-]; by subst. Qed.

Lemma media_packet_roundtrip_witness :
  encode_turn_media_relay_packet write_header token_alice [x68; x69] = Ok packet_alice /\
  decode_turn_media_relay_packet read_header packet_alice = Ok (token_alice, [x68; x69]) /\
  check_mac json service_key token_alice = Ok tt.
Proof.
  split; [vm_compute; reflexivity|].
  apply (media_packet_roundtrip json write_header read_header service_key token_alice token_alice [x68; x69]
    packet_alice read_write_header); vm_compute; reflexivity.
Defined.
