(* ===== verification/Voice.v ===== *)
(** * Voice leases and the opaque voice relay

    ramflux-node-core/src/voice.rs with its submodules voice_quota.rs and
    voice_rebinding.rs, the records of ramflux-protocol/src/call.rs they use, and
    the address-bound tags of ramflux-crypto/src/voice_rebind.rs. A lease has two
    sides; each has a bearer token and a pinned source address, which changes
    only after a challenge. The clock is an argument; the random bytes are a
    stream whose position is part of the state. *)

From S2P Require Import Prelude OrdMap Bytes Publication Wire Crypto Net.
From Stdlib Require Import Strings.Byte.

Open Scope N_scope.

Notation VOICE_LEASE_SECONDS := 60%N (only parsing).
Notation VOICE_PACKET_MAX_BYTES := (N.to_nat 1400)%nat (only parsing).
Notation MAX_ALLOCATIONS := (N.to_nat 4096)%nat (only parsing).
Notation ACCOUNT_LIMIT := 2%nat (only parsing).
Notation MAX_LEASE_LIFETIME := (4 * 60 * 60)%N (only parsing).
Notation BYTES_PER_SECOND := (N.to_nat (128 * 1024))%nat (only parsing).
Notation UNPINNED_BYTES_PER_SECOND := (N.to_nat (4 * 1024))%nat (only parsing).
Notation MIN_REBIND_CHALLENGE_DATAGRAM_BYTES := 60%nat (only parsing).
Notation CHALLENGE_TTL := 5%N (only parsing).
Notation CHALLENGE := (str "RFVC") (only parsing).
Notation RESPONSE := (str "RFVE") (only parsing).

Notation voice_refused := Unauthorized (only parsing).

(** ** Records *)

Record CallEndpoint := mkEndpoint {
  principal_id : string;
  root_public_key : string;
  device_id : string;
}.

#[export] Instance CallEndpoint_eq_dec : EqDecision CallEndpoint.
Proof. solve_decision. Defined.

Record VoiceAllocationRequest := mkScope {
  vs_call_id : string;
  caller : CallEndpoint;
  callee : CallEndpoint;
}.

#[export] Instance VoiceAllocationRequest_eq_dec : EqDecision VoiceAllocationRequest.
Proof. solve_decision. Defined.

Record VoiceLeaseConsent := mkConsent {
  cs_scope : VoiceAllocationRequest;
  cs_lease_id : string;
  cs_expires_at : N;
  cs_signature : string;
}.

#[export] Instance VoiceLeaseConsent_eq_dec : EqDecision VoiceLeaseConsent.
Proof. solve_decision. Defined.

Record VoiceAllocation := mkVoiceAllocation {
  va_lease_id : string;
  va_endpoint : string;
  va_side : nat;
  va_token : string;
  va_rebind_key : string;
  va_expires_at : N;
  va_hard_expires_at : N;
}.

Record Challenge := mkChallenge {
  ch_address : SocketAddr;
  cookie : bytes;
  ch_expires_at : N;
}.

Record Side := mkSide {
  token : string;
  rebind_key : bytes;
  source : option SocketAddr;
  second : N;
  side_bytes : nat;
  unpinned_second : N;
  unpinned_bytes : nat;
  challenge : option Challenge;
}.

Record Lease := mkLease {
  scope : VoiceAllocationRequest;
  lease_id : string;
  consent : option VoiceLeaseConsent;
  le_expires_at : N;
  hard_expires_at : N;
  sides : Side * Side;
}.

(** Indexing of the array [sides]: [false] is the caller's side, [true] the
    callee's. *)
Definition side_at (l : Lease) (i : bool) : Side := if i then (sides l).2 else (sides l).1.
Definition set_side (l : Lease) (i : bool) (s : Side) : Lease :=
  mkLease (scope l) (lease_id l) (consent l) (le_expires_at l) (hard_expires_at l)
    (if i then ((sides l).1, s) else (s, (sides l).2)).

Definition LeaseKey : Type := string * string.

Record VoiceRelayState := mkVoice {
  leases : gmap LeaseKey Lease;
  tokens : gmap string (LeaseKey * bool);
  usage : gmap (string * string) nat;
  (** how many times the system's random source was read *)
  draws : nat;
}.

Definition voice_new : VoiceRelayState := mkVoice ∅ ∅ ∅ 0.

(** ** Counters of leases per account (voice_quota.rs) *)

Definition usage_key (account : CallEndpoint) : string * string := (principal_id account, root_public_key account).

Definition usage_count (u : gmap (string * string) nat) (account : CallEndpoint) : nat :=
  default 0%nat (u !! usage_key account).

Definition charge (u : gmap (string * string) nat) (account : CallEndpoint) : gmap (string * string) nat :=
  <[usage_key account := S (default 0%nat (u !! usage_key account))]> u.

Definition uncharge (u : gmap (string * string) nat) (account : CallEndpoint) : gmap (string * string) nat :=
  match u !! usage_key account with
  | None => u
  | Some count =>
      let count := (count - 1)%nat in
      if decide (count = 0%nat) then delete (usage_key account) u else <[usage_key account := count]> u
  end.

Definition usage_release (u : gmap (string * string) nat) (l : Lease) : gmap (string * string) nat :=
  let u := uncharge u (caller (scope l)) in
  if decide (is_Some (consent l)) then uncharge u (callee (scope l)) else u.

(** ** Bandwidth *)

Definition charge_window (now : N) (packet_bytes limit : nat) (exhausted : string)
  : stres (N * nat) NodeCoreError unit := fun '(second, bytes) =>
  let '(second, bytes) := if decide (now <> second) then (now, 0%nat) else (second, bytes) in
  let next := (bytes + packet_bytes)%nat in
  if decide (limit < next)%nat then ((second, bytes), Err (voice_refused exhausted)) else
  ((second, next), Ok tt).

Definition set_source (s : Side) (a : option SocketAddr) : Side :=
  mkSide (token s) (rebind_key s) a (second s) (side_bytes s) (unpinned_second s) (unpinned_bytes s) (challenge s).
Definition set_challenge (s : Side) (c : option Challenge) : Side :=
  mkSide (token s) (rebind_key s) (source s) (second s) (side_bytes s) (unpinned_second s) (unpinned_bytes s) c.
Definition set_window (s : Side) (w : N * nat) : Side :=
  mkSide (token s) (rebind_key s) (source s) w.1 w.2 (unpinned_second s) (unpinned_bytes s) (challenge s).
Definition set_unpinned (s : Side) (w : N * nat) : Side :=
  mkSide (token s) (rebind_key s) (source s) (second s) (side_bytes s) w.1 w.2 (challenge s).

(** ** Routes *)

Inductive VoiceRoute :=
| Drop
| Forward (target : SocketAddr) (packet : bytes)
| ChallengeTo (target : SocketAddr) (packet : bytes).

Section voice.
Context `{!Primitives}.
(** [decode_base64url] and the system's random source: each read gives 32 bytes
    or fails. *)
Variable decode_base64url : string -> option bytes.
Variable entropy : nat -> option bytes.

(** ** Address-bound tags (voice_rebind.rs) *)

(** The family, the octets and the port of an address. *)
Definition address_bytes (address : SocketAddr) : bytes :=
  match ip address with
  | V4 _ _ _ _ => [x04]
  | V6 _ _ _ _ _ _ _ _ => [x06]
  end ++ octets (ip address) ++ u16_be (port address).

(** The MAC over everything [mac] feeds it; [None] when the scope is refused. *)
Definition rebind_mac (key : bytes) (lease_id : string) (side : bool) (cookie : bytes) (address : SocketAddr)
  : option bytes :=
  decode_base64url lease_id ≫= fun lease =>
  if decide (length lease <> 16%nat) then None else
  hmac_sha256 key (str "ramflux.voice.rebind.v1" ++ lease ++ [if side then x01 else x00] ++ cookie ++
    address_bytes address).

Definition voice_rebind_tag (key : bytes) (lease_id : string) (side : bool) (cookie : bytes) (address : SocketAddr)
  : option bytes :=
  rebind_mac key lease_id side cookie address ≫= fun result => Some (take 16 result).

Definition verify_voice_rebind_tag (key : bytes) (lease_id : string) (side : bool) (cookie : bytes)
    (address : SocketAddr) (tag : bytes) : bool :=
  if decide (length tag <> 16%nat) then false else
  match rebind_mac key lease_id side cookie address with
  | None => false
  | Some result => bool_decide (take 16 result = tag)
  end.

(** The address a challenge names, as its receiver reads it. *)
Definition challenge_address (challenge : bytes) : option SocketAddr :=
  let n i := Byte.to_N (nth i challenge x00) in
  let s i := be_to_N (take 2 (drop i challenge)) in
  match challenge !! 36%nat with
  | Some x04 =>
      if decide (length challenge = 43%nat)
      then Some (mkSocket (V4 (n 37%nat) (n 38%nat) (n 39%nat) (n 40%nat)) (s 41%nat)) else None
  | Some x06 =>
      if decide (length challenge = 55%nat)
      then Some (mkSocket (V6 (s 37%nat) (s 39%nat) (s 41%nat) (s 43%nat) (s 45%nat) (s 47%nat) (s 49%nat) (s 51%nat))
        (s 53%nat)) else None
  | _ => None
  end.

Definition voice_rebind_response (key : bytes) (lease_id : string) (side : bool) (challenge : bytes) : option bytes :=
  if decide (take 4 challenge <> CHALLENGE) then None else
  challenge_address challenge ≫= fun address =>
  let cookie := take 32 (drop 4 challenge) in
  voice_rebind_tag key lease_id side cookie address ≫= fun tag =>
  Some (RESPONSE ++ cookie ++ tag).

(** ** Changing a pinned source (voice_rebinding.rs) *)

Record Admission := mkAdmission {
  ad_lease_id : string;
  ad_index : bool;
  ad_source : SocketAddr;
  ad_payload : bytes;
  ad_now : N;
  challenge_allowed : bool;
}.

Definition starts_with (prefix payload : bytes) : bool := bool_decide (take (length prefix) payload = prefix).

Definition authenticates_pending (side : Side) (ad : Admission) : bool :=
  match challenge side with
  | None => false
  | Some ch =>
      bool_decide (ad_now ad < ch_expires_at ch) && bool_decide (ad_source ad = ch_address ch)
      && bool_decide (length (ad_payload ad) = 52%nat) && starts_with RESPONSE (ad_payload ad)
      && bool_decide (take 32 (drop 4 (ad_payload ad)) = cookie ch)
      && verify_voice_rebind_tag (rebind_key side) (ad_lease_id ad) (ad_index ad) (cookie ch) (ad_source ad)
           (drop 36 (ad_payload ad))
  end.

Definition pending (side : Side) (now : N) : bool :=
  match challenge side with
  | Some ch => bool_decide (now < ch_expires_at ch)
  | None => false
  end.

(** The packet of a challenge. *)
Definition challenge_packet (cookie : bytes) (source : SocketAddr) : bytes :=
  CHALLENGE ++ cookie ++ address_bytes source.

(** The state is the side and the number of random draws. *)
Definition admit_source (ad : Admission) : stres (Side * nat) NodeCoreError (option VoiceRoute) := fun '(side, drawn) =>
  let response := starts_with RESPONSE (ad_payload ad) in
  if bool_decide (source side = None) && response then ((side, drawn), Ok (Some Drop)) else
  let side := if decide (source side = None) then set_source side (Some (ad_source ad)) else side in
  if decide (source side = Some (ad_source ad)) then ((side, drawn), Ok (if response then Some Drop else None)) else
  if pending side (ad_now ad) then
    ((if authenticates_pending side ad then set_challenge (set_source side (Some (ad_source ad))) None else side, drawn),
     Ok (Some Drop)) else
  if negb (challenge_allowed ad) then ((side, drawn), Ok (Some Drop)) else
  match entropy drawn with
  | None => ((side, S drawn), Err (voice_refused "voice entropy unavailable"))
  | Some cookie =>
      let ch := mkChallenge (ad_source ad) cookie (u64_saturating_add (ad_now ad) CHALLENGE_TTL) in
      ((set_challenge side (Some ch), S drawn),
       Ok (Some (ChallengeTo (ad_source ad) (challenge_packet cookie (ad_source ad)))))
  end.

(** ** Datagrams *)

Definition same_account (a b : CallEndpoint) : bool :=
  bool_decide (principal_id a = principal_id b) && bool_decide (root_public_key a = root_public_key b).

Definition validate_voice_scope (s : VoiceAllocationRequest) : result NodeCoreError unit :=
  let decodes text len := match decode_base64url text with
    | Some b => bool_decide (length b = len)
    | None => false
    end in
  if negb (decodes (vs_call_id s) 16%nat) then Err (voice_refused "voice call id must contain 128 random bits") else
  let invalid e := bool_decide (principal_id e = ""%string) || bool_decide (device_id e = ""%string)
    || bool_decide (512 < String.length (principal_id e))%nat || bool_decide (512 < String.length (device_id e))%nat
    || negb (decodes (root_public_key e) 32%nat) in
  if invalid (caller s) || invalid (callee s) then Err (voice_refused "voice endpoint invalid") else
  if same_account (caller s) (callee s) then Err (voice_refused "voice self-call forbidden") else
  Ok tt.

Definition encode_voice_datagram (token : string) (payload : bytes) : result NodeCoreError bytes :=
  ok_or (decode_base64url token) (voice_refused "voice credential invalid") ≫= fun token =>
  if decide (length token <> 32 \/ VOICE_PACKET_MAX_BYTES < length payload)%nat
  then Err (voice_refused "voice datagram size rejected") else
  Ok (u32_be 32 ++ token ++ payload).

Definition decode_voice_datagram (p : bytes) : result NodeCoreError (string * bytes) :=
  if decide ((length p < 36)%nat \/ (36 + VOICE_PACKET_MAX_BYTES < length p)%nat \/ take 4 p <> u32_be 32)
  then Err (voice_refused "voice datagram framing rejected") else
  Ok (encode_base64url (take 32 (drop 4 p)), drop 36 p).

(** ** Leases *)

Definition random_32 : stres VoiceRelayState NodeCoreError bytes := fun s =>
  (mkVoice (leases s) (tokens s) (usage s) (S (draws s)),
   ok_or (entropy (draws s)) (voice_refused "voice entropy unavailable")).

Definition new_side (now : N) : stres VoiceRelayState NodeCoreError Side :=
  random_32 ≫= fun t => random_32 ≫= fun k =>
  mret (mkSide (encode_base64url t) k None now 0 now 0 None).

Definition allocation (l : Lease) (endpoint : string) (side : bool) : VoiceAllocation :=
  mkVoiceAllocation (lease_id l) endpoint (if side then 1%nat else 0%nat) (token (side_at l side))
    (encode_base64url (rebind_key (side_at l side))) (le_expires_at l) (hard_expires_at l).

(** What leaves with a lease. *)
Definition remove_tokens (m : gmap string (LeaseKey * bool)) (l : Lease) : gmap string (LeaseKey * bool) :=
  delete (token (side_at l true)) (delete (token (side_at l false)) m).

Definition drop_lease (s : VoiceRelayState) (key : LeaseKey) (l : Lease) : VoiceRelayState :=
  mkVoice (delete key (leases s)) (remove_tokens (tokens s) l) (usage_release (usage s) l) (draws s).

Definition voice_expire (now : N) (s : VoiceRelayState) : VoiceRelayState :=
  foldl (fun s p => drop_lease s p.1 p.2) s (filter (fun p => le_expires_at p.2 <= now) (bt_entries (leases s))).

Definition refuse {A} (message : string) : stres VoiceRelayState NodeCoreError A := lift (Err (voice_refused message)).

Definition voice_allocate (owner : string) (sc : VoiceAllocationRequest) (endpoint : string) (now : N)
  : stres VoiceRelayState NodeCoreError VoiceAllocation :=
  lift (validate_voice_scope sc) ≫= fun _ =>
  if decide (owner = ""%string \/ endpoint = ""%string) then refuse "voice owner or endpoint missing" else
  modify (voice_expire now) ≫= fun _ =>
  get ≫= fun s =>
  let key := (owner, vs_call_id sc) in
  match leases s !! key with
  | Some l => if decide (scope l <> sc) then refuse "voice scope changed" else mret (allocation l endpoint false)
  | None =>
      if decide (MAX_ALLOCATIONS <= size (leases s) \/ ACCOUNT_LIMIT <= usage_count (usage s) (caller sc))%nat
      then refuse "voice allocation capacity exhausted" else
      new_side now ≫= fun a => new_side now ≫= fun b =>
      get ≫= fun s =>
      if decide (token a = token b \/ is_Some (tokens s !! token a) \/ is_Some (tokens s !! token b))
      then refuse "voice credential collision" else
      random_32 ≫= fun id =>
      let l := mkLease sc (encode_base64url (take 16 id)) None (u64_saturating_add now VOICE_LEASE_SECONDS)
        (u64_saturating_add now MAX_LEASE_LIFETIME) (a, b) in
      modify (fun s => mkVoice (<[key := l]> (leases s)) (<[token a := (key, false)]> (tokens s))
        (charge (usage s) (caller sc)) (draws s)) ≫= fun _ =>
      mret (allocation l endpoint false)
  end.

Definition set_consent (l : Lease) (c : VoiceLeaseConsent) : Lease :=
  mkLease (scope l) (lease_id l) (Some c) (le_expires_at l) (hard_expires_at l) (sides l).

Definition accept_verified (owner : string) (c : VoiceLeaseConsent) (endpoint : string) (now : N)
  : stres VoiceRelayState NodeCoreError VoiceAllocation :=
  modify (voice_expire now) ≫= fun _ =>
  get ≫= fun s =>
  let key := (owner, vs_call_id (cs_scope c)) in
  match leases s !! key with
  | None => refuse "voice lease unavailable"
  | Some l =>
      if decide (lease_id l <> cs_lease_id c \/ scope l <> cs_scope c \/ cs_expires_at c <> hard_expires_at l \/
                 cs_expires_at c <= now)
      then refuse "voice consent binding changed" else
      match consent l with
      | Some old => if decide (old <> c) then refuse "voice consent changed" else mret (allocation l endpoint true)
      | None =>
          if decide (ACCOUNT_LIMIT <= usage_count (usage s) (callee (scope l)))%nat
          then refuse "voice callee capacity exhausted" else
          let l := set_consent l c in
          modify (fun s => mkVoice (<[key := l]> (leases s)) (<[token (side_at l true) := (key, true)]> (tokens s))
            (charge (usage s) (callee (scope l))) (draws s)) ≫= fun _ =>
          mret (allocation l endpoint true)
      end
  end.

Definition set_expiry (l : Lease) (e : N) : Lease :=
  mkLease (scope l) (lease_id l) (consent l) e (hard_expires_at l) (sides l).

Definition set_lease (s : VoiceRelayState) (key : LeaseKey) (l : Lease) : VoiceRelayState :=
  mkVoice (<[key := l]> (leases s)) (tokens s) (usage s) (draws s).

Definition renew (owner : string) (sc : VoiceAllocationRequest) (now : N) : stres VoiceRelayState NodeCoreError N :=
  modify (voice_expire now) ≫= fun _ =>
  get ≫= fun s =>
  let key := (owner, vs_call_id sc) in
  match leases s !! key with
  | None => refuse "voice lease unavailable"
  | Some l =>
      if decide (scope l <> sc) then refuse "voice scope changed" else
      if decide (consent l = None) then refuse "voice consent required" else
      if decide (hard_expires_at l <= now) then refuse "voice maximum lifetime reached" else
      let e := N.min (u64_saturating_add now VOICE_LEASE_SECONDS) (hard_expires_at l) in
      modify (fun s => set_lease s key (set_expiry l e)) ≫= fun _ => mret e
  end.

Definition renew_consented (owner : string) (c : VoiceLeaseConsent) (now : N) : stres VoiceRelayState NodeCoreError N :=
  get ≫= fun s =>
  if decide ((leases s !! (owner, vs_call_id (cs_scope c))) ≫= consent <> Some c)
  then refuse "voice consent unavailable" else
  renew owner (cs_scope c) now.

Definition voice_release (owner : string) (sc : VoiceAllocationRequest) : stres VoiceRelayState NodeCoreError unit :=
  get ≫= fun s =>
  let key := (owner, vs_call_id sc) in
  match leases s !! key with
  | None => mret tt
  | Some l =>
      if decide (scope l <> sc) then refuse "voice scope changed" else
      modify (fun s => drop_lease s key l)
  end.

(** ** Packets *)

(** The budget a packet is charged to. *)
Definition charge_packet (side : Side) (ad : Admission) (len : nat) : Side * result NodeCoreError unit :=
  if decide (source side = Some (ad_source ad)) then
    let '(w, r) := charge_window (ad_now ad) len BYTES_PER_SECOND "voice bandwidth exhausted"
      (second side, side_bytes side) in (set_window side w, r)
  else if authenticates_pending side ad then (side, Ok tt)
  else
    let '(w, r) := charge_window (ad_now ad) len UNPINNED_BYTES_PER_SECOND "voice unpinned bandwidth exhausted"
      (unpinned_second side, unpinned_bytes side) in (set_unpinned side w, r).

Definition put_side (s : VoiceRelayState) (key : LeaseKey) (l : Lease) (i : bool) (side : Side) (drawn : nat)
  : VoiceRelayState :=
  mkVoice (<[key := set_side l i side]> (leases s)) (tokens s) (usage s) drawn.

Definition route_with_rebinding (packet : bytes) (src : SocketAddr) (now : N) (allow_private : bool)
  : stres VoiceRelayState NodeCoreError VoiceRoute := fun s =>
  match decode_voice_datagram packet with
  | Err e => (s, Err e)
  | Ok (tok, payload) =>
  if negb allow_private && negb (relay_socket_target_allowed src [])
  then (s, Err (voice_refused "voice source forbidden")) else
  match tokens s !! tok with
  | None => (s, Err (voice_refused "voice credential unavailable"))
  | Some (key, i) =>
  match leases s !! key with
  | None => (s, Err (voice_refused "voice lease unavailable"))
  | Some l =>
  if decide (le_expires_at l <= now) then (drop_lease s key l, Err (voice_refused "voice lease unavailable")) else
  if i && bool_decide (consent l = None) then (s, Err (voice_refused "voice consent required")) else
  let ad := mkAdmission (lease_id l) i src payload now
    (bool_decide (MIN_REBIND_CHALLENGE_DATAGRAM_BYTES <= length packet)%nat) in
  match charge_packet (side_at l i) ad (length packet) with
  | (side, Err e) => (put_side s key l i side (draws s), Err e)
  | (side, Ok _) =>
  match admit_source ad (side, draws s) with
  | ((side, drawn), r) =>
  let s := put_side s key l i side drawn in
  match r with
  | Err e => (s, Err e)
  | Ok (Some route) => (s, Ok route)
  | Ok None =>
      if decide (payload = []) then (s, Ok Drop) else
      match source (side_at l (negb i)) with
      | None => (s, Ok Drop)
      | Some target =>
          if negb allow_private && negb (relay_socket_target_allowed target [])
          then (s, Err (voice_refused "voice target forbidden")) else (s, Ok (Forward target payload))
      end
  end end end end end end.

Definition route (packet : bytes) (src : SocketAddr) (now : N) (allow_private : bool)
  : stres VoiceRelayState NodeCoreError (option (SocketAddr * bytes)) :=
  route_with_rebinding packet src now allow_private ≫= fun r =>
  mret match r with
    | Forward target packet => Some (target, packet)
    | Drop | ChallengeTo _ _ => None
    end.
End voice.
