(* ===== verification/VoiceProps.v ===== *)
(** * Voice leases and the voice relay: theorems

    The counters are the leases, tokens name sides of live leases, media goes
    only between the two sides of a consented lease, and a pinned address
    changes only for a proof of return routability. *)

From S2P Require Import Prelude OrdMap Bytes Publication Wire Crypto Net NetProps Voice.
From Stdlib Require Import Strings.Byte.

Open Scope N_scope.

(** ** Counters *)

(** How many of an account's leases [l] is. *)
Definition share (a : string * string) (l : Lease) : nat :=
  (if decide (usage_key (caller (scope l)) = a) then 1 else 0) +
  (if decide (is_Some (consent l) /\ usage_key (callee (scope l)) = a) then 1 else 0).

Definition held (m : gmap LeaseKey Lease) (a : string * string) : nat := sum_list (share a <$> bt_values m).

Lemma held_added m k l a : m !! k = None -> held (<[k := l]> m) a = (share a l + held m a)%nat.
Proof. intros Hk. unfold held. by rewrite (bt_values_insert m k l Hk). Qed.

Lemma held_delete m k l a : m !! k = Some l -> held m a = (share a l + held (delete k m) a)%nat.
Proof. intros Hk. unfold held. by rewrite (bt_values_delete m k l Hk). Qed.

Lemma held_update m k l l' a :
  m !! k = Some l -> held (<[k := l']> m) a = (share a l' + (held m a - share a l))%nat.
Proof.
  intros Hk. rewrite (held_delete m k l a Hk), <- insert_delete_eq, held_added by apply lookup_delete_eq. lia.
Qed.

(** The map of counters is the function [n], and holds no zero. *)
Definition tracks (u : gmap (string * string) nat) (n : string * string -> nat) : Prop :=
  forall a, default 0%nat (u !! a) = n a /\ u !! a <> Some 0%nat.

Definition one (e : CallEndpoint) (a : string * string) : nat := if decide (usage_key e = a) then 1 else 0.

Lemma tracks_ext u n n' : tracks u n -> (forall a, n a = n' a) -> tracks u n'.
Proof. intros Hu Hn a. rewrite <- Hn. apply Hu. Qed.

Lemma tracks_charge u n e : tracks u n -> tracks (charge u e) (fun a => one e a + n a)%nat.
Proof.
  intros Hu a. destruct (Hu a) as [Ha Hz]. unfold charge, one. destruct (decide (usage_key e = a)) as [<-|Hne].
  - rewrite lookup_insert_eq. simpl. split; [lia|congruence].
  - by rewrite lookup_insert_ne.
Qed.

Lemma tracks_uncharge u n e : tracks u n -> tracks (uncharge u e) (fun a => n a - one e a)%nat.
Proof.
  intros Hu a. destruct (Hu a) as [Ha Hz]. unfold uncharge, one. destruct (decide (usage_key e = a)) as [<-|Hne].
  - destruct (u !! usage_key e) as [c|] eqn:Hc; simpl in *; [|rewrite Hc; simpl; split; [lia|done]].
    case_decide; [rewrite lookup_delete_eq|rewrite lookup_insert_eq]; simpl; split; first [lia|congruence].
  - rewrite Nat.sub_0_r. destruct (u !! usage_key e); [|done].
    case_decide; [rewrite lookup_delete_ne by done|rewrite lookup_insert_ne by done]; done.
Qed.

Lemma tracks_release u n l : tracks u n -> tracks (usage_release u l) (fun a => n a - share a l)%nat.
Proof.
  intros Hu. unfold usage_release. pose proof (tracks_uncharge _ _ (caller (scope l)) Hu) as H1.
  destruct (decide (is_Some (consent l))) as [Hc|Hc].
  - eapply tracks_ext; [by apply tracks_uncharge|]. intros a. unfold one, share.
    repeat case_decide; try tauto; lia.
  - eapply tracks_ext; [done|]. intros a. unfold one, share. repeat case_decide; try tauto; lia.
Qed.

(** ** The invariant *)

Section voice_inv.
Context {prim : Primitives} (decode_base64url : string -> option bytes) (entropy : nat -> option bytes).

(** A window of bandwidth within its limit, for both budgets. *)
Definition windows_ok (x : Side) : Prop :=
  (side_bytes x <= BYTES_PER_SECOND)%nat /\ (unpinned_bytes x <= UNPINNED_BYTES_PER_SECOND)%nat.

Record lease_ok (k : LeaseKey) (l : Lease) : Prop := {
  lo_call : vs_call_id (scope l) = k.2;
  lo_accounts : usage_key (caller (scope l)) <> usage_key (callee (scope l));
  lo_deadline : le_expires_at l <= hard_expires_at l;
  lo_quiet : consent l = None -> source (side_at l true) = None;
  lo_consent c : consent l = Some c ->
    cs_scope c = scope l /\ cs_lease_id c = lease_id l /\ cs_expires_at c = hard_expires_at l;
  lo_windows i : windows_ok (side_at l i);
  lo_id : exists b, lease_id l = encode_base64url b /\ length b = 16%nat;
}.

(** The token of a side is the encoding of an earlier draw. *)
Definition drawn_token (n : nat) (t : string) : Prop :=
  exists j b, (j < n)%nat /\ entropy j = Some b /\ t = encode_base64url b.

Record voice_inv (s : VoiceRelayState) : Prop := {
  vi_lease k l : leases s !! k = Some l -> lease_ok k l;
  vi_drawn k l i : leases s !! k = Some l -> drawn_token (draws s) (token (side_at l i));
  vi_distinct k k' l l' i i' : leases s !! k = Some l -> leases s !! k' = Some l' ->
    token (side_at l i) = token (side_at l' i') -> k = k' /\ i = i';
  vi_tokens t k i : tokens s !! t = Some (k, i) <->
    exists l, leases s !! k = Some l /\ token (side_at l i) = t /\ (i = true -> is_Some (consent l));
  vi_size : (size (leases s) <= MAX_ALLOCATIONS)%nat;
  vi_usage : tracks (usage s) (held (leases s));
  vi_limit a : (held (leases s) a <= ACCOUNT_LIMIT)%nat;
}.

Lemma voice_inv_new : voice_inv voice_new.
Proof.
  split; cbn; try (intros *; rewrite lookup_empty; done).
  - intros t k i. rewrite lookup_empty. split; [done|]. intros (l & Hl & _). by rewrite lookup_empty in Hl.
  - rewrite map_size_empty. lia.
  - intros a. rewrite lookup_empty. done.
  - intros a. vm_compute. lia.
Qed.

Lemma remove_tokens_lookup m l t :
  remove_tokens m l !! t =
  if decide (t = token (side_at l false) \/ t = token (side_at l true)) then None else m !! t.
Proof.
  unfold remove_tokens. destruct (decide (t = token (side_at l true))) as [->|H1].
  { rewrite lookup_delete_eq, decide_True by auto. done. }
  rewrite lookup_delete_ne by done. destruct (decide (t = token (side_at l false))) as [->|H0].
  { rewrite lookup_delete_eq, decide_True by auto. done. }
  rewrite lookup_delete_ne by congruence. rewrite decide_False by tauto. done.
Qed.

(** A lease leaves with its tokens and its charges. *)
Lemma drop_inv s k l : leases s !! k = Some l -> voice_inv s -> voice_inv (drop_lease s k l).
Proof.
  intros Hk [Hl Hd Hu Ht Hs Hus Hlim].
  assert (forall k' l', delete k (leases s) !! k' = Some l' -> k' <> k /\ leases s !! k' = Some l') as Hdel
    by (intros k' l'; rewrite lookup_delete_Some; naive_solver).
  split; cbn.
  - intros k' l' [_ H]%Hdel. eauto.
  - intros k' l' i [_ H]%Hdel. eauto.
  - intros k1 k2 l1 l2 i1 i2 [_ H1]%Hdel [_ H2]%Hdel. eauto.
  - intros t k' i. rewrite remove_tokens_lookup. setoid_rewrite lookup_delete_Some.
    case_decide as Hrem; [split; [done|]|rewrite Ht].
    + intros (l' & [Hne Hk'] & Htok & _). destruct Hrem as [-> | ->].
      * by destruct (Hu _ _ _ _ _ _ Hk' Hk Htok).
      * by destruct (Hu _ _ _ _ _ _ Hk' Hk Htok).
    + split; intros (l' & H'); exists l'; [|naive_solver]. destruct H' as (Hk' & Htok & Hc). split; [|done].
      split; [|done]. intros ->. simplify_eq. apply Hrem. destruct i; auto.
  - etrans; [apply size_delete_le|done].
  - eapply tracks_ext; [by apply tracks_release|]. intros a. cbv beta. rewrite (held_delete _ _ _ a Hk). lia.
  - intros a. specialize (Hlim a). rewrite (held_delete _ _ _ a Hk) in Hlim. lia.
Qed.

(** ** Expiry *)

Lemma drops_inv ps : forall s,
  NoDup ps.*1 -> Forall (fun p => leases s !! p.1 = Some p.2) ps -> voice_inv s ->
  let s' := foldl (fun s p => drop_lease s p.1 p.2) s ps in
  voice_inv s' /\ draws s' = draws s /\
  (forall k, leases s' !! k = if decide (k ∈ ps.*1) then None else leases s !! k).
Proof.
  induction ps as [|[k l] ps IH]; intros s Hnd Hin Hs; cbn [foldl].
  - split; [done|]. split; [done|]. intros k. rewrite decide_False; [done|apply not_elem_of_nil].
  - apply NoDup_cons in Hnd as [Hk Hnd]. apply Forall_cons in Hin as [Hl Hin]. cbn [fst snd] in *.
    destruct (IH (drop_lease s k l) Hnd) as (Hinv & Hdr & Hlk).
    + rewrite Forall_forall in Hin |- *. intros p Hp. cbn. rewrite lookup_delete_ne; [by apply Hin|].
      intros ->. apply Hk, list_elem_of_fmap. eauto.
    + by apply drop_inv.
    + split; [done|]. split; [done|]. intros k'. rewrite Hlk. cbn [drop_lease leases fmap list_fmap].
      destruct (decide (k' = k)) as [->|Hne].
      * rewrite lookup_delete_eq, (decide_True (P := k ∈ k :: _)) by set_solver. by case_decide.
      * rewrite lookup_delete_ne by done. repeat case_decide; set_solver.
Qed.

Lemma expire_inv s now :
  voice_inv s ->
  voice_inv (voice_expire now s) /\ draws (voice_expire now s) = draws s /\
  (forall k l, leases (voice_expire now s) !! k = Some l <-> leases s !! k = Some l /\ now < le_expires_at l).
Proof.
  intros Hs. unfold voice_expire.
  destruct (drops_inv (filter (fun p => le_expires_at p.2 <= now) (bt_entries (leases s))) s) as (Hinv & Hdr & Hlk).
  - eapply sublist_NoDup; [apply (NoDup_bt_keys (leases s))|]. apply fmap_sublist, sublist_filter.
  - apply Forall_forall. intros [k l] [_ Hin]%list_elem_of_filter. by apply elem_of_bt_entries in Hin.
  - done.
  - split; [done|]. split; [done|]. intros k l. rewrite Hlk.
    assert (k ∈ (filter (fun p => le_expires_at p.2 <= now) (bt_entries (leases s))).*1 <->
      exists l, leases s !! k = Some l /\ le_expires_at l <= now) as Hk.
    { rewrite list_elem_of_fmap. setoid_rewrite list_elem_of_filter. split.
      - intros ([k' l'] & -> & Hle & Hin%elem_of_bt_entries). eauto.
      - intros (l' & Hl' & Hle). exists (k, l'). split; [done|]. split; [done|]. by apply elem_of_bt_entries. }
    case_decide as Hin; rewrite Hk in Hin.
    + split; [done|]. intros [Hl Hlt]. destruct Hin as (l' & Hl' & Hle). simplify_eq. lia.
    + split; [|by intros []]. intros Hl. split; [done|]. apply N.nle_gt. eauto.
Qed.

(** ** Changes in place *)

Lemma drawn_token_le n n' t : (n <= n')%nat -> drawn_token n t -> drawn_token n' t.
Proof. intros Hle (j & b & Hj & Hb & Ht). exists j, b. split; [lia|done]. Qed.

Lemma share_same a l l' : scope l' = scope l -> consent l' = consent l -> share a l' = share a l.
Proof. unfold share. by intros -> ->. Qed.

Lemma share_held m k l a : m !! k = Some l -> (share a l <= held m a)%nat.
Proof. intros Hk. rewrite (held_delete m k l a Hk). lia. Qed.

(** A lookup in a map with one lease replaced. *)
Lemma insert_inv (m : gmap LeaseKey Lease) k l l' k' x :
  m !! k = Some l -> <[k := l']> m !! k' = Some x ->
  exists y, m !! k' = Some y /\ (x = y \/ (k' = k /\ x = l' /\ y = l)).
Proof. intros Hk [[<- <-]|[Hne Hx]]%lookup_insert_Some; eauto 8. Qed.

Lemma update_inv s k l l' drawn :
  leases s !! k = Some l -> lease_ok k l' -> scope l' = scope l -> consent l' = consent l ->
  (forall i, token (side_at l' i) = token (side_at l i)) -> (draws s <= drawn)%nat ->
  voice_inv s -> voice_inv (mkVoice (<[k := l']> (leases s)) (tokens s) (usage s) drawn).
Proof.
  intros Hk Hok Hsc Hco Htk Hdr [Hl Hd Hu Ht Hs Hus Hlim].
  assert (forall k' x, <[k := l']> (leases s) !! k' = Some x ->
    exists y, leases s !! k' = Some y /\ (forall i, token (side_at x i) = token (side_at y i))) as Hold.
  { intros k' x (y & Hy & [->|(-> & -> & ->)])%(insert_inv _ _ l); eauto. }
  assert (forall a, held (<[k := l']> (leases s)) a = held (leases s) a) as Hheld.
  { intros a. rewrite (held_update _ _ _ _ _ Hk), (share_same a l l' Hsc Hco). pose proof (share_held _ _ _ a Hk). lia. }
  split; cbn.
  - intros k' x [[<- <-]|[Hne Hx]]%lookup_insert_Some; eauto.
  - intros k' x i (y & Hy & ->)%Hold. eapply drawn_token_le; eauto.
  - intros k1 k2 l1 l2 i1 i2 (y1 & H1 & ->)%Hold (y2 & H2 & ->)%Hold. eauto.
  - intros t k' i. rewrite Ht. split.
    + intros (x & Hx & Htok & Hc). destruct (decide (k' = k)) as [->|Hne].
      * exists l'. rewrite lookup_insert_eq. simplify_eq. rewrite Htk, Hco. done.
      * exists x. by rewrite lookup_insert_ne.
    + intros (x & (y & Hy & [->|(-> & -> & ->)])%(insert_inv _ _ l) & Htok & Hc); [eauto|exists l|done].
      rewrite <- Htk, <- Hco. done.
  - rewrite map_size_insert_Some by eauto. done.
  - eapply tracks_ext; [done|]. intros a. by rewrite Hheld.
  - intros a. by rewrite Hheld.
Qed.

(** The callee joins. *)
Lemma consent_inv s k l c :
  leases s !! k = Some l -> consent l = None ->
  cs_scope c = scope l /\ cs_lease_id c = lease_id l /\ cs_expires_at c = hard_expires_at l ->
  (usage_count (usage s) (callee (scope l)) < ACCOUNT_LIMIT)%nat ->
  voice_inv s ->
  voice_inv (mkVoice (<[k := set_consent l c]> (leases s)) (<[token (side_at l true) := (k, true)]> (tokens s))
    (charge (usage s) (callee (scope l))) (draws s)).
Proof.
  intros Hk Hnone Hc Huse Hinv. pose proof Hinv as [Hl Hd Hu Ht Hs Hus Hlim].
  assert (forall a, held (<[k := set_consent l c]> (leases s)) a = (one (callee (scope l)) a + held (leases s) a)%nat)
    as Hheld.
  { intros a. rewrite (held_update _ _ _ _ _ Hk). pose proof (share_held _ _ _ a Hk) as Hle. revert Hle.
    unfold share, one. cbn. rewrite Hnone. rewrite (decide_False (P := is_Some None /\ _)) by (intros [[? ?] ?]; done).
    destruct (decide (_ /\ _)) as [[_ ?]|Hn]; repeat case_decide; try lia; exfalso; eauto. }
  split; cbn.
  - intros k' x [[<- <-]|[Hne Hx]]%lookup_insert_Some; [|eauto]. destruct (Hl _ _ Hk) as [H1 H2 H3 H4 H5 H6 H7].
    split; cbn; try done. by intros c' [= <-].
  - intros k' x i (y & Hy & [->|(-> & -> & ->)])%(insert_inv _ _ l); [eauto| |done]. apply (Hd k l i Hk).
  - intros k1 k2 l1 l2 i1 i2 H1 H2.
    apply (insert_inv _ _ l) in H1 as (y1 & Hy1 & E1); [|done]. apply (insert_inv _ _ l) in H2 as (y2 & Hy2 & E2); [|done].
    replace (token (side_at l1 i1)) with (token (side_at y1 i1)) by (destruct E1 as [->|(-> & -> & ->)]; done).
    replace (token (side_at l2 i2)) with (token (side_at y2 i2)) by (destruct E2 as [->|(-> & -> & ->)]; done). eauto.
  - intros t k' i. rewrite lookup_insert_Some, Ht. split.
    + intros [[<- [= <- <-]]|[Hne (x & Hx & Htok & Hcx)]].
      * exists (set_consent l c). rewrite lookup_insert_eq. eauto.
      * destruct (decide (k' = k)) as [->|Hnk]; [|exists x; by rewrite lookup_insert_ne].
        exists (set_consent l c). rewrite lookup_insert_eq. simplify_eq. split; [done|]. split; [by destruct i|eauto].
    + intros (x & [[<- <-]|[Hnk Hx]]%lookup_insert_Some & Htok & Hcx).
      * destruct i; [left; done|right]. split; [|exists l; split; [done|]; split; [done|done]].
        intros He. destruct (Hu k k l l true false Hk Hk) as [_ ?]; [|done].
        exact (eq_trans He (eq_sym Htok)).
      * right. split; [|eauto]. intros <-. destruct (Hu k k' l x true i Hk Hx) as [-> _]; [exact (eq_sym Htok)|done].
  - rewrite map_size_insert_Some by eauto. done.
  - eapply tracks_ext; [by apply tracks_charge|]. intros a. by rewrite Hheld.
  - intros a. rewrite Hheld. unfold one. case_decide as He; [|by apply Hlim].
    destruct (Hus a) as [Ha _]. unfold usage_count in Huse. rewrite He, Ha in Huse. lia.
Qed.

(** ** New leases *)

Lemma scope_accounts sc :
  validate_voice_scope decode_base64url sc = Ok tt -> usage_key (caller sc) <> usage_key (callee sc).
Proof.
  unfold validate_voice_scope. destruct (negb _); [done|]. destruct (_ || _); [done|].
  destruct (same_account _ _) eqn:Hsame; [done|]. intros _ [= Hp Hr]. revert Hsame. unfold same_account.
  by rewrite Hp, Hr, !bool_decide_eq_true_2.
Qed.

(** Base64url loses nothing; the random source gives 32 bytes and never repeats
    itself. *)
Hypothesis decode_encode : forall b, decode_base64url (encode_base64url b) = Some b.
Hypothesis entropy_length : forall i b, entropy i = Some b -> length b = 32%nat.
Hypothesis entropy_fresh : forall i j b, entropy i = Some b -> entropy j = Some b -> i = j.

Lemma base64_inj b b' : encode_base64url b = encode_base64url b' -> b = b'.
Proof. intros He. apply (f_equal decode_base64url) in He. rewrite !decode_encode in He. congruence. Qed.

Lemma token_fresh n j b t : drawn_token n t -> (n <= j)%nat -> entropy j = Some b -> t <> encode_base64url b.
Proof.
  intros (i & b' & Hi & Hb' & ->) Hj Hb ->%base64_inj. pose proof (entropy_fresh i j b Hb' Hb). lia.
Qed.

Definition at_draw (s : VoiceRelayState) (n : nat) : VoiceRelayState := mkVoice (leases s) (tokens s) (usage s) n.

Lemma at_draw_inv s n : (draws s <= n)%nat -> voice_inv s -> voice_inv (at_draw s n).
Proof.
  intros Hn [Hl Hd Hu Ht Hs Hus Hlim]. split; cbn; try done. intros k l i Hk. eapply drawn_token_le; eauto.
Qed.

Lemma added_inv s k l n j0 j1 b0 b1 :
  leases s !! k = None -> (size (leases s) < MAX_ALLOCATIONS)%nat ->
  (usage_count (usage s) (caller (scope l)) < ACCOUNT_LIMIT)%nat ->
  consent l = None -> lease_ok k l -> (draws s <= j0 < j1)%nat -> (j1 < n)%nat ->
  entropy j0 = Some b0 -> entropy j1 = Some b1 ->
  token (side_at l false) = encode_base64url b0 -> token (side_at l true) = encode_base64url b1 ->
  voice_inv s ->
  voice_inv (mkVoice (<[k := l]> (leases s)) (<[token (side_at l false) := (k, false)]> (tokens s))
    (charge (usage s) (caller (scope l))) n).
Proof.
  intros Hk Hsz Huse Hco Hok Hj Hn E0 E1 T0 T1 [Hl Hd Hu Ht Hs Hus Hlim].
  assert (forall i, drawn_token n (token (side_at l i))) as Hnew.
  { intros []; [rewrite T1; exists j1, b1|rewrite T0; exists j0, b0]; (split; [lia|done]). }
  assert (forall k' x i i', leases s !! k' = Some x -> token (side_at x i') <> token (side_at l i)) as Hother.
  { intros k' x [] i' Hx; [rewrite T1; apply (token_fresh (draws s) j1)|
      rewrite T0; apply (token_fresh (draws s) j0)]; eauto; lia. }
  assert (token (side_at l false) <> token (side_at l true)) as H01.
  { rewrite T0, T1. intros ->%base64_inj. pose proof (entropy_fresh _ _ _ E0 E1). lia. }
  assert (forall a, held (<[k := l]> (leases s)) a = (one (caller (scope l)) a + held (leases s) a)%nat) as Hheld.
  { intros a. rewrite held_added by done. unfold share, one. rewrite Hco.
    rewrite (decide_False (P := is_Some None /\ _)) by (intros [[? ?] ?]; done). lia. }
  split; cbn.
  - intros k' x [[<- <-]|[_ Hx]]%lookup_insert_Some; eauto.
  - intros k' x i [[<- <-]|[_ Hx]]%lookup_insert_Some; [done|]. eapply drawn_token_le; [|eauto]. lia.
  - intros k1 k2 l1 l2 i1 i2 [[<- <-]|[_ H1]]%lookup_insert_Some [[<- <-]|[_ H2]]%lookup_insert_Some He.
    + split; [done|]. destruct i1, i2; congruence.
    + by destruct (Hother k2 l2 i1 i2 H2).
    + by destruct (Hother k1 l1 i2 i1 H1).
    + eauto.
  - intros t k' i. rewrite lookup_insert_Some, Ht. split.
    + intros [[<- [= <- <-]]|[Hne (x & Hx & Htok & Hcx)]].
      * exists l. by rewrite lookup_insert_eq.
      * exists x. rewrite lookup_insert_ne by congruence. done.
    + intros (x & [[<- <-]|[Hnk Hx]]%lookup_insert_Some & <- & Hcx).
      * destruct i; [|by left]. rewrite Hco in Hcx. by destruct Hcx.
      * right. split; [|eauto]. intros He. by destruct (Hother k' x false i Hx).
  - rewrite map_size_insert_None by done. lia.
  - eapply tracks_ext; [by apply tracks_charge|]. intros a. by rewrite Hheld.
  - intros a. rewrite Hheld. unfold one. case_decide as He; [|by apply Hlim].
    destruct (Hus a) as [Ha _]. unfold usage_count in Huse. rewrite He, Ha in Huse. lia.
Qed.

Lemma random_32_run s :
  (exists b, entropy (draws s) = Some b /\ random_32 entropy s = (at_draw s (S (draws s)), Ok b)) \/
  (exists e, random_32 entropy s = (at_draw s (S (draws s)), Err e)).
Proof. unfold random_32. destruct (entropy (draws s)) as [b|] eqn:Hb; [left; by exists b|right; by eexists]. Qed.

Lemma new_side_run now s :
  (exists t key, entropy (draws s) = Some t /\
     new_side entropy now s =
       (at_draw s (S (S (draws s))), Ok (mkSide (encode_base64url t) key None now 0 now 0 None))) \/
  (exists n e, (draws s <= n)%nat /\ new_side entropy now s = (at_draw s n, Err e)).
Proof.
  unfold new_side, mbind, stres_bind. destruct (random_32_run s) as [(t & Ht & ->)|(e & ->)]; [|right; eauto].
  destruct (random_32_run (at_draw s (S (draws s)))) as [(key & Hk & ->)|(e & ->)]; cbn; [left; eauto|right].
  exists (S (S (draws s))), e. split; [lia|done].
Qed.

(** A lease as [voice_allocate] makes it, with the draws of its tokens. *)
Record fresh_lease (s : VoiceRelayState) (k : LeaseKey) (l : Lease) (n j0 j1 : nat) (b0 b1 : bytes) : Prop := {
  fl_absent : leases s !! k = None;
  fl_room : (size (leases s) < MAX_ALLOCATIONS)%nat /\ (usage_count (usage s) (caller (scope l)) < ACCOUNT_LIMIT)%nat;
  fl_open : consent l = None /\ forall i, source (side_at l i) = None;
  fl_ok : lease_ok k l;
  fl_draws : (draws s <= j0 < j1)%nat /\ (j1 < n)%nat /\ entropy j0 = Some b0 /\ entropy j1 = Some b1;
  fl_tokens : token (side_at l false) = encode_base64url b0 /\ token (side_at l true) = encode_base64url b1;
}.

Definition with_lease (s : VoiceRelayState) (k : LeaseKey) (l : Lease) (n : nat) : VoiceRelayState :=
  mkVoice (<[k := l]> (leases s)) (<[token (side_at l false) := (k, false)]> (tokens s))
    (charge (usage s) (caller (scope l))) n.

Lemma allocate_outcome owner sc endpoint now s :
  let s' := (voice_allocate decode_base64url entropy owner sc endpoint now s).1 in
  let e := voice_expire now s in
  s' = s \/ (exists n, (draws e <= n)%nat /\ s' = at_draw e n) \/
  (exists k l n j0 j1 b0 b1, fresh_lease e k l n j0 j1 b0 b1 /\ s' = with_lease e k l n).
Proof.
  cbn zeta. unfold voice_allocate. destruct (validate_voice_scope _ sc) as [[]|] eqn:Hval; [|by left].
  rewrite (stres_bind_Ok (lift (Ok tt)) _ s s tt) by done. case_decide; [by left|right].
  rewrite (stres_bind_Ok (modify (voice_expire now)) _ s (voice_expire now s) tt) by done.
  generalize (voice_expire now s) as e. clear s. intros s. rewrite (stres_bind_Ok get _ s s s) by done. cbv zeta.
  assert (s = at_draw s (draws s)) as Hself by by destruct s.
  destruct (leases s !! _) as [l|] eqn:Hk; [left; exists (draws s); case_decide; done|].
  case_decide as Hcap; [left; exists (draws s); done|].
  destruct (new_side_run now s) as [(t0 & k0 & E0 & Hr)|(n & e & Hn & Hr)];
    [rewrite (stres_bind_Ok _ _ _ _ _ Hr)|rewrite (stres_bind_Err _ _ _ _ _ Hr); left; exists n; done].
  cbv beta. set (s1 := at_draw s (S (S (draws s)))) in *.
  destruct (new_side_run now s1) as [(t1 & k1 & E1 & Hr1)|(n & e & Hn & Hr1)];
    [rewrite (stres_bind_Ok _ _ _ _ _ Hr1)|
     rewrite (stres_bind_Err _ _ _ _ _ Hr1); left; exists n; split; [cbn in Hn; lia|done]].
  cbv beta. set (s2 := at_draw s1 (S (S (draws s1)))) in *. rewrite (stres_bind_Ok get _ s2 s2 s2) by done.
  case_decide; [left; exists (draws s2); split; [cbn; lia|done]|].
  destruct (random_32_run s2) as [(id & Eid & Hr2)|(e & Hr2)];
    [rewrite (stres_bind_Ok _ _ _ _ _ Hr2)|
     rewrite (stres_bind_Err _ _ _ _ _ Hr2); left; exists (S (draws s2)); split; [cbn; lia|done]].
  right. eexists _, (mkLease sc _ None _ _ (_, _)), (S (draws s2)), (draws s), (draws s1), t0, t1.
  split; [|done]. split; [done|cbn [scope]; lia|by split; [|intros []]| |split_and!; done || (cbn; lia)|done].
  split; cbn; try done; [by apply (scope_accounts sc)| |intros []; split; cbn; lia|].
  - unfold u64_saturating_add. lia.
  - eexists. split; [done|]. rewrite length_take, (entropy_length _ _ Eid). done.
Qed.

Lemma allocate_inv owner sc endpoint now :
  keeps voice_inv (voice_allocate decode_base64url entropy owner sc endpoint now).
Proof.
  intros s Hs. destruct (allocate_outcome owner sc endpoint now s)
    as [-> | [(n & Hn & ->)|(k & l & n & j0 & j1 & b0 & b1 & [Habs [Hsz Hus] [Hco _] Hok (Hj & Hn & E0 & E1) [T0 T1]] & ->)]];
    [done|apply at_draw_inv; [done|by apply expire_inv]|].
  apply (added_inv _ k l n j0 j1 b0 b1); try done. by apply expire_inv.
Qed.

Lemma accept_inv owner c endpoint now : keeps voice_inv (accept_verified owner c endpoint now).
Proof.
  unfold accept_verified. apply keeps_bind; [intros s Hs; by apply expire_inv|intros _]. apply keeps_get_bind. intros s Hs.
  destruct (leases s !! _) as [l|] eqn:Hk; [|done]. case_decide as Hbind; [done|].
  destruct (consent l) as [old|] eqn:Hco; [case_decide; done|]. case_decide as Hcap; [done|].
  refine (consent_inv s _ l c Hk Hco _ _ Hs); [|lia].
  split_and!; apply dec_stable; naive_solver.
Qed.

Lemma renew_inv owner sc now : keeps voice_inv (renew owner sc now).
Proof.
  unfold renew. apply keeps_bind; [intros s Hs; by apply expire_inv|intros _]. apply keeps_get_bind. intros s Hs.
  destruct (leases s !! _) as [l|] eqn:Hk; [|done]. do 3 (case_decide; [done|]).
  refine (update_inv s _ l (set_expiry l _) (draws s) Hk _ _ _ _ _ Hs); try done.
  destruct (vi_lease _ Hs _ _ Hk) as [Q1 Q2 Q3 Q4 Q5 Q6 Q7]. split; cbn; try done. lia.
Qed.

Lemma renew_consented_inv owner c now : keeps voice_inv (renew_consented owner c now).
Proof.
  unfold renew_consented. apply keeps_bind; [apply keeps_get|intros s].
  case_decide; [apply keeps_lift|apply renew_inv].
Qed.

Lemma release_inv owner sc : keeps voice_inv (voice_release owner sc).
Proof.
  unfold voice_release. apply keeps_get_bind. intros s Hs.
  destruct (leases s !! _) as [l|] eqn:Hk; [|done]. case_decide; [done|]. by apply drop_inv.
Qed.

(** ** Packets *)

(** What charging a packet leaves of a side. *)
Lemma charge_packet_spec side ad len side' r :
  charge_packet decode_base64url side ad len = (side', r) ->
  token side' = token side /\ rebind_key side' = rebind_key side /\ source side' = source side /\
  challenge side' = challenge side /\ (windows_ok side -> windows_ok side').
Proof.
  unfold charge_packet, charge_window, windows_ok. repeat case_decide; try case_match;
    intros [= <- <-]; cbn; split_and!; try done; lia.
Qed.

Lemma admit_spec ad side d side' d' r :
  admit_source decode_base64url entropy ad (side, d) = ((side', d'), r) ->
  token side' = token side /\ rebind_key side' = rebind_key side /\ (d <= d')%nat /\
  (windows_ok side -> windows_ok side').
Proof.
  unfold admit_source. repeat (case_match || case_decide); intros [= <- <- <-]; cbn; split_and!; done || lia.
Qed.

(** The caller's or the callee's side replaced by one with the same credential. *)
Lemma put_side_inv s k l i side drawn :
  leases s !! k = Some l -> (i = true -> is_Some (consent l)) -> (draws s <= drawn)%nat ->
  token side = token (side_at l i) -> windows_ok side ->
  voice_inv s -> voice_inv (put_side s k l i side drawn).
Proof.
  intros Hk Hi Hd Ht Hw Hs. apply (update_inv s k l); try done; [|by intros []; destruct i].
  destruct (vi_lease _ Hs _ _ Hk) as [Q1 Q2 Q3 Q4 Q5 Q6 Q7]. split; try done.
  - intros Hnone. destruct i; [|by apply Q4]. cbn in Hnone. rewrite Hnone in Hi. by destruct Hi.
  - intros j. pose proof (Q6 true). pose proof (Q6 false). by destruct i, j.
Qed.

Lemma route_inv packet src now ap : keeps voice_inv (route_with_rebinding decode_base64url entropy packet src now ap).
Proof.
  intros s Hs. unfold route_with_rebinding. destruct (decode_voice_datagram packet) as [[tok payload]|]; [|done].
  destruct (_ && _); [done|]. destruct (tokens s !! tok) as [[k i]|] eqn:Htok; [|done].
  destruct (leases s !! k) as [l|] eqn:Hk; [|done]. case_decide; [by apply drop_inv|].
  assert (i = true -> is_Some (consent l)) as Hi.
  { apply (vi_tokens _ Hs) in Htok as (l' & Hl' & _ & Hc). by simplify_eq. }
  destruct (_ && _); [done|]. pose proof (lo_windows _ _ (vi_lease _ Hs _ _ Hk) i) as Hw.
  destruct (charge_packet _ _ _ _) as [side [[]|e]] eqn:Hch; apply charge_packet_spec in Hch as (T1 & _ & _ & _ & W1);
    [|apply put_side_inv; auto].
  destruct (admit_source _ _ _ _) as [[side' d] r] eqn:Had. apply admit_spec in Had as (T2 & _ & Hd & W2).
  assert (voice_inv (put_side s k l i side' d)) as Hput by (apply put_side_inv; auto; congruence).
  by repeat (case_match; try done).
Qed.

(** ** Runs *)

Inductive VoiceOp :=
| VAllocate (owner : string) (sc : VoiceAllocationRequest) (endpoint : string) (now : N)
| VAccept (owner : string) (c : VoiceLeaseConsent) (endpoint : string) (now : N)
| VRenew (owner : string) (sc : VoiceAllocationRequest) (now : N)
| VRenewConsented (owner : string) (c : VoiceLeaseConsent) (now : N)
| VRelease (owner : string) (sc : VoiceAllocationRequest)
| VExpire (now : N)
| VPacket (packet : bytes) (src : SocketAddr) (now : N) (allow_private : bool).

(** The state after an operation, whether it succeeds or not. *)
Definition voice_exec (s : VoiceRelayState) (op : VoiceOp) : VoiceRelayState :=
  match op with
  | VAllocate owner sc endpoint now => (voice_allocate decode_base64url entropy owner sc endpoint now s).1
  | VAccept owner c endpoint now => (accept_verified owner c endpoint now s).1
  | VRenew owner sc now => (renew owner sc now s).1
  | VRenewConsented owner c now => (renew_consented owner c now s).1
  | VRelease owner sc => (voice_release owner sc s).1
  | VExpire now => voice_expire now s
  | VPacket packet src now ap => (route_with_rebinding decode_base64url entropy packet src now ap s).1
  end.

Definition voice_run (ops : list VoiceOp) : VoiceRelayState := foldl voice_exec voice_new ops.

Lemma voice_exec_inv s op : voice_inv s -> voice_inv (voice_exec s op).
Proof.
  intros Hs. destruct op; cbn [voice_exec]; [by apply allocate_inv|by apply accept_inv|by apply renew_inv|
    by apply renew_consented_inv|by apply release_inv|by apply expire_inv|by apply route_inv].
Qed.

Lemma voice_run_inv ops : voice_inv (voice_run ops).
Proof. apply (foldl_keeps voice_inv); [apply voice_exec_inv|apply voice_inv_new]. Qed.

(** ** What a routed packet says *)

(** A packet that reaches the admission of a side. *)
Record routed (packet : bytes) (src : SocketAddr) (now : N) (ap : bool) (s s' : VoiceRelayState)
    (k : LeaseKey) (l : Lease) (i : bool) (payload : bytes) (charged side : Side) : Prop := {
  ro_decode : decode_voice_datagram packet = Ok (token (side_at l i), payload);
  ro_public : ap = false -> relay_socket_target_allowed src [] = true;
  ro_lease : leases s !! k = Some l;
  ro_consent : i = true -> is_Some (consent l);
  ro_live : now < le_expires_at l;
  ro_charged : source charged = source (side_at l i) /\ challenge charged = challenge (side_at l i) /\
    token charged = token (side_at l i) /\ rebind_key charged = rebind_key (side_at l i);
  ro_after : leases s' = <[k := set_side l i side]> (leases s) /\ tokens s' = tokens s;
}.

Definition admission (l : Lease) (i : bool) (src : SocketAddr) (payload : bytes) (now : N) (packet : bytes) : Admission :=
  mkAdmission (lease_id l) i src payload now (bool_decide (MIN_REBIND_CHALLENGE_DATAGRAM_BYTES <= length packet)%nat).

Lemma route_outcome packet src now ap s s' r :
  voice_inv s -> route_with_rebinding decode_base64url entropy packet src now ap s = (s', Ok r) ->
  exists k l i payload charged side res,
    routed packet src now ap s s' k l i payload charged side /\
    charge_packet decode_base64url (side_at l i) (admission l i src payload now packet) (length packet) =
      (charged, Ok tt) /\
    admit_source decode_base64url entropy (admission l i src payload now packet) (charged, draws s) =
      ((side, draws s'), Ok res) /\
    match res with
    | Some x => r = x
    | None => (r = Drop /\ (payload = [] \/ source (side_at l (negb i)) = None)) \/
        exists target, r = Forward target payload /\ source (side_at l (negb i)) = Some target /\
          (ap = false -> relay_socket_target_allowed target [] = true)
    end.
Proof.
  intros Hs. unfold route_with_rebinding. destruct (decode_voice_datagram packet) as [[tok payload]|] eqn:Hdec; [|done].
  destruct (negb ap && _) eqn:Hpub; [done|]. destruct (tokens s !! tok) as [[k i]|] eqn:Htok; [|done].
  destruct (leases s !! k) as [l|] eqn:Hk; [|done]. case_decide as Hlive; [done|].
  apply (vi_tokens _ Hs) in Htok as (l' & Hl' & Htok & Hc). rewrite Hk in Hl'. injection Hl' as <-. subst tok.
  destruct (i && _); [done|]. fold (admission l i src payload now packet).
  destruct (charge_packet _ _ _ _) as [charged [[]|e]] eqn:Hch; [|done].
  destruct (admit_source _ _ _ _) as [[side d] res] eqn:Had. destruct res as [res|]; [|done].
  intros Hrun. exists k, l, i, payload, charged, side, res.
  assert (s' = put_side s k l i side d) as -> by (repeat (case_match; try done); congruence).
  pose proof (charge_packet_spec _ _ _ _ _ Hch) as (T1 & K1 & S1 & C1 & _).
  split; [split; try done; [intros ->; by destruct (relay_socket_target_allowed src [])|lia]|].
  split; [done|]. split; [done|]. destruct res as [x|]; [congruence|].
  case_decide; [left; split; [congruence|by left]|]. destruct (source (side_at l (negb i))) as [target|];
    [|left; split; [congruence|by right]]. right. exists target. destruct (negb ap && _) eqn:Hpub' in Hrun; [done|].
  split; [congruence|]. split; [done|]. intros ->. by destruct (relay_socket_target_allowed target []).
Qed.

Lemma admit_none ad side d side' d' :
  admit_source decode_base64url entropy ad (side, d) = ((side', d'), Ok None) -> source side' = Some (ad_source ad).
Proof.
  unfold admit_source. destruct (bool_decide _ && _); [done|]. set (x := if decide (source side = None) then _ else _).
  case_decide as Hx; [|repeat case_match; done]. intros [= <- _]. done.
Qed.

Lemma admit_repins ad side d side' d' r a :
  admit_source decode_base64url entropy ad (side, d) = ((side', d'), r) -> source side = Some a ->
  source side' = Some a \/ (authenticates_pending decode_base64url side ad = true /\ source side' = Some (ad_source ad)).
Proof.
  unfold admit_source. intros Had Ha. revert Had.
  rewrite bool_decide_eq_false_2 by congruence. rewrite !(decide_False (P := source side = None)) by congruence.
  cbn [andb].
  case_decide; [intros [= <- _]; auto|]. case_match; [|repeat case_match; intros [= <- _ _]; auto].
  destruct (authenticates_pending _ side ad); intros [= <- _ _]; auto.
Qed.

Lemma admit_never_forwards ad side d side' d' target packet :
  admit_source decode_base64url entropy ad (side, d) <> ((side', d'), Ok (Some (Forward target packet))).
Proof. unfold admit_source. intros Had. repeat (case_match || case_decide); congruence. Qed.

(** The proof of return routability. *)
Lemma authenticates_proof side ad :
  authenticates_pending decode_base64url side ad = true ->
  exists ch tag, challenge side = Some ch /\ ad_now ad < ch_expires_at ch /\ ch_address ch = ad_source ad /\
    ad_payload ad = RESPONSE ++ cookie ch ++ tag /\
    voice_rebind_tag decode_base64url (rebind_key side) (ad_lease_id ad) (ad_index ad) (cookie ch) (ad_source ad) =
      Some tag.
Proof.
  unfold authenticates_pending. destruct (challenge side) as [ch|]; [|done].
  rewrite !andb_true_iff, !bool_decide_eq_true. intros [[[[[Hnow Hsrc] Hlen] Hresp] Hcookie] Htag].
  exists ch, (drop 36 (ad_payload ad)). unfold starts_with in Hresp. apply bool_decide_eq_true in Hresp.
  split; [done|]. split; [done|]. split; [done|]. split.
  - rewrite <- Hresp at 1. rewrite <- Hcookie.
    rewrite <- (take_drop 4 (ad_payload ad)) at 1. f_equal.
    rewrite <- (take_drop 32 (drop 4 (ad_payload ad))) at 1. by rewrite drop_drop.
  - revert Htag. unfold verify_voice_rebind_tag, voice_rebind_tag. case_decide; [done|].
    destruct (rebind_mac _ _ _ _ _ _) as [res|]; [|done]. rewrite bool_decide_eq_true. by intros <-.
Qed.

(** ** Sides that stay *)

(** Every lease of [s'] has the sides it had in [s], or has pinned nothing. *)
Definition same_sides (s s' : VoiceRelayState) : Prop :=
  forall k l', leases s' !! k = Some l' ->
    (exists l, leases s !! k = Some l /\ sides l' = sides l) \/ (forall i, source (side_at l' i) = None).

Lemma same_sides_insert s0 s k l l' s' :
  leases s !! k = Some l -> sides l' = sides l -> leases s' = <[k := l']> (leases s) ->
  same_sides s0 s -> same_sides s0 s'.
Proof.
  intros Hk Hsides Hs' Hss k' x. rewrite Hs'. intros [[<- <-]|[_ Hx]]%lookup_insert_Some; [|by apply Hss].
  destruct (Hss k l Hk) as [(y & Hy & He)|Hn]; [left; exists y; split; [done|congruence]|right].
  intros i. unfold side_at. rewrite Hsides. apply Hn.
Qed.

Lemma same_sides_expire s now : voice_inv s -> same_sides s (voice_expire now s).
Proof. intros Hs k l (Hl & _)%(expire_inv s now Hs). left. eauto. Qed.

Lemma same_sides_keep s : same_sides s s.
Proof. intros k l Hl. left. eauto. Qed.

Lemma allocate_sides owner sc endpoint now s :
  voice_inv s -> same_sides s (voice_allocate decode_base64url entropy owner sc endpoint now s).1.
Proof.
  intros Hs. pose proof (same_sides_expire s now Hs) as He. destruct (allocate_outcome owner sc endpoint now s)
    as [-> | [(n & Hn & ->)|(k & l & n & j0 & j1 & b0 & b1 & [_ _ [_ Hsrc] _ _ _] & ->)]];
    [apply same_sides_keep|exact He|].
  intros k' x. cbn [with_lease leases]. intros [[<- <-]|[_ Hx]]%lookup_insert_Some; [by right|by apply He].
Qed.

Lemma accept_sides owner c endpoint now s : voice_inv s -> same_sides s (accept_verified owner c endpoint now s).1.
Proof.
  intros Hs. unfold accept_verified. apply keeps_at; [by apply same_sides_expire|intros _].
  apply keeps_get_bind. intros s1 Hs1. destruct (leases s1 !! _) as [l|] eqn:Hk; [|done]. case_decide; [done|].
  destruct (consent l); [case_decide; done|]. case_decide; [done|].
  by apply (same_sides_insert s s1 _ l (set_consent l c) _ Hk).
Qed.

Lemma renew_sides owner sc now s : voice_inv s -> same_sides s (renew owner sc now s).1.
Proof.
  intros Hs. unfold renew. apply keeps_at; [by apply same_sides_expire|intros _].
  apply keeps_get_bind. intros s1 Hs1. destruct (leases s1 !! _) as [l|] eqn:Hk; [|done].
  do 3 (case_decide; [done|]). eapply same_sides_insert; [exact Hk| |reflexivity|exact Hs1]. done.
Qed.

Lemma release_sides owner sc s : same_sides s (voice_release owner sc s).1.
Proof.
  unfold voice_release. apply keeps_get_bind; [|apply same_sides_keep]. intros s1 Hs1.
  destruct (leases s1 !! _) as [l|]; [|done]. case_decide; [done|].
  intros k l' Hl'. apply Hs1. cbn in Hl'. by apply lookup_delete_Some in Hl' as [_ Hl'].
Qed.

(** Only packets change the sides of a lease. *)
Lemma exec_sides s op :
  voice_inv s -> same_sides s (voice_exec s op) \/ exists packet src now ap, op = VPacket packet src now ap.
Proof.
  intros Hs. destruct op; cbn [voice_exec]; [left..|right; eauto].
  - by apply allocate_sides.
  - by apply accept_sides.
  - by apply renew_sides.
  - unfold renew_consented. rewrite (stres_bind_Ok get _ s s s) by done.
    case_decide; [apply same_sides_keep|by apply renew_sides].
  - apply release_sides.
  - by apply same_sides_expire.
Qed.

(** A packet changes at most the side whose token it has: by the charge, or by
    the charge and the admission. *)
Lemma route_state packet src now ap s :
  voice_inv s ->
  let s' := (route_with_rebinding decode_base64url entropy packet src now ap s).1 in
  same_sides s s' \/
  exists k l i payload charged side,
    routed packet src now ap s s' k l i payload charged side /\
    (side = charged \/ exists d r,
       admit_source decode_base64url entropy (admission l i src payload now packet) (charged, draws s) = ((side, d), r)).
Proof.
  intros Hs. cbn zeta. unfold route_with_rebinding.
  destruct (decode_voice_datagram packet) as [[tok payload]|] eqn:Hdec; [|left; apply same_sides_keep].
  destruct (negb ap && _) eqn:Hpub; [left; apply same_sides_keep|].
  destruct (tokens s !! tok) as [[k i]|] eqn:Htok; [|left; apply same_sides_keep].
  destruct (leases s !! k) as [l|] eqn:Hk; [|left; apply same_sides_keep]. case_decide as Hlive.
  { left. intros k' l' Hl'. cbn in Hl'. apply lookup_delete_Some in Hl' as [_ Hl']. left. eauto. }
  apply (vi_tokens _ Hs) in Htok as (l' & Hl' & Htok & Hc). rewrite Hk in Hl'. injection Hl' as <-. subst tok.
  destruct (i && _); [left; apply same_sides_keep|]. fold (admission l i src payload now packet). right.
  destruct (charge_packet _ _ _ _) as [charged res] eqn:Hch.
  pose proof (charge_packet_spec _ _ _ _ _ Hch) as (T1 & K1 & S1 & C1 & _).
  assert (ap = false -> relay_socket_target_allowed src [] = true) as Hallowed
    by (intros ->; by destruct (relay_socket_target_allowed src [])).
  exists k, l, i, payload, charged. destruct res as [[]|e]; [|exists charged; split; [|by left]; split; done || lia].
  destruct (admit_source _ _ _ _) as [[side d] r] eqn:Had. exists side. split; [|eauto].
  split; try done; try lia. by repeat (case_match; try done).
Qed.

(** ** Theorems *)

(** after any operations with any arguments, there are at most 4096 leases,
    the counter of an account is the number of leases it takes part in, as caller
    or as a callee that consented, and that number is at most 2. *)
Theorem voice_leases_bounded ops account :
  let s := voice_run ops in
  (size (leases s) <= MAX_ALLOCATIONS)%nat /\
  usage_count (usage s) account = held (leases s) (usage_key account) /\
  (held (leases s) (usage_key account) <= ACCOUNT_LIMIT)%nat.
Proof.
  destruct (voice_run_inv ops) as [_ _ _ _ Hsz Hus Hlim]. cbn zeta. split; [done|]. split; [|apply Hlim]. apply Hus.
Qed.

(** C10: the relay forwards a datagram only with the token of one side of a live
    lease whose callee consented to exactly that lease, from the address pinned to
    that side and to the address pinned to the other one, and neither is a refused
    target. *)
Theorem voice_media_confined ops packet src now ap s' target payload :
  route_with_rebinding decode_base64url entropy packet src now ap (voice_run ops) = (s', Ok (Forward target payload)) ->
  exists k l i c,
    leases s' !! k = Some l /\
    decode_voice_datagram packet = Ok (token (side_at l i), payload) /\
    source (side_at l i) = Some src /\ source (side_at l (negb i)) = Some target /\
    now < le_expires_at l <= hard_expires_at l /\
    consent l = Some c /\ cs_scope c = scope l /\ cs_lease_id c = lease_id l /\ cs_expires_at c = hard_expires_at l /\
    (ap = false -> relay_socket_target_allowed src [] = true /\ relay_socket_target_allowed target [] = true).
Proof.
  intros Hrun. pose proof (voice_run_inv ops) as Hs.
  destruct (route_outcome _ _ _ _ _ _ _ Hs Hrun) as (k & l & i & p & charged & side & res & Hro & _ & Had & Hres).
  destruct Hro as [Hdec Hpub Hk Hc Hlive (_ & _ & Htok & _) [Hafter _]]. pose proof (vi_lease _ Hs _ _ Hk) as Hok.
  pose proof (admit_spec _ _ _ _ _ _ Had) as (Htok' & _). destruct res as [x|]; [subst x; by apply admit_never_forwards in Had|]. apply admit_none in Had. cbn in Had.
  destruct Hres as [[? _]|(t & [= <- <-] & Ht & Hpub')]; [done|].
  assert (exists c, consent l = Some c) as [c Hcon].
  { destruct (consent l) as [c|] eqn:Hcon; [by exists c|exfalso]. destruct i; [by destruct Hc|].
    pose proof (lo_quiet _ _ Hok Hcon) as Hq. cbn in Ht, Hq. congruence. }
  exists k, (set_side l i side), i, c. rewrite Hafter, lookup_insert_eq.
  assert (token (side_at (set_side l i side) i) = token (side_at l i)) as -> by (destruct i; cbn in *; congruence).
  split; [done|]. split; [done|]. split; [by destruct i|]. split; [by destruct i|].
  split; [split; [done|apply Hok]|]. split; [done|]. destruct (lo_consent _ _ Hok _ Hcon) as (? & ? & ?).
  split; [done|]. split; [done|]. split; [done|]. auto.
Qed.

(** C9: while a lease lasts, the address pinned to one of its sides changes only
    when a datagram from the new address answers the challenge that was sent to
    that address, before it expired, with the side's key: no other operation and
    no other packet changes it. *)
Theorem voice_repinned_by_proof ops op k l l' i a b :
  leases (voice_run ops) !! k = Some l -> leases (voice_exec (voice_run ops) op) !! k = Some l' ->
  source (side_at l i) = Some a -> source (side_at l' i) = Some b -> a <> b ->
  exists packet now ap ch tag,
    op = VPacket packet b now ap /\
    challenge (side_at l i) = Some ch /\ ch_address ch = b /\ now < ch_expires_at ch /\
    decode_voice_datagram packet = Ok (token (side_at l i), RESPONSE ++ cookie ch ++ tag) /\
    voice_rebind_tag decode_base64url (rebind_key (side_at l i)) (lease_id l) i (cookie ch) b = Some tag.
Proof.
  intros Hl Hl' Ha Hb Hab. pose proof (voice_run_inv ops) as Hs. set (s := voice_run ops) in *.
  assert (~ same_sides s (voice_exec s op)) as Hchanged.
  { intros Hss. destruct (Hss k l' Hl') as [(y & Hy & He)|Hn]; [|by rewrite Hn in Hb].
    rewrite Hl in Hy. injection Hy as <-. unfold side_at in *. rewrite He in Hb. congruence. }
  destruct (exec_sides s op Hs) as [?|(packet & src & now & ap & ->)]; [done|]. cbn [voice_exec] in *.
  destruct (route_state packet src now ap s Hs) as [?|(k1 & l1 & i1 & payload & charged & side & Hro & Hside)]; [done|].
  destruct Hro as [Hdec _ Hk1 _ _ (Hsrc & Hchal & _ & Hkey) [Hafter _]]. rewrite Hafter in Hl'.
  apply lookup_insert_Some in Hl' as [[-> <-]|[_ Hl']]; [|rewrite Hl in Hl'; injection Hl' as ->; congruence].
  rewrite Hl in Hk1. injection Hk1 as <-.
  destruct (decide (i1 = i)) as [->|Hi]; [|destruct i, i1; cbn in *; congruence].
  assert (source side = Some b) as Hb' by by destruct i. rewrite <- Hsrc in Ha.
  destruct Hside as [->|(d & r & Had)]; [congruence|].
  destruct (admit_repins _ _ _ _ _ _ a Had Ha) as [?|[Hauth Hnew]]; [congruence|].
  apply authenticates_proof in Hauth as (ch & tag & Hch & Hlive & Haddr & Hpay & Htag). cbn in *.
  assert (src = b) as -> by congruence. exists packet, now, ap, ch, tag. rewrite Hpay in Hdec. rewrite Hkey in Htag.
  split_and!; try done; congruence.
Qed.

(** ** Completing a change of address *)

Lemma datagram_roundtrip t payload packet :
  length t = 32%nat -> encode_voice_datagram decode_base64url (encode_base64url t) payload = Ok packet ->
  decode_voice_datagram packet = Ok (encode_base64url t, payload).
Proof.
  intros Ht. unfold encode_voice_datagram. rewrite decode_encode. cbn [ok_or]. cbn.
  case_decide as Hsz; [done|]. intros Hp%Ok_inj.
  assert (packet = u32_be 32 ++ t ++ payload) as -> by done.
  unfold decode_voice_datagram. rewrite !length_app, Ht. change (length (u32_be 32)) with 4%nat.
  rewrite decide_False.
  - rewrite (drop_app_length' _ _ 4), take_app_length' by done.
    rewrite app_assoc, drop_app_length' by (rewrite length_app, Ht; done). done.
  - rewrite (take_app_length' _ _ 4) by done. intros [?|[?|?]]; [lia|lia|done].
Qed.

Lemma address_roundtrip pre src :
  length pre = 36%nat -> wf_ip (ip src) -> port src < 65536 ->
  challenge_address (pre ++ address_bytes src) = Some src.
Proof.
  intros Hpre Hwf Hport. unfold challenge_address.
  assert (forall j, (36 <= j)%nat -> drop j (pre ++ address_bytes src) = drop (j - 36) (address_bytes src)) as Hdrop
    by (intros j Hj; rewrite drop_app_ge, Hpre by lia; done).
  assert (forall j, (36 <= j)%nat -> nth j (pre ++ address_bytes src) x00 = nth (j - 36) (address_bytes src) x00)
    as Hnth by (intros j Hj; rewrite app_nth2, Hpre by lia; done).
  assert (forall n, n < 65536 -> be_to_N (u16_be n) = n) as H16 by (intros n Hn; by apply be_to_of).
  assert (forall n, n < 256 -> Byte.to_N (byte_of (n mod 256)) = n) as H8
    by (intros n Hn; rewrite N.mod_small by done; by apply byte_of_to_N).
  assert (forall b, address_bytes src !! 0%nat = Some b -> (pre ++ address_bytes src) !! 36%nat = Some b) as Hfam
    by (intros b Hb; rewrite lookup_app_r, Hpre by lia; exact Hb).
  rewrite length_app, Hpre. destruct src as [[a b c d|s0 s1 s2 s3 s4 s5 s6 s7] p]; cbn [ip port] in *.
  - cbn [wf_ip] in Hwf. rewrite !Forall_cons in Hwf. destruct Hwf as (Ha & Hb & Hc & Hd & _).
    rewrite (Hfam x04 eq_refl), decide_True by done. cbv zeta.
    rewrite !Hnth, !Hdrop by lia.
    do 2 f_equal; [f_equal|exact (H16 p Hport)];
      [exact (H8 a Ha)|exact (H8 b Hb)|exact (H8 c Hc)|exact (H8 d Hd)].
  - cbn [wf_ip] in Hwf. rewrite !Forall_cons in Hwf. destruct Hwf as (Q0 & Q1 & Q2 & Q3 & Q4 & Q5 & Q6 & Q7 & _).
    rewrite (Hfam x06 eq_refl), decide_True by done. cbv zeta.
    rewrite !Hdrop by lia.
    do 2 f_equal; [f_equal|exact (H16 p Hport)]; [exact (H16 s0 Q0)|exact (H16 s1 Q1)|exact (H16 s2 Q2)|
      exact (H16 s3 Q3)|exact (H16 s4 Q4)|exact (H16 s5 Q5)|exact (H16 s6 Q6)|exact (H16 s7 Q7)].
Qed.

Lemma admit_challenges ad side d side' d' target packet :
  admit_source decode_base64url entropy ad (side, d) = ((side', d'), Ok (Some (ChallengeTo target packet))) ->
  exists a ck, source side = Some a /\ a <> ad_source ad /\ entropy d = Some ck /\
    side' = set_challenge side (Some (mkChallenge (ad_source ad) ck (u64_saturating_add (ad_now ad) CHALLENGE_TTL))) /\
    target = ad_source ad /\ packet = challenge_packet ck (ad_source ad).
Proof.
  unfold admit_source. destruct (source side) as [a|] eqn:Ha.
  - rewrite bool_decide_eq_false_2 by done. rewrite !(decide_False (P := Some a = None)) by done. cbn [andb].
    rewrite Ha. case_decide as Hne; [intros; repeat case_match; congruence|].
    case_match; [done|]. case_match; [done|]. destruct (entropy d) as [ck|] eqn:Hck; [|done].
    intros [= <- <- <- <-]. exists a, ck. split_and!; try done. congruence.
  - rewrite !(decide_True (P := None = None)) by done. cbn [source set_source]. rewrite decide_True by done.
    intros. repeat case_match; congruence.
Qed.

(** The tag of a lease id and side that the relay made. *)
Lemma rebind_tag_total {laws : PrimitiveLaws prim} key l side ck address k :
  lease_ok k l ->
  exists tag, voice_rebind_tag decode_base64url key (lease_id l) side ck address = Some tag /\ length tag = 16%nat /\
    verify_voice_rebind_tag decode_base64url key (lease_id l) side ck address tag = true.
Proof.
  intros [_ _ _ _ _ _ (b & Hid & Hb)]. unfold voice_rebind_tag, verify_voice_rebind_tag, rebind_mac.
  rewrite Hid, decode_encode. cbn [mbind option_bind]. rewrite decide_False by tauto.
  destruct (hmac_total key (str "ramflux.voice.rebind.v1" ++ b ++ [if side then x01 else x00] ++ ck ++
    address_bytes address)) as (mac & Hmac & Hlen).
  rewrite Hmac. exists (take 16 mac). cbn [mbind option_bind]. split; [done|].
  assert (length (take 16 mac) = 16%nat) as H16 by (rewrite length_take, Hlen; done). split; [done|].
  rewrite decide_False by tauto. by apply bool_decide_eq_true_2.
Qed.

(** The answer to the pending challenge authenticates. *)
Lemma answer_authenticates side ad ck e tag :
  challenge side = Some (mkChallenge (ad_source ad) ck e) -> ad_now ad < e ->
  ad_payload ad = RESPONSE ++ ck ++ tag -> length ck = 32%nat -> length tag = 16%nat ->
  verify_voice_rebind_tag decode_base64url (rebind_key side) (ad_lease_id ad) (ad_index ad) ck (ad_source ad) tag =
    true ->
  authenticates_pending decode_base64url side ad = true.
Proof.
  intros Hch Hnow Hpay Hck Htag Hver. unfold authenticates_pending. rewrite Hch. cbn [ch_address ch_expires_at cookie].
  assert (drop 36 (ad_payload ad) = tag) as ->.
  { rewrite Hpay, app_assoc. apply drop_app_length'. by rewrite length_app, Hck. }
  rewrite Hver, andb_true_r, !andb_true_iff, !bool_decide_eq_true. unfold starts_with. rewrite bool_decide_eq_true.
  rewrite Hpay, !length_app, Hck, Htag. split_and!; try done.
  rewrite (drop_app_length' _ _ 4) by done. by apply take_app_length'.
Qed.

(** The client's answer to a challenge packet. *)
Lemma response_of_challenge {laws : PrimitiveLaws prim} key l side ck src k :
  lease_ok k l -> length ck = 32%nat -> wf_ip (ip src) -> port src < 65536 ->
  exists tag, voice_rebind_response decode_base64url key (lease_id l) side (challenge_packet ck src) =
      Some (RESPONSE ++ ck ++ tag) /\ length tag = 16%nat /\
    verify_voice_rebind_tag decode_base64url key (lease_id l) side ck src tag = true.
Proof.
  intros Hok Hck Hwf Hport. destruct (rebind_tag_total key l side ck src k Hok) as (tag & Htag & Hlen & Hver).
  exists tag. split; [|done]. unfold voice_rebind_response, challenge_packet.
  rewrite (take_app_length' _ _ 4) by done. rewrite decide_False by tauto.
  rewrite (drop_app_length' _ _ 4), (take_app_length' _ _ 32) by done.
  rewrite app_assoc, address_roundtrip by (done || by rewrite length_app, Hck). cbn [mbind option_bind].
  rewrite Htag. done.
Qed.

(** A side that is pinned elsewhere and has a challenge pending for [src] is
    pinned to [src] by the answer. *)
Lemma answer_routed s k l i src ap now packet ck e tag a :
  leases s !! k = Some l -> tokens s !! token (side_at l i) = Some (k, i) -> (i = true -> is_Some (consent l)) ->
  now < le_expires_at l -> (ap = false -> relay_socket_target_allowed src [] = true) ->
  decode_voice_datagram packet = Ok (token (side_at l i), RESPONSE ++ ck ++ tag) ->
  source (side_at l i) = Some a -> a <> src ->
  challenge (side_at l i) = Some (mkChallenge src ck e) -> now < e -> length ck = 32%nat -> length tag = 16%nat ->
  verify_voice_rebind_tag decode_base64url (rebind_key (side_at l i)) (lease_id l) i ck src tag = true ->
  route_with_rebinding decode_base64url entropy packet src now ap s =
    (put_side s k l i (set_challenge (set_source (side_at l i) (Some src)) None) (draws s), Ok Drop).
Proof.
  intros Hk Htok Hcon Hlive Hpub Hdec Ha Hne Hch Hnow Hck Htag Hver. unfold route_with_rebinding. rewrite Hdec.
  replace (negb ap && negb (relay_socket_target_allowed src [])) with false
    by (destruct ap; [done|by rewrite Hpub]).
  rewrite Htok, Hk, decide_False by lia.
  replace (i && bool_decide (consent l = None)) with false
    by (destruct i; [symmetry; apply bool_decide_eq_false; by destruct (Hcon eq_refl) as [c ->]|done]).
  fold (admission l i src (RESPONSE ++ ck ++ tag) now packet).
  assert (authenticates_pending decode_base64url (side_at l i) (admission l i src (RESPONSE ++ ck ++ tag) now packet) =
    true) as Hauth by by eapply answer_authenticates.
  unfold charge_packet. rewrite decide_False by (cbn; congruence). rewrite Hauth. unfold admit_source.
  rewrite bool_decide_eq_false_2 by congruence. rewrite !(decide_False (P := source (side_at l i) = None)) by congruence.
  cbn [andb]. rewrite decide_False by (cbn; congruence).
  assert (pending (side_at l i) (ad_now (admission l i src (RESPONSE ++ ck ++ tag) now packet)) = true) as ->
    by (unfold pending; rewrite Hch; by apply bool_decide_eq_true_2).
  by rewrite Hauth.
Qed.

(** C36: a participant whose address changed can go on. When the relay challenges
    a new address, the answer that the client computes from the challenge packet
    and its key, sent from that address before the challenge and the lease expire,
    pins the side to the new address. *)
Theorem voice_rebind_completes {laws : PrimitiveLaws prim} ops packet src now ap s1 target p :
  wf_ip (ip src) -> port src < 65536 ->
  route_with_rebinding decode_base64url entropy packet src now ap (voice_run ops) = (s1, Ok (ChallengeTo target p)) ->
  target = src /\
  exists k l i resp datagram,
    leases s1 !! k = Some l /\ source (side_at l i) <> Some src /\
    voice_rebind_response decode_base64url (rebind_key (side_at l i)) (lease_id l) i p = Some resp /\
    encode_voice_datagram decode_base64url (token (side_at l i)) resp = Ok datagram /\
    forall now', now' < u64_saturating_add now CHALLENGE_TTL -> now' < le_expires_at l ->
      exists s2 l2, route_with_rebinding decode_base64url entropy datagram src now' ap s1 = (s2, Ok Drop) /\
        leases s2 !! k = Some l2 /\ source (side_at l2 i) = Some src.
Proof.
  intros Hwf Hport Hrun. pose proof (voice_run_inv ops) as Hs.
  destruct (route_outcome _ _ _ _ _ _ _ Hs Hrun) as (k & l & i & pl & charged & side & res & Hro & _ & Had & Hres).
  destruct Hro as [Hdec Hpub Hk Hcon Hlive (Hsrc & _ & Htok & Hkey) [Hafter Htoks]].
  destruct res as [x|]; [subst x|destruct Hres as [[? _]|(? & ? & _)]; done].
  apply admit_challenges in Had as (a & ck & Ha & Hne & Hck & Hside & -> & ->). cbn in Hne, Hside.
  apply entropy_length in Hck. split; [done|].
  destruct (vi_drawn _ Hs k l i Hk) as (j & t & _ & Et & Ht). apply entropy_length in Et.
  set (l1 := set_side l i side) in *.
  assert (side_at l1 i = side) as Hat by by destruct i.
  destruct (response_of_challenge (rebind_key side) l i ck src k (vi_lease _ Hs _ _ Hk) Hck Hwf Hport)
    as (tag & Hresp & Htag & Hver).
  assert (token side = encode_base64url t) as Htside by (rewrite Hside; cbn; congruence).
  destruct (encode_voice_datagram decode_base64url (encode_base64url t) (RESPONSE ++ ck ++ tag)) as [dg|] eqn:Hdg.
  2: { revert Hdg. unfold encode_voice_datagram. rewrite decode_encode. cbn [ok_or]. cbn.
       rewrite decide_False; [done|]. rewrite !length_app, Hck, Htag, Et. cbn. lia. }
  exists k, l1, i, (RESPONSE ++ ck ++ tag), dg. rewrite Hat, Htside.
  split; [by rewrite Hafter, lookup_insert_eq|]. split; [rewrite Hside; cbn; congruence|].
  split; [done|]. split; [done|]. intros now' Hnow' Hexp'.
  set (side2 := set_challenge (set_source (side_at l1 i) (Some src)) None).
  exists (put_side s1 k l1 i side2 (draws s1)), (set_side l1 i side2).
  split; [|split; [apply lookup_insert_eq|by destruct i]].
  apply (answer_routed s1 k l1 i src ap now' dg ck (u64_saturating_add now CHALLENGE_TTL) tag a); rewrite ?Hat, ?Htside; try done.
  all: try (rewrite Hside; cbn; done).
  - by rewrite Hafter, lookup_insert_eq.
  - rewrite Htoks. apply (vi_tokens _ Hs). exists l. rewrite <- Htside. rewrite Hside. cbn. split; [done|split; [congruence|done]].
  - by apply datagram_roundtrip.
Qed.
End voice_inv.
