(* ===== verification/VoiceRun.v ===== *)
(** * The voice relay on a concrete run

    The theorems of VoiceProps.v applied with the primitives of RatchetRun.v, a
    base64url decoder and a random source that never repeats itself: two
    participants allocate, consent, exchange media, and one changes its address. *)

From S2P Require Import Prelude OrdMap Bytes Publication Wire Crypto RatchetRun Net NetProps Voice VoiceProps.
From Stdlib Require Import Strings.Ascii Strings.Byte.

Open Scope N_scope.

#[local] Existing Instance toy.
#[local] Existing Instance toy_laws.

(** ** Decoding base64url *)

Definition b64_value (c : Ascii.ascii) : option N :=
  let n := Ascii.N_of_ascii c in
  if decide (65 <= n <= 90) then Some (n - 65) else if decide (97 <= n <= 122) then Some (n - 71)
  else if decide (48 <= n <= 57) then Some (n + 4) else if decide (n = 45) then Some 62
  else if decide (n = 95) then Some 63 else None.

Lemma b64_value_char v : v < 64 -> b64_value (b64_char v) = Some v.
Proof.
  intros Hv. assert (Forall (fun v => b64_value (b64_char v) = Some v) (N.of_nat <$> seq 0 64)) as Hall
    by (repeat constructor).
  rewrite Forall_forall in Hall. apply Hall. apply list_elem_of_fmap. exists (N.to_nat v).
  split; [lia|]. apply elem_of_seq. lia.
Qed.

(** The bytes of a group of up to 24 bits. *)
Definition group_bytes (n : N) : bytes := [byte_of (n / 65536); byte_of (n / 256 mod 256); byte_of (n mod 256)].

Fixpoint unb64 (s : string) : option bytes :=
  match s with
  | String p (String q (String r (String t s))) =>
      b64_value p ≫= fun p => b64_value q ≫= fun q => b64_value r ≫= fun r => b64_value t ≫= fun t =>
      unb64 s ≫= fun rest => Some (group_bytes (p * 262144 + q * 4096 + r * 64 + t) ++ rest)
  | String p (String q (String r EmptyString)) =>
      b64_value p ≫= fun p => b64_value q ≫= fun q => b64_value r ≫= fun r =>
      Some (take 2 (group_bytes (p * 262144 + q * 4096 + r * 64)))
  | String p (String q EmptyString) =>
      b64_value p ≫= fun p => b64_value q ≫= fun q => Some (take 1 (group_bytes (p * 262144 + q * 4096)))
  | EmptyString => Some []
  | _ => None
  end.

#[local] Ltac Zify.zify_post_hook ::= Z.to_euclidean_division_equations.

(** The sextets of a group add up to it, and its bytes are those it came from. *)
Lemma sextets n :
  n < 16777216 ->
  n / 262144 < 64 /\ n / 4096 mod 64 < 64 /\ n / 64 mod 64 < 64 /\ n mod 64 < 64 /\
  n / 262144 * 262144 + n / 4096 mod 64 * 4096 + n / 64 mod 64 * 64 + n mod 64 = n.
Proof.
  intros Hn. split_and!; lia.
Qed.

Lemma group_of a b c :
  group_bytes (Byte.to_N a * 65536 + Byte.to_N b * 256 + Byte.to_N c) = [a; b; c].
Proof.
  pose proof (to_N_bounded a). pose proof (to_N_bounded b). pose proof (to_N_bounded c). unfold group_bytes.
  repeat f_equal; rewrite <- (byte_of_N a) at 2 || rewrite <- (byte_of_N b) at 2 || rewrite <- (byte_of_N c) at 2;
    f_equal; lia.
Qed.

Lemma unb64_b64 n : forall l, (length l <= n)%nat -> unb64 (b64 l) = Some l.
Proof.
  induction n as [n IH] using lt_wf_ind. intros l Hl. destruct l as [|a [|b [|c l]]]; [done|..]; cbn [b64].
  - pose proof (to_N_bounded a). destruct (sextets (Byte.to_N a * 65536)) as (Q1 & Q2 & Q3 & Q4 & Hsum); [lia|].
    cbn [unb64]. rewrite !b64_value_char by done. cbn [mbind option_bind].
    replace (_ + _) with (Byte.to_N a * 65536 + Byte.to_N x00 * 256 + Byte.to_N x00) by (cbn [Byte.to_N]; lia).
    by rewrite group_of.
  - pose proof (to_N_bounded a). pose proof (to_N_bounded b).
    destruct (sextets (Byte.to_N a * 65536 + Byte.to_N b * 256)) as (Q1 & Q2 & Q3 & Q4 & Hsum); [lia|].
    cbn [unb64]. rewrite !b64_value_char by done. cbn [mbind option_bind].
    replace (_ + _) with (Byte.to_N a * 65536 + Byte.to_N b * 256 + Byte.to_N x00) by (cbn [Byte.to_N]; lia).
    by rewrite group_of.
  - pose proof (to_N_bounded a). pose proof (to_N_bounded b). pose proof (to_N_bounded c).
    destruct (sextets (Byte.to_N a * 65536 + Byte.to_N b * 256 + Byte.to_N c)) as (Q1 & Q2 & Q3 & Q4 & Hsum); [lia|].
    cbn [unb64]. rewrite !b64_value_char by done. cbn [mbind option_bind]. rewrite (IH (length l)) by (cbn in Hl; lia || done).
    cbn [mbind option_bind]. rewrite Hsum. by rewrite group_of.
Qed.

Lemma unb64_law b : unb64 (encode_base64url b) = Some b.
Proof. by apply (unb64_b64 (length b)). Qed.

(** ** A random source *)

(** Enough for the run, and without repetition. *)
Definition random (n : nat) : option bytes :=
  if decide (n < 100)%nat then Some (be_of_N 32 (N.of_nat n)) else None.

Lemma random_length i b : random i = Some b -> length b = 32%nat.
Proof. unfold random. case_decide; [|done]. intros <-%(inj Some). apply length_be_of_N. Qed.

Lemma random_fresh i j b : random i = Some b -> random j = Some b -> i = j.
Proof.
  unfold random. repeat case_decide; try done. intros <-%(inj Some) Hij%(inj Some). apply be_of_inj in Hij; lia.
Qed.

(** ** The run *)

Definition scope_ab : VoiceAllocationRequest :=
  mkScope (b64 (be_of_N 16 7)) (mkEndpoint "alice" (b64 (be_of_N 32 1)) "phone")
    (mkEndpoint "bob" (b64 (be_of_N 32 2)) "laptop").
Definition consent_ab : VoiceLeaseConsent := mkConsent scope_ab (b64 (take 16 (be_of_N 32 4))) 14500 "sig".
Definition opened : list VoiceOp := [VAllocate "node" scope_ab "relay" 100; VAccept "node" consent_ab "relay" 101].

Definition datagram (t : N) (payload : bytes) : bytes := u32_be 32 ++ be_of_N 32 t ++ payload.
Definition alice : SocketAddr := mkSocket (V4 8 8 8 8) 5000.
Definition alice_moved : SocketAddr := mkSocket (V4 8 8 4 4) 5001.
Definition bob : SocketAddr := mkSocket (V4 9 9 9 9) 6000.

(** Both sides have sent something; Alice's token is draw 0, Bob's draw 2. *)
Definition talking : list VoiceOp :=
  opened ++ [VPacket (datagram 2 (str "yo")) bob 110 false; VPacket (datagram 0 (str "hi")) alice 111 false].

(** A packet from Alice's new address that is long enough for a challenge. *)
Definition moved_packet : bytes := datagram 0 (repeat x00 32).

Lemma voice_leases_bounded_witness :
  let s := voice_run unb64 random opened in
  held (leases s) (usage_key (callee scope_ab)) = 1%nat /\
  usage_count (usage s) (callee scope_ab) = held (leases s) (usage_key (callee scope_ab)).
Proof.
  split; [vm_compute; reflexivity|].
  apply (voice_leases_bounded unb64 random unb64_law random_length random_fresh opened (callee scope_ab)).
Defined.

Lemma voice_media_confined_witness :
  exists s' k l i c,
    route_with_rebinding unb64 random (datagram 0 (str "hi")) alice 112 false (voice_run unb64 random talking) =
      (s', Ok (Forward bob (str "hi"))) /\
    leases s' !! k = Some l /\ source (side_at l i) = Some alice /\ source (side_at l (negb i)) = Some bob /\
    consent l = Some c.
Proof.
  assert (exists s', route_with_rebinding unb64 random (datagram 0 (str "hi")) alice 112 false
    (voice_run unb64 random talking) = (s', Ok (Forward bob (str "hi")))) as [s' Hrun]
    by (eexists; vm_compute; reflexivity).
  destruct (voice_media_confined unb64 random unb64_law random_length random_fresh talking (datagram 0 (str "hi"))
    alice 112 false s' bob (str "hi") Hrun) as (k & l & i & c & Hl & _ & Ha & Hb & _ & Hc & _).
  exists s', k, l, i, c. exact (conj Hrun (conj Hl (conj Ha (conj Hb Hc)))).
Defined.

(** The relay's challenge to the new address, and Alice's answer. *)
Definition challenged : list VoiceOp := talking ++ [VPacket moved_packet alice_moved 120 false].
Definition alice_answer : bytes :=
  default [] (voice_rebind_response unb64 (be_of_N 32 1) (b64 (take 16 (be_of_N 32 4))) false
    (challenge_packet (be_of_N 32 5) alice_moved)).

Lemma voice_repinned_by_proof_witness :
  exists l ch tag,
    leases (voice_run unb64 random challenged) !! ("node"%string, vs_call_id scope_ab) = Some l /\
    challenge (side_at l false) = Some ch /\ ch_address ch = alice_moved /\
    decode_voice_datagram (datagram 0 alice_answer) = Ok (token (side_at l false), RESPONSE ++ cookie ch ++ tag).
Proof.
  assert (exists l l', leases (voice_run unb64 random challenged) !! ("node"%string, vs_call_id scope_ab) = Some l /\
    leases (voice_exec unb64 random (voice_run unb64 random challenged) (VPacket (datagram 0 alice_answer) alice_moved 121 false))
      !! ("node"%string, vs_call_id scope_ab) = Some l' /\
    source (side_at l false) = Some alice /\ source (side_at l' false) = Some alice_moved)
    as (l & l' & Hl & Hl' & Ha & Hb)
    by (eexists _, _; split; [vm_compute; reflexivity|]; split; [vm_compute; reflexivity|]; split; reflexivity).
  destruct (voice_repinned_by_proof unb64 random unb64_law random_length random_fresh challenged
    (VPacket (datagram 0 alice_answer) alice_moved 121 false) _ l l' false alice alice_moved Hl Hl' Ha Hb)
    as (packet & now & ap & ch & tag & Hop & Hch & Haddr & _ & Hdec & _); [discriminate|].
  injection Hop as <- _ _. exists l, ch, tag. exact (conj Hl (conj Hch (conj Haddr Hdec))).
Defined.

Lemma voice_rebind_completes_witness :
  exists s1 p k l i resp,
    route_with_rebinding unb64 random moved_packet alice_moved 120 false (voice_run unb64 random talking) =
      (s1, Ok (ChallengeTo alice_moved p)) /\
    leases s1 !! k = Some l /\
    voice_rebind_response unb64 (rebind_key (side_at l i)) (lease_id l) i p = Some resp.
Proof.
  assert (exists s1 p, route_with_rebinding unb64 random moved_packet alice_moved 120 false
    (voice_run unb64 random talking) = (s1, Ok (ChallengeTo alice_moved p))) as (s1 & p & Hrun)
    by (eexists _, _; vm_compute; reflexivity).
  destruct (voice_rebind_completes unb64 random unb64_law random_length random_fresh talking moved_packet alice_moved
    120 false s1 alice_moved p) as (_ & k & l & i & resp & dg & Hl & _ & Hresp & _);
    [repeat constructor|reflexivity|exact Hrun|].
  exists s1, p, k, l, i, resp. exact (conj Hrun (conj Hl Hresp)).
Defined.
