(* ===== verification/GroupSender.v ===== *)
(** * Group sender keys

    crates/ramflux-crypto/src/group_sender.rs: every member of a group sends
    through its own chain of keys, which it distributes to the others; receivers
    follow the chain and keep the keys of messages they skipped. The Ed25519
    signature is a parameter. *)

From stdpp Require Import pretty.
From S2P Require Import Prelude OrdMap Bytes Crypto.
From Stdlib Require Import Strings.Byte.

Open Scope N_scope.

Definition MAX_GROUP_SKIP : nat := N.to_nat 2000.

Notation GROUP_SENDER_KEY_DISTRIBUTION := "ramflux.group_sender_key.distribution.v1"%string (only parsing).
Notation GROUP_SENDER_KEY_CHAIN := "ramflux.group_sender_key.chain.v1"%string (only parsing).
Notation GROUP_SENDER_KEY_MESSAGE := "ramflux.group_sender_key.message.v1"%string (only parsing).

(** ** Records *)

Record GroupMemberCommitment := mkMember {
  member_device_id_hash : bytes;
  member_role : string;
  member_device_epoch : N;
}.

Record GroupSenderKeyDistribution := mkDistribution {
  di_group_id_hash : bytes;
  di_group_epoch : N;
  di_group_key_epoch : N;
  di_sender_device_id_hash : bytes;
  di_sender_key_id : string;
  di_sender_chain_key : bytes;
  di_sender_signing_public_key : bytes;
  di_membership_commitment_hash : bytes;
}.

Record GroupMessageKeys := mkGroupKeys {
  gk_aead_key : bytes;
  gk_nonce : bytes;
  gk_commitment_key : bytes;
  gk_opening_key : bytes;
}.

(** One sender's chain, as the sender and each receiver hold it. *)
Record GroupSenderKeyState := mkGroup {
  gs_group_id_hash : bytes;
  gs_group_epoch : N;
  gs_group_key_epoch : N;
  gs_sender_device_id_hash : bytes;
  gs_sender_key_id : string;
  gs_sender_chain_key : bytes;
  gs_sender_message_number : N;
  gs_sender_signing_public_key : bytes;
  gs_membership_commitment_hash : bytes;
  max_group_skip : nat;
  gs_skipped_message_keys : gmap N GroupMessageKeys;
}.

Record GroupCiphertext := mkGroupCiphertext {
  gc_group_id_hash : bytes;
  gc_group_epoch : N;
  gc_group_key_epoch : N;
  gc_sender_device_id_hash : bytes;
  gc_sender_key_id : string;
  gc_sender_message_number : N;
  gc_message_event_id : string;
  gc_membership_commitment_hash : bytes;
  gc_canonical_header_bytes : bytes;
  gc_header_hash : string;
  gc_ciphertext : bytes;
  gc_ciphertext_hash : string;
  gc_key_commitment : string;
  gc_franking_commitment : string;
  gc_commitment : string;
  gc_signature_by_sender_key : string;
}.

Definition create_group_sender_key_distribution (group_id_hash : bytes) (group_epoch group_key_epoch : N)
    (sender_device_id_hash : bytes) (sender_key_id : string)
    (sender_chain_key sender_signing_public_key membership_commitment_hash : bytes) : GroupSenderKeyDistribution :=
  mkDistribution group_id_hash group_epoch group_key_epoch sender_device_id_hash sender_key_id sender_chain_key
    sender_signing_public_key membership_commitment_hash.

Definition from_distribution (d : GroupSenderKeyDistribution) : GroupSenderKeyState :=
  mkGroup (di_group_id_hash d) (di_group_epoch d) (di_group_key_epoch d) (di_sender_device_id_hash d)
    (di_sender_key_id d) (di_sender_chain_key d) 0 (di_sender_signing_public_key d) (di_membership_commitment_hash d)
    MAX_GROUP_SKIP ∅.

(** The chain moves to its next key and number. *)
Definition set_chain (s : GroupSenderKeyState) (chain : bytes) (number : N) : GroupSenderKeyState :=
  mkGroup (gs_group_id_hash s) (gs_group_epoch s) (gs_group_key_epoch s) (gs_sender_device_id_hash s)
    (gs_sender_key_id s) chain number (gs_sender_signing_public_key s) (gs_membership_commitment_hash s)
    (max_group_skip s) (gs_skipped_message_keys s).
Definition set_skipped_keys (s : GroupSenderKeyState) (m : gmap N GroupMessageKeys) : GroupSenderKeyState :=
  mkGroup (gs_group_id_hash s) (gs_group_epoch s) (gs_group_key_epoch s) (gs_sender_device_id_hash s)
    (gs_sender_key_id s) (gs_sender_chain_key s) (gs_sender_message_number s) (gs_sender_signing_public_key s)
    (gs_membership_commitment_hash s) (max_group_skip s) m.

(** ** Contexts and headers *)

Definition context_bytes (s : GroupSenderKeyState) (message_number : N) : bytes :=
  gs_group_id_hash s ++ u64_be (gs_group_epoch s) ++ u64_be (gs_group_key_epoch s) ++ gs_sender_device_id_hash s ++
  str (gs_sender_key_id s) ++ u64_be message_number ++ gs_membership_commitment_hash s.

Definition group_header_fields (s : GroupSenderKeyState) (message_number : N) (message_event_id : string)
  : list HeaderField :=
  [mkHeaderField 1 (HBytes32 (gs_group_id_hash s)); mkHeaderField 2 (HU64 (gs_group_epoch s));
   mkHeaderField 3 (HU64 (gs_group_key_epoch s)); mkHeaderField 4 (HBytes32 (gs_sender_device_id_hash s));
   mkHeaderField 5 (HString (gs_sender_key_id s)); mkHeaderField 6 (HU64 message_number);
   mkHeaderField 7 (HString message_event_id); mkHeaderField 8 (HBytes32 (gs_membership_commitment_hash s))].

Definition header_associated_data (associated_data canonical_header : bytes) : bytes :=
  associated_data ++ canonical_header.

Definition group_signature_preimage (canonical_header : bytes) (commitment ciphertext_hash : string) : bytes :=
  canonical_header ++ write_len_prefixed (str commitment) ++ write_len_prefixed (str ciphertext_hash).

(** ** The membership commitment *)

(** The order of the sort: device hash, role, epoch, each as bytes or number. *)
Definition member_le : relation GroupMemberCommitment := fun left right =>
  let key m := (String.string_of_list_byte (member_device_id_hash m), member_role m, member_device_epoch m) in
  key_le (key left) (key right).

#[export] Instance member_le_dec : RelDecision member_le.
Proof. intros m m'. apply _. Defined.

Definition member_bytes (m : GroupMemberCommitment) : bytes :=
  member_device_id_hash m ++ write_len_prefixed (str (member_role m)) ++ u64_be (member_device_epoch m).

Definition membership_preimage (group_id_hash : bytes) (group_epoch group_key_epoch : N)
    (members : list GroupMemberCommitment) (group_policy_hash : bytes) (sender_key_id : string) : bytes :=
  str GROUP_SENDER_KEY_DISTRIBUTION ++ group_id_hash ++ u64_be group_epoch ++ u64_be group_key_epoch ++
  mjoin (member_bytes <$> merge_sort member_le members) ++ group_policy_hash ++
  write_len_prefixed (str sender_key_id).

Section group.
Context {prim : Primitives}.
(** Ed25519: keys, [sign], [VerifyingKey::from_bytes] and [verify_strict]; and
    [decode_base64url]. *)
Context {SigningKey : Type}.
Variable sign : SigningKey -> bytes -> bytes.
Variable key_valid : bytes -> bool.
Variable verify_strict : bytes -> bytes -> bytes -> bool.
Variable decode_base64url : string -> option bytes.

Definition membership_commitment_hash (group_id_hash : bytes) (group_epoch group_key_epoch : N)
    (members : list GroupMemberCommitment) (group_policy_hash : bytes) (sender_key_id : string) : bytes :=
  blake3_256 GROUP_SENDER_KEY_DISTRIBUTION
    (membership_preimage group_id_hash group_epoch group_key_epoch members group_policy_hash sender_key_id).

(** ** Keys *)

Definition kdf_ck_sender (sender_chain_key group_sender_context : bytes) : result CryptoError (bytes * bytes) :=
  hkdf_sha256 (blake3_256 GROUP_SENDER_KEY_CHAIN group_sender_context) sender_chain_key
    (str GROUP_SENDER_KEY_CHAIN ++ group_sender_context) 64 ≫= fun output =>
  Ok (take 32 output, drop 32 output).

Definition derive_group_message_keys (message_secret group_sender_context : bytes)
  : result CryptoError GroupMessageKeys :=
  hkdf_sha256 (blake3_256 GROUP_SENDER_KEY_MESSAGE group_sender_context) message_secret
    (str GROUP_SENDER_KEY_MESSAGE ++ group_sender_context) 108 ≫= fun output =>
  Ok (mkGroupKeys (take 32 output) (take 12 (drop 32 output)) (take 32 (drop 44 output)) (take 32 (drop 76 output))).

(** ** Sending *)

Definition group_commitments (sender : bytes) (event_id : string) (canonical plaintext associated_data ciphertext : bytes)
    (keys : GroupMessageKeys) : FrankingCommitment :=
  franking_commitment (mkFrankingInput plaintext sender event_id canonical associated_data ciphertext
    (gk_opening_key keys) (gk_commitment_key keys)).

Definition group_encrypt (plaintext associated_data : bytes) (signing_key : SigningKey)
  : stres GroupSenderKeyState CryptoError GroupCiphertext := fun s =>
  let message_number := gs_sender_message_number s in
  let message_event_id :=
    "group:" +:+ encode_base64url (gs_group_id_hash s) +:+ ":" +:+ pretty message_number in
  let context := context_bytes s message_number in
  let sealed :=
    kdf_ck_sender (gs_sender_chain_key s) context ≫= fun '(next_chain, message_secret) =>
    derive_group_message_keys message_secret context ≫= fun keys =>
    map_err Protocol (canonical_header_bytes GroupMessage (group_header_fields s message_number message_event_id))
      ≫= fun canonical =>
    ok_or (aead_encrypt (gk_aead_key keys) (gk_nonce keys) (header_associated_data associated_data canonical) plaintext)
      AeadFailed ≫= fun ciphertext =>
    Ok (next_chain, keys, canonical, ciphertext) in
  match sealed with
  | Err e => (s, Err e)
  | Ok (next_chain, keys, canonical, ciphertext) =>
      let c := group_commitments (gs_sender_device_id_hash s) message_event_id canonical plaintext associated_data
        ciphertext keys in
      let signature := encode_base64url
        (sign signing_key (group_signature_preimage canonical (fc_commitment c) (fc_ciphertext_hash c))) in
      (set_chain s next_chain (u64_saturating_add message_number 1),
       Ok (mkGroupCiphertext (gs_group_id_hash s) (gs_group_epoch s) (gs_group_key_epoch s) (gs_sender_device_id_hash s)
         (gs_sender_key_id s) message_number message_event_id (gs_membership_commitment_hash s) canonical
         (fc_header_hash c) ciphertext (fc_ciphertext_hash c) (fc_key_commitment c) (fc_franking_commitment c)
         (fc_commitment c) signature))
  end.

(** ** Receiving *)

Definition validate_ciphertext_identity (s : GroupSenderKeyState) (c : GroupCiphertext) : result CryptoError unit :=
  if decide (gs_group_id_hash s <> gc_group_id_hash c \/ gs_group_epoch s <> gc_group_epoch c \/
             gs_group_key_epoch s <> gc_group_key_epoch c \/
             gs_sender_device_id_hash s <> gc_sender_device_id_hash c \/ gs_sender_key_id s <> gc_sender_key_id c)
  then Err GroupSenderKeyUnavailable else Ok tt.

Definition verify_group_signature (c : GroupCiphertext) (public : bytes) : result CryptoError unit :=
  if negb (key_valid public) then Err VerifyFailed else
  ok_or (decode_base64url (gc_signature_by_sender_key c)) Base64Invalid ≫= fun signature =>
  if decide (length signature <> 64%nat) then Err (InvalidSignatureLength (length signature)) else
  if verify_strict public (group_signature_preimage (gc_canonical_header_bytes c) (gc_commitment c) (gc_ciphertext_hash c))
       signature
  then Ok tt else Err VerifyFailed.

(** One round of the [while] loop of [skip_to]. *)
Definition skip_message : stres GroupSenderKeyState CryptoError unit := fun s =>
  let number := gs_sender_message_number s in
  let context := context_bytes s number in
  match kdf_ck_sender (gs_sender_chain_key s) context with
  | Err e => (s, Err e)
  | Ok (next_chain, message_secret) =>
      match derive_group_message_keys message_secret context with
      | Err e => (s, Err e)
      | Ok keys =>
          let s := set_skipped_keys s (<[number := keys]> (gs_skipped_message_keys s)) in
          (set_chain s next_chain (u64_saturating_add number 1), Ok tt)
      end
  end.

(** The fuel is the distance to the target. *)
Fixpoint skip_messages (fuel : nat) (target : N) : stres GroupSenderKeyState CryptoError unit := fun s =>
  match fuel with
  | O => (s, Ok tt)
  | S fuel =>
      if decide (gs_sender_message_number s < target)
      then (skip_message ≫= fun _ => skip_messages fuel target) s else (s, Ok tt)
  end.

Definition skip_to (target : N) : stres GroupSenderKeyState CryptoError unit := fun s =>
  let number := gs_sender_message_number s in
  if decide (target < number) then (s, Ok tt) else
  if decide (max_group_skip s < N.to_nat (target - number))%nat then (s, Err MaxSkipExceeded) else
  skip_messages (N.to_nat (target - number)) target s.

(** The keys for a number: a skipped key is taken out, otherwise the chain is
    followed. *)
Definition group_message_keys (number : N) : stres GroupSenderKeyState CryptoError GroupMessageKeys := fun s =>
  match gs_skipped_message_keys s !! number with
  | Some keys => (set_skipped_keys s (delete number (gs_skipped_message_keys s)), Ok keys)
  | None =>
      (skip_to number ≫= fun _ => get ≫= fun s =>
       let context := context_bytes s number in
       lift (kdf_ck_sender (gs_sender_chain_key s) context ≫= fun '(_, message_secret) =>
             derive_group_message_keys message_secret context)) s
  end.

Definition group_open (c : GroupCiphertext) (associated_data : bytes) (keys : GroupMessageKeys)
  : result CryptoError bytes :=
  ok_or (aead_decrypt (gk_aead_key keys) (gk_nonce keys)
    (header_associated_data associated_data (gc_canonical_header_bytes c)) (gc_ciphertext c)) AeadFailed
    ≫= fun plaintext =>
  let commitments := group_commitments (gc_sender_device_id_hash c) (gc_message_event_id c) (gc_canonical_header_bytes c)
    plaintext associated_data (gc_ciphertext c) keys in
  ensure (bool_decide (fc_key_commitment commitments = gc_key_commitment c)) KeyCommitmentMismatch ≫= fun _ =>
  ensure (bool_decide (fc_franking_commitment commitments = gc_franking_commitment c)) CommitmentMismatch ≫= fun _ =>
  ensure (bool_decide (fc_commitment commitments = gc_commitment c)) CommitmentMismatch ≫= fun _ =>
  Ok plaintext.

(** The chain moves on when the message was the next one. *)
Definition group_advance (number : N) : stres GroupSenderKeyState CryptoError unit := fun s =>
  if decide (number = gs_sender_message_number s) then
    match kdf_ck_sender (gs_sender_chain_key s) (context_bytes s number) with
    | Err e => (s, Err e)
    | Ok (next_chain, _) => (set_chain s next_chain (u64_saturating_add number 1), Ok tt)
    end
  else (s, Ok tt).

Definition group_decrypt (c : GroupCiphertext) (associated_data expected_membership_commitment_hash : bytes)
  : stres GroupSenderKeyState CryptoError bytes :=
  get ≫= fun s =>
  lift (validate_ciphertext_identity s c) ≫= fun _ =>
  lift (if decide (gc_membership_commitment_hash c <> expected_membership_commitment_hash)
        then Err MembershipCommitmentMismatch else Ok tt) ≫= fun _ =>
  lift (verify_group_signature c (gs_sender_signing_public_key s)) ≫= fun _ =>
  group_message_keys (gc_sender_message_number c) ≫= fun keys =>
  lift (group_open c associated_data keys) ≫= fun plaintext =>
  group_advance (gc_sender_message_number c) ≫= fun _ =>
  mret plaintext.
End group.
