(* ===== verification/GroupSenderProps.v ===== *)
(** * Group sender keys: theorems

    A receiver decrypts the messages of a sender in any order of arrival; the
    membership commitment stands for one membership, in any order; and what a
    refused copy of a message does to the receiver. *)

From stdpp Require Import pretty.
From S2P Require Import Prelude OrdMap Bytes Crypto CryptoProps GroupSender.
From Stdlib Require Import Strings.Byte.

Open Scope N_scope.

Section group_props.
Context {prim : Primitives} {laws : PrimitiveLaws prim}.
Context {SigningKey : Type} (sign : SigningKey -> bytes -> bytes).

(** ** The key schedule as functions *)

Definition ck (chain context : bytes) : bytes * bytes :=
  match kdf_ck_sender chain context with Ok p => p | Err _ => ([], []) end.
Definition keys_from (secret context : bytes) : GroupMessageKeys :=
  match derive_group_message_keys secret context with Ok k => k | Err _ => mkGroupKeys [] [] [] [] end.

Lemma kdf_ck_sender_ok chain context : kdf_ck_sender chain context = Ok (ck chain context).
Proof.
  unfold ck, kdf_ck_sender. edestruct hkdf_total as (out & Hout & _); [|rewrite Hout; reflexivity].
  apply Nat.leb_le. reflexivity.
Qed.

Lemma derive_group_message_keys_ok secret context :
  derive_group_message_keys secret context = Ok (keys_from secret context).
Proof.
  unfold keys_from, derive_group_message_keys. edestruct hkdf_total as (out & Hout & _); [|rewrite Hout; reflexivity].
  apply Nat.leb_le. reflexivity.
Qed.

Section chain.
Variable d : GroupSenderKeyDistribution.
Let s0 := from_distribution d.

(** The chain key before message [j], and the keys of message [j]. *)
Fixpoint chain_at (j : nat) : bytes :=
  match j with
  | O => di_sender_chain_key d
  | S j => (ck (chain_at j) (context_bytes s0 (N.of_nat j))).1
  end.
Definition keys_at (j : nat) : GroupMessageKeys :=
  keys_from (ck (chain_at j) (context_bytes s0 (N.of_nat j))).2 (context_bytes s0 (N.of_nat j)).

(** A state of this sender key whose chain is before message [m]. *)
Definition state_at (m : nat) (skipped : gmap N GroupMessageKeys) : GroupSenderKeyState :=
  set_skipped_keys (set_chain s0 (chain_at m) (N.of_nat m)) skipped.

Lemma state_at_context m sk n : context_bytes (state_at m sk) n = context_bytes s0 n.
Proof. reflexivity. Qed.

Lemma number_next m : N.of_nat m < U64_MAX -> u64_saturating_add (N.of_nat m) 1 = N.of_nat (S m).
Proof. unfold u64_saturating_add. lia. Qed.

(** ** Skipping *)

Fixpoint store (m count : nat) (sk : gmap N GroupMessageKeys) : gmap N GroupMessageKeys :=
  match count with
  | O => sk
  | S count => store (S m) count (<[N.of_nat m := keys_at m]> sk)
  end.

Lemma store_lookup count : forall m sk j,
  store m count sk !! N.of_nat j =
  if decide (m <= j < m + count)%nat then Some (keys_at j) else sk !! N.of_nat j.
Proof.
  induction count as [|count IH]; intros m sk j; cbn [store]; [by rewrite decide_False by lia|].
  rewrite IH. destruct (decide (j = m)) as [->|Hne].
  - rewrite decide_False, lookup_insert_eq, decide_True by lia. done.
  - rewrite lookup_insert_ne by lia. destruct (decide (S m <= j < S m + count)%nat);
      [rewrite decide_True by lia|rewrite decide_False by lia]; done.
Qed.

Lemma skip_message_at m sk :
  N.of_nat m < U64_MAX ->
  skip_message (state_at m sk) = (state_at (S m) (<[N.of_nat m := keys_at m]> sk), Ok tt).
Proof.
  intros Hm. unfold skip_message. rewrite state_at_context, kdf_ck_sender_ok.
  change (gs_sender_chain_key (state_at m sk)) with (chain_at m).
  change (gs_sender_message_number (state_at m sk)) with (N.of_nat m).
  destruct (ck (chain_at m) (context_bytes s0 (N.of_nat m))) as [next secret] eqn:Hck.
  rewrite derive_group_message_keys_ok, number_next by done. unfold state_at, keys_at. cbn [chain_at]. by rewrite Hck.
Qed.

Lemma skip_messages_at count : forall fuel m sk,
  (count <= fuel)%nat -> N.of_nat (m + count) <= U64_MAX ->
  skip_messages fuel (N.of_nat (m + count)) (state_at m sk) = (state_at (m + count) (store m count sk), Ok tt).
Proof.
  induction count as [|count IH]; intros fuel m sk Hf Hb.
  - rewrite Nat.add_0_r. destruct fuel; cbn [skip_messages store]; [done|].
    rewrite decide_False; [done|]. change (gs_sender_message_number (state_at m sk)) with (N.of_nat m). lia.
  - destruct fuel as [|fuel]; [lia|]. cbn [skip_messages].
    rewrite decide_True by (change (gs_sender_message_number (state_at m sk)) with (N.of_nat m); lia).
    rewrite (stres_bind_Ok _ _ _ _ _ (skip_message_at m sk ltac:(lia))).
    replace (m + S count)%nat with (S m + count)%nat by lia. apply IH; lia.
Qed.

(** [skip_to] stores the keys between the chain and the target. *)
Lemma skip_to_at m sk j :
  (m <= j)%nat -> (j - m <= MAX_GROUP_SKIP)%nat -> N.of_nat j <= U64_MAX ->
  skip_to (N.of_nat j) (state_at m sk) = (state_at j (store m (j - m) sk), Ok tt).
Proof.
  intros Hmj Hskip Hj. unfold skip_to. change (gs_sender_message_number (state_at m sk)) with (N.of_nat m).
  change (max_group_skip (state_at m sk)) with MAX_GROUP_SKIP. rewrite !decide_False by lia.
  replace (N.to_nat (N.of_nat j - N.of_nat m)) with (j - m)%nat by lia.
  replace (N.of_nat j) with (N.of_nat (m + (j - m))) at 1 by lia.
  rewrite skip_messages_at by lia. by replace (m + (j - m))%nat with j by lia.
Qed.

(** ** Messages *)

(** What a receiver checks of message [j] before it looks for the keys. *)
Record checked_message (key : SigningKey) (j : nat) (c : GroupCiphertext) : Prop := {
  me_identity : validate_ciphertext_identity s0 c = Ok tt;
  me_membership : gc_membership_commitment_hash c = di_membership_commitment_hash d;
  me_number : gc_sender_message_number c = N.of_nat j;
  me_signature : gc_signature_by_sender_key c = encode_base64url
    (sign key (group_signature_preimage (gc_canonical_header_bytes c) (gc_commitment c) (gc_ciphertext_hash c)));
}.

(** Message [j] of the chain, as its sender made it. *)
Record message (key : SigningKey) (j : nat) (plaintext ad : bytes) (c : GroupCiphertext) : Prop := {
  me_checked : checked_message key j c;
  me_open : group_open c ad (keys_at j) = Ok plaintext;
}.

Lemma encrypt_at m sk plaintext ad key s' c :
  N.of_nat m < U64_MAX ->
  group_encrypt sign plaintext ad key (state_at m sk) = (s', Ok c) ->
  s' = state_at (S m) sk /\ message key m plaintext ad c.
Proof.
  intros Hm. unfold group_encrypt. rewrite state_at_context.
  change (gs_sender_message_number (state_at m sk)) with (N.of_nat m).
  change (gs_sender_chain_key (state_at m sk)) with (chain_at m). rewrite kdf_ck_sender_ok.
  destruct (ck (chain_at m) (context_bytes s0 (N.of_nat m))) as [next secret] eqn:Hck.
  cbn [mbind result_bind]. rewrite derive_group_message_keys_ok. cbn [mbind result_bind].
  assert (keys_from secret (context_bytes s0 (N.of_nat m)) = keys_at m) as -> by (unfold keys_at; by rewrite Hck).
  destruct (map_err _ _) as [canonical|]; [|done]. cbn [mbind result_bind].
  destruct (aead_encrypt _ _ _ _) as [ct|] eqn:Hseal; [|done]. cbn [ok_or mbind result_bind].
  intros [= <- <-]. rewrite number_next by done. split; [unfold state_at; cbn [chain_at]; by rewrite Hck|].
  split; [split; try done|].
  - unfold validate_ciphertext_identity. cbn. by rewrite decide_False by naive_solver.
  - unfold group_open. cbn. rewrite (aead_opens _ _ _ _ _ Hseal). cbn.
    rewrite !bool_decide_eq_true_2 by done. done.
Qed.

(** ** Receiving *)

(** The receiver keeps the keys before [m] of the messages not in [got]. *)
Definition keeps_skipped (m : nat) (got : list nat) (sk : gmap N GroupMessageKeys) : Prop :=
  forall j, sk !! N.of_nat j = if decide (j < m /\ j ∉ got)%nat then Some (keys_at j) else None.

Context (key_valid : bytes -> bool) (verify_strict : bytes -> bytes -> bytes -> bool)
  (decode_base64url : string -> option bytes).
Hypothesis decode_encode : forall b, decode_base64url (encode_base64url b) = Some b.
Variable key : SigningKey.
Hypothesis public_valid : key_valid (di_sender_signing_public_key d) = true.
Hypothesis signature_length : forall m, length (sign key m) = 64%nat.
Hypothesis signature_verifies : forall m, verify_strict (di_sender_signing_public_key d) m (sign key m) = true.

Lemma message_verifies j c :
  checked_message key j c ->
  verify_group_signature key_valid verify_strict decode_base64url c (di_sender_signing_public_key d) = Ok tt.
Proof.
  intros [_ _ _ Hsig]. unfold verify_group_signature. rewrite public_valid, Hsig, decode_encode. cbn.
  rewrite decide_False by (rewrite signature_length; tauto). by rewrite signature_verifies.
Qed.

(** The keys of a message that was not received yet. *)
Lemma message_keys_at m got sk j :
  keeps_skipped m got sk -> Forall (fun i => i < m)%nat got -> j ∉ got ->
  (j - m <= MAX_GROUP_SKIP)%nat -> N.of_nat j <= U64_MAX ->
  exists sk', group_message_keys (N.of_nat j) (state_at m sk) = (state_at (Nat.max m j) sk', Ok (keys_at j)) /\
    keeps_skipped (Nat.max m j) (j :: got) sk'.
Proof.
  intros Hsk Hgot Hj Hskip Hb. unfold group_message_keys. cbn [gs_skipped_message_keys state_at set_skipped_keys].
  rewrite Hsk. destruct (decide (j < m)%nat) as [Hlt|Hge].
  - rewrite decide_True by done. exists (delete (N.of_nat j) sk). rewrite Nat.max_l by lia. split; [done|].
    intros i. destruct (decide (i = j)) as [->|Hne].
    + rewrite lookup_delete_eq, decide_False; [done|]. set_solver.
    + rewrite lookup_delete_ne, Hsk by lia. repeat case_decide; set_solver.
  - rewrite decide_False by lia. exists (store m (j - m) sk). rewrite Nat.max_r by lia.
    rewrite (stres_bind_Ok _ _ _ _ _ (skip_to_at m sk j ltac:(lia) Hskip Hb)).
    split.
    + set (s1 := state_at j (store m (j - m) sk)). rewrite (stres_bind_Ok get _ s1 s1 s1) by done. cbv zeta.
      unfold lift. rewrite kdf_ck_sender_ok. unfold s1.
      change (gs_sender_chain_key (state_at j (store m (j - m) sk))) with (chain_at j).
      rewrite state_at_context. unfold keys_at.
      destruct (ck (chain_at j) (context_bytes s0 (N.of_nat j))) as [next secret]. cbn.
      by rewrite derive_group_message_keys_ok.
    + intros i. rewrite store_lookup, Hsk. rewrite Forall_forall in Hgot.
      assert (i ∈ got -> (i < m)%nat) as Hi by apply Hgot.
      assert ((i < j /\ i ∉ j :: got) <-> (m <= i < m + (j - m)) \/ (i < m /\ i ∉ got))%nat as He.
      { rewrite not_elem_of_cons. destruct (decide (i ∈ got)) as [Hin|Hin].
        - specialize (Hi Hin). split; [by intros (_ & _ & ?)|intros [?|[_ ?]]; [lia|done]].
        - split; [intros (? & ? & _); destruct (decide (i < m)%nat); [right|left]; auto with lia|].
          intros [?|[? _]]; (split; [lia|split; [lia|done]]). }
      repeat case_decide; tauto.
Qed.

Definition group_decrypt_here (c : GroupCiphertext) (ad : bytes) : stres GroupSenderKeyState CryptoError bytes :=
  group_decrypt key_valid verify_strict decode_base64url c ad (di_membership_commitment_hash d).

(** Everything before the keys passes for a message of this sender. *)
Lemma decrypt_message c ad j sk m s :
  checked_message key j c -> s = state_at m sk ->
  group_decrypt_here c ad s =
  (group_message_keys (N.of_nat j) ≫= fun keys => lift (group_open c ad keys) ≫= fun p =>
   group_advance (N.of_nat j) ≫= fun _ => mret p) s.
Proof.
  intros Hmsg ->. pose proof (message_verifies _ _ Hmsg) as Hver. destruct Hmsg as [Hid Hmem Hnum _].
  unfold group_decrypt_here, group_decrypt. rewrite Hnum. set (s := state_at m sk).
  rewrite (stres_bind_Ok get _ s s s) by done.
  rewrite (stres_bind_Ok (lift (validate_ciphertext_identity s c)) _ s s tt) by (unfold lift; by rewrite <- Hid).
  rewrite decide_False by tauto.
  rewrite (stres_bind_Ok (lift (Ok tt)) _ s s tt) by done.
  rewrite (stres_bind_Ok (lift _) _ s s tt) by (unfold lift; by rewrite <- Hver). done.
Qed.

Lemma advance_at m sk :
  N.of_nat m < U64_MAX -> group_advance (N.of_nat m) (state_at m sk) = (state_at (S m) sk, Ok tt).
Proof.
  intros Hm. unfold group_advance. change (gs_sender_message_number (state_at m sk)) with (N.of_nat m).
  rewrite decide_True, kdf_ck_sender_ok, state_at_context, number_next by done.
  change (gs_sender_chain_key (state_at m sk)) with (chain_at m). unfold state_at. cbn [chain_at].
  by destruct (ck (chain_at m) (context_bytes s0 (N.of_nat m))).
Qed.

Lemma decrypt_at m got sk j plaintext ad c :
  message key j plaintext ad c -> keeps_skipped m got sk -> Forall (fun i => i < m)%nat got -> j ∉ got ->
  (j - m <= MAX_GROUP_SKIP)%nat -> N.of_nat j < U64_MAX ->
  exists sk', group_decrypt_here c ad (state_at m sk) = (state_at (Nat.max m (S j)) sk', Ok plaintext) /\
    keeps_skipped (Nat.max m (S j)) (j :: got) sk' /\ Forall (fun i => i < Nat.max m (S j))%nat (j :: got).
Proof.
  intros Hmsg Hsk Hgot Hj Hskip Hb.
  destruct (message_keys_at m got sk j Hsk Hgot Hj Hskip ltac:(lia)) as (sk' & Hkeys & Hsk').
  assert (Forall (fun i => i < Nat.max m (S j))%nat (j :: got)) as Hgot'.
  { apply Forall_cons. split; [lia|]. eapply Forall_impl; [exact Hgot|]. cbn. lia. }
  exists sk'. rewrite (decrypt_message c ad j sk m _ (me_checked _ _ _ _ _ Hmsg) eq_refl).
  rewrite (stres_bind_Ok _ _ _ _ _ Hkeys). rewrite (me_open _ _ _ _ _ Hmsg).
  set (s1 := state_at (Nat.max m j) sk') in *. rewrite (stres_bind_Ok (lift (Ok plaintext)) _ s1 s1 plaintext) by done.
  destruct (decide (j < m)%nat) as [Hlt|Hge].
  - replace (Nat.max m (S j)) with (Nat.max m j) in * by lia. split; [|done].
    rewrite (stres_bind_Ok (group_advance (N.of_nat j)) _ s1 s1 tt); [done|].
    unfold group_advance. rewrite decide_False; [done|]. unfold s1.
    change (N.of_nat j <> N.of_nat (Nat.max m j)). lia.
  - subst s1. rewrite (Nat.max_r m j) in * by lia. rewrite (Nat.max_r m (S j)) in * by lia.
    rewrite (stres_bind_Ok _ _ _ _ _ (advance_at j sk' Hb)). split; [done|]. split; [|done].
    intros i. rewrite Hsk'. assert ((i < j /\ i ∉ j :: got) <-> (i < S j /\ i ∉ j :: got))%nat as He.
    { rewrite not_elem_of_cons. split; intros [? [? ?]]; repeat split; try done; lia. }
    repeat case_decide; tauto.
Qed.

(** ** Whole conversations *)

Fixpoint group_encrypt_all (msgs : list (bytes * bytes))
  : stres GroupSenderKeyState CryptoError (list GroupCiphertext) :=
  match msgs with
  | [] => mret []
  | (plaintext, ad) :: msgs =>
      group_encrypt sign plaintext ad key ≫= fun c => group_encrypt_all msgs ≫= fun cs => mret (c :: cs)
  end.

(** The outcomes of decrypting messages, one after the other. *)
Fixpoint group_receive_all (l : list (GroupCiphertext * bytes)) (s : GroupSenderKeyState)
  : GroupSenderKeyState * list (result CryptoError bytes) :=
  match l with
  | [] => (s, [])
  | (c, ad) :: l =>
      let '(s, r) := group_decrypt_here c ad s in
      let '(s, rs) := group_receive_all l s in (s, r :: rs)
  end.

Lemma encrypt_all_at msgs : forall m sk s' cs,
  N.of_nat (m + length msgs) <= U64_MAX ->
  group_encrypt_all msgs (state_at m sk) = (s', Ok cs) ->
  length cs = length msgs /\
  forall i p ad c, msgs !! i = Some (p, ad) -> cs !! i = Some c -> message key (m + i) p ad c.
Proof.
  induction msgs as [|[p ad] msgs IH]; intros m sk s' cs Hb; cbn [group_encrypt_all].
  { intros [= _ <-]. split; [done|]. intros i p ad c Hi. by rewrite lookup_nil in Hi. }
  intros (s1 & c & Henc & Hrest)%stres_bind_inv. apply stres_bind_inv in Hrest as (s2 & cs' & Hall & [= <- <-]).
  apply encrypt_at in Henc as [-> Hmsg]; [|cbn in Hb; lia].
  destruct (IH (S m) sk s2 cs') as [Hlen Hmsgs]; [cbn in Hb; lia|done|]. split; [by cbn; rewrite Hlen|].
  intros [|i] p' ad' c' Hi Hc; cbn in Hi, Hc; simplify_eq; [by rewrite Nat.add_0_r|].
  replace (m + S i)%nat with (S m + i)%nat by lia. by apply Hmsgs.
Qed.

(** Messages in the order in which they arrive. *)
Definition group_arrivals (cs : list GroupCiphertext) (msgs : list (bytes * bytes)) (order : list nat)
  : list (GroupCiphertext * bytes) :=
  omap (fun i => match cs !! i, msgs !! i with Some c, Some (_, ad) => Some (c, ad) | _, _ => None end) order.

Lemma receive_all_at cs msgs order : forall m got sk,
  length cs = length msgs -> (forall i p ad c, msgs !! i = Some (p, ad) -> cs !! i = Some c -> message key i p ad c) ->
  (length msgs <= MAX_GROUP_SKIP)%nat -> keeps_skipped m got sk -> Forall (fun i => i < m)%nat got ->
  NoDup (order ++ got) -> Forall (fun i => i < length msgs)%nat order ->
  (group_receive_all (group_arrivals cs msgs order) (state_at m sk)).2 =
  omap (fun i => (fun msg => Ok msg.1) <$> msgs !! i) order.
Proof.
  induction order as [|j order IH]; intros m got sk Hlen Hmsgs Hmax Hsk Hgot Hnd Hord; [done|].
  apply Forall_cons in Hord as [Hj Hord]. cbn [app] in Hnd. pose proof Hnd as [Hjn _]%NoDup_cons.
  destruct (lookup_lt_is_Some_2 msgs j Hj) as [[p ad] Hp]. destruct (lookup_lt_is_Some_2 cs j) as [c Hc]; [lia|].
  unfold group_arrivals. cbn [omap list_omap]. rewrite Hp, Hc. cbn [fmap option_fmap option_map fst group_receive_all].
  destruct (decrypt_at m got sk j p ad c (Hmsgs j p ad c Hp Hc) Hsk Hgot) as (sk' & -> & Hsk' & Hgot');
    [set_solver|lia|unfold MAX_GROUP_SKIP in Hmax; unfold U64_MAX; lia|].
  specialize (IH (Nat.max m (S j)) (j :: got) sk' Hlen Hmsgs Hmax Hsk' Hgot').
  unfold group_arrivals in IH. destruct (group_receive_all _ _) as [s2 rs] eqn:Hrs. cbn [snd] in *. f_equal.
  rewrite <- IH; [done| |done]. by rewrite <- Permutation_middle.
Qed.

(** C14: the messages of a sender decrypt in any order. Whatever subset of up to
    2000 messages arrives, in whatever order, each once, a receiver that started
    from the same distribution gets every plaintext. *)
Theorem group_messages_delivered msgs s' cs order :
  group_encrypt_all msgs (from_distribution d) = (s', Ok cs) -> (length msgs <= MAX_GROUP_SKIP)%nat ->
  NoDup order -> Forall (fun i => i < length msgs)%nat order ->
  (group_receive_all (group_arrivals cs msgs order) (from_distribution d)).2 =
  omap (fun i => (fun msg => Ok msg.1) <$> msgs !! i) order.
Proof.
  change (from_distribution d) with (state_at 0 ∅). intros Henc Hmax Hnd Hord.
  apply (encrypt_all_at msgs 0 ∅) in Henc as [Hlen Hmsgs]; [|unfold MAX_GROUP_SKIP in Hmax; unfold U64_MAX; lia].
  apply (receive_all_at cs msgs order 0 [] ∅ Hlen Hmsgs Hmax); [|done|by rewrite app_nil_r|done].
  intros j. rewrite lookup_empty, decide_False by lia. done.
Qed.

(** ** A refused copy *)

(** A number without a stored key, before the chain: no key for it comes back. *)
Definition key_gone (j : nat) (s : GroupSenderKeyState) : Prop :=
  N.of_nat j < gs_sender_message_number s <= U64_MAX /\ gs_skipped_message_keys s !! N.of_nat j = None.

Lemma skip_message_gone j : keeps (key_gone j) skip_message.
Proof.
  intros s [Hlt Hnone]. unfold skip_message. rewrite kdf_ck_sender_ok. destruct (ck _ _) as [next secret].
  rewrite derive_group_message_keys_ok. cbn. split; cbn; [unfold u64_saturating_add; lia|].
  rewrite lookup_insert_ne by lia. done.
Qed.

Lemma skip_to_gone j target : keeps (key_gone j) (skip_to target).
Proof.
  assert (forall fuel, keeps (key_gone j) (skip_messages fuel target)) as Hloop.
  { induction fuel as [|fuel IH]; intros s Hs; cbn [skip_messages]; [done|]. case_decide; [|done].
    by apply (keeps_bind (key_gone j)); [apply skip_message_gone|intros _; apply IH|]. }
  intros s Hs. unfold skip_to. repeat (case_decide; [done|]). by apply Hloop.
Qed.

Lemma message_keys_gone j number : keeps (key_gone j) (group_message_keys number).
Proof.
  intros s Hs. unfold group_message_keys. destruct (gs_skipped_message_keys s !! number) as [keys|].
  - destruct Hs as [Hlt Hnone]. split; [done|]. cbn. by apply lookup_delete_None; right.
  - apply (keeps_bind (key_gone j)); [apply skip_to_gone| |done]. intros _.
    apply keeps_bind; [apply keeps_get|intros s1; apply keeps_lift].
Qed.

Lemma decrypt_gone j c ad : keeps (key_gone j) (group_decrypt_here c ad).
Proof.
  unfold group_decrypt_here, group_decrypt. apply keeps_bind; [apply keeps_get|intros s].
  do 3 (apply keeps_bind; [apply keeps_lift|intros _]). apply keeps_bind; [apply message_keys_gone|intros keys].
  apply keeps_bind; [apply keeps_lift|intros p]. apply keeps_bind; [|intros _; apply keeps_ret].
  intros s1 [Hlt Hnone]. unfold group_advance. case_decide; [|done]. rewrite kdf_ck_sender_ok.
  destruct (ck _ _). split; cbn; [unfold u64_saturating_add; lia|done].
Qed.

Lemma receive_gone j l : forall s, key_gone j s -> key_gone j (group_receive_all l s).1.
Proof.
  induction l as [|[c ad] l IH]; intros s Hs; cbn [group_receive_all]; [done|].
  pose proof (decrypt_gone j c ad s Hs) as Hs1. destruct (group_decrypt_here c ad s) as [s1 r].
  specialize (IH s1 Hs1). by destruct (group_receive_all l s1).
Qed.

(** Without a stored key, an old message is tried with the chain key of the
    present position. *)
Lemma retry_at_position m sk j c ad :
  (j < m)%nat -> sk !! N.of_nat j = None ->
  ((group_message_keys (N.of_nat j) ≫= fun keys => lift (group_open c ad keys) ≫= fun p =>
    group_advance (N.of_nat j) ≫= fun _ => mret p) (state_at m sk)).2 =
  group_open c ad (keys_from (ck (chain_at m) (context_bytes s0 (N.of_nat j))).2 (context_bytes s0 (N.of_nat j))).
Proof.
  intros Hlt Hnone. set (s := state_at m sk). set (ctx := context_bytes s0 (N.of_nat j)).
  assert (group_message_keys (N.of_nat j) s = (s, Ok (keys_from (ck (chain_at m) ctx).2 ctx))) as Hkeys.
  { unfold group_message_keys. cbn [s gs_skipped_message_keys state_at set_skipped_keys]. rewrite Hnone.
    rewrite (stres_bind_Ok (skip_to (N.of_nat j)) _ _ s tt).
    2: { unfold skip_to. rewrite decide_True; [done|]. change (N.of_nat j < N.of_nat m). lia. }
    rewrite (stres_bind_Ok get _ s s s) by done. cbv zeta. unfold lift, s. rewrite state_at_context, kdf_ck_sender_ok.
    change (gs_sender_chain_key (state_at m sk)) with (chain_at m). fold ctx. destruct (ck (chain_at m) ctx) as [n k].
    cbn. by rewrite derive_group_message_keys_ok. }
  rewrite (stres_bind_Ok _ _ _ _ _ Hkeys). destruct (group_open c ad _) as [p|e]; [|done].
  rewrite (stres_bind_Ok (lift (Ok p)) _ s s p) by done.
  rewrite (stres_bind_Ok (group_advance (N.of_nat j)) _ s s tt); [done|].
  unfold group_advance. rewrite decide_False; [done|]. change (N.of_nat j <> N.of_nat m). lia.
Qed.

(** The copy of a message with other ciphertext bytes; its signature does not
    cover them, only their hash. *)
Definition with_ciphertext (c : GroupCiphertext) (junk : bytes) : GroupCiphertext :=
  mkGroupCiphertext (gc_group_id_hash c) (gc_group_epoch c) (gc_group_key_epoch c) (gc_sender_device_id_hash c)
    (gc_sender_key_id c) (gc_sender_message_number c) (gc_message_event_id c) (gc_membership_commitment_hash c)
    (gc_canonical_header_bytes c) (gc_header_hash c) junk (gc_ciphertext_hash c) (gc_key_commitment c)
    (gc_franking_commitment c) (gc_commitment c) (gc_signature_by_sender_key c).

(** C38: a refused copy of a skipped message destroys its key. If a copy of a late
    message with other ciphertext bytes arrives first, the receiver refuses the
    copy but has already taken the message's key out of its store, for good: the
    genuine message is then tried with a key of the chain's present position. *)
Theorem refused_copy_burns_key m got sk j plaintext ad c junk :
  message key j plaintext ad c -> keeps_skipped m got sk -> (j < m)%nat -> N.of_nat m <= U64_MAX -> j ∉ got ->
  aead_decrypt (gk_aead_key (keys_at j)) (gk_nonce (keys_at j))
    (header_associated_data ad (gc_canonical_header_bytes c)) junk = None ->
  let late := state_at m sk in
  let s1 := (group_decrypt_here (with_ciphertext c junk) ad late).1 in
  (group_decrypt_here c ad late).2 = Ok plaintext /\
  (group_decrypt_here (with_ciphertext c junk) ad late).2 = Err AeadFailed /\
  (forall l, gs_skipped_message_keys (group_receive_all l s1).1 !! N.of_nat j = None) /\
  (group_decrypt_here c ad s1).2 =
    group_open c ad (keys_from (ck (chain_at m) (context_bytes s0 (N.of_nat j))).2 (context_bytes s0 (N.of_nat j))).
Proof.
  intros Hmsg Hsk Hlt Hm Hj Hjunk. cbn zeta. set (late := state_at m sk).
  assert (group_message_keys (N.of_nat j) late = (state_at m (delete (N.of_nat j) sk), Ok (keys_at j))) as Hkeys.
  { unfold group_message_keys. cbn [late gs_skipped_message_keys state_at set_skipped_keys]. by rewrite Hsk, decide_True. }
  set (s1 := state_at m (delete (N.of_nat j) sk)) in *.
  assert (checked_message key j (with_ciphertext c junk)) as Hcopy by (destruct (me_checked _ _ _ _ _ Hmsg); split; done).
  rewrite (decrypt_message c ad j sk m late (me_checked _ _ _ _ _ Hmsg) eq_refl).
  rewrite (decrypt_message _ ad j sk m late Hcopy eq_refl), !(stres_bind_Ok _ _ _ _ _ Hkeys).
  rewrite (me_open _ _ _ _ _ Hmsg), (stres_bind_Ok (lift (Ok plaintext)) _ s1 s1 plaintext) by done.
  assert (group_open (with_ciphertext c junk) ad (keys_at j) = Err AeadFailed) as ->
    by (unfold group_open; cbn; by rewrite Hjunk).
  rewrite (stres_bind_Err (lift (Err AeadFailed)) _ s1 s1 AeadFailed) by done.
  rewrite (stres_bind_Ok (group_advance (N.of_nat j)) _ s1 s1 tt)
    by (unfold group_advance; rewrite decide_False; [done|]; change (N.of_nat j <> N.of_nat m); lia).
  split; [done|]. split; [done|].
  assert (key_gone j s1) as Hgone by (split; [change (N.of_nat j < N.of_nat m <= U64_MAX); lia|apply lookup_delete_eq]).
  split; [intros l; by apply (receive_gone j l s1)|]. cbn [fst].
  rewrite (decrypt_message c ad j _ m s1 (me_checked _ _ _ _ _ Hmsg) eq_refl). apply retry_at_position; [lia|].
  apply lookup_delete_eq.
Qed.
End chain.
End group_props.

(** ** The membership commitment *)

#[local] Instance member_le_trans : Transitive member_le.
Proof. intros a b c. unfold member_le. apply transitivity. Qed.

#[local] Instance member_le_total : Total member_le.
Proof. intros a b. unfold member_le. apply total. apply _. Qed.

#[local] Instance member_le_antisymm : AntiSymm eq member_le.
Proof.
  intros [h r e] [h' r' e'] Hle Hle'. unfold member_le in Hle, Hle'. pose proof (key_le_antisymm _ _ Hle Hle') as Heq. injection Heq as Hh -> ->.
  apply (f_equal String.list_byte_of_string) in Hh. rewrite !String.list_byte_of_string_of_list_byte in Hh.
  by rewrite Hh.
Qed.

Lemma member_sort_perm l l' : l ≡ₚ l' -> merge_sort member_le l = merge_sort member_le l'.
Proof.
  intros Hp. apply (StronglySorted_unique member_le); [by apply StronglySorted_merge_sort; apply _..|].
  by rewrite !merge_sort_Permutation.
Qed.

(** Sizes of the Rust types. *)
Definition member_typed (m : GroupMemberCommitment) : Prop :=
  length (member_device_id_hash m) = 32%nat /\ member_device_epoch m <= U64_MAX.

(** What the bytes keep of a member: a role counts by its first 65535 bytes. *)
Definition abridged_member (m : GroupMemberCommitment) : bytes * bytes * N :=
  (member_device_id_hash m, abridged (str (member_role m)), member_device_epoch m).

Lemma write_len_prefixed_app_inj l l' k k' :
  write_len_prefixed l ++ k = write_len_prefixed l' ++ k' -> abridged l = abridged l' /\ k = k'.
Proof.
  rewrite (write_len_prefixed_abridged l), (write_len_prefixed_abridged l').
  apply write_len_prefixed_inj; apply length_abridged.
Qed.

Lemma write_len_prefixed_eq l l' : write_len_prefixed l = write_len_prefixed l' <-> abridged l = abridged l'.
Proof.
  split; [|intros Heq; by rewrite write_len_prefixed_abridged, Heq, <- write_len_prefixed_abridged].
  intros Heq. rewrite <- (app_nil_r (write_len_prefixed l)), <- (app_nil_r (write_len_prefixed l')) in Heq.
  by apply write_len_prefixed_app_inj in Heq as [? _].
Qed.

(** The text that ends the bytes is no member, which would be longer. *)
Lemma ending_is_no_member (k r : bytes) x rest : write_len_prefixed k <> write_len_prefixed r ++ u64_be x ++ rest.
Proof.
  intros He. rewrite <- (app_nil_r (write_len_prefixed k)) in He. by apply write_len_prefixed_app_inj in He as [_ He].
Qed.

Lemma member_bytes_abridged (l l' : list GroupMemberCommitment) :
  abridged_member <$> l = abridged_member <$> l' -> member_bytes <$> l = member_bytes <$> l'.
Proof.
  revert l'. induction l as [|m l IH]; intros [|m' l'] Heq; try done. rewrite !fmap_cons in *.
  injection Heq as Hh Hr He Heq. rewrite (IH l' Heq). f_equal. unfold member_bytes. rewrite Hh, He.
  by apply write_len_prefixed_eq in Hr as ->.
Qed.

Lemma members_inj l : forall l' p p' k k',
  Forall member_typed l -> Forall member_typed l' -> length p = 32%nat -> length p' = 32%nat ->
  mjoin (member_bytes <$> l) ++ p ++ write_len_prefixed k = mjoin (member_bytes <$> l') ++ p' ++ write_len_prefixed k' ->
  abridged_member <$> l = abridged_member <$> l' /\ p = p' /\ abridged k = abridged k'.
Proof.
  induction l as [|m l IH]; intros [|m' l'] p p' k k' Hl Hl' Hp Hp'; cbn [fmap list_fmap mjoin list_join app].
  - intros [-> He%write_len_prefixed_eq]%app_inj_length; [done|congruence].
  - apply Forall_cons in Hl' as [(Hh & _) _]. unfold member_bytes at 1. rewrite <- !app_assoc.
    intros [_ He]%app_inj_length; [|congruence]. by apply ending_is_no_member in He.
  - apply Forall_cons in Hl as [(Hh & _) _]. unfold member_bytes at 1. rewrite <- !app_assoc.
    intros [_ He]%app_inj_length; [|congruence]. by symmetry in He; apply ending_is_no_member in He.
  - apply Forall_cons in Hl as [(Hh & He) Hl]. apply Forall_cons in Hl' as [(Hh' & He') Hl'].
    unfold member_bytes at 1 3. rewrite <- !app_assoc. intros [Eh Heq]%app_inj_length; [|congruence].
    apply write_len_prefixed_app_inj in Heq as [Er Heq].
    apply app_inj_length in Heq as [Ee%u64_be_inj Heq]; [|done..].
    destruct (IH l' p p' k k') as (Hs & -> & ->); try done. unfold abridged_member at 1 3. by rewrite Eh, Er, Ee, Hs.
Qed.

(** Texts the length prefix keeps whole. *)
Definition member_short (m : GroupMemberCommitment) : Prop := N.of_nat (length (str (member_role m))) <= 65535.

Lemma abridged_members_inj l l' :
  Forall member_short l -> Forall member_short l' -> abridged_member <$> l = abridged_member <$> l' -> l = l'.
Proof.
  intros Hl. revert l'. induction Hl as [|m l Hm Hl IH]; intros [|m' l'] Hl' Heq; try done.
  apply Forall_cons in Hl' as [Hm' Hl']. rewrite !fmap_cons in Heq. injection Heq as Hh Hr He Heq.
  rewrite !abridged_short in Hr by done. apply str_inj in Hr. destruct m, m'; cbn in *. subst. by rewrite (IH l').
Qed.

(** C37: the membership commitment stands for one membership. With arrays of 32
    bytes and 64-bit numbers, as the types prescribe, the bytes that are hashed are
    the same exactly when group, epochs and policy are the same, the key ids agree
    in their first 65535 bytes, and so do the members in sorted order, roles
    compared by their first 65535 bytes. When no role or key id is longer, the
    bytes are the same exactly when the key ids are the same and the members are
    the same up to their order. *)
Theorem membership_commitment_binds g e ke l pol k g' e' ke' l' pol' k' :
  length g = 32%nat -> length g' = 32%nat -> e <= U64_MAX -> e' <= U64_MAX -> ke <= U64_MAX -> ke' <= U64_MAX ->
  Forall member_typed l -> Forall member_typed l' -> length pol = 32%nat -> length pol' = 32%nat ->
  let same := membership_preimage g e ke l pol k = membership_preimage g' e' ke' l' pol' k' in
  (same <-> (g, e, ke, pol, abridged (str k)) = (g', e', ke', pol', abridged (str k')) /\
     abridged_member <$> merge_sort member_le l = abridged_member <$> merge_sort member_le l') /\
  (Forall member_short l -> Forall member_short l' ->
   N.of_nat (length (str k)) <= 65535 -> N.of_nat (length (str k')) <= 65535 ->
   same <-> (g, e, ke, pol, k) = (g', e', ke', pol', k') /\ l ≡ₚ l').
Proof.
  intros Hg Hg' He He' Hke Hke' Hl Hl' Hp Hp' same.
  assert (same <-> (g, e, ke, pol, abridged (str k)) = (g', e', ke', pol', abridged (str k')) /\
    abridged_member <$> merge_sort member_le l = abridged_member <$> merge_sort member_le l') as Hiff.
  { unfold same, membership_preimage. split.
    - intros Heq%app_inv_head. apply app_inj_length in Heq as [-> Heq]; [|congruence].
      apply app_inj_length in Heq as [->%u64_be_inj Heq]; [|done..].
      apply app_inj_length in Heq as [->%u64_be_inj Heq]; [|done..].
      apply members_inj in Heq as (Hs & -> & ->); try done; by rewrite merge_sort_Permutation.
    - intros [[= -> -> -> -> Hk] Hs]. apply member_bytes_abridged in Hs as ->. by apply write_len_prefixed_eq in Hk as ->. }
  split; [exact Hiff|]. intros Hs Hs' Hk Hk'. rewrite Hiff, !abridged_short by done. split.
  - intros [[= -> -> -> -> ->%str_inj] Hm]. split; [done|].
    apply abridged_members_inj in Hm; [|by rewrite merge_sort_Permutation..].
    by rewrite <- (merge_sort_Permutation member_le l), Hm, merge_sort_Permutation.
  - intros [[= -> -> -> -> ->] Hperm]. by rewrite (member_sort_perm l l' Hperm).
Qed.
