(* ===== verification/GroupSenderRun.v ===== *)
(** * Group sender keys on a concrete group

    The theorems of GroupSenderProps.v applied with the primitives of
    RatchetRun.v and a signature that everybody can check and make. *)

From S2P Require Import Prelude OrdMap Bytes Crypto RatchetRun VoiceRun GroupSender GroupSenderProps.
From Stdlib Require Import Strings.Byte.

Open Scope N_scope.

#[local] Existing Instance toy.
#[local] Existing Instance toy_laws.

(** The public key is the secret one. *)
Definition toy_sign (k m : bytes) : bytes := mix (k ++ m) ++ mix (m ++ k).
Definition toy_verify (k m signature : bytes) : bool := bool_decide (signature = toy_sign k m).
Definition any_key (k : bytes) : bool := true.

Definition dist : GroupSenderKeyDistribution :=
  mkDistribution (be_of_N 32 1) 3 4 (be_of_N 32 2) "key-1" (be_of_N 32 9) (be_of_N 32 5) (be_of_N 32 6).

Definition group_hello : list (bytes * bytes) := [(str "one", str "a"); (str "two", str "b"); (str "three", str "c")].

Lemma toy_sign_length k m : length (toy_sign k m) = 64%nat.
Proof. unfold toy_sign, mix. by rewrite length_app, !length_be_of_N. Qed.

Lemma toy_verifies k m : toy_verify k m (toy_sign k m) = true.
Proof. by apply bool_decide_eq_true_2. Qed.

(** The third message arrives first, then the first one; the second is lost. *)
Lemma group_messages_delivered_witness :
  exists s' cs, group_encrypt_all toy_sign (be_of_N 32 5) group_hello (from_distribution dist) = (s', Ok cs) /\
    (group_receive_all dist any_key toy_verify unb64 (group_arrivals cs group_hello [2; 0]%nat)
       (from_distribution dist)).2 = [Ok (str "three"); Ok (str "one")].
Proof.
  assert (exists s' cs, group_encrypt_all toy_sign (be_of_N 32 5) group_hello (from_distribution dist) = (s', Ok cs))
    as (s' & cs & Henc) by (eexists _, _; vm_compute; reflexivity).
  exists s', cs. split; [exact Henc|].
  apply (group_messages_delivered toy_sign dist any_key toy_verify unb64 unb64_law (be_of_N 32 5) eq_refl
    (toy_sign_length (be_of_N 32 5)) (toy_verifies (be_of_N 32 5)) group_hello s' cs [2; 0]%nat Henc);
    [apply Nat.leb_le; vm_compute; reflexivity| |].
  - by apply NoDup_cons; split; [apply not_elem_of_cons; split; [discriminate|apply not_elem_of_nil]|apply NoDup_singleton].
  - repeat constructor.
Defined.

(** The receiver skipped the first message; a copy without its bytes comes
    before it. *)
Lemma refused_copy_burns_key_witness :
  exists c, let late := state_at dist 1 {[0 := keys_at dist 0]} in
    let receive := group_decrypt_here dist any_key toy_verify unb64 in
    (receive c (str "a") late).2 = Ok (str "one") /\
    (receive (with_ciphertext c []) (str "a") late).2 = Err AeadFailed /\
    gs_skipped_message_keys (receive (with_ciphertext c []) (str "a") late).1 !! 0 = None.
Proof.
  assert (exists s' c, group_encrypt toy_sign (str "one") (str "a") (be_of_N 32 5) (state_at dist 0 ∅) = (s', Ok c))
    as (s' & c & Henc) by (eexists _, _; vm_compute; reflexivity).
  apply (encrypt_at toy_sign dist 0 ∅) in Henc as [_ Hmsg]; [|apply N.ltb_lt; vm_compute; reflexivity].
  assert (keeps_skipped dist 1 [] {[0 := keys_at dist 0]}) as Hsk.
  { intros [|j]; [reflexivity|]. rewrite decide_False by lia. by rewrite lookup_singleton_ne by lia. }
  destruct (refused_copy_burns_key toy_sign dist any_key toy_verify unb64 unb64_law (be_of_N 32 5) eq_refl
    (toy_sign_length (be_of_N 32 5)) (toy_verifies (be_of_N 32 5)) 1 [] _ 0 (str "one") (str "a") c [] Hmsg Hsk)
    as (Hgen & Hcopy & Hgone & _); [lia|vm_compute; discriminate|apply not_elem_of_nil|reflexivity|].
  exists c. exact (conj Hgen (conj Hcopy (Hgone []))).
Defined.

(** Two members in either order give one commitment; a promotion gives another. *)
Definition owner : GroupMemberCommitment := mkMember (be_of_N 32 7) "owner" 1.
Definition guest (role : string) : GroupMemberCommitment := mkMember (be_of_N 32 8) role 2.

Lemma membership_commitment_binds_witness :
  let preimage l := membership_preimage (be_of_N 32 1) 3 4 l (be_of_N 32 2) "key-1" in
  preimage [owner; guest "member"] = preimage [guest "member"; owner] /\
  preimage [owner; guest "member"] <> preimage [owner; guest "admin"].
Proof.
  assert (forall r, Forall member_typed [owner; guest r] /\ Forall member_typed [guest r; owner]) as Ht.
  { intros r. split; repeat constructor; vm_compute; discriminate. }
  assert (forall r, r = "member"%string \/ r = "admin"%string ->
    Forall member_short [owner; guest r] /\ Forall member_short [guest r; owner]) as Hs.
  { intros r [-> | ->]; split; repeat constructor; vm_compute; discriminate. }
  assert (forall l l', Forall member_typed l -> Forall member_typed l' -> Forall member_short l -> Forall member_short l' ->
    membership_preimage (be_of_N 32 1) 3 4 l (be_of_N 32 2) "key-1" =
    membership_preimage (be_of_N 32 1) 3 4 l' (be_of_N 32 2) "key-1" <->
    (be_of_N 32 1, 3, 4, be_of_N 32 2, "key-1"%string) = (be_of_N 32 1, 3, 4, be_of_N 32 2, "key-1"%string) /\ l ≡ₚ l')
    as Hiff.
  { intros l l' Hl Hl' Hsl Hsl'. apply membership_commitment_binds; try done; vm_compute; discriminate. }
  split.
  - apply Hiff; [apply Ht..|apply Hs; by left|apply Hs; by left|]. split; [reflexivity|]. apply Permutation_swap.
  - intros Heq. apply Hiff in Heq as [_ Hp]; [|apply Ht..|apply Hs; by left|apply Hs; by right].
    apply Permutation_cons_inv, Permutation_length_1 in Hp. discriminate.
Defined.
