(* ===== verification/X3dh.v ===== *)
(** * Prekey bundles, X3DH and the sessions made from it

    crates/ramflux-crypto/src/prekey.rs and x3dh.rs, and the operations of the
    client (crates/ramflux-sdk/src/client/) that publish a bundle, check the
    bundle of another device, and make the two ends of a session. Signatures,
    JSON, the account's store and the random ephemeral key are parameters. *)

From S2P Require Import Prelude OrdMap Bytes Crypto Ratchet.
From Stdlib Require Import Strings.Byte.

Open Scope N_scope.

(** ** Bundles *)

Record PrekeyBundle := mkBundle {
  pb_schema : string;
  pb_identity_commitment : string;
  pb_device_id : string;
  pb_device_epoch : N;
  pb_device_identity_key_id : string;
  pb_device_identity_ed25519_public : string;
  pb_device_agreement_x25519_public : bytes;
  pb_identity_key : bytes;
  pb_signed_prekey_id : string;
  pb_signed_prekey_x25519_public : bytes;
  pb_signed_prekey : bytes;
  pb_signed_prekey_created_at : Z;
  pb_signed_prekey_expires_at : Z;
  pb_one_time_prekey_ids : list string;
  pb_one_time_prekey_x25519_public : list bytes;
  pb_one_time_prekey_id : option string;
  pb_one_time_prekey : option bytes;
  pb_prekey_bundle_counter : N;
  pb_capability_scope : list string;
  pb_signature_by_device_identity : string;
  pb_signature_by_lineage : string;
  pb_signature : string;
}.

Record PrekeyBundleSigningBody := mkSigningBody {
  sb_schema : string;
  sb_identity_commitment : string;
  sb_device_id : string;
  sb_device_epoch : N;
  sb_device_identity_key_id : string;
  sb_device_identity_ed25519_public : string;
  sb_device_agreement_x25519_public : string;
  sb_signed_prekey_id : string;
  sb_signed_prekey_x25519_public : string;
  sb_signed_prekey_created_at : Z;
  sb_signed_prekey_expires_at : Z;
  sb_one_time_prekey_ids : list string;
  sb_one_time_prekey_x25519_public : list string;
  sb_prekey_bundle_counter : N;
  sb_capability_scope : list string;
}.

Record DeviceBranch (SigningKey : Type) := mkBranch {
  br_principal_id : string;
  br_device_id : string;
  br_device_epoch : N;
  br_signing_key : SigningKey;
}.
Arguments mkBranch {_}.
Arguments br_principal_id {_}.
Arguments br_device_id {_}.
Arguments br_device_epoch {_}.
Arguments br_signing_key {_}.

(** ** X3DH *)

Record X3dhInitiatorInput := mkInitiatorInput {
  xi_initiator_identity : X25519KeyPair;
  xi_initiator_ephemeral : X25519KeyPair;
  xi_initiator_device_id_hash : bytes;
  xi_recipient_device_id_hash : bytes;
  xi_recipient_bundle : PrekeyBundle;
  xi_associated_data : bytes;
  xi_prekey_bundle_hash : bytes;
  xi_initial_ratchet_public : bytes;
}.

Record X3dhRecipientInput := mkRecipientInput {
  xr_recipient_identity : X25519KeyPair;
  xr_recipient_signed_prekey : X25519KeyPair;
  xr_recipient_one_time_prekey : option X25519KeyPair;
  xr_initiator_identity_public : bytes;
  xr_initiator_ephemeral_public : bytes;
  xr_initiator_device_id_hash : bytes;
  xr_recipient_device_id_hash : bytes;
  xr_recipient_signed_prekey_id : string;
  xr_recipient_one_time_prekey_id : option string;
  xr_associated_data : bytes;
  xr_prekey_bundle_hash : bytes;
  xr_initial_ratchet_public : bytes;
}.

Record X3dhOutput := mkX3dhOutput {
  xo_root_seed : bytes;
  xo_associated_secret : bytes;
  xo_bootstrap_transcript_hash : bytes;
}.

Record BootstrapTranscriptInput := mkTranscript {
  bt_initiator_device_id_hash : bytes;
  bt_recipient_device_id_hash : bytes;
  bt_recipient_signed_prekey_id : string;
  bt_recipient_one_time_prekey_id : option string;
  bt_initiator_ephemeral_public : bytes;
  bt_prekey_bundle_hash : bytes;
  bt_initial_ratchet_public : bytes;
}.

(** ** The client *)

(** The variants of [SdkError] in use. *)
Inductive SdkError :=
| SdkCrypto (e : CryptoError)
| SdkProtocol
| SdkJson
| IdentityRootMissing
| LocalBus (what : string)
| InboundRejected (what : string).

#[export] Instance SdkError_eq_dec : EqDecision SdkError.
Proof. solve_decision. Defined.

Record SdkX3dhPrivateState := mkPrivate {
  sp_principal_commitment : option string;
  sp_device_id : string;
  sp_identity_seed : bytes;
  sp_signed_prekey_id : string;
  sp_signed_prekey_seed : bytes;
  sp_bundle : PrekeyBundle;
}.

Record SdkDmX3dhHeader := mkX3dhHeader {
  xh_bootstrap_ordering_version : option N;
  xh_bootstrap_sequence : option N;
  xh_bootstrap_envelope_id : option string;
  xh_initiator_identity_public : bytes;
  xh_initiator_ephemeral_public : bytes;
  xh_initiator_device_id_hash : bytes;
  xh_recipient_device_id_hash : bytes;
  xh_recipient_device_id : string;
  xh_recipient_signed_prekey_id : string;
  xh_recipient_one_time_prekey_id : option string;
  xh_prekey_bundle_hash : bytes;
  xh_bootstrap_transcript_hash : bytes;
  xh_session_id : string;
}.

(** What the account knows of another device: the certificate of the custody
    authority for the epoch of the bundle, or the cached record of the device
    directory. *)
Inductive DeviceAuthority :=
| NativeAuthority (principal_id branch_signing_public_key agreement_identity_public_key : string)
| CachedRecord (x25519_identity_public : bytes) (device_epoch : N) (principal_id signing_public_key : string).

Section x3dh.
Context {prim : Primitives}.
(** Ed25519, with [VerifyingKey] as its bytes; base64url; and JSON: the
    canonical bytes of a signing body and of a bootstrap tuple, and
    [serde_json::to_vec] of a bundle. *)
Context {SigningKey : Type}.
Variable sign : SigningKey -> bytes -> bytes.
Variable verifying_key : SigningKey -> bytes.
Variable key_valid : bytes -> bool.
Variable verify_strict : bytes -> bytes -> bytes -> bool.
Variable decode_base64url : string -> option bytes.
Variable canonical_body : PrekeyBundleSigningBody -> option bytes.
Variable canonical_bootstrap : string * bytes * N -> option bytes.
Variable bundle_json : PrekeyBundle -> option bytes.

(** *** Making and checking bundles *)

Definition create_prekey_bundle_with_lineage (device_branch : DeviceBranch SigningKey) (lineage_signing_key : SigningKey)
    (identity_key : X25519KeyPair) (signed_prekey_id : string) (signed_prekey : X25519KeyPair)
    (one_time_prekey_id : option string) (one_time_prekey : option bytes) : result CryptoError PrekeyBundle :=
  let one_time_prekey_ids := option_list one_time_prekey_id in
  let device_public := encode_base64url (verifying_key (br_signing_key device_branch)) in
  let body := mkSigningBody domain.X3DH_PREKEY_BUNDLE (br_principal_id device_branch) (br_device_id device_branch)
    (br_device_epoch device_branch) ("device:" +:+ br_device_id device_branch) device_public
    (encode_base64url (public identity_key)) signed_prekey_id (encode_base64url (public signed_prekey)) 0 0
    one_time_prekey_ids (encode_base64url <$> option_list one_time_prekey) 0 ["dm.x3dh"%string] in
  ok_or (canonical_body body) CanonicalJson ≫= fun canonical =>
  let signature_by_device_identity := encode_base64url (sign (br_signing_key device_branch) canonical) in
  let signature_by_lineage := encode_base64url (sign lineage_signing_key canonical) in
  Ok (mkBundle domain.X3DH_PREKEY_BUNDLE (br_principal_id device_branch) (br_device_id device_branch)
    (br_device_epoch device_branch) ("device:" +:+ br_device_id device_branch) device_public
    (public identity_key) (public identity_key) signed_prekey_id (public signed_prekey) (public signed_prekey) 0 0
    one_time_prekey_ids (option_list one_time_prekey) one_time_prekey_id one_time_prekey 0 ["dm.x3dh"%string]
    signature_by_device_identity signature_by_lineage signature_by_device_identity).

Definition create_prekey_bundle (device_branch : DeviceBranch SigningKey) (identity_key : X25519KeyPair)
    (signed_prekey_id : string) (signed_prekey : X25519KeyPair) (one_time_prekey_id : option string)
    (one_time_prekey : option bytes) : result CryptoError PrekeyBundle :=
  create_prekey_bundle_with_lineage device_branch (br_signing_key device_branch) identity_key signed_prekey_id
    signed_prekey one_time_prekey_id one_time_prekey.

Definition verifying_key_from_base64url (value : string) : result CryptoError bytes :=
  ok_or (decode_base64url value) Base64Invalid ≫= fun public_key =>
  ensure (bool_decide (length public_key = 32%nat)) (InvalidPublicKeyLength (length public_key)) ≫= fun _ =>
  ensure (key_valid public_key) VerifyFailed ≫= fun _ =>
  Ok public_key.

Definition verify_canonical_signature (canonical : bytes) (signature_base64url public_key_base64url : string)
  : result CryptoError unit :=
  ok_or (decode_base64url signature_base64url) Base64Invalid ≫= fun signature =>
  ensure (bool_decide (length signature = 64%nat)) (InvalidSignatureLength (length signature)) ≫= fun _ =>
  ok_or (decode_base64url public_key_base64url) Base64Invalid ≫= fun public_key =>
  ensure (bool_decide (length public_key = 32%nat)) (InvalidPublicKeyLength (length public_key)) ≫= fun _ =>
  ensure (key_valid public_key) VerifyFailed ≫= fun _ =>
  ensure (verify_strict public_key canonical signature) VerifyFailed.

Definition verify_prekey_bundle_with_lineage (device_public_key lineage_public_key : bytes) (bundle : PrekeyBundle)
  : result CryptoError unit :=
  let one_time_prekey_x25519_public :=
    match pb_one_time_prekey_x25519_public bundle with
    | [] => encode_base64url <$> option_list (pb_one_time_prekey bundle)
    | keys => encode_base64url <$> keys
    end in
  let one_time_prekey_ids :=
    match pb_one_time_prekey_ids bundle with
    | [] => option_list (pb_one_time_prekey_id bundle)
    | ids => ids
    end in
  let body := mkSigningBody (pb_schema bundle) (pb_identity_commitment bundle) (pb_device_id bundle)
    (pb_device_epoch bundle) (pb_device_identity_key_id bundle) (pb_device_identity_ed25519_public bundle)
    (encode_base64url (pb_device_agreement_x25519_public bundle)) (pb_signed_prekey_id bundle)
    (encode_base64url (pb_signed_prekey_x25519_public bundle)) (pb_signed_prekey_created_at bundle)
    (pb_signed_prekey_expires_at bundle) one_time_prekey_ids one_time_prekey_x25519_public
    (pb_prekey_bundle_counter bundle) (pb_capability_scope bundle) in
  ok_or (canonical_body body) CanonicalJson ≫= fun canonical =>
  let device_signature :=
    if decide (pb_signature_by_device_identity bundle = "") then pb_signature bundle
    else pb_signature_by_device_identity bundle in
  verify_canonical_signature canonical device_signature (encode_base64url device_public_key) ≫= fun _ =>
  verify_canonical_signature canonical (pb_signature_by_lineage bundle) (encode_base64url lineage_public_key).

Definition verify_prekey_bundle (device_public_key : bytes) (bundle : PrekeyBundle) : result CryptoError unit :=
  verify_prekey_bundle_with_lineage device_public_key device_public_key bundle.

(** *** X3DH *)

(** [bootstrap_transcript_hash] *)
Definition x3dh_transcript_hash (t : BootstrapTranscriptInput) : bytes :=
  blake3_256 domain.X3DH_INITIAL_SECRET
    (str domain.X3DH_INITIAL_SECRET ++ bt_initiator_device_id_hash t ++ bt_recipient_device_id_hash t ++
     str (bt_recipient_signed_prekey_id t) ++ default [] (str <$> bt_recipient_one_time_prekey_id t) ++
     bt_initiator_ephemeral_public t ++ bt_prekey_bundle_hash t ++ bt_initial_ratchet_public t).

Definition derive_x3dh_output (dh_values : list bytes) (dh4 : option bytes) (prekey_bundle_hash associated_data : bytes)
    (transcript : BootstrapTranscriptInput) : result CryptoError X3dhOutput :=
  let ikm := str domain.X3DH_INITIAL_SECRET ++ mjoin dh_values ++ default [] dh4 in
  hkdf_sha256 (blake3_256 domain.X3DH_INITIAL_SECRET prekey_bundle_hash) ikm
    (str domain.X3DH_INITIAL_SECRET ++ associated_data) 64 ≫= fun output =>
  Ok (mkX3dhOutput (take 32 output) (drop 32 output) (x3dh_transcript_hash transcript)).

Definition x3dh_initiator (input : X3dhInitiatorInput) : result CryptoError X3dhOutput :=
  let identity := xi_initiator_identity input in
  let ephemeral := xi_initiator_ephemeral input in
  let bundle := xi_recipient_bundle input in
  let dh1 := diffie_hellman (secret identity) (pb_signed_prekey bundle) in
  let dh2 := diffie_hellman (secret ephemeral) (pb_identity_key bundle) in
  let dh3 := diffie_hellman (secret ephemeral) (pb_signed_prekey bundle) in
  let dh4 := diffie_hellman (secret ephemeral) <$> pb_one_time_prekey bundle in
  derive_x3dh_output [dh1; dh2; dh3] dh4 (xi_prekey_bundle_hash input) (xi_associated_data input)
    (mkTranscript (xi_initiator_device_id_hash input) (xi_recipient_device_id_hash input) (pb_signed_prekey_id bundle)
      (pb_one_time_prekey_id bundle) (public ephemeral) (xi_prekey_bundle_hash input) (xi_initial_ratchet_public input)).

Definition x3dh_recipient (input : X3dhRecipientInput) : result CryptoError X3dhOutput :=
  let signed_prekey := xr_recipient_signed_prekey input in
  let ephemeral_public := xr_initiator_ephemeral_public input in
  let dh1 := diffie_hellman (secret signed_prekey) (xr_initiator_identity_public input) in
  let dh2 := diffie_hellman (secret (xr_recipient_identity input)) ephemeral_public in
  let dh3 := diffie_hellman (secret signed_prekey) ephemeral_public in
  let dh4 := (fun key => diffie_hellman (secret key) ephemeral_public) <$> xr_recipient_one_time_prekey input in
  derive_x3dh_output [dh1; dh2; dh3] dh4 (xr_prekey_bundle_hash input) (xr_associated_data input)
    (mkTranscript (xr_initiator_device_id_hash input) (xr_recipient_device_id_hash input)
      (xr_recipient_signed_prekey_id input) (xr_recipient_one_time_prekey_id input) ephemeral_public
      (xr_prekey_bundle_hash input) (xr_initial_ratchet_public input)).

(** *** Publishing *)

Definition verify_owned_private_prekey (branch : option (DeviceBranch SigningKey)) (root_commitment device_id : string)
    (state : SdkX3dhPrivateState) : result SdkError unit :=
  ok_or branch IdentityRootMissing ≫= fun branch =>
  let vk := verifying_key (br_signing_key branch) in
  if decide (sp_principal_commitment state <> Some root_commitment \/ sp_device_id state <> device_id \/
             pb_device_id (sp_bundle state) <> device_id \/
             pb_device_identity_ed25519_public (sp_bundle state) <> encode_base64url vk \/
             pb_identity_key (sp_bundle state) <> public (from_seed (sp_identity_seed state)) \/
             pb_signed_prekey (sp_bundle state) <> public (from_seed (sp_signed_prekey_seed state)))
  then Err (InboundRejected "identity authority: private prekey root or key mismatch")
  else map_err SdkCrypto (verify_prekey_bundle vk (sp_bundle state)).

(** The state that is written to the store, and the bundle; the writes of
    [persist_owned_private_prekey] are not part of the model. *)
Definition create_and_store_prekey_bundle (branch : option (DeviceBranch SigningKey)) (root_commitment device_id : string)
    (device_seed : bytes) : result SdkError (SdkX3dhPrivateState * PrekeyBundle) :=
  ok_or branch IdentityRootMissing ≫= fun branch' =>
  let identity_seed := blake3_256 "ramflux.sdk.x3dh.identity.v1" device_seed in
  let signed_prekey_seed := blake3_256 "ramflux.sdk.x3dh.signed_prekey.v1" device_seed in
  let signed_prekey_id := device_id +:+ ":signed:1" in
  map_err SdkCrypto (create_prekey_bundle branch' (from_seed identity_seed) signed_prekey_id
    (from_seed signed_prekey_seed) None None) ≫= fun bundle =>
  let state := mkPrivate (Some root_commitment) device_id identity_seed signed_prekey_id signed_prekey_seed bundle in
  verify_owned_private_prekey branch root_commitment device_id state ≫= fun _ =>
  Ok (state, bundle).

(** *** Checking the bundle of another device *)

(** [device_id] is the device the client asked for, [authority] what the account
    knows of it. *)
Definition verify_root_bound_prekey (device_id : string) (authority : DeviceAuthority) (bundle : PrekeyBundle)
  : result SdkError unit :=
  match authority with
  | NativeAuthority principal_id branch_signing_public_key agreement_identity_public_key =>
      if decide (pb_identity_commitment bundle <> principal_id \/ pb_device_id bundle <> device_id \/
                 pb_device_identity_ed25519_public bundle <> branch_signing_public_key \/
                 encode_base64url (pb_identity_key bundle) <> agreement_identity_public_key \/
                 pb_identity_key bundle <> pb_device_agreement_x25519_public bundle)
      then Err (InboundRejected "identity authority: native prekey differs from current authority") else
      map_err SdkCrypto (verifying_key_from_base64url branch_signing_public_key ≫= fun key =>
        verify_prekey_bundle key bundle)
  | CachedRecord x25519_identity_public device_epoch principal_id signing_public_key =>
      if decide (pb_device_id bundle <> device_id \/ pb_identity_key bundle <> x25519_identity_public \/
                 pb_device_agreement_x25519_public bundle <> x25519_identity_public \/
                 device_epoch <> pb_device_epoch bundle \/ principal_id <> pb_identity_commitment bundle \/
                 signing_public_key <> pb_device_identity_ed25519_public bundle)
      then Err (InboundRejected "identity authority: recipient prekey differs from verified device identity") else
      map_err SdkCrypto (verifying_key_from_base64url signing_public_key ≫= fun key =>
        verify_prekey_bundle key bundle)
  end.

(** *** Sessions *)

Definition dm_device_id_hash (device_id : string) : bytes := blake3_256 domain.DEVICE_PROOF (str device_id).

Definition prekey_bundle_hash (bundle : PrekeyBundle) : result SdkError bytes :=
  ok_or (bundle_json bundle) SdkJson ≫= fun json => Ok (blake3_256 domain.X3DH_PREKEY_BUNDLE json).

Definition bootstrap_aad (aad : bytes) (sequence version : option N) : result SdkError bytes :=
  if decide (version <> None /\ version <> Some 2)
  then Err (InboundRejected "unsupported bootstrap ordering version") else
  match sequence with
  | Some sequence =>
      if decide (1 <= sequence <= 9007199254740991) then
        ok_or (canonical_bootstrap
          ((if decide (version = Some 2) then "ramflux.sdk.bootstrap.hlc.v2" else "ramflux.sdk.bootstrap.sequence.v1")%string,
           aad, sequence)) SdkProtocol
      else Err (InboundRejected "invalid bootstrap sequence")
  | None => Ok aad
  end.

(** [load] is [load_x3dh_private_state] for a device id of this account,
    [random] the seed of the ephemeral key, [allocate] the next bootstrap
    sequence. *)
Definition create_send_dm_session_with_aad (load : string -> result SdkError SdkX3dhPrivateState)
    (random : result CryptoError bytes) (allocate : result SdkError N) (conversation_id recipient_device_id : string)
    (recipient_bundle : PrekeyBundle) (own_device_id : string) (aad : option bytes)
  : result SdkError (DmSession * SdkDmX3dhHeader) :=
  load own_device_id ≫= fun own_state =>
  let own_identity := from_seed (sp_identity_seed own_state) in
  map_err SdkCrypto random ≫= fun seed =>
  let ephemeral := from_seed seed in
  prekey_bundle_hash recipient_bundle ≫= fun bundle_hash =>
  let initiator_device_id_hash := dm_device_id_hash own_device_id in
  let recipient_device_id_hash := dm_device_id_hash recipient_device_id in
  match aad with Some _ => allocate ≫= fun n => Ok (Some n) | None => Ok None end ≫= fun bootstrap_sequence =>
  let version := match aad with Some _ => Some 2 | None => None end in
  bootstrap_aad (default (str conversation_id) aad) bootstrap_sequence version ≫= fun bootstrap_aad =>
  map_err SdkCrypto (x3dh_initiator (mkInitiatorInput own_identity ephemeral initiator_device_id_hash
    recipient_device_id_hash recipient_bundle bootstrap_aad bundle_hash (public ephemeral))) ≫= fun output =>
  map_err SdkCrypto (initiator_with_remote_ratchet (xo_root_seed output) initiator_device_id_hash
    recipient_device_id_hash (xo_bootstrap_transcript_hash output) ephemeral (pb_signed_prekey recipient_bundle))
    ≫= fun session =>
  Ok (session, mkX3dhHeader version bootstrap_sequence None (public own_identity) (public ephemeral)
    initiator_device_id_hash recipient_device_id_hash recipient_device_id (pb_signed_prekey_id recipient_bundle)
    (pb_one_time_prekey_id recipient_bundle) bundle_hash (xo_bootstrap_transcript_hash output) (session_id session)).

Definition create_recv_dm_session_with_aad (load : string -> result SdkError SdkX3dhPrivateState)
    (header : SdkDmX3dhHeader) (aad : bytes) : result SdkError DmSession :=
  load (xh_recipient_device_id header) ≫= fun own_state =>
  if decide (sp_signed_prekey_id own_state <> xh_recipient_signed_prekey_id header)
  then Err (LocalBus ("signed prekey id mismatch for " +:+ xh_recipient_device_id header)) else
  let identity := from_seed (sp_identity_seed own_state) in
  let signed_prekey := from_seed (sp_signed_prekey_seed own_state) in
  bootstrap_aad aad (xh_bootstrap_sequence header) (xh_bootstrap_ordering_version header) ≫= fun bootstrap_aad =>
  map_err SdkCrypto (x3dh_recipient (mkRecipientInput identity signed_prekey None (xh_initiator_identity_public header)
    (xh_initiator_ephemeral_public header) (xh_initiator_device_id_hash header) (xh_recipient_device_id_hash header)
    (xh_recipient_signed_prekey_id header) (xh_recipient_one_time_prekey_id header) bootstrap_aad
    (xh_prekey_bundle_hash header) (xh_initiator_ephemeral_public header))) ≫= fun output =>
  if decide (xo_bootstrap_transcript_hash output <> xh_bootstrap_transcript_hash header)
  then Err (LocalBus "X3DH bootstrap transcript hash mismatch") else
  map_err SdkCrypto (recipient_with_local_ratchet (xo_root_seed output) (xh_recipient_device_id_hash header)
    (xh_initiator_device_id_hash header) (xo_bootstrap_transcript_hash output) signed_prekey).
End x3dh.
