(* ===== verification/X3dhProps.v ===== *)
(** * Prekey bundles and X3DH: theorems

    A published bundle is accepted by the other clients; the sessions that both
    ends make from it understand each other (this joins X3DH with the double
    ratchet of RatchetProps.v); and the keys of a bundle that no signature
    covers. *)

From S2P Require Import Prelude OrdMap Bytes Crypto CryptoProps Ratchet RatchetProps X3dh.
From Stdlib Require Import Strings.Byte.

Open Scope N_scope.

Section x3dh_props.
Context {prim : Primitives} {laws : PrimitiveLaws prim}.

(** ** Both ends derive the same secrets *)

Lemma x3dh_agree a e i p o bundle ih rh ad bundle_hash ratchet :
  pb_identity_key bundle = x25519_public i -> pb_signed_prekey bundle = x25519_public p ->
  pb_one_time_prekey bundle = x25519_public <$> o ->
  x3dh_initiator (mkInitiatorInput (from_seed a) (from_seed e) ih rh bundle ad bundle_hash ratchet) =
  x3dh_recipient (mkRecipientInput (from_seed i) (from_seed p) (from_seed <$> o) (x25519_public a) (x25519_public e)
    ih rh (pb_signed_prekey_id bundle) (pb_one_time_prekey_id bundle) ad bundle_hash ratchet).
Proof.
  intros Hi Hp Ho. unfold x3dh_initiator, x3dh_recipient. cbn. rewrite Hi, Hp, Ho.
  rewrite (dh_agree a p), (dh_agree e i), (dh_agree e p). f_equal. destruct o as [o|]; [|done]. cbn.
  by rewrite (dh_agree e o).
Qed.

Lemma derive_x3dh_output_ok dhs dh4 bundle_hash ad t :
  exists out, derive_x3dh_output dhs dh4 bundle_hash ad t = Ok out /\
    key32 (xo_root_seed out) /\ key32 (xo_bootstrap_transcript_hash out).
Proof.
  unfold derive_x3dh_output. edestruct (hkdf_total) as (out & Hout & Hlen); [|rewrite Hout].
  { apply Nat.leb_le. reflexivity. }
  eexists. split; [reflexivity|]. split; [|apply blake3_length]. cbn. unfold key32. rewrite length_take, Hlen. done.
Qed.

Lemma recipient_session_ok root a b transcript pair : exists r, recipient_with_local_ratchet root a b transcript pair = Ok r.
Proof. unfold recipient_with_local_ratchet. rewrite derive_initial_chains_ok. by eexists. Qed.

(** What the constructors leave of a session's id. *)
Lemma initiator_session_id root a b transcript x remote s :
  initiator_with_remote_ratchet root a b transcript x remote = Ok s -> session_id s = ratchet_session_id a b transcript.
Proof.
  unfold initiator_with_remote_ratchet. rewrite derive_root_and_chain_ok. cbn [mbind result_bind].
  destruct (rc _ _ _ _) as [root' chain]. rewrite derive_initial_chains_ok. cbn [mbind result_bind].
  by intros <-%Ok_inj.
Qed.

Lemma recipient_session_id root a b transcript x r :
  recipient_with_local_ratchet root a b transcript x = Ok r -> session_id r = ratchet_session_id b a transcript.
Proof. unfold recipient_with_local_ratchet. rewrite derive_initial_chains_ok. cbn [mbind result_bind]. by intros <-%Ok_inj. Qed.

Lemma initiator_session_ok root a b transcript pair remote :
  exists s, initiator_with_remote_ratchet root a b transcript pair remote = Ok s.
Proof.
  unfold initiator_with_remote_ratchet. rewrite derive_root_and_chain_ok. cbn [mbind result_bind].
  destruct (rc _ _ _ _) as [root' chain]. rewrite derive_initial_chains_ok. by eexists.
Qed.

Section client.
Context {SigningKey : Type} (sign : SigningKey -> bytes -> bytes) (verifying_key : SigningKey -> bytes)
  (key_valid : bytes -> bool) (verify_strict : bytes -> bytes -> bytes -> bool)
  (decode_base64url : string -> option bytes) (canonical_body : PrekeyBundleSigningBody -> option bytes)
  (canonical_bootstrap : string * bytes * N -> option bytes) (bundle_json : PrekeyBundle -> option bytes).

Notation verify_bundle := (verify_prekey_bundle key_valid verify_strict decode_base64url canonical_body).
Notation verify_bound := (verify_root_bound_prekey key_valid verify_strict decode_base64url canonical_body).
Notation publish := (create_and_store_prekey_bundle sign verifying_key key_valid verify_strict decode_base64url
  canonical_body).
Notation create_send := (create_send_dm_session_with_aad canonical_bootstrap bundle_json).
Notation create_recv := (create_recv_dm_session_with_aad canonical_bootstrap).

(** ** Published bundles *)

(** The parts of a published bundle that a session is made from. *)
Record published (st : SdkX3dhPrivateState) (bundle : PrekeyBundle) : Prop := {
  pu_identity : pb_identity_key bundle = x25519_public (sp_identity_seed st);
  pu_signed : pb_signed_prekey bundle = x25519_public (sp_signed_prekey_seed st);
  pu_id : pb_signed_prekey_id bundle = sp_signed_prekey_id st;
  pu_one_time : pb_one_time_prekey bundle = None;
  pu_seed : key32 (sp_signed_prekey_seed st);
}.

Lemma publish_published branch root device seed st bundle :
  publish branch root device seed = Ok (st, bundle) -> published st bundle.
Proof.
  unfold create_and_store_prekey_bundle. intros (branch' & _ & H)%bind_Ok. apply bind_Ok in H as (b & Hb & H).
  apply bind_Ok in H as (_ & _ & [= <- <-]). revert Hb.
  unfold create_prekey_bundle, create_prekey_bundle_with_lineage.
  destruct (canonical_body _) as [canonical|]; [|done]. cbn [ok_or mbind result_bind map_err]. intros <-%Ok_inj.
  split; [done..|]. apply blake3_length.
Qed.

(** ** Sessions *)

Lemma create_send_inv load x allocate conv device bundle own aad s h :
  create_send load (Ok x) allocate conv device bundle own aad = Ok (s, h) ->
  exists st ad out, bootstrap_aad canonical_bootstrap (default (str conv) aad) (xh_bootstrap_sequence h)
      (xh_bootstrap_ordering_version h) = Ok ad /\
    x3dh_initiator (mkInitiatorInput (from_seed (sp_identity_seed st)) (from_seed x) (xh_initiator_device_id_hash h)
      (xh_recipient_device_id_hash h) bundle ad (xh_prekey_bundle_hash h) (x25519_public x)) = Ok out /\
    initiator_with_remote_ratchet (xo_root_seed out) (xh_initiator_device_id_hash h) (xh_recipient_device_id_hash h)
      (xo_bootstrap_transcript_hash out) (from_seed x) (pb_signed_prekey bundle) = Ok s /\
    h = mkX3dhHeader (xh_bootstrap_ordering_version h) (xh_bootstrap_sequence h) None
      (x25519_public (sp_identity_seed st)) (x25519_public x) (dm_device_id_hash own) (dm_device_id_hash device) device
      (pb_signed_prekey_id bundle) (pb_one_time_prekey_id bundle) (xh_prekey_bundle_hash h)
      (xo_bootstrap_transcript_hash out) (session_id s).
Proof.
  unfold create_send_dm_session_with_aad. intros (st & _ & H)%bind_Ok.
  apply bind_Ok in H as (x' & [= <-] & H). apply bind_Ok in H as (bh & _ & H). apply bind_Ok in H as (sequence & _ & H).
  apply bind_Ok in H as (ad & Had & H). apply bind_Ok in H as (out & Hout & H). apply bind_Ok in H as (s' & Hs & H).
  apply Ok_inj in H. injection H as -> <-. exists st, ad, out. cbn.
  destruct (x3dh_initiator _) as [out'|]; [|done]. apply Ok_inj in Hout as ->.
  destruct (initiator_with_remote_ratchet _ _ _ _ _ _) as [s1|]; [|done]. apply Ok_inj in Hs as ->. done.
Qed.

(** Making a session fails only with the store, JSON or the random source. *)
Lemma create_send_total load x allocate conv device bundle own aad st sequence ad json :
  load own = Ok st -> bundle_json bundle = Some json ->
  match aad with Some _ => allocate ≫= fun n => Ok (Some n) | None => Ok None end = Ok sequence ->
  bootstrap_aad canonical_bootstrap (default (str conv) aad) sequence
    (match aad with Some _ => Some 2 | None => None end) = Ok ad ->
  exists s h, create_send load (Ok x) allocate conv device bundle own aad = Ok (s, h).
Proof.
  intros Hload Hjson Hseq Had. unfold create_send_dm_session_with_aad, prekey_bundle_hash.
  rewrite Hload, Hjson. cbn [map_err ok_or mbind result_bind]. rewrite Hseq. cbn [mbind result_bind]. rewrite Had.
  cbn [mbind result_bind]. unfold x3dh_initiator. edestruct derive_x3dh_output_ok as (out & -> & _).
  cbn [map_err mbind result_bind]. edestruct initiator_session_ok as [s Hs]. rewrite Hs. by eexists _, _.
Qed.

(** C5: a published bundle opens a conversation. When a client makes a session
    from the bundle another device published, that device makes its end from the
    header that comes with the first message, without an error; both ends have
    the same session id, and everything they then send to each other, for any
    number of turns and in any order of arrival, is recovered. *)
Theorem published_bundle_converses branch root device seed st bundle load load' x allocate conv own aad s h turns :
  publish branch root device seed = Ok (st, bundle) -> load' device = Ok st ->
  create_send load (Ok x) allocate conv device bundle own aad = Ok (s, h) -> key32 x ->
  Forall turn_ok turns ->
  NoDup (x25519_public <$> (x :: sp_signed_prekey_seed st :: (tu_fresh <$> turns))) ->
  ZERO32 ∉ x25519_public <$> (x :: (tu_fresh <$> turns)) ->
  exists r, create_recv load' h (default (str conv) aad) = Ok r /\ session_id r = session_id s /\
    converse turns s r = Ok ((fun t => expected (tu_msgs t) (tu_schedule t)) <$> turns).
Proof.
  intros Hpub%publish_published Hload Hsend Hx Hok Hnd Hz.
  rewrite fmap_cons, not_elem_of_cons in Hz. destruct Hz as [Hz1 Hz2].
  destruct (create_send_inv _ _ _ _ _ _ _ _ _ _ Hsend) as (alice & ad & out & Had & Hout & Hs & Hh). clear Hsend.
  destruct Hpub as [Hi Hp Hid Ho Hkey]. rewrite Hp in Hs. set (p := sp_signed_prekey_seed st) in *.
  destruct h as [version sequence ? ? ? ih rh ? ? ? bh ? ?]. cbn in *. injection Hh as -> -> -> -> -> -> -> -> -> ->.
  set (ih := dm_device_id_hash own) in *. set (rh := dm_device_id_hash device) in *.
  destruct (recipient_session_ok (xo_root_seed out) rh ih (xo_bootstrap_transcript_hash out) (from_seed p)) as [r Hr].
  rewrite (x3dh_agree _ _ (sp_identity_seed st) p None bundle) in Hout by done.
  exists r. split; [|split].
  - unfold create_recv_dm_session_with_aad. cbn -[x3dh_recipient]. rewrite Hload. cbn -[x3dh_recipient].
    rewrite Hid, decide_False by tauto. rewrite Had. cbn -[x3dh_recipient]. rewrite Hid in Hout.
    change (from_seed <$> None) with (@None X25519KeyPair) in Hout.
    change (mkPair (sp_identity_seed st) (x25519_public (sp_identity_seed st))) with (from_seed (sp_identity_seed st)).
    change (mkPair p (x25519_public p)) with (from_seed p). fold p. rewrite Hout. cbn.
    rewrite decide_False by tauto. by rewrite Hr.
  - by rewrite (recipient_session_id _ _ _ _ _ _ Hr), (initiator_session_id _ _ _ _ _ _ _ Hs).
  - unfold x3dh_recipient in Hout. edestruct derive_x3dh_output_ok as (out' & Hd & Hroot & Htr).
    rewrite Hd in Hout. apply Ok_inj in Hout as ->.
    destruct (ratchet_sessions_ahead _ _ _ _ _ _ _ _ Hs Hr) as (Hahead & Hsx & Hrp); [done|].
    assert (key32 ih /\ key32 rh) as [Hih Hrh] by (split; apply blake3_length).
    apply (converse_ahead turns s r x p); try done.
    + by eapply (initiator_with_remote_ratchet_typed (xo_root_seed out) ih rh); [..|exact Hs]; try done; apply x25519_public_length.
    + by eapply (recipient_with_local_ratchet_typed (xo_root_seed out) rh ih); [..|exact Hr].
Qed.
(** ** Keys that no signature covers *)

(** The bundle with other keys for the exchange. *)
Definition substitute_keys (b : PrekeyBundle) (identity_key signed_prekey : bytes) : PrekeyBundle :=
  mkBundle (pb_schema b) (pb_identity_commitment b) (pb_device_id b) (pb_device_epoch b) (pb_device_identity_key_id b)
    (pb_device_identity_ed25519_public b) (pb_device_agreement_x25519_public b) identity_key (pb_signed_prekey_id b)
    (pb_signed_prekey_x25519_public b) signed_prekey (pb_signed_prekey_created_at b) (pb_signed_prekey_expires_at b)
    (pb_one_time_prekey_ids b) (pb_one_time_prekey_x25519_public b) (pb_one_time_prekey_id b) (pb_one_time_prekey b)
    (pb_prekey_bundle_counter b) (pb_capability_scope b) (pb_signature_by_device_identity b)
    (pb_signature_by_lineage b) (pb_signature b).

(** C39: the keys that X3DH uses are not the ones a bundle's signatures cover. Its
    identity key and signed prekey may be replaced without any effect on the check
    of the signatures; whoever chose both then derives the secrets of every
    session made from the bundle. The client compares the identity key with the
    signed one, but not the signed prekey: replacing it alone has no effect on any
    of the client's checks, and the secrets no longer depend on the prekey the
    device signed. *)
Theorem unsigned_prekey_accepted b i z a e vk device authority ih rh ad bundle_hash ratchet :
  pb_one_time_prekey b = None ->
  let forged := substitute_keys b (x25519_public i) (x25519_public z) in
  let half_forged := substitute_keys b (pb_identity_key b) (x25519_public z) in
  let derived bundle := x3dh_initiator
    (mkInitiatorInput (from_seed a) (from_seed e) ih rh bundle ad bundle_hash ratchet) in
  let recomputed identity_seed := x3dh_recipient
    (mkRecipientInput (from_seed identity_seed) (from_seed z) None (x25519_public a) (x25519_public e) ih rh
      (pb_signed_prekey_id b) (pb_one_time_prekey_id b) ad bundle_hash ratchet) in
  verify_bundle vk forged = verify_bundle vk b /\ derived forged = recomputed i /\
  verify_bound device authority half_forged = verify_bound device authority b /\
  (forall genuine, pb_identity_key b = x25519_public genuine -> derived half_forged = recomputed genuine).
Proof.
  intros Ho. cbn zeta. split; [done|]. split; [by apply (x3dh_agree a e i z None (substitute_keys b _ _))|]. split; [by destruct authority|].
  intros genuine Hi. by apply (x3dh_agree a e genuine z None (substitute_keys b _ _)).
Qed.

(** ** Acceptance *)

Section signatures.
Hypothesis decode_encode : forall l, decode_base64url (encode_base64url l) = Some l.
Hypothesis body_encodes : forall body, exists canonical, canonical_body body = Some canonical.
Context (branch : DeviceBranch SigningKey).
Let sk := br_signing_key branch.
Hypothesis key_length : length (verifying_key sk) = 32%nat.
Hypothesis key_accepted : key_valid (verifying_key sk) = true.
Hypothesis signature_length : forall m, length (sign sk m) = 64%nat.
Hypothesis signature_verifies : forall m, verify_strict (verifying_key sk) m (sign sk m) = true.

Lemma signed_canonical_accepted m :
  verify_canonical_signature key_valid verify_strict decode_base64url m (encode_base64url (sign sk m))
    (encode_base64url (verifying_key sk)) = Ok tt.
Proof.
  unfold verify_canonical_signature. rewrite !decode_encode. cbn [ok_or mbind result_bind].
  rewrite signature_length, key_length, key_accepted, signature_verifies. done.
Qed.

Lemma created_bundle identity id prekey :
  exists b, create_prekey_bundle sign verifying_key canonical_body branch (from_seed identity) id (from_seed prekey)
      None None = Ok b /\
    verify_bundle (verifying_key sk) b = Ok tt /\
    pb_device_id b = br_device_id branch /\ pb_device_epoch b = br_device_epoch branch /\
    pb_identity_commitment b = br_principal_id branch /\
    pb_device_identity_ed25519_public b = encode_base64url (verifying_key sk) /\
    pb_identity_key b = x25519_public identity /\ pb_signed_prekey b = x25519_public prekey /\
    pb_device_agreement_x25519_public b = x25519_public identity.
Proof.
  unfold create_prekey_bundle, create_prekey_bundle_with_lineage.
  match goal with |- context [canonical_body ?body] => destruct (body_encodes body) as [canonical Hc] end.
  rewrite Hc. cbn [ok_or mbind result_bind]. eexists. split; [reflexivity|]. split; [|done].
  unfold verify_prekey_bundle, verify_prekey_bundle_with_lineage. cbn -[decide] in *. rewrite Hc. cbn -[decide].
  destruct (decide _); by rewrite signed_canonical_accepted.
Qed.

(** every client accepts what a device publishes. Publishing under the
    device's own id succeeds, and the bundle passes the checks of a client that
    knows the device by its certificate or by its directory record. *)
Theorem published_bundle_accepted root seed :
  exists st bundle, let device := br_device_id branch in
    publish (Some branch) root device seed = Ok (st, bundle) /\
    verify_bound device (NativeAuthority (br_principal_id branch) (encode_base64url (verifying_key sk))
      (encode_base64url (pb_identity_key bundle))) bundle = Ok tt /\
    verify_bound device (CachedRecord (pb_identity_key bundle) (br_device_epoch branch) (br_principal_id branch)
      (encode_base64url (verifying_key sk))) bundle = Ok tt.
Proof.
  unfold create_and_store_prekey_bundle. cbn [ok_or mbind result_bind].
  set (identity := blake3_256 "ramflux.sdk.x3dh.identity.v1" seed).
  set (prekey := blake3_256 "ramflux.sdk.x3dh.signed_prekey.v1" seed).
  destruct (created_bundle identity (br_device_id branch +:+ ":signed:1") prekey) as (b & -> & Hver & Hb).
  destruct Hb as (Hd & He & Hp & Hk & Hi & Hs & Ha). cbn [map_err mbind result_bind]. eexists _, b. cbn zeta.
  unfold verify_owned_private_prekey, verify_root_bound_prekey, verifying_key_from_base64url.
  cbn [ok_or mbind result_bind sp_principal_commitment sp_device_id sp_bundle sp_identity_seed sp_signed_prekey_seed].
  rewrite Hd, He, Hp, Hk, Hi, Hs, Ha, !decide_False by (clear; tauto). rewrite decode_encode.
  cbn [ok_or mbind result_bind]. rewrite key_length, key_accepted, bool_decide_eq_true_2 by done.
  cbn [ensure mbind result_bind]. fold sk. by rewrite Hver.
Qed.
End signatures.
End client.
End x3dh_props.
