(* ===== verification/X3dhRun.v ===== *)
(** * X3DH on concrete devices

    The theorems of X3dhProps.v applied with the primitives of RatchetRun.v, the
    signature of GroupSenderRun.v, and simple encodings in place of JSON. *)

From S2P Require Import Prelude OrdMap Bytes Crypto Ratchet RatchetProps RatchetRun VoiceRun GroupSenderRun X3dh X3dhProps.
From Stdlib Require Import Strings.Byte.

Open Scope N_scope.

#[local] Existing Instance toy.
#[local] Existing Instance toy_laws.

(** ** Two devices *)

Definition toy_verifying_key (k : bytes) : bytes := k.
Definition toy_body (b : PrekeyBundleSigningBody) : option bytes :=
  Some (str (sb_device_id b) ++ u64_be (sb_device_epoch b) ++ str (sb_device_agreement_x25519_public b) ++
        str (sb_signed_prekey_x25519_public b)).
Definition toy_bootstrap (t : string * bytes * N) : option bytes := Some (str t.1.1 ++ t.1.2 ++ u64_be t.2).
Definition toy_bundle_json (b : PrekeyBundle) : option bytes := Some (pb_identity_key b ++ pb_signed_prekey b).

Definition bob : DeviceBranch bytes := mkBranch "bob" "phone" 1 (key 40).

Definition publish_toy : result SdkError (SdkX3dhPrivateState * PrekeyBundle) :=
  create_and_store_prekey_bundle toy_sign toy_verifying_key any_key toy_verify unb64 toy_body (Some bob) "root" "phone" (key 41).

Lemma publish_toy_ok : exists st bundle, publish_toy = Ok (st, bundle).
Proof. eexists _, _. vm_compute. reflexivity. Qed.

Lemma published_bundle_accepted_witness :
  exists st bundle, publish_toy = Ok (st, bundle) /\
    verify_root_bound_prekey any_key toy_verify unb64 toy_body "phone"
      (CachedRecord (pb_identity_key bundle) 1 "bob" (encode_base64url (key 40))) bundle = Ok tt.
Proof.
  destruct (published_bundle_accepted toy_sign toy_verifying_key any_key toy_verify unb64 toy_body unb64_law
    ltac:(by eexists) bob (key_32 40) eq_refl (toy_sign_length (key 40)) (toy_verifies (key 40)) "root" (key 41))
    as (st & bundle & Hpub & _ & Hrec).
  exists st, bundle. exact (conj Hpub Hrec).
Defined.

(** ** A session *)

(** What another client keeps for itself; only its identity seed is used. *)
Definition alice_state (bundle : PrekeyBundle) : SdkX3dhPrivateState :=
  mkPrivate (Some "alice-root"%string) "laptop" (key 50) "laptop:signed:1" (key 51) bundle.

(** The two sides draw keys that differ from each other and from zero. *)
Lemma published_bundle_converses_witness :
  exists st bundle s h r, publish_toy = Ok (st, bundle) /\
    create_send_dm_session_with_aad toy_bootstrap toy_bundle_json (fun _ => Ok (alice_state bundle)) (Ok (key 60)) (Ok 7)
      "talk" "phone" bundle "laptop" (Some (str "aad")) = Ok (s, h) /\
    create_recv_dm_session_with_aad toy_bootstrap (fun _ => Ok st) h (str "aad") = Ok r /\
    converse turns s r =
      Ok [[Ok (str ""); Ok (str "bye"); Ok (str "hello")]; [Ok (str "yes")];
          [Ok (str "bye"); Ok (str ""); Ok (str "hello")]].
Proof.
  destruct publish_toy_ok as (st & bundle & Hpub).
  assert (st.(sp_signed_prekey_seed) = blake3_256 "ramflux.sdk.x3dh.signed_prekey.v1" (key 41)) as Hseed.
  { revert Hpub. unfold publish_toy, create_and_store_prekey_bundle. intros (b' & _ & H)%bind_Ok.
    apply bind_Ok in H as (b & _ & H). apply bind_Ok in H as (_ & _ & [= <- _]). reflexivity. }
  assert (exists s h, create_send_dm_session_with_aad toy_bootstrap toy_bundle_json (fun _ => Ok (alice_state bundle))
    (Ok (key 60)) (Ok 7) "talk" "phone" bundle "laptop" (Some (str "aad")) = Ok (s, h)) as (s & h & Hsend).
  { by eapply create_send_total; [reflexivity..|vm_compute; reflexivity]. }
  destruct (published_bundle_converses toy_sign toy_verifying_key any_key toy_verify unb64 toy_body toy_bootstrap
    toy_bundle_json (Some bob) "root" "phone" (key 41) st bundle (fun _ => Ok (alice_state bundle)) (fun _ => Ok st)
    (key 60) (Ok 7) "talk" "laptop" (Some (str "aad")) s h turns Hpub eq_refl Hsend (key_32 60) turns_ok)
    as (r & Hr & _ & Hc); [rewrite Hseed; compute_done|compute_done|].
  exists st, bundle, s, h, r. refine (conj Hpub (conj Hsend (conj Hr _))). rewrite Hc. vm_compute. reflexivity.
Defined.

(** The bundle with keys the node chose is accepted, and the node derives the
    secrets. *)
Lemma unsigned_prekey_accepted_witness :
  exists st bundle, publish_toy = Ok (st, bundle) /\
    verify_prekey_bundle any_key toy_verify unb64 toy_body (key 40) bundle = Ok tt /\
    let forged := substitute_keys bundle (toy_public (key 70)) (toy_public (key 71)) in
    verify_prekey_bundle any_key toy_verify unb64 toy_body (key 40) forged = Ok tt /\
    x3dh_initiator (mkInitiatorInput (from_seed (key 50)) (from_seed (key 60)) [] [] forged [] [] []) =
    x3dh_recipient (mkRecipientInput (from_seed (key 70)) (from_seed (key 71)) None (toy_public (key 50))
      (toy_public (key 60)) [] [] (pb_signed_prekey_id bundle) (pb_one_time_prekey_id bundle) [] [] []).
Proof.
  destruct publish_toy_ok as (st & bundle & Hpub). exists st, bundle.
  assert (pb_one_time_prekey bundle = None /\
    verify_prekey_bundle any_key toy_verify unb64 toy_body (key 40) bundle = Ok tt) as [Ho Hv].
  { split; [by apply publish_published in Hpub as []|]. revert Hpub. unfold publish_toy, create_and_store_prekey_bundle.
    intros (b' & [= <-] & H)%bind_Ok. apply bind_Ok in H as (b & _ & H). apply bind_Ok in H as (u & Hu & [= _ <-]).
    revert Hu. unfold verify_owned_private_prekey. cbn [ok_or mbind result_bind]. destruct (decide _); [done|].
    cbn [sp_bundle]. change (toy_verifying_key (br_signing_key bob)) with (key 40).
    destruct (verify_prekey_bundle _ _ _ _ _ _) as [[]|]; done. }
  destruct (unsigned_prekey_accepted any_key toy_verify unb64 toy_body bundle (key 70) (key 71) (key 50) (key 60)
    (key 40) "phone" (CachedRecord [] 0 "" "") [] [] [] [] [] Ho) as (Hf & Hd & _).
  refine (conj Hpub (conj Hv (conj _ Hd))). rewrite <- Hv. exact Hf.
Defined.
