(* ===== verification/Gf256.v ===== *)
(** * Arithmetic of GF(256)

    The field of ramflux-crypto/src/recovery.rs: bytes with exclusive or as
    addition and the shift-and-reduce product modulo x^8 + x^4 + x^3 + x + 1.
    Bytes are numbers below 256. The laws are proved once for the bits and then
    extended by linearity, so that only products of powers of two are ever
    computed. *)

From Stdlib Require Import NArith Arith List Bool Lia.
Import ListNotations.

Open Scope N_scope.

(** The [while b != 0] loop; a byte has eight bits. *)
Fixpoint gf_mul_loop (fuel : nat) (a b product : N) : N :=
  match fuel with
  | O => product
  | S fuel =>
      if b =? 0 then product else
      let product := if N.land b 1 =? 0 then product else N.lxor product a in
      let high := N.land a 128 in
      let a := N.shiftl a 1 mod 256 in
      let a := if high =? 0 then a else N.lxor a 27 in
      gf_mul_loop fuel a (N.shiftr b 1) product
  end.

Definition gf_mul (a b : N) : N := gf_mul_loop 8 a b 0.

Definition gf_inv (value : N) : option N :=
  if value =? 0 then None else Some (Nat.iter 254 (fun result => gf_mul result value) 1).

(** ** Bits *)

Lemma below_bits n a : a < 2 ^ n <-> forall m, n <= m -> N.testbit a m = false.
Proof.
  split.
  - intros Ha m Hm. destruct (N.eq_dec a 0) as [->|Hz]; [apply N.bits_0|].
    apply N.bits_above_log2. apply N.log2_lt_pow2 in Ha; lia.
  - intros H. destruct (N.eq_dec a 0) as [->|Hz]; [apply N.neq_0_lt_0, N.pow_nonzero; lia|].
    apply N.log2_lt_pow2; [lia|]. apply N.nle_gt. intros Hle. specialize (H _ Hle).
    rewrite N.bit_log2 in H by exact Hz. discriminate.
Qed.

Lemma lxor_below n a b : a < 2 ^ n -> b < 2 ^ n -> N.lxor a b < 2 ^ n.
Proof.
  rewrite !below_bits. intros Ha Hb m Hm. rewrite N.lxor_spec, Ha, Hb by exact Hm. reflexivity.
Qed.

Lemma lxor_byte a b : a < 256 -> b < 256 -> N.lxor a b < 256.
Proof. apply (lxor_below 8). Qed.

Lemma high_bit a : N.land a 128 =? 0 = negb (N.testbit a 7).
Proof.
  change 128 with (2 ^ 7). destruct (N.testbit a 7) eqn:E; cbn [negb].
  - apply N.eqb_neq. intros H. apply (f_equal (fun n => N.testbit n 7)) in H.
    rewrite N.land_spec, E, N.pow2_bits_true in H. discriminate.
  - apply N.eqb_eq, N.bits_inj. intros m. rewrite N.land_spec, N.pow2_bits_eqb, N.bits_0.
    destruct (N.eqb_spec 7 m) as [<-|]; [rewrite E; reflexivity|apply andb_false_r].
Qed.

Lemma low_bit b : N.land b 1 =? 0 = negb (N.odd b).
Proof. change 1 with (N.ones 1). rewrite N.land_ones. change (2 ^ 1) with 2. rewrite <- N.bit0_mod, N.bit0_odd. destruct (N.odd b); reflexivity. Qed.

(** Multiplication by x. *)
Definition xtime (a : N) : N :=
  N.lxor (N.shiftl a 1 mod 256) (if N.testbit a 7 then 27 else 0).

Lemma xtime_below a : xtime a < 256.
Proof.
  apply lxor_byte; [apply N.mod_lt; lia|]. destruct (N.testbit a 7); lia.
Qed.

Lemma xtime_lxor a b : xtime (N.lxor a b) = N.lxor (xtime a) (xtime b).
Proof.
  apply N.bits_inj. intros m. unfold xtime. change 256 with (2 ^ 8).
  rewrite N.shiftl_lxor, !N.lxor_spec.
  assert (forall n, N.testbit (n mod 2 ^ 8) m = N.testbit n m && (m <? 8)) as Hmod.
  { intros n. destruct (N.ltb_spec m 8); [rewrite N.mod_pow2_bits_low, andb_true_r by assumption; reflexivity|].
    rewrite N.mod_pow2_bits_high, andb_false_r by assumption. reflexivity. }
  rewrite !Hmod, N.lxor_spec.
  destruct (N.testbit a 7), (N.testbit b 7), (m <? 8), (N.testbit (N.shiftl a 1) m), (N.testbit (N.shiftl b 1) m);
    cbn [xorb andb]; rewrite ?N.bits_0; try reflexivity; destruct (N.testbit 27 m); reflexivity.
Qed.

(** The product as a sum over the bits of [b]. *)
Fixpoint gf_sum (n : nat) (a b : N) : N :=
  match n with
  | O => 0
  | S n => N.lxor (if N.odd b then a else 0) (gf_sum n (xtime a) (N.shiftr b 1))
  end.

Lemma gf_sum_0 n a : gf_sum n a 0 = 0.
Proof. revert a. induction n as [|n IH]; intros a; [reflexivity|]. cbn. exact (IH _). Qed.

Lemma gf_mul_loop_sum n a b p : gf_mul_loop n a b p = N.lxor p (gf_sum n a b).
Proof.
  revert a b p. induction n as [|n IH]; intros a b p; [symmetry; apply N.lxor_0_r|]. cbn [gf_mul_loop gf_sum].
  destruct (N.eqb_spec b 0) as [->|Hb].
  { change (N.odd 0) with false. change (N.shiftr 0 1) with 0. cbn iota. rewrite gf_sum_0, !N.lxor_0_r. reflexivity. }
  rewrite IH, high_bit, low_bit.
  assert ((if negb (N.testbit a 7) then N.shiftl a 1 mod 256 else N.lxor (N.shiftl a 1 mod 256) 27) = xtime a) as ->.
  { unfold xtime. destruct (N.testbit a 7); cbn [negb]; [reflexivity|]. symmetry. apply N.lxor_0_r. }
  destruct (N.odd b); cbn [negb].
  - rewrite N.lxor_assoc. reflexivity.
  - rewrite N.lxor_0_l. reflexivity.
Qed.

Lemma gf_mul_sum a b : gf_mul a b = gf_sum 8 a b.
Proof. unfold gf_mul. rewrite gf_mul_loop_sum. apply N.lxor_0_l. Qed.

Lemma gf_mul_byte a b : a < 256 -> gf_mul a b < 256.
Proof.
  rewrite gf_mul_sum. generalize 8%nat. intros n. revert a b. induction n as [|n IH]; intros a b Ha; cbn [gf_sum]; [lia|].
  apply lxor_byte; [destruct (N.odd b); lia|]. apply IH, xtime_below.
Qed.

(** *** Linearity in both arguments *)

Lemma lxor_swap a b c d : N.lxor (N.lxor a b) (N.lxor c d) = N.lxor (N.lxor a c) (N.lxor b d).
Proof. rewrite !N.lxor_assoc. f_equal. rewrite <- !N.lxor_assoc, (N.lxor_comm b c). reflexivity. Qed.

Lemma gf_mul_lxor_r a b c : gf_mul a (N.lxor b c) = N.lxor (gf_mul a b) (gf_mul a c).
Proof.
  rewrite !gf_mul_sum. generalize 8%nat. intros n. revert a b c.
  induction n as [|n IH]; intros a b c; cbn [gf_sum]; [reflexivity|].
  rewrite N.shiftr_lxor, IH, lxor_swap. f_equal. rewrite <- !N.bit0_odd, N.lxor_spec.
  destruct (N.testbit b 0), (N.testbit c 0); cbn [xorb];
    rewrite ?N.lxor_0_l, ?N.lxor_0_r, ?N.lxor_nilpotent; reflexivity.
Qed.

Lemma gf_mul_lxor_l a b c : gf_mul (N.lxor a b) c = N.lxor (gf_mul a c) (gf_mul b c).
Proof.
  rewrite !gf_mul_sum. generalize 8%nat. intros n. revert a b c.
  induction n as [|n IH]; intros a b c; cbn [gf_sum]; [reflexivity|].
  rewrite xtime_lxor, IH, lxor_swap. f_equal. destruct (N.odd c); [reflexivity|]. symmetry. apply N.lxor_0_l.
Qed.

(** What holds for the powers of two and is kept by exclusive or holds for
    every byte. *)
Lemma linear_ind (Q : N -> Prop) :
  Q 0 -> (forall i, i < 8 -> Q (2 ^ i)) -> (forall a b, Q a -> Q b -> Q (N.lxor a b)) ->
  forall a, a < 256 -> Q a.
Proof.
  intros H0 Hpow Hxor a Ha. cut (forall n, (n <= 8)%nat -> forall a, a < 2 ^ N.of_nat n -> Q a).
  { intros H. apply (H 8%nat); [lia|exact Ha]. }
  clear a Ha. induction n as [|n IH]; intros Hn a Ha.
  { replace a with 0 by (cbn in Ha; lia). exact H0. }
  destruct (N.testbit a (N.of_nat n)) eqn:E.
  - replace a with (N.lxor (N.lxor a (2 ^ N.of_nat n)) (2 ^ N.of_nat n))
      by (rewrite N.lxor_assoc, N.lxor_nilpotent; apply N.lxor_0_r).
    apply Hxor; [|apply Hpow; lia]. apply IH; [lia|]. apply below_bits. intros m Hm.
    rewrite N.lxor_spec, N.pow2_bits_eqb. destruct (N.eqb_spec (N.of_nat n) m) as [<-|Hne]; [rewrite E; reflexivity|].
    rewrite (proj1 (below_bits _ a) Ha) by lia. reflexivity.
  - apply IH; [lia|]. apply below_bits. intros m Hm. destruct (N.eq_dec (N.of_nat n) m) as [<-|Hne]; [exact E|].
    apply (proj1 (below_bits _ a) Ha). lia.
Qed.

Definition bits8 : list N := [1; 2; 4; 8; 16; 32; 64; 128].

Lemma pow2_bits8 i : i < 8 -> In (2 ^ i) bits8.
Proof.
  intros Hi. assert (i = 0 \/ i = 1 \/ i = 2 \/ i = 3 \/ i = 4 \/ i = 5 \/ i = 6 \/ i = 7) as H by lia.
  repeat destruct H as [->|H]; [cbn; tauto..|subst; cbn; tauto].
Qed.

Lemma gf_mul_0_l b : gf_mul 0 b = 0.
Proof. rewrite <- (N.lxor_nilpotent 0) at 1. rewrite gf_mul_lxor_l. apply N.lxor_nilpotent. Qed.

Lemma gf_mul_0_r a : gf_mul a 0 = 0.
Proof. rewrite gf_mul_sum. apply gf_sum_0. Qed.

Lemma gf_mul_comm a b : a < 256 -> b < 256 -> gf_mul a b = gf_mul b a.
Proof.
  intros Ha Hb. revert a Ha. apply (linear_ind (fun a => gf_mul a b = gf_mul b a)).
  - rewrite gf_mul_0_r. apply gf_mul_0_l.
  - intros i Hi. revert b Hb. apply (linear_ind (fun b => gf_mul (2 ^ i) b = gf_mul b (2 ^ i))).
    + rewrite gf_mul_0_l. apply gf_mul_0_r.
    + intros j Hj. assert (forallb (fun p => forallb (fun q => gf_mul p q =? gf_mul q p) bits8) bits8 = true) as H
        by (vm_compute; reflexivity).
      rewrite forallb_forall in H. specialize (H _ (pow2_bits8 i Hi)). rewrite forallb_forall in H.
      apply N.eqb_eq, H, pow2_bits8, Hj.
    + intros c d Hc Hd. rewrite gf_mul_lxor_r, gf_mul_lxor_l, Hc, Hd. reflexivity.
  - intros c d Hc Hd. rewrite gf_mul_lxor_r, gf_mul_lxor_l, Hc, Hd. reflexivity.
Qed.

Lemma gf_mul_assoc a b c : a < 256 -> b < 256 -> c < 256 -> gf_mul a (gf_mul b c) = gf_mul (gf_mul a b) c.
Proof.
  intros Ha Hb Hc. revert a Ha. apply (linear_ind (fun a => gf_mul a (gf_mul b c) = gf_mul (gf_mul a b) c)).
  - rewrite !gf_mul_0_l. reflexivity.
  - intros i Hi. revert b Hb. apply (linear_ind (fun b => gf_mul (2 ^ i) (gf_mul b c) = gf_mul (gf_mul (2 ^ i) b) c)).
    + rewrite gf_mul_0_r, !gf_mul_0_l, gf_mul_0_r. reflexivity.
    + intros j Hj. revert c Hc.
      apply (linear_ind (fun c => gf_mul (2 ^ i) (gf_mul (2 ^ j) c) = gf_mul (gf_mul (2 ^ i) (2 ^ j)) c)).
      * rewrite !gf_mul_0_r. reflexivity.
      * intros k Hk.
        assert (forallb (fun p => forallb (fun q => forallb (fun r =>
          gf_mul p (gf_mul q r) =? gf_mul (gf_mul p q) r) bits8) bits8) bits8 = true) as H by (vm_compute; reflexivity).
        rewrite forallb_forall in H. specialize (H _ (pow2_bits8 i Hi)). rewrite forallb_forall in H.
        specialize (H _ (pow2_bits8 j Hj)). rewrite forallb_forall in H. apply N.eqb_eq, H, pow2_bits8, Hk.
      * intros d e Hd He. rewrite !gf_mul_lxor_r, Hd, He. reflexivity.
    + intros d e Hd He. rewrite gf_mul_lxor_l, !gf_mul_lxor_r, gf_mul_lxor_l, Hd, He. reflexivity.
  - intros d e Hd He. rewrite !gf_mul_lxor_l, Hd, He. reflexivity.
Qed.

Lemma gf_mul_1_r a : gf_mul a 1 = a.
Proof. rewrite gf_mul_sum. change (N.lxor a (gf_sum 7 (xtime a) 0) = a). rewrite gf_sum_0. apply N.lxor_0_r. Qed.

(** ** Inverses

    The byte 3 generates the nonzero bytes, so every one of them has order
    dividing 255. *)

Definition gf_pow (a : N) (n : nat) : N := Nat.iter n (fun r => gf_mul r a) 1.

Lemma gf_pow_byte a n : gf_pow a n < 256.
Proof. induction n as [|n IH]; [cbn; lia|]. apply gf_mul_byte, IH. Qed.

Lemma gf_pow_add a n m : a < 256 -> gf_pow a (n + m) = gf_mul (gf_pow a n) (gf_pow a m).
Proof.
  intros Ha. induction m as [|m IH].
  - rewrite Nat.add_0_r. symmetry. apply gf_mul_1_r.
  - rewrite Nat.add_succ_r. change (gf_pow a (S ?k)) with (gf_mul (gf_pow a k) a).
    rewrite IH. symmetry. apply gf_mul_assoc; [apply gf_pow_byte|apply gf_pow_byte|exact Ha].
Qed.

Lemma gf_pow_mul a n m : a < 256 -> gf_pow a (n * m) = gf_pow (gf_pow a n) m.
Proof.
  intros Ha. induction m as [|m IH]; [rewrite Nat.mul_0_r; reflexivity|].
  rewrite Nat.mul_succ_r, gf_pow_add, IH by exact Ha. reflexivity.
Qed.

Lemma gf_pow_1 n : gf_pow 1 n = 1.
Proof. induction n as [|n IH]; [reflexivity|]. change (gf_mul (gf_pow 1 n) 1 = 1). rewrite IH. reflexivity. Qed.

(** The first [n] powers of 3. *)
Fixpoint powers (n : nat) (p : N) : list N :=
  match n with O => [] | S n => p :: powers n (gf_mul p 3) end.

Lemma powers_pow n k a : In a (powers n (gf_pow 3 k)) -> exists j, a = gf_pow 3 j.
Proof.
  revert k. induction n as [|n IH]; intros k; [intros []|]. cbn [powers].
  intros [<-|Hin]; [exists k; reflexivity|]. exact (IH (S k) Hin).
Qed.

Lemma nonzero_power a : a < 256 -> a <> 0 -> exists k, a = gf_pow 3 k.
Proof.
  intros Ha Hz. apply (powers_pow 255 0). change (gf_pow 3 0) with 1.
  assert (let ps := powers 255 1 in
    forallb (fun n => existsb (N.eqb (N.of_nat n)) ps) (seq 1 255) = true) as H by (vm_compute; reflexivity).
  cbv zeta in H. rewrite forallb_forall in H. specialize (H (N.to_nat a)).
  rewrite N2Nat.id, existsb_exists in H. destruct H as (b & Hb & ->%N.eqb_eq); [apply in_seq; lia|exact Hb].
Qed.

Lemma gf_pow_255 a : a < 256 -> a <> 0 -> gf_pow a 255 = 1.
Proof.
  intros Ha Hz. destruct (nonzero_power a Ha Hz) as [k ->].
  rewrite <- gf_pow_mul, Nat.mul_comm, gf_pow_mul by lia.
  assert (gf_pow 3 255 = 1) as -> by (vm_compute; reflexivity). apply gf_pow_1.
Qed.

Lemma gf_inv_spec a :
  a < 256 -> a <> 0 -> exists b, gf_inv a = Some b /\ b < 256 /\ gf_mul b a = 1.
Proof.
  intros Ha Hz. exists (gf_pow a 254). split; [|split; [apply gf_pow_byte|apply (gf_pow_255 a Ha Hz)]].
  unfold gf_inv. apply N.eqb_neq in Hz. rewrite Hz. reflexivity.
Qed.
