(* ===== verification/Recovery.v ===== *)
(** * Recovery quorums

    ramflux-crypto/src/recovery.rs: a 32-byte secret is split into [total]
    shares, any [threshold] of which give it back, by Shamir's scheme over the
    field of Gf256.v, one polynomial per byte. A [u8] is a number below 256 and
    a [[u8; 32]] a list of 32 of them. The operating system's random bytes are
    a parameter. *)

From Stdlib Require Import NArith Arith List Bool Lia.
From S2P Require Import Gf256.
Import ListNotations.

Open Scope N_scope.

Inductive RecoveryQuorumMemberKind := RootShare | DeviceShare | GuardianShare | HardwareTokenShare.

Record RecoveryShare := mkShare {
  share_id : N;
  threshold : N;
  total : N;
  member_kind : option RecoveryQuorumMemberKind;
  value : list N;
}.

(** The errors of the module that these operations return. *)
Inductive RecoveryError := RandomUnavailable | RecoveryQuorumInvalidParameters | RecoveryQuorumInsufficient.

(** A Rust result: [inl] is [Ok]. *)
Definition fallible (A : Type) : Type := A + RecoveryError.

Definition and_then {A B} (r : fallible A) (k : A -> fallible B) : fallible B :=
  match r with inl a => k a | inr e => inr e end.

Definition validate_quorum_parameters (threshold total : N) : fallible unit :=
  if (threshold =? 0) || (total =? 0) || (total <? threshold)
  then inr RecoveryQuorumInvalidParameters else inl tt.

Definition validate_share_metadata (share : RecoveryShare) (threshold_ total_ : N) : fallible unit :=
  if negb (threshold share =? threshold_) || negb (total share =? total_)
     || (share_id share =? 0) || (total_ <? share_id share)
  then inr RecoveryQuorumInvalidParameters else inl tt.

(** ** Splitting *)

Definition eval_byte (secret : list N) (coefficients : list (list N)) (x : N) (byte_idx : nat) : N :=
  let y := fold_left (fun accumulator coefficient => N.lxor (gf_mul accumulator x) (nth byte_idx coefficient 0))
             (rev coefficients) 0 in
  N.lxor (gf_mul y x) (nth byte_idx secret 0).

Definition eval_share (secret : list N) (coefficients : list (list N)) (x : N) : list N :=
  map (eval_byte secret coefficients x) (seq 0 32).

Section create.
(** The result of the [i]-th call of [random_32]. *)
Variable random_32 : nat -> fallible (list N).

(** The [for _ in 1..threshold] loop. *)
Fixpoint draw_coefficients (count i : nat) : fallible (list (list N)) :=
  match count with
  | O => inl []
  | S count =>
      and_then (random_32 i) (fun coefficient =>
      and_then (draw_coefficients count (S i)) (fun rest => inl (coefficient :: rest)))
  end.

Definition create_recovery_quorum (secret : list N) (threshold total : N) : fallible (list RecoveryShare) :=
  and_then (validate_quorum_parameters threshold total) (fun _ =>
  and_then (draw_coefficients (N.to_nat threshold - 1) 1) (fun coefficients =>
  inl (map (fun i => let share_id := N.of_nat i in
         mkShare share_id threshold total None (eval_share secret coefficients share_id))
         (seq 1 (N.to_nat total))))).
End create.

(** ** Recovering *)

(** The factor of one share: the product over the other positions. *)
Fixpoint basis_loop (id : N) (share_idx other_idx : nat) (others : list RecoveryShare) (basis : N)
  : fallible N :=
  match others with
  | [] => inl basis
  | other :: others =>
      if Nat.eqb share_idx other_idx then basis_loop id share_idx (S other_idx) others basis else
      let denominator := N.lxor id (share_id other) in
      match gf_inv denominator with
      | None => inr RecoveryQuorumInvalidParameters
      | Some inverse =>
          basis_loop id share_idx (S other_idx) others (gf_mul basis (gf_mul (share_id other) inverse))
      end
  end.

Definition add_term (secret value : list N) (basis : N) : list N :=
  map (fun byte_idx => N.lxor (nth byte_idx secret 0) (gf_mul (nth byte_idx value 0) basis)) (seq 0 32).

Fixpoint interpolate_loop (shares : list RecoveryShare) (share_idx : nat) (rest : list RecoveryShare)
    (secret : list N) : fallible (list N) :=
  match rest with
  | [] => inl secret
  | share :: rest =>
      and_then (basis_loop (share_id share) share_idx 0 shares 1) (fun basis =>
      interpolate_loop shares (S share_idx) rest (add_term secret (value share) basis))
  end.

Definition interpolate_secret_at_zero (shares : list RecoveryShare) : fallible (list N) :=
  interpolate_loop shares 0 shares (repeat 0 32).

(** The loop that checks shares and keeps the first of each id, until there are
    [count]. *)
Fixpoint unique_loop (threshold total : N) (count : nat) (seen : list N) (kept rest : list RecoveryShare)
  : fallible (list RecoveryShare) :=
  match rest with
  | [] => inl kept
  | share :: rest =>
      and_then (validate_share_metadata share threshold total) (fun _ =>
      if existsb (N.eqb (share_id share)) seen then unique_loop threshold total count seen kept rest else
      let kept := kept ++ [share] in
      if Nat.eqb (length kept) count then inl kept
      else unique_loop threshold total count (share_id share :: seen) kept rest)
  end.

Definition recover_secret_from_quorum (shares : list RecoveryShare) : fallible (list N) :=
  match shares with
  | [] => inr RecoveryQuorumInsufficient
  | first :: _ =>
      and_then (validate_quorum_parameters (threshold first) (total first)) (fun _ =>
      let count := N.to_nat (threshold first) in
      and_then (unique_loop (threshold first) (total first) count [] [] shares) (fun unique_shares =>
      if Nat.ltb (length unique_shares) count then inr RecoveryQuorumInsufficient
      else interpolate_secret_at_zero unique_shares))
  end.
