(* ===== verification/RecoveryFacts.v ===== *)
(** * Recovery quorums: lemmas on shares

    What the loops of Recovery.v do with the list of shares, before any field
    arithmetic. *)

From Stdlib Require Import NArith Arith List Bool Lia.
From S2P Require Import Gf256 Recovery.
Import ListNotations.

Open Scope N_scope.

(** A [[u8; 32]]. *)
Definition bytes32 (l : list N) : Prop := length l = 32%nat /\ Forall (fun b => b < 256) l.

Lemma nth_byte l i : bytes32 l -> nth i l 0 < 256.
Proof.
  intros [_ Hl]. destruct (Nat.lt_ge_cases i (length l)) as [Hi|Hi].
  - rewrite Forall_forall in Hl. apply Hl, nth_In, Hi.
  - rewrite nth_overflow by exact Hi. lia.
Qed.

Lemma length_map_seq (f : nat -> N) n : length (map f (seq 0 n)) = n.
Proof. rewrite length_map. apply length_seq. Qed.

Lemma nth_map_seq (f : nat -> N) n i : (i < n)%nat -> nth i (map f (seq 0 n)) 0 = f i.
Proof.
  intros Hi. rewrite (nth_indep _ 0 (f 0%nat)) by (rewrite length_map_seq; exact Hi).
  rewrite map_nth, seq_nth by exact Hi. reflexivity.
Qed.

Lemma list32_ext l l' :
  length l = 32%nat -> length l' = 32%nat -> (forall i, (i < 32)%nat -> nth i l 0 = nth i l' 0) -> l = l'.
Proof. intros Hl Hl' H. apply (nth_ext _ _ 0 0); [congruence|]. intros i Hi. apply H. lia. Qed.

Lemma draw_length random n i l : draw_coefficients random n i = inl l -> length l = n.
Proof.
  revert i l. induction n as [|n IH]; intros i l; cbn [draw_coefficients]; [intros [= <-]; reflexivity|].
  destruct (random i) as [c|]; [|discriminate]. cbn. destruct (draw_coefficients random n (S i)) as [r|] eqn:E; [|discriminate].
  intros [= <-]. cbn. f_equal. exact (IH _ _ E).
Qed.

Lemma draw_bytes random n i l :
  (forall j c, random j = inl c -> bytes32 c) -> draw_coefficients random n i = inl l -> Forall bytes32 l.
Proof.
  intros Hr. revert i l. induction n as [|n IH]; intros i l; cbn [draw_coefficients]; [intros [= <-]; constructor|].
  destruct (random i) as [c|] eqn:Ec; [|discriminate]. cbn. destruct (draw_coefficients random n (S i)) as [r|] eqn:E; [|discriminate].
  intros [= <-]. constructor; [exact (Hr _ _ Ec)|exact (IH _ _ E)].
Qed.

(** The checks of a share's metadata, as a proposition. *)
Definition fits (t n : N) (s : RecoveryShare) : Prop :=
  threshold s = t /\ total s = n /\ share_id s <> 0 /\ share_id s <= n.

Lemma validate_share_ok s t n : fits t n s -> validate_share_metadata s t n = inl tt.
Proof.
  intros (<- & <- & Hz & Hle). unfold validate_share_metadata. rewrite !N.eqb_refl.
  apply N.eqb_neq in Hz. rewrite Hz. apply N.ltb_ge in Hle. rewrite Hle. reflexivity.
Qed.

Lemma validate_parameters_ok t n : validate_quorum_parameters t n = inl tt <-> t <> 0 /\ n <> 0 /\ t <= n.
Proof.
  unfold validate_quorum_parameters. split.
  - destruct (N.eqb_spec t 0), (N.eqb_spec n 0), (N.ltb_spec n t); cbn; intros; try discriminate. tauto.
  - intros (H1%N.eqb_neq & H2%N.eqb_neq & H3%N.ltb_ge). rewrite H1, H2, H3. reflexivity.
Qed.

Lemma existsb_id id seen : existsb (N.eqb id) seen = true <-> In id seen.
Proof.
  rewrite existsb_exists. split; [intros (i & Hi & ->%N.eqb_eq); exact Hi|].
  intros Hi. exists id. split; [exact Hi|apply N.eqb_refl].
Qed.

(** The loop keeps shares with distinct ids; it ends with [count] of them or
    has seen every id. *)
Lemma unique_loop_spec t n count seen kept rest :
  Forall (fits t n) rest -> (forall id, In id seen <-> In id (map share_id kept)) ->
  NoDup (map share_id kept) -> (length kept < count)%nat ->
  exists k, unique_loop t n count seen kept rest = inl k /\ NoDup (map share_id k) /\
    incl k (kept ++ rest) /\ incl kept k /\
    (length k = count \/
     (length k < count)%nat /\ incl (map share_id rest) (map share_id k)).
Proof.
  intros Hfit. revert seen kept. induction Hfit as [|s rest Hs Hrest IH]; intros seen kept Hseen Hnd Hlen; cbn [unique_loop].
  { exists kept. repeat split; [exact Hnd|apply incl_appl, incl_refl|apply incl_refl|]. right. split; [exact Hlen|intros ? []]. }
  rewrite (validate_share_ok s t n Hs). cbn [and_then].
  destruct (existsb (N.eqb (share_id s)) seen) eqn:E.
  - apply existsb_id, Hseen in E. destruct (IH seen kept Hseen Hnd Hlen) as (k & Hk & Hnd' & Hin & Hkept & Hend).
    exists k. repeat split; [exact Hk|exact Hnd'| |exact Hkept|].
    + intros a Ha%Hin. apply in_app_iff in Ha as [Ha|Ha]; apply in_app_iff; [left|right; right]; exact Ha.
    + destruct Hend as [He|[Hl Hi]]; [left; exact He|right]. split; [exact Hl|].
      intros id [<-|Hid]; [apply (incl_map share_id Hkept), E|apply Hi, Hid].
  - assert (~ In (share_id s) (map share_id kept)) as Hnew.
    { intros H%Hseen%existsb_id. congruence. }
    assert (NoDup (map share_id (kept ++ [s]))) as Hnd2.
    { rewrite map_app. apply NoDup_app; [exact Hnd|repeat constructor; intros []|]. intros a Ha [<-|[]]. exact (Hnew Ha). }
    destruct (Nat.eqb_spec (length (kept ++ [s])) count) as [Hc|Hc].
    + exists (kept ++ [s]). repeat split; [exact Hnd2| |apply incl_appl, incl_refl|left; exact Hc].
      intros a Ha%in_app_iff. apply in_app_iff. destruct Ha as [Ha|[<-|[]]]; [left; exact Ha|right; left; reflexivity].
    + destruct (IH (share_id s :: seen) (kept ++ [s])) as (k & Hk & Hnd' & Hin & Hkept & Hend).
      * intros id. rewrite map_app, in_app_iff. cbn. rewrite Hseen. tauto.
      * exact Hnd2.
      * rewrite length_app in *. cbn in *. lia.
      * exists k. rewrite <- app_assoc in Hin. repeat split; [exact Hk|exact Hnd'|exact Hin| |].
        -- intros a Ha. apply Hkept, in_app_iff. left. exact Ha.
        -- destruct Hend as [He|[Hl Hi]]; [left; exact He|right]. split; [exact Hl|].
           intros id [<-|Hid]; [|apply Hi, Hid]. apply (incl_map share_id Hkept), in_map, in_app_iff. right. left. reflexivity.
Qed.

(** Enough different ids make a quorum. *)
Lemma unique_loop_quorum t n count shares :
  Forall (fits t n) shares -> (0 < count)%nat ->
  (count <= length (nodup N.eq_dec (map share_id shares)))%nat ->
  exists k, unique_loop t n count [] [] shares = inl k /\ NoDup (map share_id k) /\ incl k shares /\ length k = count.
Proof.
  intros Hfit Hpos Hmany. destruct (unique_loop_spec t n count [] [] shares Hfit) as (k & Hk & Hnd & Hin & _ & Hend).
  - tauto.
  - constructor.
  - exact Hpos.
  - exists k. repeat split; [exact Hk|exact Hnd|exact Hin|]. destruct Hend as [He|[Hl Hi]]; [exact He|].
    assert (length (nodup N.eq_dec (map share_id shares)) <= length (map share_id k))%nat; [|rewrite length_map in *; lia].
    apply NoDup_incl_length; [apply NoDup_nodup|]. intros id Hid%nodup_In. apply Hi, Hid.
Qed.

(** ** Creating shares *)

(** A source of random bytes that yields the given coefficients. *)
Definition draws (coefficients : list (list N)) (i : nat) : fallible (list N) :=
  inl (nth (i - 1) coefficients []).

Lemma draws_coefficients pre l :
  draw_coefficients (draws (pre ++ l)) (length l) (S (length pre)) = inl l.
Proof.
  revert pre. induction l as [|c l IH]; intros pre; [reflexivity|]. cbn [length draw_coefficients].
  specialize (IH (pre ++ [c])). rewrite <- app_assoc, length_app, Nat.add_1_r in IH. cbn [app] in IH.
  rewrite IH. unfold draws. cbn [and_then]. replace (S (length pre) - 1)%nat with (length pre) by lia.
  rewrite nth_middle. reflexivity.
Qed.

(** The shares that given coefficients make. *)
Definition shares_of (secret : list N) (coefficients : list (list N)) (t n : N) : list RecoveryShare :=
  map (fun i => mkShare (N.of_nat i) t n None (eval_share secret coefficients (N.of_nat i))) (seq 1 (N.to_nat n)).

Lemma create_inv random secret t n shares :
  create_recovery_quorum random secret t n = inl shares ->
  t <> 0 /\ t <= n /\ exists coefficients,
    draw_coefficients random (N.to_nat t - 1) 1 = inl coefficients /\ shares = shares_of secret coefficients t n.
Proof.
  unfold create_recovery_quorum. destruct (validate_quorum_parameters t n) as [[]|] eqn:Ev; [|discriminate].
  apply validate_parameters_ok in Ev as (Ht & _ & Hle). cbn [and_then].
  destruct (draw_coefficients random (N.to_nat t - 1) 1) as [l|]; [|discriminate]. intros [= <-].
  split; [exact Ht|]. split; [exact Hle|]. exists l. split; reflexivity.
Qed.

Lemma create_draws secret coefficients t n :
  t <> 0 -> t <= n -> length coefficients = (N.to_nat t - 1)%nat ->
  create_recovery_quorum (draws coefficients) secret t n = inl (shares_of secret coefficients t n).
Proof.
  intros Ht Hle Hl. unfold create_recovery_quorum.
  rewrite (proj2 (validate_parameters_ok t n)) by lia. cbn [and_then].
  pose proof (draws_coefficients [] coefficients) as Hd. cbn in Hd. rewrite Hl in Hd. rewrite Hd. reflexivity.
Qed.

Lemma in_shares_of secret coefficients t n s :
  In s (shares_of secret coefficients t n) <->
  s = mkShare (share_id s) t n None (eval_share secret coefficients (share_id s)) /\ 0 < share_id s <= n.
Proof.
  unfold shares_of. rewrite in_map_iff. split.
  - intros (i & <- & Hi%in_seq). cbn. split; [reflexivity|lia].
  - intros [Hs Hid]. exists (N.to_nat (share_id s)). rewrite N2Nat.id, in_seq. split; [symmetry; exact Hs|lia].
Qed.

(** Recovering from shares that pass the checks is interpolation of a subset. *)
Lemma recover_quorum t n shares :
  t <> 0 -> t <= n -> Forall (fits t n) shares ->
  (N.to_nat t <= length (nodup N.eq_dec (map share_id shares)))%nat ->
  exists k, recover_secret_from_quorum shares = interpolate_secret_at_zero k /\
    NoDup (map share_id k) /\ incl k shares /\ length k = N.to_nat t.
Proof.
  intros Ht Hle Hfit Hmany. destruct (unique_loop_quorum t n (N.to_nat t) shares Hfit) as (k & Hk & Hnd & Hin & Hl); [lia|exact Hmany|].
  exists k. split; [|split; [exact Hnd|split; [exact Hin|exact Hl]]].
  destruct shares as [|first shares]; [cbn in Hmany; lia|]. unfold recover_secret_from_quorum.
  inversion Hfit as [|? ? (Hft & Hfn & _) _]. subst. rewrite (proj2 (validate_parameters_ok _ _)) by lia.
  cbn [and_then]. rewrite Hk. cbn [and_then]. rewrite (proj2 (Nat.ltb_ge _ _)) by lia. reflexivity.
Qed.

Lemma recover_insufficient t n shares :
  t <> 0 -> t <= n -> Forall (fits t n) shares ->
  (length (nodup N.eq_dec (map share_id shares)) < N.to_nat t)%nat ->
  recover_secret_from_quorum shares = inr RecoveryQuorumInsufficient.
Proof.
  intros Ht Hle Hfit Hfew. destruct shares as [|first shares]; [reflexivity|].
  destruct (unique_loop_spec t n (N.to_nat t) [] [] (first :: shares) Hfit) as (k & Hk & Hnd & Hin & _ & _);
    [tauto|constructor|cbn; lia|].
  assert (length k < N.to_nat t)%nat as Hlen.
  { eapply Nat.le_lt_trans; [|exact Hfew]. rewrite <- (length_map share_id k).
    apply NoDup_incl_length; [exact Hnd|]. intros id Hid. apply nodup_In. exact (incl_map share_id Hin _ Hid). }
  unfold recover_secret_from_quorum. inversion Hfit as [|? ? (Hft & Hfn & _) _]. subst.
  rewrite (proj2 (validate_parameters_ok _ _)) by lia. cbn [and_then]. rewrite Hk. cbn [and_then].
  rewrite (proj2 (Nat.ltb_lt _ _)) by lia. reflexivity.
Qed.

(** A share as it was created, whatever member it was given to. *)
Definition same_share (s s' : RecoveryShare) : Prop :=
  s = mkShare (share_id s') (threshold s') (total s') (member_kind s) (value s').

Lemma created_share secret coefficients t n s s' :
  In s' (shares_of secret coefficients t n) -> same_share s s' ->
  fits t n s /\ value s = eval_share secret coefficients (share_id s).
Proof.
  intros [Es' Hid]%in_shares_of Hs. rewrite Es' in Hs. unfold same_share in Hs. cbn in Hs.
  rewrite Hs. cbn. unfold fits. cbn. repeat split; lia.
Qed.

Lemma pred_lt_threshold t : t <> 0 -> (N.to_nat t - 1 < N.to_nat t)%nat.
Proof. lia. Qed.

Lemma created_iff secret coefficients t n s :
  fits t n s -> member_kind s = None ->
  In s (shares_of secret coefficients t n) <-> value s = eval_share secret coefficients (share_id s).
Proof.
  intros (Ht & Hn & Hz & Hle) Hk. rewrite in_shares_of. destruct s as [id t' n' kind v]. cbn in *. subst.
  split; [intros [[= H] _]; exact H|]. intros H. split; [f_equal; exact H|lia].
Qed.
