(* ===== verification/Gf256Field.v ===== *)
(** * GF(256) as a field

    The bytes of Gf256.v with the field structure of MathComp, and Lagrange
    interpolation over a field: a polynomial is determined by as many values as
    its length, and its value at zero is the weighted sum the code computes. *)

From Stdlib Require Import NArith.
From HB Require Import structures.
From mathcomp Require Import boot.
From mathcomp Require Import ssralg poly.
From S2P Require Import Gf256.

Set Implicit Arguments.
Unset Strict Implicit.
Unset Printing Implicit Defensive.

Import GRing.Theory.

(** ** The field *)

Record gf := Gf { gN : N; gN_byte : N.ltb gN 256 }.

Lemma gN_inj : injective gN.
Proof. by case=> m Hm [n Hn] /= eq; subst; congr Gf; apply: bool_irrelevance. Qed.

Lemma gN_lt x : N.lt (gN x) 256.
Proof. by apply/N.ltb_lt; case: x. Qed.

Lemma ltb_byte n : N.lt n 256 -> N.ltb n 256.
Proof. by move/N.ltb_lt. Qed.

(** The byte of a number, zero when it is out of range. *)
Definition toG (n : N) : gf :=
  match N.ltb n 256 as b return N.ltb n 256 = b -> gf with
  | true => fun H => Gf H
  | false => fun _ => @Gf 0 isT
  end erefl.

Lemma toGK n : N.lt n 256 -> gN (toG n) = n.
Proof.
  move=> Hn; rw /toG; move: erefl; case: {2 3}(N.ltb n 256) => // H.
  by move: (ltb_byte Hn); rw H.
Qed.

Lemma gNK : cancel gN toG.
Proof. by move=> x; apply: gN_inj; rw toGK //; apply: gN_lt. Qed.

Lemma gf_natK : cancel (fun x => N.to_nat (gN x)) (fun n => toG (N.of_nat n)).
Proof. by move=> x; rw N2Nat.id gNK. Qed.

HB.instance Definition _ := Choice.copy gf (can_type gf_natK).

Definition addG (x y : gf) : gf := toG (N.lxor (gN x) (gN y)).
Definition mulG (x y : gf) : gf := toG (gf_mul (gN x) (gN y)).
Definition invG (x : gf) : gf := toG (if gf_inv (gN x) is Some y then y else 0).

Lemma gN_addG x y : gN (addG x y) = N.lxor (gN x) (gN y).
Proof. by rw toGK //; apply: lxor_byte; apply: gN_lt. Qed.

Lemma gN_mulG x y : gN (mulG x y) = gf_mul (gN x) (gN y).
Proof. by rw toGK //; apply: gf_mul_byte; apply: gN_lt. Qed.

Lemma addGA : associative addG.
Proof. by move=> x y z; apply: gN_inj; rw !gN_addG N.lxor_assoc. Qed.

Lemma addGC : commutative addG.
Proof. by move=> x y; apply: gN_inj; rw !gN_addG N.lxor_comm. Qed.

Lemma add0G : left_id (toG 0) addG.
Proof. by move=> x; apply: gN_inj; rw gN_addG. Qed.

Lemma addNG : left_inverse (toG 0) id addG.
Proof. by move=> x; apply: gN_inj; rw gN_addG N.lxor_nilpotent. Qed.

HB.instance Definition _ := GRing.isZmodule.Build gf addGA addGC add0G addNG.

Lemma mulGA : associative mulG.
Proof. by move=> x y z; apply: gN_inj; rw !gN_mulG gf_mul_assoc //; apply: gN_lt. Qed.

Lemma mulGC : commutative mulG.
Proof. by move=> x y; apply: gN_inj; rw !gN_mulG gf_mul_comm //; apply: gN_lt. Qed.

Lemma mul1G : left_id (toG 1) mulG.
Proof. by move=> x; rw mulGC; apply: gN_inj; rw gN_mulG gf_mul_1_r. Qed.

Lemma mulGDl : left_distributive mulG addG.
Proof. by move=> x y z; apply: gN_inj; rw gN_mulG !gN_addG !gN_mulG gf_mul_lxor_l. Qed.

Lemma oneG_neq0 : toG 1 != toG 0.
Proof. by apply/eqP => /(congr1 gN). Qed.

HB.instance Definition _ := GRing.Zmodule_isComNzRing.Build gf mulGA mulGC mul1G mulGDl oneG_neq0.

Lemma mulVG (x : gf) : x != 0%R -> (invG x * x)%R = 1%R.
Proof.
  move=> /eqP x0; have Hx : gN x <> N0 by move=> H; apply: x0; apply: gN_inj; rw H.
  have [y [Hy [Hlt Hm]]] := gf_inv_spec _ (gN_lt x) Hx.
  by apply: gN_inj; rw gN_mulG /invG Hy toGK.
Qed.

Lemma invG0 : invG 0%R = 0%R.
Proof. by apply: gN_inj. Qed.

HB.instance Definition _ := GRing.ComNzRing_isField.Build gf mulVG invG0.

Local Open Scope ring_scope.

Lemma gN_add (x y : gf) : gN (x + y) = N.lxor (gN x) (gN y).
Proof. exact: gN_addG. Qed.

Lemma gN_mul (x y : gf) : gN (x * y) = gf_mul (gN x) (gN y).
Proof. exact: gN_mulG. Qed.

(** Subtraction is addition. *)
Lemma gf_sub (x y : gf) : x - y = x + y.
Proof. by []. Qed.

Lemma gf_inv_toG n : N.lt n 256 -> n <> N0 -> gf_inv n = Some (gN (toG n)^-1).
Proof.
  move=> Hn n0; have [y [Hy [Hlt _]]] := gf_inv_spec _ Hn n0.
  have -> : (toG n)^-1 = invG (toG n) by [].
  by rw /invG [gN (toG n)]toGK // Hy toGK.
Qed.

(** Terms of the field are compared by its laws, never by running the code. *)
#[global] Opaque addG mulG invG toG gf_mul.

(** ** Interpolation *)

Section lagrange.
Variable F : fieldType.

(** A polynomial without coefficients beyond the number of points is determined
    by its values there. *)
Lemma poly_points_inj (xs : seq F) (p q : {poly F}) :
  uniq xs -> (size p <= size xs)%N -> (size q <= size xs)%N ->
  {in xs, forall x, p.[x] = q.[x]} -> p = q.
Proof.
  move=> Hu Hp Hq Heq; apply/eqP; rw -subr_eq0; apply/negPn/negP => Hnz.
  have Hroots : all (root (p - q)) xs.
    by apply/allP=> x Hx; rw /root hornerD hornerN Heq // subrr.
  have := max_poly_roots Hnz Hroots Hu; rw ltnNge => /negP; apply.
  by apply: leq_trans (size_polyD _ _) _; rw size_polyN geq_max Hp Hq.
Qed.

(** The polynomial that is 1 at the [i]-th point and 0 at the others. *)
Definition lagrange_basis (xs : seq F) (i : 'I_(size xs)) : {poly F} :=
  \prod_(j < size xs | j != i) ((xs`_i - xs`_j)^-1 *: ('X - (xs`_j)%:P)).

Definition interpolant (xs vs : seq F) : {poly F} :=
  \sum_(i < size xs) vs`_i *: lagrange_basis i.

Lemma size_lagrange_basis (xs : seq F) (i : 'I_(size xs)) : (size (lagrange_basis i) <= size xs)%N.
Proof.
  pose P := [pred j : 'I_(size xs) | j != i].
  have Hc : #|P|.+1 = size xs.
    by rw (eq_card (_ : P =i predC1 i)) // cardC1 card_ord prednK //; apply: leq_trans (ltn_ord i).
  apply: leq_trans (size_prod_leq _ _) _; rw -[X in (_ <= X)%N]Hc leq_subLR addnS ltnS addnn -muln2 -sum_nat_const.
  by apply: leq_sum => j _; apply: leq_trans (size_scale_leq _ _) _; rw size_XsubC.
Qed.

Lemma lagrange_basis_at (xs : seq F) (i k : 'I_(size xs)) :
  uniq xs -> (lagrange_basis i).[xs`_k] = (k == i)%:R.
Proof.
  move=> Hu; rw horner_prod; case: eqP => [->|/eqP ki] /=.
    rw big1 // => j ji; rw hornerZ hornerXsubC mulVf // subr_eq0.
    by rw nth_uniq // eq_sym.
  by rw (bigD1 k) //= hornerZ hornerXsubC subrr mulr0 mul0r.
Qed.

Lemma size_interpolant (xs vs : seq F) : (size (interpolant xs vs) <= size xs)%N.
Proof.
  apply: leq_trans (size_sum _ _ _) _; apply/bigmax_leqP => i _.
  by apply: leq_trans (size_scale_leq _ _) (size_lagrange_basis i).
Qed.

Lemma interpolant_at (xs vs : seq F) (k : 'I_(size xs)) :
  uniq xs -> (interpolant xs vs).[xs`_k] = vs`_k.
Proof.
  move=> Hu; rw horner_sum (bigD1 k) //= big1 ?addr0.
    by move=> i ik; rw hornerZ lagrange_basis_at // eq_sym (negPf ik) mulr0.
  by rw hornerZ lagrange_basis_at // eqxx mulr1.
Qed.

(** The value at zero of a polynomial from its values at the points. *)
Lemma lagrange_at_zero (xs : seq F) (p : {poly F}) :
  uniq xs -> (size p <= size xs)%N ->
  p.[0] = \sum_(i < size xs) p.[xs`_i] * \prod_(j < size xs | j != i) (xs`_j / (xs`_j - xs`_i)).
Proof.
  move=> Hu Hp; pose vs := [seq p.[x] | x <- xs].
  have -> : p = interpolant xs vs.
    apply: (poly_points_inj Hu Hp (size_interpolant _ _)) => x Hx.
    have Hi : (index x xs < size xs)%N by rw index_mem.
    have := interpolant_at vs (Ordinal Hi) Hu; rw /= nth_index // => ->.
    by rw (nth_map 0) // nth_index.
  rw {1}/interpolant horner_sum; apply: eq_bigr => i _.
  rw interpolant_at // hornerZ horner_prod; congr (_ * _); apply: eq_bigr => j _.
  by rw hornerZ hornerXsubC sub0r -[xs`_i - xs`_j]opprB invrN mulrNN mulrC.
Qed.
End lagrange.
