(* ===== verification/RecoveryProps.v ===== *)
(** * Recovery quorums: theorems

    Any [threshold] shares give the secret back, and fewer shares say nothing
    about it. *)

From Stdlib Require Import NArith List.
From HB Require Import structures.
From mathcomp Require Import boot.
From mathcomp Require Import ssralg poly.
From S2P Require Import Gf256 Recovery RecoveryFacts Gf256Field.

Set Implicit Arguments.
Unset Strict Implicit.
Unset Printing Implicit Defensive.

Import GRing.Theory.
Local Open Scope ring_scope.

Lemma length_size (A : Type) (l : list A) : length l = size l.
Proof. by elim: l => //= a l ->. Qed.

(** The sharing polynomial of byte [b]: the secret, then the coefficients. *)
Definition share_poly (secret : seq N) (coefficients : seq (seq N)) (b : nat) : {poly gf} :=
  Poly (toG (List.nth b secret N0) :: [seq toG (List.nth b c N0) | c <- coefficients]).

Lemma size_share_poly secret coefficients b :
  (size (share_poly secret coefficients b) <= (size coefficients).+1)%N.
Proof. by apply: leq_trans (size_Poly _) _; rw /= size_map. Qed.

Lemma share_poly_at0 secret coefficients b :
  (share_poly secret coefficients b).[0] = toG (List.nth b secret N0).
Proof. by rw horner_Poly /= mulr0 add0r. Qed.

Lemma toG_add m n : N.lt m 256 -> N.lt n 256 -> toG m + toG n = toG (N.lxor m n).
Proof.
  by move=> Hm Hn; apply: gN_inj; rw gN_add !toGK //; apply: lxor_byte.
Qed.

Lemma toG_mul m n : N.lt m 256 -> N.lt n 256 -> toG m * toG n = toG (gf_mul m n).
Proof.
  by move=> Hm Hn; apply: gN_inj; rw gN_mul !toGK //; apply: gf_mul_byte.
Qed.

(** A share is the polynomial at its id. *)
Lemma eval_byte_poly secret coefficients x b :
  bytes32 secret -> List.Forall bytes32 coefficients -> N.lt x 256 ->
  eval_byte secret coefficients x b = gN (share_poly secret coefficients b).[toG x].
Proof.
  move=> Hs Hc Hx; rw horner_Poly /= /eval_byte gN_add gN_mul (toGK Hx) (toGK (nth_byte _ _ Hs)).
  congr (N.lxor (gf_mul _ _) _); elim: Hc => [|c l Hc _ IH] //=.
  by rw List.fold_left_app /= IH gN_add gN_mul (toGK Hx) (toGK (nth_byte _ _ Hc)).
Qed.

(** ** The interpolation loops *)

Definition no_share : RecoveryShare := mkShare 0 0 0 None [::].
Definition point (s : RecoveryShare) : gf := toG (share_id s).
Definition byte_of (b : nat) (s : RecoveryShare) : gf := toG (List.nth b (value s) N0).

Definition byte_ids (shares : seq RecoveryShare) : Prop := forall s, List.In s shares -> N.lt (share_id s) 256.

Lemma prod_shift k idx n (f : nat -> gf) :
  \prod_(j < n.+1 | (k + j)%N != idx) f j =
  (if k != idx then f 0%N else 1) * \prod_(j < n | (k.+1 + j)%N != idx) f j.+1.
Proof.
  rw big_mkcond big_ord_recl /= addn0; congr (_ * _); rw [RHS]big_mkcond.
  by apply: eq_bigr => i _; rw /bump /= add1n addSnnS.
Qed.

Lemma basis_loopE id idx k others (b : gf) :
  N.lt id 256 -> byte_ids others ->
  (forall j, (j < size others)%N -> (k + j)%N != idx -> share_id (nth no_share others j) <> id) ->
  basis_loop id idx k others (gN b) =
    inl (gN (b * \prod_(j < size others | (k + j)%N != idx)
               (point (nth no_share others j) / (point (nth no_share others j) - toG id)))).
Proof.
  move=> Hid; elim: others k b => [|o others IH] k b Hb Hne /=; first by rw big_ord0 mulr1.
  have Hb' : byte_ids others by move=> s Hs; apply: Hb; right.
  have Hne' j : (j < size others)%N -> (k.+1 + j)%N != idx -> share_id (nth no_share others j) <> id.
    by move=> Hj Hk; apply: (Hne j.+1) => //; rw addnS.
  have Ho : N.lt (share_id o) 256 by apply: Hb; left.
  rw (prod_shift k idx _ (fun j => point (nth no_share (o :: others) j) / (point (nth no_share (o :: others) j) - toG id))) /=.
  case: PeanoNat.Nat.eqb_spec => [E|Hk].
    by have -> : (k != idx) = false; [rw E eqxx|rw mul1r; apply: IH].
  have /eqP Hk' : k <> idx by move=> Ek; apply: Hk.
  rw Hk'; have Hoid : share_id o <> id by apply: (Hne 0%N) => //; rw addn0.
  have Hden : N.lt (N.lxor id (share_id o)) 256 by apply: lxor_byte.
  have Hnz : N.lxor id (share_id o) <> N0 by move/N.lxor_eq => Eid; apply: Hoid.
  rw gf_inv_toG // -(toG_add Hid Ho) addrC -[toG _ + _]gf_sub -(toGK Ho) -!gN_mul IH //.
  by rw -[b * _ * _]mulrA.
Qed.

(** What the code multiplies the value of the [i]-th share with. *)
Definition weight (shares : seq RecoveryShare) (i : nat) : gf :=
  \prod_(j < size shares | j != i :> nat)
     (point (nth no_share shares j) / (point (nth no_share shares j) - point (nth no_share shares i))).

Lemma nth_In_seq (A : Type) (d : A) (l : seq A) i : (i < size l)%N -> List.In (nth d l i) l.
Proof. by elim: l i => [|a l IH] [|i] //= Hi; [left|right; apply: IH]. Qed.

Lemma basis_weight shares i :
  byte_ids shares -> uniq [seq share_id s | s <- shares] -> (i < size shares)%N ->
  basis_loop (share_id (nth no_share shares i)) i 0 shares 1 = inl (gN (weight shares i)).
Proof.
  move=> Hb Hu Hi.
  have Hin : List.In (nth no_share shares i) shares by apply: nth_In_seq.
  have := @basis_loopE (share_id (nth no_share shares i)) i 0%N shares 1 (Hb _ Hin) Hb.
  rw mul1r => -> //.
  move=> j Hj ji Heq; move/negP: ji; apply; rw add0n.
  by rw -(nth_uniq N0 _ _ Hu) ?size_map // !(nth_map no_share) // Heq.
Qed.

Lemma add_term_bytes acc v w :
  bytes32 acc -> bytes32 v -> bytes32 (add_term acc v (gN w)) /\
  forall b, (b < 32)%coq_nat ->
    toG (List.nth b (add_term acc v (gN w)) N0) = toG (List.nth b acc N0) + toG (List.nth b v N0) * w.
Proof.
  move=> Ha Hv; split=> [|b Hb].
    split; first exact: length_map_seq.
    apply/List.Forall_forall => n /List.in_map_iff [b [<- _]].
    by apply: lxor_byte; [apply: nth_byte|apply: gf_mul_byte; apply: nth_byte].
  rw /add_term nth_map_seq //; apply: gN_inj; rw gN_add gN_mul.
  rw (toGK (nth_byte _ _ Ha)) (toGK (nth_byte _ _ Hv)) toGK //.
  by apply: lxor_byte; [apply: nth_byte|apply: gf_mul_byte; apply: nth_byte].
Qed.

Lemma interpolate_loopE shares idx rest acc :
  byte_ids shares -> uniq [seq share_id s | s <- shares] ->
  (forall s, List.In s rest -> bytes32 (value s)) -> rest = drop idx shares -> bytes32 acc ->
  exists2 l, interpolate_loop shares idx rest acc = inl l & bytes32 l /\
    forall b, (b < 32)%coq_nat ->
      toG (List.nth b l N0) = toG (List.nth b acc N0) +
        \sum_(j < size rest) byte_of b (nth no_share rest j) * weight shares (idx + j).
Proof.
  move=> Hb Hu; elim: rest idx acc => [|s rest IH] idx acc Hv Hdrop Hacc /=.
    by exists acc => //; split=> // b _; rw big_ord0 addr0.
  have Hidx : (idx < size shares)%N by rw ltnNge; apply/negP => /drop_oversize; rw -Hdrop.
  have [Hs Hrest] : nth no_share shares idx = s /\ rest = drop idx.+1 shares.
    by move: Hdrop; rw (drop_nth no_share) // => -[<- <-].
  have := basis_weight Hb Hu Hidx; rw Hs => -> /=.
  have [Hb32 Hterm] := add_term_bytes (weight shares idx) Hacc (Hv s (or_introl erefl)).
  have [l Hl [Hl32 Hbytes]] := IH idx.+1 _ (fun s' H => Hv s' (or_intror H)) Hrest Hb32.
  exists l; [exact: Hl|split; first exact: Hl32] => b Hb'.
  rw (Hbytes b Hb') (Hterm b Hb') big_ord_recl addn0 addrA.
  apply: (f_equal2 (fun u v : gf => u + v)); first by rw /byte_of.
  by apply: eq_bigr => j _; rw lift0 addSnnS.
Qed.

(** ** Shares of a polynomial *)

Lemma mem_In (n : N) (l : seq N) : n \in l -> List.In n l.
Proof. by elim: l => //= a l IH; rw in_cons => /orP[/eqP ->|/IH]; [left|right]. Qed.

Lemma NoDup_uniq (shares : seq RecoveryShare) :
  List.NoDup (List.map share_id shares) -> uniq [seq share_id s | s <- shares].
Proof.
  elim: shares => //= s shares IH H; inversion H as [|? ? Hnot Hnd]; subst; rw IH // andbT.
  apply/negP => /mem_In; rw (_ : [seq share_id s | s <- shares] = List.map share_id shares) //.
Qed.

Lemma points_uniq (shares : seq RecoveryShare) :
  byte_ids shares -> uniq [seq share_id s | s <- shares] -> uniq [seq point s | s <- shares].
Proof.
  move=> Hb Hu; rw (map_comp toG share_id) map_inj_in_uniq // => m n.
  have Hlt k : k \in [seq share_id s | s <- shares] -> N.lt k 256.
    by move=> /mem_In /List.in_map_iff [s [<- Hs]]; apply: Hb.
  by move=> /Hlt Hm /Hlt Hn /(congr1 gN); rw !toGK.
Qed.

(** The secret byte is the weighted sum of the share bytes. *)
Lemma weighted_sum (shares : seq RecoveryShare) (p : {poly gf}) :
  uniq [seq point s | s <- shares] -> (size p <= size shares)%N ->
  p.[0] = \sum_(i < size shares) p.[point (nth no_share shares i)] * weight shares i.
Proof.
  move=> Hu Hp; pose xs := [seq point s | s <- shares].
  have Hsz : size xs = size shares by rw size_map.
  have nthE (k : 'I_(size shares)) : xs`_k = point (nth no_share shares k) by rw (nth_map no_share).
  have Hp' : (size p <= size xs)%N by rw Hsz.
  apply: (etrans (lagrange_at_zero Hu Hp')).
  rw -(big_mkord xpredT (fun i => p.[xs`_i] * \prod_(j < size xs | j != i :> nat) (xs`_j / (xs`_j - xs`_i)))).
  rw Hsz big_mkord; apply: eq_bigr => i _; rw nthE.
  apply: (f_equal2 (fun u v : gf => u * v)); first exact: erefl.
  by apply: eq_bigr => j _; rw nthE.
Qed.

(** Shares that lie on the sharing polynomials. *)
Definition on_poly (secret : seq N) (coefficients : seq (seq N)) (s : RecoveryShare) : Prop :=
  N.lt (share_id s) 256 /\ value s = eval_share secret coefficients (share_id s).

Lemma eval_share_bytes secret coefficients x :
  bytes32 secret -> List.Forall bytes32 coefficients -> N.lt x 256 -> bytes32 (eval_share secret coefficients x).
Proof.
  move=> Hs Hc Hx; split; first exact: length_map_seq.
  apply/List.Forall_forall => n /List.in_map_iff [b [<- _]].
  by rw eval_byte_poly //; apply: gN_lt.
Qed.

Lemma byte_of_on_poly secret coefficients s b :
  bytes32 secret -> List.Forall bytes32 coefficients -> on_poly secret coefficients s -> (b < 32)%coq_nat ->
  byte_of b s = (share_poly secret coefficients b).[point s].
Proof.
  move=> Hs Hc [Hid Hv] Hb; apply: gN_inj; rw /byte_of Hv /eval_share (nth_map_seq _ _ _ Hb).
  by rw (eval_byte_poly _ Hs Hc Hid) gNK.
Qed.

Lemma repeat_bytes : bytes32 (List.repeat N0 32).
Proof. by split; [exact: List.repeat_length|apply/List.Forall_forall => n Hn; rw (List.repeat_spec _ _ _ Hn)]. Qed.

Lemma interpolate_on_poly secret coefficients (shares : seq RecoveryShare) :
  bytes32 secret -> List.Forall bytes32 coefficients ->
  (forall s, List.In s shares -> on_poly secret coefficients s) ->
  uniq [seq share_id s | s <- shares] -> (size coefficients < size shares)%N ->
  interpolate_secret_at_zero shares = inl secret.
Proof.
  move=> Hs Hc Hon Hu Hsz.
  have Hb : byte_ids shares by move=> s /Hon [].
  have Hv s : List.In s shares -> bytes32 (value s).
    by move=> /Hon [Hid ->]; apply: eval_share_bytes.
  have [l Hl [Hl32 Hbytes]] := interpolate_loopE Hb Hu Hv (esym (drop0 shares)) repeat_bytes.
  rw /interpolate_secret_at_zero Hl; congr inl; apply: list32_ext; [by case: Hl32|by case: Hs|] => b Hb32.
  have Hbyte : toG (List.nth b l N0) = toG (List.nth b secret N0).
    rw (Hbytes b Hb32) -(share_poly_at0 secret coefficients b) (weighted_sum (points_uniq Hb Hu)).
      exact: leq_trans (size_share_poly _ _ _) Hsz.
    rw List.nth_repeat add0r; apply: eq_bigr => j _.
    by rw (byte_of_on_poly Hs Hc _ Hb32) //; apply: Hon; apply: nth_In_seq.
  by rw -(toGK (nth_byte _ b Hl32)) Hbyte toGK //; apply: nth_byte.
Qed.

(** ** The theorems *)

(** C11: A quorum recovers the secret. Take shares of one secret, in any order,
    with repetitions, whatever member kind they were marked with. If they have at
    least [threshold] different ids, recovery returns the secret; otherwise it
    returns the error that there are not enough of them. *)
Theorem quorum_recovers random_32 secret t n shares quorum :
  bytes32 secret -> (forall i c, random_32 i = inl c -> bytes32 c) -> N.lt n 256 ->
  create_recovery_quorum random_32 secret t n = inl shares ->
  (forall s, List.In s quorum -> exists s', List.In s' shares /\ same_share s s') ->
  recover_secret_from_quorum quorum =
    if Nat.leb (N.to_nat t) (length (List.nodup N.eq_dec (List.map share_id quorum))) then inl secret
    else inr RecoveryQuorumInsufficient.
Proof.
  move=> Hs Hr Hn /create_inv [Ht [Hle [coefficients [Hc ->]]]] Hq.
  have Hc32 := draw_bytes _ _ _ _ Hr Hc.
  have Hall s : List.In s quorum -> fits t n s /\ on_poly secret coefficients s.
    move=> /Hq [s' [Hin Hsame]]; have [Hfit Hv] := created_share _ _ _ _ _ _ Hin Hsame.
    by split=> //; split=> //; apply: N.le_lt_trans Hn; case: Hfit => _ [_ [_]].
  have Hfits : List.Forall (fits t n) quorum by apply/List.Forall_forall => s /Hall [].
  case: PeanoNat.Nat.leb_spec => [Hmany|Hfew]; last exact: recover_insufficient Ht Hle Hfits Hfew.
  have [k [-> [Hnd [Hin Hlen]]]] := recover_quorum _ _ _ Ht Hle Hfits Hmany.
  apply: (interpolate_on_poly Hs Hc32) => [s /Hin /Hall []//||]; first exact: NoDup_uniq.
  rw -!length_size Hlen (draw_length _ _ _ _ Hc); apply/ltP; exact: pred_lt_threshold.
Qed.

(** *** Secrecy *)

(** The points a forger must meet: the secret at zero and the seen shares. *)
Definition seen_points (ids : seq N) : seq gf := 0 :: [seq toG id | id <- ids].

Definition forged_poly (secret : seq N) (ids : seq N) (values : seq (seq N)) (b : nat) : {poly gf} :=
  interpolant (seen_points ids) (toG (List.nth b secret N0) :: [seq toG (List.nth b v N0) | v <- values]).

Definition forged (secret : seq N) (ids : seq N) (values : seq (seq N)) : seq (seq N) :=
  [seq List.map (fun b => gN (forged_poly secret ids values b)`_j.+1) (List.seq 0 32) | j <- iota 0 (size ids)].

Lemma share_poly_coef secret coefficients b j :
  (j < size coefficients)%N ->
  (share_poly secret coefficients b)`_j.+1 = toG (List.nth b (nth [::] coefficients j) N0).
Proof. by move=> Hj; rw coef_Poly /= (nth_map [::]). Qed.

Lemma Forall_nth_seq (l : seq (seq N)) j : List.Forall bytes32 l -> (j < size l)%N -> bytes32 (nth [::] l j).
Proof. by move=> /List.Forall_forall H Hj; apply: H; apply: nth_In_seq. Qed.

Lemma In_map_seq (A B : Type) (f : A -> B) (l : seq A) c : List.In c [seq f a | a <- l] -> exists a, c = f a.
Proof. by elim: l => //= a l IH [<-|//]; exists a. Qed.

Lemma share_poly_inj secret c c' :
  List.Forall bytes32 c -> List.Forall bytes32 c' -> size c = size c' ->
  (forall b, (b < 32)%coq_nat -> share_poly secret c b = share_poly secret c' b) -> c = c'.
Proof.
  move=> Hc Hc' Hsz Heq; apply: (@eq_from_nth _ [::]) => // j Hj.
  have Hj' : (j < size c')%N by rw -Hsz.
  have [Hb Hb'] := (Forall_nth_seq Hc Hj, Forall_nth_seq Hc' Hj').
  apply: list32_ext; [by case: Hb|by case: Hb'|] => b Hlt.
  rw -(toGK (nth_byte _ b Hb)) -(toGK (nth_byte _ b Hb')).
  by rw -!(share_poly_coef secret) // Heq.
Qed.

Section secrecy.
Variables (secret ids : seq N) (values : seq (seq N)).
Hypothesis secret32 : bytes32 secret.
Hypothesis ids_nodup : List.NoDup ids.
Hypothesis ids_bytes : forall id, List.In id ids -> id <> N0 /\ N.lt id 256.
Hypothesis values32 : List.Forall bytes32 values.
Hypothesis values_len : length values = length ids.

Lemma seen_points_uniq : uniq (seen_points ids).
Proof.
  have Hu : uniq ids.
    by elim: ids_nodup => //= a l Ha _ ->; rw andbT; apply/negP => /mem_In.
  rw /= map_inj_in_uniq ?Hu ?andbT => [m n /mem_In /ids_bytes [_ Hm] /mem_In /ids_bytes [_ Hn] /(congr1 gN)|].
    by rw !toGK.
  apply/negP => /mapP [id /mem_In /ids_bytes [Hz Hlt]] /(congr1 gN); rw toGK // => E; by apply: Hz.
Qed.

Lemma size_forged : size (forged secret ids values) = size ids.
Proof. by rw size_map size_iota. Qed.

Lemma nth_forged j b : (j < size ids)%N -> (b < 32)%coq_nat ->
  List.nth b (nth [::] (forged secret ids values) j) N0 = gN (forged_poly secret ids values b)`_j.+1.
Proof.
  move=> Hj Hb; rw (nth_map 0%N) ?size_iota // nth_iota // add0n.
  exact: (nth_map_seq (fun b => gN (forged_poly secret ids values b)`_j.+1)).
Qed.

Lemma forged_bytes : List.Forall bytes32 (forged secret ids values).
Proof.
  apply/List.Forall_forall => c Hc; have [j ->] := In_map_seq Hc.
  split; first exact: length_map_seq.
  by apply/List.Forall_forall => n /List.in_map_iff [b [<- _]]; apply: gN_lt.
Qed.

Lemma forged_at_seen b k :
  (k < size (seen_points ids))%N ->
  (forged_poly secret ids values b).[(seen_points ids)`_k] =
  (toG (List.nth b secret N0) :: [seq toG (List.nth b v N0) | v <- values])`_k.
Proof. by move=> Hk; apply: (interpolant_at _ (Ordinal Hk)); apply: seen_points_uniq. Qed.

(** The forged coefficients make the interpolating polynomials. *)
Lemma share_poly_forged b :
  (b < 32)%coq_nat -> share_poly secret (forged secret ids values) b = forged_poly secret ids values b.
Proof.
  move=> Hb; have Hsz : (size (forged_poly secret ids values b) <= (size ids).+1)%N.
    by apply: leq_trans (size_interpolant _ _) _; rw /= size_map.
  apply/polyP => -[|j]; first by rw -!horner_coef0 share_poly_at0 (forged_at_seen b (k := 0)).
  case: (ltnP j (size ids)) => Hj; first by rw share_poly_coef ?size_forged // nth_forged // gNK.
  rw !nth_default //; last exact: leq_trans Hsz _.
  by apply: leq_trans (size_share_poly _ _ _) _; rw size_forged.
Qed.

Lemma forged_shares i :
  (i < size ids)%N -> eval_share secret (forged secret ids values) (nth N0 ids i) = nth [::] values i.
Proof.
  move=> Hi; have Hsz : size values = size ids by rw -!length_size.
  have Hv := Forall_nth_seq values32 (_ : (i < size values)%N); rw Hsz in Hv.
  have [_ Hid] := ids_bytes (nth_In_seq N0 Hi).
  apply: list32_ext; [exact: length_map_seq|by case: (Hv Hi)|] => b Hb.
  rw /eval_share nth_map_seq // (eval_byte_poly _ secret32 forged_bytes Hid) share_poly_forged //.
  have := @forged_at_seen b i.+1; rw /= size_map (nth_map N0) // (nth_map [::]) ?Hsz // => -> //.
  by rw toGK //; apply: nth_byte; apply: Hv.
Qed.
End secrecy.

Lemma map_List (A B : Type) (f : A -> B) (l : seq A) : List.map f l = [seq f a | a <- l].
Proof. by elim: l => //= a l ->. Qed.

(** Coefficients that explain the seen shares agree. *)
Lemma explained_unique secret (seen : seq RecoveryShare) c c' :
  bytes32 secret -> List.Forall bytes32 c -> List.Forall bytes32 c' ->
  length c = length seen -> length c' = length seen -> List.NoDup (List.map share_id seen) ->
  (forall s, List.In s seen -> share_id s <> N0) ->
  (forall s, List.In s seen -> on_poly secret c s /\ on_poly secret c' s) -> c = c'.
Proof.
  move=> Hs Hc Hc' Hl Hl' Hnd Hz Hon; rw !length_size in Hl Hl'.
  apply: (share_poly_inj (secret := secret) Hc Hc'); first by rw Hl Hl'.
  move=> b Hb; apply: (poly_points_inj (xs := seen_points [seq share_id s | s <- seen])).
  - apply: seen_points_uniq; first by rw -map_List.
    by move=> id; rw -map_List => /List.in_map_iff [s [<- Hin]]; have [[Hlt _] _] := Hon s Hin; split; first exact: Hz.
  - by apply: leq_trans (size_share_poly _ _ _) _; rw /= !size_map Hl.
  - by apply: leq_trans (size_share_poly _ _ _) _; rw /= !size_map Hl'.
  move=> x; rw in_cons => /orP[/eqP ->|/mapP [id /mem_In Hin ->]]; first by rw !share_poly_at0.
  move: Hin; rw -map_List => /List.in_map_iff [s [<- Hin]]; have [H1 H2] := Hon s Hin.
  by rw -[toG _]/(point s) -(byte_of_on_poly Hs Hc H1 Hb) -(byte_of_on_poly Hs Hc' H2 Hb).
Qed.

(** Forged coefficients explain the seen shares. *)
Lemma forged_on_poly secret (seen : seq RecoveryShare) s :
  bytes32 secret -> List.NoDup (List.map share_id seen) ->
  (forall s, List.In s seen -> share_id s <> N0 /\ N.lt (share_id s) 256) ->
  (forall s, List.In s seen -> bytes32 (value s)) -> List.In s seen ->
  on_poly secret (forged secret (List.map share_id seen) (List.map value seen)) s.
Proof.
  move=> Hs Hnd Hid Hv Hin; split; first by case: (Hid s Hin).
  have [i Hi Es] : exists2 i, (i < size seen)%N & nth no_share seen i = s.
    elim: seen Hin {Hnd Hid Hv} => //= a l IH [->|/IH [i Hi <-]]; first by exists 0%N.
    by exists i.+1.
  have := @forged_shares secret (List.map share_id seen) (List.map value seen) Hs Hnd _ _ _ i.
  rw !map_List !(nth_map no_share) ?size_map // Es => -> //.
  - by move=> id; rw -map_List => /List.in_map_iff [s' [<- /Hid]].
  - by apply/List.Forall_forall => v; rw -map_List => /List.in_map_iff [s' [<- /Hv]].
  - by rw !length_size !size_map.
Qed.

(** C12: Fewer shares than the threshold say nothing about the secret. Whatever
    [threshold - 1] shares somebody holds, every secret explains them, with exactly
    one choice of the random coefficients; so uniformly random coefficients leave
    all secrets equally likely. *)
Theorem fewer_shares_say_nothing secret t n (seen : seq RecoveryShare) :
  bytes32 secret -> t <> N0 -> N.le t n -> N.lt n 256 ->
  length seen = (N.to_nat t - 1)%coq_nat -> List.NoDup (List.map share_id seen) ->
  (forall s, List.In s seen -> fits t n s /\ member_kind s = None /\ bytes32 (value s)) ->
  exists! coefficients,
    (List.Forall bytes32 coefficients /\ length coefficients = (N.to_nat t - 1)%coq_nat) /\
    exists shares, create_recovery_quorum (draws coefficients) secret t n = inl shares /\ List.incl seen shares.
Proof.
  move=> Hs Ht Hle Hn Hlen Hnd Hseen.
  have Hid s : List.In s seen -> share_id s <> N0 /\ N.lt (share_id s) 256.
    by move=> /Hseen [[_ [_ [Hz Hsn]]] _]; split=> //; apply: N.le_lt_trans Hn.
  have Hexp c : length c = (N.to_nat t - 1)%coq_nat ->
      (exists shares, create_recovery_quorum (draws c) secret t n = inl shares /\ List.incl seen shares) <->
      forall s, List.In s seen -> on_poly secret c s.
    move=> Hc; have Hcr := create_draws secret _ t n Ht Hle Hc; split.
      move=> [sh [E Hincl]] s Hin; move: E; rw Hcr => -[E]; move: (Hincl s Hin); rw -E.
      by have [Hf [Hk _]] := Hseen s Hin; move/(created_iff _ _ _ _ _ Hf Hk) => Hv; split=> //; case: (Hid s Hin).
    move=> Hon; exists (shares_of secret c t n); split=> // s Hin.
    by have [Hf [Hk _]] := Hseen s Hin; apply/(created_iff _ _ _ _ _ Hf Hk); case: (Hon s Hin).
  pose c := forged secret (List.map share_id seen) (List.map value seen).
  have Hb : List.Forall bytes32 c := forged_bytes _ _ _.
  have Hsz : length c = (N.to_nat t - 1)%coq_nat by rw -Hlen !length_size size_forged map_List size_map.
  have Hon s : List.In s seen -> on_poly secret c s.
    by apply: forged_on_poly => // s' /Hseen [_ [_]].
  exists c; split; first by split; [|apply/Hexp].
  move=> c' [[Hb' Hsz'] /(Hexp _ Hsz') Hon'].
  apply: (explained_unique Hs Hb Hb' (etrans Hsz (esym Hlen)) (etrans Hsz' (esym Hlen)) Hnd) => s Hin.
    by case: (Hid s Hin).
  by split; [apply: Hon|apply: Hon'].
Qed.

(** ** A concrete quorum: two of three *)

Module RecoveryRun.
Definition secret : seq N := List.repeat 66%num 32.
Definition coefficients : seq (seq N) := [:: List.repeat 5%num 32].
Definition source (i : nat) : fallible (seq N) := inl (List.repeat 5%num 32).

Lemma repeat32 n : N.lt n 256 -> bytes32 (List.repeat n 32).
Proof. by move=> Hn; split; [exact: List.repeat_length|apply/List.Forall_forall => m Hm; rw (List.repeat_spec _ _ _ Hm)]. Qed.

(** The third and the first share, the latter twice. *)
Definition share (i : N) (kind : option RecoveryQuorumMemberKind) : RecoveryShare :=
  mkShare i 2 3 kind (eval_share secret coefficients i).
Definition quorum : seq RecoveryShare :=
  [:: share 3 (Some GuardianShare); share 1 None; share 1 (Some RootShare)].
End RecoveryRun.

Lemma quorum_recovers_witness :
  create_recovery_quorum RecoveryRun.source RecoveryRun.secret 2 3 =
    inl (shares_of RecoveryRun.secret RecoveryRun.coefficients 2 3) /\
  recover_secret_from_quorum RecoveryRun.quorum = inl RecoveryRun.secret.
Proof.
  have Hc : create_recovery_quorum RecoveryRun.source RecoveryRun.secret 2 3 =
    inl (shares_of RecoveryRun.secret RecoveryRun.coefficients 2 3) by [].
  split; first exact: Hc.
  apply: (etrans (@quorum_recovers RecoveryRun.source RecoveryRun.secret 2 3 _ RecoveryRun.quorum
    (RecoveryRun.repeat32 (n := 66%num) _) _ _ Hc _)) => //.
  - by move=> i c [<-]; apply: RecoveryRun.repeat32.
  - move=> s Hs; exists (RecoveryRun.share (share_id s) None).
    split; first by apply/in_shares_of; case: Hs => [<-|[<-|[<-|//]]].
    by case: Hs => [<-|[<-|[<-|//]]].
Defined.

Lemma fewer_shares_say_nothing_witness :
  exists! coefficients,
    (List.Forall bytes32 coefficients /\ length coefficients = 1%coq_nat) /\
    exists shares, create_recovery_quorum (draws coefficients) RecoveryRun.secret 2 3 = inl shares /\
      List.incl [:: mkShare 2 2 3 None (List.repeat 9%num 32)] shares.
Proof.
  apply: (@fewer_shares_say_nothing RecoveryRun.secret 2 3) => //.
  - exact: RecoveryRun.repeat32.
  - by constructor=> //; constructor.
  - by move=> s [<-|//]; split; [split=> //; split=> //; split|split=> //; apply: RecoveryRun.repeat32].
Defined.
